(* ===== verification/_CoqProject ===== *)
-Q . S2P
Prelude.v
Turnstile.v
Nullifier.v
Burn.v
AnchorLog.v
Tree.v
Bundle.v
ShieldedState.v
StateRoot.v
Limbs.v
MuHash.v
Tx.v
Encoding.v
TxHash.v
BundleVerify.v
ScriptNum.v
DataStack.v
ScriptMeter.v
Covenants.v
ScriptParse.v
ScriptBuilder.v
IndexMap.v
DbCache.v
ZkPrecompiles.v
Engine.v
Opcodes.v
ScriptEngine.v
ExampleCrypto.v
EngineSafe.v
EngineCache.v
Multisig.v
TxValidator.v
TxIsolation.v
TxScripts.v
TxContext.v
ShieldedStores.v
ShieldedManager.v
ShieldedSnapshots.v
Coinbase.v
CoinbaseNotes.v
Mergeset.v
ChainWalk.v
ChainSpec.v
ChainExample.v
ReorgSafety.v
SelectedChain.v
History.v
WalletStart.v
HistoryBackfill.v
HistoryVerify.v
HistorySafety.v
HistoryFlow.v
HistorySync.v
HistoryExample.v
