(* ===== verification/Prelude.v ===== *)
(** * Verification of the ZKas node (zkas-rusty)

    ZKas is a proof-of-work block DAG node whose money lives in a shielded Orchard
    pool.  This library models the consensus code that decides what happens to that
    money, from the bytes of a transaction to the state a node holds after any
    sequence of reorganizations and restarts, and proves it correct.  Paths below are
    relative to src/.

    ** The program and how its parts interact

    A block carries transactions and a coinbase.  A transaction is checked in
    isolation and then against the entries it spends: masses, covenant bindings, the
    scripts of its inputs, and, for a shielded transaction, its Orchard bundle.  When
    a block joins the selected chain, the transactions its mergeset accepts are
    walked in consensus order; a spend whose nullifier was already seen is dropped;
    the coinbase must be the one the rewards of the mergeset give; its outputs are
    minted as notes; and the block is applied to the nullifier set, the commitment
    tree, the supply ledger and the burn accumulator.  The results are stored as
    snapshots per block, and the state root of a block is committed by its children.
    A reorganization reverts and re-applies nullifiers and validates the new blocks.
    A node that starts from a pruning point imports the state there, and can fetch,
    verify and serve the history below it for wallets.

    ** Files

    Foundations
    - [Prelude] (this file): outcomes of Rust functions ([res]: result, error or
      panic), fixed-width arithmetic, bytes and integer encodings, list and option
      lemmas, tactics and hint databases.
    - [Limbs]: little-endian 64-bit limbs (math/src/uint.rs).
    - [Encoding]: self-delimiting encodings (consensus/core/src/hashing/mod.rs).
    - [IndexMap], [DbCache]: the bounded cache of the database layer
      (database/src/cache.rs) over the index map it uses.

    Shielded pool (shielded-core/src)
    - [Turnstile] (turnstile.rs): the supply ledger and the value commitments.
    - [Nullifier] (nullifier.rs): the interface [NullifierSet], its in-memory
      instance, and first-in-order conflict resolution.
    - [Burn] (burn.rs): exit receipts and their Merkle accumulator.
    - [AnchorLog] (anchor_window.rs): the mountain range of anchors and its replay.
    - [Tree] (tree.rs): the note-commitment tree kept by its frontier.
    - [Bundle] (bundle.rs), [BundleVerify] (verify.rs): wire format and verification.
    - [ShieldedState] (state.rs): the transition of one chain block.
    - [StateRoot] (commitment.rs): the committed state root.
    - [CoinbaseNotes] (coinbase.rs): the notes that pay rewards.
    - [MuHash] (crypto/muhash/src): the multiset hash of nullifiers, limb by limb.

    Transactions and scripts
    - [Tx], [TxHash] (consensus/core/src/tx.rs, mass, hashing): transactions, masses,
      ids and signature hashes.
    - [ScriptNum], [DataStack], [ScriptMeter], [ScriptParse], [ScriptBuilder],
      [Covenants], [ZkPrecompiles] (crypto/txscript/src): the parts of the script
      engine.
    - [Engine], [Opcodes], [ScriptEngine]: its state monad, one definition per
      opcode, and execution; [EngineSafe], [EngineCache], [Multisig]: its theorems.
    - [TxValidator] (consensus/src/processes/transaction_validator): the rules of a
      transaction; [TxIsolation], [TxScripts], [TxContext]: what they decide.
    - [ExampleCrypto]: concrete libraries for the witnesses.

    Chain
    - [Coinbase] (consensus/src/processes/coinbase.rs): issuance.
    - [ShieldedStores] (consensus/src/model/stores/shielded.rs),
      [ShieldedManager] (consensus/src/processes/shielded.rs): the persisted state
      and its driver; [ShieldedSnapshots]: the rows of a block represent its state.
    - [Mergeset], [ChainWalk] (consensus/src/pipeline/virtual_processor): the shielded
      side of block verification and of the virtual chain walk.
    - [ChainSpec]: the state as a function of the selected chain; [ReorgSafety]: the
      walk implements it; [ChainExample]: a concrete block tree.

    History
    - [SelectedChain] (consensus/src/model/stores/selected_chain.rs): the chain index.
    - [History] (consensus/src/consensus/mod.rs): serving, placing, verifying and
      purging archived records, and the queries of wallets; [WalletStart],
      [HistoryBackfill], [HistoryVerify], [HistorySafety], [HistorySync]: its
      theorems; [HistoryExample]: two concrete nodes.

    ** How code is rendered

    Definitions keep the names of the source.  Every profile of the workspace sets
    [overflow-checks = true], so an overflow, an index out of range, a failed
    assertion or an [unwrap] of nothing is [Panic], a value of its own that theorems
    exclude explicitly.  Machine integers are [Z] with their width in each operation.
    Mutation is state passing; the script engine is a state and error monad; a
    database is one map per store prefix, and a batch is the list of its staged
    operations.  Iteration over hash maps is written as iteration over an explicit
    list where the order is fixed by the code, and is proved not to matter where it
    is not.  Error values keep their constructors and their data, but not their texts.

    Third-party code is a parameter: hash functions, the Orchard, Halo 2, RedPallas
    and secp256k1 libraries, the proof systems of the precompiles, the ChaCha20
    stream, modular inverses, random draws of a cache.  What the code relies on is a
    law of the interface ([OrchardTreeLaws], [MuHashLaws], [ScriptHashesLaws] and the
    like), and each interface has an instance in the library, used by the witnesses.
    Headers, the ghostdag order, the reachability service and the transparent UTXO
    view are data of the chain model ([ChainData], [Reachability]) with the laws the
    block pipeline guarantees ([BlockLaws], [ReachabilityLaws]), which the example
    tree satisfies.

    ** What the theorems show

    - Transactions.  Validation accepts exactly the transactions that meet the rules,
      stated declaratively, whatever the caches hold and in whatever order the inputs
      are checked ([validation_exact], [isolation_exact], [check_scripts_order_free],
      [sig_cache_transparent]).  Script execution never panics and keeps its limits
      ([execute_never_panics]); multisig decides the existence of an ordered
      assignment ([multisig_exact]); covenant contexts are those of the specification.
      Ids, signature hashes and bundle messages commit to their contents.
    - Encodings and arithmetic.  Bundles, scripts, script numbers and coinbase
      payloads round-trip exactly; limb arithmetic is that of the field; masses,
      subsidies and meters stay in their ranges; the bounded cache agrees with the
      store behind it.
    - Pool.  Value is conserved across any sequence of blocks, no nullifier is
      accepted twice, and the transition of a block is characterized on every branch;
      the persisted chain refines the abstract history of the pool
      ([shielded_chain_refines_history]); coinbases pay exactly what is owed; and on
      every node the pool is backed by the subsidies issued ([supply_backed]).
    - Reorganizations.  Nodes on the same block agree on nullifiers, state root and
      anchors, whatever their histories ([reorg_convergence]); a valid chain is
      adopted whole ([reorg_adopts_valid_chain]); an interrupted walk recovers when it
      is resumed to the same target ([reorg_crash_recovery]), and not when it is
      resumed to the block it came from ([interrupted_walk_other_target]).
    - History.  The chain index is exactly the selected chain ([chain_index_exact]).
      A verified history is backed by the whole archive ([verified_history_sound]); a
      node's own archive verifies ([own_history_verifies]), and what it serves is
      accepted and verifies on a node that starts from a pruning point
      ([served_history_verifies]); a rejected history is undone
      ([rejected_history_restores]), except in two cases of the code
      ([anchor_only_chunk_unmarked], [anchor_record_survives]).

    ** Bounds and fuel

    Loops over lists, ranges and structures are structural.  The others carry fuel:
    the anchor log's carry loop takes 65 steps, one more than the bits of its count; splitting
    into chunks, script parsing and script numbers take the length or the width of
    their input; cache eviction the number of entries; the birthday search the number
    of indexes ([first_reaching_ok]).  For these the theorems show that the fuel
    given is enough.  The counter loop that derives a coinbase seed has no bound in
    the code but the width of its counter: its fuel is a parameter,
    [coinbase_mint_exact] shows that any fuel above the first counter that gives a
    seed finds it, and [BlockLaws] states that the chain model's fuel is above it for
    its blocks.

    ** Not modelled

    - Header and body pipelines, ghostdag, difficulty, reachability, pruning proofs
      and header sync: inherited consensus code whose results enter as [ChainData]
      with the laws the chain model states.
    - The transparent UTXO set, acceptance data, the sequencing commitment and the
      sparse tree: block checks on them are the parameters [header_checks] and
      [context_checks].
    - Cryptography, RocksDB and its errors, concurrency of sessions and locks: the
      operations are atomic here, as the pruning lock and the store locks make them.
    - Mempool, mining, peer-to-peer, RPC, wallets, command line, bridges, indexes, GPU
      code and runtime support: they call the modelled code or are I/O. *)

From Stdlib Require Export ZArith Lia.
From Stdlib Require Import Ascii String.
From stdpp Require Export base tactics option numbers sets gmap list.

#[export] Set Default Goal Selector "!".
#[global] Open Scope Z_scope.
#[global] Arguments Nat.div : simpl never.
#[global] Arguments Nat.modulo : simpl never.

(** ** Outcomes of Rust functions

    The workspace is compiled with [overflow-checks = true] in every profile,
    so an arithmetic overflow, an out-of-range index, a failed [assert!] or an
    [unwrap] of [None] is a panic. A Rust function is modelled by a value of
    [res E A]: a normal result, a returned error, or a panic. *)

Inductive res (E A : Type) : Type :=
| Ok (a : A)
| Err (e : E)
| Panic.
Arguments Ok {E A} a.
Arguments Err {E A} e.
Arguments Panic {E A}.

#[export] Instance res_ret E : MRet (res E) := λ A a, Ok a.
#[export] Instance res_bind E : MBind (res E) := λ A B f m,
  match m with Ok a => f a | Err e => Err e | Panic => Panic end.
#[export] Instance res_fmap E : FMap (res E) := λ A B f m,
  match m with Ok a => Ok (f a) | Err e => Err e | Panic => Panic end.
#[export] Instance res_eq_dec `{EqDecision E, EqDecision A} : EqDecision (res E A).
Proof. solve_decision. Defined.

(** Functions that return no error: [Ok] or a panic. *)
Abbreviation exec := (res Empty_set).

Definition is_ok {E A} (r : res E A) : bool := match r with Ok _ => true | _ => false end.

(** [Option::ok_or], [Option::unwrap]/[expect], [Result::map_err], [Result::ok]. *)
Definition ok_or {E A} (o : option A) (e : E) : res E A :=
  match o with Some a => Ok a | None => Err e end.
Definition unwrap {E A} (o : option A) : res E A :=
  match o with Some a => Ok a | None => Panic end.
Definition map_err {E F A} (f : E → F) (r : res E A) : res F A :=
  match r with Ok a => Ok a | Err e => Err (f e) | Panic => Panic end.
Definition guard_panic {E} (b : bool) : res E () := if b then Ok () else Panic.

(** The [?] loop: run [f] over a list from the left, stop at the first
    non-[Ok] outcome. *)
Fixpoint res_foldl {E A B} (f : B → A → res E B) (b : B) (l : list A) : res E B :=
  match l with
  | [] => Ok b
  | a :: l => b' ← f b a; res_foldl f b' l
  end.

Lemma res_bind_ok {E A B} (m : res E A) (f : A → res E B) b :
  m ≫= f = Ok b ↔ ∃ a, m = Ok a ∧ f a = Ok b.
Proof. destruct m; cbn; naive_solver. Qed.

Lemma res_fmap_ok {E A B} (m : res E A) (f : A → B) b :
  f <$> m = Ok b ↔ ∃ a, m = Ok a ∧ b = f a.
Proof. destruct m; cbn; naive_solver. Qed.

Lemma ok_or_ok {E A} (o : option A) (e : E) a : ok_or o e = Ok a ↔ o = Some a.
Proof. destruct o; cbn; naive_solver. Qed.

Lemma unwrap_ok {E A} (o : option A) (a : A) : unwrap (E := E) o = Ok a ↔ o = Some a.
Proof. destruct o; cbn; naive_solver. Qed.

Lemma unwrap_bind {E A B} (a : A) (f : A → res E B) : (unwrap (Some a) ≫= f) = f a.
Proof. done. Qed.
Lemma guard_panic_ok {E} b u : guard_panic (E := E) b = Ok u ↔ b = true.
Proof. destruct b, u; cbn; naive_solver. Qed.

Lemma map_err_ok {E F A} (f : E → F) (r : res E A) a : map_err f r = Ok a ↔ r = Ok a.
Proof. destruct r; cbn; naive_solver. Qed.

(** ** Loops that a counter's width bounds *)

(** [n] turns of a loop whose body goes on with a new state ([inl]) or leaves with a result ([inr]).  The bound is
    binary, so that a loop that leaves early never counts it out. *)
Fixpoint loop_pos {S R} (body : S → S + R) (n : positive) (s : S) : S + R :=
  match n with
  | xH => body s
  | xO n => match loop_pos body n s with inl s => loop_pos body n s | inr r => inr r end
  | xI n =>
      match body s with
      | inl s => match loop_pos body n s with inl s => loop_pos body n s | inr r => inr r end
      | inr r => inr r
      end
  end.
Fixpoint loop_nat {S R} (body : S → S + R) (n : nat) (s : S) : S + R :=
  match n with
  | 0%nat => inl s
  | Datatypes.S n => match body s with inl s => loop_nat body n s | inr r => inr r end
  end.
Lemma loop_nat_add {S R} (body : S → S + R) a b : ∀ s,
  loop_nat body (a + b) s = match loop_nat body a s with inl s => loop_nat body b s | inr r => inr r end.
Proof. induction a as [|a IH]; intros s; cbn; [done|]. destruct (body s); [apply IH|done]. Qed.
Lemma loop_pos_nat {S R} (body : S → S + R) n : ∀ s, loop_pos body n s = loop_nat body (Pos.to_nat n) s.
Proof.
  induction n as [n IH|n IH|]; intros s; cbn [loop_pos].
  - rewrite Pos2Nat.inj_xI. cbn [loop_nat]. destruct (body s) as [s'|]; [|done]. replace (2 * Pos.to_nat n)%nat with (Pos.to_nat n + Pos.to_nat n)%nat by lia.
    rewrite loop_nat_add, IH. destruct (loop_nat _ _ s'); [apply IH|done].
  - rewrite Pos2Nat.inj_xO. replace (2 * Pos.to_nat n)%nat with (Pos.to_nat n + Pos.to_nat n)%nat by lia.
    rewrite loop_nat_add, IH. destruct (loop_nat _ _ s); [apply IH|done].
  - change (Pos.to_nat 1) with 1%nat. cbn [loop_nat]. by destruct (body s).
Qed.

Lemma res_foldl_app {E A B} (f : B → A → res E B) b l1 l2 :
  res_foldl f b (l1 ++ l2) = (b' ← res_foldl f b l1; res_foldl f b' l2).
Proof.
  revert b. induction l1 as [|a l1 IH]; intros b; [done|].
  cbn. destruct (f b a); cbn; [apply IH|done|done].
Qed.

Lemma res_foldl_snoc {E A B} (f : A → B → res E A) a l x a' :
  res_foldl f a l = Ok a' → res_foldl f a (l ++ [x]) = f a' x.
Proof. intros H. rewrite res_foldl_app, H. simpl. by destruct (f a' x). Qed.

(** An invariant of the accumulator is preserved by the loop. *)
Lemma res_foldl_ind {E A B} (P : B → Prop) (f : B → A → res E B) :
  (∀ b a b', P b → f b a = Ok b' → P b') →
  ∀ l b b', P b → res_foldl f b l = Ok b' → P b'.
Proof.
  intros Hstep l. induction l as [|a l IH]; intros b b' Hb; cbn.
  { intros [= <-]. done. }
  intros (b1 & H1 & H2)%res_bind_ok. eauto.
Qed.

(** [inv_ok] takes apart the binds, options and guards of a hypothesis
    [_ = Ok _]. *)
Ltac inv_ok_step :=
  match goal with
  | H : mbind _ _ = Ok _ |- _ =>
      let x := fresh "x" in let Hx := fresh "Hx" in
      apply res_bind_ok in H as (x & Hx & H)
  | H : fmap _ _ = Ok _ |- _ =>
      let x := fresh "x" in let Hx := fresh "Hx" in
      apply res_fmap_ok in H as (x & Hx & H)
  | H : ok_or _ _ = Ok _ |- _ => apply ok_or_ok in H
  | H : unwrap _ = Ok _ |- _ => apply unwrap_ok in H
  | H : guard_panic _ = Ok _ |- _ => apply guard_panic_ok in H
  | H : map_err _ _ = Ok _ |- _ => apply map_err_ok in H
  | H : Ok _ = Ok _ |- _ => injection H as H
  | H : mret _ = Ok _ |- _ => injection H as H
  | H : Err _ = Ok _ |- _ => discriminate H
  | H : Panic = Ok _ |- _ => discriminate H
  end.
Ltac inv_ok := repeat (progress (cbv beta zeta in * || inv_ok_step)); simplify_eq.

(** ** Machine integers

    A [w]-bit unsigned integer is a [Z] in [0, 2^w). *)

Definition is_uint (w x : Z) : Prop := 0 <= x < 2 ^ w.
Definition is_int (w x : Z) : Prop := - 2 ^ (w - 1) <= x < 2 ^ (w - 1).
Abbreviation is_u8 := (is_uint 8).
Abbreviation is_u16 := (is_uint 16).
Abbreviation is_u32 := (is_uint 32).
Abbreviation is_u64 := (is_uint 64).
Abbreviation is_u128 := (is_uint 128).
Abbreviation is_i64 := (is_int 64).

Definition u64_max : Z := 2 ^ 64 - 1.
Definition u128_max : Z := 2 ^ 128 - 1.

#[export] Instance is_uint_dec w x : Decision (is_uint w x).
Proof. unfold is_uint. apply _. Defined.
#[export] Instance is_int_dec w x : Decision (is_int w x).
Proof. unfold is_int. apply _. Defined.

(** [checked_*], [saturating_*] and [as] casts of the standard library. *)
Definition checked_add (w a b : Z) : option Z := if a + b <? 2 ^ w then Some (a + b) else None.
Definition checked_sub (a b : Z) : option Z := if b <=? a then Some (a - b) else None.
Definition checked_mul (w a b : Z) : option Z := if a * b <? 2 ^ w then Some (a * b) else None.
Definition saturating_add (w a b : Z) : Z := Z.min (a + b) (2 ^ w - 1).
Definition saturating_sub (a b : Z) : Z := Z.max (a - b) 0.
Definition saturating_mul (w a b : Z) : Z := Z.min (a * b) (2 ^ w - 1).
Definition wrap (w x : Z) : Z := x mod 2 ^ w.
Definition div_ceil (a b : Z) : Z := (a + b - 1) / b.

(** [leading_zeros], [count_ones] of a [w]-bit integer. *)
Definition leading_zeros (w x : Z) : Z := if x =? 0 then w else w - 1 - Z.log2 x.
Fixpoint count_ones (w : nat) (x : Z) : Z :=
  match w with
  | O => 0
  | S w => x mod 2 + count_ones w (x / 2)
  end.

(** The operators [+], [-], [*], [/] of the checked profiles. *)
Definition add_u {E} (w a b : Z) : res E Z := unwrap (checked_add w a b).
Definition sub_u {E} (a b : Z) : res E Z := unwrap (checked_sub a b).
Definition mul_u {E} (w a b : Z) : res E Z := unwrap (checked_mul w a b).
Definition div_u {E} (a b : Z) : res E Z := if b =? 0 then Panic else Ok (a / b).

Lemma checked_add_Some w a b c :
  checked_add w a b = Some c ↔ c = a + b ∧ a + b < 2 ^ w.
Proof. unfold checked_add. destruct (Z.ltb_spec (a + b) (2 ^ w)); naive_solver lia. Qed.

Lemma checked_sub_Some a b c : checked_sub a b = Some c ↔ c = a - b ∧ b <= a.
Proof. unfold checked_sub. destruct (Z.leb_spec b a); naive_solver lia. Qed.

Lemma checked_mul_Some w a b c :
  checked_mul w a b = Some c ↔ c = a * b ∧ a * b < 2 ^ w.
Proof. unfold checked_mul. destruct (Z.ltb_spec (a * b) (2 ^ w)); naive_solver lia. Qed.

Lemma checked_add_None w a b : checked_add w a b = None ↔ 2 ^ w <= a + b.
Proof. unfold checked_add. destruct (Z.ltb_spec (a + b) (2 ^ w)); naive_solver lia. Qed.

Lemma checked_sub_None a b : checked_sub a b = None ↔ a < b.
Proof. unfold checked_sub. destruct (Z.leb_spec b a); naive_solver lia. Qed.

Lemma add_u_ok {E} w a b c : add_u (E := E) w a b = Ok c ↔ c = a + b ∧ a + b < 2 ^ w.
Proof. unfold add_u. rewrite unwrap_ok. apply checked_add_Some. Qed.

Lemma sub_u_ok {E} a b c : sub_u (E := E) a b = Ok c ↔ c = a - b ∧ b <= a.
Proof. unfold sub_u. rewrite unwrap_ok. apply checked_sub_Some. Qed.

Lemma mul_u_ok {E} w a b c : mul_u (E := E) w a b = Ok c ↔ c = a * b ∧ a * b < 2 ^ w.
Proof. unfold mul_u. rewrite unwrap_ok. apply checked_mul_Some. Qed.

Lemma div_u_ok {E} a b c : div_u (E := E) a b = Ok c ↔ c = a / b ∧ b ≠ 0.
Proof. unfold div_u. destruct (Z.eqb_spec b 0); naive_solver. Qed.

Ltac inv_int_step :=
  match goal with
  | H : checked_add _ _ _ = Some _ |- _ => apply checked_add_Some in H as [H ?]
  | H : checked_sub _ _ = Some _ |- _ => apply checked_sub_Some in H as [H ?]
  | H : checked_mul _ _ _ = Some _ |- _ => apply checked_mul_Some in H as [H ?]
  | H : add_u _ _ _ = Ok _ |- _ => apply add_u_ok in H as [H ?]
  | H : sub_u _ _ = Ok _ |- _ => apply sub_u_ok in H as [H ?]
  | H : mul_u _ _ _ = Ok _ |- _ => apply mul_u_ok in H as [H ?]
  | H : div_u _ _ = Ok _ |- _ => apply div_u_ok in H as [H ?]
  end.
Ltac inv_all := repeat (progress inv_ok || inv_int_step); simplify_eq.

(** ** Bytes

    A byte is a [Z] in [0, 256); a byte string is a list of them. *)

Abbreviation bytes := (list Z).
Definition wf_bytes (b : bytes) : Prop := Forall is_u8 b.
Definition is_array (n : nat) (b : bytes) : Prop := length b = n ∧ wf_bytes b.
Definition zeros (n : nat) : bytes := replicate n 0.

#[export] Instance wf_bytes_dec b : Decision (wf_bytes b).
Proof. unfold wf_bytes. apply _. Defined.
#[export] Instance is_array_dec n b : Decision (is_array n b).
Proof. unfold is_array. apply _. Defined.

(** A byte-string literal [b"..."]. *)
Definition byte_str (s : string) : bytes :=
  (λ c, Z.of_N (N_of_ascii c)) <$> list_ascii_of_string s.

(** [to_le_bytes]/[from_le_bytes] and their big-endian versions, for an
    [n]-byte integer; a negative argument is encoded in two's complement. *)
Definition to_le_bytes (n x : Z) : bytes := Z_to_little_endian n 8 x.
Definition from_le_bytes (b : bytes) : Z := little_endian_to_Z 8 b.
Definition to_be_bytes (n x : Z) : bytes := rev (to_le_bytes n x).
Definition from_be_bytes (b : bytes) : Z := from_le_bytes (rev b).

#[global] Arguments to_le_bytes : simpl never.
#[global] Arguments from_le_bytes : simpl never.

(** [x as i64] for [x : u64], and reading a signed integer from its bytes. *)
Definition to_signed (w x : Z) : Z := if x <? 2 ^ (w - 1) then x else x - 2 ^ w.

Lemma length_to_le_bytes n x : 0 <= n → length (to_le_bytes n x) = Z.to_nat n.
Proof.
  intros Hn. unfold to_le_bytes.
  pose proof (length_Z_to_little_endian n 8 x Hn). lia.
Qed.

Lemma wf_to_le_bytes n x : 0 <= n → wf_bytes (to_le_bytes n x).
Proof. intros Hn. by apply (Z_to_little_endian_bound n 8). Qed.

Lemma from_to_le_bytes n x :
  0 <= n → is_uint (8 * n) x → from_le_bytes (to_le_bytes n x) = x.
Proof.
  intros Hn Hx. unfold from_le_bytes, to_le_bytes.
  rewrite little_endian_to_Z_to_little_endian by lia.
  rewrite (Z.mul_comm n 8). by apply Z.mod_small.
Qed.

Lemma to_from_le_bytes b :
  wf_bytes b → to_le_bytes (Z.of_nat (length b)) (from_le_bytes b) = b.
Proof. intros Hb. by apply Z_to_little_endian_to_Z. Qed.

Lemma from_le_bytes_bound b :
  wf_bytes b → is_uint (8 * Z.of_nat (length b)) (from_le_bytes b).
Proof.
  intros Hb. unfold is_uint. rewrite (Z.mul_comm 8).
  by apply (little_endian_to_Z_bound 8).
Qed.

Lemma to_le_bytes_inj n x y :
  0 <= n → is_uint (8 * n) x → is_uint (8 * n) y →
  to_le_bytes n x = to_le_bytes n y → x = y.
Proof.
  intros Hn Hx Hy Heq. rewrite <- (from_to_le_bytes n x), <- (from_to_le_bytes n y) by done.
  by rewrite Heq.
Qed.

Lemma wf_rev b : wf_bytes b → wf_bytes (rev b).
Proof. apply List.Forall_rev. Qed.

Lemma length_to_be_bytes n x : 0 <= n → length (to_be_bytes n x) = Z.to_nat n.
Proof. intros. unfold to_be_bytes. rewrite length_rev. by apply length_to_le_bytes. Qed.

Lemma wf_to_be_bytes n x : 0 <= n → wf_bytes (to_be_bytes n x).
Proof. intros. by apply wf_rev, wf_to_le_bytes. Qed.

Lemma from_to_be_bytes n x :
  0 <= n → is_uint (8 * n) x → from_be_bytes (to_be_bytes n x) = x.
Proof.
  intros. unfold from_be_bytes, to_be_bytes. rewrite rev_involutive.
  by apply from_to_le_bytes.
Qed.

Lemma to_from_be_bytes b :
  wf_bytes b → to_be_bytes (Z.of_nat (length b)) (from_be_bytes b) = b.
Proof.
  intros Hb. unfold from_be_bytes, to_be_bytes.
  rewrite <- (length_rev b), to_from_le_bytes by by apply wf_rev.
  by rewrite rev_involutive.
Qed.

Lemma from_be_bytes_bound b :
  wf_bytes b → is_uint (8 * Z.of_nat (length b)) (from_be_bytes b).
Proof.
  intros. unfold from_be_bytes. rewrite <- (length_rev b).
  by apply from_le_bytes_bound, wf_rev.
Qed.

(** Signed round trip through two's complement. *)
Lemma to_signed_from_be_bytes n x :
  0 < n → is_int (8 * n) x → to_signed (8 * n) (from_be_bytes (to_be_bytes n x)) = x.
Proof.
  intros Hn [Hlo Hhi]. unfold from_be_bytes, to_be_bytes, from_le_bytes, to_le_bytes.
  rewrite rev_involutive, little_endian_to_Z_to_little_endian by lia.
  rewrite (Z.mul_comm n 8). set (w := 8 * n) in *.
  assert (2 ^ w = 2 * 2 ^ (w - 1)) as Hw.
  { rewrite <- Z.pow_succ_r by lia. f_equal. lia. }
  unfold to_signed. destruct (decide (0 <= x)).
  - rewrite Z.mod_small by lia. destruct (Z.ltb_spec x (2 ^ (w - 1))); lia.
  - replace (x `mod` 2 ^ w) with (x + 2 ^ w).
    + destruct (Z.ltb_spec (x + 2 ^ w) (2 ^ (w - 1))); lia.
    + rewrite <- (Z.mod_add x 1), Z.mul_1_l, Z.mod_small by lia. done.
Qed.

Lemma to_be_bytes_signed n z :
  0 <= n → to_be_bytes n (to_signed (8 * n) z) = to_be_bytes n z.
Proof.
  intros Hn. unfold to_signed. destruct (z <? _); [done|].
  unfold to_be_bytes, to_le_bytes. f_equal.
  enough (∀ k, Z_to_little_endian n 8 (z + k * 2 ^ (8 * n)) = Z_to_little_endian n 8 z) as H.
  { rewrite <- (H (-1)). f_equal; lia. }
  intros k. revert k z. induction n as [|n Hn' IH|n] using (Z.succ_pred_induction 0); [done| |lia].
  intros k z. rewrite !Z_to_little_endian_succ by lia. f_equal.
  - rewrite !Z.land_ones by lia.
    replace (8 * Z.succ n) with (8 * n + 8) by lia.
    rewrite Z.pow_add_r, Z.mul_assoc by lia. by rewrite Z.mod_add.
  - rewrite !Z.shiftr_div_pow2 by lia.
    replace (8 * Z.succ n) with (8 * n + 8) by lia.
    rewrite Z.pow_add_r, Z.mul_assoc, Z.div_add by lia. by apply IH.
Qed.

(** ** Lists *)

Definition Zlength {A} (l : list A) : Z := Z.of_nat (length l).

Lemma Zlength_ge0 {A} (l : list A) : 0 <= Zlength l.
Proof. unfold Zlength. lia. Qed.
Lemma Zlength_cons {A} (x : A) l : Zlength (x :: l) = 1 + Zlength l.
Proof. unfold Zlength. cbn [length]. lia. Qed.
Lemma Zlength_app {A} (l k : list A) : Zlength (l ++ k) = Zlength l + Zlength k.
Proof. unfold Zlength. rewrite length_app. lia. Qed.
Lemma Zlength_snoc {A} (l : list A) x : Zlength (l ++ [x]) = Zlength l + 1.
Proof. unfold Zlength. rewrite length_app. cbn. lia. Qed.

(** Sum of a list of integers, as [iter().map(..).sum()] without overflow. *)
Fixpoint sum_list_Z (l : list Z) : Z :=
  match l with [] => 0 | x :: l => x + sum_list_Z l end.

Lemma sum_list_Z_app l1 l2 : sum_list_Z (l1 ++ l2) = sum_list_Z l1 + sum_list_Z l2.
Proof. induction l1; cbn; lia. Qed.

Lemma sum_list_Z_nonneg l : Forall (λ x, 0 <= x) l → 0 <= sum_list_Z l.
Proof. induction 1; cbn; lia. Qed.

Lemma app_inj_length {A} (a b c d : list A) :
  length a = length c → a ++ b = c ++ d → a = c ∧ b = d.
Proof. intros Hl H. by apply app_inj_1 in H. Qed.

(** [chunks_exact(n)]: the full chunks of length [n], the remainder dropped. *)
Fixpoint chunks_loop {A} (fuel n : nat) (l : list A) : list (list A) :=
  match fuel with
  | O => []
  | S fuel => if (length l <? n)%nat then [] else take n l :: chunks_loop fuel n (drop n l)
  end.
Definition chunks_exact {A} (n : nat) (l : list A) : list (list A) := chunks_loop (length l) n l.

Lemma chunks_loop_app {A} fuel n (ls : list (list A)) (rest : list A) :
  (0 < n)%nat → (length rest < n)%nat → Forall (λ x, length x = n) ls → (length ls <= fuel)%nat →
  chunks_loop fuel n (mjoin ls ++ rest) = ls.
Proof.
  intros Hn Hrest Hls. revert fuel. induction Hls as [|x ls Hx Hls IH]; intros fuel Hf; simpl in *.
  - destruct fuel; [done|]. simpl. destruct (Nat.ltb_spec (length rest) n); [done|lia].
  - destruct fuel as [|fuel]; [lia|]. simpl. rewrite !length_app, Hx.
    destruct (Nat.ltb_spec (n + length (mjoin ls) + length rest) n); [lia|].
    rewrite <- app_assoc, take_app_length', drop_app_length' by done.
    rewrite IH by lia. done.
Qed.

Lemma mjoin_cons {A} (x : list A) (ls : list (list A)) : mjoin (x :: ls) = x ++ mjoin ls.
Proof. done. Qed.

Lemma length_mjoin_same {A} n (ls : list (list A)) :
  Forall (λ x, length x = n) ls → length (mjoin ls) = (length ls * n)%nat.
Proof. induction 1 as [|x ls Hx _ IH]; simpl; [done|]. rewrite length_app, Hx, IH. lia. Qed.

Lemma chunks_exact_mjoin {A} n (ls : list (list A)) :
  (0 < n)%nat → Forall (λ x, length x = n) ls → chunks_exact n (mjoin ls) = ls.
Proof.
  intros Hn Hls. unfold chunks_exact. rewrite <- (app_nil_r (mjoin ls)) at 2.
  apply chunks_loop_app; [done|simpl; lia|done|].
  rewrite (length_mjoin_same n) by done. nia.
Qed.

Lemma chunks_exact_length {A} n (l : list A) : Forall (λ x, length x = n) (chunks_exact n l).
Proof.
  unfold chunks_exact. generalize (length l) as fuel. intros fuel. revert l.
  induction fuel as [|fuel IH]; intros l; simpl; [constructor|].
  destruct (Nat.ltb_spec (length l) n); constructor; [|done]. rewrite length_take. lia.
Qed.

Lemma mjoin_chunks_exact {A} n (l : list A) :
  (0 < n)%nat → (length l mod n = 0)%nat → mjoin (chunks_exact n l) = l.
Proof.
  intros Hn Hm. unfold chunks_exact.
  enough (∀ fuel l, (length l <= fuel)%nat → (length l mod n = 0)%nat → mjoin (chunks_loop fuel n l) = l)
    as H by by apply H.
  clear l Hm. induction fuel as [|fuel IH]; intros l Hl Hm; simpl.
  { destruct l; [done|simpl in Hl; lia]. }
  destruct (Nat.ltb_spec (length l) n) as [Hlt|Hge].
  { rewrite Nat.mod_small in Hm by done. by destruct l. }
  simpl. rewrite IH; [apply take_drop|rewrite length_drop; lia|].
  rewrite length_drop. rewrite <- Hm at 1.
  replace (length l) with (length l - n + 1 * n)%nat at 2 by lia.
  by rewrite Nat.Div0.mod_add.
Qed.

(** A concrete function with 32-byte results, used to instantiate hash
    parameters in the witnesses. *)
Definition example_mask : Z := Eval vm_compute in 2 ^ 61 - 1.
Definition example_hash (x : bytes) : bytes :=
  to_le_bytes 32 (foldl (λ a b, Z.land (a * 263 + b + 1) example_mask) 7 x).

Lemma length_example_hash x : length (example_hash x) = 32%nat.
Proof. unfold example_hash. by rewrite length_to_le_bytes. Qed.

(** Prove a decidable statement by evaluation. *)
Ltac decide_by_eval := apply (bool_decide_unpack _); vm_compute; exact I.

(** Hint database of the development. *)
Create HintDb zkas.
#[export] Hint Resolve wf_to_le_bytes wf_to_be_bytes wf_rev : zkas.
#[export] Hint Rewrite @sum_list_Z_app : zkas.
