(* ===== verification/Turnstile.v ===== *)
(** * The turnstile supply invariant

    Model of [shielded-core/src/turnstile.rs]: the public supply ledger
    (subsidy and peg-ins entering the shielded pool, fees and burns leaving
    it) with its checked 128-bit arithmetic, and the homomorphic accumulator
    of net value commitments. Orchard's value commitments are a parameter;
    the only fact used about them is that they are additively homomorphic. *)

From S2P Require Import Prelude.

Inductive TurnstileViolation : Type :=
| PoolUnderflow (coinbase fees : Z)
| Overflow
| CommitmentMismatch.

#[export] Instance TurnstileViolation_eq_dec : EqDecision TurnstileViolation.
Proof. solve_decision. Defined.

Record SupplyLedger : Type := mkSupplyLedger {
  cumulative_coinbase : Z;
  cumulative_fees : Z;
  cumulative_burns : Z;
  cumulative_pegged_in : Z;
}.

#[export] Instance SupplyLedger_eq_dec : EqDecision SupplyLedger.
Proof. solve_decision. Defined.

Module Ledger.

Definition new : SupplyLedger := mkSupplyLedger 0 0 0 0.

Definition from_totals_full (coinbase fees burns pegged_in : Z) : SupplyLedger :=
  mkSupplyLedger coinbase fees burns pegged_in.

Definition from_totals_with_burns (coinbase fees burns : Z) : SupplyLedger :=
  from_totals_full coinbase fees burns 0.

Definition from_totals (coinbase fees : Z) : SupplyLedger :=
  from_totals_with_burns coinbase fees 0.

(** The four mutators take [&mut self]; the model returns the new ledger. On
    an error the field is not assigned, so the ledger is the old one. *)
Definition mint_coinbase (l : SupplyLedger) (subsidy : Z) : res TurnstileViolation SupplyLedger :=
  c ← ok_or (checked_add 128 (cumulative_coinbase l) subsidy) Overflow;
  Ok (mkSupplyLedger c (cumulative_fees l) (cumulative_burns l) (cumulative_pegged_in l)).

Definition collect_fees (l : SupplyLedger) (fee : Z) : res TurnstileViolation SupplyLedger :=
  f ← ok_or (checked_add 128 (cumulative_fees l) fee) Overflow;
  Ok (mkSupplyLedger (cumulative_coinbase l) f (cumulative_burns l) (cumulative_pegged_in l)).

Definition burn (l : SupplyLedger) (value : Z) : res TurnstileViolation SupplyLedger :=
  b ← ok_or (checked_add 128 (cumulative_burns l) value) Overflow;
  Ok (mkSupplyLedger (cumulative_coinbase l) (cumulative_fees l) b (cumulative_pegged_in l)).

Definition peg_in (l : SupplyLedger) (value : Z) : res TurnstileViolation SupplyLedger :=
  p ← ok_or (checked_add 128 (cumulative_pegged_in l) value) Overflow;
  Ok (mkSupplyLedger (cumulative_coinbase l) (cumulative_fees l) (cumulative_burns l) p).

Definition pool_value (l : SupplyLedger) : res TurnstileViolation Z :=
  ok_or
    (v ← checked_add 128 (cumulative_coinbase l) (cumulative_pegged_in l);
     v ← checked_sub v (cumulative_fees l);
     checked_sub v (cumulative_burns l))
    (PoolUnderflow
       (saturating_add 128 (cumulative_coinbase l) (cumulative_pegged_in l))
       (saturating_add 128 (cumulative_fees l) (cumulative_burns l))).

Definition check (l : SupplyLedger) : res TurnstileViolation () :=
  _ ← pool_value l; Ok ().

(** ** Well-formedness: every total fits a [u128]. *)

Definition wf (l : SupplyLedger) : Prop :=
  is_u128 (cumulative_coinbase l) ∧ is_u128 (cumulative_fees l) ∧
  is_u128 (cumulative_burns l) ∧ is_u128 (cumulative_pegged_in l).

#[export] Instance wf_dec l : Decision (wf l).
Proof. unfold wf. apply _. Defined.

(** Value that entered and left the pool so far, without a width. *)
Definition issued (l : SupplyLedger) : Z := cumulative_coinbase l + cumulative_pegged_in l.
Definition exited (l : SupplyLedger) : Z := cumulative_fees l + cumulative_burns l.

Ltac ledger :=
  unfold mint_coinbase, collect_fees, burn, peg_in, wf, issued, exited, is_uint in *;
  inv_all; cbn in *; try lia.

Lemma mint_coinbase_spec l v l' :
  mint_coinbase l v = Ok l' →
  issued l' = issued l + v ∧ exited l' = exited l ∧ (wf l → is_u64 v → wf l').
Proof. intros H. ledger. Qed.

Lemma collect_fees_spec l v l' :
  collect_fees l v = Ok l' →
  issued l' = issued l ∧ exited l' = exited l + v ∧ (wf l → is_u64 v → wf l').
Proof. intros H. ledger. Qed.

Lemma burn_spec l v l' :
  burn l v = Ok l' →
  issued l' = issued l ∧ exited l' = exited l + v ∧ (wf l → is_u64 v → wf l').
Proof. intros H. ledger. Qed.

Lemma peg_in_spec l v l' :
  peg_in l v = Ok l' →
  issued l' = issued l + v ∧ exited l' = exited l ∧ (wf l → is_u64 v → wf l').
Proof. intros H. ledger. Qed.

Lemma pool_value_ok l v :
  wf l → pool_value l = Ok v ↔
  v = issued l - exited l ∧ exited l <= issued l ∧ issued l < 2 ^ 128.
Proof.
  intros Hwf. unfold pool_value, issued, exited.
  rewrite ok_or_ok, bind_Some. setoid_rewrite bind_Some.
  setoid_rewrite checked_sub_Some. setoid_rewrite checked_add_Some.
  unfold wf, is_uint in Hwf. naive_solver lia.
Qed.

Lemma check_ok l u : wf l → check l = Ok u ↔ exited l <= issued l ∧ issued l < 2 ^ 128.
Proof.
  intros Hwf. unfold check. rewrite res_bind_ok. setoid_rewrite pool_value_ok; [|done].
  destruct u. naive_solver.
Qed.

(** ** Sequences of ledger operations *)

Inductive op : Type := Mint (v : Z) | Fee (v : Z) | Burn (v : Z) | PegIn (v : Z).

Definition op_value (o : op) : Z :=
  match o with Mint v | Fee v | Burn v | PegIn v => v end.

Definition op_delta (o : op) : Z :=
  match o with Mint v | PegIn v => v | Fee v | Burn v => - v end.

Definition step (l : SupplyLedger) (o : op) : res TurnstileViolation SupplyLedger :=
  match o with
  | Mint v => mint_coinbase l v
  | Fee v => collect_fees l v
  | Burn v => burn l v
  | PegIn v => peg_in l v
  end.

Lemma step_spec l o l' :
  step l o = Ok l' → is_u64 (op_value o) → wf l →
  wf l' ∧ issued l' - exited l' = issued l - exited l + op_delta o.
Proof.
  destruct o as [v|v|v|v]; cbn; intros H ??;
    [apply mint_coinbase_spec in H|apply collect_fees_spec in H
    |apply burn_spec in H|apply peg_in_spec in H]; naive_solver lia.
Qed.

Lemma run_spec ops l l' :
  res_foldl step l ops = Ok l' → Forall (λ o, is_u64 (op_value o)) ops → wf l →
  wf l' ∧ issued l' - exited l' = issued l - exited l + sum_list_Z (op_delta <$> ops).
Proof.
  revert l. induction ops as [|o ops IH]; intros l; cbn.
  { intros [= <-] _ Hwf. split; [done|]. cbn. lia. }
  intros (l1 & H1 & H2)%res_bind_ok [Ho Hops]%Forall_cons_1 Hwf.
  destruct (step_spec _ _ _ H1 Ho Hwf) as [Hwf1 Hd].
  destruct (IH _ H2 Hops Hwf1) as [Hwf2 Hd2]. split; [done|]. cbn. lia.
Qed.

End Ledger.

(** C8. over any sequence of mints, peg-ins, fees and burns applied to the
    genesis ledger, the turnstile check succeeds exactly when the exits never
    exceed the issuance, and then the pool value it computes is the sum of the
    signed amounts: nothing is created or lost by the 128-bit accounting. *)
Theorem ledger_pool_value_conservation ops l :
  res_foldl Ledger.step Ledger.new ops = Ok l →
  Forall (λ o, is_u64 (Ledger.op_value o)) ops →
  (is_ok (Ledger.check l) = true ↔
     Ledger.exited l <= Ledger.issued l ∧ Ledger.issued l < 2 ^ 128) ∧
  (∀ v, Ledger.pool_value l = Ok v →
     0 <= v ∧ v = sum_list_Z (Ledger.op_delta <$> ops)).
Proof.
  intros Hrun Hops. assert (Ledger.wf Ledger.new) as Hnew by (vm_compute; naive_solver).
  destruct (Ledger.run_spec _ _ _ Hrun Hops Hnew) as [Hwf Hd]. split.
  - rewrite <- (Ledger.check_ok l tt) by done.
    destruct (Ledger.check l) as [[]| |]; cbn; naive_solver.
  - intros v Hv. apply Ledger.pool_value_ok in Hv as (-> & ? & ?); [|done].
    cbn in Hd. unfold Ledger.issued, Ledger.exited in *. cbn in *. lia.
Qed.

Lemma ledger_pool_value_conservation_witness :
  ∃ l, res_foldl Ledger.step Ledger.new
         [Ledger.Mint 100; Ledger.Fee 10; Ledger.Burn 30; Ledger.PegIn 5] = Ok l ∧
       is_ok (Ledger.check l) = true ∧ Ledger.pool_value l = Ok 65.
Proof.
  eexists. split; [reflexivity|]. split; [|vm_compute; reflexivity].
  apply (ledger_pool_value_conservation
           [Ledger.Mint 100; Ledger.Fee 10; Ledger.Burn 30; Ledger.PegIn 5]); [reflexivity| |].
  - repeat constructor; vm_compute; congruence.
  - vm_compute. split; congruence.
Defined.

(** ** Homomorphic value commitments *)

Module Commitment.
Section commitment.
Context {ValueCommitTrapdoor ValueCommitment : Type}.
(** Orchard: [ValueCommitment::derive] on a net value and a trapdoor, the
    point addition, the canonical encodings, the scalar addition and the zero
    scalar. *)
Context (derive : Z → ValueCommitTrapdoor → ValueCommitment).
Context (vc_add : ValueCommitment → ValueCommitment → ValueCommitment).
Context (to_bytes : ValueCommitment → bytes).
Context (rcv_add : ValueCommitTrapdoor → ValueCommitTrapdoor → ValueCommitTrapdoor).
Context (zero_trapdoor : ValueCommitTrapdoor).

(** [NoteValue - NoteValue] is the [ValueSum] of the integer difference. *)
Definition value_sum (v : Z) : Z :=
  if 0 <=? v then v - 0 else 0 - Z.abs v.

Definition commit (value : Z) (rcv : ValueCommitTrapdoor) : ValueCommitment :=
  derive (value_sum value) rcv.

Definition accumulator_new : ValueCommitment := commit 0 zero_trapdoor.
Definition accumulator_add (sum cv : ValueCommitment) : ValueCommitment := vc_add sum cv.

Definition reconcile (sum_cv : ValueCommitment) (pool_value : Z) (trapdoor : ValueCommitTrapdoor)
  : res TurnstileViolation () :=
  neg ← (if pool_value =? - 2 ^ 63 then Panic else Ok (- pool_value));
  if decide (to_bytes sum_cv = to_bytes (commit neg trapdoor)) then Ok () else Err CommitmentMismatch.

(** The net values and trapdoors of a list of actions, summed. *)
Definition net_value (acts : list (Z * ValueCommitTrapdoor)) : Z := sum_list_Z (acts.*1).
Definition net_trapdoor (acts : list (Z * ValueCommitTrapdoor)) : ValueCommitTrapdoor :=
  foldl rcv_add zero_trapdoor (acts.*2).
Definition accumulate (acts : list (Z * ValueCommitTrapdoor)) : ValueCommitment :=
  foldl (λ s a, accumulator_add s (commit a.1 a.2)) accumulator_new acts.

Lemma value_sum_id v : value_sum v = v.
Proof. unfold value_sum. destruct (Z.leb_spec 0 v); lia. Qed.

Lemma commit_derive v r : commit v r = derive v r.
Proof. unfold commit. by rewrite value_sum_id. Qed.

Section homomorphic.
Hypothesis derive_add : ∀ v1 v2 r1 r2,
  vc_add (derive v1 r1) (derive v2 r2) = derive (v1 + v2) (rcv_add r1 r2).

Lemma accumulate_commit acts : accumulate acts = commit (net_value acts) (net_trapdoor acts).
Proof.
  unfold accumulate, net_value, net_trapdoor, accumulator_new, accumulator_add.
  rewrite (commit_derive 0).
  enough (∀ v r, foldl (λ s a, vc_add s (commit a.1 a.2)) (derive v r) acts =
    derive (v + sum_list_Z acts.*1) (foldl rcv_add r acts.*2)) as H.
  { rewrite H, commit_derive. done. }
  induction acts as [|[v' r'] acts IH]; intros v r; cbn.
  { by rewrite Z.add_0_r. }
  rewrite commit_derive, derive_add, IH. f_equal. lia.
Qed.

End homomorphic.
End commitment.
End Commitment.

(** with a homomorphic commitment scheme the running sum of the actions'
    net commitments reconciles with the pool value that the actions' net
    values imply, and, when commitments under one trapdoor determine the
    value, with no other pool value. *)
Theorem reconcile_exact {T VC : Type}
    (derive : Z → T → VC) (vc_add : VC → VC → VC) (to_bytes : VC → bytes)
    (rcv_add : T → T → T) (zero : T) (acts : list (Z * T)) (pool : Z) :
  (∀ v1 v2 r1 r2, vc_add (derive v1 r1) (derive v2 r2) = derive (v1 + v2) (rcv_add r1 r2)) →
  (∀ v1 v2 r, to_bytes (derive v1 r) = to_bytes (derive v2 r) → v1 = v2) →
  pool ≠ - 2 ^ 63 →
  Commitment.reconcile derive to_bytes
    (Commitment.accumulate derive vc_add zero acts) pool
    (Commitment.net_trapdoor rcv_add zero acts) =
  if decide (Commitment.net_value acts = - pool) then Ok () else Err CommitmentMismatch.
Proof.
  intros Hhom Hinj Hmin. unfold Commitment.reconcile.
  destruct (Z.eqb_spec pool (- 2 ^ 63)) as [|_]; [done|]. cbn -[decide].
  rewrite (Commitment.accumulate_commit _ _ rcv_add) by done.
  rewrite !Commitment.commit_derive.
  destruct (decide (Commitment.net_value acts = - pool)) as [->|Hne].
  - by rewrite decide_True.
  - rewrite decide_False; [done|]. intros Heq%Hinj. done.
Qed.

Lemma reconcile_exact_witness :
  Commitment.reconcile (λ v r, (v, r)) (λ p : Z * Z, [p.1; p.2])
    (Commitment.accumulate (λ v r, (v, r)) (λ p q : Z * Z, (p.1 + q.1, p.2 + q.2)) 0
       [(10, 1); (-50, 2)]) 40
    (Commitment.net_trapdoor Z.add 0 [(10, 1); (-50, 2)]) = Ok ().
Proof.
  rewrite (reconcile_exact (λ v r, (v, r)) (λ p q, (p.1 + q.1, p.2 + q.2))
             (λ p, [p.1; p.2]) Z.add 0 [(10, 1); (-50, 2)] 40).
  - reflexivity.
  - reflexivity.
  - intros v1 v2 r [= H]. exact H.
  - discriminate.
Defined.
