(* ===== verification/Nullifier.v ===== *)
(** * The nullifier set and first-in-accepted-order conflict resolution

    Model of [shielded-core/src/nullifier.rs]. The finalized set is reached
    through the interface [NullifierSet] (the Rust trait); the in-memory
    reference set is one instance, and the state transition is proved against
    the interface, so a store-backed set is covered as well. *)

From S2P Require Import Prelude.

(** [NullifierBytes] is a 32-byte array. *)
Abbreviation NullifierBytes := bytes.

(** The trait [NullifierSet]: read access to the finalized set. *)
Class NullifierSet (S : Type) : Type := contains : S → NullifierBytes → bool.

(** [MemNullifierSet]: a hash set. *)
Record MemNullifierSet : Type := mkMemNullifierSet { nf_set : gset NullifierBytes }.

Module MemNullifierSet_ops.

Definition new : MemNullifierSet := mkMemNullifierSet ∅.

(** [insert] returns whether the nullifier was new. *)
Definition insert (s : MemNullifierSet) (nf : NullifierBytes) : MemNullifierSet * bool :=
  (mkMemNullifierSet ({[nf]} ∪ nf_set s), bool_decide (nf ∉ nf_set s)).

Definition extend (s : MemNullifierSet) (nfs : list NullifierBytes) : MemNullifierSet :=
  foldl (λ s nf, (insert s nf).1) s nfs.

Definition len (s : MemNullifierSet) : Z := Z.of_nat (size (nf_set s)).
Definition is_empty (s : MemNullifierSet) : bool := len s =? 0.

Lemma extend_set s nfs : nf_set (extend s nfs) = nf_set s ∪ list_to_set nfs.
Proof.
  revert s. induction nfs as [|nf nfs IH]; intros s; cbn; [set_solver|].
  unfold extend in IH. rewrite IH. cbn. set_solver.
Qed.

End MemNullifierSet_ops.

#[export] Instance MemNullifierSet_contains : NullifierSet MemNullifierSet :=
  λ s nf, bool_decide (nf ∈ nf_set s).

Inductive NullifierConflict : Type :=
| AlreadySpent (nf : NullifierBytes)
| DuplicateWithinTx (nf : NullifierBytes).

#[export] Instance NullifierConflict_eq_dec : EqDecision NullifierConflict.
Proof. solve_decision. Defined.

Record NullifierConflictResolver (S : Type) : Type := mkResolver {
  finalized : S;
  seen : gset NullifierBytes;
  accepted : list NullifierBytes;
}.
Arguments mkResolver {S} _ _ _.
Arguments finalized {S} _.
Arguments seen {S} _.
Arguments accepted {S} _.

Module Resolver.
Section resolver.
Context {S : Type} `{NullifierSet S}.
Implicit Types r : NullifierConflictResolver S.

Definition new (fin : S) : NullifierConflictResolver S := mkResolver fin ∅ [].

Definition conflicts r (nf : NullifierBytes) : bool :=
  contains (finalized r) nf || bool_decide (nf ∈ seen r).

(** The checking loop of [try_accept]: [within_tx] holds the transaction's own
    nullifiers so far. *)
Fixpoint try_accept_check r (within_tx : gset NullifierBytes) (nfs : list NullifierBytes)
  : res NullifierConflict () :=
  match nfs with
  | [] => Ok ()
  | nf :: nfs =>
      if bool_decide (nf ∈ within_tx) then Err (DuplicateWithinTx nf)
      else if conflicts r nf then Err (AlreadySpent nf)
      else try_accept_check r ({[nf]} ∪ within_tx) nfs
  end.

Definition try_accept r (tx_nullifiers : list NullifierBytes)
  : res NullifierConflict (NullifierConflictResolver S) :=
  _ ← try_accept_check r ∅ tx_nullifiers;
  Ok (foldl (λ r nf, mkResolver (finalized r) ({[nf]} ∪ seen r) (accepted r ++ [nf])) r tx_nullifiers).

(** [try_accept_nullifiers]: the same on Orchard nullifiers, through their
    canonical byte encoding. *)
Definition try_accept_nullifiers {N} (key : N → NullifierBytes) r (tx_nullifiers : list N) :=
  try_accept r (key <$> tx_nullifiers).

Definition into_accepted r : list NullifierBytes := accepted r.

(** The nullifiers a new transaction may not use. *)
Definition spent r (nf : NullifierBytes) : Prop := contains (finalized r) nf = true ∨ nf ∈ seen r.

#[export] Instance spent_dec r nf : Decision (spent r nf).
Proof. unfold spent. apply _. Defined.

Lemma conflicts_spent r nf : conflicts r nf = true ↔ spent r nf.
Proof. unfold conflicts, spent. rewrite orb_true_iff, bool_decide_eq_true. done. Qed.

(** When a transaction is accepted: its nullifiers are distinct and fresh. *)
Definition acceptable r (nfs : list NullifierBytes) : Prop :=
  NoDup nfs ∧ Forall (λ nf, ¬ spent r nf) nfs.

#[export] Instance acceptable_dec r nfs : Decision (acceptable r nfs).
Proof. unfold acceptable. apply _. Defined.

Lemma try_accept_check_ok r within nfs u :
  try_accept_check r within nfs = Ok u ↔
  NoDup nfs ∧ Forall (λ nf, ¬ spent r nf ∧ nf ∉ within) nfs.
Proof.
  destruct u. revert within. induction nfs as [|nf nfs IH]; intros within; cbn.
  { split; [|done]. intros _. split; constructor. }
  case_bool_decide as Hw.
  { split; [done|]. intros [_ [[_ ?] _]%Forall_cons_1]. done. }
  destruct (conflicts r nf) eqn:Hc.
  { apply conflicts_spent in Hc. split; [done|]. intros [_ [[? _] _]%Forall_cons_1]. done. }
  rewrite IH, NoDup_cons, Forall_cons, !Forall_forall.
  assert (¬ spent r nf) by (rewrite <- conflicts_spent; congruence). set_solver.
Qed.

Lemma try_accept_check_total r within nfs : try_accept_check r within nfs ≠ Panic.
Proof.
  revert within. induction nfs as [|nf nfs IH]; intros within; cbn; [done|].
  case_bool_decide; [done|]. destruct (conflicts r nf); [done|]. apply IH.
Qed.

Lemma record_all r nfs :
  foldl (λ r nf, mkResolver (finalized r) ({[nf]} ∪ seen r) (accepted r ++ [nf])) r nfs =
  mkResolver (finalized r) (seen r ∪ list_to_set nfs) (accepted r ++ nfs).
Proof.
  revert r. induction nfs as [|nf nfs IH]; intros r; cbn.
  { destruct r; cbn. f_equal; [set_solver|by rewrite app_nil_r]. }
  rewrite IH. cbn. f_equal; [set_solver|by rewrite <- app_assoc].
Qed.

(** The complete behaviour of [try_accept]: accepted and recorded exactly when
    the nullifiers are distinct and fresh, otherwise an error. *)
Lemma try_accept_spec r nfs :
  (acceptable r nfs ∧
   try_accept r nfs = Ok (mkResolver (finalized r) (seen r ∪ list_to_set nfs) (accepted r ++ nfs))) ∨
  (¬ acceptable r nfs ∧ ∃ e, try_accept r nfs = Err e).
Proof.
  unfold try_accept, acceptable. destruct (try_accept_check r ∅ nfs) as [u|e|] eqn:Hc; cbn.
  - left. apply try_accept_check_ok in Hc as [Hnd Hall].
    rewrite record_all. split; [|done]. split; [done|].
    eapply Forall_impl; [exact Hall|]. naive_solver.
  - right. split; [|by eexists]. intros [Hnd Hall].
    enough (try_accept_check r ∅ nfs = Ok tt) by congruence.
    apply try_accept_check_ok. split; [done|].
    eapply Forall_impl; [exact Hall|]. set_solver.
  - by apply try_accept_check_total in Hc.
Qed.

(** A batch in accepted order: a rejected transaction records nothing. The
    flags say which transactions were accepted. *)
Fixpoint run r (txs : list (list NullifierBytes)) : NullifierConflictResolver S * list bool :=
  match txs with
  | [] => (r, [])
  | tx :: txs =>
      match try_accept r tx with
      | Ok r' => let '(r'', fl) := run r' txs in (r'', true :: fl)
      | _ => let '(r'', fl) := run r txs in (r'', false :: fl)
      end
  end.

(** Invariant of a resolver: what it recorded is distinct, fresh against the
    finalized set, and listed in [accepted] exactly as in [seen]. *)
Definition wf r : Prop :=
  NoDup (accepted r) ∧ seen r = list_to_set (accepted r) ∧
  Forall (λ nf, contains (finalized r) nf = false) (accepted r).

Lemma wf_new fin : wf (new fin).
Proof. split; [constructor|]. split; [done|constructor]. Qed.

Lemma try_accept_wf r nfs r' : try_accept r nfs = Ok r' → wf r → wf r'.
Proof.
  intros Hr (Hnd & Hs & Hf).
  destruct (try_accept_spec r nfs) as [[[Hnd' Hfresh] ?]|[_ [? ?]]]; [|congruence].
  assert (r' = mkResolver (finalized r) (seen r ∪ list_to_set nfs) (accepted r ++ nfs)) as -> by congruence.
  unfold spent in Hfresh. rewrite Forall_forall in Hf, Hfresh.
  split; [|split; cbn].
  - cbn. apply NoDup_app. split; [done|]. split; [|done].
    intros nf Hin Hin'. eapply Hfresh; [done|]. right. set_solver.
  - rewrite list_to_set_app_L. congruence.
  - apply Forall_app. split; apply Forall_forall; [done|].
    intros nf Hin. destruct (contains _ nf) eqn:?; [|done].
    exfalso. eapply Hfresh; [done|]. by left.
Qed.

Lemma run_wf txs : ∀ r r' fl, run r txs = (r', fl) → wf r → wf r' ∧ finalized r' = finalized r.
Proof.
  induction txs as [|tx txs IH]; cbn; intros r r' fl Hrun Hwf; [by simplify_eq|].
  destruct (try_accept_spec r tx) as [[_ Heq]|[_ [e Heq]]]; rewrite Heq in Hrun.
  - destruct (run _ txs) as [r1 fl1] eqn:Hr. simplify_eq.
    apply IH in Hr; [done|]. by eapply try_accept_wf.
  - destruct (run _ txs) as [r1 fl1] eqn:Hr. simplify_eq. by apply IH in Hr.
Qed.

(** The transactions kept by a list of flags. *)
Definition kept (txs : list (list NullifierBytes)) (fl : list bool) : list (list NullifierBytes) :=
  (filter (λ p, p.2 = true) (zip txs fl)).*1.

Lemma kept_cons tx txs b fl :
  kept (tx :: txs) (b :: fl) = (if b then [tx] else []) ++ kept txs fl.
Proof. by destruct b. Qed.

Lemma elem_of_kept txs fl tx :
  tx ∈ kept txs fl ↔ ∃ j, txs !! j = Some tx ∧ fl !! j = Some true.
Proof.
  unfold kept. rewrite list_elem_of_fmap. setoid_rewrite list_elem_of_filter.
  setoid_rewrite list_elem_of_lookup. setoid_rewrite lookup_zip_with_Some. split.
  - intros ([tx1 b] & -> & Hb & j & x & y & [= -> ->] & Hx & Hy). simpl in *. subst. eauto.
  - intros (j & Hx & Hy). exists (tx, true). eauto 10.
Qed.

Lemma run_accepted txs : ∀ r r' fl, run r txs = (r', fl) →
  accepted r' = accepted r ++ mjoin (kept txs fl) ∧
  seen r' = seen r ∪ list_to_set (mjoin (kept txs fl)) ∧ length fl = length txs.
Proof.
  induction txs as [|tx txs IH]; intros r r' fl Hrun; cbn in Hrun.
  { simplify_eq. cbn. rewrite app_nil_r. set_solver. }
  destruct (try_accept_spec r tx) as [[_ Heq]|[_ [e Heq]]]; rewrite Heq in Hrun;
    destruct (run _ txs) as [r1 fl1] eqn:Hr; simplify_eq;
    apply IH in Hr as (Ha & Hs & Hl); rewrite Ha, Hs, kept_cons; cbn [length]; rewrite Hl.
  - cbn [app accepted seen mjoin list_join]. rewrite list_to_set_app_L, app_assoc. set_solver.
  - done.
Qed.

Lemma acceptable_first r tx :
  acceptable r tx ↔ NoDup tx ∧ Forall (λ nf, ¬ spent r nf) tx ∧
    Forall (λ nf, nf ∉ mjoin (kept [] [])) tx.
Proof.
  unfold acceptable. split; [|naive_solver]. intros [? ?]. split; [done|]. split; [done|].
  apply Forall_forall. intros nf _ []%not_elem_of_nil.
Qed.

(** First in accepted order wins, as a characterisation of each flag: the
    transaction at position [i] is kept exactly when its nullifiers are
    distinct and none is finalized, seen before, or revealed by a transaction
    kept earlier in the batch. *)
Lemma run_flags txs : ∀ r r' fl i tx, run r txs = (r', fl) → txs !! i = Some tx →
  fl !! i = Some (bool_decide (NoDup tx ∧ Forall (λ nf, ¬ spent r nf) tx ∧
                   Forall (λ nf, nf ∉ mjoin (kept (take i txs) (take i fl))) tx)).
Proof.
  induction txs as [|tx0 txs IH]; intros r r' fl i tx Hrun Hi; [done|].
  simpl in Hrun.
  destruct (try_accept_spec r tx0) as [[Hacc Heq]|[Hacc [e Heq]]]; rewrite Heq in Hrun;
    destruct (run _ txs) as [r1 fl1] eqn:Hr; simplify_eq;
    (destruct i as [|i]; simpl in Hi; simplify_eq; simpl;
     [f_equal; symmetry; rewrite acceptable_first in Hacc;
      first [by apply bool_decide_eq_true|by apply bool_decide_eq_false]|]);
    rewrite (IH _ _ _ _ _ Hr Hi); [|done].
  change (list_fmap _ _ fst (filter _ (zip (take i txs) (take i fl1)))) with (kept (take i txs) (take i fl1)).
  f_equal. apply bool_decide_ext. unfold spent. simpl. rewrite !Forall_forall.
  setoid_rewrite elem_of_app. setoid_rewrite elem_of_union. setoid_rewrite elem_of_list_to_set.
  naive_solver.
Qed.

End resolver.
End Resolver.

(** C10. no double spend. Resolving any batch of transactions against any
    finalized set yields a nullifier list without repetition and disjoint from
    the finalized set, which is exactly the concatenation of the nullifiers of
    the kept transactions, in order. *)
Theorem resolver_no_double_spend {S} `{NullifierSet S} (fin : S) txs r fl :
  Resolver.run (Resolver.new fin) txs = (r, fl) →
  NoDup (Resolver.into_accepted r) ∧
  (∀ nf, nf ∈ Resolver.into_accepted r → contains fin nf = false) ∧
  Resolver.into_accepted r = mjoin (Resolver.kept txs fl).
Proof.
  intros Hrun. unfold Resolver.into_accepted.
  destruct (Resolver.run_wf _ _ _ _ Hrun (Resolver.wf_new fin)) as [(Hnd & _ & Hf) Hfin].
  destruct (Resolver.run_accepted _ _ _ _ Hrun) as (Ha & _ & _).
  rewrite Hfin, Forall_forall in Hf. done.
Qed.

Lemma resolver_no_double_spend_witness :
  let fin := mkMemNullifierSet {[ [5] ]} in
  let p := Resolver.run (Resolver.new fin) [[[1]; [2]]; [[3]; [1]]; [[5]]; [[3]]] in
  Resolver.into_accepted p.1 = [[1]; [2]; [3]] ∧ NoDup (Resolver.into_accepted p.1).
Proof.
  intros fin p. split; [reflexivity|].
  apply (resolver_no_double_spend fin [[[1]; [2]]; [[3]; [1]]; [[5]]; [[3]]] p.1 p.2).
  reflexivity.
Defined.

(** first in accepted order wins. In a batch run over a finalized set, the
    transaction at position [i] survives if and only if its nullifiers are
    pairwise distinct, none is finalized, and none is revealed by a surviving
    transaction at an earlier position; so two honest nodes that walk the same
    order keep the same transactions. *)
Theorem resolver_first_wins {S} `{NullifierSet S} (fin : S) txs i tx :
  txs !! i = Some tx →
  let fl := (Resolver.run (Resolver.new fin) txs).2 in
  fl !! i = Some true ↔
    NoDup tx ∧ Forall (λ nf, contains fin nf = false) tx ∧
    (∀ j tx', (j < i)%nat → txs !! j = Some tx' → fl !! j = Some true →
       ∀ nf, nf ∈ tx → nf ∉ tx').
Proof.
  intros Hi fl. destruct (Resolver.run (Resolver.new fin) txs) as [r fl'] eqn:Hrun. cbn in fl. subst fl.
  rewrite (Resolver.run_flags _ _ _ _ _ _ Hrun Hi).
  destruct (Resolver.run_accepted _ _ _ _ Hrun) as (_ & _ & Hlen).
  rewrite (inj_iff Some), bool_decide_eq_true, !Forall_forall.
  assert (∀ nf, nf ∈ mjoin (Resolver.kept (take i txs) (take i fl')) ↔
    ∃ j tx', (j < i)%nat ∧ txs !! j = Some tx' ∧ fl' !! j = Some true ∧ nf ∈ tx') as Hk.
  { intros nf. rewrite list_elem_of_join. setoid_rewrite Resolver.elem_of_kept.
    setoid_rewrite lookup_take_Some. naive_solver. }
  unfold Resolver.spent. cbn. setoid_rewrite Hk. setoid_rewrite <- not_true_iff_false. set_solver.
Qed.

Lemma resolver_first_wins_witness :
  let txs := [[[1]; [2]]; [[3]; [1]]; [[5]]; [[3]]] in
  (Resolver.run (Resolver.new (mkMemNullifierSet {[ [5] ]})) txs).2 !! 3%nat = Some true.
Proof.
  intros txs.
  refine (proj2 (resolver_first_wins (mkMemNullifierSet {[ [5] ]}) txs 3 [[3]] eq_refl) _).
  split; [apply (bool_decide_unpack _); vm_compute; exact I|].
  split; [apply (bool_decide_unpack _); vm_compute; exact I|].
  intros j tx' Hj Htx Hfl nf Hnf. apply list_elem_of_singleton in Hnf as ->.
  destruct j as [|[|[|j]]]; cbn in Htx; simplify_eq; [|vm_compute in Hfl; congruence..|lia].
  apply (bool_decide_unpack _); vm_compute; exact I.
Defined.
