(* ===== verification/Burn.v ===== *)
(** * The burn accumulator

    Model of [shielded-core/src/burn.rs]: exit receipts, the append-only
    Merkle accumulator over them, the sibling path of a receipt and its
    verification. SHA-256 is a parameter. The reference definition of the tree
    is [node_at]: the hash of the subtree of height [d] at index [i] over the
    leaves padded with empty leaves. *)

From S2P Require Import Prelude.

Record ExitReceipt : Type := mkExitReceipt {
  v : Z;
  recipient : bytes;
  n : bytes;
}.

#[export] Instance ExitReceipt_eq_dec : EqDecision ExitReceipt.
Proof. solve_decision. Defined.

Definition wf_receipt (r : ExitReceipt) : Prop :=
  is_u64 (v r) ∧ is_array 32 (recipient r) ∧ is_array 32 (n r).

#[export] Instance wf_receipt_dec r : Decision (wf_receipt r).
Proof. unfold wf_receipt. apply _. Defined.

Definition BRIDGE_ENABLED : bool := false.
Definition LEAF_DOMAIN : Z := 0x00.
Definition NODE_DOMAIN : Z := 0x01.
Definition EMPTY_LEAF : bytes := zeros 32.

Record BurnAccumulator : Type := mkBurnAccumulator {
  leaves : list bytes;
  receipts : list ExitReceipt;
}.

Module Burn.
Section burn.
Context (sha256 : bytes → bytes).

Definition leaf_input (r : ExitReceipt) : bytes :=
  [LEAF_DOMAIN] ++ to_le_bytes 8 (v r) ++ recipient r ++ n r.
Definition leaf_hash (r : ExitReceipt) : bytes := sha256 (leaf_input r).

Definition node_input (l r : bytes) : bytes := [NODE_DOMAIN] ++ l ++ r.
Definition node_hash (l r : bytes) : bytes := sha256 (node_input l r).

Definition new : BurnAccumulator := mkBurnAccumulator [] [].

(** [push] returns the new accumulator and the leaf index as a [u32]. *)
Definition push (acc : BurnAccumulator) (r : ExitReceipt) : BurnAccumulator * Z :=
  (mkBurnAccumulator (leaves acc ++ [leaf_hash r]) (receipts acc ++ [r]),
   wrap 32 (Z.of_nat (length (leaves acc)))).

Definition from_receipts (rs : list ExitReceipt) : BurnAccumulator :=
  foldl (λ acc r, (push acc r).1) new rs.

Definition len (acc : BurnAccumulator) : nat := length (leaves acc).
Definition is_empty (acc : BurnAccumulator) : bool := (len acc =? 0)%nat.

Definition depth (acc : BurnAccumulator) : nat :=
  let n := Z.of_nat (length (leaves acc)) in
  if n <=? 1 then 0%nat else Z.to_nat (64 - leading_zeros 64 (n - 1)).

(** One iteration of the loops of [root] and [branch]: pad an odd level, then
    hash the pairs. *)
Definition pad_odd (level : list bytes) (empty : bytes) : list bytes :=
  if Nat.odd (length level) then level ++ [empty] else level.

Fixpoint pair_up (level : list bytes) : list bytes :=
  match level with
  | a :: b :: level => node_hash a b :: pair_up level
  | _ => []
  end.

Fixpoint root_loop (d : nat) (level : list bytes) (empty : bytes) : list bytes :=
  match d with
  | O => level
  | S d => root_loop d (pair_up (pad_odd level empty)) (node_hash empty empty)
  end.

Definition root (acc : BurnAccumulator) : exec bytes :=
  match leaves acc with
  | [] => Ok EMPTY_LEAF
  | _ => unwrap (root_loop (depth acc) (leaves acc) EMPTY_LEAF !! 0%nat)
  end.

Fixpoint branch_loop (d : nat) (level : list bytes) (empty : bytes) (idx : nat) (out : bytes)
  : exec bytes :=
  match d with
  | O => Ok out
  | S d =>
      let level := pad_odd level empty in
      sibling ← unwrap (if Nat.even idx then level !! (idx + 1)%nat else level !! (idx - 1)%nat);
      branch_loop d (pair_up level) (node_hash empty empty) (Nat.div idx 2) (out ++ sibling)
  end.

Definition branch (acc : BurnAccumulator) (index : Z) : exec (option bytes) :=
  if (length (leaves acc) <=? Z.to_nat index)%nat then Ok None
  else out ← branch_loop (depth acc) (leaves acc) EMPTY_LEAF (Z.to_nat index) []; Ok (Some out).

(** [index >> level] with [index : u32] panics once [level] reaches 32. *)
Fixpoint verify_loop (index level : Z) (acc : bytes) (siblings : list bytes) : exec bytes :=
  match siblings with
  | [] => Ok acc
  | sib :: siblings =>
      if 32 <=? level then Panic
      else verify_loop index (level + 1)
             (if Z.land (Z.shiftr index level) 1 =? 1 then node_hash sib acc else node_hash acc sib)
             siblings
  end.

Definition verify_branch (r : ExitReceipt) (index : Z) (branch root : bytes) : exec bool :=
  if negb (Z.of_nat (length branch) mod 32 =? 0) then Ok false
  else acc ← verify_loop index 0 (leaf_hash r) (chunks_exact 32 branch);
       Ok (bool_decide (acc = root)).

(** ** Reference tree *)

Fixpoint empty_at (d : nat) : bytes :=
  match d with O => EMPTY_LEAF | S d => node_hash (empty_at d) (empty_at d) end.

Fixpoint node_at (lv : list bytes) (d i : nat) : bytes :=
  match d with
  | O => default EMPTY_LEAF (lv !! i)
  | S d => node_hash (node_at lv d (2 * i)) (node_at lv d (2 * i + 1))
  end.

Lemma from_receipts_eq rs : from_receipts rs = mkBurnAccumulator (leaf_hash <$> rs) rs.
Proof.
  unfold from_receipts, new.
  enough (∀ l1 l2, foldl (λ acc r, (push acc r).1) (mkBurnAccumulator l1 l2) rs =
            mkBurnAccumulator (l1 ++ (leaf_hash <$> rs)) (l2 ++ rs)) as H by apply H.
  induction rs as [|r rs IH]; intros l1 l2; simpl; [by rewrite !app_nil_r|].
  rewrite IH, <- !app_assoc. done.
Qed.

(** ** Depth *)

Lemma depth_bound acc :
  Z.of_nat (len acc) < 2 ^ 64 → (len acc <= 2 ^ depth acc)%nat.
Proof.
  unfold depth, len. set (k := length (leaves acc)). intros Hk.
  destruct (Z.leb_spec (Z.of_nat k) 1) as [|Hk1]; [simpl; lia|].
  unfold leading_zeros. destruct (Z.eqb_spec (Z.of_nat k - 1) 0); [lia|].
  replace (64 - (64 - 1 - Z.log2 (Z.of_nat k - 1))) with (Z.succ (Z.log2 (Z.of_nat k - 1))) by lia.
  pose proof (Z.log2_spec (Z.of_nat k - 1) ltac:(lia)) as [_ Hlt].
  pose proof (Z.log2_nonneg (Z.of_nat k - 1)).
  apply Nat2Z.inj_le. rewrite Nat2Z.inj_pow, Z2Nat.id by lia. lia.
Qed.

Lemma depth_le_32 acc : Z.of_nat (len acc) <= 2 ^ 32 → (depth acc <= 32)%nat.
Proof.
  unfold depth, len. set (k := length (leaves acc)). intros Hk.
  destruct (Z.leb_spec (Z.of_nat k) 1) as [|Hk1]; [lia|].
  unfold leading_zeros. destruct (Z.eqb_spec (Z.of_nat k - 1) 0); [lia|].
  pose proof (Z.log2_lt_pow2 (Z.of_nat k - 1) 32 ltac:(lia)). lia.
Qed.

(** ** The level loop computes the reference tree *)

Lemma pair_up_lookup lv i :
  pair_up lv !! i = a ← lv !! (2 * i)%nat; b ← lv !! (2 * i + 1)%nat; Some (node_hash a b).
Proof.
  revert lv. induction i as [|i IH]; intros lv; [by destruct lv as [|a [|b lv]]|].
  replace (2 * S i + 1)%nat with (S (S (2 * i + 1))) by lia.
  replace (2 * S i)%nat with (S (S (2 * i))) by lia.
  destruct lv as [|a [|b lv]]; [done..|]. apply IH.
Qed.

Lemma pad_odd_lookup lv e i :
  (i < 2 * ((length lv + 1) / 2))%nat → pad_odd lv e !! i = Some (default e (lv !! i)).
Proof.
  intros Hi. unfold pad_odd. pose proof (Nat.div_mod_eq (length lv + 1) 2) as Hdm.
  destruct (Nat.odd (length lv)) eqn:Ho.
  - apply Nat.odd_spec in Ho as [m Hm]. destruct (decide (i < length lv)%nat).
    + rewrite lookup_app_l by done. destruct (lv !! i) eqn:E; [done|].
      apply lookup_ge_None in E. lia.
    + assert (i = length lv) as -> by lia.
      rewrite lookup_app_r, Nat.sub_diag by lia.
      rewrite (lookup_ge_None_2 lv) by lia. done.
  - assert (Nat.even (length lv) = true) as He by (rewrite <- Nat.negb_odd; by rewrite Ho).
    apply Nat.even_spec in He as [m Hm].
    destruct (lv !! i) eqn:E; [done|]. apply lookup_ge_None in E. lia.
Qed.

Lemma length_pad_odd lv e : length (pad_odd lv e) = (2 * ((length lv + 1) / 2))%nat.
Proof.
  unfold pad_odd. pose proof (Nat.div_mod_eq (length lv + 1) 2) as Hdm.
  pose proof (Nat.mod_upper_bound (length lv + 1) 2 ltac:(lia)).
  destruct (Nat.odd (length lv)) eqn:Ho.
  - apply Nat.odd_spec in Ho as [m Hm]. rewrite length_app. cbn [length]. lia.
  - assert (Nat.even (length lv) = true) as He by (rewrite <- Nat.negb_odd; by rewrite Ho).
    apply Nat.even_spec in He as [m Hm]. lia.
Qed.

Lemma level_up_lookup lv e i :
  (i < (length lv + 1) / 2)%nat →
  pair_up (pad_odd lv e) !! i =
  Some (node_hash (default e (lv !! (2 * i)%nat)) (default e (lv !! (2 * i + 1)%nat))).
Proof.
  intros Hi. rewrite pair_up_lookup, !pad_odd_lookup by lia. done.
Qed.

Lemma length_level_up lv e : length (pair_up (pad_odd lv e)) = ((length lv + 1) / 2)%nat.
Proof.
  set (m := ((length lv + 1) / 2)%nat).
  assert (∀ i, is_Some (pair_up (pad_odd lv e) !! i) ↔ (i < m)%nat) as H.
  { intros i. split.
    - rewrite pair_up_lookup. intros [x Hx]. apply bind_Some in Hx as (a & Ha & Hx).
      apply bind_Some in Hx as (b & Hb & _). apply lookup_lt_Some in Hb.
      rewrite length_pad_odd in Hb. fold m in Hb. lia.
    - intros Hi. rewrite level_up_lookup by done. by eexists. }
  setoid_rewrite lookup_lt_is_Some in H.
  destruct (Nat.lt_trichotomy (length (pair_up (pad_odd lv e))) m) as [Hl|[Hl|Hl]]; [|done|].
  - apply H in Hl. lia.
  - apply H in Hl. lia.
Qed.

(** [lv] holds the reference nodes of height [d], all missing ones empty. *)
Definition level_of (lvs : list bytes) (d : nat) (lv : list bytes) : Prop :=
  ∀ i, default (empty_at d) (lv !! i) = node_at lvs d i.

Lemma level_of_step lvs d lv :
  level_of lvs d lv → level_of lvs (S d) (pair_up (pad_odd lv (empty_at d))).
Proof.
  intros Hl i. simpl. rewrite <- !Hl.
  destruct (decide (i < (length lv + 1) / 2)%nat) as [Hi|Hi].
  - by rewrite level_up_lookup.
  - rewrite (lookup_ge_None_2 (pair_up _)) by (rewrite length_level_up; lia). simpl.
    pose proof (Nat.div_mod_eq (length lv + 1) 2) as Hdm.
    pose proof (Nat.mod_upper_bound (length lv + 1) 2 ltac:(lia)).
    rewrite !lookup_ge_None_2 by lia. done.
Qed.

Lemma level_of_0 lvs : level_of lvs 0 lvs.
Proof. intros i. done. Qed.

Lemma half_bound k d : (k <= 2 ^ S d → (k + 1) / 2 <= 2 ^ d)%nat.
Proof.
  intros Hk. rewrite Nat.pow_succ_r' in Hk.
  pose proof (Nat.div_mod_eq (k + 1) 2). lia.
Qed.

Lemma root_loop_spec lvs k : ∀ d lv,
  level_of lvs d lv → (1 <= length lv <= 2 ^ k)%nat →
  root_loop k lv (empty_at d) = [node_at lvs (d + k) 0].
Proof.
  induction k as [|k IH]; intros d lv Hlv Hlen; simpl.
  - destruct lv as [|x [|y lv]]; simpl in Hlen; [lia| |lia].
    rewrite Nat.add_0_r, <- (Hlv 0%nat). done.
  - change (node_hash (empty_at d) (empty_at d)) with (empty_at (S d)).
    rewrite IH.
    + by rewrite Nat.add_succ_r.
    + by apply level_of_step.
    + rewrite length_level_up. pose proof (half_bound (length lv) k).
      pose proof (Nat.div_mod_eq (length lv + 1) 2).
      pose proof (Nat.mod_upper_bound (length lv + 1) 2). lia.
Qed.

(** The root computed level by level is the root of the reference tree. *)
Lemma root_spec acc :
  Z.of_nat (len acc) < 2 ^ 64 → root acc = Ok (node_at (leaves acc) (depth acc) 0).
Proof.
  intros Hlen. pose proof (depth_bound acc Hlen) as Hd. unfold root, len in *.
  destruct (leaves acc) as [|x lv] eqn:E; [unfold depth; by rewrite E|].
  pose proof (root_loop_spec (x :: lv) (depth acc) 0 (x :: lv) (level_of_0 _)) as Hr.
  simpl (empty_at 0) in Hr. rewrite Hr by (simpl in *; lia). done.
Qed.

(** Sibling indices and the path of siblings. *)
Definition sibling_index (idx : nat) : nat := if Nat.even idx then (idx + 1)%nat else (idx - 1)%nat.

Fixpoint siblings (lvs : list bytes) (d idx k : nat) : list bytes :=
  match k with
  | O => []
  | S k => node_at lvs d (sibling_index idx) :: siblings lvs (S d) (Nat.div idx 2) k
  end.

Lemma length_siblings lvs k : ∀ d idx, length (siblings lvs d idx k) = k.
Proof. induction k as [|k IH]; intros; simpl; [done|by rewrite IH]. Qed.

Lemma parity_cases idx :
  (Nat.even idx = true ∧ idx = 2 * (idx / 2))%nat ∨ (Nat.even idx = false ∧ idx = 2 * (idx / 2) + 1)%nat.
Proof.
  pose proof (Nat.div_mod_eq idx 2). pose proof (Nat.mod_upper_bound idx 2 ltac:(lia)).
  destruct (Nat.even idx) eqn:E; [left|right].
  - apply Nat.even_spec in E as [m Hm]. lia.
  - assert (Nat.odd idx = true) as Ho by (unfold Nat.odd; by rewrite E).
    apply Nat.odd_spec in Ho as [m Hm]. lia.
Qed.

Lemma branch_loop_spec lvs k : ∀ d lv idx out,
  level_of lvs d lv → (idx < length lv)%nat →
  branch_loop k lv (empty_at d) idx out = Ok (out ++ mjoin (siblings lvs d idx k)).
Proof.
  induction k as [|k IH]; intros d lv idx out Hlv Hidx; simpl; [by rewrite app_nil_r|].
  pose proof (Nat.div_mod_eq (length lv + 1) 2).
  pose proof (Nat.mod_upper_bound (length lv + 1) 2 ltac:(lia)).
  assert ((if Nat.even idx then pad_odd lv (empty_at d) !! (idx + 1)%nat
           else pad_odd lv (empty_at d) !! (idx - 1)%nat) =
          Some (node_at lvs d (sibling_index idx))) as ->.
  { unfold sibling_index.
    destruct (parity_cases idx) as [[-> ?]|[-> ?]]; rewrite pad_odd_lookup by lia; by rewrite Hlv. }
  simpl. change (node_hash (empty_at d) (empty_at d)) with (empty_at (S d)).
  rewrite IH.
  - by rewrite <- app_assoc.
  - by apply level_of_step.
  - rewrite length_level_up. destruct (parity_cases idx); lia.
Qed.

(** The bit test of [verify_branch]. *)
Lemma bit_test index level :
  0 <= index → (Z.land (Z.shiftr index (Z.of_nat level)) 1 =? 1) =
  negb (Nat.even (Z.to_nat (Z.shiftr index (Z.of_nat level)))).
Proof.
  intros Hi. set (x := Z.shiftr index (Z.of_nat level)).
  assert (0 <= x) as Hx by (unfold x; apply Z.shiftr_nonneg; lia).
  change 1 with (Z.ones 1) at 1. rewrite Z.land_ones by lia. change (2 ^ 1) with 2.
  pose proof (Z.div_mod x 2 ltac:(lia)). pose proof (Z.mod_pos_bound x 2 ltac:(lia)).
  destruct (parity_cases (Z.to_nat x)) as [[-> Hp]|[-> Hp]]; cbn [negb];
    remember (Nat.div (Z.to_nat x) 2) as q eqn:Hq; clear Hq;
    destruct (Z.eqb_spec (x `mod` 2) 1); try done; exfalso; lia.
Qed.

Lemma shift_half index level :
  0 <= index →
  Z.to_nat (Z.shiftr index (Z.of_nat (S level))) =
  Nat.div (Z.to_nat (Z.shiftr index (Z.of_nat level))) 2.
Proof.
  intros Hi. assert (0 <= Z.shiftr index (Z.of_nat level)) by (apply Z.shiftr_nonneg; lia).
  rewrite Nat2Z.inj_succ, <- Z.add_1_r, <- Z.shiftr_shiftr, (Z.shiftr_div_pow2 _ 1) by lia.
  rewrite Z2Nat.inj_div by lia. done.
Qed.

Lemma verify_loop_siblings lvs index k : ∀ d,
  0 <= index → (d + k <= 32)%nat →
  verify_loop index (Z.of_nat d) (node_at lvs d (Z.to_nat (Z.shiftr index (Z.of_nat d))))
    (siblings lvs d (Z.to_nat (Z.shiftr index (Z.of_nat d))) k) =
  Ok (node_at lvs (d + k) (Z.to_nat (Z.shiftr index (Z.of_nat (d + k))))).
Proof.
  induction k as [|k IH]; intros d Hi Hk; [by rewrite Nat.add_0_r|].
  cbn [siblings verify_loop]. destruct (Z.leb_spec 32 (Z.of_nat d)); [lia|].
  rewrite bit_test, <- shift_half by done.
  set (idx := Z.to_nat (Z.shiftr index (Z.of_nat d))).
  assert ((if negb (Nat.even idx) then node_hash (node_at lvs d (sibling_index idx)) (node_at lvs d idx)
           else node_hash (node_at lvs d idx) (node_at lvs d (sibling_index idx))) =
          node_at lvs (S d) (Z.to_nat (Z.shiftr index (Z.of_nat (S d))))) as ->.
  { rewrite shift_half by done. fold idx. simpl. unfold sibling_index.
    destruct (parity_cases idx) as [[-> Hp]|[-> Hp]]; simpl; f_equal; f_equal; lia. }
  replace (Z.of_nat d + 1) with (Z.of_nat (S d)) by lia.
  rewrite IH by lia. by rewrite Nat.add_succ_r.
Qed.

Section lengths.
Hypothesis sha256_length : ∀ x, length (sha256 x) = 32%nat.

Lemma length_node_at lvs d i :
  Forall (λ x, length x = 32%nat) lvs → length (node_at lvs d i) = 32%nat.
Proof.
  intros Hl. destruct d as [|d]; simpl; [|apply sha256_length].
  destruct (lvs !! i) as [x|] eqn:E; [|done]. simpl.
  rewrite Forall_forall in Hl. apply Hl. by eapply list_elem_of_lookup_2.
Qed.

Lemma siblings_length lvs k : ∀ d idx,
  Forall (λ x, length x = 32%nat) lvs →
  Forall (λ x, length x = 32%nat) (siblings lvs d idx k).
Proof.
  induction k as [|k IH]; intros d idx Hl; simpl; [constructor|].
  constructor; [by apply length_node_at|by apply IH].
Qed.

Lemma leaves_length rs : Forall (λ x, length x = 32%nat) (leaf_hash <$> rs).
Proof. apply Forall_fmap, Forall_true. intros r. apply sha256_length. Qed.

End lengths.

(** ** Soundness of verification

    The inputs hashed while verifying a branch, and the inputs of the interior
    nodes of the reference tree of height [depth]. *)

Fixpoint verify_inputs (index level : Z) (acc : bytes) (siblings : list bytes) : list bytes :=
  match siblings with
  | [] => []
  | sib :: siblings =>
      let x := if Z.land (Z.shiftr index level) 1 =? 1 then node_input sib acc else node_input acc sib in
      x :: verify_inputs index (level + 1) (sha256 x) siblings
  end.

Definition tree_inputs (lvs : list bytes) (depth : nat) : list bytes :=
  d ← seq 0 depth; j ← seq 0 (2 ^ (depth - d - 1));
  [node_input (node_at lvs d (2 * j)) (node_at lvs d (2 * j + 1))].

(** [sha256] has no collision among the inputs [xs], and none of them hashes to
    the all-zero string that stands for an empty leaf. *)
Definition collision_free (xs : list bytes) : Prop :=
  Forall (λ x, Forall (λ y, sha256 x = sha256 y → x = y) xs) xs ∧
  Forall (λ x, sha256 x ≠ EMPTY_LEAF) xs.

#[export] Instance collision_free_dec xs : Decision (collision_free xs).
Proof.
  unfold collision_free. apply and_dec; apply _.
Defined.

Lemma collision_free_inj xs x y :
  collision_free xs → x ∈ xs → y ∈ xs → sha256 x = sha256 y → x = y.
Proof. intros [H _]. rewrite Forall_forall in H. intros Hx Hy. by apply (proj1 (Forall_forall _ _) (H x Hx)). Qed.

Lemma collision_free_nonzero xs x : collision_free xs → x ∈ xs → sha256 x ≠ EMPTY_LEAF.
Proof. intros [_ H] Hx. rewrite Forall_forall in H. by apply H. Qed.

Lemma tree_inputs_spec lvs depth d j :
  (d < depth)%nat → (j < 2 ^ (depth - d - 1))%nat →
  node_input (node_at lvs d (2 * j)) (node_at lvs d (2 * j + 1)) ∈ tree_inputs lvs depth.
Proof.
  intros Hd Hj. unfold tree_inputs. apply list_elem_of_bind. exists d.
  rewrite elem_of_seq. split; [|lia]. apply list_elem_of_bind. exists j.
  rewrite elem_of_seq. split; [|lia]. by apply list_elem_of_singleton.
Qed.

Lemma node_input_inj a b c d :
  length a = 32%nat → length c = 32%nat → node_input a b = node_input c d → a = c ∧ b = d.
Proof. intros Ha Hc [= H]. apply app_inj_1 in H; [done|lia]. Qed.

Lemma leaf_input_inj r1 r2 :
  wf_receipt r1 → wf_receipt r2 → leaf_input r1 = leaf_input r2 → r1 = r2.
Proof.
  intros (Hv1 & [Hr1 _] & _) (Hv2 & [Hr2 _] & _) H.
  apply app_inj_1 in H as [_ H]; [|done].
  apply app_inj_1 in H as [H1 H2]; [|by rewrite !length_to_le_bytes].
  apply app_inj_1 in H2 as [H2 H3]; [|congruence].
  apply to_le_bytes_inj in H1; [|done..]. destruct r1, r2; simpl in *. by subst.
Qed.

Lemma leaf_node_input r a b : leaf_input r ≠ node_input a b.
Proof. done. Qed.

Lemma verify_loop_app index s1 s2 : ∀ level acc,
  verify_loop index level acc (s1 ++ s2) =
  a ← verify_loop index level acc s1; verify_loop index (level + Z.of_nat (length s1)) a s2.
Proof.
  induction s1 as [|s s1 IH]; intros level acc; simpl; [by rewrite Z.add_0_r|].
  destruct (32 <=? level); [done|]. rewrite IH.
  replace (level + 1 + Z.of_nat (length s1)) with (level + Z.of_nat (S (length s1))) by lia. done.
Qed.

Lemma verify_inputs_app index s1 s2 : ∀ level acc a,
  verify_loop index level acc s1 = Ok a →
  verify_inputs index level acc (s1 ++ s2) =
  verify_inputs index level acc s1 ++ verify_inputs index (level + Z.of_nat (length s1)) a s2.
Proof.
  induction s1 as [|s s1 IH]; intros level acc a; simpl.
  { intros [= ->]. by rewrite Z.add_0_r. }
  destruct (32 <=? level); [done|]. intros H. f_equal.
  replace (level + Z.of_nat (S (length s1))) with (level + 1 + Z.of_nat (length s1)) by lia.
  destruct (_ =? 1); by apply IH.
Qed.

(** The last value of a non-empty verification is the hash of one of its
    inputs, an interior node input. *)
Lemma verify_loop_last index s : ∀ level acc a,
  s ≠ [] → verify_loop index level acc s = Ok a →
  ∃ l r, a = sha256 (node_input l r) ∧ node_input l r ∈ verify_inputs index level acc s.
Proof.
  induction s as [|x s IH]; intros level acc a Hne; [done|]. simpl.
  destruct (32 <=? level); [done|]. destruct s as [|y s].
  - simpl. intros [= <-]. destruct (_ =? 1); eexists _, _; split; [done|left|done|left].
  - intros Ha. destruct (_ =? 1);
      (destruct (IH _ _ _ ltac:(done) Ha) as (l & r & -> & Hin); exists l, r; split; [done|by right]).
Qed.

Section soundness.
Hypothesis sha256_length : ∀ x, length (sha256 x) = 32%nat.
Context (xs : list bytes) (Hcf : collision_free xs).

(** Going down from a reference node: the value the walk started with is the
    reference node below it that the index bits select. *)
Lemma verify_loop_sound lvs index depth s : ∀ lev d acc q,
  0 <= index → Forall (λ x, length x = 32%nat) lvs → Forall (λ x, length x = 32%nat) s →
  length acc = 32%nat → (d + length s <= depth)%nat → (q < 2 ^ (depth - d - length s))%nat →
  tree_inputs lvs depth ⊆ xs → verify_inputs index (Z.of_nat lev) acc s ⊆ xs →
  verify_loop index (Z.of_nat lev) acc s = Ok (node_at lvs (d + length s) q) →
  acc = node_at lvs d (q * 2 ^ length s +
          Z.to_nat (Z.shiftr index (Z.of_nat lev)) mod 2 ^ length s)%nat.
Proof.
  induction s as [|x s IH]; intros lev d acc q Hi Hlvs Hs Hacc Hd Hq Htree Hin; cbn [length verify_loop].
  { intros [= ->]. simpl. rewrite Nat.add_0_r. f_equal. rewrite Nat.mod_1_r. lia. }
  apply Forall_cons in Hs as [Hx Hs]. simpl in Hd, Hq, Hin.
  destruct (Z.leb_spec 32 (Z.of_nat lev)) as [|Hlt]; [done|]. intros Hv.
  set (idx := Z.to_nat (Z.shiftr index (Z.of_nat lev))) in *.
  replace (Z.of_nat lev + 1) with (Z.of_nat (S lev)) in * by lia.
  replace (d + S (length s))%nat with (S d + length s)%nat in * by lia.
  set (inp := if _ =? 1 then node_input x acc else node_input acc x) in Hin.
  assert (verify_loop index (Z.of_nat (S lev)) (sha256 inp) s = Ok (node_at lvs (S d + length s) q)) as Hv'.
  { rewrite <- Hv. unfold inp. by destruct (_ =? 1). }
  set (j := (q * 2 ^ length s + Z.to_nat (Z.shiftr index (Z.of_nat (S lev))) mod 2 ^ length s)%nat).
  assert (sha256 inp = node_at lvs (S d) j) as Hnode.
  { apply IH; try done.
    - replace (depth - S d - length s)%nat with (depth - d - S (length s))%nat by lia. done.
    - intros y Hy. apply Hin. by right. }
  assert (j < 2 ^ (depth - d - 1))%nat as Hj.
  { pose proof (Nat.mod_upper_bound (Z.to_nat (Z.shiftr index (Z.of_nat (S lev)))) (2 ^ length s)
                  ltac:(apply Nat.pow_nonzero; lia)).
    replace (depth - d - 1)%nat with (depth - d - S (length s) + length s)%nat by lia.
    rewrite Nat.pow_add_r. unfold j. nia. }
  simpl in Hnode. apply (collision_free_inj xs) in Hnode;
    [|done|apply Hin; left|apply Htree, tree_inputs_spec; [lia|done]].
  replace (q * 2 ^ S (length s) + idx mod 2 ^ S (length s))%nat with (2 * j + idx mod 2)%nat.
  2: { unfold j. rewrite shift_half by done. fold idx.
       rewrite Nat.pow_succ_r', (Nat.Div0.mod_mul_r idx 2). lia. }
  unfold inp in Hnode. rewrite bit_test in Hnode by done. fold idx in Hnode.
  pose proof (Nat.div_mod_eq idx 2) as Hdm.
  destruct (parity_cases idx) as [[He Hp]|[He Hp]]; rewrite He in Hnode; simpl in Hnode;
    apply node_input_inj in Hnode as [Hl Hr]; auto using length_node_at;
    first [rewrite Hl; f_equal; lia|rewrite Hr; f_equal; lia].
Qed.

Lemma branch_walk_sound rs r index s :
  let lvs := leaf_hash <$> rs in let D := depth (from_receipts rs) in
  0 <= index → wf_receipt r → Forall wf_receipt rs → Forall (λ x, length x = 32%nat) s →
  leaf_input r ∈ xs → (leaf_input <$> rs) ⊆ xs → tree_inputs lvs D ⊆ xs →
  verify_inputs index 0 (leaf_hash r) s ⊆ xs →
  verify_loop index 0 (leaf_hash r) s = Ok (node_at lvs D 0) →
  length s = D ∧ rs !! Z.to_nat (index mod 2 ^ Z.of_nat D) = Some r.
Proof.
  intros lvs D Hi Hr Hrs Hs Hrin Hleaves Htree Hver Hv.
  assert (Forall (λ x, length x = 32%nat) lvs) as Hlvs by by apply leaves_length.
  assert (∀ k x, default EMPTY_LEAF (lvs !! k) = sha256 x → x ∈ xs →
            ∃ r', rs !! k = Some r' ∧ x = leaf_input r') as Hleaf.
  { intros k x Hk Hx. unfold lvs in Hk. rewrite list_lookup_fmap in Hk.
    destruct (rs !! k) as [r'|] eqn:E; simpl in Hk.
    - exists r'. split; [done|]. symmetry. apply (collision_free_inj xs); try done.
      apply Hleaves, list_elem_of_fmap_2. by eapply list_elem_of_lookup_2.
    - exfalso. by eapply (collision_free_nonzero xs); [done| |symmetry]. }
  destruct (Nat.lt_trichotomy (length s) D) as [Hlt|[Heq|Hgt]].
  - exfalso. set (d := (D - length s)%nat).
    pose proof (verify_loop_sound lvs index D s 0 d (leaf_hash r) 0) as H.
    replace (d + length s)%nat with D in H by lia.
    specialize (H Hi Hlvs Hs (sha256_length _) ltac:(lia)
      ltac:(apply Nat.neq_0_lt_0, Nat.pow_nonzero; lia) Htree Hver Hv).
    destruct d as [|d'] eqn:Ed; [lia|]. simpl in H.
    apply (collision_free_inj xs) in H; [by eapply leaf_node_input|done|done|].
    apply Htree, tree_inputs_spec; [lia|].
    replace (D - d' - 1)%nat with (length s) by lia. apply Nat.mod_upper_bound, Nat.pow_nonzero. lia.
  - split; [done|].
    pose proof (verify_loop_sound lvs index D s 0 0 (leaf_hash r) 0) as H.
    replace (0 + length s)%nat with D in H by lia.
    specialize (H Hi Hlvs Hs (sha256_length _) ltac:(lia)
      ltac:(apply Nat.neq_0_lt_0, Nat.pow_nonzero; lia) Htree Hver Hv).
    rewrite Heq, Z.shiftr_0_r in H. symmetry in H. apply Hleaf in H as (r' & Hr' & Heqi); [|done].
    apply leaf_input_inj in Heqi as ->; [|done|by eapply Forall_lookup_1].
    rewrite <- Hr'. f_equal. apply Nat2Z.inj.
    rewrite Nat.mul_0_l, Nat.add_0_l, Nat2Z.inj_mod, Nat2Z.inj_pow, !Z2Nat.id; [done|lia|].
    apply Z.mod_pos_bound. lia.
  - exfalso. set (s1 := take (length s - D) s). set (s2 := drop (length s - D) s).
    assert (s = s1 ++ s2) as Hs12 by (symmetry; apply take_drop).
    assert (length s2 = D) as Hs2 by (unfold s2; rewrite length_drop; lia).
    rewrite Hs12 in Hv. rewrite verify_loop_app in Hv. apply res_bind_ok in Hv as (a & Ha & Hv).
    assert (s1 ≠ []) as Hne.
    { intros E%(f_equal length). unfold s1 in E. rewrite length_take in E. simpl in E. lia. }
    destruct (verify_loop_last _ _ _ _ _ Hne Ha) as (l & rr & -> & Hin).
    rewrite Hs12, (verify_inputs_app _ _ _ _ _ _ Ha) in Hver. rewrite Z.add_0_l in *.
    pose proof (verify_loop_sound lvs index D s2 (length s1) 0 (sha256 (node_input l rr)) 0) as H.
    replace (0 + length s2)%nat with D in H by lia.
    specialize (H Hi Hlvs (Forall_drop _ _ _ Hs) (sha256_length _) ltac:(lia)
      ltac:(apply Nat.neq_0_lt_0, Nat.pow_nonzero; lia) Htree ltac:(set_solver) Hv).
    symmetry in H. apply Hleaf in H as (r' & _ & H); [|set_solver]. symmetry in H. by apply leaf_node_input in H.
Qed.

End soundness.
End burn.
End Burn.

(** C36. the accumulator root, computed level by level with on-the-fly padding,
    is the root of the perfect binary tree over the leaf hashes padded with
    empty leaves; in particular it is a function of the receipt sequence only
    and the computation never panics. *)
Theorem burn_root_is_reference_tree sha256 rs :
  Z.of_nat (length rs) < 2 ^ 64 →
  let acc := Burn.from_receipts sha256 rs in
  Burn.root sha256 acc =
    Ok (Burn.node_at sha256 (Burn.leaf_hash sha256 <$> rs) (Burn.depth acc) 0) ∧
  (length rs <= 2 ^ Burn.depth acc)%nat ∧ receipts acc = rs.
Proof.
  intros Hlen acc. unfold acc. rewrite Burn.from_receipts_eq.
  set (a := mkBurnAccumulator _ _).
  assert (Z.of_nat (Burn.len a) < 2 ^ 64) by (unfold Burn.len, a; simpl; by rewrite length_fmap).
  split; [by apply Burn.root_spec|]. split; [|done].
  pose proof (Burn.depth_bound a ltac:(done)) as Hd.
  assert (Burn.len a = length rs) as Hl by apply length_fmap. by rewrite Hl in Hd.
Qed.

Lemma burn_root_is_reference_tree_witness :
  let r := mkExitReceipt 5 (zeros 32) (zeros 32) in
  let acc := Burn.from_receipts example_hash [r; r; r] in
  (3 <= 2 ^ Burn.depth acc)%nat ∧ Burn.depth acc = 2%nat.
Proof.
  intros r acc. split; [|reflexivity].
  apply (burn_root_is_reference_tree example_hash [r; r; r]). vm_compute. reflexivity.
Defined.

(** completeness of exit proofs. Every receipt in the accumulator has a
    branch of exactly [depth * 32] bytes, and [verify_branch] accepts it
    against the accumulator root. *)
Theorem burn_branch_complete sha256 rs index r :
  (∀ x, length (sha256 x) = 32%nat) → Z.of_nat (length rs) <= 2 ^ 32 → 0 <= index →
  rs !! Z.to_nat index = Some r →
  let acc := Burn.from_receipts sha256 rs in
  ∃ b rt, Burn.branch sha256 acc index = Ok (Some b) ∧ length b = (Burn.depth acc * 32)%nat ∧
    Burn.root sha256 acc = Ok rt ∧ Burn.verify_branch sha256 r index b rt = Ok true.
Proof.
  intros Hsha Hlen Hi Hr acc. unfold acc. rewrite Burn.from_receipts_eq.
  set (lvs := Burn.leaf_hash sha256 <$> rs). set (a := mkBurnAccumulator lvs rs).
  assert (length lvs = length rs) as Hlvs by apply length_fmap.
  assert (Burn.len a = length rs) as Hla by apply length_fmap.
  pose proof (lookup_lt_Some _ _ _ Hr) as Hlt.
  assert (Forall (λ x, length x = 32%nat) lvs) as H32 by by apply Burn.leaves_length.
  set (D := Burn.depth a). set (sibs := Burn.siblings sha256 lvs 0 (Z.to_nat index) D).
  assert (Forall (λ x, length x = 32%nat) sibs) as Hs by by apply Burn.siblings_length.
  assert (length sibs = D) as HsD by apply Burn.length_siblings.
  exists (mjoin sibs), (Burn.node_at sha256 lvs D 0).
  assert (length (mjoin sibs) = (D * 32)%nat) as Hlb by (rewrite (length_mjoin_same 32) by done; lia).
  split; [|split; [done|split]].
  - unfold Burn.branch. simpl. rewrite Hlvs. destruct (Nat.leb_spec (length rs) (Z.to_nat index)); [lia|].
    change EMPTY_LEAF with (Burn.empty_at sha256 0).
    rewrite (Burn.branch_loop_spec sha256 lvs); [done|apply Burn.level_of_0|lia].
  - apply Burn.root_spec. lia.
  - unfold Burn.verify_branch. rewrite Hlb, Nat2Z.inj_mul, Z.mod_mul by lia. cbn [negb Z.eqb].
    rewrite chunks_exact_mjoin by (done || lia).
    assert (Burn.leaf_hash sha256 r = Burn.node_at sha256 lvs 0 (Z.to_nat index)) as ->.
    { simpl. unfold lvs. by rewrite list_lookup_fmap, Hr. }
    pose proof (Burn.verify_loop_siblings sha256 lvs index D 0 Hi) as Hv.
    change (Z.of_nat 0) with 0 in Hv. rewrite Z.shiftr_0_r in Hv. unfold sibs. rewrite Hv by (apply Burn.depth_le_32; lia).
    simpl. rewrite bool_decide_true; [done|]. f_equal.
    pose proof (Burn.depth_bound a ltac:(lia)) as Hd. fold D in Hd.
    rewrite Z.shiftr_div_pow2 by lia. rewrite Z.div_small; [done|].
    apply Nat2Z.inj_le in Hd. rewrite Hla, Nat2Z.inj_pow in Hd. simpl (Z.of_nat 2) in Hd.
    lia.
Qed.

Lemma burn_branch_complete_witness :
  let r1 := mkExitReceipt 5 (zeros 32) (zeros 32) in
  let r2 := mkExitReceipt 6 (zeros 32) (zeros 32) in
  let acc := Burn.from_receipts example_hash [r1; r2; r1] in
  ∃ b rt, Burn.branch example_hash acc 2 = Ok (Some b) ∧ length b = 64%nat ∧
    Burn.root example_hash acc = Ok rt ∧ Burn.verify_branch example_hash r1 2 b rt = Ok true.
Proof.
  intros r1 r2 acc.
  apply (burn_branch_complete example_hash [r1; r2; r1] 2 r1); [apply length_example_hash| | |reflexivity];
    vm_compute; congruence.
Defined.

(** soundness of exit proofs. When SHA-256 has no collision (and no
    all-zero digest) among the inputs hashed by the accumulator and by the
    verifier, any branch that [verify_branch] accepts against the root has
    exactly the tree's depth, and the receipt it is presented for is the one
    recorded at the index, read modulo the number of leaf positions: no receipt
    that was not burned can be claimed. *)
Theorem burn_branch_sound sha256 rs r index b rt :
  (∀ x, length (sha256 x) = 32%nat) → Z.of_nat (length rs) < 2 ^ 64 → 0 <= index →
  wf_receipt r → Forall wf_receipt rs →
  let acc := Burn.from_receipts sha256 rs in
  let D := Burn.depth acc in
  Burn.collision_free sha256
    (Burn.leaf_input r :: (Burn.leaf_input <$> rs) ++
     Burn.tree_inputs sha256 (Burn.leaf_hash sha256 <$> rs) D ++
     Burn.verify_inputs sha256 index 0 (Burn.leaf_hash sha256 r) (chunks_exact 32 b)) →
  Burn.root sha256 acc = Ok rt →
  Burn.verify_branch sha256 r index b rt = Ok true →
  length b = (D * 32)%nat ∧ rs !! Z.to_nat (index mod 2 ^ Z.of_nat D) = Some r.
Proof.
  intros Hsha Hlen Hi Hr Hrs acc D Hcf Hroot Hv. unfold Burn.verify_branch in Hv.
  destruct (Z.eqb_spec (Z.of_nat (length b) mod 32) 0) as [Hm|]; simpl in Hv; [|done].
  apply res_bind_ok in Hv as (a & Hv & Ha). injection Ha as Ha%bool_decide_eq_true. subst a.
  assert (rt = Burn.node_at sha256 (Burn.leaf_hash sha256 <$> rs) D 0) as ->.
  { rewrite Burn.root_spec in Hroot.
    - injection Hroot as <-. unfold D, acc. by rewrite Burn.from_receipts_eq.
    - unfold Burn.len, acc. rewrite Burn.from_receipts_eq. simpl. by rewrite length_fmap. }
  destruct (Burn.branch_walk_sound sha256 Hsha _ Hcf rs r index (chunks_exact 32 b))
    as [Hl Hlook]; try done.
  - apply chunks_exact_length.
  - left.
  - set_solver.
  - set_solver.
  - set_solver.
  - split; [|done]. rewrite <- (mjoin_chunks_exact 32 b); [|lia|].
    + rewrite (length_mjoin_same 32) by apply chunks_exact_length. by rewrite Hl.
    + apply Nat2Z.inj. by rewrite Nat2Z.inj_mod.
Qed.

Lemma burn_branch_sound_witness :
  let r1 := mkExitReceipt 5 (zeros 32) (zeros 32) in
  let r2 := mkExitReceipt 6 (zeros 32) (zeros 32) in
  let b := Burn.leaf_hash example_hash r1 in
  length b = 32%nat ∧ [r1; r2] !! Z.to_nat (3 mod 2 ^ 1) = Some r2.
Proof.
  intros r1 r2 b.
  apply (burn_branch_sound example_hash [r1; r2] r2 3 b
           (Burn.node_hash example_hash b (Burn.leaf_hash example_hash r2))).
  - apply length_example_hash.
  - vm_compute. reflexivity.
  - vm_compute. congruence.
  - decide_by_eval.
  - decide_by_eval.
  - decide_by_eval.
  - vm_compute. reflexivity.
  - vm_compute. reflexivity.
Defined.
