(* ===== verification/AnchorLog.v ===== *)
(** * The anchor log

    Model of [shielded-core/src/anchor_window.rs]: an append-only Merkle
    mountain range over one entry per chain block, its commitment, and the
    replay of peer-supplied entries by a syncing node. Blake2b with a
    personalisation string is a parameter; feeding it parts one after the
    other is hashing their concatenation. *)

From Stdlib Require Import String.
From S2P Require Import Prelude.

Definition LEAF_PERSONAL : bytes := byte_str "zkas_anchorlog_l".
Definition NODE_PERSONAL : bytes := byte_str "zkas_anchorlog_n".
Definition ROOT_PERSONAL : bytes := byte_str "zkas_anchorlog_r".
Definition MAX_PEAKS : nat := 64.

Record WindowEntry : Type := mkWindowEntry {
  block : bytes;
  parent : bytes;
  root : bytes;
  blue_score : Z;
}.

Record AnchorLog : Type := mkAnchorLog {
  count : Z;
  peaks : list bytes;
}.

#[export] Instance WindowEntry_eq_dec : EqDecision WindowEntry.
Proof. solve_decision. Defined.
#[export] Instance AnchorLog_eq_dec : EqDecision AnchorLog.
Proof. solve_decision. Defined.

Inductive LogError : Type :=
| Malformed            (* "malformed anchor log" *)
| Full                 (* "anchor log is full" *)
| NotIncreasing        (* entries not strictly increasing in blue score *)
| NotChained.          (* entry does not name the previous one as its parent *)

(** Field types: three 32-byte arrays and a [u64]; peaks are 32-byte arrays. *)
Definition wf_entry (e : WindowEntry) : Prop :=
  is_array 32 (block e) ∧ is_array 32 (parent e) ∧ is_array 32 (root e) ∧ is_u64 (blue_score e).
Definition wf_log (l : AnchorLog) : Prop :=
  is_u64 (count l) ∧ Forall (λ p, length p = 32%nat) (peaks l).

#[export] Instance wf_entry_dec e : Decision (wf_entry e).
Proof. unfold wf_entry. apply _. Defined.
#[export] Instance wf_log_dec l : Decision (wf_log l).
Proof. unfold wf_log. apply _. Defined.

Module Log.
Section log.
Context (blake2b : bytes → bytes → bytes).

Definition hash (personal : bytes) (parts : list bytes) : bytes := blake2b personal (mjoin parts).

Definition entry_parts (e : WindowEntry) : list bytes :=
  [block e; parent e; root e; to_le_bytes 8 (blue_score e)].
Definition entry_hash (e : WindowEntry) : bytes := hash LEAF_PERSONAL (entry_parts e).
Definition node_hash (l r : bytes) : bytes := hash NODE_PERSONAL [l; r].

Definition default_log : AnchorLog := mkAnchorLog 0 [].

Definition is_well_formed (l : AnchorLog) : bool :=
  (Z.of_nat (length (peaks l)) =? count_ones 64 (count l)) && (length (peaks l) <=? MAX_PEAKS)%nat.

(** The [while] loop of [append]. The vector of peaks is a stack whose top is
    the head of the list; popping an empty stack is the [expect] panic. The
    fuel is one more than the number of bits of the count. *)
Fixpoint append_loop (fuel : nat) (stack : list bytes) (node : bytes) (height_bits : Z)
  : res LogError (list bytes * bytes) :=
  match fuel with
  | O => Panic
  | S fuel =>
      if Z.land height_bits 1 =? 1 then
        match stack with
        | [] => Panic
        | lft :: stack => append_loop fuel stack (node_hash lft node) (Z.shiftr height_bits 1)
        end
      else Ok (stack, node)
  end.

Definition append (l : AnchorLog) (e : WindowEntry) : res LogError AnchorLog :=
  if negb (is_well_formed l) then Err Malformed
  else
    c ← ok_or (checked_add 64 (count l) 1) Full;
    '(stack, node) ← append_loop 65 (rev (peaks l)) (entry_hash e) (count l);
    Ok (mkAnchorLog c (rev stack ++ [node])).

Fixpoint replay_loop (log : AnchorLog) (last : option WindowEntry) (entries : list WindowEntry)
  : res LogError AnchorLog :=
  match entries with
  | [] => Ok log
  | e :: entries =>
      _ ← match last with
          | Some prev =>
              if blue_score e <=? blue_score prev then Err NotIncreasing
              else if negb (bool_decide (parent e = block prev)) then Err NotChained
              else Ok ()
          | None => Ok ()
          end;
      log ← append log e;
      replay_loop log (Some e) entries
  end.

Definition replay (prefix : AnchorLog) (entries : list WindowEntry) : res LogError AnchorLog :=
  replay_loop prefix None entries.

Definition commitment (l : AnchorLog) : bytes :=
  hash ROOT_PERSONAL (to_le_bytes 8 (count l) :: peaks l).

(** ** Reference definition: the mountain range built from scratch *)

Fixpoint perfect (d : nat) (l : list bytes) : bytes :=
  match d with
  | O => default [] (head l)
  | S d => node_hash (perfect d (take (2 ^ d) l)) (perfect d (drop (2 ^ d) l))
  end.

Fixpoint mountain (b : nat) (l : list bytes) : list bytes :=
  match b with
  | O => []
  | S b =>
      if 2 ^ Z.of_nat b <=? Z.of_nat (length l) then perfect b (take (2 ^ b) l) :: mountain b (drop (2 ^ b) l)
      else mountain b l
  end.

(** Appending a whole list, without the shape checks of [replay]. *)
Definition append_all (l : AnchorLog) (es : list WindowEntry) : res LogError AnchorLog :=
  res_foldl append l es.

(** ** The loop *)

Lemma odd_test x : 0 <= x → (Z.land x 1 =? 1) = Z.odd x.
Proof.
  intros Hx. change 1 with (Z.ones 1) at 1. rewrite Z.land_ones by lia. change (2 ^ 1) with 2.
  rewrite Zmod_odd. by destruct (Z.odd x).
Qed.

Lemma odd_cases x : (Z.odd x = true ∧ x = 2 * (x / 2) + 1) ∨ (Z.odd x = false ∧ x = 2 * (x / 2)).
Proof.
  pose proof (Z.div_mod x 2 ltac:(lia)) as H. rewrite Zmod_odd in H.
  destruct (Z.odd x); [left|right]; lia.
Qed.

Lemma count_ones_succ w x :
  0 <= x → x + 1 < 2 ^ Z.of_nat (S w) →
  count_ones (S w) (x + 1) =
  if Z.odd x then count_ones w (x / 2 + 1) else 1 + count_ones w (x / 2).
Proof.
  intros Hx Hw. cbn [count_ones].
  destruct (odd_cases x) as [[-> Hp]|[-> Hp]].
  - replace (x + 1) with (0 + (x / 2 + 1) * 2) by lia.
    rewrite Z.mod_add, Z.div_add by lia. done.
  - replace (x + 1) with (1 + (x / 2) * 2) by lia.
    rewrite Z.mod_add, Z.div_add by lia. done.
Qed.

Lemma append_loop_total w : ∀ fuel stack node bits,
  (w < fuel)%nat → 0 <= bits → bits + 1 < 2 ^ Z.of_nat w →
  Z.of_nat (length stack) = count_ones w bits →
  ∃ st nd, append_loop fuel stack node bits = Ok (st, nd) ∧
    Z.of_nat (S (length st)) = count_ones w (bits + 1).
Proof.
  induction w as [|w IH]; intros fuel stack node bits Hf Hb Hlt Hlen; [simpl in Hlt; lia|].
  destruct fuel as [|fuel]; [lia|]. cbn [append_loop]. rewrite odd_test by done.
  rewrite count_ones_succ by done. cbn [count_ones] in Hlen. rewrite Zmod_odd in Hlen.
  rewrite Nat2Z.inj_succ, Z.pow_succ_r in Hlt by lia.
  destruct (odd_cases bits) as [[Ho Hp]|[Ho Hp]]; rewrite Ho in *.
  - assert (0 <= count_ones w (bits / 2)) as Hc.
    { clear. generalize (bits / 2). induction w as [|w IH]; intros x; [done|]. cbn [count_ones].
      pose proof (Z.mod_pos_bound x 2). specialize (IH (x / 2)). lia. }
    destruct stack as [|lft stack]; simpl in Hlen; [lia|].
    rewrite Z.shiftr_div_pow2 by lia. change (2 ^ 1) with 2. apply IH; lia.
  - exists stack, node. split; [done|]. lia.
Qed.

Lemma pow_leb_nat b n : (2 ^ Z.of_nat b <=? Z.of_nat n) = (2 ^ b <=? n)%nat.
Proof.
  change 2 with (Z.of_nat 2). rewrite <- Nat2Z.inj_pow.
  destruct (Z.leb_spec (Z.of_nat (2 ^ b)) (Z.of_nat n)), (Nat.leb_spec (2 ^ b) n); lia || done.
Qed.

Lemma mountain_nil b : mountain b [] = [].
Proof.
  induction b as [|b IH]; [done|]. cbn [mountain length].
  destruct (Z.leb_spec (2 ^ Z.of_nat b) (Z.of_nat 0)); [|done].
  pose proof (Z.pow_pos_nonneg 2 (Z.of_nat b)). lia.
Qed.

(** A run of set bits folds all peaks into one perfect tree. *)
Lemma append_loop_ones b : ∀ fuel st node l h,
  0 <= h → length l = (2 ^ b - 1)%nat →
  append_loop (b + fuel) (rev (mountain b l) ++ st) node (2 ^ Z.of_nat b - 1 + 2 ^ Z.of_nat b * h) =
  append_loop fuel st (perfect b (l ++ [node])) h.
Proof.
  induction b as [|b IH]; intros fuel st node l h Hh Hl.
  { destruct l; [|done]. replace (2 ^ Z.of_nat 0 - 1 + 2 ^ Z.of_nat 0 * h) with h by (simpl; lia). done. }
  assert (1 <= 2 ^ b)%nat by (apply Nat.neq_0_lt_0, Nat.pow_nonzero; lia).
  rewrite Nat.pow_succ_r' in Hl. cbn [mountain perfect]. rewrite pow_leb_nat.
  destruct (Nat.leb_spec (2 ^ b) (length l)); [|lia].
  rewrite take_app_le, drop_app_le by lia. cbn [rev]. rewrite <- app_assoc.
  replace (S b + fuel)%nat with (b + S fuel)%nat by lia.
  replace (2 ^ Z.of_nat (S b) - 1 + 2 ^ Z.of_nat (S b) * h)
    with (2 ^ Z.of_nat b - 1 + 2 ^ Z.of_nat b * (2 * h + 1)).
  2: { rewrite Nat2Z.inj_succ, Z.pow_succ_r by lia. nia. }
  rewrite IH by (rewrite ?length_drop; lia).
  cbn [append_loop app]. rewrite odd_test by lia.
  replace (Z.odd (2 * h + 1)) with true by (by rewrite Z.add_comm, Z.odd_add_mul_2).
  rewrite Z.shiftr_div_pow2 by lia. change (2 ^ 1) with 2.
  replace ((2 * h + 1) / 2) with h; [done|]. apply (Z.div_unique _ _ _ 1); lia.
Qed.

(** One append, against the reference: the loop leaves the stack and the new
    peak of the mountain range over one more leaf. *)
Lemma append_loop_mountain b : ∀ fuel st node l h,
  (b < fuel)%nat → 0 <= h → (length l + 1 < 2 ^ b)%nat →
  ∃ M y, mountain b (l ++ [node]) = M ++ [y] ∧
    append_loop fuel (rev (mountain b l) ++ st) node (Z.of_nat (length l) + 2 ^ Z.of_nat b * h) =
    Ok (rev M ++ st, y).
Proof.
  induction b as [|b IH]; intros fuel st node l h Hf Hh Hl; [simpl in Hl; lia|].
  assert (1 <= 2 ^ b)%nat by (apply Nat.neq_0_lt_0, Nat.pow_nonzero; lia).
  rewrite Nat.pow_succ_r' in Hl. cbn [mountain]. rewrite !pow_leb_nat.
  assert (2 ^ Z.of_nat (S b) = 2 ^ Z.of_nat b * 2) as Hpow.
  { rewrite Nat2Z.inj_succ, Z.pow_succ_r; lia. }
  assert (2 ^ Z.of_nat b = Z.of_nat (2 ^ b)) as Hpz by (by rewrite Nat2Z.inj_pow).
  rewrite length_app. cbn [length].
  destruct (Nat.leb_spec (2 ^ b) (length l)) as [Hge|Hlt].
  - destruct (Nat.leb_spec (2 ^ b) (length l + 1)); [|lia].
    rewrite take_app_le, drop_app_le by lia. cbn [rev]. rewrite <- app_assoc.
    destruct (IH fuel ([perfect b (take (2 ^ b) l)] ++ st) node (drop (2 ^ b) l) (2 * h + 1))
      as (M & y & HM & Hloop); [lia|lia|rewrite length_drop; lia|].
    exists (perfect b (take (2 ^ b) l) :: M), y. rewrite HM. split; [done|].
    cbn [rev]. rewrite <- app_assoc, <- Hloop. f_equal. rewrite length_drop, Nat2Z.inj_sub, Hpow, Hpz by lia. nia.
  - destruct (Nat.leb_spec (2 ^ b) (length l + 1)) as [Hge'|Hlt'].
    + rewrite (take_ge (l ++ [node])), (drop_ge (l ++ [node])) by (rewrite length_app; simpl; lia).
      exists [], (perfect b (l ++ [node])). split.
      { by rewrite mountain_nil. }
      replace fuel with (b + (fuel - b))%nat by lia.
      replace (Z.of_nat (length l) + 2 ^ Z.of_nat (S b) * h)
        with (2 ^ Z.of_nat b - 1 + 2 ^ Z.of_nat b * (2 * h)) by (rewrite Hpow, Hpz; nia).
      rewrite append_loop_ones by lia. destruct (fuel - b)%nat eqn:E; [lia|].
      cbn [append_loop]. rewrite odd_test by lia.
      replace (Z.odd (2 * h)) with false by (by rewrite Z.odd_mul). done.
    + destruct (IH fuel st node l (2 * h)) as (M & y & HM & Hloop); [lia..|].
      exists M, y. split; [done|]. rewrite <- Hloop. f_equal. rewrite Hpow. nia.
Qed.

Lemma append_loop_mountain_Z b fuel node l :
  (b < fuel)%nat → Z.of_nat (length l) + 1 < 2 ^ Z.of_nat b →
  ∃ M y, mountain b (l ++ [node]) = M ++ [y] ∧
    append_loop fuel (rev (mountain b l)) node (Z.of_nat (length l)) = Ok (rev M, y).
Proof.
  intros Hf Hl. destruct (append_loop_mountain b fuel [] node l 0) as (M & y & HM & H); [done|done| |].
  { apply Nat2Z.inj_lt. rewrite Nat2Z.inj_pow, Nat2Z.inj_add. done. }
  exists M, y. by rewrite !app_nil_r, Z.mul_0_r, Z.add_0_r in H.
Qed.

(** ** Append *)

Lemma count_ones_bound w x : 0 <= count_ones w x <= Z.of_nat w.
Proof.
  revert x. induction w as [|w IH]; intros x; [done|]. cbn [count_ones].
  pose proof (Z.mod_pos_bound x 2). specialize (IH (x / 2)). lia.
Qed.

Lemma is_well_formed_true l :
  is_well_formed l = true ↔ Z.of_nat (length (peaks l)) = count_ones 64 (count l).
Proof.
  unfold is_well_formed. rewrite andb_true_iff, Z.eqb_eq, Nat.leb_le.
  pose proof (count_ones_bound 64 (count l)). unfold MAX_PEAKS. lia.
Qed.

(** [append] never panics: it refuses a malformed or full log, and otherwise
    returns a well-formed log with one more entry. *)
Lemma append_cases l e :
  is_u64 (count l) →
  if negb (is_well_formed l) then append l e = Err Malformed
  else if count l =? u64_max then append l e = Err Full
  else ∃ st nd, append l e = Ok (mkAnchorLog (count l + 1) (rev st ++ [nd])) ∧
    append_loop 65 (rev (peaks l)) (entry_hash e) (count l) = Ok (st, nd) ∧
    is_well_formed (mkAnchorLog (count l + 1) (rev st ++ [nd])) = true.
Proof.
  intros Hc. unfold append. destruct (is_well_formed l) eqn:Hwf; cbn [negb]; [|done].
  apply is_well_formed_true in Hwf. unfold is_uint, u64_max in *.
  destruct (Z.eqb_spec (count l) (2 ^ 64 - 1)) as [Heq|Hne].
  { unfold checked_add. destruct (Z.ltb_spec (count l + 1) (2 ^ 64)); [lia|done]. }
  destruct (append_loop_total 64 65 (rev (peaks l)) (entry_hash e) (count l)) as (st & nd & Hl & Hlen);
    [lia|lia|change (2 ^ Z.of_nat 64) with (2 ^ 64); lia|by rewrite length_rev|].
  exists st, nd. unfold checked_add. destruct (Z.ltb_spec (count l + 1) (2 ^ 64)); [|lia].
  cbn [ok_or mbind res_bind]. rewrite Hl. cbn [mbind res_bind]. split; [done|]. split; [done|].
  apply is_well_formed_true. cbn [peaks count]. rewrite <- Hlen, length_app, length_rev.
  cbn [length]. lia.
Qed.

Lemma append_ok l e :
  is_u64 (count l) → is_well_formed l = true → count l ≠ u64_max →
  ∃ st nd, append l e = Ok (mkAnchorLog (count l + 1) (rev st ++ [nd])) ∧
    append_loop 65 (rev (peaks l)) (entry_hash e) (count l) = Ok (st, nd) ∧
    is_well_formed (mkAnchorLog (count l + 1) (rev st ++ [nd])) = true.
Proof.
  intros Hc Hwf Hne. pose proof (append_cases l e Hc) as H. rewrite Hwf in H. cbn [negb] in H.
  rewrite (proj2 (Z.eqb_neq _ _) Hne) in H. exact H.
Qed.

Lemma append_inv l e l' :
  is_u64 (count l) → append l e = Ok l' →
  is_well_formed l = true ∧ is_well_formed l' = true ∧ count l' = count l + 1 ∧ is_u64 (count l') ∧
  ∃ st nd, append_loop 65 (rev (peaks l)) (entry_hash e) (count l) = Ok (st, nd) ∧
    peaks l' = rev st ++ [nd].
Proof.
  intros Hc Ha. pose proof (append_cases l e Hc) as H. unfold u64_max, is_uint in *.
  destruct (is_well_formed l); cbn [negb] in H; [|congruence].
  destruct (Z.eqb_spec (count l) (2 ^ 64 - 1)); [congruence|].
  destruct H as (st & nd & H1 & H2 & H3). rewrite H1 in Ha. injection Ha as <-.
  cbn [count peaks]. split_and!; [done|done|done|lia|lia|]. eauto.
Qed.

Lemma append_all_count es : ∀ l l',
  is_u64 (count l) → append_all l es = Ok l' →
  count l' = count l + Z.of_nat (length es) ∧ is_u64 (count l').
Proof.
  induction es as [|e es IH]; intros l l' Hc; simpl.
  { intros [= <-]. split; [lia|done]. }
  intros (l1 & H1 & H2)%res_bind_ok. apply append_inv in H1 as (_ & _ & Hc1 & Hu & _); [|done].
  apply IH in H2 as [? ?]; [|done]. split; [lia|done].
Qed.

Definition mountain_log (hs : list bytes) : AnchorLog :=
  mkAnchorLog (Z.of_nat (length hs)) (mountain 64 hs).

Lemma count_mountain_log hs : count (mountain_log hs) = Z.of_nat (length hs).
Proof. done. Qed.

Lemma peaks_mountain_log hs : peaks (mountain_log hs) = mountain 64 hs.
Proof. done. Qed.

Lemma append_mountain hs e :
  Z.of_nat (length hs) + 1 < 2 ^ 64 → is_well_formed (mountain_log hs) = true →
  append (mountain_log hs) e = Ok (mountain_log (hs ++ [entry_hash e])) ∧
  is_well_formed (mountain_log (hs ++ [entry_hash e])) = true.
Proof.
  intros Hlen Hwf.
  destruct (append_ok (mountain_log hs) e) as (st & nd & Hap & Hloop & Hw);
    [split; rewrite count_mountain_log; lia|done|rewrite count_mountain_log; unfold u64_max; lia|].
  destruct (append_loop_mountain_Z 64 65 (entry_hash e) hs) as (M & y & HM & Hl); [lia|exact Hlen|].
  rewrite count_mountain_log in Hap, Hloop, Hw. rewrite peaks_mountain_log in Hloop.
  rewrite Hloop in Hl. injection Hl as -> ->. rewrite rev_involutive in Hap, Hw.
  rewrite Hap. unfold mountain_log. rewrite HM, length_app, Nat2Z.inj_add. by split.
Qed.

Lemma mountain_log_nil : mountain_log [] = default_log.
Proof. unfold mountain_log. by rewrite mountain_nil. Qed.

(** The log of a list of entries: its peaks are the mountain range built from
    scratch, for every list shorter than [2^64]. *)
Lemma append_all_mountain es :
  Z.of_nat (length es) < 2 ^ 64 →
  append_all default_log es = Ok (mountain_log (entry_hash <$> es)) ∧
  is_well_formed (mountain_log (entry_hash <$> es)) = true.
Proof.
  induction es as [|e es IH] using rev_ind; intros Hlen.
  { rewrite fmap_nil, mountain_log_nil. by split. }
  rewrite length_app in Hlen. cbn [length] in Hlen.
  destruct IH as [IH Hwf]; [lia|]. unfold append_all in *.
  rewrite (res_foldl_snoc _ _ _ _ _ IH), fmap_app, fmap_cons, fmap_nil.
  destruct (append_mountain (entry_hash <$> es) e) as [Ha Hw]; [rewrite length_fmap; lia|done|].
  split; [exact Ha|exact Hw].
Qed.

(** ** Replay *)

Definition chained (prev e : WindowEntry) : Prop :=
  blue_score prev < blue_score e ∧ parent e = block prev.

#[export] Instance chained_dec prev e : Decision (chained prev e).
Proof. unfold chained. apply _. Defined.

(** A stretch of a selected chain, after an optional previous entry. *)
Fixpoint chain_shaped (last : option WindowEntry) (es : list WindowEntry) : Prop :=
  match es with
  | [] => True
  | e :: es => match last with Some prev => chained prev e | None => True end ∧ chain_shaped (Some e) es
  end.

Lemma replay_loop_ok es : ∀ l last l',
  replay_loop l last es = Ok l' ↔ chain_shaped last es ∧ append_all l es = Ok l'.
Proof.
  induction es as [|e es IH]; intros l last l'; [simpl; naive_solver|].
  cbn [replay_loop chain_shaped append_all res_foldl].
  rewrite res_bind_ok. setoid_rewrite res_bind_ok. setoid_rewrite IH. unfold append_all.
  destruct last as [prev|]; [|naive_solver]. unfold chained.
  destruct (Z.leb_spec (blue_score e) (blue_score prev)); [naive_solver lia|].
  case_bool_decide; simpl; naive_solver.
Qed.

(** ** Injectivity *)

(** The hash inputs of an append and of a sequence of appends, with their
    personalisation. *)
Fixpoint append_loop_inputs (fuel : nat) (stack : list bytes) (node : bytes) (bits : Z)
  : list (bytes * bytes) :=
  match fuel, stack with
  | S fuel, lft :: stack =>
      if Z.land bits 1 =? 1 then
        (NODE_PERSONAL, mjoin [lft; node]) ::
        append_loop_inputs fuel stack (node_hash lft node) (Z.shiftr bits 1)
      else []
  | _, _ => []
  end.

Definition append_inputs (l : AnchorLog) (e : WindowEntry) : list (bytes * bytes) :=
  (LEAF_PERSONAL, mjoin (entry_parts e)) ::
  append_loop_inputs 65 (rev (peaks l)) (entry_hash e) (count l).

Fixpoint append_all_inputs (l : AnchorLog) (es : list WindowEntry) : list (bytes * bytes) :=
  match es with
  | [] => []
  | e :: es =>
      append_inputs l e ++
      match append l e with Ok l' => append_all_inputs l' es | _ => [] end
  end.

Definition commitment_input (l : AnchorLog) : bytes * bytes :=
  (ROOT_PERSONAL, mjoin (to_le_bytes 8 (count l) :: peaks l)).

(** Blake2b has no collision among the given inputs under one personalisation. *)
Definition collision_free (xs : list (bytes * bytes)) : Prop :=
  Forall (λ x, Forall (λ y, x.1 = y.1 → blake2b x.1 x.2 = blake2b y.1 y.2 → x.2 = y.2) xs) xs.

#[export] Instance collision_free_dec xs : Decision (collision_free xs).
Proof. unfold collision_free. apply _. Defined.

Lemma log_collision_free_inj xs p x y :
  collision_free xs → (p, x) ∈ xs → (p, y) ∈ xs → blake2b p x = blake2b p y → x = y.
Proof.
  unfold collision_free. rewrite Forall_forall. intros H Hx Hy. specialize (H _ Hx).
  rewrite Forall_forall in H. apply (H _ Hy). done.
Qed.

Section binding.
Hypothesis blake2b_length : ∀ p x, length (blake2b p x) = 32%nat.
Context (xs : list (bytes * bytes)) (Hcf : collision_free xs).

Lemma cons_subseteq_1 {A} (x : A) (l k : list A) : x :: l ⊆ k → x ∈ k ∧ l ⊆ k.
Proof. set_solver. Qed.

Lemma append_loop_inj fuel : ∀ st1 st2 n1 n2 bits r,
  append_loop fuel st1 n1 bits = Ok r → append_loop fuel st2 n2 bits = Ok r →
  Forall (λ p, length p = 32%nat) st1 → Forall (λ p, length p = 32%nat) st2 →
  append_loop_inputs fuel st1 n1 bits ⊆ xs → append_loop_inputs fuel st2 n2 bits ⊆ xs →
  st1 = st2 ∧ n1 = n2.
Proof.
  induction fuel as [|fuel IH]; intros st1 st2 n1 n2 bits r; [done|].
  cbn [append_loop append_loop_inputs].
  destruct (Z.land bits 1 =? 1); [|naive_solver].
  destruct st1 as [|l1 st1], st2 as [|l2 st2]; try done.
  intros H1 H2 [Hl1 Hs1]%Forall_cons [Hl2 Hs2]%Forall_cons Hi1 Hi2.
  destruct (IH _ _ _ _ _ _ H1 H2) as [-> Hn]; [done|done|set_solver|set_solver|].
  apply (log_collision_free_inj xs) in Hn; [|done|set_solver|set_solver].
  simpl in Hn. rewrite !app_nil_r in Hn. apply app_inj_1 in Hn as [-> ->]; [done|congruence].
Qed.

Lemma entry_parts_inj e1 e2 :
  wf_entry e1 → wf_entry e2 → mjoin (entry_parts e1) = mjoin (entry_parts e2) → e1 = e2.
Proof.
  destruct e1 as [b1 p1 r1 s1], e2 as [b2 p2 r2 s2].
  intros ([Hb1 _] & [Hp1 _] & [Hr1 _] & Hs1) ([Hb2 _] & [Hp2 _] & [Hr2 _] & Hs2).
  unfold entry_parts. cbn [block parent root blue_score mjoin list_join] in *. intros H.
  apply app_inj_1 in H as [-> H]; [|congruence]. apply app_inj_1 in H as [-> H]; [|congruence].
  apply app_inj_1 in H as [-> H]; [|congruence]. rewrite !app_nil_r in H.
  apply to_le_bytes_inj in H; [by subst|lia|done|done].
Qed.

Lemma append_loop_length fuel : ∀ st nd bits st' nd',
  append_loop fuel st nd bits = Ok (st', nd') →
  Forall (λ p, length p = 32%nat) st → length nd = 32%nat →
  Forall (λ p, length p = 32%nat) st' ∧ length nd' = 32%nat.
Proof.
  induction fuel as [|fuel IH]; intros st nd bits st' nd'; [done|]. cbn [append_loop].
  destruct (_ =? 1); [|naive_solver]. destruct st as [|x st]; [done|].
  intros H [_ Hs]%Forall_cons Hn. eapply IH; [done|done|]. apply blake2b_length.
Qed.

Lemma append_wf_log l e l' : wf_log l → append l e = Ok l' → wf_log l'.
Proof.
  intros [Hc Hp] Ha. apply append_inv in Ha as (_ & _ & _ & Hu & st & nd & Hl & Heq); [|done].
  split; [done|]. rewrite Heq.
  apply append_loop_length in Hl as [? ?]; [|by apply List.Forall_rev|apply blake2b_length].
  apply Forall_app. split; [by apply List.Forall_rev|]. by repeat constructor.
Qed.

Lemma append_inj l1 l2 e1 e2 l :
  wf_log l1 → wf_log l2 → wf_entry e1 → wf_entry e2 →
  append_inputs l1 e1 ⊆ xs → append_inputs l2 e2 ⊆ xs →
  append l1 e1 = Ok l → append l2 e2 = Ok l → l1 = l2 ∧ e1 = e2.
Proof.
  intros [Hc1 Hp1] [Hc2 Hp2] He1 He2 [Hi1 Hj1]%cons_subseteq_1 [Hi2 Hj2]%cons_subseteq_1 H1 H2.
  apply append_inv in H1 as (_ & _ & Hk1 & _ & st1 & nd1 & Hl1 & Hpk1); [|done].
  apply append_inv in H2 as (_ & _ & Hk2 & _ & st2 & nd2 & Hl2 & Hpk2); [|done].
  assert (count l1 = count l2) as Hk by lia.
  rewrite Hpk1 in Hpk2. apply app_inj_tail in Hpk2 as [Hst ->].
  apply (f_equal (@rev bytes)) in Hst. rewrite !rev_involutive in Hst. subst st2.
  rewrite <- Hk in Hl2.
  destruct (append_loop_inj 65 (rev (peaks l1)) (rev (peaks l2)) _ _ _ _ Hl1 Hl2) as [Hpp Hee];
    [by apply List.Forall_rev|by apply List.Forall_rev|exact Hj1|rewrite Hk; exact Hj2|].
  split.
  - apply (f_equal (@rev bytes)) in Hpp. rewrite !rev_involutive in Hpp.
    clear - Hpp Hk. destruct l1, l2; simpl in *; congruence.
  - apply (log_collision_free_inj xs) in Hee; [by apply entry_parts_inj|done|done|done].
Qed.

Lemma append_all_snoc es : ∀ l e l',
  append_all l (es ++ [e]) = Ok l' →
  ∃ l1, append_all l es = Ok l1 ∧ append l1 e = Ok l' ∧
    append_all_inputs l (es ++ [e]) = append_all_inputs l es ++ append_inputs l1 e.
Proof.
  induction es as [|x es IH]; intros l e l' H; unfold append_all in *; cbn [app res_foldl] in *.
  - apply res_bind_ok in H as (l1 & H1 & [= <-]). exists l. split; [done|]. split; [done|].
    cbn [append_all_inputs app]. rewrite H1. by rewrite app_nil_r.
  - apply res_bind_ok in H as (l1 & H1 & H2). apply IH in H2 as (l2 & H2 & H3 & H4).
    exists l2. rewrite H1. split; [exact H2|]. split; [done|].
    cbn [append_all_inputs]. rewrite H1, H4. by rewrite app_assoc.
Qed.

Lemma append_all_wf_log es : ∀ l l', wf_log l → append_all l es = Ok l' → wf_log l'.
Proof.
  intros l l'. apply (res_foldl_ind wf_log). intros b a b' Hb Ha. by eapply append_wf_log.
Qed.

Lemma commitment_inj l1 l2 :
  wf_log l1 → wf_log l2 → commitment_input l1 ∈ xs → commitment_input l2 ∈ xs →
  commitment l1 = commitment l2 → l1 = l2.
Proof.
  intros [Hc1 Hp1] [Hc2 Hp2] H1 H2 H. apply (log_collision_free_inj xs) in H; [|done..].
  cbn [mjoin list_join] in H. apply app_inj_1 in H as [Hc Hp]; [|by rewrite !length_to_le_bytes].
  apply to_le_bytes_inj in Hc; [|lia|done|done].
  apply (f_equal (chunks_exact 32)) in Hp. rewrite !chunks_exact_mjoin in Hp by (done || lia).
  destruct l1, l2; simpl in *; congruence.
Qed.

Lemma append_all_suffix es : ∀ p all l,
  wf_log p → Forall wf_entry es → Forall wf_entry all →
  append_all_inputs p es ⊆ xs → append_all_inputs default_log all ⊆ xs →
  append_all p es = Ok l → append_all default_log all = Ok l →
  ∃ before, all = before ++ es ∧ append_all default_log before = Ok p.
Proof.
  induction es as [|e es IH] using rev_ind; intros p all l Hp Hes Hall Hi1 Hi2 H1 H2.
  { injection H1 as ->. exists all. by rewrite app_nil_r. }
  assert (wf_log default_log) as Hd by (split; [done|constructor]).
  destruct (append_all_count _ _ _ (proj1 Hp) H1) as [Hc1 _].
  destruct (append_all_count _ _ _ (proj1 Hd) H2) as [Hc2 _].
  rewrite length_app in Hc1. cbn [length count default_log] in Hc1, Hc2.
  destruct all as [|a all _] using rev_ind; [destruct Hp as [[]]; cbn [length] in Hc2; lia|].
  apply append_all_snoc in H1 as (l1 & H1 & Ha1 & Hin1).
  apply append_all_snoc in H2 as (l2 & H2 & Ha2 & Hin2).
  rewrite Hin1 in Hi1. rewrite Hin2 in Hi2. apply list_subseteq_app_iff_l in Hi1 as [Hi1 Hj1].
  apply list_subseteq_app_iff_l in Hi2 as [Hi2 Hj2].
  apply Forall_app in Hes as [Hes [He _]%Forall_cons]. apply Forall_app in Hall as [Hall [Ha _]%Forall_cons].
  destruct (append_inj l1 l2 e a l) as [-> ->];
    [exact (append_all_wf_log es p l1 Hp H1)|exact (append_all_wf_log all default_log l2 Hd H2)|exact He|exact Ha|exact Hj1|exact Hj2|exact Ha1|exact Ha2|].
  destruct (IH p all l2) as (before & -> & Hb); try done.
  exists before. by rewrite app_assoc.
Qed.
End binding.
End log.
End Log.

(** C31. The anchor log of any list of fewer than 2^64 chain blocks exists, and
    is the mountain range built from scratch: appending the entries one by one
    to the empty log never fails and never panics, the count is the number of
    entries, and the peaks are the perfect-tree roots of the binary
    decomposition of that number, largest first. *)
Theorem anchor_log_is_mountain_range (blake2b : bytes → bytes → bytes) (es : list WindowEntry) :
  Z.of_nat (length es) < 2 ^ 64 →
  Log.append_all blake2b Log.default_log es =
    Ok (mkAnchorLog (Z.of_nat (length es)) (Log.mountain blake2b 64 (Log.entry_hash blake2b <$> es))).
Proof.
  intros H. destruct (Log.append_all_mountain blake2b es H) as [Ha _]. rewrite Ha.
  unfold Log.mountain_log. by rewrite length_fmap.
Qed.

(** [append] on any log a peer may send: it never panics. It fails exactly
    when the peaks do not match the count or the count is [u64::MAX]; otherwise
    the new log is well formed and counts one more entry. *)
Theorem anchor_append_total (blake2b : bytes → bytes → bytes) (l : AnchorLog) (e : WindowEntry) :
  is_u64 (count l) →
  if negb (Log.is_well_formed l) then Log.append blake2b l e = Err Malformed
  else if count l =? u64_max then Log.append blake2b l e = Err Full
  else ∃ l', Log.append blake2b l e = Ok l' ∧ count l' = count l + 1 ∧ Log.is_well_formed l' = true.
Proof.
  intros Hc. pose proof (Log.append_cases blake2b l e Hc) as H.
  destruct (negb (Log.is_well_formed l)); [done|]. destruct (count l =? u64_max); [done|].
  destruct H as (st & nd & Ha & _ & Hw). by eexists.
Qed.

(** Replay is complete: the last entries of a selected chain, replayed onto
    the log of the entries before them, give the log of the whole chain. *)
Theorem anchor_replay_complete (blake2b : bytes → bytes → bytes) (before es : list WindowEntry) :
  Z.of_nat (length (before ++ es)) < 2 ^ 64 → Log.chain_shaped None es →
  ∃ prefix log, Log.append_all blake2b Log.default_log before = Ok prefix ∧
    Log.replay blake2b prefix es = Ok log ∧
    Log.append_all blake2b Log.default_log (before ++ es) = Ok log.
Proof.
  intros Hlen Hc. destruct (Log.append_all_mountain blake2b (before ++ es) Hlen) as [Ha _].
  pose proof Ha as Ha'. unfold Log.append_all in Ha'. rewrite res_foldl_app in Ha'.
  apply res_bind_ok in Ha' as (prefix & H1 & H2).
  exists prefix, (Log.mountain_log blake2b (Log.entry_hash blake2b <$> before ++ es)).
  split; [done|]. split; [|done]. by apply Log.replay_loop_ok.
Qed.

(** C32. Replay is sound: when entries a peer supplied, replayed onto a prefix
    log it also supplied, reach the commitment of the true log, then the entries
    are the last ones of the true chain, in order, they are chain shaped, and
    the prefix is the log of the chain before them. Blake2b is assumed to return
    32 bytes and to have no collision among the inputs hashed on the way. *)
Theorem anchor_replay_sound (blake2b : bytes → bytes → bytes) (prefix log true_log : AnchorLog)
    (es all : list WindowEntry) :
  (∀ p x, length (blake2b p x) = 32%nat) →
  wf_log prefix → Forall wf_entry es → Forall wf_entry all →
  Log.collision_free blake2b
    ([Log.commitment_input log; Log.commitment_input true_log] ++
     Log.append_all_inputs blake2b prefix es ++ Log.append_all_inputs blake2b Log.default_log all) →
  Log.append_all blake2b Log.default_log all = Ok true_log →
  Log.replay blake2b prefix es = Ok log →
  Log.commitment blake2b log = Log.commitment blake2b true_log →
  Log.chain_shaped None es ∧
  ∃ before, all = before ++ es ∧ Log.append_all blake2b Log.default_log before = Ok prefix.
Proof.
  intros Hlen Hp Hes Hall Hcf Htrue [Hsh Hap]%Log.replay_loop_ok Hcom. split; [done|].
  assert (log = true_log) as ->.
  { eapply (Log.commitment_inj blake2b _ Hcf); [| |by left|by right; left|done].
    - by apply (Log.append_all_wf_log blake2b Hlen es prefix).
    - apply (Log.append_all_wf_log blake2b Hlen all Log.default_log); [|done]. split; [done|constructor]. }
  eapply (Log.append_all_suffix blake2b Hlen _ Hcf); try done.
  - intros x Hx. rewrite !elem_of_app. auto.
  - intros x Hx. rewrite !elem_of_app. auto.
Qed.

Lemma anchor_log_is_mountain_range_witness :
  let e := mkWindowEntry (zeros 32) (zeros 32) (zeros 32) 1 in
  let h := λ p x, example_hash (p ++ x) in
  Log.append_all h Log.default_log [e; e; e] =
    Ok (mkAnchorLog 3 [Log.node_hash h (Log.entry_hash h e) (Log.entry_hash h e); Log.entry_hash h e]).
Proof.
  intros e h. rewrite (anchor_log_is_mountain_range h [e; e; e]); [|reflexivity].
  vm_compute. reflexivity.
Defined.

Lemma anchor_append_total_witness :
  let l := mkAnchorLog 1 [zeros 32] in
  let e := mkWindowEntry (zeros 32) (zeros 32) (zeros 32) 1 in
  ∃ l', Log.append (λ p x, example_hash (p ++ x)) l e = Ok l' ∧ count l' = 2 ∧
    Log.is_well_formed l' = true.
Proof.
  intros l e. apply (anchor_append_total (λ p x, example_hash (p ++ x)) l e). decide_by_eval.
Defined.

Lemma anchor_replay_complete_witness :
  let a := mkWindowEntry (zeros 32) (zeros 32) (zeros 32) 1 in
  let b := mkWindowEntry (example_hash [1]) (zeros 32) (zeros 32) 2 in
  let c := mkWindowEntry (example_hash [2]) (example_hash [1]) (zeros 32) 3 in
  let h := λ p x, example_hash (p ++ x) in
  ∃ prefix log, Log.append_all h Log.default_log [a] = Ok prefix ∧
    Log.replay h prefix [b; c] = Ok log ∧ Log.append_all h Log.default_log [a; b; c] = Ok log.
Proof.
  intros a b c h. apply (anchor_replay_complete h [a] [b; c]); [reflexivity|].
  repeat split; vm_compute; reflexivity.
Defined.

Lemma anchor_replay_sound_witness :
  let a := mkWindowEntry (zeros 32) (zeros 32) (zeros 32) 1 in
  let b := mkWindowEntry (example_hash [1]) (zeros 32) (zeros 32) 2 in
  let c := mkWindowEntry (example_hash [2]) (example_hash [1]) (zeros 32) 3 in
  let h := λ p x, example_hash (p ++ x) in
  let prefix := mkAnchorLog 1 [Log.entry_hash h a] in
  Log.chain_shaped None [b; c] ∧
  ∃ before, [a; b; c] = before ++ [b; c] ∧ Log.append_all h Log.default_log before = Ok prefix.
Proof.
  intros a b c h prefix.
  apply (anchor_replay_sound h prefix
    (default prefix (match Log.replay h prefix [b; c] with Ok l => Some l | _ => None end))
    (default prefix (match Log.replay h prefix [b; c] with Ok l => Some l | _ => None end))
    [b; c] [a; b; c]).
  - intros p x. apply length_example_hash.
  - decide_by_eval.
  - decide_by_eval.
  - decide_by_eval.
  - decide_by_eval.
  - vm_compute. reflexivity.
  - vm_compute. reflexivity.
  - reflexivity.
Defined.
