(* ===== verification/Tree.v ===== *)
(** * The note-commitment tree

    Model of [shielded-core/src/tree.rs]: the chain-block subtree, the global
    append-only tree that keeps only its frontier, and the persisted snapshot of
    the frontier. The Orchard and [incrementalmerkletree] types are a parameter
    (class [OrchardTree]) with what their documentation promises (class
    [OrchardTreeLaws]): a frontier stands for the sequence of leaves appended to
    it, at most 2^32 of them, and can be taken apart and rebuilt. *)

From S2P Require Import Prelude.

Definition TREE_DEPTH : Z := 32.

(** The external types and functions the tree is built from. [f_append] is
    [Frontier::append]: the new frontier when it returns [true], [None] when it
    returns [false] and leaves the frontier unchanged. [f_value] is
    [Frontier::value], as (position, leaf, ommers). *)
Class OrchardTree : Type := {
  Cmx : Type;
  Node : Type;
  Frontier : Type;
  Anchor : Type;
  cmx_from_bytes : bytes → option Cmx;
  from_cmx : Cmx → Node;
  node_to_bytes : Node → bytes;
  node_of_bytes : bytes → option Node;
  f_empty : Frontier;
  f_append : Frontier → Node → option Frontier;
  f_value : Frontier → option (Z * Node * list Node);
  f_from_parts : Z → Node → list Node → option Frontier;
  f_root : Frontier → Node;
  anchor_empty_tree : Anchor;
  anchor_from : Node → Anchor;
}.

Class OrchardTreeLaws (O : OrchardTree) : Type := {
  f_leaves : Frontier → list Node;
  f_leaves_empty : f_leaves f_empty = [];
  f_append_fits f n : Zlength (f_leaves f) < 2 ^ TREE_DEPTH →
    ∃ f', f_append f n = Some f' ∧ f_leaves f' = f_leaves f ++ [n];
  f_append_full f n : 2 ^ TREE_DEPTH <= Zlength (f_leaves f) → f_append f n = None;
  f_value_none f : f_value f = None → f = f_empty;
  f_value_some f p l o : f_value f = Some (p, l, o) →
    0 <= p ∧ p + 1 = Zlength (f_leaves f) ∧ f_from_parts p l o = Some f;
  f_value_empty : f_value f_empty = None;
  node_bytes_roundtrip n : node_of_bytes (node_to_bytes n) = Some n;
  f_root_leaves f f' : f_leaves f = f_leaves f' → f_root f = f_root f';
}.

Inductive TreeFull : Type := TreeFull_.

Inductive TreeStateError : Type := NonCanonicalNode | Inconsistent.

Section tree.
Context {O : OrchardTree}.

(** [ChainBlockSubtree] is its vector of commitments. *)
Record ChainBlockSubtree : Type := mkChainBlockSubtree { commitments : list Cmx }.

Record GlobalTree : Type := mkGlobalTree { frontier : Frontier; tree_size : Z }.

Record FrontierState : Type := mkFrontierState {
  fs_size : Z;
  fs_leaf : option bytes;
  fs_ommers : list bytes;
}.

Definition subtree_new : ChainBlockSubtree := mkChainBlockSubtree [].
Definition subtree_push (s : ChainBlockSubtree) (cmx : Cmx) : ChainBlockSubtree :=
  mkChainBlockSubtree (commitments s ++ [cmx]).
Definition subtree_len (s : ChainBlockSubtree) : Z := Zlength (commitments s).
Definition subtree_is_empty (s : ChainBlockSubtree) : bool := subtree_len s =? 0.

Definition tree_new : GlobalTree := mkGlobalTree f_empty 0.

Definition tree_append (t : GlobalTree) (cmx : Cmx) : res TreeFull GlobalTree :=
  match f_append (frontier t) (from_cmx cmx) with
  | Some f => size ← add_u 64 (tree_size t) 1; Ok (mkGlobalTree f size)
  | None => Err TreeFull_
  end.

Definition tree_anchor (t : GlobalTree) : Anchor :=
  match f_value (frontier t) with
  | None => anchor_empty_tree
  | Some _ => anchor_from (f_root (frontier t))
  end.

(** The tree is mutated in place, so an error leaves the leaves that did fit:
    both the tree and the outcome are returned. *)
Fixpoint append_commitments (t : GlobalTree) (l : list Cmx) : GlobalTree * res TreeFull () :=
  match l with
  | [] => (t, Ok ())
  | cmx :: l =>
      match tree_append t cmx with
      | Ok t' => append_commitments t' l
      | Err e => (t, Err e)
      | Panic => (t, Panic)
      end
  end.
Definition append_subtree (t : GlobalTree) (s : ChainBlockSubtree) : GlobalTree * res TreeFull () :=
  append_commitments t (commitments s).

Definition to_state (t : GlobalTree) : FrontierState :=
  match f_value (frontier t) with
  | None => mkFrontierState 0 None []
  | Some (_, leaf, ommers) =>
      mkFrontierState (tree_size t) (Some (node_to_bytes leaf)) (node_to_bytes <$> ommers)
  end.

Definition node_from_bytes (b : bytes) : res TreeStateError Node :=
  ok_or (node_of_bytes b) NonCanonicalNode.

Fixpoint nodes_from_bytes (l : list bytes) : res TreeStateError (list Node) :=
  match l with
  | [] => Ok []
  | b :: l => n ← node_from_bytes b; ns ← nodes_from_bytes l; Ok (n :: ns)
  end.

Definition from_state (s : FrontierState) : res TreeStateError GlobalTree :=
  if fs_size s =? 0 then Ok tree_new
  else
    leaf_bytes ← ok_or (fs_leaf s) Inconsistent;
    leaf ← node_from_bytes leaf_bytes;
    ommers ← nodes_from_bytes (fs_ommers s);
    position ← sub_u (fs_size s) 1;
    f ← ok_or (f_from_parts position leaf ommers) Inconsistent;
    Ok (mkGlobalTree f (fs_size s)).

(** ** Invariant and behaviour *)

Context `{OL : !OrchardTreeLaws O}.

Definition leaves (t : GlobalTree) : list Node := f_leaves (frontier t).

(** The size field counts the leaves, at most 2^32. *)
Definition wf_tree (t : GlobalTree) : Prop :=
  tree_size t = Zlength (leaves t) ∧ tree_size t <= 2 ^ TREE_DEPTH.

Lemma wf_tree_new : wf_tree tree_new.
Proof. unfold wf_tree, leaves. cbn. rewrite f_leaves_empty. done. Qed.

Lemma tree_append_spec t cmx :
  wf_tree t →
  if tree_size t <? 2 ^ TREE_DEPTH then
    ∃ t', tree_append t cmx = Ok t' ∧ wf_tree t' ∧ leaves t' = leaves t ++ [from_cmx cmx]
  else tree_append t cmx = Err TreeFull_.
Proof.
  intros [Hs Hb]. unfold tree_append. destruct (Z.ltb_spec (tree_size t) (2 ^ TREE_DEPTH)) as [Hlt|Hge].
  - destruct (f_append_fits (frontier t) (from_cmx cmx)) as (f & -> & Hf); [unfold leaves in Hs; lia|].
    unfold add_u, checked_add. destruct (Z.ltb_spec (tree_size t + 1) (2 ^ 64)); [|unfold TREE_DEPTH in *; lia].
    cbn. eexists. split; [done|]. unfold wf_tree, leaves, Zlength in *. cbn. rewrite Hf, length_app. cbn.
    split; [split; lia|done].
  - by rewrite f_append_full by (unfold leaves in Hs; lia).
Qed.

(** Appending a batch: all of it when it fits, else the tree is filled up and
    [TreeFull] is returned. *)
Lemma append_commitments_spec l : ∀ t,
  wf_tree t →
  let room := Z.to_nat (2 ^ TREE_DEPTH - tree_size t) in
  let '(t', r) := append_commitments t l in
  wf_tree t' ∧ leaves t' = leaves t ++ take room (from_cmx <$> l) ∧
  r = if tree_size t + Zlength l <=? 2 ^ TREE_DEPTH then Ok () else Err TreeFull_.
Proof.
  induction l as [|cmx l IH]; intros t Hwf; cbn zeta.
  { cbn [append_commitments]. rewrite fmap_nil, take_nil, app_nil_r. split; [done|]. split; [done|].
    destruct Hwf as [_ Hb]. unfold Zlength. cbn [length]. by rewrite (proj2 (Z.leb_le _ _)) by lia. }
  cbn [append_commitments]. pose proof (tree_append_spec t cmx Hwf) as Ha.
  assert (Zlength (cmx :: l) = 1 + Zlength l) as Hl by (unfold Zlength; cbn; lia).
  destruct (Z.ltb_spec (tree_size t) (2 ^ TREE_DEPTH)) as [Hlt|Hge].
  - destruct Ha as (t1 & -> & Hwf1 & Hl1). specialize (IH t1 Hwf1). cbn zeta in IH.
    destruct (append_commitments t1 l) as [t' r]. destruct IH as (Hw & Hlv & Hr).
    assert (tree_size t1 = tree_size t + 1) as Hs1.
    { destruct Hwf as [H1 _], Hwf1 as [H2 _]. rewrite H1, H2, Hl1. unfold Zlength. rewrite length_app. cbn. lia. }
    split; [done|]. split.
    + rewrite Hlv, Hl1, Hs1, <- app_assoc. f_equal.
      replace (Z.to_nat (2 ^ TREE_DEPTH - tree_size t)) with (S (Z.to_nat (2 ^ TREE_DEPTH - (tree_size t + 1)))) by lia.
      done.
    + rewrite Hr, Hs1, Hl. replace (tree_size t + 1 + Zlength l) with (tree_size t + (1 + Zlength l)) by lia. done.
  - rewrite Ha. split; [done|]. split.
    + replace (Z.to_nat (2 ^ TREE_DEPTH - tree_size t)) with 0%nat by lia. by rewrite take_0, app_nil_r.
    + rewrite Hl. destruct (Z.leb_spec (tree_size t + (1 + Zlength l)) (2 ^ TREE_DEPTH)); [|done].
      unfold Zlength in *. lia.
Qed.

Lemma append_subtree_ok t s t' :
  wf_tree t → append_subtree t s = (t', Ok ()) →
  wf_tree t' ∧ leaves t' = leaves t ++ (from_cmx <$> commitments s).
Proof.
  intros Hwf H. pose proof (append_commitments_spec (commitments s) t Hwf) as Hs. cbn zeta in Hs.
  unfold append_subtree in H. rewrite H in Hs. destruct Hs as (Hw & Hl & Hr). split; [done|].
  destruct (Z.leb_spec (tree_size t + Zlength (commitments s)) (2 ^ TREE_DEPTH)); [|done].
  rewrite Hl, take_ge; [done|]. rewrite length_fmap. unfold Zlength in *. lia.
Qed.

Lemma nodes_bytes_roundtrip l : nodes_from_bytes (node_to_bytes <$> l) = Ok l.
Proof.
  induction l as [|n l IH]; [done|]. cbn. unfold node_from_bytes. rewrite node_bytes_roundtrip. cbn.
  change (list_fmap _ _ node_to_bytes l) with (node_to_bytes <$> l). by rewrite IH.
Qed.

(** A snapshot rebuilds the tree it was taken from. *)
Lemma state_roundtrip t : wf_tree t → from_state (to_state t) = Ok t.
Proof.
  intros [Hs _]. unfold to_state, from_state. destruct (f_value (frontier t)) as [[[p leaf] ommers]|] eqn:E; cbn.
  - apply f_value_some in E as (Hp0 & Hp & Hparts). unfold leaves in Hs.
    destruct (Z.eqb_spec (tree_size t) 0); [lia|]. unfold node_from_bytes. rewrite node_bytes_roundtrip. cbn.
    change (list_fmap _ _ node_to_bytes ommers) with (node_to_bytes <$> ommers).
    rewrite nodes_bytes_roundtrip. cbn. unfold sub_u, checked_sub.
    destruct (Z.leb_spec 1 (tree_size t)); [|lia]. cbn.
    replace (tree_size t - 1) with p by lia. rewrite Hparts. cbn. by destruct t.
  - apply f_value_none in E. destruct t as [f sz]. cbn in *. subst f. unfold leaves in Hs. cbn in Hs.
    rewrite f_leaves_empty in Hs. by subst sz.
Qed.

(** The anchor is a function of the leaves. *)
Lemma anchor_leaves t1 t2 : leaves t1 = leaves t2 → tree_anchor t1 = tree_anchor t2.
Proof.
  unfold leaves, tree_anchor. intros H.
  destruct (f_value (frontier t1)) as [[[p1 l1] o1]|] eqn:E1, (f_value (frontier t2)) as [[[p2 l2] o2]|] eqn:E2.
  - by rewrite (f_root_leaves _ _ H).
  - apply f_value_none in E2. rewrite E2, f_leaves_empty in H. apply f_value_some in E1 as (? & Hp & _).
    rewrite H in Hp. unfold Zlength in Hp. cbn in Hp. lia.
  - apply f_value_none in E1. rewrite E1, f_leaves_empty in H. apply f_value_some in E2 as (? & Hp & _).
    rewrite <- H in Hp. unfold Zlength in Hp. cbn in Hp. lia.
  - done.
Qed.
End tree.

(** ** A concrete tree, for evaluation: the frontier is the list of leaves *)

Definition example_tree : OrchardTree := {|
  Cmx := Z; Node := Z; Frontier := list Z; Anchor := Z;
  cmx_from_bytes := λ b, Some (from_le_bytes b);
  from_cmx := λ c, c;
  node_to_bytes := λ n, [n];
  node_of_bytes := head;
  f_empty := [];
  f_append := λ f n, if Zlength f <? 2 ^ TREE_DEPTH then Some (f ++ [n]) else None;
  f_value := λ f, match last f with Some l => Some (Zlength f - 1, l, removelast f) | None => None end;
  f_from_parts := λ p l o, if p =? Zlength o then Some (o ++ [l]) else None;
  f_root := λ f, foldl (λ a b, Z.land (a * 263 + b + 1) example_mask) 7 f;
  anchor_empty_tree := 0;
  anchor_from := λ n, n;
|}.

Definition example_tree_laws : OrchardTreeLaws example_tree.
Proof.
  refine {| f_leaves := λ f : @Frontier example_tree, (f : list Z) |}; cbn; unfold Zlength in *.
  - done.
  - intros f n H. destruct (Z.ltb_spec (Z.of_nat (length f)) (2 ^ TREE_DEPTH)); [eauto|lia].
  - intros f n H. destruct (Z.ltb_spec (Z.of_nat (length f)) (2 ^ TREE_DEPTH)); [lia|done].
  - intros f. destruct f as [|x f _] using rev_ind; [done|]. by rewrite last_snoc.
  - intros f p l o. destruct f as [|x f _] using rev_ind; [done|]. rewrite last_snoc, removelast_last, length_app.
    intros [= <- <- <-]. cbn. split; [lia|]. split; [lia|].
    destruct (Z.eqb_spec (Z.of_nat (length f + 1) - 1) (Z.of_nat (length f))); [done|lia].
  - done.
  - done.
  - by intros f f' ->.
Defined.

(** Restart safety: for every tree in a well-formed state, the persisted
    snapshot rebuilds exactly that tree, so appending after a restart continues
    where the node stopped. *)
Theorem tree_snapshot_roundtrip {O : OrchardTree} {OL : OrchardTreeLaws O} (t : GlobalTree) :
  wf_tree t → from_state (to_state t) = Ok t.
Proof. apply state_roundtrip. Qed.

Lemma tree_snapshot_roundtrip_witness :
  from_state (to_state (mkGlobalTree (O := example_tree) [5; 6; 7] 3)) = Ok (mkGlobalTree (O := example_tree) [5; 6; 7] 3).
Proof. apply (tree_snapshot_roundtrip (OL := example_tree_laws) (mkGlobalTree (O := example_tree) [5; 6; 7] 3)). by vm_compute. Defined.

(** Appending a block's batch: the tree's leaves become the old leaves followed
    by as many of the batch as fit below 2^32, in order, the invariant is kept,
    and [TreeFull] is returned exactly when some did not fit. *)
Theorem tree_append_subtree_spec {O : OrchardTree} {OL : OrchardTreeLaws O}
    (t : GlobalTree) (s : ChainBlockSubtree) :
  wf_tree t →
  let '(t', r) := append_subtree t s in
  wf_tree t' ∧
  leaves t' = leaves t ++ take (Z.to_nat (2 ^ TREE_DEPTH - tree_size t)) (from_cmx <$> commitments s) ∧
  r = if tree_size t + subtree_len s <=? 2 ^ TREE_DEPTH then Ok () else Err TreeFull_.
Proof. apply append_commitments_spec. Qed.

Lemma tree_append_subtree_spec_witness :
  let '(t', r) := append_subtree (mkGlobalTree (O := example_tree) [5] 1) (mkChainBlockSubtree (O := example_tree) [6; 7]) in
  wf_tree (OL := example_tree_laws) t' ∧
  leaves (OL := example_tree_laws) t' = [5] ++ take (Z.to_nat (2 ^ TREE_DEPTH - 1)) [6; 7] ∧ r = Ok ().
Proof.
  apply (tree_append_subtree_spec (OL := example_tree_laws) (mkGlobalTree (O := example_tree) [5] 1) (mkChainBlockSubtree (O := example_tree) [6; 7])).
  by vm_compute.
Defined.
