(* ===== verification/Bundle.v ===== *)
(** * The on-wire Orchard bundle

    Model of [shielded-core/src/bundle.rs]: the canonical byte encoding of a
    shielded bundle (writer and reader, both wire formats), the cheap action
    count, the size formulas and the two functions that attach a field together
    with its flag bit. *)

From S2P Require Import Prelude.

Module sizes.
Definition FIELD : Z := 32.
Definition ENC_CIPHERTEXT : Z := 580.
Definition OUT_CIPHERTEXT : Z := 80.
Definition SIG : Z := 64.
End sizes.

Definition MAX_ACTIONS_PER_BUNDLE : Z := 512.
Definition BUNDLE_FLAG_BURN : Z := 4.
Definition BUNDLE_FLAG_ANCHOR_BLOCK : Z := 8.
Definition BURN_DECL_LEN : Z := 8 + 32.

Record ActionWire : Type := mkActionWire {
  nullifier : bytes;
  rk : bytes;
  cmx : bytes;
  cv_net : bytes;
  ephemeral_key : bytes;
  enc_ciphertext : bytes;
  out_ciphertext : bytes;
  spend_auth_sig : bytes;
}.

Definition SERIALIZED_LEN : Z :=
  sizes.FIELD * 5 + sizes.ENC_CIPHERTEXT + sizes.OUT_CIPHERTEXT + sizes.SIG.

Definition expected_proof_len (n_actions : Z) : Z := 2720 + 2272 * n_actions.
Definition expected_wire_len (n_actions : Z) : Z :=
  117 + n_actions * SERIALIZED_LEN + expected_proof_len n_actions.
Definition expected_wire_len_with_burn (n_actions : Z) : Z :=
  expected_wire_len n_actions + BURN_DECL_LEN.

Record ShieldedBundle : Type := mkShieldedBundle {
  actions : list ActionWire;
  flags : Z;
  value_balance : Z;
  anchor : bytes;
  proof : bytes;
  binding_sig : bytes;
  burn : option (Z * bytes);
  anchor_block : option bytes;
}.

#[export] Instance ActionWire_eq_dec : EqDecision ActionWire.
Proof. solve_decision. Defined.
#[export] Instance ShieldedBundle_eq_dec : EqDecision ShieldedBundle.
Proof. solve_decision. Defined.

Inductive BurnDeclareError : Type :=
| ZeroValue
| ExceedsValueBalance (burn value_balance : Z).

Inductive BundleDecodeError : Type :=
| UnexpectedEof
| LengthOverflow
| TrailingBytes
| MalformedBurnDeclaration
| ZeroValueBurn
| TooManyActions.

#[export] Instance BundleDecodeError_eq_dec : EqDecision BundleDecodeError.
Proof. solve_decision. Defined.

(** ** Writer: the buffer is the state; each call appends to it *)

Module Writer.
Definition new : bytes := [].
Definition bytes_ (w b : bytes) : bytes := w ++ b.
Definition u8 (w : bytes) (v : Z) : bytes := w ++ [v].
Definition u32 (w : bytes) (v : Z) : bytes := w ++ to_be_bytes 4 v.
Definition i64 (w : bytes) (v : Z) : bytes := w ++ to_be_bytes 8 v.
Definition u64 (w : bytes) (v : Z) : bytes := w ++ to_be_bytes 8 v.
(** [b.len() as u32] truncates. *)
Definition var (w b : bytes) : bytes := bytes_ (u32 w (wrap 32 (Zlength b))) b.
End Writer.

(** ** Reader *)

Record Reader : Type := mkReader { buf : bytes; pos : Z }.

(** A reading function: from the reader to a value and the advanced reader. *)
Abbreviation parser A := (Reader → res BundleDecodeError (A * Reader)).

Definition pret {A} (x : A) : parser A := λ r, Ok (x, r).
Definition pfail {A} (e : BundleDecodeError) : parser A := λ _, Err e.
Definition pbind {A B} (p : parser A) (k : A → parser B) : parser B :=
  λ r, '(x, r) ← p r; k x r.
Definition pmap_err {A} (f : BundleDecodeError → BundleDecodeError) (p : parser A) : parser A :=
  λ r, map_err f (p r).

Declare Scope parser_scope.
Delimit Scope parser_scope with parser.
Notation "'let*' x := p 'in' k" := (pbind p (λ x, k))
  (at level 200, x name, p at level 100, k at level 200) : parser_scope.
Open Scope parser_scope.

Module Read.
Definition new (b : bytes) : Reader := mkReader b 0.

Definition take (n : Z) : parser bytes := λ r,
  end_ ← ok_or (checked_add 64 (pos r) n) LengthOverflow;
  if end_ >? Zlength (buf r) then Err UnexpectedEof
  else Ok (list.take (Z.to_nat n) (drop (Z.to_nat (pos r)) (buf r)), mkReader (buf r) end_).

Definition array (N : Z) : parser bytes := take N.

Definition u8 : parser Z := let* s := take 1 in λ r, x ← unwrap (head s); Ok (x, r).
Definition u32 : parser Z := let* a := array 4 in pret (from_be_bytes a).
Definition i64 : parser Z := let* a := array 8 in pret (to_signed 64 (from_be_bytes a)).
Definition u64 : parser Z := let* a := array 8 in pret (from_be_bytes a).
Definition var : parser bytes := let* n := u32 in take n.
Definition finished (r : Reader) : bool := pos r =? Zlength (buf r).
End Read.

(** ** The bundle *)

Definition write_action (w : bytes) (a : ActionWire) : bytes :=
  foldl Writer.bytes_ w
    [nullifier a; rk a; cmx a; cv_net a; ephemeral_key a; enc_ciphertext a; out_ciphertext a;
     spend_auth_sig a].

Definition to_bytes (b : ShieldedBundle) : bytes :=
  let w := Writer.new in
  let w := Writer.u8 w (flags b) in
  let w := Writer.i64 w (value_balance b) in
  let w := Writer.bytes_ w (anchor b) in
  let w := Writer.var w (binding_sig b) in
  let w := Writer.u32 w (wrap 32 (Zlength (actions b))) in
  let w := foldl write_action w (actions b) in
  let w := Writer.var w (proof b) in
  let w := match burn b with
           | Some (value, recipient) => Writer.bytes_ (Writer.u64 w value) recipient
           | None => w
           end in
  match anchor_block b with Some block => Writer.bytes_ w block | None => w end.

Definition read_action : parser ActionWire :=
  let* nf := Read.array sizes.FIELD in
  let* rk := Read.array sizes.FIELD in
  let* cmx := Read.array sizes.FIELD in
  let* cv := Read.array sizes.FIELD in
  let* epk := Read.array sizes.FIELD in
  let* enc := Read.array sizes.ENC_CIPHERTEXT in
  let* out := Read.array sizes.OUT_CIPHERTEXT in
  let* sig := Read.array sizes.SIG in
  pret (mkActionWire nf rk cmx cv epk enc out sig).

Fixpoint read_actions (n : nat) : parser (list ActionWire) :=
  match n with
  | O => pret []
  | S n => let* a := read_action in let* l := read_actions n in pret (a :: l)
  end.

Definition read_burn (flags : Z) : parser (option (Z * bytes)) :=
  if negb (Z.land flags BUNDLE_FLAG_BURN =? 0) then
    let* value := pmap_err (λ _, MalformedBurnDeclaration) Read.u64 in
    let* recipient := pmap_err (λ _, MalformedBurnDeclaration) (Read.array sizes.FIELD) in
    if value =? 0 then pfail ZeroValueBurn else pret (Some (value, recipient))
  else pret None.

Definition read_anchor_block (anchor_block_field : bool) (flags : Z) : parser (option bytes) :=
  if anchor_block_field && negb (Z.land flags BUNDLE_FLAG_ANCHOR_BLOCK =? 0) then
    let* b := pmap_err (λ _, UnexpectedEof) (Read.array 32) in pret (Some b)
  else pret None.

(** The fields of [decode], before the trailing-bytes check. *)
Definition read_bundle (anchor_block_field : bool) : parser ShieldedBundle :=
  let* flags := Read.u8 in
  let* value_balance := Read.i64 in
  let* anchor := Read.array sizes.FIELD in
  let* binding_sig := Read.var in
  if negb (Zlength binding_sig =? sizes.SIG) then pfail UnexpectedEof else
  let* n_actions := Read.u32 in
  if n_actions >? MAX_ACTIONS_PER_BUNDLE then pfail TooManyActions else
  let* actions := read_actions (Z.to_nat n_actions) in
  let* proof := Read.var in
  let* burn := read_burn flags in
  let* anchor_block := read_anchor_block anchor_block_field flags in
  pret (mkShieldedBundle actions flags value_balance anchor proof binding_sig burn anchor_block).

Definition decode (bytes : bytes) (anchor_block_field : bool) : res BundleDecodeError ShieldedBundle :=
  '(b, r) ← read_bundle anchor_block_field (Read.new bytes);
  if negb (Read.finished r) then Err TrailingBytes else Ok b.

Definition from_bytes (bytes : bytes) : res BundleDecodeError ShieldedBundle := decode bytes true.
Definition from_bytes_at (bytes : bytes) (security_fork_active : bool) :=
  decode bytes security_fork_active.

(** [r.x().ok()?]: an error ends the function with [None]; a panic stays one. *)
Definition ok_q {A} (r : res BundleDecodeError A) : exec (option A) :=
  match r with Ok a => Ok (Some a) | Err _ => Ok None | Panic => Panic end.

Definition read_action_count : parser Z :=
  let* _flags := Read.u8 in
  let* _value_balance := Read.i64 in
  let* _anchor := Read.array sizes.FIELD in
  let* _binding_sig := Read.var in
  let* n_actions := Read.u32 in
  if n_actions >? MAX_ACTIONS_PER_BUNDLE then pfail TooManyActions else pret n_actions.

Definition action_count_from_bytes (bytes : bytes) : exec (option Z) :=
  ok_q (fst <$> read_action_count (Read.new bytes)).

Definition set_anchor_block (b : ShieldedBundle) (block : bytes) : ShieldedBundle :=
  mkShieldedBundle (actions b) (Z.lor (flags b) BUNDLE_FLAG_ANCHOR_BLOCK) (value_balance b)
    (anchor b) (proof b) (binding_sig b) (burn b) (Some block).

Definition declare_burn (b : ShieldedBundle) (burn_value : Z) (kaspa_recipient : bytes)
  : res BurnDeclareError ShieldedBundle :=
  if burn_value =? 0 then Err ZeroValue
  else if (value_balance b <? 0) || (burn_value >? value_balance b) then
    Err (ExceedsValueBalance burn_value (value_balance b))
  else Ok (mkShieldedBundle (actions b) (Z.lor (flags b) BUNDLE_FLAG_BURN) (value_balance b)
    (anchor b) (proof b) (binding_sig b) (Some (burn_value, kaspa_recipient)) (anchor_block b)).

(** ** Codecs

    [codec p enc C Q]: on any well-formed reader, [p] never panics; it reads
    back the encoding of every value that satisfies [C] and [Q]; and whatever it
    reads satisfies them and is the encoding of what it consumed. [C] holds the
    values already read, [Q] what the rest of the format requires. *)

Definition wf_reader (r : Reader) : Prop :=
  wf_bytes (buf r) ∧ 0 <= pos r <= Zlength (buf r) ∧ Zlength (buf r) < 2 ^ 63.

Definition rest (r : Reader) : bytes := drop (Z.to_nat (pos r)) (buf r).

Record codec {A} (p : parser A) (enc : A → bytes) (C Q : A → Prop) : Prop := mkCodec {
  codec_complete r x tl :
    wf_reader r → C x → Q x → rest r = enc x ++ tl →
    ∃ r', p r = Ok (x, r') ∧ rest r' = tl ∧ wf_reader r';
  codec_sound r x r' :
    wf_reader r → p r = Ok (x, r') →
    C x ∧ Q x ∧ rest r = enc x ++ rest r' ∧ wf_reader r';
  codec_total r : wf_reader r → p r ≠ Panic;
}.

Abbreviation simple_codec p enc Q := (codec p enc (λ _, True) Q).

Section codecs.
Context {A : Type}.

Lemma codec_ext (p : parser A) enc enc' C Q Q' :
  codec p enc C Q → (∀ x, C x → Q x ↔ Q' x) → (∀ x, C x → Q x → enc x = enc' x) →
  codec p enc' C Q'.
Proof.
  intros [H1 H2 H3] HQ He. split; [|..|exact H3].
  - intros r x tl Hr HC HQ' Hrest. apply (H1 r x tl); [done|done|by apply HQ|].
    rewrite He; [done|done|by apply HQ].
  - intros r x r' Hr Hp. destruct (H2 r x r' Hr Hp) as (HC & Hq & Hrest & Hr').
    split; [done|]. split; [by apply HQ|]. by rewrite <- He.
Qed.

Lemma codec_ret (y : A) (C : A → Prop) :
  C y → (∀ y', C y' → y' = y) → codec (pret y) (λ _, []) C (λ _, True).
Proof.
  intros HC Hu. split; unfold pret.
  - intros r x tl Hr Hx _ Hrest. rewrite (Hu x Hx). by exists r.
  - intros r x r' Hr [= <- <-]. done.
  - done.
Qed.

Lemma codec_bind {X} (p : parser X) (k : X → parser A) (f : A → X) ep eP e2 (C : A → Prop) (Q : X → A → Prop) :
  simple_codec p ep eP →
  (∀ x, eP x → codec (k x) (e2 x) (λ y, C y ∧ f y = x) (Q x)) →
  codec (pbind p k) (λ y, ep (f y) ++ e2 (f y) y) C (λ y, eP (f y) ∧ Q (f y) y).
Proof.
  intros Hp Hk. split; unfold pbind.
  - intros r y tl Hr HC [HP HQ] Hrest. rewrite <- app_assoc in Hrest.
    destruct (codec_complete _ _ _ _ Hp r (f y) _ Hr I HP Hrest) as (r1 & -> & Hr1 & Hw1). cbn [mbind res_bind].
    by apply (codec_complete _ _ _ _ (Hk (f y) HP)).
  - intros r y r' Hr H. apply res_bind_ok in H as ([x r1] & H1 & H2).
    destruct (codec_sound _ _ _ _ Hp _ _ _ Hr H1) as (_ & HP & -> & Hw1).
    destruct (codec_sound _ _ _ _ (Hk x HP) _ _ _ Hw1 H2) as ([HC <-] & HQ & -> & Hw2).
    by rewrite <- app_assoc.
  - intros r Hr. destruct (p r) as [[x r1]|e|] eqn:E; [|done|by destruct (codec_total _ _ _ _ Hp r Hr)].
    destruct (codec_sound _ _ _ _ Hp _ _ _ Hr E) as (_ & HP & _ & Hw1).
    by apply (codec_total _ _ _ _ (Hk x HP)).
Qed.

Lemma codec_fail_if (b : bool) err (p : parser A) enc C Q :
  (b = false → codec p enc C Q) →
  codec (if b then pfail err else p) enc C (λ y, b = false ∧ Q y).
Proof.
  intros Hp. destruct b.
  - split; [by intros r x tl _ _ [? _]|by intros r x r' _|done].
  - destruct (Hp eq_refl) as [H1 H2 H3]. split; [naive_solver| |done].
    intros r x r' Hr H. destruct (H2 _ _ _ Hr H) as (? & ? & ? & ?). done.
Qed.

Lemma codec_map_err f (p : parser A) enc C Q : codec p enc C Q → codec (pmap_err f p) enc C Q.
Proof.
  intros [H1 H2 H3]. unfold pmap_err. split.
  - intros r x tl Hr HC HQ Hrest. destruct (H1 r x tl Hr HC HQ Hrest) as (r' & -> & ?). eauto.
  - intros r x r' Hr H%map_err_ok. eauto.
  - intros r Hr. specialize (H3 r Hr). by destruct (p r).
Qed.
End codecs.

(** ** The primitive reads *)

Lemma take_codec n : 0 <= n < 2 ^ 63 → simple_codec (Read.take n) id (λ b, is_array (Z.to_nat n) b).
Proof.
  intros Hn. unfold Read.take, is_array. split.
  - intros [b p] x tl (Hb & Hp & Hl) _ [Hx _] Hrest. unfold rest, Zlength, id in *. cbn [buf pos] in *.
    assert (length (drop (Z.to_nat p) b) = (length x + length tl)%nat) as Hlen
      by (rewrite Hrest; apply length_app).
    rewrite length_drop in Hlen. unfold checked_add.
    destruct (Z.ltb_spec (p + n) (2 ^ 64)); [|lia]. cbn [ok_or mbind res_bind].
    destruct (Z.gtb_spec (p + n) (Z.of_nat (length b))); [lia|]. eexists. split.
    { rewrite Hrest, take_app_length'; [done|lia]. }
    cbn [buf pos]. split; [|split; [done|]; cbn [buf pos]; unfold Zlength; lia].
    rewrite Z2Nat.inj_add, <- drop_drop, Hrest by lia. by rewrite drop_app_length'.
  - intros [b p] x r' (Hb & Hp & Hl) H. unfold rest, Zlength in *. cbn [buf pos] in *. inv_all.
    destruct (Z.gtb_spec (p + n) (Z.of_nat (length b))); [done|]. inv_ok. cbn [buf pos].
    split; [done|]. split; [split|].
    + rewrite length_take, length_drop. lia.
    + by apply Forall_take, Forall_drop.
    + rewrite Z2Nat.inj_add, <- drop_drop by lia. unfold id; rewrite take_drop. split; [done|].
      split; [done|]. cbn [buf pos]. unfold Zlength. lia.
  - intros [b p] _. unfold checked_add. cbn [buf pos]. destruct (_ <? _); cbn; [|done]. by destruct (_ >? _).
Qed.

Lemma u8_codec : simple_codec Read.u8 (λ x, [x]) is_u8.
Proof.
  pose proof (take_codec 1 ltac:(lia)) as H. unfold Read.u8. split; unfold pbind.
  - intros r x tl Hr _ Hx Hrest.
    destruct (codec_complete _ _ _ _ H r [x] tl) as (r1 & -> & ?); [done|done|by split; [|constructor; [|constructor]]|done|].
    cbn. eauto.
  - intros r x r' Hr ([s r1] & H1 & H2)%res_bind_ok.
    destruct (codec_sound _ _ _ _ H _ _ _ Hr H1) as (_ & [Hl Hb] & Hrest & Hw).
    destruct s as [|z [|]]; [done| |done]. cbn in H2. injection H2 as -> ->.
    apply Forall_cons_1 in Hb as [? _]. done.
  - intros r Hr. destruct (Read.take 1 r) as [[s r1]|e|] eqn:E; [|done|by destruct (codec_total _ _ _ _ H r Hr)].
    destruct (codec_sound _ _ _ _ H _ _ _ Hr E) as (_ & [Hl _] & _). by destruct s as [|z [|]].
Qed.

(** Reading a fixed-size array and converting it. *)
Lemma conv_codec n (g : bytes → Z) (h : Z → bytes) (P : Z → Prop) :
  0 <= n < 2 ^ 63 →
  (∀ b, is_array (Z.to_nat n) b → P (g b) ∧ h (g b) = b) →
  (∀ x, P x → is_array (Z.to_nat n) (h x) ∧ g (h x) = x) →
  simple_codec (let* a := Read.array n in pret (g a)) h P.
Proof.
  intros Hn Hg Hh. pose proof (take_codec n Hn) as H. unfold Read.array. split; unfold pbind, pret.
  - intros r x tl Hr _ Hx Hrest. destruct (Hh x Hx) as [Ha Hx'].
    destruct (codec_complete _ _ _ _ H r (h x) tl) as (r1 & -> & ?); try done. cbn. rewrite Hx'. eauto.
  - intros r x r' Hr ([s r1] & H1 & [= <- <-])%res_bind_ok.
    destruct (codec_sound _ _ _ _ H _ _ _ Hr H1) as (_ & Ha & Hrest & Hw).
    destruct (Hg s Ha) as [? ->]. done.
  - intros r Hr. pose proof (codec_total _ _ _ _ H r Hr). unfold Read.array. by destruct (Read.take n r) as [[]| |].
Qed.

Lemma u32_codec : simple_codec Read.u32 (to_be_bytes 4) is_u32.
Proof.
  apply (conv_codec 4); [lia|..].
  - intros b [Hl Hb]. split; [by pose proof (from_be_bytes_bound b Hb) as Hx; rewrite Hl in Hx|].
    pose proof (to_from_be_bytes b Hb) as Hx. by rewrite Hl in Hx.
  - intros x Hx. split; [|by apply from_to_be_bytes]. split; [by apply length_to_be_bytes|by apply wf_to_be_bytes].
Qed.

Lemma u64_codec : simple_codec Read.u64 (to_be_bytes 8) is_u64.
Proof.
  apply (conv_codec 8); [lia|..].
  - intros b [Hl Hb]. split; [by pose proof (from_be_bytes_bound b Hb) as Hx; rewrite Hl in Hx|].
    pose proof (to_from_be_bytes b Hb) as Hx. by rewrite Hl in Hx.
  - intros x Hx. split; [|by apply from_to_be_bytes]. split; [by apply length_to_be_bytes|by apply wf_to_be_bytes].
Qed.

Lemma i64_codec : simple_codec Read.i64 (to_be_bytes 8) is_i64.
Proof.
  apply (conv_codec 8 (λ a, to_signed 64 (from_be_bytes a))); [lia|..].
  - intros b [Hl Hb]. split.
    + pose proof (from_be_bytes_bound b Hb) as Hx. rewrite Hl in Hx.
      unfold to_signed, is_uint, is_int in *. change (8 * Z.of_nat (Z.to_nat 8)) with 64 in Hx.
      destruct (Z.ltb_spec (from_be_bytes b) (2 ^ (64 - 1))); change (2 ^ (64 - 1)) with (2 ^ 63) in *; lia.
    + change 64 with (8 * 8). rewrite to_be_bytes_signed by lia.
      pose proof (to_from_be_bytes b Hb) as Hx. by rewrite Hl in Hx.
  - intros x Hx. split; [split; [by apply length_to_be_bytes|by apply wf_to_be_bytes]|].
    by apply (to_signed_from_be_bytes 8).
Qed.

Definition enc_var (b : bytes) : bytes := to_be_bytes 4 (Zlength b) ++ b.
Definition wf_var (b : bytes) : Prop := wf_bytes b ∧ Zlength b < 2 ^ 32.

Lemma var_codec : simple_codec Read.var enc_var wf_var.
Proof.
  unfold Read.var.
  eapply (codec_ext _ (λ b, to_be_bytes 4 (Zlength b) ++ b) _ _ (λ b, is_u32 (Zlength b) ∧ is_array (Z.to_nat (Zlength b)) b)).
  - apply (codec_bind Read.u32 Read.take Zlength (to_be_bytes 4) is_u32 (λ _, id) (λ _, True)
             (λ n b, is_array (Z.to_nat n) b)); [apply u32_codec|].
    intros n Hn. destruct (take_codec n) as [H1 H2 H3]; [unfold is_uint in Hn; lia|]. split; [naive_solver| |done].
    intros r x r' Hr H. destruct (H2 r x r' Hr H) as (_ & Ha & ? & ?). split_and!; try done.
    destruct Ha as [Hl _]. unfold Zlength. rewrite Hl. unfold is_uint in Hn. lia.
  - intros x _. unfold is_uint, wf_var, is_array, Zlength. rewrite Nat2Z.id. intuition lia.
  - done.
Qed.

(** ** The codec of a bundle *)

Definition wf_action (a : ActionWire) : Prop :=
  is_array 32 (nullifier a) ∧ is_array 32 (rk a) ∧ is_array 32 (cmx a) ∧ is_array 32 (cv_net a) ∧
  is_array 32 (ephemeral_key a) ∧ is_array 580 (enc_ciphertext a) ∧
  is_array 80 (out_ciphertext a) ∧ is_array 64 (spend_auth_sig a).

Definition enc_action (a : ActionWire) : bytes :=
  nullifier a ++ rk a ++ cmx a ++ cv_net a ++ ephemeral_key a ++ enc_ciphertext a ++
  out_ciphertext a ++ spend_auth_sig a ++ [].

Definition wf_burn (flags : Z) (o : option (Z * bytes)) : Prop :=
  if Z.land flags BUNDLE_FLAG_BURN =? 0 then o = None
  else ∃ v r, o = Some (v, r) ∧ is_u64 v ∧ v ≠ 0 ∧ is_array 32 r.

Definition wf_anchor_block (field : bool) (flags : Z) (o : option bytes) : Prop :=
  if field && negb (Z.land flags BUNDLE_FLAG_ANCHOR_BLOCK =? 0) then ∃ b, o = Some b ∧ is_array 32 b
  else o = None.

(** A bundle in the range of its Rust type whose optional fields agree with its
    flags: the values the format can carry. *)
Definition canonical (field : bool) (b : ShieldedBundle) : Prop :=
  is_u8 (flags b) ∧ is_i64 (value_balance b) ∧ is_array 32 (anchor b) ∧ is_array 64 (binding_sig b) ∧
  Zlength (actions b) <= MAX_ACTIONS_PER_BUNDLE ∧ Forall wf_action (actions b) ∧ wf_var (proof b) ∧
  wf_burn (flags b) (burn b) ∧ wf_anchor_block field (flags b) (anchor_block b).

Definition enc_burn (o : option (Z * bytes)) : bytes :=
  match o with Some (v, r) => to_be_bytes 8 v ++ r | None => [] end.

Definition enc_bundle (b : ShieldedBundle) : bytes :=
  [flags b] ++ to_be_bytes 8 (value_balance b) ++ anchor b ++ enc_var (binding_sig b) ++
  to_be_bytes 4 (Zlength (actions b)) ++ mjoin (enc_action <$> actions b) ++ enc_var (proof b) ++
  enc_burn (burn b) ++ default [] (anchor_block b).

Lemma array_codec n : 0 <= n < 2 ^ 63 → simple_codec (Read.array n) id (λ b, is_array (Z.to_nat n) b).
Proof. apply take_codec. Qed.

Lemma codec_absorb {A} (p : parser A) enc C Q : codec p enc C Q → simple_codec p enc (λ x, C x ∧ Q x).
Proof.
  intros [H1 H2 H3]. split; [naive_solver| |done].
  intros r x r' Hr H. destruct (H2 r x r' Hr H) as (? & ? & ? & ?). done.
Qed.

Ltac field_codec := (apply array_codec; done) || apply u8_codec || apply u32_codec || apply u64_codec
  || apply i64_codec || apply var_codec || (apply codec_map_err; field_codec).
Ltac bind_codec f := eapply (codec_bind _ _ f); [field_codec|intros ? ?].

Lemma read_action_codec : simple_codec read_action enc_action wf_action.
Proof.
  eapply codec_ext.
  - unfold read_action. bind_codec nullifier. bind_codec rk. bind_codec cmx. bind_codec cv_net.
    bind_codec ephemeral_key. bind_codec enc_ciphertext. bind_codec out_ciphertext.
    bind_codec spend_auth_sig. apply codec_ret; [done|].
    intros []. cbn. naive_solver.
  - intros x _. unfold wf_action. cbv beta. change (Z.to_nat sizes.FIELD) with 32%nat.
    change (Z.to_nat sizes.ENC_CIPHERTEXT) with 580%nat.
    change (Z.to_nat sizes.OUT_CIPHERTEXT) with 80%nat. change (Z.to_nat sizes.SIG) with 64%nat. tauto.
  - done.
Qed.

Lemma read_actions_codec n :
  simple_codec (read_actions n) (λ l, mjoin (enc_action <$> l)) (λ l, length l = n ∧ Forall wf_action l).
Proof.
  induction n as [|n IH]; cbn [read_actions].
  - eapply codec_ext; [apply codec_absorb, (codec_ret [] (λ l, l = [])); [done|naive_solver]| |].
    + intros [|? ?] _; simpl; split; [naive_solver|naive_solver|naive_solver|intros [? _]; done].
    + by intros x _ [-> _].
  - set (d := mkActionWire [] [] [] [] [] [] [] []).
    eapply codec_ext; [apply codec_absorb|..].
    + eapply (codec_bind _ _ (λ l, default d (head l)) _ _ _ (λ l, l ≠ [])); [apply read_action_codec|intros a Ha].
      eapply (codec_bind _ _ tail); [apply IH|intros l [Hl Hwf]].
      apply codec_ret; [done|]. intros [|a' l']; naive_solver.
    + intros [|a l] _; [naive_solver|]. cbn. rewrite Forall_cons. naive_solver.
    + intros [|a l] _; [naive_solver|]. intros _. cbn. by rewrite app_nil_r.
Qed.

Lemma read_burn_codec fl : simple_codec (read_burn fl) enc_burn (wf_burn fl).
Proof.
  unfold read_burn, wf_burn. destruct (Z.land fl BUNDLE_FLAG_BURN =? 0); cbn [negb].
  - eapply codec_ext; [apply codec_absorb, (codec_ret None (λ o, o = None)); [done|naive_solver]| |].
    + naive_solver.
    + by intros x _ [-> _].
  - eapply codec_ext; [apply codec_absorb|..].
    + eapply (codec_bind _ _ (λ o, (default (0, []) o).1) _ _ _ (λ o, is_Some o)); [field_codec|intros v Hv].
      eapply (codec_bind _ _ (λ o, (default (0, []) o).2)); [field_codec|intros r Hr].
      apply codec_fail_if. intros Hz. apply codec_ret; [split; [split; [by eexists|done]|done]|].
      intros [[v' r']|]; cbn; [naive_solver|]. intros [[[] _] _]; done.
    + intros [[v r]|] _; cbn; [|split; [intros [[? ?] _]; done|naive_solver]].
      change (Z.to_nat sizes.FIELD) with 32%nat. rewrite Z.eqb_neq. split; [naive_solver|].
      intros (v' & r' & [= <- <-] & ? & ? & ?). split; [by eexists|]. done.
    + intros [[v r]|] _; cbn; [by rewrite app_nil_r|]. intros [[? ?] _]; done.
Qed.

Lemma read_anchor_block_codec field fl :
  simple_codec (read_anchor_block field fl) (default []) (wf_anchor_block field fl).
Proof.
  unfold read_anchor_block, wf_anchor_block. destruct (field && _).
  - eapply codec_ext; [apply codec_absorb|..].
    + eapply (codec_bind _ _ (default []) _ _ _ (λ o, is_Some o)); [field_codec|intros b Hb].
      apply codec_ret; [split; [by eexists|done]|]. intros [b'|]; cbn; [naive_solver|]. intros [[] _]; done.
    + intros [b|] _; cbn; [|split; [intros [[? ?] _]; done|naive_solver]].
      change (Z.to_nat 32) with 32%nat. split; [naive_solver|].
      intros (b' & [= <-] & ?). split; [by eexists|]. done.
    + intros [b|] _; cbn; [by rewrite app_nil_r|]. intros [[? ?] _]; done.
  - eapply codec_ext; [apply codec_absorb, (codec_ret None (λ o, o = None)); [done|naive_solver]| |].
    + naive_solver.
    + by intros x _ [-> _].
Qed.

Lemma read_bundle_codec field : simple_codec (read_bundle field) enc_bundle (canonical field).
Proof.
  eapply codec_ext.
  - unfold read_bundle. bind_codec flags. bind_codec value_balance. bind_codec anchor.
    bind_codec binding_sig. apply codec_fail_if. intros Hs.
    eapply (codec_bind _ _ (λ b, Zlength (actions b))); [field_codec|intros n Hn].
    apply codec_fail_if. intros Hmax.
    eapply (codec_bind _ _ actions); [apply read_actions_codec|intros l [Hl Hwf]].
    bind_codec proof.
    eapply (codec_bind _ _ burn); [apply read_burn_codec|intros bu Hbu].
    eapply (codec_bind _ _ anchor_block); [apply read_anchor_block_codec|intros ab Hab].
    apply codec_ret.
    + cbn. unfold Zlength. rewrite Hl, Z2Nat.id by apply Hn. done.
    + intros []. cbn. naive_solver.
  - intros b _. unfold canonical. cbv beta. change (Z.to_nat sizes.FIELD) with 32%nat.
    unfold MAX_ACTIONS_PER_BUNDLE, is_array, wf_var, sizes.SIG, Zlength, is_uint.
    rewrite negb_false_iff, Z.eqb_eq, Nat2Z.id, (Z.gtb_ltb _ 512), Z.ltb_ge. intuition lia.
  - intros b _ _. cbv beta. unfold enc_bundle, id. by rewrite app_nil_r.
Qed.

(** ** The writer produces the encoding *)

Lemma foldl_write_action l : ∀ w, foldl write_action w l = w ++ mjoin (enc_action <$> l).
Proof.
  induction l as [|a l IH]; intros w; cbn; [by rewrite app_nil_r|].
  rewrite IH. unfold write_action, enc_action, Writer.bytes_. cbn [foldl]. by rewrite <- !app_assoc.
Qed.

Lemma wrap_small w x : is_uint w x → wrap w x = x.
Proof. apply Z.mod_small. Qed.

Lemma var_enc_var w b : Zlength b < 2 ^ 32 → Writer.var w b = w ++ enc_var b.
Proof.
  intros Hb. unfold Writer.var, Writer.bytes_, Writer.u32, enc_var. rewrite wrap_small, app_assoc; [done|].
  unfold is_uint, Zlength in *. lia.
Qed.

Lemma to_bytes_enc field b : canonical field b → to_bytes b = enc_bundle b.
Proof.
  intros (_ & _ & _ & [Hs _] & Hn & _ & [_ Hp] & _). unfold to_bytes, enc_bundle.
  unfold MAX_ACTIONS_PER_BUNDLE in Hn.
  rewrite foldl_write_action, !var_enc_var by (unfold Zlength in *; lia).
  unfold Writer.u32, Writer.u8, Writer.i64, Writer.u64, Writer.bytes_, Writer.new.
  rewrite wrap_small by (unfold is_uint, Zlength in *; lia).
  destruct (burn b) as [[v r]|], (anchor_block b) as [ab|]; cbn [enc_burn default];
    rewrite <- ?app_assoc, ?app_nil_r; reflexivity.
Qed.

Lemma length_enc_action a : wf_action a → Zlength (enc_action a) = SERIALIZED_LEN.
Proof.
  intros ([H1 _] & [H2 _] & [H3 _] & [H4 _] & [H5 _] & [H6 _] & [H7 _] & [H8 _]).
  unfold Zlength, enc_action. rewrite !length_app, H1, H2, H3, H4, H5, H6, H7, H8. done.
Qed.

Lemma length_enc_actions l :
  Forall wf_action l → Zlength (mjoin (enc_action <$> l)) = Zlength l * SERIALIZED_LEN.
Proof.
  induction 1 as [|a l Ha _ IH]; [done|]. rewrite fmap_cons, mjoin_cons.
  pose proof (length_enc_action a Ha) as Hl. unfold Zlength in *.
  change SERIALIZED_LEN with 884 in *. rewrite length_app. cbn [length]. lia.
Qed.

Lemma length_enc_bundle field b :
  canonical field b →
  Zlength (enc_bundle b) =
    117 + Zlength (actions b) * SERIALIZED_LEN + Zlength (proof b) +
    (if burn b then BURN_DECL_LEN else 0) + (if anchor_block b then 32 else 0).
Proof.
  intros (_ & _ & [Ha _] & [Hs _] & _ & Hact & _ & Hb & Hab). pose proof (length_enc_actions _ Hact) as Hl.
  unfold enc_bundle, enc_var, BURN_DECL_LEN, Zlength in *. change SERIALIZED_LEN with 884 in *.
  rewrite !length_app, !length_to_be_bytes, Ha, Hs by lia. cbn [length].
  assert (length (enc_burn (burn b)) = if burn b then 40%nat else 0%nat) as ->.
  { unfold wf_burn in Hb. destruct (_ =? 0); [by rewrite Hb|]. destruct Hb as (v & r & -> & _ & _ & [Hr _]).
    cbn [enc_burn]. by rewrite length_app, length_to_be_bytes, Hr. }
  assert (length (default [] (anchor_block b)) = if anchor_block b then 32%nat else 0%nat) as ->.
  { unfold wf_anchor_block in Hab. destruct (_ && _); [|by rewrite Hab]. by destruct Hab as (ab & -> & [Hr _]). }
  destruct (burn b), (anchor_block b); lia.
Qed.

Lemma wf_enc_bundle_length field b : canonical field b → Zlength (enc_bundle b) < 2 ^ 63.
Proof.
  intros H. rewrite (length_enc_bundle field b H). destruct H as (_ & _ & _ & _ & Hn & _ & [_ Hp] & _).
  unfold MAX_ACTIONS_PER_BUNDLE, BURN_DECL_LEN in *. change SERIALIZED_LEN with 884.
  destruct (burn b), (anchor_block b); lia.
Qed.

Lemma wf_reader_new bs : wf_bytes bs → Zlength bs < 2 ^ 63 → wf_reader (Read.new bs).
Proof. intros. split; [done|]. cbn. unfold Zlength in *. lia. Qed.

Lemma rest_finished r : wf_reader r → Read.finished r = true ↔ rest r = [].
Proof.
  intros (_ & Hp & _). unfold Read.finished, rest, Zlength in *. rewrite Z.eqb_eq. split.
  - intros ->. rewrite Nat2Z.id. by apply drop_ge.
  - intros H%(f_equal length). rewrite length_drop in H. cbn in H. lia.
Qed.

Lemma wf_enc_bundle field b : canonical field b → wf_bytes (enc_bundle b).
Proof.
  intros (Hf & _ & [_ Ha] & [_ Hs] & _ & Hact & [Hp _] & Hb & Hab). unfold wf_bytes, enc_bundle, enc_var in *.
  rewrite !Forall_app. split_and!; try done; [by apply Forall_singleton|apply wf_to_be_bytes; lia..| |
    apply wf_to_be_bytes; lia| |].
  - clear -Hact. induction Hact as [|a l Ha _ IH]; [constructor|]. cbn. apply Forall_app. split; [|done].
    destruct Ha as ([_ ?] & [_ ?] & [_ ?] & [_ ?] & [_ ?] & [_ ?] & [_ ?] & [_ ?]).
    unfold enc_action, wf_bytes in *. rewrite !Forall_app. split_and!; done.
  - unfold wf_burn in Hb. destruct (_ =? 0); [by rewrite Hb|]. destruct Hb as (v & r & -> & _ & _ & [_ Hr]).
    apply Forall_app. split; [apply wf_to_be_bytes; lia|done].
  - unfold wf_anchor_block in Hab. destruct (_ && _); [|by rewrite Hab]. by destruct Hab as (ab & -> & [_ Hr]).
Qed.

Lemma decode_ok_iff field bs b :
  wf_bytes bs → Zlength bs < 2 ^ 63 →
  decode bs field = Ok b ↔ canonical field b ∧ enc_bundle b = bs.
Proof.
  intros Hbs Hlen. pose proof (wf_reader_new bs Hbs Hlen) as Hr. unfold decode. split.
  - intros ([b' r] & H1 & H2)%res_bind_ok. destruct (Read.finished r) eqn:Hf; [|done]. injection H2 as ->.
    destruct (codec_sound _ _ _ _ (read_bundle_codec field) _ _ _ Hr H1) as (_ & Hc & Hrest & Hw).
    apply rest_finished in Hf; [|done]. rewrite Hf, app_nil_r in Hrest. done.
  - intros [Hc He]. destruct (codec_complete _ _ _ _ (read_bundle_codec field) (Read.new bs) b []) as (r & -> & Hrr & Hw);
      [done|done|done|by rewrite app_nil_r|].
    cbn [mbind res_bind]. apply rest_finished in Hrr; [|done]. by rewrite Hrr.
Qed.

Lemma decode_no_panic field bs : wf_bytes bs → Zlength bs < 2 ^ 63 → decode bs field ≠ Panic.
Proof.
  intros Hbs Hlen. pose proof (codec_total _ _ _ _ (read_bundle_codec field) _ (wf_reader_new bs Hbs Hlen)).
  unfold decode. destruct (read_bundle field _) as [[b r]| |]; cbn; [|done|done]. by destruct (Read.finished r).
Qed.

(** Parsers that never panic and keep the reader well formed. *)
Definition safe {A} (p : parser A) : Prop :=
  ∀ r, wf_reader r → match p r with Ok (_, r') => wf_reader r' | Err _ => True | Panic => False end.

Lemma codec_safe {A} (p : parser A) enc C Q : codec p enc C Q → safe p.
Proof.
  intros H r Hr. destruct (p r) as [[x r']| |] eqn:E; [|done|by apply (codec_total _ _ _ _ H r Hr)].
  by destruct (codec_sound _ _ _ _ H _ _ _ Hr E) as (_ & _ & _ & ?).
Qed.

Lemma safe_bind {A B} (p : parser A) (k : A → parser B) : safe p → (∀ x, safe (k x)) → safe (pbind p k).
Proof.
  intros Hp Hk r Hr. unfold pbind. specialize (Hp r Hr). destruct (p r) as [[x r']| |]; cbn; [|done|done].
  by apply Hk.
Qed.

Lemma pbind_ok {A B} (p : parser A) (k : A → parser B) r y r' :
  pbind p k r = Ok (y, r') ↔ ∃ x r1, p r = Ok (x, r1) ∧ k x r1 = Ok (y, r').
Proof. unfold pbind. rewrite res_bind_ok. split; [intros ([x r1] & ? & ?); eauto|intros (x & r1 & ? & ?); by exists (x, r1)]. Qed.

Ltac inv_parser := repeat
  match goal with
  | H : pbind _ _ _ = Ok _ |- _ => apply pbind_ok in H as (? & ? & ? & H)
  | H : (if ?b then pfail _ else _) _ = Ok _ |- _ => destruct b eqn:?; [done|]
  | H : pret _ _ = Ok _ |- _ => injection H as H H
  end.

Lemma read_action_count_safe : safe read_action_count.
Proof.
  repeat (apply safe_bind; [eapply codec_safe; field_codec|intros ?]).
  intros r' Hr'. by destruct (_ >? _).
Qed.

Lemma read_action_count_bundle field r b r' :
  wf_reader r → read_bundle field r = Ok (b, r') →
  ∃ r1, read_action_count r = Ok (Zlength (actions b), r1).
Proof.
  intros Hr Hd. destruct (codec_sound _ _ _ _ (read_bundle_codec field) _ _ _ Hr Hd) as (_ & Hc & Hrest & _).
  destruct Hc as (Hf & Hv & Ha & [Hs1 Hs2] & Hn & _). unfold enc_bundle in Hrest. rewrite <- !app_assoc in Hrest.
  unfold read_action_count, pbind, MAX_ACTIONS_PER_BUNDLE in *.
  assert (wf_var (binding_sig b)) as Hs by (split; [done|unfold Zlength; lia]).
  assert (is_u32 (Zlength (actions b))) as Hu by (unfold is_uint, Zlength in *; lia).
  destruct (codec_complete _ _ _ _ u8_codec _ _ _ Hr I Hf Hrest) as (r1 & -> & Hr1 & Hw1). cbn [mbind res_bind].
  destruct (codec_complete _ _ _ _ i64_codec _ _ _ Hw1 I Hv Hr1) as (r2 & -> & Hr2 & Hw2). cbn [mbind res_bind].
  destruct (codec_complete _ _ _ _ (array_codec sizes.FIELD ltac:(done)) _ _ _ Hw2 I Ha Hr2) as (r3 & -> & Hr3 & Hw3).
  cbn [mbind res_bind].
  destruct (codec_complete _ _ _ _ var_codec _ _ _ Hw3 I Hs Hr3) as (r4 & -> & Hr4 & Hw4).
  cbn [mbind res_bind].
  destruct (codec_complete _ _ _ _ u32_codec _ _ _ Hw4 I Hu Hr4) as (r5 & -> & Hr5 & Hw5).
  cbn [mbind res_bind]. exists r5. destruct (Z.gtb_spec (Zlength (actions b)) 512); [lia|done].
Qed.

(** Setting one of the two optional-field flags of a byte. *)
Lemma flag_bits x :
  is_u8 x →
  let fb := Z.lor x BUNDLE_FLAG_BURN in
  let fa := Z.lor x BUNDLE_FLAG_ANCHOR_BLOCK in
  is_u8 fb ∧ Z.land fb BUNDLE_FLAG_ANCHOR_BLOCK = Z.land x BUNDLE_FLAG_ANCHOR_BLOCK ∧
  Z.land fb BUNDLE_FLAG_BURN ≠ 0 ∧
  is_u8 fa ∧ Z.land fa BUNDLE_FLAG_BURN = Z.land x BUNDLE_FLAG_BURN ∧
  Z.land fa BUNDLE_FLAG_ANCHOR_BLOCK ≠ 0.
Proof.
  intros [H0 H1]. cbv zeta. pattern x.
  match goal with |- ?P x => assert (Forall P (seqZ 0 256)) as H by decide_by_eval end.
  rewrite Forall_forall in H. apply H. apply elem_of_seqZ. lia.
Qed.

(** C30. Decoding is the exact inverse of encoding, in both wire formats. On any
    byte string, [decode] does not panic, and it returns a bundle exactly when
    the bundle is canonical (field sizes, at most 512 actions, optional fields
    present exactly as the flags say, no zero burn) and the string is its
    encoding. So every canonical bundle round-trips, and no two byte strings
    decode to the same bundle. *)
Theorem bundle_decode_iff_encode (bs : bytes) (security_fork_active : bool) :
  wf_bytes bs → Zlength bs < 2 ^ 63 →
  from_bytes_at bs security_fork_active ≠ Panic ∧
  ∀ b, from_bytes_at bs security_fork_active = Ok b ↔
    canonical security_fork_active b ∧ to_bytes b = bs.
Proof.
  intros Hbs Hlen. split; [by apply decode_no_panic|]. intros b. unfold from_bytes_at.
  rewrite decode_ok_iff by done. split; intros [Hc He]; (split; [done|]).
  - by rewrite (to_bytes_enc _ b Hc).
  - by rewrite <- (to_bytes_enc _ b Hc).
Qed.

(** The size formulas are exact: a canonical bundle encodes to the header,
    884 bytes per action, the proof and the optional fields; with a proof of the
    standard size that is [expected_wire_len] without a burn and
    [expected_wire_len_with_burn] with one, plus 32 bytes for an anchor block. *)
Theorem bundle_wire_len (field : bool) (b : ShieldedBundle) :
  canonical field b → Zlength (proof b) = expected_proof_len (Zlength (actions b)) →
  Zlength (to_bytes b) =
    (if burn b then expected_wire_len_with_burn (Zlength (actions b))
     else expected_wire_len (Zlength (actions b))) + (if anchor_block b then 32 else 0).
Proof.
  intros Hc Hp. rewrite (to_bytes_enc field), (length_enc_bundle field) by done.
  unfold expected_wire_len_with_burn, expected_wire_len. rewrite Hp.
  destruct (burn b), (anchor_block b); lia.
Qed.

(** The cheap action count agrees with the full decoder: it never panics, and
    on every byte string that decodes, in either format, it is the number of
    actions of the bundle. *)
Theorem bundle_action_count_agrees (bs : bytes) :
  wf_bytes bs → Zlength bs < 2 ^ 63 →
  action_count_from_bytes bs ≠ Panic ∧
  ∀ field b, decode bs field = Ok b →
    action_count_from_bytes bs = Ok (Some (Zlength (actions b))).
Proof.
  intros Hbs Hlen. pose proof (wf_reader_new bs Hbs Hlen) as Hr. unfold action_count_from_bytes. split.
  - pose proof (read_action_count_safe _ Hr) as Hs. by destruct (read_action_count _) as [[]| |].
  - intros field b Hd. unfold decode in Hd. apply res_bind_ok in Hd as ([b' r] & Hd & Hf).
    destruct (Read.finished r); [|done]. injection Hf as ->.
    by destruct (read_action_count_bundle _ _ _ _ Hr Hd) as (r1 & ->).
Qed.

Lemma formats_agree (bs : bytes) (b b' : ShieldedBundle) :
  wf_bytes bs → Zlength bs < 2 ^ 63 →
  from_bytes_at bs false = Ok b → from_bytes_at bs true = Ok b' →
  b = b' ∧ Z.land (flags b) BUNDLE_FLAG_ANCHOR_BLOCK = 0.
Proof.
  intros Hbs Hlen Hb Hb'. pose proof (wf_reader_new bs Hbs Hlen) as Hr.
  assert (∀ f x, decode bs f = Ok x → ∃ r, read_bundle f (Read.new bs) = Ok (x, r) ∧ rest r = [] ∧ wf_reader r) as Hd.
  { intros f x ([x' r] & H & Hf)%res_bind_ok. destruct (Read.finished r) eqn:E; [|done]. injection Hf as ->.
    destruct (codec_sound _ _ _ _ (read_bundle_codec f) _ _ _ Hr H) as (_ & _ & _ & Hw).
    exists r. split; [done|]. by split; [apply rest_finished|]. }
  destruct (Hd _ _ Hb) as (r1 & H1 & Hr1 & _). destruct (Hd _ _ Hb') as (r2 & H2 & Hr2 & _).
  destruct (codec_sound _ _ _ _ (read_bundle_codec true) _ _ _ Hr H2) as (_ & Hc & Hrest & _).
  destruct Hc as (K1 & K2 & K3 & K4 & K5 & K6 & K7 & K8 & Hab). unfold wf_anchor_block in Hab.
  set (b0 := mkShieldedBundle (actions b') (flags b') (value_balance b') (anchor b') (proof b') (binding_sig b') (burn b') None).
  assert (canonical false b0) as Hc0 by (by unfold canonical, wf_anchor_block).
  assert (enc_bundle b' = enc_bundle b0 ++ default [] (anchor_block b')) as He.
  { unfold enc_bundle. cbn [anchor_block b0 default]. by rewrite <- !app_assoc, app_nil_l. }
  rewrite He, Hr2, app_nil_r in Hrest.
  destruct (codec_complete _ _ _ _ (read_bundle_codec false) _ _ _ Hr I Hc0 Hrest) as (r3 & H3 & Hr3 & _).
  rewrite H1 in H3. injection H3 as -> ->. rewrite Hr1 in Hr3.
  cbn [andb] in Hab. destruct (Z.land (flags b') BUNDLE_FLAG_ANCHOR_BLOCK =? 0) eqn:E; cbn [negb] in Hab.
  - apply Z.eqb_eq in E. split; [|done]. unfold b0. destruct b'; cbn in *. by rewrite Hab.
  - destruct Hab as (ab & Hab & [Hl _]). rewrite Hab in Hr3. cbn in Hr3. by rewrite <- Hr3 in Hl.
Qed.

(** The two wire formats never disagree on a byte string both accept: they
    decode it to the same bundle, and that bundle has the anchor-block flag
    clear. So a string with the flag set is valid in at most one format. *)
Theorem bundle_formats_agree (bs : bytes) (b b' : ShieldedBundle) :
  wf_bytes bs → Zlength bs < 2 ^ 63 →
  from_bytes_at bs false = Ok b → from_bytes_at bs true = Ok b' →
  b = b' ∧ Z.land (flags b) BUNDLE_FLAG_ANCHOR_BLOCK = 0.
Proof. apply formats_agree. Qed.

(** Attaching a field keeps the bundle canonical and sets only its own flag:
    [set_anchor_block] always, and [declare_burn] exactly for a positive value no
    larger than what the binding signature proved leaves the pool. *)
Theorem bundle_attach_canonical (b : ShieldedBundle) (block recipient : bytes) (v : Z) :
  canonical true b → is_array 32 block → is_array 32 recipient → is_u64 v →
  canonical true (set_anchor_block b block) ∧
  (match declare_burn b v recipient with
   | Ok b' => canonical true b' ∧ burn b' = Some (v, recipient) ∧ anchor_block b' = anchor_block b ∧
              0 < v <= value_balance b
   | Err _ => v = 0 ∨ value_balance b < v
   | Panic => False
   end).
Proof.
  intros Hc Hbl Hre Hv. destruct Hc as (K1 & K2 & K3 & K4 & K5 & K6 & K7 & K8 & K9).
  destruct (flag_bits (flags b) K1) as (B1 & B2 & B3 & A1 & A2 & A3). split.
  - unfold canonical, set_anchor_block, wf_burn, wf_anchor_block. cbn [flags value_balance anchor binding_sig
      actions proof burn anchor_block andb]. rewrite A2. destruct (Z.eqb_spec (Z.land (Z.lor (flags b) BUNDLE_FLAG_ANCHOR_BLOCK)
      BUNDLE_FLAG_ANCHOR_BLOCK) 0); cbn [negb]; [done|]. unfold wf_burn in K8. split_and!; try done. by exists block.
  - unfold declare_burn. destruct (Z.eqb_spec v 0) as [|Hv0]; [by left|].
    destruct (Z.ltb_spec (value_balance b) 0); cbn [orb]; [right; unfold is_uint in Hv; lia|].
    destruct (Z.gtb_spec v (value_balance b)); [right; lia|]. split_and!; cbn; try done; [|unfold is_uint in Hv; lia].
    unfold canonical, wf_burn, wf_anchor_block. cbn [flags value_balance anchor binding_sig actions proof
      burn anchor_block andb]. rewrite B2.
    destruct (Z.eqb_spec (Z.land (Z.lor (flags b) BUNDLE_FLAG_BURN) BUNDLE_FLAG_BURN) 0); [done|].
    split_and!; try done. by exists v, recipient.
Qed.

(** ** Witnesses *)

Definition example_action : ActionWire :=
  mkActionWire (zeros 32) (zeros 32) (zeros 32) (zeros 32) (zeros 32) (zeros 580) (zeros 80) (zeros 64).
Definition example_bundle : ShieldedBundle :=
  mkShieldedBundle [example_action] 7 100 (zeros 32) (zeros 4992) (zeros 64) (Some (60, zeros 32)) None.

#[export] Instance wf_action_dec a : Decision (wf_action a).
Proof. unfold wf_action. apply _. Defined.

Lemma example_bundle_canonical field : canonical field example_bundle.
Proof.
  unfold canonical. split_and!; [decide_by_eval|decide_by_eval|decide_by_eval|decide_by_eval|
    vm_compute; congruence|decide_by_eval|split; [decide_by_eval|vm_compute; congruence]| |].
  - exists 60, (zeros 32). split_and!; [done|decide_by_eval|done|decide_by_eval].
  - by destruct field.
Qed.

Lemma bundle_decode_iff_encode_witness :
  from_bytes_at (to_bytes example_bundle) true = Ok example_bundle ∧
  from_bytes_at (to_bytes example_bundle ++ [0]) true ≠ Panic.
Proof.
  split.
  - apply (bundle_decode_iff_encode (to_bytes example_bundle) true); [decide_by_eval|vm_compute; reflexivity|].
    split; [apply example_bundle_canonical|reflexivity].
  - apply (bundle_decode_iff_encode (to_bytes example_bundle ++ [0]) true); [decide_by_eval|vm_compute; reflexivity].
Defined.

Lemma bundle_wire_len_witness :
  Zlength (to_bytes example_bundle) = expected_wire_len_with_burn 1 + 0.
Proof.
  apply (bundle_wire_len true example_bundle); [apply example_bundle_canonical|vm_compute; reflexivity].
Defined.

Lemma bundle_action_count_agrees_witness :
  action_count_from_bytes (to_bytes example_bundle) = Ok (Some 1).
Proof.
  apply (bundle_action_count_agrees (to_bytes example_bundle)) with (field := true) (b := example_bundle);
    [decide_by_eval|vm_compute; reflexivity|vm_compute; reflexivity].
Defined.

Lemma bundle_formats_agree_witness :
  example_bundle = example_bundle ∧ Z.land (flags example_bundle) BUNDLE_FLAG_ANCHOR_BLOCK = 0.
Proof.
  apply (bundle_formats_agree (to_bytes example_bundle) example_bundle example_bundle);
    [decide_by_eval|vm_compute; reflexivity|vm_compute; reflexivity|vm_compute; reflexivity].
Defined.

Lemma bundle_attach_canonical_witness :
  canonical true (set_anchor_block example_bundle (zeros 32)) ∧
  match declare_burn example_bundle 70 (zeros 32) with Ok b' => canonical true b' | _ => False end.
Proof.
  destruct (bundle_attach_canonical example_bundle (zeros 32) (zeros 32) 70) as [H1 H2];
    [apply example_bundle_canonical|decide_by_eval|decide_by_eval|decide_by_eval|].
  split; [exact H1|]. exact (proj1 H2).
Defined.
