(* ===== verification/ShieldedState.v ===== *)
(** * The shielded state transition

    Model of [shielded-core/src/state.rs]: the effects extracted from a bundle,
    and the application of one accepted chain block to the nullifier set, the
    note-commitment tree, the supply ledger and the burn accumulator, in the
    order of the code, with its error paths. It composes the components of
    [Turnstile], [Nullifier], [Burn], [Tree] and [Bundle]. *)

From S2P Require Import Prelude Turnstile Nullifier Burn Tree Bundle.

Section state.
Context (sha256 : bytes → bytes) {O : OrchardTree}.

Record ShieldedTx : Type := mkShieldedTx {
  tx_nullifiers : list NullifierBytes;
  tx_commitments : list Cmx;
  tx_fee : Z;
  tx_anchor : bytes;
  tx_burn : option ExitReceipt;
  tx_anchor_block : option bytes;
}.

Inductive BundleExtractError : Type :=
| NonCanonicalCommitment
| BurnWithoutSpend
| MintingValueBalance
| BridgeDisabled
| BundleBurnExceedsValueBalance.

Fixpoint extract_commitments (l : list ActionWire) : res BundleExtractError (list Cmx) :=
  match l with
  | [] => Ok []
  | a :: l =>
      c ← ok_or (cmx_from_bytes (cmx a)) NonCanonicalCommitment;
      cs ← extract_commitments l;
      Ok (c :: cs)
  end.

(** [ShieldedBundle::nullifiers]. *)
Definition bundle_nullifiers (b : ShieldedBundle) : list NullifierBytes := nullifier <$> actions b.

Definition extract_burn (b : ShieldedBundle) : res BundleExtractError (option ExitReceipt) :=
  match Bundle.burn b with
  | Some (value, recipient) =>
      if negb BRIDGE_ENABLED then Err BridgeDisabled
      else if value >? value_balance b then Err BundleBurnExceedsValueBalance
      else
        n ← ok_or (head (bundle_nullifiers b)) BurnWithoutSpend;
        Ok (Some (mkExitReceipt value recipient n))
  | None => Ok None
  end.

(** [ShieldedTx::from_bundle]. [value_balance as u64] of a non-negative [i64]. *)
Definition from_bundle (b : ShieldedBundle) : res BundleExtractError ShieldedTx :=
  cs ← extract_commitments (actions b);
  let nfs := nullifier <$> actions b in
  if value_balance b <? 0 then Err MintingValueBalance
  else
    br ← extract_burn b;
    Ok (mkShieldedTx nfs cs (value_balance b) (anchor b) br (anchor_block b)).

Record CoinbaseNote : Type := mkCoinbaseNote { note_value : Z; note_commitment : Cmx }.
Record CoinbaseMint : Type := mkCoinbaseMint { notes : list CoinbaseNote }.

(** [CoinbaseMint::total_value]: a [u128] sum. *)
Definition total_value (c : CoinbaseMint) : exec Z :=
  res_foldl (λ s n, add_u 128 s (note_value n)) 0 (notes c).

Inductive ShieldedStateError : Type :=
| TurnstileError (v : TurnstileViolation)
| StateTreeFull
| BurnExceedsValueBalance (burn value_balance : Z).

Record BlockShieldedOutcome : Type := mkOutcome {
  out_accepted : list Z;
  out_new_nullifiers : list NullifierBytes;
  out_subtree : ChainBlockSubtree;
  out_anchor : Anchor;
  out_burn_receipts : list ExitReceipt;
}.

Record ShieldedState : Type := mkShieldedState {
  st_nullifiers : MemNullifierSet;
  st_tree : GlobalTree;
  st_supply : SupplyLedger;
  st_burns : BurnAccumulator;
}.

Definition state_new : ShieldedState :=
  mkShieldedState MemNullifierSet_ops.new tree_new Ledger.new Burn.new.

Definition state_anchor (s : ShieldedState) : Anchor := tree_anchor (st_tree s).

(** ** Phase 1: resolve conflicts and gather effects

    The local variables of [apply_chain_block_to]. *)

Record Gather (S : Type) : Type := mkGather {
  g_resolver : NullifierConflictResolver S;
  g_subtree : ChainBlockSubtree;
  g_accepted : list Z;
  g_fees : Z;
  g_burns : Z;
  g_receipts : list ExitReceipt;
}.
Arguments mkGather {S}.
Arguments g_resolver {S}.
Arguments g_subtree {S}.
Arguments g_accepted {S}.
Arguments g_fees {S}.
Arguments g_burns {S}.
Arguments g_receipts {S}.

Definition gather_note (acc : Z * ChainBlockSubtree) (note : CoinbaseNote)
  : res ShieldedStateError (Z * ChainBlockSubtree) :=
  let '(total_mint, subtree) := acc in
  total_mint ← add_u 128 total_mint (note_value note);
  Ok (total_mint, subtree_push subtree (note_commitment note)).

Definition gather_coinbase (coinbase : option CoinbaseMint)
  : res ShieldedStateError (Z * ChainBlockSubtree) :=
  match coinbase with
  | Some cb =>
      res_foldl gather_note (0, subtree_new) (notes cb)
  | None => Ok (0, subtree_new)
  end.

Definition burn_value (tx : ShieldedTx) : Z :=
  match tx_burn tx with Some r => Burn.v r | None => 0 end.

Definition gather_tx {S} `{NullifierSet S} (g : Gather S) (it : Z * ShieldedTx)
  : res ShieldedStateError (Gather S) :=
  let '(i, tx) := it in
  _ ← match tx_burn tx with
      | Some receipt =>
          if Burn.v receipt >? tx_fee tx then Err (BurnExceedsValueBalance (Burn.v receipt) (tx_fee tx))
          else Ok ()
      | None => Ok ()
      end;
  match Resolver.try_accept (g_resolver g) (tx_nullifiers tx) with
  | Ok r =>
      let subtree := foldl subtree_push (g_subtree g) (tx_commitments tx) in
      burns ← add_u 128 (g_burns g) (burn_value tx);
      fee ← sub_u (tx_fee tx) (burn_value tx);
      fees ← add_u 128 (g_fees g) fee;
      let receipts := match tx_burn tx with
                      | Some receipt => g_receipts g ++ [receipt]
                      | None => g_receipts g
                      end in
      Ok (mkGather r subtree (g_accepted g ++ [i]) fees burns receipts)
  | Err _ => Ok g
  | Panic => Panic
  end.

(** [iter().enumerate()]. *)
Fixpoint enumerate {A} (i : Z) (l : list A) : list (Z * A) :=
  match l with [] => [] | x :: l => (i, x) :: enumerate (i + 1) l end.

(** ** Phase 2 *)

(** [u64::try_from(total).map_err(|_| Overflow)?] followed by the ledger call. *)
Definition ledger_update (f : SupplyLedger → Z → res TurnstileViolation SupplyLedger)
    (s : SupplyLedger) (total : Z) : res ShieldedStateError SupplyLedger :=
  if total >? 0 then
    if total <? 2 ^ 64 then map_err TurnstileError (f s total) else Err (TurnstileError Overflow)
  else Ok s.

(** Commit the gathered effects to working copies; the caller's state is
    replaced only on success. *)
Definition commit_effects {S} (tree : GlobalTree) (supply : SupplyLedger) (total_mint : Z) (g : Gather S)
    (burns : BurnAccumulator)
  : res ShieldedStateError (BlockShieldedOutcome * GlobalTree * SupplyLedger * BurnAccumulator) :=
  new_supply ← ledger_update Ledger.mint_coinbase supply total_mint;
  new_supply ← ledger_update Ledger.collect_fees new_supply (g_fees g);
  new_supply ← ledger_update Ledger.burn new_supply (g_burns g);
  let '(new_tree, r) := append_subtree tree (g_subtree g) in
  _ ← map_err (λ _, StateTreeFull) r;
  let anchor := tree_anchor new_tree in
  _ ← map_err TurnstileError (Ledger.check new_supply);
  let burns := foldl (λ b r, (Burn.push sha256 b r).1) burns (g_receipts g) in
  Ok (mkOutcome (g_accepted g) (Resolver.into_accepted (g_resolver g)) (g_subtree g) anchor (g_receipts g),
      new_tree, new_supply, burns).

Definition apply_chain_block_to {S} `{NullifierSet S} (fin : S) (tree : GlobalTree)
    (supply : SupplyLedger) (coinbase : option CoinbaseMint) (txs : list ShieldedTx)
    (burns : BurnAccumulator)
  : res ShieldedStateError (BlockShieldedOutcome * GlobalTree * SupplyLedger * BurnAccumulator) :=
  '(total_mint, subtree) ← gather_coinbase coinbase;
  g ← res_foldl gather_tx (mkGather (Resolver.new fin) subtree [] 0 0 []) (enumerate 0 txs);
  commit_effects tree supply total_mint g burns.

(** [ShieldedState::apply_chain_block]. *)
Definition apply_chain_block (s : ShieldedState) (coinbase : option CoinbaseMint) (txs : list ShieldedTx)
  : res ShieldedStateError (ShieldedState * BlockShieldedOutcome) :=
  '(o, tree, supply, burns) ←
    apply_chain_block_to (st_nullifiers s) (st_tree s) (st_supply s) coinbase txs (st_burns s);
  Ok (mkShieldedState (MemNullifierSet_ops.extend (st_nullifiers s) (out_new_nullifiers o))
        tree supply burns, o).

(** ** Specification of phase 1 *)

(** The elements whose flag is set. *)
Fixpoint select {A} (l : list A) (fl : list bool) : list A :=
  match l, fl with
  | x :: l, b :: fl => if b then x :: select l fl else select l fl
  | _, _ => []
  end.

Definition wf_tx (tx : ShieldedTx) : Prop :=
  is_u64 (tx_fee tx) ∧ is_u64 (burn_value tx).
Definition burn_ok (tx : ShieldedTx) : Prop := burn_value tx <= tx_fee tx.

#[export] Instance wf_tx_dec tx : Decision (wf_tx tx).
Proof. unfold wf_tx. apply _. Defined.
#[export] Instance burn_ok_dec tx : Decision (burn_ok tx).
Proof. unfold burn_ok. apply _. Defined.

Definition miner_fee (tx : ShieldedTx) : Z := tx_fee tx - burn_value tx.
Definition receipts_of (txs : list ShieldedTx) : list ExitReceipt := omap tx_burn txs.

Lemma foldl_subtree_push l : ∀ s, commitments (foldl subtree_push s l) = commitments s ++ l.
Proof.
  induction l as [|c l IH]; intros s; cbn; [by rewrite app_nil_r|]. rewrite IH. cbn. by rewrite <- app_assoc.
Qed.

Lemma sum_select_bound {A} (f : A → Z) (b : Z) (l : list A) : ∀ fl,
  Forall (λ x, 0 <= f x <= b) l → 0 <= sum_list_Z (f <$> select l fl) <= b * Zlength l.
Proof.
  unfold Zlength. induction l as [|x l IH]; intros fl H; cbn; [lia|].
  apply Forall_cons_1 in H as [Hx H]. destruct fl as [|[] fl]; cbn [sum_list_Z fmap list_fmap]; [nia| |].
  - specialize (IH fl H). change (list_fmap _ _ f (select l fl)) with (f <$> select l fl). nia.
  - specialize (IH fl H). nia.
Qed.

Section gather.
Context {S : Type} {NS : NullifierSet S}.
Implicit Types g : Gather S.

(** One transaction that declares no excessive burn. *)
Lemma gather_tx_ok g i tx :
  wf_tx tx → burn_ok tx → 0 <= g_fees g → 0 <= g_burns g →
  g_fees g + 2 ^ 64 <= 2 ^ 128 → g_burns g + 2 ^ 64 <= 2 ^ 128 →
  gather_tx g (i, tx) =
    match Resolver.try_accept (g_resolver g) (tx_nullifiers tx) with
    | Ok r => Ok (mkGather r (foldl subtree_push (g_subtree g) (tx_commitments tx)) (g_accepted g ++ [i])
                    (g_fees g + miner_fee tx) (g_burns g + burn_value tx) (g_receipts g ++ receipts_of [tx]))
    | _ => Ok g
    end.
Proof.
  intros [[Hf1 Hf2] [Hb1 Hb2]] Hok Hg1 Hg2 Hg3 Hg4. unfold gather_tx, burn_ok in *.
  assert ((match tx_burn tx with
    | Some receipt => if Burn.v receipt >? tx_fee tx then Err (BurnExceedsValueBalance (Burn.v receipt) (tx_fee tx)) else Ok ()
    | None => Ok () end) = Ok () (E := ShieldedStateError)) as ->.
  { unfold burn_value in Hok. destruct (tx_burn tx) as [r|]; [|done].
    destruct (Z.gtb_spec (Burn.v r) (tx_fee tx)); [lia|done]. }
  cbn [mbind res_bind].
  pose proof (Resolver.try_accept_spec (g_resolver g) (tx_nullifiers tx)) as Hr.
  destruct (Resolver.try_accept _ _) as [r|e|]; [|done|destruct Hr as [[_ ?]|[_ [? ?]]]; done].
  unfold add_u, sub_u, checked_add, checked_sub, miner_fee.
  destruct (Z.ltb_spec (g_burns g + burn_value tx) (2 ^ 128)); [|lia]. cbn [unwrap mbind res_bind].
  destruct (Z.leb_spec (burn_value tx) (tx_fee tx)); [|lia]. cbn [unwrap mbind res_bind].
  destruct (Z.ltb_spec (g_fees g + (tx_fee tx - burn_value tx)) (2 ^ 128)); [|lia]. cbn [unwrap mbind res_bind].
  do 2 f_equal. unfold receipts_of. cbn. by destruct (tx_burn tx); rewrite ?app_nil_r.
Qed.

Lemma gather_tx_bad g i tx :
  ¬ burn_ok tx → 0 <= tx_fee tx → gather_tx g (i, tx) = Err (BurnExceedsValueBalance (burn_value tx) (tx_fee tx)).
Proof.
  unfold burn_ok, burn_value, gather_tx. intros Hb Hf. destruct (tx_burn tx) as [r|]; [|lia].
  destruct (Z.gtb_spec (Burn.v r) (tx_fee tx)); [done|lia].
Qed.

(** The whole loop, against the batch resolver and its flags. *)
Lemma gather_spec txs : ∀ g i,
  Forall wf_tx txs → 0 <= g_fees g → 0 <= g_burns g →
  g_fees g + 2 ^ 64 * Zlength txs <= 2 ^ 128 → g_burns g + 2 ^ 64 * Zlength txs <= 2 ^ 128 →
  let '(r, fl) := Resolver.run (g_resolver g) (tx_nullifiers <$> txs) in
  let kept := select txs fl in
  if bool_decide (Forall burn_ok txs) then
    ∃ sub, res_foldl gather_tx g (enumerate i txs) =
      Ok (mkGather r sub (g_accepted g ++ select (enumerate i txs).*1 fl)
            (g_fees g + sum_list_Z (miner_fee <$> kept)) (g_burns g + sum_list_Z (burn_value <$> kept))
            (g_receipts g ++ receipts_of kept)) ∧
      commitments sub = commitments (g_subtree g) ++ mjoin (tx_commitments <$> kept)
  else ∃ tx, tx ∈ txs ∧ ¬ burn_ok tx ∧
    res_foldl gather_tx g (enumerate i txs) = Err (BurnExceedsValueBalance (burn_value tx) (tx_fee tx)).
Proof.
  induction txs as [|tx txs IH]; intros g i Hwf H1 H2 H3 H4.
  { cbn. exists (g_subtree g). rewrite !Z.add_0_r, !app_nil_r. by destruct g. }
  apply Forall_cons_1 in Hwf as [Htx Hwf].
  assert (Zlength (tx :: txs) = 1 + Zlength txs) as Hl by (unfold Zlength; cbn; lia). rewrite Hl in H3, H4.
  assert (0 <= Zlength txs) by (unfold Zlength; lia).
  rewrite fmap_cons. cbn [Resolver.run enumerate res_foldl].
  destruct (decide (burn_ok tx)) as [Hok|Hbad].
  - rewrite gather_tx_ok by (done || lia).
    pose proof (Resolver.try_accept_spec (g_resolver g) (tx_nullifiers tx)) as Hr.
    destruct (Resolver.try_accept _ _) as [r|e|]; [| |destruct Hr as [[_ ?]|[_ [? ?]]]; done].
    + cbn [mbind res_bind].
      specialize (IH (mkGather r (foldl subtree_push (g_subtree g) (tx_commitments tx)) (g_accepted g ++ [i])
                        (g_fees g + miner_fee tx) (g_burns g + burn_value tx) (g_receipts g ++ receipts_of [tx])) (i + 1) Hwf).
      destruct Htx as [[? ?] [? ?]]. assert (burn_value tx <= tx_fee tx) as Hle by exact Hok.
      assert (miner_fee tx = tx_fee tx - burn_value tx) as Hmf by done. cbn [g_resolver g_subtree g_accepted g_fees g_burns g_receipts] in IH.
      specialize (IH ltac:(lia) ltac:(lia) ltac:(lia) ltac:(lia)).
      destruct (Resolver.run r (tx_nullifiers <$> txs)) as [r' fl]. cbn [select fmap list_fmap].
      assert (bool_decide (Forall burn_ok (tx :: txs)) = bool_decide (Forall burn_ok txs)) as Hbd.
      { apply bool_decide_ext. rewrite Forall_cons. intuition. }
      cbv zeta in IH |- *. rewrite Hbd. destruct (bool_decide (Forall burn_ok txs)).
      * destruct IH as (sub & Hres & Hsub). exists sub. rewrite Hres. split.
        -- f_equal. rewrite <- !app_assoc. cbn [sum_list_Z]. f_equal; [lia|lia|].
           unfold receipts_of. cbn. by destruct (tx_burn tx).
        -- rewrite Hsub, foldl_subtree_push, <- app_assoc. done.
      * destruct IH as (tx' & Hin & Hb & Hres). exists tx'. split; [by right|]. done.
    + cbn [mbind res_bind]. specialize (IH g (i + 1) Hwf ltac:(lia) ltac:(lia) ltac:(lia) ltac:(lia)).
      destruct (Resolver.run (g_resolver g) (tx_nullifiers <$> txs)) as [r' fl]. cbn [select fmap list_fmap].
      assert (bool_decide (Forall burn_ok (tx :: txs)) = bool_decide (Forall burn_ok txs)) as ->.
      { apply bool_decide_ext. rewrite Forall_cons. intuition. }
      cbv zeta in IH |- *. destruct (bool_decide (Forall burn_ok txs)); [done|]. destruct IH as (tx' & Hin & Hb & Hres). exists tx'. split; [by right|]. done.
  - assert (bool_decide (Forall burn_ok (tx :: txs)) = false) as Hbd.
    { apply bool_decide_eq_false. rewrite Forall_cons. naive_solver. }
    rewrite gather_tx_bad; [|done|by destruct Htx as [[? ?] _]]. cbn [mbind res_bind].
    destruct (match Resolver.try_accept (g_resolver g) (tx_nullifiers tx) with
      Ok r' => let '(r'', fl) := Resolver.run r' (tx_nullifiers <$> txs) in (r'', true :: fl)
      | _ => let '(r'', fl) := Resolver.run (g_resolver g) (tx_nullifiers <$> txs) in (r'', false :: fl) end) as [r' fl].
    rewrite Hbd. exists tx. split; [by left|]. done.
Qed.
End gather.

(** ** Specification of a block *)

Definition cb_notes (coinbase : option CoinbaseMint) : list CoinbaseNote :=
  match coinbase with Some cb => notes cb | None => [] end.
Definition minted (coinbase : option CoinbaseMint) : Z := sum_list_Z (note_value <$> cb_notes coinbase).

Definition wf_coinbase (coinbase : option CoinbaseMint) : Prop :=
  Forall (λ n, is_u64 (note_value n)) (cb_notes coinbase) ∧ Zlength (cb_notes coinbase) <= 2 ^ 64.

Lemma gather_coinbase_ok coinbase :
  wf_coinbase coinbase →
  ∃ sub, gather_coinbase coinbase = Ok (minted coinbase, sub) ∧
    commitments sub = note_commitment <$> cb_notes coinbase.
Proof.
  intros [Hv Hl]. unfold gather_coinbase, minted. destruct coinbase as [cb|]; cbn [cb_notes] in *; [|by eexists].
  enough (∀ l m s, Forall (λ n, is_u64 (note_value n)) l → 0 <= m → m + 2 ^ 64 * Zlength l <= 2 ^ 128 →
    ∃ sub, res_foldl gather_note (m, s) l = Ok (m + sum_list_Z (note_value <$> l), sub) ∧
    commitments sub = commitments s ++ (note_commitment <$> l)) as Hgen.
  { destruct (Hgen (notes cb) 0 subtree_new Hv) as (sub & -> & Hs); [lia|lia|]. by exists sub. }
  clear. induction l as [|n l IH]; intros m s Hv Hm Hb.
  { exists s. cbn. by rewrite Z.add_0_r, app_nil_r. }
  apply Forall_cons_1 in Hv as [[Hn1 Hn2] Hv]. assert (Zlength (n :: l) = 1 + Zlength l) as Hl by (unfold Zlength; cbn; lia).
  rewrite Hl in Hb. assert (0 <= Zlength l) by (unfold Zlength; lia).
  cbn [res_foldl gather_note]. unfold add_u, checked_add.
  destruct (Z.ltb_spec (m + note_value n) (2 ^ 128)); [|lia]. cbn [unwrap mbind res_bind].
  destruct (IH (m + note_value n) (subtree_push s (note_commitment n)) Hv) as (sub & -> & Hs); [lia|lia|].
  exists sub. rewrite Hs. cbn. split; [do 2 f_equal; unfold fmap; lia|]. by rewrite <- app_assoc.
Qed.

Section block.
Context {S : Type} {NS : NullifierSet S}.
Context `{OL : !OrchardTreeLaws O}.

(** The transactions of the block that survive conflict resolution. *)
Definition block_kept (fin : S) (txs : list ShieldedTx) : list ShieldedTx :=
  select txs (Resolver.run (Resolver.new fin) (tx_nullifiers <$> txs)).2.

Definition block_commitments (fin : S) coinbase txs : list Cmx :=
  (note_commitment <$> cb_notes coinbase) ++ mjoin (tx_commitments <$> block_kept fin txs).

(** The ledger after the block, and when the block is valid. *)
Definition supply_after (fin : S) (supply : SupplyLedger) coinbase txs : SupplyLedger :=
  let kept := block_kept fin txs in
  Ledger.from_totals_full (cumulative_coinbase supply + minted coinbase)
    (cumulative_fees supply + sum_list_Z (miner_fee <$> kept))
    (cumulative_burns supply + sum_list_Z (burn_value <$> kept)) (cumulative_pegged_in supply).

Definition block_valid (fin : S) (tree : GlobalTree) (supply : SupplyLedger) coinbase txs : Prop :=
  let kept := block_kept fin txs in
  let supply' := supply_after fin supply coinbase txs in
  Forall burn_ok txs ∧
  minted coinbase < 2 ^ 64 ∧ sum_list_Z (miner_fee <$> kept) < 2 ^ 64 ∧
  sum_list_Z (burn_value <$> kept) < 2 ^ 64 ∧ Ledger.wf supply' ∧
  tree_size tree + Zlength (block_commitments fin coinbase txs) <= 2 ^ TREE_DEPTH ∧
  Ledger.exited supply' <= Ledger.issued supply' ∧ Ledger.issued supply' < 2 ^ 128.

#[export] Instance block_valid_dec fin tree supply coinbase txs : Decision (block_valid fin tree supply coinbase txs).
Proof. unfold block_valid. cbv zeta. apply _. Defined.

Lemma ledger_update_mint s v :
  Ledger.wf s → 0 <= v →
  ledger_update Ledger.mint_coinbase s v =
    if decide (v < 2 ^ 64 ∧ cumulative_coinbase s + v < 2 ^ 128)
    then Ok (Ledger.from_totals_full (cumulative_coinbase s + v) (cumulative_fees s) (cumulative_burns s) (cumulative_pegged_in s))
    else Err (TurnstileError Overflow).
Proof.
  intros (H1 & H2 & H3 & H4) Hv. unfold ledger_update, Ledger.mint_coinbase, checked_add, is_uint in *.
  destruct (Z.gtb_spec v 0), (Z.ltb_spec v (2 ^ 64)), (Z.ltb_spec (cumulative_coinbase s + v) (2 ^ 128)); cbn;
    case_decide; try lia; try done. replace v with 0 by lia. rewrite Z.add_0_r. by destruct s.
Qed.

Lemma ledger_update_fees s v :
  Ledger.wf s → 0 <= v →
  ledger_update Ledger.collect_fees s v =
    if decide (v < 2 ^ 64 ∧ cumulative_fees s + v < 2 ^ 128)
    then Ok (Ledger.from_totals_full (cumulative_coinbase s) (cumulative_fees s + v) (cumulative_burns s) (cumulative_pegged_in s))
    else Err (TurnstileError Overflow).
Proof.
  intros (H1 & H2 & H3 & H4) Hv. unfold ledger_update, Ledger.collect_fees, checked_add, is_uint in *.
  destruct (Z.gtb_spec v 0), (Z.ltb_spec v (2 ^ 64)), (Z.ltb_spec (cumulative_fees s + v) (2 ^ 128)); cbn;
    case_decide; try lia; try done. replace v with 0 by lia. rewrite Z.add_0_r. by destruct s.
Qed.

Lemma ledger_update_burn s v :
  Ledger.wf s → 0 <= v →
  ledger_update Ledger.burn s v =
    if decide (v < 2 ^ 64 ∧ cumulative_burns s + v < 2 ^ 128)
    then Ok (Ledger.from_totals_full (cumulative_coinbase s) (cumulative_fees s) (cumulative_burns s + v) (cumulative_pegged_in s))
    else Err (TurnstileError Overflow).
Proof.
  intros (H1 & H2 & H3 & H4) Hv. unfold ledger_update, Ledger.burn, checked_add, is_uint in *.
  destruct (Z.gtb_spec v 0), (Z.ltb_spec v (2 ^ 64)), (Z.ltb_spec (cumulative_burns s + v) (2 ^ 128)); cbn;
    case_decide; try lia; try done. replace v with 0 by lia. rewrite Z.add_0_r. by destruct s.
Qed.

Lemma check_cases s :
  Ledger.wf s →
  if decide (Ledger.exited s <= Ledger.issued s ∧ Ledger.issued s < 2 ^ 128) then Ledger.check s = Ok ()
  else ∃ e, Ledger.check s = Err e.
Proof.
  intros Hwf. case_decide as Hb; [by apply Ledger.check_ok|].
  destruct (Ledger.check s) as [[]|e|] eqn:E; [by apply Ledger.check_ok in E|by eexists|].
  unfold Ledger.check, Ledger.pool_value, ok_or in E. by repeat case_match.
Qed.

Lemma foldl_burn_push rs : ∀ b,
  foldl (λ b r, (Burn.push sha256 b r).1) b rs =
  mkBurnAccumulator (Burn.leaves b ++ (Burn.leaf_hash sha256 <$> rs)) (receipts b ++ rs).
Proof.
  induction rs as [|r rs IH]; intros b; cbn; [by rewrite !app_nil_r; destruct b|].
  rewrite IH. cbn. by rewrite <- !app_assoc.
Qed.

(** What an accepted block does to the state. *)
Record block_effect (fin : S) (tree : GlobalTree) (supply : SupplyLedger) coinbase txs (burns : BurnAccumulator)
    (o : BlockShieldedOutcome) (tree' : GlobalTree) (supply' : SupplyLedger) (burns' : BurnAccumulator) : Prop := {
  eff_accepted : out_accepted o =
    select (enumerate 0 txs).*1 (Resolver.run (Resolver.new fin) (tx_nullifiers <$> txs)).2;
  eff_nullifiers : out_new_nullifiers o = mjoin (tx_nullifiers <$> block_kept fin txs);
  eff_nodup : NoDup (out_new_nullifiers o);
  eff_fresh : Forall (λ nf, contains fin nf = false) (out_new_nullifiers o);
  eff_subtree : commitments (out_subtree o) = block_commitments fin coinbase txs;
  eff_tree : wf_tree tree' ∧ leaves tree' = leaves tree ++ (from_cmx <$> block_commitments fin coinbase txs);
  eff_anchor : out_anchor o = tree_anchor tree';
  eff_supply : supply' = supply_after fin supply coinbase txs;
  eff_receipts : out_burn_receipts o = receipts_of (block_kept fin txs);
  eff_burns : burns' = foldl (λ b r, (Burn.push sha256 b r).1) burns (receipts_of (block_kept fin txs));
}.

Lemma select_kept (l : list (list NullifierBytes)) : ∀ fl, Resolver.kept l fl = select l fl.
Proof.
  induction l as [|x l IH]; intros [|b fl]; [done|done|done|]. rewrite Resolver.kept_cons, IH. by destruct b.
Qed.

Lemma select_fmap {A B} (f : A → B) (l : list A) : ∀ fl, f <$> select l fl = select (f <$> l) fl.
Proof.
  induction l as [|x l IH]; intros fl; [done|]. destruct fl as [|[] fl]; cbn; [done|f_equal; apply IH|apply IH].
Qed.

Lemma select_Forall {A} (P : A → Prop) (l : list A) : ∀ fl, Forall P l → Forall P (select l fl).
Proof.
  induction l as [|x l IH]; intros fl H; [constructor|]. apply Forall_cons_1 in H as [? ?].
  destruct fl as [|[] fl]; cbn; [constructor|constructor; eauto|eauto].
Qed.

Lemma kept_sums fin txs :
  Forall wf_tx txs → Forall burn_ok txs →
  0 <= sum_list_Z (miner_fee <$> block_kept fin txs) ∧ 0 <= sum_list_Z (burn_value <$> block_kept fin txs).
Proof.
  intros Hwf Hok. split; apply sum_list_Z_nonneg, Forall_fmap, select_Forall.
  - apply Forall_forall. intros tx Htx. rewrite Forall_forall in Hok. specialize (Hok tx Htx).
    unfold burn_ok, miner_fee in *. simpl. lia.
  - eapply Forall_impl; [exact Hwf|]. intros tx [_ [? ?]]. done.
Qed.

(** Phase 2, on any gathered effects. *)
Lemma commit_cases tree supply mint (g : Gather S) burns :
  let supply' := Ledger.from_totals_full (cumulative_coinbase supply + mint) (cumulative_fees supply + g_fees g)
    (cumulative_burns supply + g_burns g) (cumulative_pegged_in supply) in
  wf_tree tree → Ledger.wf supply → 0 <= mint → 0 <= g_fees g → 0 <= g_burns g →
  if bool_decide (mint < 2 ^ 64 ∧ g_fees g < 2 ^ 64 ∧ g_burns g < 2 ^ 64 ∧ Ledger.wf supply' ∧
       tree_size tree + Zlength (commitments (g_subtree g)) <= 2 ^ TREE_DEPTH ∧
       Ledger.exited supply' <= Ledger.issued supply' ∧ Ledger.issued supply' < 2 ^ 128)
  then ∃ tree', commit_effects tree supply mint g burns =
      Ok (mkOutcome (g_accepted g) (accepted (g_resolver g)) (g_subtree g) (tree_anchor tree') (g_receipts g),
          tree', supply', foldl (λ b r, (Burn.push sha256 b r).1) burns (g_receipts g)) ∧
      wf_tree tree' ∧ leaves tree' = leaves tree ++ (from_cmx <$> commitments (g_subtree g))
  else ∃ e, commit_effects tree supply mint g burns = Err e.
Proof.
  intros supply' Ht Hs Hm Hf Hb. unfold commit_effects. pose proof Hs as (S1 & S2 & S3 & S4).
  rewrite ledger_update_mint by done.
  case_decide as D1; cycle 1.
  { rewrite bool_decide_eq_false_2; [by eexists|]. intros (? & _ & _ & ([_ ?] & _) & _). cbn in *. naive_solver. }
  cbn [mbind res_bind]. rewrite ledger_update_fees by (done || (unfold Ledger.wf, is_uint in *; cbn; lia)).
  case_decide as D2; cycle 1.
  { rewrite bool_decide_eq_false_2; [by eexists|]. intros (_ & ? & _ & (_ & [_ ?] & _) & _). cbn in *. naive_solver. }
  cbn [mbind res_bind]. rewrite ledger_update_burn by (done || (unfold Ledger.wf, is_uint in *; cbn in *; lia)).
  case_decide as D3; cycle 1.
  { rewrite bool_decide_eq_false_2; [by eexists|]. intros (_ & _ & ? & (_ & _ & [_ ?] & _) & _). cbn in *. naive_solver. }
  cbn [mbind res_bind]. fold supply'.
  change (Ledger.from_totals_full _ _ _ _) with supply'.
  assert (Ledger.wf supply') as Hwf' by (unfold supply', Ledger.wf, is_uint in *; cbn in *; lia).
  pose proof (append_commitments_spec (commitments (g_subtree g)) tree Ht) as Ha. cbn zeta in Ha.
  pose proof (λ t', append_subtree_ok tree (g_subtree g) t' Ht) as Hok. unfold append_subtree in *.
  destruct (append_commitments tree (commitments (g_subtree g))) as [t' r]. destruct Ha as (_ & _ & ->).
  destruct (Z.leb_spec (tree_size tree + Zlength (commitments (g_subtree g))) (2 ^ TREE_DEPTH)) as [D4|D4]; cycle 1.
  { rewrite bool_decide_eq_false_2; [by eexists|]. intros (_ & _ & _ & _ & ? & _). lia. }
  destruct (Hok t' eq_refl) as [Hwt Hlv]. cbn [map_err mbind res_bind].
  pose proof (check_cases supply' Hwf') as Hc. case_decide as D5.
  - rewrite Hc. cbn [map_err mbind res_bind]. rewrite bool_decide_eq_true_2 by naive_solver. by exists t'.
  - destruct Hc as (e & ->). cbn [map_err mbind res_bind]. rewrite bool_decide_eq_false_2 by naive_solver. by eexists.
Qed.

Lemma apply_block_cases fin tree supply coinbase txs burns :
  wf_tree tree → Ledger.wf supply → wf_coinbase coinbase → Forall wf_tx txs → Zlength txs <= 2 ^ 64 →
  if bool_decide (block_valid fin tree supply coinbase txs) then
    ∃ o tree' supply' burns',
      apply_chain_block_to fin tree supply coinbase txs burns = Ok (o, tree', supply', burns') ∧
      block_effect fin tree supply coinbase txs burns o tree' supply' burns'
  else ∃ e, apply_chain_block_to fin tree supply coinbase txs burns = Err e.
Proof.
  intros Htree Hsup Hcb Htxs Hlen. unfold apply_chain_block_to.
  destruct (gather_coinbase_ok coinbase Hcb) as (sub0 & -> & Hsub0). cbn [mbind res_bind].
  pose proof (gather_spec txs (mkGather (Resolver.new fin) sub0 [] 0 0 []) 0 Htxs) as Hg.
  cbn [g_resolver g_subtree g_accepted g_fees g_burns g_receipts] in Hg.
  specialize (Hg ltac:(lia) ltac:(lia) ltac:(lia) ltac:(lia)). cbv zeta in Hg.
  assert (0 <= minted coinbase) as Hm.
  { apply sum_list_Z_nonneg, Forall_fmap. destruct Hcb as [Hcb _]. eapply Forall_impl; [exact Hcb|]. intros n [? _]. done. }
  pose proof (kept_sums fin txs Htxs) as Hks.
  destruct (Resolver.run (Resolver.new fin) (tx_nullifiers <$> txs)) as [r fl] eqn:Hrun.
  assert (block_kept fin txs = select txs fl) as Hkept by (unfold block_kept; by rewrite Hrun).
  rewrite <- Hkept in Hg. destruct (decide (Forall burn_ok txs)) as [Hburn|Hburn];
    [rewrite bool_decide_eq_true_2 in Hg by done|rewrite bool_decide_eq_false_2 in Hg by done]; cycle 1.
  { destruct Hg as (tx & _ & _ & ->). rewrite bool_decide_eq_false_2; [by eexists|]. intros [? _]. done. }
  destruct Hg as (sub & -> & Hsub). cbn [mbind res_bind]. destruct (Hks Hburn) as [Hf Hb].
  rewrite !app_nil_l, !Z.add_0_l. set (g := mkGather _ _ _ _ _ _).
  assert (commitments (g_subtree g) = block_commitments fin coinbase txs) as Hcs by (cbn; by rewrite Hsub, Hsub0).
  pose proof (commit_cases tree supply (minted coinbase) g burns Htree Hsup Hm Hf Hb) as Hc. rewrite Hcs in Hc.
  destruct (decide (block_valid fin tree supply coinbase txs)) as [Hv|Hv]; cycle 1.
  { rewrite bool_decide_eq_false_2 in Hc by (intros Hr; apply Hv; exact (conj Hburn Hr)).
    by rewrite bool_decide_eq_false_2. }
  rewrite bool_decide_eq_true_2 in Hc by exact (proj2 Hv). rewrite bool_decide_eq_true_2 by done.
  destruct Hc as (tree' & Hc & Hwt & Hlv). do 4 eexists. split; [exact Hc|].
  destruct (Resolver.run_wf _ _ _ _ Hrun (Resolver.wf_new fin)) as [(Hnd & _ & Hfr) Hfin].
  destruct (Resolver.run_accepted _ _ _ _ Hrun) as (Hacc & _ & _). rewrite Hfin in Hfr.
  split; cbn; try done; [by rewrite Hrun|]. rewrite Hacc, select_kept, Hkept, select_fmap. done.
Qed.
End block.

(** The tree after a block is the old one with the block's commitments appended one by one. *)
Lemma apply_chain_block_tree s coinbase txs s' o :
  apply_chain_block s coinbase txs = Ok (s', o) → append_commitments (st_tree s) (commitments (out_subtree o)) = (st_tree s', Ok ()).
Proof.
  unfold apply_chain_block, apply_chain_block_to, commit_effects. intros ([[[o' t'] sup'] br'] & H & [= <- <-])%res_bind_ok.
  apply res_bind_ok in H as ([m sub] & _ & H). apply res_bind_ok in H as (g & _ & H). do 3 apply res_bind_ok in H as (? & _ & H).
  unfold append_subtree in H. destruct (append_commitments (st_tree s) (commitments (g_subtree g))) as [t r] eqn:E. apply res_bind_ok in H as ([] & Hr & H).
  apply res_bind_ok in H as (? & _ & H). injection H as <- <- <- <-. cbn. rewrite E. destruct r as [[]| |]; [done|done|done].
Qed.

(** ** Independence of the store behind the nullifier set *)

Section agnostic.
Context {S1 S2 : Type} {NS1 : NullifierSet S1} {NS2 : NullifierSet S2}.

(** Two resolvers over stores with the same members. *)
Definition same_resolver (r1 : NullifierConflictResolver S1) (r2 : NullifierConflictResolver S2) : Prop :=
  (∀ nf, contains (finalized r1) nf = contains (finalized r2) nf) ∧ seen r1 = seen r2 ∧ accepted r1 = accepted r2.

Lemma try_accept_same r1 r2 nfs :
  same_resolver r1 r2 →
  match Resolver.try_accept r1 nfs, Resolver.try_accept r2 nfs with
  | Ok r1', Ok r2' => same_resolver r1' r2'
  | Err e1, Err e2 => e1 = e2
  | Panic, Panic => True
  | _, _ => False
  end.
Proof.
  intros (Hf & Hs & Ha). unfold Resolver.try_accept.
  assert (∀ within, Resolver.try_accept_check r1 within nfs = Resolver.try_accept_check r2 within nfs) as Hc.
  { clear Ha. induction nfs as [|nf nfs IH]; intros within; [done|]. cbn [Resolver.try_accept_check].
    unfold Resolver.conflicts. by rewrite Hf, Hs, IH. }
  rewrite Hc. destruct (Resolver.try_accept_check r2 ∅ nfs); cbn; [|done|done].
  rewrite !Resolver.record_all. split; [done|]. cbn. by rewrite Hs, Ha.
Qed.

Definition same_gather (g1 : Gather S1) (g2 : Gather S2) : Prop :=
  same_resolver (g_resolver g1) (g_resolver g2) ∧ g_subtree g1 = g_subtree g2 ∧
  g_accepted g1 = g_accepted g2 ∧ g_fees g1 = g_fees g2 ∧ g_burns g1 = g_burns g2 ∧
  g_receipts g1 = g_receipts g2.

Definition same_result {E A B} (R : A → B → Prop) (x : res E A) (y : res E B) : Prop :=
  match x, y with
  | Ok a, Ok b => R a b
  | Err e1, Err e2 => e1 = e2
  | Panic, Panic => True
  | _, _ => False
  end.

Lemma same_result_bind {E A B C D} (R : A → B → Prop) (R' : C → D → Prop) (x : res E A) (y : res E B) f g :
  same_result R x y → (∀ a b, R a b → same_result R' (f a) (g b)) → same_result R' (x ≫= f) (y ≫= g).
Proof. destruct x, y; cbn; naive_solver. Qed.

Lemma same_result_refl {E A} (x : res E A) : same_result eq x x.
Proof. by destruct x. Qed.

Lemma gather_tx_same g1 g2 it : same_gather g1 g2 → same_result same_gather (gather_tx g1 it) (gather_tx g2 it).
Proof.
  destruct it as [i tx]. intros (Hr & Hs & Ha & Hf & Hb & Hrc). unfold gather_tx.
  apply (same_result_bind eq); [apply same_result_refl|]. intros _ _ _.
  pose proof (try_accept_same _ _ (tx_nullifiers tx) Hr) as Ht.
  destruct (Resolver.try_accept (g_resolver g1) _), (Resolver.try_accept (g_resolver g2) _); try done.
  rewrite Hs, Ha, Hf, Hb, Hrc.
  apply (same_result_bind eq); [apply same_result_refl|]. intros ? ? <-.
  apply (same_result_bind eq); [apply same_result_refl|]. intros ? ? <-.
  apply (same_result_bind eq); [apply same_result_refl|]. intros ? ? <-. done.
Qed.

Lemma gather_same l : ∀ g1 g2, same_gather g1 g2 →
  same_result same_gather (res_foldl gather_tx g1 l) (res_foldl gather_tx g2 l).
Proof.
  induction l as [|it l IH]; intros g1 g2 Hg; [done|]. cbn [res_foldl].
  apply (same_result_bind same_gather); [by apply gather_tx_same|]. intros g1' g2'. apply IH.
Qed.

Lemma apply_same (f1 : S1) (f2 : S2) tree supply coinbase txs burns :
  (∀ nf, contains f1 nf = contains f2 nf) →
  apply_chain_block_to f1 tree supply coinbase txs burns = apply_chain_block_to f2 tree supply coinbase txs burns.
Proof.
  intros Hf. enough (same_result eq (apply_chain_block_to f1 tree supply coinbase txs burns)
    (apply_chain_block_to f2 tree supply coinbase txs burns)) as H.
  { destruct (apply_chain_block_to f1 _ _ _ _ _), (apply_chain_block_to f2 _ _ _ _ _); naive_solver. }
  unfold apply_chain_block_to. apply (same_result_bind eq); [apply same_result_refl|]. intros [mint sub] _ <-.
  apply (same_result_bind same_gather); [by apply gather_same|].
  intros g1 g2 ((_ & _ & Hacc) & Hs & Ha & Hfe & Hb & Hrc). unfold commit_effects, Resolver.into_accepted.
  rewrite Hacc, Hs, Ha, Hfe, Hb, Hrc. apply same_result_refl.
Qed.
End agnostic.

(** ** Chains of blocks *)

Section chain.
Context `{OL : !OrchardTreeLaws O}.

Definition block : Type := option CoinbaseMint * list ShieldedTx.
Definition wf_block (b : block) : Prop := wf_coinbase b.1 ∧ Forall wf_tx b.2 ∧ Zlength b.2 <= 2 ^ 64.

(** Blocks applied one after the other, with their outcomes. *)
Fixpoint run_chain (s : ShieldedState) (bs : list block)
  : res ShieldedStateError (ShieldedState * list BlockShieldedOutcome) :=
  match bs with
  | [] => Ok (s, [])
  | b :: bs =>
      '(s, o) ← apply_chain_block s b.1 b.2;
      '(s, os) ← run_chain s bs;
      Ok (s, o :: os)
  end.

(** The transactions an outcome accepted. *)
Definition accepted_txs (txs : list ShieldedTx) (o : BlockShieldedOutcome) : list ShieldedTx :=
  omap (λ i, txs !! Z.to_nat i) (out_accepted o).

(** Net value a block adds to the pool. *)
Definition block_net (b : block) (o : BlockShieldedOutcome) : Z :=
  minted b.1 - sum_list_Z (tx_fee <$> accepted_txs b.2 o).

(** The abstract state: what the concrete state stands for. *)
Record abs_state : Type := mkAbs {
  abs_nullifiers : list NullifierBytes;
  abs_leaves : list Node;
  abs_receipts : list ExitReceipt;
  abs_pool : Z;
}.

Definition abs_new : abs_state := mkAbs [] [] [] 0.
Definition abs_apply (a : abs_state) (bo : block * BlockShieldedOutcome) : abs_state :=
  mkAbs (abs_nullifiers a ++ out_new_nullifiers bo.2)
        (abs_leaves a ++ (from_cmx <$> commitments (out_subtree bo.2)))
        (abs_receipts a ++ out_burn_receipts bo.2) (abs_pool a + block_net bo.1 bo.2).

Record represents (s : ShieldedState) (a : abs_state) : Prop := {
  rep_nodup : NoDup (abs_nullifiers a);
  rep_nullifiers : nf_set (st_nullifiers s) = list_to_set (abs_nullifiers a);
  rep_tree : wf_tree (st_tree s) ∧ leaves (st_tree s) = abs_leaves a;
  rep_supply : Ledger.wf (st_supply s) ∧ Ledger.pool_value (st_supply s) = Ok (abs_pool a);
  rep_burns : st_burns s = Burn.from_receipts sha256 (abs_receipts a);
}.

Lemma represents_new : represents state_new abs_new.
Proof.
  split; [constructor|done| | |done].
  - split; [apply wf_tree_new|]. unfold leaves. cbn. apply f_leaves_empty.
  - split; [vm_compute; naive_solver|done].
Qed.

Lemma omap_select_enumerate (l pre : list ShieldedTx) : ∀ fl,
  omap (λ i, (pre ++ l) !! Z.to_nat i) (select (enumerate (Zlength pre) l).*1 fl) = select l fl.
Proof.
  revert pre. induction l as [|x l IH]; intros pre fl; [done|].
  destruct fl as [|b fl]; [done|]. cbn [enumerate fmap list_fmap fst select].
  specialize (IH (pre ++ [x]) fl). rewrite <- app_assoc in IH. cbn [app] in IH.
  replace (Zlength (pre ++ [x])) with (Zlength pre + 1) in IH by (unfold Zlength; rewrite length_app; cbn; lia).
  destruct b; [|exact IH]. cbn [omap list_omap]. unfold Zlength at 1. rewrite Nat2Z.id.
  rewrite lookup_app_r, Nat.sub_diag by lia. cbn. f_equal. exact IH.
Qed.

Lemma sum_fee_split (l : list ShieldedTx) :
  sum_list_Z (tx_fee <$> l) = sum_list_Z (miner_fee <$> l) + sum_list_Z (burn_value <$> l).
Proof.
  induction l as [|tx l IH]; [done|]. rewrite !fmap_cons. cbn [sum_list_Z]. unfold miner_fee at 1. lia.
Qed.

(** A block the reference state accepts is valid and has its effect. *)
Lemma apply_chain_block_effect s b s' o :
  wf_tree (st_tree s) → Ledger.wf (st_supply s) → wf_block b → apply_chain_block s b.1 b.2 = Ok (s', o) →
  block_valid (st_nullifiers s) (st_tree s) (st_supply s) b.1 b.2 ∧
  block_effect (st_nullifiers s) (st_tree s) (st_supply s) b.1 b.2 (st_burns s) o
    (st_tree s') (st_supply s') (st_burns s') ∧
  st_nullifiers s' = MemNullifierSet_ops.extend (st_nullifiers s) (out_new_nullifiers o) ∧
  wf_tree (st_tree s') ∧ Ledger.wf (st_supply s').
Proof.
  intros Hwt Hws (Hcb & Htxs & Hlen) H. unfold apply_chain_block in H.
  pose proof (apply_block_cases (st_nullifiers s) (st_tree s) (st_supply s) b.1 b.2 (st_burns s) Hwt Hws Hcb Htxs Hlen) as Hc.
  case_bool_decide as Hv; [|destruct Hc as (e & Hc); rewrite Hc in H; done].
  destruct Hc as (o' & t' & s1 & br' & Hc & He). rewrite Hc in H. cbn [mbind res_bind] in H. injection H as <- ->.
  split; [done|]. split; [done|]. split; [done|]. destruct He as [_ _ _ _ _ [? _] _ E8 _ _]. split; [done|].
  cbn [st_supply]. rewrite E8. apply Hv.
Qed.

Lemma apply_represents s a b s' o :
  represents s a → wf_block b → apply_chain_block s b.1 b.2 = Ok (s', o) → represents s' (abs_apply a (b, o)).
Proof.
  intros [Hnd Hnf [Hwt Hlv] [Hws Hpool] Hbr] Hb H. destruct b as [cb txs].
  apply apply_chain_block_effect in H as (Hv & He & Hnf' & _ & _); [|done..]. cbn [fst snd] in *.
  destruct He as [E1 E2 E3 E4 E5 [E6 E6'] E7 E8 E9 E10].
  split; cbn [abs_apply abs_nullifiers abs_leaves abs_receipts abs_pool fst snd].
  - apply NoDup_app. split; [done|]. split; [|done]. intros nf Hin Hin'. rewrite Forall_forall in E4.
    specialize (E4 nf Hin'). unfold contains, MemNullifierSet_contains in E4.
    rewrite bool_decide_eq_false, Hnf in E4. set_solver.
  - rewrite Hnf', MemNullifierSet_ops.extend_set, Hnf, list_to_set_app_L. done.
  - split; [done|]. by rewrite E6', Hlv, E5.
  - destruct Hv as (_ & _ & _ & _ & Hw & _ & Hex & Hiss). rewrite E8. split; [done|].
    apply Ledger.pool_value_ok; [done|]. split; [|done].
    apply Ledger.pool_value_ok in Hpool as (Hpool & _); [|done].
    unfold block_net, accepted_txs. cbn [fst snd]. rewrite E1, (omap_select_enumerate txs [] _).
    rewrite sum_fee_split, Hpool. unfold supply_after, block_kept, Ledger.issued, Ledger.exited. cbn. lia.
  - rewrite E10, E9, Hbr, !Burn.from_receipts_eq, foldl_burn_push. cbn [Burn.leaves receipts]. by rewrite fmap_app.
Qed.

Lemma run_chain_represents bs : ∀ s a s' os,
  represents s a → Forall wf_block bs → run_chain s bs = Ok (s', os) →
  length os = length bs ∧ represents s' (foldl abs_apply a (zip bs os)).
Proof.
  induction bs as [|b bs IH]; intros s a s' os Hr Hwf H; cbn [run_chain] in H.
  { injection H as <- <-. done. }
  apply Forall_cons_1 in Hwf as [Hb Hwf].
  apply res_bind_ok in H as ([s1 o] & H1 & H). apply res_bind_ok in H as ([s2 os'] & H2 & H).
  injection H as <- <-. apply (apply_represents _ a) in H1; [|done|done].
  destruct (IH _ _ _ _ H1 Hwf H2) as [Hl Hrep]. split; [cbn; by rewrite Hl|]. done.
Qed.

(** Without receipts in the transactions, the burn accumulator does not change. *)
Lemma run_chain_no_burns bs : ∀ s s' os,
  Forall wf_block bs → Forall (λ b : block, Forall (λ tx, tx_burn tx = None) b.2) bs →
  wf_tree (st_tree s) → Ledger.wf (st_supply s) → run_chain s bs = Ok (s', os) → st_burns s' = st_burns s.
Proof.
  induction bs as [|b bs IH]; intros s s' os Hwf Hnb Ht Hs H; cbn [run_chain] in H.
  { by injection H as <- <-. }
  apply Forall_cons_1 in Hwf as [Hb Hwf]. apply Forall_cons_1 in Hnb as [Hn Hnb].
  apply res_bind_ok in H as ([s1 o] & H1 & H). apply res_bind_ok in H as ([s2 os'] & H2 & H). injection H as <- <-.
  apply apply_chain_block_effect in H1 as (_ & He & _ & Ht1 & Hs1); [|done..].
  rewrite (IH _ _ _ Hwf Hnb Ht1 Hs1 H2), (eff_burns _ _ _ _ _ _ _ _ _ _ He).
  assert (Forall (λ tx, tx_burn tx = None) (block_kept (st_nullifiers s) b.2)) as Hk by (by apply select_Forall).
  unfold receipts_of. clear -Hk. induction Hk as [|tx l Htx _ IHk]; [done|]. cbn. by rewrite Htx.
Qed.
End chain.

End state.

(** C12. The block transition is exactly its specification. On any well-formed
    tree, ledger, coinbase and transactions, [apply_chain_block_to] never
    panics; it succeeds exactly on a valid block (no burn above the proven
    value, totals that fit, room in the tree, exits covered by issuance), and
    then the kept transactions are those of first-in-order conflict resolution:
    the new nullifiers are theirs, distinct and not yet finalized, the tree gains
    the coinbase notes then their commitments, the ledger gains the minted value
    and loses exactly their fees and burns, and the receipts are theirs. *)
Theorem apply_chain_block_exact (sha256 : bytes → bytes) {O : OrchardTree} {OL : OrchardTreeLaws O}
    {S : Type} {NS : NullifierSet S} (fin : S) (tree : GlobalTree) (supply : SupplyLedger)
    (coinbase : option CoinbaseMint) (txs : list ShieldedTx) (burns : BurnAccumulator) :
  wf_tree tree → Ledger.wf supply → wf_coinbase coinbase → Forall wf_tx txs → Zlength txs <= 2 ^ 64 →
  (block_valid fin tree supply coinbase txs ∧
   ∃ o tree' supply' burns',
     apply_chain_block_to sha256 fin tree supply coinbase txs burns = Ok (o, tree', supply', burns') ∧
     block_effect sha256 fin tree supply coinbase txs burns o tree' supply' burns') ∨
  (¬ block_valid fin tree supply coinbase txs ∧
   ∃ e, apply_chain_block_to sha256 fin tree supply coinbase txs burns = Err e).
Proof.
  intros Ht Hs Hc Hx Hl. pose proof (apply_block_cases sha256 fin tree supply coinbase txs burns Ht Hs Hc Hx Hl) as H.
  case_bool_decide; [left|right]; done.
Qed.

(** C4. The reference state refines its history. Whatever sequence of well-formed
    blocks the genesis state accepts, the state it reaches represents that
    history: no nullifier was ever accepted twice and the nullifier set holds
    exactly the accepted ones, the tree's leaves are all the accepted
    commitments in order, the pool value is all that was minted minus the value
    balance of every accepted transaction (and is not negative), and the burn
    accumulator is that of all the receipts in order. *)
Theorem shielded_chain_refines_history (sha256 : bytes → bytes) {O : OrchardTree} {OL : OrchardTreeLaws O}
    (bs : list block) (s : ShieldedState) (os : list BlockShieldedOutcome) :
  Forall wf_block bs → run_chain sha256 state_new bs = Ok (s, os) →
  length os = length bs ∧ represents sha256 s (foldl abs_apply abs_new (zip bs os)) ∧
  0 <= abs_pool (foldl abs_apply abs_new (zip bs os)).
Proof.
  intros Hwf Hrun. destruct (run_chain_represents sha256 bs _ _ _ _ (represents_new sha256) Hwf Hrun) as [Hl Hr].
  split; [done|]. split; [done|]. destruct Hr as [_ _ _ [Hw Hp] _].
  apply Ledger.pool_value_ok in Hp as (-> & ? & _); [lia|done].
Qed.

(** The transition does not depend on the store behind the nullifier set: two
    sets with the same members give the same outcome, tree, ledger and burn
    accumulator, or the same error. So a database-backed set and the in-memory
    reference agree on every block. *)
Theorem apply_chain_block_store_agnostic (sha256 : bytes → bytes) {O : OrchardTree}
    {S1 S2 : Type} {NS1 : NullifierSet S1} {NS2 : NullifierSet S2} (f1 : S1) (f2 : S2)
    (tree : GlobalTree) (supply : SupplyLedger) (coinbase : option CoinbaseMint)
    (txs : list ShieldedTx) (burns : BurnAccumulator) :
  (∀ nf, contains f1 nf = contains f2 nf) →
  apply_chain_block_to sha256 f1 tree supply coinbase txs burns =
  apply_chain_block_to sha256 f2 tree supply coinbase txs burns.
Proof. apply apply_same. Qed.

Lemma extract_commitments_ok {O : OrchardTree} l cs :
  extract_commitments l = Ok cs ↔ Forall2 (λ a c, cmx_from_bytes (cmx a) = Some c) l cs.
Proof.
  revert cs. induction l as [|a l IH]; intros cs; cbn.
  - split; [intros [= <-]; constructor|]. by intros ->%Forall2_nil_inv_l.
  - rewrite res_bind_ok. setoid_rewrite ok_or_ok. split.
    + intros (c & Hc & H). apply res_bind_ok in H as (cs' & H & [= <-]). constructor; [done|]. by apply IH.
    + intros H. apply Forall2_cons_inv_l in H as (c & cs' & Hc & H & ->). exists c. split; [done|].
      apply IH in H. by rewrite H.
Qed.

Section lift.
Context {O : OrchardTree}.
Implicit Types b : ShieldedBundle.

Lemma from_bundle_iff b tx : from_bundle b = Ok tx ↔
  (∃ cs, Forall2 (λ a c, cmx_from_bytes (cmx a) = Some c) (actions b) cs ∧
     tx = mkShieldedTx (nullifier <$> actions b) cs (value_balance b) (Bundle.anchor b) None (anchor_block b)) ∧
  0 <= value_balance b ∧ Bundle.burn b = None.
Proof.
  unfold from_bundle, extract_burn. rewrite res_bind_ok. setoid_rewrite extract_commitments_ok.
  destruct (Z.ltb_spec (value_balance b) 0); [naive_solver lia|].
  destruct (Bundle.burn b) as [[v r]|]; cbn; naive_solver.
Qed.
Lemma from_bundle_total b : from_bundle b ≠ Panic.
Proof.
  unfold from_bundle. assert (extract_commitments (actions b) ≠ Panic) as Hn.
  { generalize (actions b). intros l. induction l as [|a l IH]; cbn; [done|].
    destruct (cmx_from_bytes (cmx a)); cbn; [|done]. destruct (extract_commitments l); cbn; congruence. }
  destruct (extract_commitments (actions b)); cbn; [|done|done]. destruct (_ <? 0); [done|].
  unfold extract_burn. by destruct (Bundle.burn b) as [[v r]|].
Qed.
Lemma from_bundle_wf field b tx : canonical field b → from_bundle b = Ok tx → wf_tx tx ∧ burn_ok tx.
Proof. intros (_ & [_ Hv] & _) ((cs & _ & ->) & ? & _)%from_bundle_iff. unfold wf_tx, burn_ok, burn_value, is_uint. cbn. lia. Qed.
End lift.

(** What reaches the state from a bundle, with the bridge switched off: a
    bundle is lifted exactly when every note commitment is canonical, its value
    balance is not negative and it declares no burn; the effects are then its
    nullifiers and commitments in action order, its value balance as the fee, and
    no exit receipt. Extraction never panics, and a burn is always refused. *)
Theorem from_bundle_exact {O : OrchardTree} (field : bool) (b : ShieldedBundle) :
  canonical field b →
  (∀ tx, from_bundle b = Ok tx ↔
     (∃ cs, Forall2 (λ a c, cmx_from_bytes (cmx a) = Some c) (actions b) cs ∧
        tx = mkShieldedTx (nullifier <$> actions b) cs (value_balance b) (Bundle.anchor b) None (anchor_block b)) ∧
     0 <= value_balance b ∧ Bundle.burn b = None) ∧
  (∀ tx, from_bundle b = Ok tx → wf_tx tx ∧ burn_ok tx) ∧ from_bundle b ≠ Panic.
Proof.
  intros Hc. split; [apply from_bundle_iff|]. split; [|apply from_bundle_total].
  intros tx. by apply (from_bundle_wf field).
Qed.

(** A chain with the bridge off is one that never had the seam: when every
    transaction of every block comes from a bundle, the burn accumulator stays
    empty and its root is the all-zero constant folded into the state root. *)
Theorem bridge_off_no_burns (sha256 : bytes → bytes) {O : OrchardTree} {OL : OrchardTreeLaws O}
    (bs : list block) (s : ShieldedState) (os : list BlockShieldedOutcome) :
  Forall wf_block bs →
  Forall (λ b : block, Forall (λ tx, ∃ bundle, from_bundle bundle = Ok tx) b.2) bs →
  run_chain sha256 state_new bs = Ok (s, os) →
  st_burns s = Burn.new ∧ Burn.root sha256 (st_burns s) = Ok EMPTY_LEAF.
Proof.
  intros Hwf Hfb Hrun.
  enough (st_burns s = Burn.new) as -> by done.
  assert (∀ b tx, from_bundle b = Ok tx → tx_burn tx = None) as Hnb.
  { intros b tx H. unfold from_bundle, extract_burn in H. apply res_bind_ok in H as (cs & _ & H).
    destruct (_ <? 0); [done|]. destruct (Bundle.burn b) as [[v r]|]; cbn in H; [done|]. by injection H as <-. }
  apply (run_chain_no_burns sha256 bs _ _ _ Hwf) in Hrun; [done| |apply wf_tree_new|vm_compute; naive_solver].
  eapply Forall_impl; [exact Hfb|]. intros b Hb. eapply Forall_impl; [exact Hb|]. intros tx [bu H]. eauto.
Qed.

(** ** Witnesses *)

Definition example_tx (nfs : list bytes) (cs : list Z) (fee : Z) : ShieldedTx (O := example_tree) :=
  mkShieldedTx (O := example_tree) nfs cs fee (zeros 32) None None.
Definition example_coinbase : option (CoinbaseMint (O := example_tree)) :=
  Some (mkCoinbaseMint (O := example_tree) [mkCoinbaseNote (O := example_tree) 50 11; mkCoinbaseNote (O := example_tree) 20 12]).
Definition example_block : block (O := example_tree) :=
  (example_coinbase, [example_tx [[1]; [2]] [21] 4; example_tx [[3]; [1]] [22] 5; example_tx [[3]] [23] 6]).

Lemma apply_chain_block_exact_witness :
  ∃ o tree' supply' burns',
    apply_chain_block_to example_hash MemNullifierSet_ops.new (tree_new (O := example_tree)) Ledger.new
      example_block.1 example_block.2 Burn.new = Ok (o, tree', supply', burns') ∧
    out_accepted o = [0; 2] ∧ supply' = Ledger.from_totals 70 10.
Proof.
  destruct (apply_chain_block_exact (OL := example_tree_laws) example_hash MemNullifierSet_ops.new
    (tree_new (O := example_tree)) Ledger.new example_block.1 example_block.2 Burn.new) as [[_ H]|[H _]].
  - split; vm_compute; congruence.
  - decide_by_eval.
  - split; [decide_by_eval|vm_compute; congruence].
  - decide_by_eval.
  - vm_compute. congruence.
  - destruct H as (o & t & s & b & H & _). exists o, t, s, b. split; [exact H|].
    assert (match apply_chain_block_to example_hash MemNullifierSet_ops.new (tree_new (O := example_tree)) Ledger.new
      example_block.1 example_block.2 Burn.new with Ok (o, _, s, _) => Some (out_accepted o, s) | _ => None end
      = Some ([0; 2], Ledger.from_totals 70 10)) as Hev by (vm_compute; reflexivity).
    rewrite H in Hev. injection Hev as -> ->. split; reflexivity.
  - destruct H. decide_by_eval.
Defined.

Definition example_chain : list (block (O := example_tree)) :=
  [example_block; (None, [example_tx [[2]] [31] 1; example_tx [[7]] [32] 2])].

Lemma example_chain_wf : Forall wf_block example_chain.
Proof.
  apply Forall_cons. split; [|apply Forall_singleton];
    (split; [split; [decide_by_eval|vm_compute; congruence]|]; split; [decide_by_eval|vm_compute; congruence]).
Qed.

Lemma shielded_chain_refines_history_witness :
  ∃ s os, run_chain (O := example_tree) example_hash state_new example_chain = Ok (s, os) ∧ length os = 2%nat.
Proof.
  assert (is_ok (run_chain (O := example_tree) example_hash state_new example_chain) = true) as Hok by (vm_compute; reflexivity).
  destruct (run_chain (O := example_tree) example_hash state_new example_chain) as [[s os]|e|] eqn:E; [|done|done].
  exists s, os. split; [reflexivity|].
  apply (shielded_chain_refines_history (OL := example_tree_laws) example_hash example_chain s os example_chain_wf E).
Defined.

#[local] Instance list_nullifier_set : NullifierSet (list bytes) := λ l nf, bool_decide (nf ∈ l).

Lemma apply_chain_block_store_agnostic_witness :
  apply_chain_block_to example_hash ([[9]] : list bytes) (tree_new (O := example_tree)) Ledger.new
    example_block.1 example_block.2 Burn.new =
  apply_chain_block_to example_hash (mkMemNullifierSet {[ [9] ]}) (tree_new (O := example_tree)) Ledger.new
    example_block.1 example_block.2 Burn.new.
Proof.
  apply (apply_chain_block_store_agnostic example_hash ([[9]] : list bytes) (mkMemNullifierSet {[ [9] ]})).
  intros nf. unfold contains, list_nullifier_set, MemNullifierSet_contains. apply bool_decide_ext. set_solver.
Defined.

Definition burnless_bundle : ShieldedBundle :=
  mkShieldedBundle [example_action] 3 100 (zeros 32) (zeros 4992) (zeros 64) None None.

Lemma burnless_bundle_canonical : canonical true burnless_bundle.
Proof.
  unfold canonical. split_and!; [decide_by_eval|decide_by_eval|decide_by_eval|decide_by_eval|
    vm_compute; congruence|decide_by_eval|split; [decide_by_eval|vm_compute; congruence]|done|done].
Qed.

Lemma from_bundle_exact_witness :
  from_bundle (O := example_tree) burnless_bundle =
    Ok (mkShieldedTx (O := example_tree) [zeros 32] [0] 100 (zeros 32) None None).
Proof.
  apply (proj1 (from_bundle_exact (O := example_tree) true burnless_bundle burnless_bundle_canonical)).
  split; [|done]. exists [0]. split; [|reflexivity]. repeat constructor.
Defined.

Definition example_bundle_chain : list (block (O := example_tree)) :=
  [(example_coinbase, [mkShieldedTx (O := example_tree) [zeros 32] [0] 60 (zeros 32) None None]); (None, [])].

Lemma bridge_off_no_burns_witness :
  ∃ s os, run_chain (O := example_tree) example_hash state_new example_bundle_chain = Ok (s, os) ∧ st_burns s = Burn.new.
Proof.
  assert (is_ok (run_chain (O := example_tree) example_hash state_new example_bundle_chain) = true) as Hok by (vm_compute; reflexivity).
  destruct (run_chain (O := example_tree) example_hash state_new example_bundle_chain) as [[s os]|e|] eqn:E; [|done|done].
  exists s, os. split; [reflexivity|].
  apply (bridge_off_no_burns (OL := example_tree_laws) example_hash example_bundle_chain s os); [| |exact E].
  - apply Forall_cons. split; [|apply Forall_singleton];
      (split; [split; [decide_by_eval|vm_compute; congruence]|]; split; [decide_by_eval|vm_compute; congruence]).
  - apply Forall_cons. split; [|apply Forall_singleton; constructor]. apply Forall_singleton.
    exists (mkShieldedBundle [example_action] 3 60 (zeros 32) (zeros 4992) (zeros 64) None None). reflexivity.
Defined.
