(* ===== verification/StateRoot.v ===== *)
(** * The shielded state root

    Model of [shielded-core/src/commitment.rs]: the digest that binds the tree
    anchor, the nullifier accumulator, the turnstile totals and the burn root,
    and the post-fork digest that adds the values a syncing node previously took
    on trust. Blake2b with a personalisation string is a parameter. *)

From Stdlib Require Import String.
From S2P Require Import Prelude.

Definition STATE_ROOT_PERSONAL : bytes := byte_str "zkas_state_root0".
Definition STATE_ROOT_V1_PERSONAL : bytes := byte_str "zkas_state_root1".

Record MinerAccrualRef : Type := mkMinerAccrualRef {
  script_version : Z;
  script : bytes;
  amount : Z;
}.

(** The five inputs of the first root. *)
Record RootInputs : Type := mkRootInputs {
  ri_anchor : bytes;
  ri_nullifier_root : bytes;
  ri_coinbase : Z;
  ri_fees : Z;
  ri_burn_root : bytes;
}.

Section root.
Context (blake2b : bytes → bytes → bytes).

Definition root_preimage (i : RootInputs) : bytes :=
  ri_anchor i ++ ri_nullifier_root i ++ to_le_bytes 16 (ri_coinbase i) ++ to_le_bytes 16 (ri_fees i) ++ ri_burn_root i.
Definition shielded_state_root (i : RootInputs) : bytes := blake2b STATE_ROOT_PERSONAL (root_preimage i).

Definition root_v1_preimage (root_v0 : bytes) (dev_accrued : Z) (anchor_window_commitment : bytes)
    (m : MinerAccrualRef) : bytes :=
  root_v0 ++ to_le_bytes 8 dev_accrued ++ anchor_window_commitment ++ to_le_bytes 2 (script_version m) ++
  to_le_bytes 4 (wrap 32 (Zlength (script m))) ++ script m ++ to_le_bytes 8 (amount m).
Definition shielded_state_root_v1 (root_v0 : bytes) (dev_accrued : Z) (anchor_window_commitment : bytes)
    (m : MinerAccrualRef) : bytes :=
  blake2b STATE_ROOT_V1_PERSONAL (root_v1_preimage root_v0 dev_accrued anchor_window_commitment m).

Definition wf_inputs (i : RootInputs) : Prop :=
  is_array 32 (ri_anchor i) ∧ is_array 32 (ri_nullifier_root i) ∧ is_u128 (ri_coinbase i) ∧ is_u128 (ri_fees i) ∧
  is_array 32 (ri_burn_root i).
Definition wf_accrual (m : MinerAccrualRef) : Prop :=
  is_u16 (script_version m) ∧ wf_bytes (script m) ∧ Zlength (script m) < 2 ^ 32 ∧ is_u64 (amount m).

#[export] Instance wf_inputs_dec i : Decision (wf_inputs i).
Proof. unfold wf_inputs. apply _. Defined.
#[export] Instance wf_accrual_dec m : Decision (wf_accrual m).
Proof. unfold wf_accrual. apply _. Defined.

Lemma le_bytes_app_inj n x y a b :
  0 <= n → is_uint (8 * n) x → is_uint (8 * n) y → to_le_bytes n x ++ a = to_le_bytes n y ++ b → x = y ∧ a = b.
Proof.
  intros Hn Hx Hy H. apply app_inj_1 in H as [H ->]; [|by rewrite !length_to_le_bytes].
  split; [|done]. by apply (to_le_bytes_inj n).
Qed.

Lemma array_app_inj n (x y a b : bytes) : is_array n x → is_array n y → x ++ a = y ++ b → x = y ∧ a = b.
Proof. intros [Hx _] [Hy _] H. apply app_inj_1 in H; [done|congruence]. Qed.

Lemma root_preimage_inj i j : wf_inputs i → wf_inputs j → root_preimage i = root_preimage j → i = j.
Proof.
  destruct i, j. intros (I1 & I2 & I3 & I4 & I5) (J1 & J2 & J3 & J4 & J5) H. unfold root_preimage in H.
  cbn [ri_anchor ri_nullifier_root ri_coinbase ri_fees ri_burn_root] in *.
  apply (array_app_inj 32) in H as [-> H]; [|done..]. apply (array_app_inj 32) in H as [-> H]; [|done..].
  apply le_bytes_app_inj in H as [-> H]; [|done..]. apply le_bytes_app_inj in H as [-> ->]; [|done..]. done.
Qed.

Lemma root_v1_preimage_inj r1 d1 w1 m1 r2 d2 w2 m2 :
  length r1 = 32%nat → length r2 = 32%nat → is_u64 d1 → is_u64 d2 → is_array 32 w1 → is_array 32 w2 →
  wf_accrual m1 → wf_accrual m2 →
  root_v1_preimage r1 d1 w1 m1 = root_v1_preimage r2 d2 w2 m2 → r1 = r2 ∧ d1 = d2 ∧ w1 = w2 ∧ m1 = m2.
Proof.
  destruct m1 as [v1 s1 a1], m2 as [v2 s2 a2].
  intros Hr1 Hr2 Hd1 Hd2 Hw1 Hw2 (V1 & B1 & L1 & A1) (V2 & B2 & L2 & A2) H.
  unfold root_v1_preimage, wrap in H. cbn [script_version script amount] in *.
  assert (is_u32 (Zlength s1) ∧ is_u32 (Zlength s2)) as [U1 U2] by (unfold is_uint, Zlength in *; lia).
  rewrite !Z.mod_small in H by done.
  apply app_inj_1 in H as [-> H]; [|congruence]. apply le_bytes_app_inj in H as [-> H]; [|done..].
  apply (array_app_inj 32) in H as [-> H]; [|done..]. apply le_bytes_app_inj in H as [-> H]; [|done..].
  apply le_bytes_app_inj in H as [Hl H]; [|done..]. unfold Zlength in Hl.
  apply app_inj_1 in H as [-> H]; [|lia].
  apply to_le_bytes_inj in H as ->; [done|done|done|done].
Qed.
End root.

(** C35. The post-fork state root binds the whole shielded state: when two states
    have the same root, and Blake2b has no collision on the inputs hashed for
    them, they agree on the anchor, the nullifier root, both turnstile totals,
    the burn root, the dev-fee accrual, the anchor-window commitment and the
    miner-accrual slot, script and amount included. *)
Theorem state_root_v1_binding (blake2b : bytes → bytes → bytes) i1 d1 w1 m1 i2 d2 w2 m2 :
  (∀ p x, length (blake2b p x) = 32%nat) →
  wf_inputs i1 → wf_inputs i2 → is_u64 d1 → is_u64 d2 → is_array 32 w1 → is_array 32 w2 →
  wf_accrual m1 → wf_accrual m2 →
  let r1 := shielded_state_root blake2b i1 in
  let r2 := shielded_state_root blake2b i2 in
  (blake2b STATE_ROOT_PERSONAL (root_preimage i1) = blake2b STATE_ROOT_PERSONAL (root_preimage i2) →
     root_preimage i1 = root_preimage i2) →
  (blake2b STATE_ROOT_V1_PERSONAL (root_v1_preimage r1 d1 w1 m1) =
     blake2b STATE_ROOT_V1_PERSONAL (root_v1_preimage r2 d2 w2 m2) →
     root_v1_preimage r1 d1 w1 m1 = root_v1_preimage r2 d2 w2 m2) →
  shielded_state_root_v1 blake2b r1 d1 w1 m1 = shielded_state_root_v1 blake2b r2 d2 w2 m2 →
  i1 = i2 ∧ d1 = d2 ∧ w1 = w2 ∧ m1 = m2.
Proof.
  intros Hlen Hi1 Hi2 Hd1 Hd2 Hw1 Hw2 Hm1 Hm2 r1 r2 Hc0 Hc1 H.
  apply Hc1, root_v1_preimage_inj in H as (Hr & -> & -> & ->); [|apply Hlen|apply Hlen|done..].
  apply Hc0, root_preimage_inj in Hr as ->; [|done..]. done.
Qed.

Lemma state_root_v1_binding_witness :
  let h := λ p x, example_hash (p ++ x) in
  let i := mkRootInputs (zeros 32) (zeros 32) 7 3 (zeros 32) in
  let m := mkMinerAccrualRef 1 [1; 2] 5 in
  i = i ∧ 9 = 9 ∧ zeros 32 = zeros 32 ∧ m = m.
Proof.
  intros h i m. apply (state_root_v1_binding h i 9 (zeros 32) m i 9 (zeros 32) m);
    first [decide_by_eval|done|intros p x; apply length_example_hash].
Defined.
