(* ===== verification/Limbs.v ===== *)
(** Multi-precision integers as little-endian lists of 64-bit limbs: values, bounds,
    uniqueness, and the column form of a product.  Shared by the integers of
    math/src/uint.rs and the field elements of crypto/muhash/src/u3072.rs. *)
From stdpp Require Import base gmap list.
From S2P Require Import Prelude.

(** ** Values *)

Definition B : Z := 2 ^ 64.
Lemma B_gt1 : 1 < B.
Proof. done. Qed.
#[global] Opaque B.

Fixpoint limbs_value (l : list Z) : Z := match l with [] => 0 | x :: l => x + B * limbs_value l end.
Definition limb (x : Z) : Prop := 0 <= x < B.
Definition wf_limbs (n : nat) (l : list Z) : Prop := length l = n ∧ Forall limb l.

Lemma is_u64_limb x : is_u64 x ↔ limb x.
Proof. done. Qed.

Lemma limbs_value_bound l : Forall limb l → 0 <= limbs_value l < B ^ Z.of_nat (length l).
Proof.
  pose proof B_gt1. induction 1 as [|x l Hx Hl IH]; cbn [limbs_value length]; [lia|].
  rewrite Nat2Z.inj_succ, Z.pow_succ_r by lia. unfold limb in Hx. nia.
Qed.
Lemma limbs_value_app l k : limbs_value (l ++ k) = limbs_value l + B ^ Z.of_nat (length l) * limbs_value k.
Proof.
  induction l as [|x l IH]; cbn [limbs_value length app]; [lia|]. rewrite IH, Nat2Z.inj_succ, Z.pow_succ_r by lia. lia.
Qed.
Lemma limbs_value_snoc l x : limbs_value (l ++ [x]) = limbs_value l + B ^ Z.of_nat (length l) * x.
Proof. rewrite limbs_value_app. cbn [limbs_value]. lia. Qed.
Lemma limbs_value_inj l k : length l = length k → Forall limb l → Forall limb k → limbs_value l = limbs_value k → l = k.
Proof.
  pose proof B_gt1. intros Hlen Hl. revert k Hlen. induction Hl as [|x l Hx Hl IH]; intros [|y k] Hlen Hk He; try done.
  apply Forall_cons in Hk as [Hy Hk]. unfold limb in Hx, Hy. cbn [limbs_value] in He. cbn in Hlen.
  assert (limbs_value l = limbs_value k) as Hv.
  { pose proof (limbs_value_bound l Hl). pose proof (limbs_value_bound k Hk). nia. }
  rewrite Hv in He. f_equal; [lia|]. apply IH; [lia|done|done].
Qed.
Lemma limbs_value_repeat n : limbs_value (replicate n 0) = 0.
Proof. induction n as [|n IH]; cbn [replicate limbs_value]; [done|]. rewrite IH. lia. Qed.
Lemma limbs_zeros n : Forall limb (replicate n 0).
Proof. apply Forall_replicate. pose proof B_gt1. unfold limb. lia. Qed.
Lemma limbs_value_max n : limbs_value (replicate n (B - 1)) = B ^ Z.of_nat n - 1.
Proof. induction n as [|n IH]; cbn [replicate limbs_value]; [lia|]. rewrite IH, Nat2Z.inj_succ, Z.pow_succ_r by lia. lia. Qed.

(** [overflowing_add] of a limb. *)
Definition overflowing_add (a b : Z) : Z * bool := (wrap 64 (a + b), 2 ^ 64 <=? a + b).
Lemma overflowing_add_spec a b : limb a → limb b →
  let '(s, o) := overflowing_add a b in limb s ∧ s + B * Z.b2z o = a + b.
Proof.
  unfold limb. intros Ha Hb. unfold overflowing_add, wrap. change (2 ^ 64) with B. pose proof B_gt1. split; [apply Z.mod_pos_bound; lia|].
  destruct (Z.leb_spec B (a + b)); cbn [Z.b2z].
  - replace (a + b) with ((a + b - B) + 1 * B) at 1 by lia. rewrite Z.mod_add, Z.mod_small by lia. lia.
  - rewrite Z.mod_small by lia. lia.
Qed.

(** ** Sums over an initial segment *)

Fixpoint sumn (n : nat) (f : nat → Z) : Z := match n with O => 0 | S n => sumn n f + f n end.

Lemma sumn_ext n f g : (∀ i, (i < n)%nat → f i = g i) → sumn n f = sumn n g.
Proof. induction n as [|n IH]; intros H; cbn; [done|]. rewrite IH, H by (intros; auto with lia). done. Qed.
Lemma sumn_add n f g : sumn n (λ i, f i + g i) = sumn n f + sumn n g.
Proof. induction n as [|n IH]; cbn; [done|]. rewrite IH. lia. Qed.
Lemma sumn_scale n c f : sumn n (λ i, c * f i) = c * sumn n f.
Proof. induction n as [|n IH]; cbn; [lia|]. rewrite IH. lia. Qed.
Lemma sumn_zero n : sumn n (λ _, 0) = 0.
Proof. induction n as [|n IH]; cbn; [done|]. by rewrite IH. Qed.
Lemma sumn_swap n m f : sumn n (λ i, sumn m (λ j, f i j)) = sumn m (λ j, sumn n (λ i, f i j)).
Proof.
  induction n as [|n IH]; cbn; [by rewrite sumn_zero|]. by rewrite IH, <- sumn_add.
Qed.
Lemma sumn_split n m f : sumn (n + m) f = sumn n f + sumn m (λ i, f (n + i)%nat).
Proof.
  induction m as [|m IH]; cbn; [rewrite Nat.add_0_r; lia|]. rewrite Nat.add_succ_r. cbn. rewrite IH. lia.
Qed.
Lemma sumn_le n f c : (∀ i, (i < n)%nat → f i <= c) → sumn n f <= Z.of_nat n * c.
Proof.
  induction n as [|n IH]; intros H; cbn [sumn]; [lia|]. rewrite Nat2Z.inj_succ. specialize (IH ltac:(auto with lia)).
  pose proof (H n ltac:(lia)). lia.
Qed.
Lemma sumn_nonneg n f : (∀ i, (i < n)%nat → 0 <= f i) → 0 <= sumn n f.
Proof. induction n as [|n IH]; intros H; cbn; [done|]. pose proof (H n ltac:(lia)). specialize (IH ltac:(auto with lia)). lia. Qed.

Lemma limbs_value_sum l : limbs_value l = sumn (length l) (λ i, nth i l 0 * B ^ Z.of_nat i).
Proof.
  induction l as [|x l IH] using rev_ind; [done|]. rewrite limbs_value_snoc, length_app, Nat.add_1_r. cbn [sumn].
  rewrite app_nth2, Nat.sub_diag by lia. cbn [nth]. rewrite IH. rewrite (Z.mul_comm (B ^ _)). f_equal.
  apply sumn_ext. intros i Hi. by rewrite app_nth1.
Qed.

(** ** Products by columns

    The limbs of a product below the length, and those above it shifted down. *)

Definition low_column (n : nat) (a b : nat → Z) (j : nat) : Z := sumn n (λ i, if (i <=? j)%nat then a i * b (j - i)%nat else 0).
Definition high_column (n : nat) (a b : nat → Z) (j : nat) : Z := sumn n (λ i, if (i <=? j)%nat then 0 else a i * b (n + j - i)%nat).

Lemma row_split n (b : nat → Z) i : (i < n)%nat →
  B ^ Z.of_nat i * sumn n (λ k, b k * B ^ Z.of_nat k) =
  sumn n (λ j, if (i <=? j)%nat then b (j - i)%nat * B ^ Z.of_nat j else b (n + j - i)%nat * B ^ Z.of_nat (n + j)).
Proof.
  intros Hi. assert (∀ f, sumn n f = sumn (n - i) f + sumn i (λ j, f (n - i + j)%nat)) as E1.
  { intros f. rewrite <- sumn_split. f_equal. lia. }
  assert (∀ f, sumn n f = sumn i f + sumn (n - i) (λ j, f (i + j)%nat)) as E2.
  { intros f. rewrite <- sumn_split. f_equal. lia. }
  rewrite E1, E2, Z.mul_add_distr_l, Z.add_comm, <- !sumn_scale. f_equal.
  - apply sumn_ext. intros j Hj. destruct (Nat.leb_spec i j); [lia|]. replace (n + j - i)%nat with (n - i + j)%nat by lia.
    replace (Z.of_nat (n + j)) with (Z.of_nat i + Z.of_nat (n - i + j)) by lia. rewrite Z.pow_add_r by lia. lia.
  - apply sumn_ext. intros j Hj. destruct (Nat.leb_spec i (i + j)); [|lia]. replace (i + j - i)%nat with j by lia.
    rewrite Nat2Z.inj_add, Z.pow_add_r by lia. lia.
Qed.

Lemma product_columns n (a b : nat → Z) :
  sumn n (λ i, a i * B ^ Z.of_nat i) * sumn n (λ i, b i * B ^ Z.of_nat i) =
  sumn n (λ j, low_column n a b j * B ^ Z.of_nat j) + B ^ Z.of_nat n * sumn n (λ j, high_column n a b j * B ^ Z.of_nat j).
Proof.
  rewrite <- (sumn_scale n (B ^ Z.of_nat n)), <- sumn_add. unfold low_column, high_column.
  transitivity (sumn n (λ j, sumn n (λ i, a i * (if (i <=? j)%nat then b (j - i)%nat * B ^ Z.of_nat j else b (n + j - i)%nat * B ^ Z.of_nat (n + j))))).
  - rewrite sumn_swap. rewrite Z.mul_comm, <- sumn_scale. apply sumn_ext. intros i Hi. rewrite sumn_scale, <- row_split by done. lia.
  - apply sumn_ext. intros j Hj. rewrite (Z.mul_comm (sumn n _) (B ^ Z.of_nat j)), (Z.mul_comm (sumn n _) (B ^ Z.of_nat j)), Z.mul_assoc.
    rewrite <- Z.pow_add_r, <- Nat2Z.inj_add, <- !sumn_scale, <- sumn_add by lia. apply sumn_ext. intros i Hi.
    destruct (i <=? j)%nat; lia.
Qed.
