(* ===== verification/MuHash.v ===== *)
(** The multiplicative set hash (crypto/muhash).

    Module [U3072] models u3072.rs limb by limb: elements of the field modulo
    [2^3072 - 1103717] as 48 limbs, with the interleaved reduction of the product.
    The rest models lib.rs.  The hash functions, the ChaCha20 stream and the modular
    inverse of the malachite crate are parameters.

    The theorems show that the limb product is the product of the field and never
    panics, and that the finalized hash depends only on the multisets of the elements
    added and removed. *)
From stdpp Require Import base gmap list.
From S2P Require Import Prelude Limbs.

Module U3072.

Definition LIMBS : nat := 48.
Definition PRIME_DIFF : Z := 1103717.
Definition zero : list Z := replicate LIMBS 0.
Definition one : list Z := <[0%nat := 1]> zero.
Definition idx (l : list Z) (i : nat) : exec Z := unwrap (l !! i).

Definition is_overflow (self : list Z) : exec bool :=
  l0 ← idx self 0;
  if l0 <=? u64_max - PRIME_DIFF then Ok false else Ok (forallb (λ limb, limb =? u64_max) (drop 1 self)).

Definition from_le_bytes (b : bytes) : list Z := zip_with (λ chunk _, Prelude.from_le_bytes chunk) (chunks_exact 8 b) zero.
Definition to_le_bytes (self : list Z) : bytes := mjoin (Prelude.to_le_bytes 8 <$> self).

(** One limb of a sum with its carries. *)
Definition carry_step (low high limb : Z) : Z * Z * Z :=
  let '(low, overflow) := overflowing_add low limb in
  let '(high, overflow) := overflowing_add high (Z.b2z overflow) in
  (low, high, Z.b2z overflow).
Definition full_reduce (self : list Z) : list Z :=
  (foldl (λ '(low, high, done) limb, let '(limb, low, high) := carry_step low high limb in (low, high, done ++ [limb]))
    (PRIME_DIFF, 0, []) self).2.

Definition mul_wide (a b : Z) : exec (Z * Z) :=
  t ← mul_u 128 a b; Ok (wrap 64 t, wrap 64 (Z.shiftr t 64)).

Definition mulnadd3 (c0 c1 d0 d1 d2 n : Z) : exec (Z * Z * Z) :=
  m ← mul_u 128 d0 n;
  t ← add_u 128 m c0;
  let c0 := wrap 64 t in
  let t := Z.shiftr t 64 in
  m ← mul_u 128 d1 n;
  s ← add_u 128 m c1;
  t ← add_u 128 t s;
  let c1 := wrap 64 t in
  let t := Z.shiftr t 64 in
  m ← mul_u 64 d2 n;
  c2 ← add_u 64 (wrap 64 t) m;
  Ok (c0, c1, c2).

Definition muladd3 (a b low high carry : Z) : exec (Z * Z * Z) :=
  '(tl, th) ← mul_wide a b;
  let '(low, overflow) := overflowing_add low tl in
  th ← add_u 64 th (Z.b2z overflow);
  let '(high, overflow) := overflowing_add high th in
  carry ← add_u 64 carry (Z.b2z overflow);
  Ok (low, high, carry).

Definition muln2 (low high n : Z) : exec (Z * Z) :=
  tmp ← mul_u 128 low n;
  let low := wrap 64 tmp in
  let tmp := Z.shiftr tmp 64 in
  m ← mul_u 128 high n;
  tmp ← add_u 128 tmp m;
  Ok (low, wrap 64 tmp).

(** [muladd3] over the limbs [i] of [self] and [g i] of [other]. *)
Definition muladd_loop (self other : list Z) (g : nat → nat) (acc : Z * Z * Z) (ixs : list nat) : exec (Z * Z * Z) :=
  res_foldl (λ '(low, high, carry) i, a ← idx self i; b ← idx other (g i); muladd3 a b low high carry) acc ixs.

(** One limb of the product, with the limb above it reduced. *)
Definition mul_column (self other : list Z) (s : Z * Z * Z * list Z) (j : nat) : exec (Z * Z * Z * list Z) :=
  let '(carry_low, carry_high, carry_highest, tmp) := s in
  a ← idx self (j + 1);
  b ← idx other (LIMBS + j - (1 + j));
  '(low, high) ← mul_wide a b;
  '(low, high, carry) ← muladd_loop self other (λ i, LIMBS + j - i)%nat (low, high, 0) (seq (2 + j) (LIMBS - (2 + j)));
  '(carry_low, carry_high, carry_highest) ← mulnadd3 carry_low carry_high low high carry PRIME_DIFF;
  '(carry_low, carry_high, carry_highest) ←
    muladd_loop self other (λ i, j - i)%nat (carry_low, carry_high, carry_highest) (seq 0 (j + 1));
  Ok (carry_high, carry_highest, 0, <[j := carry_low]> tmp).

(** The second reduction: add the carries to the limbs. *)
Definition add_carries (tmp : list Z) (s : Z * Z * list Z) (i : nat) : exec (Z * Z * list Z) :=
  let '(carry_low, carry_high, self) := s in
  t ← idx tmp i;
  let '(limb, carry_low, carry_high) := carry_step carry_low carry_high t in
  Ok (carry_low, carry_high, <[i := limb]> self).

Definition mul (self other : list Z) : exec (list Z) :=
  if bool_decide (self = one) then Ok other else
  '(carry_low, carry_high, carry_highest, tmp) ← res_foldl (mul_column self other) (0, 0, 0, one) (seq 0 (LIMBS - 1));
  guard_panic (carry_highest =? 0) ;;
  '(carry_low, carry_high, carry_highest) ←
    muladd_loop self other (λ i, LIMBS - 1 - i)%nat (carry_low, carry_high, carry_highest) (seq 0 LIMBS);
  let tmp := <[(LIMBS - 1)%nat := carry_low]> tmp in
  '(carry_low, carry_high) ← muln2 carry_high carry_highest PRIME_DIFF;
  '(carry_low, carry_high, self) ← res_foldl (add_carries tmp) (carry_low, carry_high, self) (seq 0 LIMBS);
  guard_panic (carry_high =? 0) ;;
  guard_panic ((carry_low =? 0) || (carry_low =? 1)) ;;
  overflow ← is_overflow self;
  let self := if (overflow : bool) then full_reduce self else self in
  Ok (if carry_low =? 0 then self else full_reduce self).

(** [Natural::into_limbs_asc]: the limbs of a number without leading zeros. *)
Fixpoint limbs_asc (fuel : nat) (n : Z) : list Z :=
  match fuel with
  | O => []
  | S fuel => if n =? 0 then [] else n mod 2 ^ 64 :: limbs_asc fuel (n / 2 ^ 64)
  end.
Definition into_limbs_asc (n : Z) : list Z := limbs_asc (S (Z.to_nat (Z.log2 n))) n.

Definition UINT_PRIME : list Z := <[0%nat := u64_max - (PRIME_DIFF - 1)]> (replicate LIMBS u64_max).

Section division.
(** [Natural::mod_inverse] of the malachite crate, and [cfg!(debug_assertions)]. *)
Context (natural_mod_inverse : Z → Z → option Z) (debug_assertions : bool).

(** [Uint3072::mod_inverse] *)
Definition mod_inverse (self prime : list Z) : exec (option (list Z)) :=
  match natural_mod_inverse (limbs_value self) (limbs_value prime) with
  | None => Ok None
  | Some n =>
      let limbs := into_limbs_asc n in
      guard_panic (length limbs <=? LIMBS)%nat ;;
      Ok (Some (limbs ++ drop (length limbs) zero))
  end.

Definition inverse (self : list Z) : exec (list Z) :=
  overflow ← is_overflow self;
  let a := if (overflow : bool) then full_reduce self else self in
  if bool_decide (a = zero) then Ok a else
  inv ← mod_inverse a UINT_PRIME;
  inv ← unwrap inv;
  (if debug_assertions then product ← mul inv a; guard_panic (bool_decide (product = one)) else Ok ()) ;;
  Ok inv.

Definition div (self other : list Z) : exec (list Z) :=
  overflow ← is_overflow other;
  inv ← (if (overflow : bool) then inverse (full_reduce other) else inverse other);
  overflow ← is_overflow self;
  let self := if (overflow : bool) then full_reduce self else self in
  self ← mul self inv;
  overflow ← is_overflow self;
  Ok (if (overflow : bool) then full_reduce self else self).
End division.

(** ** The word operations *)

Definition P : Z := B ^ 48 - PRIME_DIFF.

Lemma wrap_shift t k : 0 <= t < B * k → 0 < k <= B → wrap 64 t + B * Z.shiftr t 64 = t ∧ limb (wrap 64 t) ∧ 0 <= Z.shiftr t 64 < k.
Proof.
  intros Ht Hk. unfold wrap, limb. rewrite Z.shiftr_div_pow2 by lia. change (2 ^ 64) with B. pose proof B_gt1.
  pose proof (Z.mod_pos_bound t B ltac:(lia)). pose proof (Z.div_mod t B ltac:(lia)).
  split; [lia|]. split; [done|]. split; [apply Z.div_pos; lia|]. apply Z.div_lt_upper_bound; lia.
Qed.
Lemma wrap_limb x : limb x → wrap 64 x = x.
Proof. intros Hx. unfold wrap. change (2 ^ 64) with B. by apply Z.mod_small. Qed.
Lemma pow128 : 2 ^ 128 = B * B.
Proof. done. Qed.
Lemma limb_mul a b : limb a → limb b → 0 <= a * b <= (B - 1) * (B - 1).
Proof. unfold limb. nia. Qed.

Lemma mul_wide_ok a b : limb a → limb b → ∃ l h, mul_wide a b = Ok (l, h) ∧ limb l ∧ 0 <= h <= B - 2 ∧ l + B * h = a * b.
Proof.
  intros Ha Hb. pose proof (limb_mul a b Ha Hb) as Hm. pose proof B_gt1. unfold mul_wide.
  rewrite (proj2 (mul_u_ok 128 a b (a * b))) by (rewrite pow128; nia). cbn [mbind res_bind].
  destruct (wrap_shift (a * b) (B - 1)) as (He & Hl & Hh); [nia|lia|]. rewrite (wrap_limb (Z.shiftr (a * b) 64)) by (unfold limb; lia).
  exists (wrap 64 (a * b)), (Z.shiftr (a * b) 64). split_and!; [done|done|lia|lia|done].
Qed.

(** The value held by three carry words. *)
Definition words (s : Z * Z * Z) : Z := let '(l, h, c) := s in l + B * h + B * B * c.
Definition words_ok (s : Z * Z * Z) (k : Z) : Prop := let '(l, h, c) := s in limb l ∧ limb h ∧ 0 <= c <= k.

Lemma muladd3_ok a b l h c k : limb a → limb b → words_ok (l, h, c) k → k + 1 < B →
  ∃ s, muladd3 a b l h c = Ok s ∧ words_ok s (k + 1) ∧ words s = words (l, h, c) + a * b.
Proof.
  intros Ha Hb (Hl & Hh & Hc) Hk. unfold muladd3. destruct (mul_wide_ok a b Ha Hb) as (tl & th & -> & Htl & Hth & Hab). cbn [mbind res_bind].
  pose proof (overflowing_add_spec l tl Hl Htl) as H1. destruct (overflowing_add l tl) as [l' o]. destruct H1 as [Hl' E1].
  assert (0 <= Z.b2z o <= 1) as Ho by (destruct o; cbn; lia).
  rewrite (proj2 (add_u_ok 64 th (Z.b2z o) (th + Z.b2z o))) by (change (2 ^ 64) with B; lia). cbn [mbind res_bind].
  pose proof (overflowing_add_spec h (th + Z.b2z o) Hh ltac:(unfold limb; lia)) as H2. destruct (overflowing_add h _) as [h' o']. destruct H2 as [Hh' E2].
  assert (0 <= Z.b2z o' <= 1) as Ho' by (destruct o'; cbn; lia).
  rewrite (proj2 (add_u_ok 64 c (Z.b2z o') (c + Z.b2z o'))) by (change (2 ^ 64) with B; lia). cbn [mbind res_bind].
  eexists. split; [done|]. cbn. split; [split_and!; [done|done|lia|lia]|]. nia.
Qed.

Lemma idx_ok n l i : wf_limbs n l → (i < n)%nat → idx l i = Ok (nth i l 0) ∧ limb (nth i l 0).
Proof.
  intros [Hn Hl] Hi. destruct (lookup_lt_is_Some_2 l i) as [x Hx]; [lia|]. unfold idx. rewrite Hx. rewrite (nth_lookup_Some _ _ 0 _ Hx).
  split; [done|]. by eapply Forall_lookup_1.
Qed.

Lemma muladd_loop_ok n x y g ixs s k :
  wf_limbs n x → wf_limbs n y → Forall (λ i, (i < n)%nat ∧ (g i < n)%nat) ixs → words_ok s k → k + Zlength ixs < B →
  ∃ s', muladd_loop x y g s ixs = Ok s' ∧ words_ok s' (k + Zlength ixs) ∧
    words s' = words s + sum_list_Z ((λ i, nth i x 0 * nth (g i) y 0) <$> ixs).
Proof.
  intros Hx Hy Hi. revert s k. induction Hi as [|i ixs [Hi Hg] Hi' IH]; intros s k Hs Hk; unfold muladd_loop; cbn [res_foldl].
  { exists s. unfold Zlength. cbn. rewrite !Z.add_0_r. done. }
  rewrite Zlength_cons in *.
  pose proof (Zlength_ge0 ixs) as Hn. destruct s as [[l h] c].
  destruct (idx_ok n x i Hx Hi) as [-> Hxi]. destruct (idx_ok n y (g i) Hy Hg) as [-> Hyi]. cbn [mbind res_bind].
  destruct (muladd3_ok _ _ l h c k Hxi Hyi Hs) as (s' & -> & Hs' & E'); [lia|]. cbn [mbind res_bind].
  destruct (IH s' (k + 1) Hs') as (s'' & E2 & Hs'' & E3); [lia|]. unfold muladd_loop in E2. rewrite E2. exists s''. split; [done|].
  split; [by replace (k + (1 + Zlength ixs)) with (k + 1 + Zlength ixs) by lia|]. rewrite fmap_cons. cbn [sum_list_Z]. lia.
Qed.

Lemma mulnadd3_ok c0 c1 d n k : limb c0 → limb c1 → words_ok d k → 0 < n → 1 + (k + 1) * n < B →
  ∃ s, mulnadd3 c0 c1 d.1.1 d.1.2 d.2 n = Ok s ∧ words_ok s ((k + 1) * n) ∧ words s = c0 + B * c1 + n * words d.
Proof.
  destruct d as [[d0 d1] d2]. cbn [fst snd]. intros H0 H1 (Hd0 & Hd1 & Hd2) Hn Hk. unfold limb in *. pose proof B_gt1. unfold mulnadd3.
  rewrite (proj2 (mul_u_ok 128 d0 n (d0 * n))) by (rewrite pow128; nia). cbn [mbind res_bind].
  rewrite (proj2 (add_u_ok 128 (d0 * n) c0 (d0 * n + c0))) by (rewrite pow128; nia). cbn [mbind res_bind].
  destruct (wrap_shift (d0 * n + c0) (n + 1)) as (E0 & L0 & T0); [nia|nia|]. set (t0 := Z.shiftr (d0 * n + c0) 64) in *.
  rewrite (proj2 (mul_u_ok 128 d1 n (d1 * n))) by (rewrite pow128; nia). cbn [mbind res_bind].
  rewrite (proj2 (add_u_ok 128 (d1 * n) c1 (d1 * n + c1))) by (rewrite pow128; nia). cbn [mbind res_bind].
  rewrite (proj2 (add_u_ok 128 t0 (d1 * n + c1) (t0 + (d1 * n + c1)))) by (rewrite pow128; nia). cbn [mbind res_bind].
  destruct (wrap_shift (t0 + (d1 * n + c1)) (n + 1)) as (E1 & L1 & T1); [nia|nia|]. set (t1 := Z.shiftr (t0 + (d1 * n + c1)) 64) in *.
  rewrite (proj2 (mul_u_ok 64 d2 n (d2 * n))) by (change (2 ^ 64) with B; nia). cbn [mbind res_bind].
  rewrite (wrap_limb t1) by (unfold limb; nia).
  rewrite (proj2 (add_u_ok 64 t1 (d2 * n) (t1 + d2 * n))) by (change (2 ^ 64) with B; nia). cbn [mbind res_bind].
  eexists. split; [done|]. unfold words_ok, words. split; [split_and!; [done|done|nia|nia]|]. nia.
Qed.

Lemma muln2_ok l h n : limb l → 0 <= h → 0 < n → (h + 1) * n < B →
  ∃ l' h', muln2 l h n = Ok (l', h') ∧ limb l' ∧ 0 <= h' < (h + 1) * n ∧ l' + B * h' = n * (l + B * h).
Proof.
  intros Hl Hh Hn Hk. unfold limb in *. pose proof B_gt1. unfold muln2.
  rewrite (proj2 (mul_u_ok 128 l n (l * n))) by (rewrite pow128; nia). cbn [mbind res_bind].
  destruct (wrap_shift (l * n) n) as (E0 & L0 & T0); [nia|nia|]. set (t0 := Z.shiftr (l * n) 64) in *.
  rewrite (proj2 (mul_u_ok 128 h n (h * n))) by (rewrite pow128; nia). cbn [mbind res_bind].
  rewrite (proj2 (add_u_ok 128 t0 (h * n) (t0 + h * n))) by (rewrite pow128; nia). cbn [mbind res_bind].
  rewrite (wrap_limb (t0 + h * n)) by (unfold limb; nia).
  eexists _, _. split; [done|]. split; [done|]. split; [nia|]. nia.
Qed.

(** ** Columns *)

Lemma sum_seq f k m : sum_list_Z (f <$> seq k m) = sumn m (λ i, f (k + i)%nat).
Proof.
  induction m as [|m IH]; [done|]. rewrite seq_S, fmap_app, sum_list_Z_app, IH. cbn. lia.
Qed.
Lemma seq_length_Z k m : Zlength (seq k m) = Z.of_nat m.
Proof. unfold Zlength. by rewrite length_seq. Qed.
Lemma seq_all (Q : nat → Prop) k m : (∀ i, (k <= i < k + m)%nat → Q i) → Forall Q (seq k m).
Proof. intros H. apply Forall_seq. intros i Hi. apply H. lia. Qed.

Lemma low_column_seq n (a b : nat → Z) j : (j < n)%nat →
  sum_list_Z ((λ i, a i * b (j - i)%nat) <$> seq 0 (j + 1)) = low_column n a b j.
Proof.
  intros Hj. rewrite sum_seq. unfold low_column. assert (n = (j + 1) + (n - (j + 1)))%nat as E by lia.
  transitivity (sumn ((j + 1) + (n - (j + 1))) (λ i, if (i <=? j)%nat then a i * b (j - i)%nat else 0)); [|by rewrite <- E].
  rewrite (sumn_split (j + 1) (n - (j + 1))), (sumn_ext (n - (j + 1)) _ (λ _, 0)), sumn_zero, Z.add_0_r.
  - apply sumn_ext. intros i Hi. cbn. destruct (Nat.leb_spec i j); [done|lia].
  - intros i Hi. destruct (Nat.leb_spec (j + 1 + i) j); [lia|done].
Qed.
Lemma high_column_seq n (a b : nat → Z) j : (j + 1 < n)%nat →
  a (j + 1)%nat * b (n + j - (1 + j))%nat + sum_list_Z ((λ i, a i * b (n + j - i)%nat) <$> seq (2 + j) (n - (2 + j))) = high_column n a b j.
Proof.
  intros Hj. rewrite sum_seq. unfold high_column. assert (n = (j + 1) + (1 + (n - (2 + j))))%nat as E by lia.
  transitivity (sumn ((j + 1) + (1 + (n - (2 + j)))) (λ i, if (i <=? j)%nat then 0 else a i * b (n + j - i)%nat)); [|by rewrite <- E].
  rewrite (sumn_split (j + 1)), (sumn_split 1), (sumn_ext (j + 1) _ (λ _, 0)), sumn_zero, Z.add_0_l; cycle 1.
  { intros i Hi. destruct (Nat.leb_spec i j); [done|lia]. }
  f_equal.
  - cbn [sumn]. destruct (Nat.leb_spec (j + 1 + 0) j); [lia|]. replace (j + 1 + 0)%nat with (j + 1)%nat by lia.
    replace (n + j - (j + 1))%nat with (n + j - (1 + j))%nat by lia. lia.
  - apply sumn_ext. intros i Hi. destruct (Nat.leb_spec (j + 1 + (1 + i)) j); [lia|].
    replace (j + 1 + (1 + i))%nat with (2 + j + i)%nat by lia. done.
Qed.
Lemma high_column_last n (a b : nat → Z) j : (n <= j + 1)%nat → high_column n a b j = 0.
Proof.
  intros Hj. unfold high_column. rewrite (sumn_ext n _ (λ _, 0)); [apply sumn_zero|]. intros i Hi. destruct (Nat.leb_spec i j); [done|lia].
Qed.

Section product.
Context (x y : list Z) (Hx : wf_limbs LIMBS x) (Hy : wf_limbs LIMBS y).
Let a (i : nat) : Z := nth i x 0.
Let b (i : nat) : Z := nth i y 0.
Definition column (j : nat) : Z := low_column LIMBS a b j + PRIME_DIFF * high_column LIMBS a b j.

Lemma small_consts : 2 ^ 40 < B.
Proof. done. Qed.

Lemma mul_column_ok cl ch tmp j : (j < LIMBS - 1)%nat → limb cl → limb ch →
  ∃ l h c, mul_column x y (cl, ch, 0, tmp) j = Ok (h, c, 0, <[j := l]> tmp) ∧ limb l ∧ limb h ∧ limb c ∧
    l + B * (h + B * c) = cl + B * ch + column j.
Proof.
  intros Hj Hcl Hch. pose proof small_consts as Hbig. unfold LIMBS in Hj. unfold mul_column.
  destruct (idx_ok LIMBS x (j + 1) Hx) as [-> Ha1]; [unfold LIMBS; lia|]. destruct (idx_ok LIMBS y (LIMBS + j - (1 + j)) Hy) as [-> Hb1]; [unfold LIMBS; lia|].
  cbn [mbind res_bind]. destruct (mul_wide_ok _ _ Ha1 Hb1) as (low & high & -> & Hl & Hh & E1). cbn [mbind res_bind].
  destruct (muladd_loop_ok LIMBS x y (λ i, LIMBS + j - i)%nat (seq (2 + j) (LIMBS - (2 + j))) (low, high, 0) 0 Hx Hy) as (d & -> & Hd & E2).
  { apply seq_all. unfold LIMBS. lia. }
  { unfold words_ok, limb in *. lia. }
  { rewrite seq_length_Z. unfold LIMBS. lia. }
  destruct d as [[d0 d1] d2]. cbn [mbind res_bind]. rewrite seq_length_Z in Hd.
  destruct (mulnadd3_ok cl ch (d0, d1, d2) PRIME_DIFF (0 + Z.of_nat (LIMBS - (2 + j))) Hcl Hch Hd) as (s & Es & Hs & E3);
    [done|unfold PRIME_DIFF, LIMBS; nia|]. cbn [fst snd] in Es. rewrite Es. destruct s as [[s0 s1] s2]. cbn [mbind res_bind].
  destruct (muladd_loop_ok LIMBS x y (λ i, j - i)%nat (seq 0 (j + 1)) (s0, s1, s2) _ Hx Hy ltac:(apply seq_all; unfold LIMBS; lia) Hs) as (f & -> & Hf & E4).
  { rewrite seq_length_Z. unfold PRIME_DIFF, LIMBS. nia. }
  destruct f as [[f0 f1] f2]. cbn [mbind res_bind]. rewrite seq_length_Z in Hf. destruct Hf as (Hf0 & Hf1 & Hf2).
  exists f0, f1, f2. split; [done|]. split; [done|]. split; [done|]. split; [unfold limb, PRIME_DIFF, LIMBS in *; nia|].
  pose proof (low_column_seq LIMBS a b j ltac:(unfold LIMBS; lia)) as El.
  pose proof (high_column_seq LIMBS a b j ltac:(unfold LIMBS; lia)) as Eh.
  unfold column. rewrite <- El, <- Eh. unfold words in E2, E3, E4. unfold a, b. cbn beta.
  set (S1 := sum_list_Z (_ <$> seq (2 + j) _)) in *. set (S2 := sum_list_Z (_ <$> seq 0 _)) in *.
  nia.
Qed.

Lemma nth_insert_limbs l i v k : (i < length l)%nat → nth k (<[i := v]> l) 0 = if decide (k = i) then v else nth k l 0.
Proof.
  intros Hi. rewrite !nth_lookup. destruct (decide (k = i)) as [->|]; [by rewrite list_lookup_insert_eq|by rewrite list_lookup_insert_ne].
Qed.
(** The limbs below an index, as a value. *)
Definition prefix_value (l : list Z) (j : nat) : Z := sumn j (λ k, nth k l 0 * B ^ Z.of_nat k).
Lemma prefix_value_insert l j v : (j < length l)%nat → prefix_value (<[j := v]> l) (S j) = prefix_value l j + v * B ^ Z.of_nat j.
Proof.
  intros Hj. unfold prefix_value. cbn [sumn]. rewrite nth_insert_limbs, decide_True by done. f_equal. apply sumn_ext. intros i Hi.
  by rewrite nth_insert_limbs, decide_False by lia.
Qed.
Lemma prefix_value_all l : prefix_value l (length l) = limbs_value l.
Proof. by rewrite limbs_value_sum. Qed.
Lemma wf_insert n l i v : wf_limbs n l → limb v → wf_limbs n (<[i := v]> l).
Proof. intros [Hn Hl] Hv. split; [by rewrite length_insert|by apply Forall_insert]. Qed.

Lemma columns_ok tmp m : (m <= LIMBS - 1)%nat → wf_limbs LIMBS tmp →
  ∃ cl ch tmp', res_foldl (mul_column x y) (0, 0, 0, tmp) (seq 0 m) = Ok (cl, ch, 0, tmp') ∧ limb cl ∧ limb ch ∧ wf_limbs LIMBS tmp' ∧
    prefix_value tmp' m + B ^ Z.of_nat m * (cl + B * ch) = sumn m (λ j, column j * B ^ Z.of_nat j).
Proof.
  intros Hm Ht. induction m as [|m IH].
  { exists 0, 0, tmp. pose proof B_gt1. unfold limb. cbn. split_and!; try done; lia. }
  destruct (IH ltac:(lia)) as (cl & ch & t & E & Hcl & Hch & Hw & Hv). rewrite seq_S, res_foldl_app, E, Nat.add_0_l. cbn [mbind res_bind res_foldl].
  destruct (mul_column_ok cl ch t m ltac:(lia) Hcl Hch) as (l & h & c & -> & Hl & Hh & Hc & Ec). cbn [mbind res_bind].
  exists h, c, (<[m := l]> t). split; [done|]. split; [done|]. split; [done|]. split; [by apply wf_insert|].
  rewrite prefix_value_insert by (destruct Hw; unfold LIMBS in *; lia). cbn [sumn]. rewrite <- Hv, Nat2Z.inj_succ, Z.pow_succ_r by lia. nia.
Qed.

Lemma carry_step_ok low high t : limb low → limb high → limb t →
  ∃ l low' high', carry_step low high t = (l, low', high') ∧ limb l ∧ limb low' ∧ limb high' ∧ l + B * (low' + B * high') = low + B * high + t.
Proof.
  intros Hl Hh Ht. unfold carry_step. pose proof (overflowing_add_spec low t Hl Ht) as H1. destruct (overflowing_add low t) as [l o].
  destruct H1 as [Hl' E1]. assert (limb (Z.b2z o)) as Ho by (pose proof B_gt1; unfold limb; destruct o; cbn; lia).
  pose proof (overflowing_add_spec high (Z.b2z o) Hh Ho) as H2. destruct (overflowing_add high (Z.b2z o)) as [h o'].
  destruct H2 as [Hh' E2]. exists l, h, (Z.b2z o'). split; [done|]. split; [done|]. split; [done|].
  split; [pose proof B_gt1; unfold limb; destruct o'; cbn; lia|]. nia.
Qed.

Lemma add_carries_ok tmp cl ch self m : (m <= LIMBS)%nat → wf_limbs LIMBS tmp → wf_limbs LIMBS self → limb cl → limb ch →
  ∃ cl' ch' self', res_foldl (add_carries tmp) (cl, ch, self) (seq 0 m) = Ok (cl', ch', self') ∧ limb cl' ∧ limb ch' ∧ wf_limbs LIMBS self' ∧
    prefix_value self' m + B ^ Z.of_nat m * (cl' + B * ch') = prefix_value tmp m + (cl + B * ch).
Proof.
  intros Hm Ht Hs Hcl Hch. induction m as [|m IH].
  { exists cl, ch, self. cbn. split_and!; try done; try apply Hcl; try apply Hch; try apply Hs. unfold prefix_value. cbn. lia. }
  destruct (IH ltac:(lia)) as (cl' & ch' & t & E & Hcl' & Hch' & Hw & Hv). rewrite seq_S, res_foldl_app, E, Nat.add_0_l. cbn [mbind res_bind res_foldl].
  unfold add_carries at 1. destruct (idx_ok LIMBS tmp m Ht ltac:(lia)) as [-> Hl]. cbn [mbind res_bind plus].
  destruct (carry_step_ok cl' ch' (nth m tmp 0) Hcl' Hch' Hl) as (l & low & high & -> & Hl' & Hlow & Hhigh & Ec). cbn [mbind res_bind].
  exists low, high, (<[m := l]> t). split; [done|]. split; [done|]. split; [done|]. split; [by apply wf_insert|].
  rewrite prefix_value_insert by (destruct Hw; unfold LIMBS in *; lia). unfold prefix_value at 2. cbn [sumn]. fold (prefix_value tmp m).
  rewrite Nat2Z.inj_succ, Z.pow_succ_r by lia. nia.
Qed.

End product.

Lemma pow_limbs : B ^ Z.of_nat LIMBS = B ^ 48.
Proof. done. Qed.
(** [B ^ 48] is far above the words that are added to it. *)
Lemma P_big : B * B * B + B < P ∧ P < B ^ 48 ∧ B ^ 48 = P + PRIME_DIFF ∧ PRIME_DIFF < B.
Proof.
  pose proof small_consts. unfold P. assert (B ^ 48 = B * B * B * B * B ^ 44) as E.
  { replace 48 with (1 + (1 + (1 + (1 + 44)))) at 1 by lia. rewrite !Z.pow_add_r, !Z.pow_1_r by lia. ring. }
  pose proof (Z.pow_pos_nonneg B 44 ltac:(lia) ltac:(lia)) as HK. unfold PRIME_DIFF. rewrite E. set (K := B ^ 44) in *. clearbody K. clear E.
  assert (B <= B * B * B) as H3 by nia. set (C := B * B * B) in *. clearbody C.
  assert (2 ^ 40 * C <= C * B) by nia. set (D := C * B) in *. clearbody D. assert (D <= D * K) by nia. lia.
Qed.

Lemma pow48 : B ^ 48 = B * B ^ 47.
Proof. exact (Z.pow_succ_r B 47 ltac:(done)). Qed.
Lemma is_overflow_ok z : wf_limbs LIMBS z → is_overflow z = Ok (P <=? limbs_value z).
Proof.
  intros [Hn Hl]. destruct z as [|l0 r]; [done|]. apply Forall_cons in Hl as [H0 Hr]. cbn in Hn. injection Hn as Hn.
  unfold is_overflow, idx. cbn [lookup list_lookup unwrap mbind res_bind drop limbs_value]. change u64_max with (B - 1).
  destruct P_big as (_ & _ & E & Hd). pose proof (limbs_value_bound r Hr) as Hb. rewrite Hn in Hb.
  rewrite pow48 in E. change (Z.of_nat 47) with 47 in Hb. unfold limb in H0. pose proof B_gt1 as HB.
  assert (forallb (λ limb, limb =? B - 1) r = true ↔ limbs_value r = B ^ 47 - 1) as Hall.
  { change 47 with (Z.of_nat 47). rewrite <- limbs_value_max. split.
    - intros H. f_equal. clear -H Hn. revert r Hn H. generalize 47%nat. intros n. induction n as [|n IH]; intros [|l r] Hn H; try done.
      cbn in H. apply andb_true_iff in H as [->%Z.eqb_eq H]. cbn. f_equal. apply IH; [by injection Hn|done].
    - intros H. apply limbs_value_inj in H; [|by rewrite length_replicate|done|].
      + rewrite H. generalize 47%nat. intros n. induction n as [|n IH]; [done|]. cbn. by rewrite Z.eqb_refl.
      + apply Forall_replicate. unfold limb. clear -HB. lia. }
  set (M := B ^ 47) in *. clearbody M. set (v := limbs_value r) in *.
  destruct (Z.leb_spec l0 (B - 1 - PRIME_DIFF)) as [Hle|Hgt].
  - f_equal. symmetry. apply Z.leb_gt. nia.
  - f_equal. rewrite drop_0. destruct (forallb _ r) eqn:Ef.
    + symmetry. apply Z.leb_le. rewrite (proj1 Hall) by done. nia.
    + symmetry. apply Z.leb_gt. assert (v ≠ M - 1) by (intros Hv; apply Hall in Hv; congruence). nia.
Qed.

Lemma full_reduce_fold l low high done_ : Forall limb l → limb low → limb high →
  ∃ low' high' out, foldl (λ '(low, high, done) limb, let '(limb, low, high) := carry_step low high limb in (low, high, done ++ [limb]))
    (low, high, done_) l = (low', high', done_ ++ out) ∧ length out = length l ∧ Forall limb out ∧ limb low' ∧ limb high' ∧
    limbs_value out + B ^ Z.of_nat (length l) * (low' + B * high') = limbs_value l + low + B * high.
Proof.
  intros Hl. revert low high done_. induction Hl as [|x l Hx Hl IH]; intros low high done_ Hlow Hhigh; cbn [foldl].
  { exists low, high, []. rewrite app_nil_r. cbn [limbs_value length]. split_and!; try done; try apply Hlow; try apply Hhigh. lia. }
  destruct (carry_step_ok low high x Hlow Hhigh Hx) as (z & low1 & high1 & -> & Hz & Hlow1 & Hhigh1 & E1).
  destruct (IH low1 high1 (done_ ++ [z]) Hlow1 Hhigh1) as (low2 & high2 & out & E2 & Hlen & Hout & Hl2 & Hh2 & Ev).
  exists low2, high2, (z :: out). rewrite E2, <- app_assoc. split; [done|]. split; [cbn; by rewrite Hlen|]. split; [by constructor|].
  split; [done|]. split; [done|]. cbn [limbs_value length]. rewrite Nat2Z.inj_succ, Z.pow_succ_r by lia. nia.
Qed.
Lemma full_reduce_ok z : wf_limbs LIMBS z → wf_limbs LIMBS (full_reduce z) ∧ limbs_value (full_reduce z) = (limbs_value z + PRIME_DIFF) mod B ^ 48.
Proof.
  intros [Hn Hl]. unfold full_reduce. pose proof small_consts. assert (limb PRIME_DIFF ∧ limb 0) as [Hd H0] by (unfold limb, PRIME_DIFF; lia).
  destruct (full_reduce_fold z PRIME_DIFF 0 [] Hl Hd H0) as (low & high & out & -> & Hlen & Hout & Hl' & Hh' & E). cbn [snd app].
  split; [split; [congruence|done]|]. rewrite Hn, pow_limbs in E.
  pose proof (limbs_value_bound out Hout) as Hb. rewrite Hlen, Hn, pow_limbs in Hb.
  apply (Z.mod_unique_pos _ _ (low + B * high)); [done|]. lia.
Qed.

Lemma wf_one : wf_limbs LIMBS one.
Proof.
  split; [reflexivity|]. unfold one, zero. apply Forall_insert; [apply limbs_zeros|]. pose proof B_gt1. unfold limb. lia.
Qed.

Lemma columns_split n d (l h : nat → Z) :
  sumn n (λ j, (l j + d * h j) * B ^ Z.of_nat j) = sumn n (λ j, l j * B ^ Z.of_nat j) + d * sumn n (λ j, h j * B ^ Z.of_nat j).
Proof. rewrite <- sumn_scale, <- sumn_add. apply sumn_ext. intros. ring. Qed.
Lemma product_reduced n p d (a b : nat → Z) : B ^ Z.of_nat n = p + d →
  sumn n (λ i, a i * B ^ Z.of_nat i) * sumn n (λ i, b i * B ^ Z.of_nat i) =
  sumn n (λ j, (low_column n a b j + d * high_column n a b j) * B ^ Z.of_nat j) + p * sumn n (λ j, high_column n a b j * B ^ Z.of_nat j).
Proof. intros E. rewrite product_columns, columns_split, E. ring. Qed.
(** The value of the product before its last reductions. *)
Lemma columns_value x y : wf_limbs LIMBS x → wf_limbs LIMBS y →
  ∃ k, limbs_value x * limbs_value y = sumn LIMBS (λ j, column x y j * B ^ Z.of_nat j) + P * k.
Proof.
  intros [Hx _] [Hy _]. eexists. rewrite (limbs_value_sum x), (limbs_value_sum y), Hx, Hy. apply product_reduced.
  rewrite pow_limbs. apply P_big.
Qed.

(** The last reductions bring a value below [2 * B ^ 48] into the field. *)
Lemma last_reductions self carry V :
  wf_limbs LIMBS self → limbs_value self + B ^ 48 * carry = V → carry = 0 ∨ carry = 1 → V < B ^ 48 + B * B * B →
  ∃ z, (overflow ← is_overflow self;
        let self := if (overflow : bool) then full_reduce self else self in
        Ok (if carry =? 0 then self else full_reduce self)) = Ok (E := Empty_set) z ∧
    wf_limbs LIMBS z ∧ limbs_value z < P ∧ ∃ k, V = limbs_value z + P * k.
Proof.
  intros Hs E Hc HV. rewrite is_overflow_ok by done. cbn [mbind res_bind]. destruct P_big as (H3 & HP & Ep & Hd).
  pose proof (limbs_value_bound self (proj2 Hs)) as Hb. rewrite (proj1 Hs), pow_limbs in Hb.
  destruct (full_reduce_ok self Hs) as [Hw Hv]. assert (PRIME_DIFF = 1103717) as Epd by done.
  destruct Hc as [->| ->]; cbn [Z.eqb].
  - destruct (Z.leb_spec P (limbs_value self)) as [Hle|Hlt].
    + exists (full_reduce self). split; [done|]. split; [done|]. rewrite Hv.
      rewrite <- (Z.mod_unique_pos (limbs_value self + PRIME_DIFF) (B ^ 48) 1 (limbs_value self - P)) by lia.
      split; [lia|]. exists 1. lia.
    + exists self. split; [done|]. split; [done|]. split; [done|]. exists 0. lia.
  - destruct (Z.leb_spec P (limbs_value self)) as [Hle|Hlt]; [lia|].
    exists (full_reduce self). split; [done|]. split; [done|]. rewrite Hv, Z.mod_small by lia. split; [lia|]. exists 1. lia.
Qed.

(** The last column closes the sum: its high words carry the weight [B ^ LIMBS]. *)
Lemma last_column n m (f : nat → Z) tmp cl ch l h c : m = S n → length tmp = m →
  prefix_value tmp n + B ^ Z.of_nat n * (cl + B * ch) = sumn n (λ j, f j * B ^ Z.of_nat j) →
  words (l, h, c) = words (cl, ch, 0) + f n →
  prefix_value (<[n := l]> tmp) m + B ^ Z.of_nat m * (h + B * c) = sumn m (λ j, f j * B ^ Z.of_nat j).
Proof.
  intros -> Hn Ev Es. rewrite prefix_value_insert by lia. cbn [sumn]. rewrite <- Ev, Nat2Z.inj_succ, Z.pow_succ_r by lia. unfold words in Es. nia.
Qed.

(** The second reduction: the carry words [h + B * c] folded back in. *)
Lemma second_reduction tmp x h c : wf_limbs LIMBS tmp → wf_limbs LIMBS x → limb h → 0 <= c <= 48 →
  ∃ cl ch self, ('(carry_low, carry_high) ← muln2 h c PRIME_DIFF; res_foldl (add_carries tmp) (carry_low, carry_high, x) (seq 0 LIMBS)) = Ok (cl, ch, self) ∧
    wf_limbs LIMBS self ∧ limb cl ∧ limb ch ∧
    limbs_value self + B ^ 48 * (cl + B * ch) = limbs_value tmp + PRIME_DIFF * (h + B * c) ∧ PRIME_DIFF * (h + B * c) < B * B * B.
Proof.
  intros Ht Hx Hh Hc. pose proof small_consts as Hbig. assert (PRIME_DIFF = 1103717) as Ed by done.
  destruct (muln2_ok h c PRIME_DIFF Hh) as (l1 & h1 & -> & Hl1 & Hh1 & E1); [lia|done|lia|]. cbn [mbind res_bind].
  assert (limb h1) as Hh1' by (unfold limb; nia).
  destruct (add_carries_ok tmp l1 h1 x LIMBS ltac:(lia) Ht Hx Hl1 Hh1') as (l2 & h2 & self & -> & Hl2 & Hh2 & Hw & E2).
  exists l2, h2, self. split; [done|]. split; [done|]. split; [done|]. split; [done|]. rewrite pow_limbs in E2.
  pose proof (prefix_value_all self) as Ea. pose proof (prefix_value_all tmp) as Eb. rewrite (proj1 Hw) in Ea. rewrite (proj1 Ht) in Eb.
  rewrite Ea, Eb, E1 in E2. split; [exact E2|]. rewrite <- E1. unfold limb in *. nia.
Qed.

Lemma small_carry v l h : 0 <= v → limb l → limb h → v + B ^ 48 * (l + B * h) < B ^ 48 + B * B * B → h = 0 ∧ (l = 0 ∨ l = 1).
Proof.
  destruct P_big as (H3 & HP & _). pose proof B_gt1. unfold limb. intros Hv Hl Hh Hlt. assert (0 < B * B * B < B ^ 48) as HM by nia.
  set (M := B ^ 48) in *. clearbody M. set (C := B * B * B) in *. clearbody C. clear H3 HP.
  assert (l + B * h < 2) by (set (w := l + B * h) in *; clearbody w; nia). nia.
Qed.
Lemma mul_ok x y : wf_limbs LIMBS x → wf_limbs LIMBS y →
  ∃ z, mul x y = Ok z ∧ wf_limbs LIMBS z ∧ (∃ k, limbs_value x * limbs_value y = limbs_value z + P * k) ∧
    (x ≠ one → limbs_value z < P).
Proof.
  intros Hx Hy. unfold mul. case_bool_decide as Hone.
  { exists y. split; [done|]. split; [done|]. split; [|done]. exists 0. subst x. vm_compute (limbs_value one). lia. }
  destruct (columns_ok x y Hx Hy one (LIMBS - 1) ltac:(lia) wf_one) as (cl & ch & tmp & -> & Hcl & Hch & Ht & Ev). cbn [mbind res_bind guard_panic Z.eqb].
  destruct (muladd_loop_ok LIMBS x y (λ i, LIMBS - 1 - i)%nat (seq 0 LIMBS) (cl, ch, 0) 0 Hx Hy) as (s & -> & Hs & Es).
  { apply seq_all. unfold LIMBS. lia. }
  { cbn. split; [done|]. split; [done|lia]. }
  { rewrite seq_length_Z. pose proof small_consts. unfold LIMBS. lia. }
  rewrite seq_length_Z in Hs. destruct s as [[l h] c]. destruct Hs as (Hl & Hh & Hc). cbn [mbind res_bind].
  destruct (columns_value x y Hx Hy) as [k Ek].
  assert (words (l, h, c) = words (cl, ch, 0) + column x y (LIMBS - 1)) as Ew.
  { unfold column. rewrite high_column_last by (unfold LIMBS; lia). rewrite <- low_column_seq by (unfold LIMBS; lia). rewrite Z.mul_0_r, Z.add_0_r. exact Es. }
  rewrite <- (last_column (LIMBS - 1) LIMBS (column x y) tmp cl ch l h c eq_refl (proj1 Ht) Ev Ew), pow_limbs in Ek. clear Ew Es Ev.
  assert (wf_limbs LIMBS (<[(LIMBS - 1)%nat := l]> tmp)) as Ht' by by apply wf_insert. set (tmp' := <[_ := l]> tmp) in *.
  pose proof (prefix_value_all tmp') as Ep. rewrite (proj1 Ht') in Ep. rewrite Ep in Ek.
  destruct (second_reduction tmp' x h c Ht' Hx Hh ltac:(unfold LIMBS in Hc; lia)) as (l2 & h2 & self & E & Hw & Hl2 & Hh2 & Ev & Hsmall).
  destruct P_big as (_ & _ & Epd & _). pose proof (limbs_value_bound tmp' (proj2 Ht')) as Hb. rewrite (proj1 Ht'), pow_limbs in Hb.
  destruct (small_carry (limbs_value self) l2 h2) as [-> Hc01]; [apply limbs_value_bound, Hw|done|done|lia|].
  destruct (last_reductions self l2 _ Hw eq_refl Hc01) as (z & Ez & Hz & HzP & k' & Ek'); [lia|]. exists z.
  destruct (muln2 h c PRIME_DIFF) as [[a b]| |]; [|done|done]. cbn [mbind res_bind] in E |- *. rewrite E. cbn [mbind res_bind guard_panic Z.eqb].
  replace ((l2 =? 0) || (l2 =? 1)) with true by (destruct Hc01 as [->| ->]; done). cbn [mbind res_bind guard_panic]. split; [exact Ez|].
  split; [done|]. split; [|done]. exists (k + (h + B * c) + k'). rewrite Z.mul_0_r, Z.add_0_r in Ev. rewrite Epd in *. lia.
Qed.

(** ** The field *)

Definition cong (a b : Z) : Prop := a mod P = b mod P.
#[global] Instance cong_equivalence : Equivalence cong.
Proof. split; unfold cong; congruence. Qed.
Lemma P_gt1 : 1 < P.
Proof. destruct P_big as (H & _). pose proof B_gt1. assert (0 < B * B * B) by nia. lia. Qed.
#[global] Instance cong_mul : Proper (cong ==> cong ==> cong) Z.mul.
Proof.
  pose proof P_gt1. intros a b Hab c d Hcd. unfold cong in *. rewrite Z.mul_mod, (Z.mul_mod b d) by lia. by rewrite Hab, Hcd.
Qed.
Lemma cong_shift a b k : a = b + P * k → cong a b.
Proof. intros ->. unfold cong. by rewrite Z.mul_comm, Z_mod_plus_full. Qed.
Lemma cong_mod a : cong (a mod P) a.
Proof. unfold cong. by rewrite Z.mod_mod by (pose proof P_gt1; lia). Qed.
Lemma cong_small a b : 0 <= a < P → 0 <= b < P → cong a b → a = b.
Proof. unfold cong. intros Ha Hb. by rewrite !Z.mod_small. Qed.

(** Units of the ring: a number coprime to the modulus. *)
Definition unit_mod (a : Z) : Prop := ∃ b, cong (a * b) 1.
Lemma unit_mul a b : unit_mod a → unit_mod b → unit_mod (a * b).
Proof.
  intros [c Hc] [d Hd]. exists (c * d). transitivity ((a * c) * (b * d)); [apply reflexive_eq; ring|]. by rewrite Hc, Hd.
Qed.
Lemma unit_cong a b : cong a b → unit_mod a → unit_mod b.
Proof. intros H [c Hc]. exists c. by rewrite <- H. Qed.
#[global] Instance unit_proper : Proper (cong ==> iff) unit_mod.
Proof. intros a b H. split; apply unit_cong; [done|by symmetry]. Qed.
Lemma unit_one : unit_mod 1.
Proof. by exists 1. Qed.
Lemma unit_cancel a b c : unit_mod c → cong (a * c) (b * c) → cong a b.
Proof.
  intros [d Hd] H. transitivity (a * (c * d)); [by rewrite Hd, Z.mul_1_r|]. transitivity (b * (c * d)); [|by rewrite Hd, Z.mul_1_r].
  rewrite !Z.mul_assoc. by rewrite H.
Qed.
Lemma unit_coprime a : unit_mod a ↔ Z.gcd a P = 1.
Proof.
  pose proof P_gt1 as HP. split.
  - intros [b Hb]. apply Z.bezout_1_gcd. exists b, (- (a * b / P)). unfold cong in Hb. rewrite (Z.mod_small 1) in Hb by lia.
    pose proof (Z.div_mod (a * b) P ltac:(lia)). lia.
  - intros H. exists (Z.invmod a P). unfold cong. rewrite Z.mul_comm, Z.invmod_coprime, Z.mod_small; [done|lia|lia|done].
Qed.

(** A value brought below the modulus. *)
Lemma reduce_ok z : wf_limbs LIMBS z → let z' := if P <=? limbs_value z then full_reduce z else z in
  wf_limbs LIMBS z' ∧ limbs_value z' = limbs_value z mod P.
Proof.
  intros Hz. destruct P_big as (H3 & HP & Ep & Hd). pose proof B_gt1. pose proof P_gt1. destruct (full_reduce_ok z Hz) as [Hw Hv].
  pose proof (limbs_value_bound z (proj2 Hz)) as Hb. rewrite (proj1 Hz), pow_limbs in Hb. assert (0 < B * B * B) by nia.
  destruct (Z.leb_spec P (limbs_value z)) as [Hle|Hlt]; cbn zeta.
  2: { split; [exact Hz|]. symmetry. apply Z.mod_small. lia. }
  split; [exact Hw|]. rewrite Hv. assert (PRIME_DIFF = 1103717) by done.
  rewrite <- (Z.mod_unique_pos (limbs_value z + PRIME_DIFF) (B ^ 48) 1 (limbs_value z - P)) by lia.
  apply (Z.mod_unique_pos _ _ 1); lia.
Qed.

Lemma limbs_asc_ok n fuel v : 0 <= v < B ^ Z.of_nat fuel → v < B ^ Z.of_nat n →
  (length (limbs_asc fuel v) <= n)%nat ∧ Forall limb (limbs_asc fuel v) ∧ limbs_value (limbs_asc fuel v) = v.
Proof.
  pose proof B_gt1 as HB. revert n v. induction fuel as [|fuel IH]; intros n v Hv Hn; cbn [limbs_asc].
  { change (B ^ Z.of_nat 0) with 1 in Hv. cbn. split; [lia|]. split; [constructor|lia]. }
  destruct (Z.eqb_spec v 0) as [->|Hz]; [cbn; split; [lia|]; split; [constructor|done]|]. change (2 ^ 64) with B.
  destruct n as [|n]; [change (B ^ Z.of_nat 0) with 1 in Hn; lia|]. rewrite Nat2Z.inj_succ, Z.pow_succ_r in Hv, Hn by lia.
  destruct (IH n (v / B)) as (Hl & Hf & He).
  { split; [apply Z.div_pos; lia|]. apply Z.div_lt_upper_bound; lia. }
  { apply Z.div_lt_upper_bound; lia. }
  cbn [length limbs_value]. split; [lia|]. split; [constructor; [apply Z.mod_pos_bound; lia|done]|]. rewrite He. pose proof (Z.div_mod v B ltac:(lia)). lia.
Qed.
Lemma into_limbs_ok v : 0 <= v < B ^ 48 → let l := into_limbs_asc v in
  (length l <= LIMBS)%nat ∧ wf_limbs LIMBS (l ++ drop (length l) zero) ∧ limbs_value (l ++ drop (length l) zero) = v.
Proof.
  intros Hv. pose proof B_gt1 as HB. unfold into_limbs_asc. destruct (limbs_asc_ok LIMBS (S (Z.to_nat (Z.log2 v))) v) as (Hl & Hf & He).
  { split; [lia|]. destruct (decide (v = 0)) as [->|]; [apply Z.pow_pos_nonneg; lia|].
    pose proof (Z.log2_spec v ltac:(lia)) as [_ H]. eapply Z.lt_le_trans; [exact H|]. rewrite Nat2Z.inj_succ, Z2Nat.id by apply Z.log2_nonneg.
    apply Z.pow_le_mono_l. lia. }
  { rewrite pow_limbs. lia. }
  set (l := limbs_asc _ v) in *. cbn zeta. unfold zero. rewrite drop_replicate, limbs_value_app, limbs_value_repeat, He, Z.mul_0_r, Z.add_0_r.
  split; [done|]. split; [|done]. split; [rewrite length_app, length_replicate; lia|]. apply Forall_app. split; [done|apply limbs_zeros].
Qed.

Lemma value_inj x y : wf_limbs LIMBS x → wf_limbs LIMBS y → limbs_value x = limbs_value y → x = y.
Proof. intros [Hx Fx] [Hy Fy]. apply limbs_value_inj; [congruence|done|done]. Qed.
Lemma wf_zero : wf_limbs LIMBS zero.
Proof. split; [done|apply limbs_zeros]. Qed.
Lemma value_zero : limbs_value zero = 0.
Proof. apply limbs_value_repeat. Qed.
Lemma value_one : limbs_value one = 1.
Proof. by vm_compute. Qed.
Lemma value_prime : limbs_value UINT_PRIME = P.
Proof. by vm_compute. Qed.

(** The product in the field. *)
Lemma mul_cong x y : wf_limbs LIMBS x → wf_limbs LIMBS y →
  ∃ z, mul x y = Ok z ∧ wf_limbs LIMBS z ∧ cong (limbs_value z) (limbs_value x * limbs_value y) ∧ (x ≠ one → limbs_value z < P).
Proof.
  intros Hx Hy. destruct (mul_ok x y Hx Hy) as (z & E & Hz & [k Hk] & HP). exists z. split; [exact E|]. split; [exact Hz|]. split; [|exact HP].
  symmetry. by apply (cong_shift _ _ k).
Qed.

Lemma mul_one y : mul one y = Ok y.
Proof. unfold mul. by rewrite bool_decide_eq_true_2. Qed.

Section division_laws.
Context (natural_mod_inverse : Z → Z → option Z) (debug_assertions : bool).
(** [mod_inverse] returns the inverse below the modulus, and none only for numbers that
    are not coprime. *)
Hypothesis natural_mod_inverse_some : ∀ x p y, 0 < x < p → natural_mod_inverse x p = Some y → 0 < y < p ∧ (x * y) mod p = 1.
Hypothesis natural_mod_inverse_none : ∀ x p, 0 < x < p → natural_mod_inverse x p = None → Z.gcd x p ≠ 1.
Let inverse := inverse natural_mod_inverse debug_assertions.
Let div := div natural_mod_inverse debug_assertions.

Lemma inverse_reduced a : wf_limbs LIMBS a → limbs_value a < P → unit_mod (limbs_value a) →
  ∃ i, (inv ← mod_inverse natural_mod_inverse a UINT_PRIME;
        inv ← unwrap inv;
        (if debug_assertions then product ← mul inv a; guard_panic (bool_decide (product = one)) else Ok ()) ;;
        Ok inv) = Ok (E := Empty_set) i ∧ wf_limbs LIMBS i ∧ cong (limbs_value a * limbs_value i) 1.
Proof.
  intros Ha Hlt Hu. pose proof P_gt1 as HP. destruct P_big as (_ & HB & _). pose proof (limbs_value_bound a (proj2 Ha)) as Hb.
  assert (limbs_value a ≠ 0) as Hnz by (intros Hz; destruct Hu as [c Hc]; rewrite Hz, Z.mul_0_l in Hc; apply cong_small in Hc; lia).
  unfold mod_inverse. rewrite value_prime. destruct (natural_mod_inverse (limbs_value a) P) as [n|] eqn:En; swap 1 2.
  { apply natural_mod_inverse_none in En; [|lia]. destruct (En (proj1 (unit_coprime _) Hu)). }
  apply natural_mod_inverse_some in En as [Hn E1]; [|lia]. destruct (into_limbs_ok n ltac:(lia)) as (Hlen & Hw & Hv).
  set (i := into_limbs_asc n ++ _) in *. rewrite (proj2 (Nat.leb_le _ _) Hlen). cbn [guard_panic mbind res_bind unwrap].
  assert (cong (limbs_value a * limbs_value i) 1) as Hc by (unfold cong; rewrite Hv, E1; symmetry; apply Z.mod_small; lia).
  exists i. split; [|split; [exact Hw|exact Hc]]. destruct debug_assertions; [|done].
  destruct (mul_cong i a Hw Ha) as (z & Ez & Hz & Hzc & HzP). rewrite Ez. cbn [mbind res_bind]. rewrite bool_decide_eq_true_2; [done|].
  apply value_inj; [exact Hz|exact wf_one|]. rewrite value_one. rewrite Z.mul_comm, Hc in Hzc. apply cong_small; [|lia|exact Hzc].
  split; [apply limbs_value_bound, Hz|]. destruct (decide (i = one)) as [Hi|Hi]; [|by apply HzP].
  rewrite Hi, mul_one in Ez. injection Ez as <-. exact Hlt.
Qed.

Lemma inverse_ok z : wf_limbs LIMBS z → unit_mod (limbs_value z) →
  ∃ i, inverse z = Ok i ∧ wf_limbs LIMBS i ∧ cong (limbs_value z * limbs_value i) 1.
Proof.
  intros Hz Hu. unfold inverse, U3072.inverse. rewrite (is_overflow_ok z) by exact Hz. cbn [mbind res_bind].
  destruct (reduce_ok z Hz) as [Ha Hv]. set (a := if P <=? limbs_value z then full_reduce z else z) in *. clearbody a. pose proof P_gt1 as HP.
  assert (cong (limbs_value a) (limbs_value z)) as Hc by (rewrite Hv; apply cong_mod). rewrite <- Hc in Hu.
  rewrite bool_decide_eq_false_2; swap 1 2.
  { intros ->. destruct Hu as [c Hcc]. rewrite value_zero, Z.mul_0_l in Hcc. apply cong_small in Hcc; lia. }
  destruct (inverse_reduced a Ha) as (i & E & Hi & Hic); [rewrite Hv; apply Z.mod_pos_bound; lia|exact Hu|].
  exists i. split; [exact E|]. split; [exact Hi|]. by rewrite <- Hc.
Qed.

Lemma div_ok x y : wf_limbs LIMBS x → wf_limbs LIMBS y → unit_mod (limbs_value y) →
  ∃ z, div x y = Ok z ∧ wf_limbs LIMBS z ∧ limbs_value z < P ∧ cong (limbs_value z * limbs_value y) (limbs_value x).
Proof.
  intros Hx Hy Hu. unfold div, U3072.div. rewrite (is_overflow_ok y) by exact Hy. cbn [mbind res_bind]. pose proof P_gt1 as HP.
  destruct (reduce_ok y Hy) as [Hy' Hvy]. destruct (reduce_ok x Hx) as [Hx' Hvx].
  assert (∃ i, (if P <=? limbs_value y then U3072.inverse natural_mod_inverse debug_assertions (full_reduce y) else
      U3072.inverse natural_mod_inverse debug_assertions y) = Ok i ∧ wf_limbs LIMBS i ∧ cong (limbs_value y * limbs_value i) 1) as (i & -> & Hi & Hc).
  { set (y' := if P <=? limbs_value y then full_reduce y else y) in *. assert (cong (limbs_value y') (limbs_value y)) as Hcy by (rewrite Hvy; apply cong_mod).
    destruct (inverse_ok y' Hy') as (i & E & Hi & Hic); [by rewrite Hcy|]. exists i. split; [|split; [exact Hi|by rewrite <- Hcy]].
    unfold y' in E. destruct (P <=? limbs_value y); exact E. }
  cbn [mbind res_bind]. rewrite (is_overflow_ok x) by exact Hx. cbn [mbind res_bind].
  set (x' := if P <=? limbs_value x then full_reduce x else x) in *. assert (cong (limbs_value x') (limbs_value x)) as Hcx by (rewrite Hvx; apply cong_mod).
  destruct (mul_cong x' i Hx' Hi) as (z & -> & Hz & Hzc & _). cbn [mbind res_bind]. rewrite (is_overflow_ok z) by exact Hz. cbn [mbind res_bind].
  destruct (reduce_ok z Hz) as [Hz' Hvz]. eexists. split; [done|]. split; [exact Hz'|]. rewrite Hvz.
  split; [apply Z.mod_pos_bound; lia|]. rewrite (cong_mod (limbs_value z)), Hzc, Hcx, <- Z.mul_assoc, (Z.mul_comm (limbs_value i)), Hc, Z.mul_1_r. done.
Qed.
End division_laws.

(** Elements and their 384-byte little-endian encoding. *)
Lemma zip_zero {A} (f : bytes → A) n ls : length ls = n → zip_with (λ c (_ : Z), f c) ls (replicate n 0) = f <$> ls.
Proof. revert n. induction ls as [|c ls IH]; intros [|n] H; try done. cbn. f_equal. apply IH. by injection H. Qed.
Lemma from_le_bytes_ok b : wf_bytes b → length b = 384%nat → wf_limbs LIMBS (from_le_bytes b).
Proof.
  intros Hb Hl. pose proof (chunks_exact_length 8 b) as Hc. pose proof (mjoin_chunks_exact 8 b ltac:(lia)) as Hj.
  rewrite Hl in Hj. specialize (Hj eq_refl). assert (length (chunks_exact 8 b) = LIMBS) as Hn.
  { pose proof (length_mjoin_same 8 _ Hc) as H. rewrite Hj, Hl in H. unfold LIMBS. lia. }
  unfold from_le_bytes, zero. rewrite zip_zero by exact Hn. split; [by rewrite length_fmap|]. rewrite <- Hj in Hb.
  apply Forall_fmap, Forall_forall. intros c Hin. apply is_u64_limb. pose proof (proj1 (Forall_forall _ _) Hc c Hin) as H8. cbn in H8.
  assert (wf_bytes c) as Hw.
  { eapply Forall_forall. intros x Hx. eapply Forall_forall in Hb; [exact Hb|]. apply list_elem_of_join. eauto. }
  pose proof (from_le_bytes_bound c Hw) as H. by rewrite H8 in H.
Qed.
Lemma limbs_le_roundtrip l : wf_limbs LIMBS l → from_le_bytes (to_le_bytes l) = l.
Proof.
  intros [Hn Hl]. unfold from_le_bytes, to_le_bytes, zero. assert (Forall (λ c : bytes, length c = 8%nat) (Prelude.to_le_bytes 8 <$> l)) as Hc.
  { apply Forall_fmap, Forall_forall. intros x _. cbn. by rewrite length_to_le_bytes. }
  rewrite chunks_exact_mjoin by (lia || done). rewrite zip_zero by by rewrite length_fmap. rewrite <- list_fmap_compose.
  rewrite <- (list_fmap_id l) at 2. apply list_fmap_ext. intros i x Hx. cbn. apply Prelude.from_to_le_bytes; [lia|].
  apply (is_u64_limb x). eapply Forall_lookup_1; done.
Qed.
Lemma to_le_bytes_ok l : wf_limbs LIMBS l → wf_bytes (to_le_bytes l) ∧ length (to_le_bytes l) = 384%nat.
Proof.
  intros [Hn Hl]. unfold to_le_bytes. split.
  - apply Forall_forall. intros x Hx. apply list_elem_of_join in Hx as (c & Hx & Hc). apply list_elem_of_fmap in Hc as (y & -> & _).
    pose proof (wf_to_le_bytes 8 y ltac:(lia)) as H. by eapply Forall_forall in H.
  - rewrite (length_mjoin_same 8); [rewrite length_fmap, Hn; done|]. apply Forall_fmap, Forall_forall. intros x _. cbn. by rewrite length_to_le_bytes.
Qed.
End U3072.

(** ** The set hash *)

Definition ELEMENT_BYTE_SIZE : nat := 384.
Record MuHash := { numerator : list Z; denominator : list Z }.
Inductive OverflowError := overflow_error.
Inductive MuHashError := NonNormalizedValue.

Section muhash.
(** The hash of an element, the ChaCha20 stream of a seed, the finalizing hash, the
    modular inverse and [cfg!(debug_assertions)]. *)
Context (MuHashElementHash : bytes → bytes) (chacha20 : bytes → nat → bytes) (MuHashFinalizeHash : bytes → bytes).
Context (natural_mod_inverse : Z → Z → option Z) (debug_assertions : bool).

Definition muhash_new : MuHash := {| numerator := U3072.one; denominator := U3072.one |}.

Definition data_to_element (data : bytes) : list Z :=
  U3072.from_le_bytes (chacha20 (MuHashElementHash data) ELEMENT_BYTE_SIZE).

Definition add_element (self : MuHash) (data : bytes) : exec MuHash :=
  n ← U3072.mul (numerator self) (data_to_element data);
  Ok {| numerator := n; denominator := denominator self |}.

Definition remove_element (self : MuHash) (data : bytes) : exec MuHash :=
  d ← U3072.mul (denominator self) (data_to_element data);
  Ok {| numerator := numerator self; denominator := d |}.

(** [MuHashElementBuilder]: the field it multiplies into and the bytes written. *)
Record builder := { muhash_field : list Z; written : bytes }.
Definition builder_new (field : list Z) : builder := {| muhash_field := field; written := [] |}.
Definition builder_update (b : builder) (data : bytes) : builder := {| muhash_field := muhash_field b; written := written b ++ data |}.
Definition builder_finalize (b : builder) : exec (list Z) :=
  U3072.mul (muhash_field b) (U3072.from_le_bytes (chacha20 (MuHashElementHash (written b)) ELEMENT_BYTE_SIZE)).
Definition add_element_builder (self : MuHash) : builder := builder_new (numerator self).
Definition remove_element_builder (self : MuHash) : builder := builder_new (denominator self).

Definition combine (self other : MuHash) : exec MuHash :=
  n ← U3072.mul (numerator self) (numerator other);
  d ← U3072.mul (denominator self) (denominator other);
  Ok {| numerator := n; denominator := d |}.

Definition normalize (self : MuHash) : exec MuHash :=
  n ← U3072.div natural_mod_inverse debug_assertions (numerator self) (denominator self);
  Ok {| numerator := n; denominator := U3072.one |}.

Definition serialize (self : MuHash) : exec (bytes * MuHash) :=
  self ← normalize self;
  Ok (U3072.to_le_bytes (numerator self), self).

Definition finalize (self : MuHash) : exec (bytes * MuHash) :=
  '(serialized, self) ← serialize self;
  Ok (MuHashFinalizeHash serialized, self).

Definition deserialize (data : bytes) : res OverflowError MuHash :=
  let numerator := U3072.from_le_bytes data in
  overflow ← map_err (λ e : Empty_set, match e with end) (U3072.is_overflow numerator);
  if (overflow : bool) then Err overflow_error else Ok {| numerator := numerator; denominator := U3072.one |}.

Definition try_from (value : MuHash) : res MuHashError (list Z) :=
  if bool_decide (denominator value = U3072.one) then Ok (numerator value) else Err NonNormalizedValue.
Definition from_uint3072 (u : list Z) : MuHash := {| numerator := u; denominator := U3072.one |}.

(** Programs over the set hash: sequences of its calls from the empty set, with whole or streamed elements, combinations,
    finalizations and reloads from the serialized form. *)
Inductive program :=
  | CallNew
  | CallAdd (p : program) (d : bytes)
  | CallRemove (p : program) (d : bytes)
  | CallAddChunks (p : program) (ds : list bytes)
  | CallRemoveChunks (p : program) (ds : list bytes)
  | CallCombine (p q : program)
  | CallFinalize (p : program)
  | CallReload (p : program).

Definition total {A} (r : exec A) : res OverflowError A := map_err (λ e : Empty_set, match e with end) r.
Fixpoint run (p : program) : res OverflowError MuHash :=
  match p with
  | CallNew => Ok muhash_new
  | CallAdd p d => m ← run p; total (add_element m d)
  | CallRemove p d => m ← run p; total (remove_element m d)
  | CallAddChunks p ds =>
      m ← run p;
      n ← total (builder_finalize (foldl builder_update (add_element_builder m) ds));
      Ok {| numerator := n; denominator := denominator m |}
  | CallRemoveChunks p ds =>
      m ← run p;
      n ← total (builder_finalize (foldl builder_update (remove_element_builder m) ds));
      Ok {| numerator := numerator m; denominator := n |}
  | CallCombine p q => m ← run p; m' ← run q; total (combine m m')
  | CallFinalize p => m ← run p; '(_, m) ← total (finalize m); Ok m
  | CallReload p => m ← run p; '(s, _) ← total (serialize m); deserialize s
  end.
(** The elements a program adds and removes. *)
Fixpoint added (p : program) : list bytes :=
  match p with
  | CallNew => []
  | CallAdd p d => d :: added p
  | CallAddChunks p ds => mjoin ds :: added p
  | CallCombine p q => added p ++ added q
  | CallRemove p _ | CallRemoveChunks p _ | CallFinalize p | CallReload p => added p
  end.
Fixpoint removed (p : program) : list bytes :=
  match p with
  | CallNew => []
  | CallRemove p d => d :: removed p
  | CallRemoveChunks p ds => mjoin ds :: removed p
  | CallCombine p q => removed p ++ removed q
  | CallAdd p _ | CallAddChunks p _ | CallFinalize p | CallReload p => removed p
  end.

(** ** What a hash stands for *)

Definition element (d : bytes) : Z := limbs_value (data_to_element d).
Definition product (ds : list bytes) : Z := foldr (λ d p, element d * p) 1 ds.

Lemma product_app ds es : product (ds ++ es) = product ds * product es.
Proof. induction ds as [|d ds IH]; [symmetry; apply Z.mul_1_l|]. unfold product in *. cbn [app foldr]. rewrite IH. ring. Qed.
Lemma product_perm ds es : ds ≡ₚ es → product ds = product es.
Proof. induction 1 as [|d ds es _ IH|d e ds|]; unfold product in *; cbn [foldr]; [done|by f_equal|ring|congruence]. Qed.

(** The stream fills the element with bytes. *)
Hypothesis chacha20_bytes : ∀ seed n, wf_bytes (chacha20 seed n) ∧ length (chacha20 seed n) = n.
Hypothesis natural_mod_inverse_some : ∀ x p y, 0 < x < p → natural_mod_inverse x p = Some y → 0 < y < p ∧ (x * y) mod p = 1.
Hypothesis natural_mod_inverse_none : ∀ x p, 0 < x < p → natural_mod_inverse x p = None → Z.gcd x p ≠ 1.

Notation wf := (wf_limbs U3072.LIMBS).
Notation val := limbs_value.

Lemma wf_element d : wf (data_to_element d).
Proof. destruct (chacha20_bytes (MuHashElementHash d) ELEMENT_BYTE_SIZE). by apply U3072.from_le_bytes_ok. Qed.

(** [m] holds the ratio of [a] to [r]. *)
Definition ratio (m : MuHash) (a r : Z) : Prop :=
  wf (numerator m) ∧ wf (denominator m) ∧ U3072.unit_mod (val (denominator m)) ∧ U3072.cong (val (numerator m) * r) (a * val (denominator m)).

(** Invertible modulo the prime, as every number that is not a multiple of it is. *)
Definition removable (ds : list bytes) : Prop := Forall (λ d, Z.gcd (element d) U3072.P = 1) ds.

Lemma serialize_ok m a r : ratio m a r →
  ∃ v, serialize m = Ok (U3072.to_le_bytes v, {| numerator := v; denominator := U3072.one |}) ∧ wf v ∧ val v < U3072.P ∧ U3072.cong (val v * r) a.
Proof.
  intros (Hn & Hd & Hu & Hc). unfold serialize, normalize.
  destruct (U3072.div_ok natural_mod_inverse debug_assertions natural_mod_inverse_some natural_mod_inverse_none _ _ Hn Hd Hu) as (v & -> & Hv & HP & Hq).
  cbn [mbind res_bind numerator]. exists v. split; [done|]. split; [done|]. split; [done|]. apply (U3072.unit_cancel _ _ (val (denominator m)) Hu).
  rewrite <- Hc, <- Hq. apply reflexive_eq. ring.
Qed.

Lemma ratio_new : ratio muhash_new 1 1.
Proof. split; [apply U3072.wf_one|]. split; [apply U3072.wf_one|]. cbn [numerator denominator muhash_new]. rewrite U3072.value_one. split; [apply U3072.unit_one|done]. Qed.
Lemma ratio_mul_numerator m a r e : ratio m a r → wf e →
  ∃ n, U3072.mul (numerator m) e = Ok n ∧ ratio {| numerator := n; denominator := denominator m |} (val e * a) r.
Proof.
  intros (Hn & Hd & Hu & Hc) He. destruct (U3072.mul_cong _ _ Hn He) as (n & E & Hw & Hv & _). exists n. split; [exact E|].
  split; [exact Hw|]. split; [exact Hd|]. split; [exact Hu|]. cbn [numerator denominator]. rewrite Hv.
  transitivity (val e * (val (numerator m) * r)); [|rewrite Hc]; apply reflexive_eq; ring.
Qed.
Lemma ratio_mul_denominator m a r e : ratio m a r → wf e → U3072.unit_mod (val e) →
  ∃ n, U3072.mul (denominator m) e = Ok n ∧ ratio {| numerator := numerator m; denominator := n |} a (val e * r).
Proof.
  intros (Hn & Hd & Hu & Hc) He Hue. destruct (U3072.mul_cong _ _ Hd He) as (n & E & Hw & Hv & _). exists n. split; [exact E|].
  split; [exact Hn|]. split; [exact Hw|]. cbn [numerator denominator]. split; [rewrite Hv; by apply U3072.unit_mul|].
  rewrite Hv. transitivity (val e * (val (numerator m) * r)); [|rewrite Hc]; apply reflexive_eq; ring.
Qed.
Lemma ratio_combine m1 a1 r1 m2 a2 r2 : ratio m1 a1 r1 → ratio m2 a2 r2 → ∃ m', combine m1 m2 = Ok m' ∧ ratio m' (a1 * a2) (r1 * r2).
Proof.
  intros (Hn & Hd & Hu & Hc) (Hn' & Hd' & Hu' & Hc'). unfold combine.
  destruct (U3072.mul_cong _ _ Hn Hn') as (n & -> & Hwn & Hvn & _). destruct (U3072.mul_cong _ _ Hd Hd') as (d & -> & Hwd & Hvd & _).
  cbn [mbind res_bind]. eexists. split; [done|]. split; [exact Hwn|]. split; [exact Hwd|]. cbn [numerator denominator].
  split; [rewrite Hvd; by apply U3072.unit_mul|]. rewrite Hvn, Hvd.
  transitivity ((val (numerator m1) * r1) * (val (numerator m2) * r2)); [apply reflexive_eq; ring|]. rewrite Hc, Hc'. apply reflexive_eq. ring.
Qed.
Lemma ratio_normal v a r : wf v → U3072.cong (val v * r) a → ratio {| numerator := v; denominator := U3072.one |} a r.
Proof.
  intros Hv Hc. split; [exact Hv|]. split; [apply U3072.wf_one|]. cbn [numerator denominator]. rewrite U3072.value_one. split; [apply U3072.unit_one|].
  by rewrite Hc, Z.mul_1_r.
Qed.
Lemma deserialize_ok v : wf v → val v < U3072.P → deserialize (U3072.to_le_bytes v) = Ok {| numerator := v; denominator := U3072.one |}.
Proof.
  intros Hv HP. unfold deserialize. rewrite U3072.limbs_le_roundtrip, U3072.is_overflow_ok by exact Hv. cbn [map_err mbind res_bind].
  by rewrite (proj2 (Z.leb_gt _ _) HP).
Qed.
Lemma builder_chunks b ds : muhash_field (foldl builder_update b ds) = muhash_field b ∧ written (foldl builder_update b ds) = written b ++ mjoin ds.
Proof.
  revert b. induction ds as [|d ds IH]; intros b; cbn [foldl]; [by rewrite app_nil_r|]. destruct (IH (builder_update b d)) as [-> ->].
  cbn. by rewrite <- app_assoc.
Qed.

(** Every program returns, and its hash is the ratio of the two products. *)
Lemma run_ratio p : removable (removed p) → ∃ m, run p = Ok m ∧ ratio m (product (added p)) (product (removed p)).
Proof.
  assert (∀ d, Z.gcd (element d) U3072.P = 1 → U3072.unit_mod (val (data_to_element d))) as Hgcd by (intros d; apply U3072.unit_coprime).
  induction p as [|p IH d|p IH d|p IH ds|p IH ds|p IHp q IHq|p IH|p IH]; cbn [run added removed]; intros Hr.
  - eexists. split; [done|]. apply ratio_new.
  - destruct (IH Hr) as (m & -> & Hm). destruct (ratio_mul_numerator _ _ _ _ Hm (wf_element d)) as (n & En & Hn). cbn [mbind res_bind]. unfold add_element. rewrite En. by eexists.
  - apply Forall_cons in Hr as [Hd Hr]. destruct (IH Hr) as (m & -> & Hm). destruct (ratio_mul_denominator _ _ _ _ Hm (wf_element d) (Hgcd d Hd)) as (n & En & Hn).
    cbn [mbind res_bind]. unfold remove_element. rewrite En. by eexists.
  - destruct (IH Hr) as (m & -> & Hm). destruct (ratio_mul_numerator _ _ _ _ Hm (wf_element (mjoin ds))) as (n & En & Hn). cbn [mbind res_bind]. unfold builder_finalize.
    destruct (builder_chunks (add_element_builder m) ds) as [-> ->]. cbn [add_element_builder builder_new muhash_field written app]. fold (data_to_element (mjoin ds)). rewrite En. by eexists.
  - apply Forall_cons in Hr as [Hd Hr]. destruct (IH Hr) as (m & -> & Hm). destruct (ratio_mul_denominator _ _ _ _ Hm (wf_element (mjoin ds)) (Hgcd _ Hd)) as (n & En & Hn).
    cbn [mbind res_bind]. unfold builder_finalize. destruct (builder_chunks (remove_element_builder m) ds) as [-> ->].
    cbn [remove_element_builder builder_new muhash_field written app]. fold (data_to_element (mjoin ds)). rewrite En. by eexists.
  - apply Forall_app in Hr as [Hr1 Hr2]. destruct (IHp Hr1) as (m & -> & Hm), (IHq Hr2) as (m' & -> & Hm'). cbn [mbind res_bind].
    destruct (ratio_combine _ _ _ _ _ _ Hm Hm') as (c & -> & Hc). rewrite !product_app. by eexists.
  - destruct (IH Hr) as (m & -> & Hm). destruct (serialize_ok _ _ _ Hm) as (v & Ev & Hv & HP & Hc). cbn [mbind res_bind]. unfold finalize. rewrite Ev. eexists. split; [done|]. by apply ratio_normal.
  - destruct (IH Hr) as (m & -> & Hm). cbn [mbind res_bind].
    destruct (serialize_ok _ _ _ Hm) as (v & -> & Hv & HP & Hc). cbn [mbind res_bind total map_err]. rewrite deserialize_ok by done.
    eexists. split; [done|]. by apply ratio_normal.
Qed.

(** Two serializations agree exactly when the cross products do. *)
Lemma serialized_equal m1 a1 r1 m2 a2 r2 : ratio m1 a1 r1 → ratio m2 a2 r2 → U3072.unit_mod r1 → U3072.unit_mod r2 →
  ∃ s1 s2, (fst <$> serialize m1) = Ok s1 ∧ (fst <$> serialize m2) = Ok s2 ∧ (s1 = s2 ↔ U3072.cong (a1 * r2) (a2 * r1)).
Proof.
  intros H1 H2 Hr1 Hr2. destruct (serialize_ok _ _ _ H1) as (v1 & -> & Hv1 & HP1 & Hc1). destruct (serialize_ok _ _ _ H2) as (v2 & -> & Hv2 & HP2 & Hc2).
  exists (U3072.to_le_bytes v1), (U3072.to_le_bytes v2). split; [done|]. split; [done|]. split.
  - intros Hs. assert (v1 = v2) as -> by (rewrite <- (U3072.limbs_le_roundtrip v1), <- (U3072.limbs_le_roundtrip v2) by done; by rewrite Hs).
    rewrite <- Hc1, <- Hc2. apply reflexive_eq. ring.
  - intros Hx. f_equal. apply U3072.value_inj; [done|done|]. apply U3072.cong_small.
    + split; [apply limbs_value_bound, Hv1|done].
    + split; [apply limbs_value_bound, Hv2|done].
    + apply (U3072.unit_cancel _ _ (r1 * r2)); [by apply U3072.unit_mul|]. transitivity ((val v1 * r1) * r2); [apply reflexive_eq; ring|].
      rewrite Hc1, Hx, <- Hc2. apply reflexive_eq. ring.
Qed.
Lemma removable_unit ds : removable ds → U3072.unit_mod (product ds).
Proof. induction 1 as [|d ds Hd _ IH]; [apply U3072.unit_one|]. apply U3072.unit_mul; [by apply U3072.unit_coprime|done]. Qed.

(** C33. The multiplicative set hash is a hash of multisets.  Take two programs of additions, removals, streamed elements,
    combinations, finalizations and reloads, in which every removed element is invertible modulo the prime.  No call of
    either panics and no reload is refused; so both return a hash and serializing it does not panic.  The two serializations
    are equal exactly when the products of the field agree across the two ratios, and so the finalized hashes are equal
    whenever the two programs amount to the same multiset, in whatever order. *)
Theorem muhash_multiset (p1 p2 : program) : removable (removed p1 ++ removed p2) →
  ∃ m1 m2 s1 s2, run p1 = Ok m1 ∧ run p2 = Ok m2 ∧ (fst <$> serialize m1) = Ok s1 ∧ (fst <$> serialize m2) = Ok s2 ∧
    (s1 = s2 ↔ product (added p1 ++ removed p2) mod U3072.P = product (added p2 ++ removed p1) mod U3072.P) ∧
    (added p1 ++ removed p2 ≡ₚ added p2 ++ removed p1 → ∃ h, (fst <$> finalize m1) = Ok h ∧ (fst <$> finalize m2) = Ok h).
Proof.
  intros [Hr1 Hr2]%Forall_app. destruct (run_ratio _ Hr1) as (m1 & R1 & H1), (run_ratio _ Hr2) as (m2 & R2 & H2).
  destruct (serialized_equal _ _ _ _ _ _ H1 H2 (removable_unit _ Hr1) (removable_unit _ Hr2)) as (s1 & s2 & E1 & E2 & Hs).
  rewrite <- !product_app in Hs. exists m1, m2, s1, s2. split; [done|]. split; [done|]. split; [done|]. split; [done|]. split; [done|].
  intros Hp. apply product_perm in Hp. assert (s1 = s2) as <- by (apply Hs; by rewrite Hp).
  apply res_fmap_ok in E1 as ([s m1'] & E1 & ->). apply res_fmap_ok in E2 as ([s' m2'] & E2 & Heq). cbn [fst] in *. subst s'.
  exists (MuHashFinalizeHash s). unfold finalize. by rewrite E1, E2.
Qed.
End muhash.

(** ** Examples *)

Definition example_mod_inverse (x p : Z) : option Z := if Z.gcd x p =? 1 then Some (Z.invmod x p) else None.
Lemma example_mod_inverse_some x p y : 0 < x < p → example_mod_inverse x p = Some y → 0 < y < p ∧ (x * y) mod p = 1.
Proof.
  intros Hx. unfold example_mod_inverse. destruct (Z.eqb_spec (Z.gcd x p) 1) as [Hg|]; [|done]. injection 1 as <-.
  pose proof (Z.invmod_coprime x p ltac:(lia) Hg) as E. pose proof (Z.mod_pos_bound (Z.invmod x p) p ltac:(lia)) as Hb. rewrite Z.mod_invmod in Hb.
  split; [|by rewrite Z.mul_comm]. split; [|lia]. destruct (decide (Z.invmod x p = 0)) as [H0|]; [|lia]. rewrite H0 in E. by rewrite Z.mul_0_l, Z.mod_0_l in E by lia.
Qed.
Lemma example_mod_inverse_none x p : 0 < x < p → example_mod_inverse x p = None → Z.gcd x p ≠ 1.
Proof. intros _. unfold example_mod_inverse. by destruct (Z.eqb_spec (Z.gcd x p) 1). Qed.
(** The stream whose element is the first byte of the seed. *)
Definition example_stream (seed : bytes) (n : nat) : bytes := take n [match seed with x :: _ => x mod 256 | [] => 1 end] ++ replicate (n - 1) 0.
Lemma example_stream_bytes seed n : wf_bytes (example_stream seed n) ∧ length (example_stream seed n) = n.
Proof.
  unfold example_stream. split.
  - apply Forall_app. split; [|by apply Forall_replicate]. destruct n as [|n]; [constructor|]. cbn [take]. constructor; [|destruct n; constructor].
    destruct seed as [|b ?]; [done|]. by apply (Z.mod_pos_bound b 256).
  - destruct n as [|n]; [done|]. cbn [take]. rewrite length_app, length_replicate. cbn. destruct n; cbn; lia.
Qed.

(** Adding 2 and 3 and removing 3 again, with a reload between, gives the hash of the set of 2. *)
Definition example_program : program := CallRemove (CallReload (CallAdd (CallAdd CallNew [2]) [3])) [3].
Lemma muhash_multiset_witness : ∃ m1 m2 h,
  let hash := λ d : bytes, d in
  run hash example_stream hash example_mod_inverse true example_program = Ok m1 ∧
  run hash example_stream hash example_mod_inverse true (CallAdd CallNew [2]) = Ok m2 ∧
  (fst <$> finalize hash example_mod_inverse true m1) = Ok h ∧ (fst <$> finalize hash example_mod_inverse true m2) = Ok h.
Proof.
  destruct (muhash_multiset (λ d, d) example_stream (λ d, d) example_mod_inverse true example_stream_bytes example_mod_inverse_some
    example_mod_inverse_none example_program (CallAdd CallNew [2])) as (m1 & m2 & s1 & s2 & R1 & R2 & _ & _ & _ & Hh).
  - constructor; [by vm_compute|constructor].
  - destruct Hh as (h & E1 & E2); [apply Permutation_swap|]. exists m1, m2, h. split; [exact R1|]. split; [exact R2|]. split; [exact E1|exact E2].
Defined.

(** C34. The limb product of the 3072-bit field: for any two elements, reduced or not, the
    interleaved multiplication and reduction neither overflows a word nor trips an
    assertion, and its result is congruent to the product of the values modulo
    2^3072 - 1103717; unless the left factor is one, which returns the right factor as it
    is, the result is reduced. *)
Theorem u3072_mul_exact x y : wf_limbs U3072.LIMBS x → wf_limbs U3072.LIMBS y →
  ∃ z, U3072.mul x y = Ok z ∧ wf_limbs U3072.LIMBS z ∧
    limbs_value z mod U3072.P = (limbs_value x * limbs_value y) mod U3072.P ∧
    (if bool_decide (x = U3072.one) then z = y else limbs_value z = (limbs_value x * limbs_value y) mod U3072.P).
Proof.
  intros Hx Hy. destruct (U3072.mul_cong x y Hx Hy) as (z & E & Hz & Hc & HP). exists z. split; [exact E|]. split; [exact Hz|]. split; [exact Hc|].
  case_bool_decide as Hone; [subst x; rewrite U3072.mul_one in E; by injection E|].
  rewrite <- Hc, Z.mod_small; [done|]. split; [apply limbs_value_bound, Hz|by apply HP].
Qed.
(** The square of the largest representation. *)
Lemma u3072_mul_exact_witness : ∃ z, U3072.mul (replicate 48 (B - 1)) (replicate 48 (B - 1)) = Ok z ∧ limbs_value z = 1103716 ^ 2.
Proof.
  assert (wf_limbs U3072.LIMBS (replicate 48 (B - 1))) as Hw by (split; [done|]; apply Forall_replicate; done).
  destruct (u3072_mul_exact _ _ Hw Hw) as (z & E & _ & _ & Hv). exists z. split; [exact E|].
  rewrite bool_decide_eq_false_2, (limbs_value_max 48) in Hv by done. rewrite Hv. destruct U3072.P_big as (HP & _ & Ep & _).
  change (Z.of_nat 48) with 48. rewrite Ep. pose proof U3072.small_consts. symmetry.
  apply (Z.mod_unique_pos _ _ (U3072.P + 2 * 1103716)); unfold U3072.PRIME_DIFF; nia.
Defined.
