(* ===== verification/Tx.v ===== *)
(** Transactions and their masses.

    The consensus transaction of consensus/core/src/tx.rs (outpoints, inputs,
    outputs, covenant bindings, compute commitments) with its UTXO entries, the
    mass units of consensus/core/src/mass/units.rs and the mass rules of
    consensus/core/src/mass/mod.rs: the estimated serialized size, the compute
    and transient masses and the KIP-0009 storage mass.  Every [u64] sum and
    product of the source is written with the overflow behaviour of the code:
    [add_u] and [mul_u] panic, [checked_*] return [None], [saturating_*] clamp.

    The theorems show that the mass calculations never panic on transactions of
    bounded size, that the storage mass is the KIP-0009 formula over the
    integers, and that the compute budget chosen for a script is the smallest
    one that covers it. *)
From stdpp Require Import base gmap list.
From S2P Require Import Prelude Bundle.

(** ** Transaction data (consensus/core/src/tx.rs) *)

Record TransactionOutpoint := mk_outpoint { transaction_id : bytes; outpoint_index : Z }.

Record ScriptPublicKey := mk_spk { spk_version : Z; spk_script : bytes }.

Inductive ComputeCommit :=
  | SigopCount (n : Z)
  | ComputeBudget (n : Z).

Record TransactionInput := mk_input {
  previous_outpoint : TransactionOutpoint;
  signature_script : bytes;
  sequence : Z;
  compute_commit : ComputeCommit
}.

Record CovenantBinding := mk_binding { authorizing_input : Z; binding_covenant_id : bytes }.

Record TransactionOutput := mk_output {
  value : Z;
  out_spk : ScriptPublicKey;
  covenant : option CovenantBinding
}.

Record Transaction := mk_tx {
  version : Z;
  inputs : list TransactionInput;
  outputs : list TransactionOutput;
  lock_time : Z;
  subnetwork_id : bytes;
  gas : Z;
  payload : bytes;
  storage_mass : Z
}.

Record UtxoEntry := mk_entry {
  amount : Z;
  entry_spk : ScriptPublicKey;
  block_daa_score : Z;
  is_coinbase_entry : bool;
  entry_covenant_id : option bytes
}.

(** [PopulatedTransaction]: a transaction with the entries its inputs spend. *)
Record PopulatedTransaction := mk_populated { ptx : Transaction; entries : list UtxoEntry }.

Definition SUBNETWORK_ID_SIZE : Z := 20.
Definition HASH_SIZE : Z := 32.
Definition TX_VERSION_SHIELDED : Z := 2.
Definition from_byte (b : Z) : bytes := b :: zeros 19.
Definition SUBNETWORK_ID_NATIVE : bytes := from_byte 0.
Definition SUBNETWORK_ID_COINBASE : bytes := from_byte 1.
Definition ZERO_HASH : bytes := zeros 32.

Definition is_native (id : bytes) : bool := bool_decide (id = SUBNETWORK_ID_NATIVE).
Definition is_coinbase (tx : Transaction) : bool := bool_decide (subnetwork_id tx = SUBNETWORK_ID_COINBASE).
Definition is_shielded (tx : Transaction) : bool :=
  (version tx =? TX_VERSION_SHIELDED) && negb (is_coinbase tx).

Definition shielded_sighash_context (tx : Transaction) : bytes :=
  to_le_bytes 2 (version tx) ++ subnetwork_id tx ++ to_le_bytes 8 (lock_time tx) ++ to_le_bytes 8 (gas tx).

(** [PopulatedTransaction::new] asserts that every input has its entry. *)
Definition populated_new (tx : Transaction) (es : list UtxoEntry) : exec PopulatedTransaction :=
  guard_panic (Nat.eqb (length (inputs tx)) (length es)) ;;
  Ok (mk_populated tx es).

Definition populated_input (p : PopulatedTransaction) (index : Z) : exec (TransactionInput * UtxoEntry) :=
  i ← unwrap (inputs (ptx p) !! Z.to_nat index);
  e ← unwrap (entries p !! Z.to_nat index);
  Ok (i, e).

Definition utxo (p : PopulatedTransaction) (index : Z) : option UtxoEntry := entries p !! Z.to_nat index.

(** The pairs the iterator [populated_inputs] yields. *)
Definition populated_inputs (p : PopulatedTransaction) : exec (list (TransactionInput * UtxoEntry)) :=
  res_foldl (λ acc i, x ← populated_input p (Z.of_nat i); Ok (acc ++ [x])) [] (seq 0 (length (inputs (ptx p)))).

Definition sig_op_count (c : ComputeCommit) : option Z := match c with SigopCount n => Some n | _ => None end.
Definition compute_budget (c : ComputeCommit) : option Z := match c with ComputeBudget n => Some n | _ => None end.
Definition version_expects_compute_budget_field (v : Z) : bool := 1 <=? v.
Definition version_expects_sig_op_count_field (v : Z) : bool := negb (version_expects_compute_budget_field v).

(** ** Mass units (consensus/core/src/mass/units.rs) *)

Definition GRAMS_PER_COMPUTE_BUDGET_UNIT : Z := 100.
Definition GRAMS_PER_SIGOP_COUNT_UNIT : Z := 1000.
Definition SCRIPT_UNITS_PER_GRAM : Z := 100.
Definition SCRIPT_UNITS_PER_COMPUTE_BUDGET_UNIT : Z := GRAMS_PER_COMPUTE_BUDGET_UNIT * SCRIPT_UNITS_PER_GRAM.
Definition SCRIPT_UNITS_PER_SIGOP_COUNT_UNIT : Z := GRAMS_PER_SIGOP_COUNT_UNIT * SCRIPT_UNITS_PER_GRAM.

Definition free_script_units_per_input : Z := saturating_sub SCRIPT_UNITS_PER_COMPUTE_BUDGET_UNIT 1.
Definition script_units_of_sigop_count (n : Z) : exec Z := mul_u 64 n SCRIPT_UNITS_PER_SIGOP_COUNT_UNIT.
Definition script_units_of_compute_budget (n : Z) : exec Z := mul_u 64 n SCRIPT_UNITS_PER_COMPUTE_BUDGET_UNIT.
Definition script_units_of_gram {E} (g : Z) : res E Z := mul_u 64 g SCRIPT_UNITS_PER_GRAM.
Definition to_grams (n : Z) : exec Z := mul_u 64 n GRAMS_PER_COMPUTE_BUDGET_UNIT.

(** [ComputeBudget::try_from(ScriptUnits)]: [u16::try_from] of the rounded-up quotient. *)
Definition compute_budget_try_from (units : Z) : option Z :=
  let scaled := div_ceil units SCRIPT_UNITS_PER_COMPUTE_BUDGET_UNIT in
  if scaled <? 2 ^ 16 then Some scaled else None.

Definition checked_covering_script_units (required : Z) : option Z :=
  compute_budget_try_from (saturating_sub required free_script_units_per_input).

Definition script_units_of_commit (c : ComputeCommit) : exec Z :=
  match c with
  | SigopCount n => script_units_of_sigop_count n
  | ComputeBudget n => script_units_of_compute_budget n
  end.

Definition allowed_script_units (c : ComputeCommit) : exec Z :=
  units ← script_units_of_commit c;
  Ok (saturating_add 64 units free_script_units_per_input).

(** ** Non-contextual masses (consensus/core/src/mass/mod.rs) *)

Definition SHIELDED_MASS_PER_ACTION : Z := 1000.
Definition TRANSIENT_BYTE_TO_MASS_FACTOR : Z := 4.

(** [Iterator::sum] over [u64]. *)
Definition sum_u64 (l : list Z) : exec Z := res_foldl (add_u 64) 0 l.

(** A sequence of [size += x] statements. *)
Definition add_all (size : Z) (l : list Z) : exec Z := res_foldl (add_u 64) size l.

Definition outpoint_estimated_serialized_size : exec Z := add_all 0 [HASH_SIZE; 4].

Definition transaction_input_estimated_serialized_size (input : TransactionInput) (v : Z) : exec Z :=
  outpoint_size ← outpoint_estimated_serialized_size;
  size ← add_all 0 [outpoint_size; 8; Zlength (signature_script input); 8];
  if 1 <=? v then add_u 64 size 2 else Ok size.

Definition transaction_output_estimated_serialized_size (output : TransactionOutput) : exec Z :=
  size ← add_all 0 [8; 2; 8; Zlength (spk_script (out_spk output))];
  if covenant output then add_all size [2; HASH_SIZE] else Ok size.

(** [.map(f).sum()] where [f] may itself overflow. *)
Definition sum_map_u64 {A} (f : A → exec Z) (l : list A) : exec Z :=
  res_foldl (λ acc x, y ← f x; add_u 64 acc y) 0 l.

Definition transaction_estimated_serialized_size (tx : Transaction) : exec Z :=
  size ← add_all 0 [2; 8];
  inputs_size ← sum_map_u64 (λ i, transaction_input_estimated_serialized_size i (version tx)) (inputs tx);
  size ← add_all size [inputs_size; 8];
  outputs_size ← sum_map_u64 transaction_output_estimated_serialized_size (outputs tx);
  add_all size [outputs_size; 8; SUBNETWORK_ID_SIZE; 8; HASH_SIZE; 8; Zlength (payload tx)].

Record NonContextualMasses := mk_masses { compute_mass : Z; transient_mass : Z }.

Record MassCalculator := mk_mass_calculator {
  mass_per_tx_byte : Z;
  mass_per_script_pub_key_byte : Z;
  storage_mass_parameter : Z
}.

Definition script_mass (tx : Transaction) : exec Z :=
  if version_expects_compute_budget_field (version tx) then
    budgets ← sum_map_u64 (λ i, unwrap (compute_budget (compute_commit i))) (inputs tx);
    mul_u 64 GRAMS_PER_COMPUTE_BUDGET_UNIT budgets
  else
    total_sigops ← sum_map_u64 (λ i, unwrap (sig_op_count (compute_commit i))) (inputs tx);
    mul_u 64 total_sigops GRAMS_PER_SIGOP_COUNT_UNIT.

Definition calc_non_contextual_masses (mc : MassCalculator) (tx : Transaction) : exec NonContextualMasses :=
  if is_coinbase tx then Ok (mk_masses 0 0) else
  size ← transaction_estimated_serialized_size tx;
  compute_mass_for_size ← mul_u 64 size (mass_per_tx_byte mc);
  total_script_public_key_size ←
    sum_map_u64 (λ o, add_u 64 2 (Zlength (spk_script (out_spk o)))) (outputs tx);
  total_script_public_key_mass ← mul_u 64 total_script_public_key_size (mass_per_script_pub_key_byte mc);
  script_mass ← script_mass tx;
  base_compute_mass ← add_all compute_mass_for_size [total_script_public_key_mass; script_mass];
  compute_mass ←
    (if is_shielded tx then
       actions ← action_count_from_bytes (payload tx);
       Ok (saturating_add 64 base_compute_mass
             (saturating_mul 64 (default 0 actions) SHIELDED_MASS_PER_ACTION))
     else Ok base_compute_mass);
  transient_mass ← mul_u 64 size TRANSIENT_BYTE_TO_MASS_FACTOR;
  Ok (mk_masses compute_mass transient_mass).

(** ** Storage mass *)

Definition UTXO_CONST_STORAGE : Z := 32 + 4 + 8 + 8 + 1 + 2 + 8.
Definition UTXO_UNIT_SIZE : Z := 100.

Definition utxo_plurality (spk : ScriptPublicKey) (has_covenant_id : bool) : exec Z :=
  n ← add_all UTXO_CONST_STORAGE [Zlength (spk_script spk); if has_covenant_id then HASH_SIZE else 0];
  Ok (div_ceil n UTXO_UNIT_SIZE).

Definition plurality_entry (e : UtxoEntry) : exec Z :=
  utxo_plurality (entry_spk e) (if entry_covenant_id e then true else false).

Definition plurality_output (o : TransactionOutput) : exec Z :=
  utxo_plurality (out_spk o) (if covenant o then true else false).

Record UtxoCell := mk_cell { plurality : Z; cell_amount : Z }.

Definition cell_of_entry (e : UtxoEntry) : exec UtxoCell := p ← plurality_entry e; Ok (mk_cell p (amount e)).
Definition cell_of_output (o : TransactionOutput) : exec UtxoCell := p ← plurality_output o; Ok (mk_cell p (value o)).

(** One step of the fold over the outputs: [None] is the [?] of the checked
    operations, a panic is the unchecked sum or the division. *)
Definition harmonic_out_step (storm_param : Z) (acc : option (Z * Z)) (c : UtxoCell) : exec (option (Z * Z)) :=
  match acc with
  | None => Ok None
  | Some (acc_plurality, acc_harm) =>
      p ← add_u 64 acc_plurality (plurality c);
      match m ← checked_mul 64 storm_param (plurality c); checked_mul 64 m (plurality c) with
      | None => Ok None
      | Some m =>
          q ← div_u m (cell_amount c);
          Ok (h ← checked_add 64 acc_harm q; Some (p, h))
      end
  end.

Definition harmonic_outs_fold (storm_param : Z) (outs : list UtxoCell) : exec (option (Z * Z)) :=
  res_foldl (harmonic_out_step storm_param) (Some (0, 0)) outs.

Definition relaxed_formula_path (outs_plurality : Z) (ins : list UtxoCell) : exec bool :=
  if outs_plurality =? 1 then Ok true
  else if 2 <? Zlength ins then Ok false
  else
    ins_plurality ← sum_u64 (plurality <$> ins);
    Ok ((ins_plurality =? 1) || ((outs_plurality =? 2) && (ins_plurality =? 2))).

Definition harmonic_in (storm_param : Z) (c : UtxoCell) : exec Z :=
  m ← mul_u 64 storm_param (plurality c);
  m ← mul_u 64 m (plurality c);
  div_u m (cell_amount c).

Definition harmonic_ins_fold (storm_param : Z) (ins : list UtxoCell) : exec Z :=
  res_foldl (λ total c, current ← harmonic_in storm_param c; Ok (saturating_add 64 total current)) 0 ins.

Definition arithmetic_fold (ins : list UtxoCell) : exec (Z * Z) :=
  res_foldl (λ '(acc_plur, acc_amt) c,
    p ← add_u 64 acc_plur (plurality c);
    a ← add_u 64 acc_amt (cell_amount c);
    Ok (p, a)) (0, 0) ins.

Definition calc_storage_mass (coinbase : bool) (ins outs : list UtxoCell) (storm_param : Z) : exec (option Z) :=
  if coinbase then Ok (Some 0) else
  ho ← harmonic_outs_fold storm_param outs;
  match ho with
  | None => Ok None
  | Some (outs_plurality, harmonic_outs) =>
      if Zlength ins =? 0 then Ok (Some harmonic_outs) else
      relaxed ← relaxed_formula_path outs_plurality ins;
      if (relaxed : bool) then
        harmonic_ins ← harmonic_ins_fold storm_param ins;
        Ok (Some (saturating_sub harmonic_outs harmonic_ins))
      else
        '(ins_plurality, sum_ins) ← arithmetic_fold ins;
        q ← div_u sum_ins ins_plurality;
        let mean_ins := Z.max q 1 in
        r ← div_u storm_param mean_ins;
        let arithmetic_ins := saturating_mul 64 ins_plurality r in
        Ok (Some (saturating_sub harmonic_outs arithmetic_ins))
  end.

Definition calc_contextual_masses (mc : MassCalculator) (p : PopulatedTransaction) : exec (option Z) :=
  if is_coinbase (ptx p) then calc_storage_mass true [] [] (storage_mass_parameter mc) else
  ins ← populated_inputs p;
  in_cells ← res_foldl (λ acc '(_, e), c ← cell_of_entry e; Ok (acc ++ [c])) [] ins;
  out_cells ← res_foldl (λ acc o, c ← cell_of_output o; Ok (acc ++ [c])) [] (outputs (ptx p));
  calc_storage_mass false in_cells out_cells (storage_mass_parameter mc).

(** ** Exact evaluation of the checked sums *)

Lemma populated_input_ok p i a b :
  populated_input p i = Ok (a, b) ↔ inputs (ptx p) !! Z.to_nat i = Some a ∧ entries p !! Z.to_nat i = Some b.
Proof.
  unfold populated_input. split; [|by intros [-> ->]].
  destruct (inputs (ptx p) !! Z.to_nat i), (entries p !! Z.to_nat i); cbn; by intros; simplify_eq.
Qed.

Lemma add_all_exact size l :
  0 <= size → Forall (λ x, 0 <= x) l → size + sum_list_Z l < 2 ^ 64 →
  add_all size l = Ok (size + sum_list_Z l).
Proof.
  unfold add_all. intros Hs Hl. revert size Hs. induction Hl as [|x l Hx Hl IH]; intros size Hs Hlt; simpl in *.
  - f_equal. lia.
  - pose proof (sum_list_Z_nonneg _ Hl).
    replace (add_u 64 size x) with (Ok (E := Empty_set) (size + x)) by (symmetry; apply add_u_ok; lia).
    cbn. rewrite IH; [f_equal; lia | lia | lia].
Qed.

Lemma sum_map_exact {A} (f : A → exec Z) (g : A → Z) l :
  Forall (λ x, f x = Ok (g x) ∧ 0 <= g x) l → sum_list_Z (g <$> l) < 2 ^ 64 →
  sum_map_u64 f l = Ok (sum_list_Z (g <$> l)).
Proof.
  intros Hl Hlt. enough (∀ acc, 0 <= acc → acc + sum_list_Z (g <$> l) < 2 ^ 64 →
    res_foldl (λ acc x, y ← f x; add_u 64 acc y) acc l = Ok (acc + sum_list_Z (g <$> l))) as H.
  { unfold sum_map_u64. rewrite H; [done | lia | lia]. }
  clear Hlt. induction Hl as [|x l [Hx Hx0] Hl IH]; intros acc Ha Hlt; rewrite ?fmap_cons in *;
    cbn [res_foldl sum_list_Z] in *.
  - f_equal. cbn. lia.
  - assert (0 <= sum_list_Z (g <$> l)).
    { apply sum_list_Z_nonneg, Forall_fmap. eapply Forall_impl; [exact Hl | by intros ? []]. }
    rewrite Hx. cbn.
    replace (add_u 64 acc (g x)) with (Ok (E := Empty_set) (acc + g x)) by (symmetry; apply add_u_ok; lia).
    cbn. rewrite IH; [f_equal; lia | lia | lia].
Qed.

Lemma sum_list_Z_map_le {A} (f g : A → Z) l :
  Forall (λ x, f x <= g x) l → sum_list_Z (f <$> l) <= sum_list_Z (g <$> l).
Proof. induction 1; [done|]. rewrite !fmap_cons. cbn [sum_list_Z]. lia. Qed.

Lemma sum_list_Z_map_scale {A} (f : A → Z) k l : sum_list_Z ((λ x, k * f x) <$> l) = k * sum_list_Z (f <$> l).
Proof. induction l; [simpl; lia|]. rewrite !fmap_cons. cbn [sum_list_Z]. lia. Qed.

(** ** Compute budgets *)

(** Smallest covering budget: the compute budget chosen for a script that
    uses [r] units is the least [u16] budget whose allowance (the committed
    units plus the free units of the input) covers [r], and no budget is
    returned exactly when even the largest one does not cover it. *)
Theorem covering_budget_least (r : Z) :
  0 <= r →
  match checked_covering_script_units r with
  | Some b => is_uint 16 b ∧
      (∃ u, allowed_script_units (ComputeBudget b) = Ok u ∧ r <= u) ∧
      (∀ b' u', 0 <= b' < b → allowed_script_units (ComputeBudget b') = Ok u' → u' < r)
  | None => ∀ b u, is_uint 16 b → allowed_script_units (ComputeBudget b) = Ok u → u < r
  end.
Proof.
  intros Hr.
  assert (∀ b u, is_uint 16 b → allowed_script_units (ComputeBudget b) = Ok u ↔ u = 10000 * b + 9999) as Hall.
  { intros b u Hb. unfold is_uint in Hb. unfold allowed_script_units, script_units_of_commit, script_units_of_compute_budget.
    replace (mul_u 64 b _) with (Ok (E := Empty_set) (10000 * b))
      by (symmetry; apply mul_u_ok; change SCRIPT_UNITS_PER_COMPUTE_BUDGET_UNIT with 10000; lia).
    cbn -[Z.mul Z.add Z.pow]. change free_script_units_per_input with 9999. unfold saturating_add.
    rewrite Z.min_l by lia. split; [by intros [=] | by intros ->]. }
  unfold checked_covering_script_units, compute_budget_try_from, div_ceil, saturating_sub.
  change free_script_units_per_input with 9999. change SCRIPT_UNITS_PER_COMPUTE_BUDGET_UNIT with 10000.
  set (q := (Z.max (r - 9999) 0 + 10000 - 1) / 10000).
  assert (10000 * q <= Z.max (r - 9999) 0 + 9999 < 10000 * q + 10000) as Hq.
  { unfold q. pose proof (Z.div_mod (Z.max (r - 9999) 0 + 10000 - 1) 10000 ltac:(lia)).
    pose proof (Z.mod_pos_bound (Z.max (r - 9999) 0 + 10000 - 1) 10000 ltac:(lia)). lia. }
  destruct (Z.ltb_spec q (2 ^ 16)) as [Hlt|Hge].
  - assert (is_uint 16 q) as Hu by (unfold is_uint; lia). split; [done|]. split.
    + exists (10000 * q + 9999). rewrite Hall by done. lia.
    + intros b' u' Hb'. unfold is_uint in Hu. rewrite Hall by (unfold is_uint; lia). lia.
  - intros b u Hb. rewrite Hall by done. unfold is_uint in Hb. lia.
Qed.

Lemma covering_budget_least_witness :
  ∃ b, checked_covering_script_units 19999 = Some b ∧ is_uint 16 b ∧
    (∀ b' u', 0 <= b' < b → allowed_script_units (ComputeBudget b') = Ok u' → u' < 19999).
Proof.
  pose proof (covering_budget_least 19999 ltac:(lia)) as H.
  destruct (checked_covering_script_units 19999) as [b|] eqn:E; [|vm_compute in E; discriminate].
  destruct H as (H1 & _ & H3). by exists b.
Defined.

(** ** The storage mass formula *)

(** The harmonic term [C * p^2 / amount] of one cell. *)
Definition harmonic_term (C : Z) (c : UtxoCell) : Z := C * plurality c * plurality c / cell_amount c.

(** The relaxed rule applies: [|O| = 1], [|I| = 1] or [|O| = |I| = 2]. *)
Definition relaxed (ins outs : list UtxoCell) : bool :=
  let O := sum_list_Z (plurality <$> outs) in
  let I := sum_list_Z (plurality <$> ins) in
  bool_decide (O = 1 ∨ I = 1 ∨ (O = 2 ∧ I = 2)).
(** KIP-0009 over the integers: no width, no overflow. *)
Definition storage_mass_reference (C : Z) (ins outs : list UtxoCell) : Z :=
  let harmonic l := sum_list_Z (harmonic_term C <$> l) in
  let total f l := sum_list_Z (f <$> l) in
  let I := total plurality ins in
  if bool_decide (ins = []) then harmonic outs
  else if relaxed ins outs then Z.max 0 (harmonic outs - harmonic ins)
  else Z.max 0 (harmonic outs - I * (C / Z.max 1 (total cell_amount ins / I))).

(** A cell occupies storage and holds an amount; its plurality, squared and scaled, is within a [u64]. *)
Definition cell_pos (c : UtxoCell) : Prop := 1 <= plurality c ∧ 1 <= cell_amount c.
Definition cell_fits (C : Z) (c : UtxoCell) : bool := C * plurality c * plurality c <? 2 ^ 64.
Definition cell_ok (C : Z) (c : UtxoCell) : Prop :=
  1 <= plurality c ∧ 1 <= cell_amount c ∧ C * plurality c * plurality c < 2 ^ 64.
#[export] Instance cell_pos_dec c : Decision (cell_pos c).
Proof. unfold cell_pos. apply _. Defined.

#[export] Instance cell_ok_dec C c : Decision (cell_ok C c).
Proof. unfold cell_ok. apply _. Defined.

Definition cells_ok (C : Z) (l : list UtxoCell) : Prop :=
  Forall (cell_ok C) l ∧ sum_list_Z (plurality <$> l) < 2 ^ 64 ∧ sum_list_Z (cell_amount <$> l) < 2 ^ 64.

Lemma harmonic_term_pos C c : 0 <= C → cell_pos c → 0 <= harmonic_term C c.
Proof. intros HC [Hp Ha]. unfold harmonic_term. apply Z.div_pos; nia. Qed.
Lemma harmonic_sum_nonneg C l : 0 <= C → Forall cell_pos l → 0 <= sum_list_Z (harmonic_term C <$> l).
Proof.
  intros HC Hl. apply sum_list_Z_nonneg, Forall_fmap. eapply Forall_impl; [exact Hl|].
  intros c Hc. by apply harmonic_term_pos.
Qed.
Lemma plurality_sum_nonneg l : Forall cell_pos l → 0 <= sum_list_Z (plurality <$> l).
Proof. intros Hl. apply sum_list_Z_nonneg, Forall_fmap. eapply Forall_impl; [exact Hl|]. intros c [Hc _]; simpl. lia. Qed.

(** The scaled square of a plurality, by checked multiplications. *)
Lemma checked_square C q : 0 <= C → 1 <= q →
  (m ← checked_mul 64 C q; checked_mul 64 m q) = if C * q * q <? 2 ^ 64 then Some (C * q * q) else None.
Proof.
  intros HC Hq. destruct (Z.ltb_spec (C * q * q) (2 ^ 64)) as [Hlt|Hge].
  - rewrite (proj2 (checked_mul_Some 64 C q (C * q))) by nia. cbn [mbind option_bind]. apply checked_mul_Some. done.
  - destruct (checked_mul 64 C q) as [m|] eqn:E; [|done]. apply checked_mul_Some in E as [-> _]. cbn [mbind option_bind].
    destruct (checked_mul 64 (C * q) q) as [m|] eqn:E; [|done]. apply checked_mul_Some in E as [-> ?]. lia.
Qed.
Lemma harmonic_out_step_exact C p h c :
  0 <= C → 0 <= h → 0 <= p → cell_pos c → p + plurality c < 2 ^ 64 →
  harmonic_out_step C (Some (p, h)) c =
  Ok (if cell_fits C c && (h + harmonic_term C c <? 2 ^ 64) then Some (p + plurality c, h + harmonic_term C c) else None).
Proof.
  intros HC Hh Hp [Hp1 Ha] Hsum. unfold harmonic_out_step, cell_fits.
  rewrite (proj2 (add_u_ok 64 p (plurality c) (p + plurality c))) by lia. cbn [mbind res_bind].
  rewrite checked_square by lia. destruct (C * plurality c * plurality c <? 2 ^ 64); [|done].
  rewrite (proj2 (div_u_ok _ _ (harmonic_term C c))) by (unfold harmonic_term; lia). cbn [mbind res_bind andb]. unfold checked_add. by destruct (_ <? _).
Qed.

Lemma harmonic_outs_exact C l p h :
  0 <= C → 0 <= h → 0 <= p → Forall cell_pos l → p + sum_list_Z (plurality <$> l) < 2 ^ 64 → h < 2 ^ 64 →
  res_foldl (harmonic_out_step C) (Some (p, h)) l =
  Ok (if forallb (cell_fits C) l && (h + sum_list_Z (harmonic_term C <$> l) <? 2 ^ 64)
      then Some (p + sum_list_Z (plurality <$> l), h + sum_list_Z (harmonic_term C <$> l)) else None).
Proof.
  intros HC Hh Hp Hl. revert p h Hh Hp. induction Hl as [|c l Hc Hl IH]; intros p h Hh Hp Hs Hh'.
  - cbn [fmap list_fmap sum_list_Z forallb res_foldl andb]. rewrite !Z.add_0_r, (proj2 (Z.ltb_lt _ _)) by done. done.
  - rewrite !fmap_cons in *. cbn [res_foldl sum_list_Z forallb] in *.
    pose proof (harmonic_sum_nonneg C l HC Hl). pose proof (harmonic_term_pos C c HC Hc). pose proof (plurality_sum_nonneg l Hl).
    assert (∀ l', res_foldl (harmonic_out_step C) None l' = Ok None) as Hnone by (intros l'; by induction l').
    rewrite harmonic_out_step_exact; [|done|done|done|done|lia]. cbn [mbind res_bind]. destruct (cell_fits C c); cbn [andb]; [|apply Hnone].
    destruct (Z.ltb_spec (h + harmonic_term C c) (2 ^ 64)).
    + rewrite IH; [|destruct Hc; lia|destruct Hc; lia|lia|lia]. rewrite !Z.add_assoc. done.
    + destruct (Z.ltb_spec (h + (harmonic_term C c + sum_list_Z (harmonic_term C <$> l))) (2 ^ 64)); [lia|]. rewrite andb_false_r. apply Hnone.
Qed.

Lemma harmonic_in_exact C c : 0 <= C → cell_pos c → harmonic_in C c = if cell_fits C c then Ok (harmonic_term C c) else Panic.
Proof.
  intros HC [Hp1 Ha]. unfold harmonic_in, cell_fits. destruct (Z.ltb_spec (C * plurality c * plurality c) (2 ^ 64)) as [Hlt|Hge].
  - rewrite (proj2 (mul_u_ok 64 C (plurality c) (C * plurality c))) by nia. cbn [mbind res_bind].
    rewrite (proj2 (mul_u_ok 64 (C * plurality c) (plurality c) (C * plurality c * plurality c))) by done. cbn [mbind res_bind]. apply div_u_ok. unfold harmonic_term. lia.
  - pose proof (checked_square C (plurality c) HC Hp1) as E. destruct (Z.ltb_spec (C * plurality c * plurality c) (2 ^ 64)); [lia|]. unfold mul_u.
    destruct (checked_mul 64 C (plurality c)) as [m|]; [|done]. cbn [mbind option_bind unwrap res_bind] in *. by rewrite E.
Qed.
Lemma harmonic_ins_exact C l t :
  0 <= C → 0 <= t → Forall cell_pos l →
  if forallb (cell_fits C) l
  then ∃ s, res_foldl (λ total c, current ← harmonic_in C c; Ok (saturating_add 64 total current)) t l = Ok s ∧
    Z.min s (2 ^ 64 - 1) = Z.min (t + sum_list_Z (harmonic_term C <$> l)) (2 ^ 64 - 1)
  else res_foldl (λ total c, current ← harmonic_in C c; Ok (saturating_add 64 total current)) t l = Panic.
Proof.
  intros HC Ht Hl. revert t Ht. induction Hl as [|c l Hc Hl IH]; intros t Ht.
  - exists t. split; [done|]. f_equal. cbn. lia.
  - rewrite fmap_cons. cbn [res_foldl sum_list_Z forallb]. rewrite harmonic_in_exact by done. destruct (cell_fits C c); cbn [andb]; [|done].
    pose proof (harmonic_sum_nonneg C l HC Hl). pose proof (harmonic_term_pos C c HC Hc). cbn [mbind res_bind].
    specialize (IH (saturating_add 64 t (harmonic_term C c)) ltac:(unfold saturating_add; lia)). destruct (forallb (cell_fits C) l); [|exact IH].
    destruct IH as (s & -> & Hs). exists s. split; [done|]. rewrite Hs. unfold saturating_add. lia.
Qed.

Lemma sum_u64_exact l : Forall (λ x, 0 <= x) l → sum_list_Z l < 2 ^ 64 → sum_u64 l = Ok (sum_list_Z l).
Proof. intros Hl Hlt. by apply (add_all_exact 0 l). Qed.

Lemma arithmetic_fold_exact l p a :
  0 <= p → 0 <= a → Forall cell_pos l →
  p + sum_list_Z (plurality <$> l) < 2 ^ 64 → a + sum_list_Z (cell_amount <$> l) < 2 ^ 64 →
  res_foldl (λ '(acc_plur, acc_amt) c,
    p ← add_u 64 acc_plur (plurality c); a ← add_u 64 acc_amt (cell_amount c); Ok (p, a)) (p, a) l
  = Ok (E := Empty_set) (p + sum_list_Z (plurality <$> l), a + sum_list_Z (cell_amount <$> l)).
Proof.
  intros Hp Ha Hl. revert p a Hp Ha. induction Hl as [|c l [Hc1 Hc2] Hl IH]; intros p a Hp Ha H1 H2.
  - cbn. by rewrite !Z.add_0_r.
  - rewrite !fmap_cons in *. cbn [res_foldl sum_list_Z] in *.
    assert (0 <= sum_list_Z (plurality <$> l) ∧ 0 <= sum_list_Z (cell_amount <$> l)) as [].
    { split; apply sum_list_Z_nonneg, Forall_fmap; (eapply Forall_impl; [exact Hl|]); intros ? [? ?]; simpl; lia. }
    replace (add_u 64 p (plurality c)) with (Ok (E := Empty_set) (p + plurality c)) by (symmetry; apply add_u_ok; lia).
    replace (add_u 64 a (cell_amount c)) with (Ok (E := Empty_set) (a + cell_amount c)) by (symmetry; apply add_u_ok; lia).
    cbn. rewrite IH; [|lia..]. by rewrite !Z.add_assoc.
Qed.

Lemma pluralities_ge l : Forall cell_pos l → Zlength l <= sum_list_Z (plurality <$> l).
Proof.
  induction 1 as [|c l [Hc _] Hl IH]; [done|]. rewrite fmap_cons. cbn [sum_list_Z].
  unfold Zlength in *. cbn [length]. lia.
Qed.

Lemma relaxed_path_exact ins outs :
  Forall cell_pos ins → sum_list_Z (plurality <$> ins) < 2 ^ 64 → ins ≠ [] →
  relaxed_formula_path (sum_list_Z (plurality <$> outs)) ins = Ok (relaxed ins outs).
Proof.
  intros Hl Hp Hne. unfold relaxed. pose proof (pluralities_ge ins Hl) as Hge. set (I := sum_list_Z (plurality <$> ins)) in *. set (O := sum_list_Z (plurality <$> outs)).
  unfold relaxed_formula_path. destruct (Z.eqb_spec O 1) as [->|HO].
  { rewrite bool_decide_eq_true_2; auto. }
  destruct (Z.ltb_spec 2 (Zlength ins)).
  { rewrite bool_decide_eq_false_2; [done | lia]. }
  rewrite sum_u64_exact; [|apply Forall_fmap; eapply Forall_impl; [exact Hl|]; intros ? [? _]; simpl; lia|done].
  cbn. fold I. f_equal. apply eq_true_iff_eq. rewrite bool_decide_eq_true, orb_true_iff, andb_true_iff, !Z.eqb_eq. intuition.
Qed.

(** The sums a transaction cannot overflow: storage is counted in bytes that are in memory, amounts are of the supply. *)
Definition sums_ok (ins outs : list UtxoCell) : Prop :=
  sum_list_Z (plurality <$> outs) < 2 ^ 64 ∧ sum_list_Z (plurality <$> ins) < 2 ^ 64 ∧ sum_list_Z (cell_amount <$> ins) < 2 ^ 64.
Lemma calc_storage_mass_cases (C : Z) (ins outs : list UtxoCell) :
  0 <= C → Forall cell_pos ins → Forall cell_pos outs → sums_ok ins outs →
  calc_storage_mass false ins outs C =
  if negb (forallb (cell_fits C) outs && (sum_list_Z (harmonic_term C <$> outs) <? 2 ^ 64)) then Ok None
  else if bool_decide (ins ≠ []) && relaxed ins outs && negb (forallb (cell_fits C) ins) then Panic
  else Ok (Some (storage_mass_reference C ins outs)).
Proof.
  intros HC Hl Hout (HpO & HpI & HaI). unfold calc_storage_mass, harmonic_outs_fold.
  rewrite harmonic_outs_exact; [|lia..|done|lia|lia]. cbn [mbind res_bind]. rewrite !Z.add_0_l.
  destruct (forallb (cell_fits C) outs); cbn [andb negb]; [|done].
  destruct (Z.ltb_spec (sum_list_Z (harmonic_term C <$> outs)) (2 ^ 64)) as [Hlt|]; [|done]. cbn [negb].
  unfold storage_mass_reference. destruct ins as [|i ins].
  { rewrite (bool_decide_eq_false_2 (_ ≠ [])) by auto. done. }
  rewrite (bool_decide_eq_false_2 (_ = [])), (bool_decide_eq_true_2 (_ ≠ [])) by done.
  change (Zlength (i :: ins) =? 0) with false. cbn [mbind res_bind].
  set (l := i :: ins) in *. rewrite (relaxed_path_exact l outs) by done. cbn [mbind res_bind].
  pose proof (pluralities_ge l Hl) as Hge. assert (1 <= Zlength l) by (unfold Zlength, l; cbn [length]; lia).
  destruct (relaxed l outs); cbn [andb].
  - pose proof (harmonic_ins_exact C l 0 HC ltac:(lia) Hl) as Hin. unfold harmonic_ins_fold. destruct (forallb (cell_fits C) l); cbn [negb]; [|by rewrite Hin].
    destruct Hin as (s & -> & Hmin). cbn [mbind res_bind]. do 2 f_equal. unfold saturating_sub. rewrite Z.add_0_l in Hmin. lia.
  - unfold arithmetic_fold. rewrite arithmetic_fold_exact; [|lia..|done|lia|lia]. cbn [mbind res_bind]. rewrite !Z.add_0_l.
    set (I := sum_list_Z (plurality <$> l)) in *. set (A := sum_list_Z (cell_amount <$> l)) in *.
    replace (div_u A I) with (Ok (E := Empty_set) (A / I)) by (symmetry; apply div_u_ok; lia). cbn [mbind res_bind].
    rewrite (Z.max_comm 1).
    replace (div_u C _) with (Ok (E := Empty_set) (C / Z.max (A / I) 1)) by (symmetry; apply div_u_ok; lia). cbn [mbind res_bind].
    assert (0 <= C / Z.max (A / I) 1) by (apply Z.div_pos; lia).
    do 2 f_equal. unfold saturating_sub, saturating_mul. nia.
Qed.
Lemma cells_fit C l : Forall (cell_ok C) l → Forall cell_pos l ∧ forallb (cell_fits C) l = true.
Proof.
  intros Hl. split; [eapply Forall_impl; [exact Hl|]; by intros c (? & ? & _)|]. apply forallb_forall. intros c Hc%list_elem_of_In. apply Z.ltb_lt.
  by destruct (proj1 (Forall_forall _ _) Hl c Hc) as (_ & _ & ?).
Qed.
Lemma calc_storage_mass_exact (C : Z) (ins outs : list UtxoCell) :
  0 <= C → cells_ok C ins → cells_ok C outs →
  calc_storage_mass false ins outs C =
  Ok (if sum_list_Z (harmonic_term C <$> outs) <? 2 ^ 64 then Some (storage_mass_reference C ins outs) else None).
Proof.
  intros HC (Hi & Hpi & Hai) (Ho & Hpo & _). destruct (cells_fit C ins Hi) as [Hi' Fi], (cells_fit C outs Ho) as [Ho' Fo].
  rewrite calc_storage_mass_cases by done. rewrite Fi, Fo. cbn [andb]. destruct (_ <? _); cbn [negb]; [|done]. by rewrite !andb_false_r.
Qed.

(** C40. Storage mass on positive amounts and pluralities whose sums are within the width, for any storage parameter.  It is refused
    exactly when an output's plurality, squared and scaled, or the harmonic sum of the outputs exceeds a [u64]; it panics exactly
    when it is not refused, the relaxed harmonic rule applies ([|O| = 1], [|I| = 1] or [|O| = |I| = 2], with inputs) and an
    input's plurality, squared and scaled, exceeds a [u64]; in every other case it is the KIP-0009 value computed over the
    integers, with the output term alone for a transaction without transparent inputs. *)
Theorem storage_mass_exact (C : Z) (ins outs : list UtxoCell) :
  0 <= C → Forall cell_pos ins → Forall cell_pos outs → sums_ok ins outs →
  calc_storage_mass false ins outs C =
  if negb (forallb (cell_fits C) outs && (sum_list_Z (harmonic_term C <$> outs) <? 2 ^ 64)) then Ok None
  else if bool_decide (ins ≠ []) && relaxed ins outs && negb (forallb (cell_fits C) ins) then Panic
  else Ok (Some (storage_mass_reference C ins outs)).
Proof. apply calc_storage_mass_cases. Qed.

(** Three inputs paying two outputs, one of them small, at the mainnet parameter [10^12], and an output too plural for the width. *)
Definition example_ins : list UtxoCell := [mk_cell 1 1000000000; mk_cell 1 500000000; mk_cell 1 300000000].
Definition example_outs : list UtxoCell := [mk_cell 1 1700000000; mk_cell 2 20000000].

Lemma storage_mass_exact_witness :
  calc_storage_mass false example_ins example_outs (10 ^ 12) = Ok (Some 195590) ∧
  calc_storage_mass false example_ins [mk_cell 5000 1700000000] (10 ^ 12) = Ok None.
Proof.
  split; rewrite storage_mass_exact; try (vm_compute; reflexivity); try lia; try decide_by_eval; split_and!; vm_compute; reflexivity.
Defined.

(** ** Compute and transient mass *)

Definition input_size (v : Z) (i : TransactionInput) : Z :=
  52 + Zlength (signature_script i) + (if 1 <=? v then 2 else 0).
Definition output_size (o : TransactionOutput) : Z :=
  18 + Zlength (spk_script (out_spk o)) + (if covenant o then 34 else 0).

(** The size of the estimated serialization, over the integers. *)
Definition tx_size (tx : Transaction) : Z :=
  94 + sum_list_Z (input_size (version tx) <$> inputs tx) + sum_list_Z (output_size <$> outputs tx) + Zlength (payload tx).

(** The script mass an input commits to, by the field its version uses. *)
Definition commit_grams (c : ComputeCommit) : Z :=
  match c with SigopCount n => 1000 * n | ComputeBudget n => 100 * n end.

(** Inputs carry the commitment their transaction version expects, at its width. *)
Definition commit_ok (v : Z) (c : ComputeCommit) : Prop :=
  match c with
  | SigopCount n => v < 1 ∧ is_u8 n
  | ComputeBudget n => 1 <= v ∧ is_u16 n
  end.

(** The script public key bytes priced by the compute mass. *)
Definition spk_total (tx : Transaction) : Z :=
  sum_list_Z ((λ o, 2 + Zlength (spk_script (out_spk o))) <$> outputs tx).

Definition base_mass (mc : MassCalculator) (tx : Transaction) : Z :=
  tx_size tx * mass_per_tx_byte mc
  + spk_total tx * mass_per_script_pub_key_byte mc
  + sum_list_Z ((λ i, commit_grams (compute_commit i)) <$> inputs tx).


Lemma sizes_nonneg v l l' :
  0 <= sum_list_Z (input_size v <$> l) ∧ 0 <= sum_list_Z (output_size <$> l').
Proof.
  split; apply sum_list_Z_nonneg, Forall_fmap, Forall_true; intros x; cbn.
  - unfold input_size. pose proof (Zlength_ge0 (signature_script x)). destruct (1 <=? v); lia.
  - unfold output_size. pose proof (Zlength_ge0 (spk_script (out_spk x))). destruct (covenant x); lia.
Qed.

Lemma member_le_sum {A} (f : A → Z) l x : Forall (λ x, 0 <= f x) l → x ∈ l → f x <= sum_list_Z (f <$> l).
Proof.
  induction 1 as [|y l Hy Hl IH]; [by intros ?%not_elem_of_nil|].
  rewrite fmap_cons. cbn [sum_list_Z]. assert (0 <= sum_list_Z (f <$> l)) by (by apply sum_list_Z_nonneg, Forall_fmap).
  intros [->|Hx]%elem_of_cons; [lia|]. specialize (IH Hx). lia.
Qed.

Ltac nonneg_list := repeat (apply Forall_cons; split; [lia|]); apply Forall_nil; exact I.
Ltac eval_add_all :=
  rewrite add_all_exact; [cbn [mbind res_bind sum_list_Z] | cbn [sum_list_Z]; lia | nonneg_list | cbn [sum_list_Z]; lia].

Lemma input_size_exact v i :
  Zlength (signature_script i) < 2 ^ 63 → transaction_input_estimated_serialized_size i v = Ok (input_size v i).
Proof.
  intros H. pose proof (Zlength_ge0 (signature_script i)).
  unfold transaction_input_estimated_serialized_size, outpoint_estimated_serialized_size, input_size, HASH_SIZE.
  do 2 eval_add_all. destruct (1 <=? v); [apply add_u_ok; lia | f_equal; lia].
Qed.

Lemma output_size_exact o :
  Zlength (spk_script (out_spk o)) < 2 ^ 63 → transaction_output_estimated_serialized_size o = Ok (output_size o).
Proof.
  intros H. pose proof (Zlength_ge0 (spk_script (out_spk o))).
  unfold transaction_output_estimated_serialized_size, output_size, HASH_SIZE.
  eval_add_all. destruct (covenant o); [eval_add_all|]; f_equal; lia.
Qed.

Lemma tx_size_exact tx : tx_size tx < 2 ^ 63 → transaction_estimated_serialized_size tx = Ok (tx_size tx).
Proof.
  intros H. unfold tx_size in *. destruct (sizes_nonneg (version tx) (inputs tx) (outputs tx)) as [H1 H2].
  pose proof (Zlength_ge0 (payload tx)).
  assert (Forall (λ i, transaction_input_estimated_serialized_size i (version tx) = Ok (input_size (version tx) i)
            ∧ 0 <= input_size (version tx) i) (inputs tx)) as Hin.
  { apply Forall_forall. intros i Hi.
    assert (∀ j, 0 <= input_size (version tx) j) as Hj.
    { intros j. unfold input_size. pose proof (Zlength_ge0 (signature_script j)). destruct (1 <=? _); lia. }
    pose proof (member_le_sum (input_size (version tx)) (inputs tx) i ltac:(by apply Forall_true) Hi).
    split; [|done]. apply input_size_exact. revert H0 H3. unfold input_size at 1. destruct (1 <=? _); lia. }
  assert (Forall (λ o, transaction_output_estimated_serialized_size o = Ok (output_size o) ∧ 0 <= output_size o) (outputs tx)) as Hout.
  { apply Forall_forall. intros i Hi.
    assert (∀ j, 0 <= output_size j) as Hj.
    { intros j. unfold output_size. pose proof (Zlength_ge0 (spk_script (out_spk j))). destruct (covenant j); lia. }
    pose proof (member_le_sum output_size (outputs tx) i ltac:(by apply Forall_true) Hi).
    split; [|done]. apply output_size_exact. revert H0 H3. unfold output_size at 1. destruct (covenant i); lia. }
  unfold transaction_estimated_serialized_size, SUBNETWORK_ID_SIZE, HASH_SIZE. eval_add_all.
  rewrite (sum_map_exact _ _ _ Hin) by lia. cbn [mbind res_bind]. eval_add_all.
  rewrite (sum_map_exact _ _ _ Hout) by lia. cbn [mbind res_bind]. eval_add_all. f_equal. lia.
Qed.

Lemma action_count_total bs :
  wf_bytes bs → Zlength bs < 2 ^ 63 →
  ∃ a, action_count_from_bytes bs = Ok a ∧ (∀ n, a = Some n → n <= 512) ∧
    ∀ field b, decode bs field = Ok b → a = Some (Zlength (actions b)).
Proof.
  intros Hbs Hlen. pose proof (wf_reader_new bs Hbs Hlen) as Hr. unfold action_count_from_bytes.
  pose proof (read_action_count_safe _ Hr) as Hs.
  destruct (read_action_count (Read.new bs)) as [[n r]| |] eqn:E; [|..|done]; eexists; (split; [done|]); split.
  - intros n' [= ->]. unfold read_action_count in E. inv_parser.
    match goal with E : (_ >? _) = false |- _ => unfold MAX_ACTIONS_PER_BUNDLE in E; rewrite Z.gtb_ltb, Z.ltb_ge in E end.
    unfold pret in E. simplify_eq. lia.
  - intros field b ([b' r'] & Hd & Hf)%res_bind_ok. destruct (Read.finished r'); [|done]. injection Hf as ->.
    destruct (read_action_count_bundle _ _ _ _ Hr Hd) as (r1 & E1). rewrite E1 in E. by simplify_eq.
  - done.
  - intros field b ([b' r'] & Hd & _)%res_bind_ok.
    destruct (read_action_count_bundle _ _ _ _ Hr Hd) as (r1 & E1). by rewrite E1 in E.
Qed.

Lemma script_mass_exact tx :
  Forall (λ i, commit_ok (version tx) (compute_commit i)) (inputs tx) → Zlength (inputs tx) < 2 ^ 32 →
  script_mass tx = Ok (sum_list_Z ((λ i, commit_grams (compute_commit i)) <$> inputs tx)) ∧
  0 <= sum_list_Z ((λ i, commit_grams (compute_commit i)) <$> inputs tx) < 2 ^ 58.
Proof.
  intros Hc Hn.
  set (n := λ i, match compute_commit i with SigopCount n | ComputeBudget n => n end).
  assert (Forall (λ i, 0 <= n i <= 65535) (inputs tx)) as Hb.
  { eapply Forall_impl; [exact Hc|]. intros i. unfold n, commit_ok, is_uint. destruct (compute_commit i); lia. }
  assert (0 <= sum_list_Z (n <$> inputs tx) <= 65535 * Zlength (inputs tx)) as Hs.
  { clear -Hb. unfold Zlength. induction Hb; [done|]. rewrite fmap_cons. cbn [sum_list_Z length]. lia. }
  assert (∃ k, (k = 100 ∨ k = 1000) ∧ script_mass tx = Ok (k * sum_list_Z (n <$> inputs tx)) ∧
    Forall (λ i, commit_grams (compute_commit i) = k * n i) (inputs tx)) as (k & Hk & -> & Hg).
  { unfold script_mass, version_expects_compute_budget_field.
    destruct (Z.leb_spec 1 (version tx)).
    - exists 100. split; [auto|]. rewrite (sum_map_exact _ n).
      + cbn [mbind res_bind]. split; [apply mul_u_ok; unfold GRAMS_PER_COMPUTE_BUDGET_UNIT; lia|].
        eapply Forall_impl; [exact Hc|]. intros i. unfold n, commit_ok. destruct (compute_commit i); cbn; lia.
      + apply Forall_and; split; [|eapply Forall_impl; [exact Hb|cbn; lia]].
        eapply Forall_impl; [exact Hc|]. intros i. unfold n, commit_ok. destruct (compute_commit i); cbn; [lia|done].
      + lia.
    - exists 1000. split; [auto|]. rewrite (sum_map_exact _ n).
      + cbn [mbind res_bind]. split; [apply mul_u_ok; unfold GRAMS_PER_SIGOP_COUNT_UNIT; lia|].
        eapply Forall_impl; [exact Hc|]. intros i. unfold n, commit_ok. destruct (compute_commit i); cbn; lia.
      + apply Forall_and; split; [|eapply Forall_impl; [exact Hb|cbn; lia]].
        eapply Forall_impl; [exact Hc|]. intros i. unfold n, commit_ok. destruct (compute_commit i); cbn; [done|lia].
      + lia. }
  assert (sum_list_Z ((λ i, commit_grams (compute_commit i)) <$> inputs tx) = k * sum_list_Z (n <$> inputs tx)) as ->.
  { clear -Hg. induction Hg; [cbn; lia|]. rewrite !fmap_cons. cbn [sum_list_Z]. lia. }
  split; [done|nia].
Qed.

Lemma spk_total_exact tx :
  tx_size tx < 2 ^ 32 →
  sum_map_u64 (λ o, add_u 64 2 (Zlength (spk_script (out_spk o)))) (outputs tx) = Ok (spk_total tx) ∧
  0 <= spk_total tx <= tx_size tx.
Proof.
  intros Hsz. destruct (sizes_nonneg (version tx) (inputs tx) (outputs tx)) as [Hi Ho].
  pose proof (Zlength_ge0 (payload tx)).
  set (f := λ o, 2 + Zlength (spk_script (out_spk o))).
  assert (∀ o, 0 <= f o <= output_size o) as Hf.
  { intros o. unfold f, output_size. pose proof (Zlength_ge0 (spk_script (out_spk o))). destruct (covenant o); lia. }
  assert (0 <= spk_total tx <= sum_list_Z (output_size <$> outputs tx)) as Hb.
  { unfold spk_total. fold f. split.
    - apply sum_list_Z_nonneg, Forall_fmap, Forall_true. apply Hf.
    - apply sum_list_Z_map_le, Forall_true. apply Hf. }
  split; [|unfold tx_size in *; lia]. apply (sum_map_exact _ f); [|fold f; unfold spk_total, tx_size in *; fold f in Hb; lia].
  apply Forall_forall. intros o Hin. split; [|apply Hf]. apply add_u_ok. split; [done|]. fold (f o).
  pose proof (member_le_sum f (outputs tx) o ltac:(apply Forall_true; apply Hf) Hin).
  unfold spk_total, tx_size in *. fold f in Hb. lia.
Qed.

Lemma inputs_le_size tx : Zlength (inputs tx) <= tx_size tx.
Proof.
  destruct (sizes_nonneg (version tx) (inputs tx) (outputs tx)) as [_ Ho]. pose proof (Zlength_ge0 (payload tx)).
  assert (Zlength (inputs tx) <= sum_list_Z (input_size (version tx) <$> inputs tx)); [|unfold tx_size; lia].
  clear. unfold Zlength. induction (inputs tx) as [|i l IH]; [done|]. rewrite fmap_cons. cbn [sum_list_Z length].
  unfold input_size at 1. pose proof (Zlength_ge0 (signature_script i)). destruct (1 <=? _); lia.
Qed.

(** Non-contextual masses: on a transaction of at most [2^32] estimated bytes
    whose inputs carry the commitment their version expects, and byte prices
    below [2^16], the mass calculation never panics.  The transient mass is four
    times the estimated size; the compute mass is the priced size, output
    scripts and commitments, plus for a shielded transaction 1000 per action of
    the bundle its payload decodes to, in either wire format. *)
Theorem non_contextual_masses_exact (mc : MassCalculator) (tx : Transaction) :
  is_coinbase tx = false → tx_size tx < 2 ^ 32 → wf_bytes (payload tx) →
  0 <= mass_per_tx_byte mc < 2 ^ 16 → 0 <= mass_per_script_pub_key_byte mc < 2 ^ 16 →
  Forall (λ i, commit_ok (version tx) (compute_commit i)) (inputs tx) →
  ∃ a, calc_non_contextual_masses mc tx = Ok (mk_masses (base_mass mc tx + 1000 * a) (4 * tx_size tx)) ∧
    (is_shielded tx = false → a = 0) ∧
    (is_shielded tx = true → ∀ field b, decode (payload tx) field = Ok b → a = Zlength (actions b)).
Proof.
  intros Hcb Hsz Hpay Hp1 Hp2 Hc. unfold calc_non_contextual_masses. rewrite Hcb.
  rewrite tx_size_exact by lia. cbn [mbind res_bind].
  destruct (spk_total_exact tx Hsz) as [Hspk Hspkb]. pose proof (inputs_le_size tx) as Hn.
  destruct (script_mass_exact tx Hc ltac:(lia)) as [Hsm Hsmb].
  pose proof (Zlength_ge0 (inputs tx)).
  assert (0 <= tx_size tx * mass_per_tx_byte mc < 2 ^ 48) by nia.
  assert (0 <= spk_total tx * mass_per_script_pub_key_byte mc < 2 ^ 48) by nia.
  replace (mul_u 64 (tx_size tx) (mass_per_tx_byte mc)) with (Ok (E := Empty_set) (tx_size tx * mass_per_tx_byte mc))
    by (symmetry; apply mul_u_ok; nia). cbn [mbind res_bind].
  rewrite Hspk. cbn [mbind res_bind].
  replace (mul_u 64 (spk_total tx) _) with (Ok (E := Empty_set) (spk_total tx * mass_per_script_pub_key_byte mc))
    by (symmetry; apply mul_u_ok; nia). cbn [mbind res_bind].
  rewrite Hsm. cbn [mbind res_bind].
  eval_add_all. rewrite Z.add_0_r, Z.add_assoc. fold (base_mass mc tx).
  assert (0 <= base_mass mc tx < 2 ^ 62) as Hbase by (unfold base_mass; lia).
  replace (mul_u 64 (tx_size tx) TRANSIENT_BYTE_TO_MASS_FACTOR) with (Ok (E := Empty_set) (4 * tx_size tx))
    by (symmetry; apply mul_u_ok; unfold TRANSIENT_BYTE_TO_MASS_FACTOR; lia).
  destruct (is_shielded tx).
  - assert (Zlength (payload tx) < 2 ^ 63) as Hpl.
    { destruct (sizes_nonneg (version tx) (inputs tx) (outputs tx)). unfold tx_size in Hsz. lia. }
    destruct (action_count_total (payload tx) Hpay Hpl) as (a & -> & Hbound & Hdec).
    assert (default 0 a <= 512) by (destruct a; cbn; [by apply Hbound | lia]).
    exists (default 0 a). cbn [mbind res_bind]. split; [|split; [done|]].
    + unfold saturating_add, saturating_mul, SHIELDED_MASS_PER_ACTION. do 2 f_equal. lia.
    + intros _ field b Hb. by rewrite (Hdec field b Hb).
  - exists 0. cbn [mbind res_bind]. by rewrite Z.mul_0_r, Z.add_0_r.
Qed.

(** A version-1 payment of one input and one covenant output. *)
Definition example_tx : Transaction :=
  mk_tx 1 [mk_input (mk_outpoint (zeros 32) 3) [1; 2; 3] 7 (ComputeBudget 20)]
    [mk_output 5000 (mk_spk 0 [170; 32]) (Some (mk_binding 0 (zeros 32)))] 0 SUBNETWORK_ID_NATIVE 0 [9; 9] 0.

Lemma non_contextual_masses_exact_witness :
  calc_non_contextual_masses (mk_mass_calculator 1 10 (10 ^ 12)) example_tx
    = Ok (mk_masses (base_mass (mk_mass_calculator 1 10 (10 ^ 12)) example_tx) (4 * tx_size example_tx))
  ∧ tx_size example_tx = 207.
Proof.
  split; [|vm_compute; reflexivity].
  destruct (non_contextual_masses_exact (mk_mass_calculator 1 10 (10 ^ 12)) example_tx
    ltac:(reflexivity) ltac:(reflexivity) ltac:(decide_by_eval) ltac:(cbn; lia) ltac:(cbn; lia)
    ltac:(apply Forall_singleton; vm_compute; intuition discriminate)) as (a & Ha & Hz & _).
  rewrite Hz in Ha by reflexivity. by rewrite Z.mul_0_r, Z.add_0_r in Ha.
Defined.
