(* ===== verification/Encoding.v ===== *)
(** Self-delimiting byte encodings.

    The writers of consensus/core/src/hashing/mod.rs ([HasherExtensions]) as
    functions to the bytes they append, and the calculus that shows what a
    preimage commits to.  [delim P enc proj] says that an encoding is
    self-delimiting up to a projection: two encodings followed by anything can
    only be equal when the projected values and the remainders are. *)
From stdpp Require Import base gmap list.
From S2P Require Import Prelude.

Definition write_len (len : Z) : bytes := to_le_bytes 8 len.
Definition write_bool (element : bool) : bytes := if element then [1] else [0].
Definition write_u8 (element : Z) : bytes := to_le_bytes 1 element.
Definition write_u16 (element : Z) : bytes := to_le_bytes 2 element.
Definition write_u32 (element : Z) : bytes := to_le_bytes 4 element.
Definition write_u64 (element : Z) : bytes := to_le_bytes 8 element.
Definition write_var_bytes (b : bytes) : bytes := write_len (Zlength b) ++ b.

Definition write_var_array (arr : list bytes) : bytes := write_len (Zlength arr) ++ mjoin arr.

(** [iter().position(|byte| byte != 0).unwrap_or(len)]: the leading zero bytes. *)
Fixpoint leading_zero_bytes (b : bytes) : nat :=
  match b with
  | [] => 0
  | x :: b => if x =? 0 then S (leading_zero_bytes b) else 0
  end.

(** Blue work is a 192-bit integer. *)
Definition write_blue_work (work : Z) : bytes :=
  let be_bytes := to_be_bytes 24 work in
  let start := leading_zero_bytes be_bytes in
  write_var_bytes (drop start be_bytes).

(** ** Self-delimiting encodings *)

Definition delim {A B} (P : A → Prop) (enc : A → bytes) (proj : A → B) : Prop :=
  ∀ a b r r', P a → P b → enc a ++ r = enc b ++ r' → proj a = proj b ∧ r = r'.

Lemma delim_inj {A B} P (enc : A → bytes) (proj : A → B) a b :
  delim P enc proj → P a → P b → enc a = enc b → proj a = proj b.
Proof. intros Hd Ha Hb He. apply (Hd a b [] [] Ha Hb). by rewrite !app_nil_r. Qed.

Lemma delim_weaken {A B} (P Q : A → Prop) (enc : A → bytes) (proj : A → B) :
  delim P enc proj → (∀ a, Q a → P a) → delim Q enc proj.
Proof. intros Hd HPQ a b r r' Ha Hb. apply Hd; auto. Qed.

Lemma delim_proj {A B C} P (enc : A → bytes) (proj : A → B) (f : B → C) :
  delim P enc proj → delim P enc (λ a, f (proj a)).
Proof. intros Hd a b r r' Ha Hb He. destruct (Hd a b r r' Ha Hb He) as [-> ->]. done. Qed.

Lemma delim_ext {A B C} P (enc enc' : A → bytes) (proj : A → B) (proj' : A → C) :
  delim P enc' proj' → (∀ a, P a → enc a = enc' a) → (∀ a b, proj' a = proj' b → proj a = proj b) → delim P enc proj.
Proof.
  intros Hd He Hp a b r r' Ha Hb. rewrite (He a Ha), (He b Hb). intros Heq.
  destruct (Hd a b r r' Ha Hb Heq) as [Hab ->]. by split; [apply Hp|].
Qed.

Lemma delim_comap {A B C} (f : C → A) P (enc : A → bytes) (proj : A → B) :
  delim P enc proj → delim (λ c, P (f c)) (λ c, enc (f c)) (λ c, proj (f c)).
Proof. intros Hd a b r r' Ha Hb. by apply Hd. Qed.

Lemma delim_app {A B C} P (e1 e2 : A → bytes) (p1 : A → B) (p2 : A → C) :
  delim P e1 p1 → delim P e2 p2 → delim P (λ a, e1 a ++ e2 a) (λ a, (p1 a, p2 a)).
Proof.
  intros H1 H2 a b r r' Ha Hb. rewrite <- !app_assoc. intros He.
  destruct (H1 _ _ _ _ Ha Hb He) as [-> He']. by destruct (H2 _ _ _ _ Ha Hb He') as [-> ->].
Qed.

(** An encoding whose second part depends on what the first part fixed. *)
Lemma delim_dep {A B C} P (e1 e2 : A → bytes) (p1 : A → B) (p2 : A → C) :
  delim P e1 p1 → (∀ x, delim (λ a, P a ∧ p1 a = x) e2 p2) → delim P (λ a, e1 a ++ e2 a) (λ a, (p1 a, p2 a)).
Proof.
  intros H1 H2 a b r r' Ha Hb. rewrite <- !app_assoc. intros He.
  destruct (H1 _ _ _ _ Ha Hb He) as [Hp He'].
  destruct (H2 (p1 a) a b r r' (conj Ha eq_refl) (conj Hb (eq_sym Hp)) He') as [-> ->]. by rewrite Hp.
Qed.

Lemma delim_nil {A} (P : A → Prop) : delim P (λ _, []) (λ _, ()).
Proof. intros a b r r' _ _ He. by cbn in He. Qed.

Lemma delim_fixed {A} n (enc : A → bytes) (P : A → Prop) :
  (∀ a, P a → length (enc a) = n) → (∀ a b, P a → P b → enc a = enc b → a = b) → delim P enc (λ a, a).
Proof.
  intros Hn Hi a b r r' Ha Hb He. apply app_inj_length in He as [He ->]; [|by rewrite !Hn].
  split; [by apply Hi|done].
Qed.

Lemma delim_uint n : 0 <= n → delim (is_uint (8 * n)) (to_le_bytes n) (λ x, x).
Proof.
  intros Hn. apply (delim_fixed (Z.to_nat n)).
  - intros a _. by apply length_to_le_bytes.
  - intros a b Ha Hb. by apply to_le_bytes_inj.
Qed.

Lemma delim_u8 : delim is_u8 write_u8 (λ x, x).
Proof. by apply (delim_uint 1). Qed.
Lemma delim_u16 : delim is_u16 write_u16 (λ x, x).
Proof. by apply (delim_uint 2). Qed.
Lemma delim_u32 : delim is_u32 write_u32 (λ x, x).
Proof. by apply (delim_uint 4). Qed.
Lemma delim_u64 : delim is_u64 write_u64 (λ x, x).
Proof. by apply (delim_uint 8). Qed.

Lemma delim_bool : delim (λ _, True) write_bool (λ x, x).
Proof. apply (delim_fixed 1); [by intros []|]. by intros [] []. Qed.

Lemma delim_array n : delim (λ b, length b = n) (λ b, b) (λ b, b).
Proof. by apply (delim_fixed n). Qed.

Lemma delim_var : delim (λ b, Zlength b < 2 ^ 64) write_var_bytes (λ b, b).
Proof.
  intros a b r r' Ha Hb. unfold write_var_bytes. rewrite <- !app_assoc. intros He.
  apply (delim_u64 (Zlength a) (Zlength b)) in He as [Hl He]; [|unfold is_uint, Zlength in *; lia..].
  apply app_inj_length in He as [-> ->]; [done|]. unfold Zlength in Hl. lia.
Qed.

Lemma delim_elems {A B} P (enc : A → bytes) (proj : A → B) l l' r r' :
  delim P enc proj → Forall P l → Forall P l' → length l = length l' →
  mjoin (enc <$> l) ++ r = mjoin (enc <$> l') ++ r' → proj <$> l = proj <$> l' ∧ r = r'.
Proof.
  intros Hd Hl. revert l'. induction Hl as [|a l Ha Hl IH]; intros [|b l'] Hl' Hn He; try done.
  rewrite !fmap_cons, !mjoin_cons, <- !app_assoc in He. apply Forall_cons in Hl' as [Hb Hl'].
  apply Hd in He as [Hp He]; [|done|done]. injection Hn as Hn. apply (IH l') in He as [Hps ->]; [|done|done].
  split; [|done]. rewrite !fmap_cons. by f_equal.
Qed.

Lemma delim_list {A B} P (enc : A → bytes) (proj : A → B) :
  delim P enc proj →
  delim (λ l, Forall P l ∧ Zlength l < 2 ^ 64) (λ l, write_len (Zlength l) ++ mjoin (enc <$> l)) (λ l, proj <$> l).
Proof.
  intros Hd a b r r' [Ha Hla] [Hb Hlb]. rewrite <- !app_assoc. intros He.
  apply (delim_u64 (Zlength a) (Zlength b)) in He as [Hl He]; [|unfold is_uint, Zlength in *; lia..].
  eapply delim_elems; [done..| |done]. unfold Zlength in Hl. lia.
Qed.

(** Without a length prefix the whole string still determines the elements, when
    none of them is encoded by the empty string. *)
Lemma mjoin_delim_inj {A B} P (enc : A → bytes) (proj : A → B) l l' :
  delim P enc proj → (∀ a, P a → enc a ≠ []) → Forall P l → Forall P l' →
  mjoin (enc <$> l) = mjoin (enc <$> l') → proj <$> l = proj <$> l'.
Proof.
  intros Hd Hne Hl. revert l'. induction Hl as [|a l Ha Hl IH]; intros [|b l'] Hl' He; try done.
  - apply Forall_cons in Hl' as [Hb _]. rewrite fmap_cons, mjoin_cons in He. symmetry in He.
    by apply app_eq_nil in He as [He%Hne _].
  - rewrite fmap_cons, mjoin_cons in He. by apply app_eq_nil in He as [He%Hne _].
  - rewrite !fmap_cons, !mjoin_cons in He. apply Forall_cons in Hl' as [Hb Hl'].
    apply Hd in He as [Hp He]; [|done|done]. rewrite !fmap_cons. f_equal; [done|]. by apply IH.
Qed.

Lemma delim_i64 : delim is_i64 (to_le_bytes 8) (λ x, x).
Proof.
  apply (delim_fixed 8).
  - intros a _. by apply length_to_le_bytes.
  - intros a b Ha Hb He. rewrite <- (to_signed_from_be_bytes 8 a), <- (to_signed_from_be_bytes 8 b) by done.
    unfold to_be_bytes. by rewrite He.
Qed.
