(* ===== verification/TxHash.v ===== *)
(** Transaction hashing: ids, hashes, covenant ids and signature hashes.

    The byte strings that consensus/core/src/hashing/{tx,covenant_id,sighash,
    sighash_type}.rs feed to the domain-separated hashers of
    kaspa-hashes, and the values computed from them.  A hasher is a parameter
    [H : HashDomain -> bytes -> bytes]: [update] appends to the preimage and
    [finalize] applies [H] to it.  The lazily filled [SigHashReusedValues] are
    modelled as state that the sighash computation reads and fills.

    The theorems show that a transaction id commits to exactly the non-witness
    part of a transaction, that the full hash also commits to the witness, that a
    SIGHASH_ALL signature hash commits to the whole spend, and that the reused
    values never change a signature hash. *)
From stdpp Require Import base gmap list.
From S2P Require Import Prelude Encoding Bundle Tx.

(** ** Hash domains *)

Inductive HashDomain :=
  | TransactionHash | TransactionID | TransactionRest | TransactionV1Id | PayloadDigest
  | CovenantID | TransactionSigningHash | TransactionSigningHashECDSA.

#[export] Instance HashDomain_eq_dec : EqDecision HashDomain.
Proof. solve_decision. Defined.

(** ** Transaction encoding (hashing/tx.rs) *)

Definition EXCLUDE_SIGNATURE_SCRIPT : Z := 1.
Definition EXCLUDE_MASS_COMMIT : Z := 2.
Definition EXCLUDE_PAYLOAD : Z := 4.
Definition FULL : Z := 0.
Definition contains (flags f : Z) : bool := Z.land flags f =? f.

Definition write_outpoint (o : TransactionOutpoint) : bytes := transaction_id o ++ write_u32 (outpoint_index o).

Definition write_input (input : TransactionInput) (v flags : Z) : bytes :=
  write_outpoint (previous_outpoint input) ++
  (if contains flags EXCLUDE_SIGNATURE_SCRIPT then write_var_bytes []
   else write_var_bytes (signature_script input) ++
        (if version_expects_sig_op_count_field v then [default 0 (sig_op_count (compute_commit input))] else [])) ++
  write_u64 (sequence input) ++
  (if negb (contains flags EXCLUDE_MASS_COMMIT) && version_expects_compute_budget_field v
   then write_u16 (default 0 (compute_budget (compute_commit input))) else []).

Definition write_output (output : TransactionOutput) (v : Z) : bytes :=
  write_u64 (value output) ++ write_u16 (spk_version (out_spk output)) ++ write_var_bytes (spk_script (out_spk output)) ++
  (if 1 <=? v then
     write_bool (if covenant output then true else false) ++
     match covenant output with
     | Some c => write_u16 (authorizing_input c) ++ binding_covenant_id c
     | None => []
     end
   else []).

Definition write_mass_commit (tx : Transaction) (flags : Z) : bytes :=
  if contains flags EXCLUDE_MASS_COMMIT then []
  else if version tx <? 1 then (if 0 <? storage_mass tx then write_u64 (storage_mass tx) else [])
  else write_u64 (storage_mass tx).

Definition write_transaction (tx : Transaction) (flags : Z) : bytes :=
  write_u16 (version tx) ++
  write_len (Zlength (inputs tx)) ++ mjoin ((λ i, write_input i (version tx) flags) <$> inputs tx) ++
  write_len (Zlength (outputs tx)) ++ mjoin ((λ o, write_output o (version tx)) <$> outputs tx) ++
  write_u64 (lock_time tx) ++ subnetwork_id tx ++ write_u64 (gas tx) ++
  (if contains flags EXCLUDE_PAYLOAD then write_var_bytes [] else write_var_bytes (payload tx)) ++
  write_mass_commit tx flags.

Definition ID_FLAGS : Z := Z.lor EXCLUDE_SIGNATURE_SCRIPT EXCLUDE_MASS_COMMIT.
Definition REST_FLAGS : Z := Z.lor (Z.lor EXCLUDE_PAYLOAD EXCLUDE_SIGNATURE_SCRIPT) EXCLUDE_MASS_COMMIT.

Definition write_transaction_v0_for_transaction_id (tx : Transaction) : bytes := write_transaction tx ID_FLAGS.

Definition write_rest_preimage (tx : Transaction) : bytes :=
  write_transaction tx REST_FLAGS.

(** Precomputed digest of the empty payload. *)
Definition ZERO_PAYLOAD_DIGEST : bytes :=
  [156; 12; 162; 172; 180; 94; 146; 255; 230; 206; 180; 174; 41; 24; 139; 53; 200; 45; 150; 118; 205; 211; 206; 6; 127;
   214; 204; 195; 10; 156; 74; 56].

Section hashing.
Context (H : HashDomain → bytes → bytes).

Definition tx_hash (tx : Transaction) : bytes := H TransactionHash (write_transaction tx FULL).
Definition hash_pre_crescendo (tx : Transaction) : bytes := H TransactionHash (write_transaction tx EXCLUDE_MASS_COMMIT).

Definition payload_digest (payload : bytes) : bytes :=
  if bool_decide (payload = []) then ZERO_PAYLOAD_DIGEST else H PayloadDigest payload.

Definition v1_rest_digest (tx : Transaction) : exec bytes :=
  guard_panic (1 <=? version tx) ;; Ok (H TransactionRest (write_rest_preimage tx)).

Definition id_v0 (tx : Transaction) : bytes := H TransactionID (write_transaction_v0_for_transaction_id tx).
Definition id_v1 (tx : Transaction) : bytes :=
  let payload_digest := payload_digest (payload tx) in
  let rest_digest := H TransactionRest (write_rest_preimage tx) in
  H TransactionV1Id (payload_digest ++ rest_digest).
Definition tx_id (tx : Transaction) : bytes := if version tx =? 0 then id_v0 tx else id_v1 tx.

(** ** Covenant ids (hashing/covenant_id.rs) *)

Definition covenant_id (outpoint : TransactionOutpoint) (auth_outputs : list (Z * TransactionOutput)) : bytes :=
  H CovenantID
    (transaction_id outpoint ++ write_u32 (outpoint_index outpoint) ++ write_len (Zlength auth_outputs) ++
     mjoin ((λ '(index, output),
       write_u32 index ++ write_u64 (value output) ++ write_u16 (spk_version (out_spk output)) ++
       write_var_bytes (spk_script (out_spk output))) <$> auth_outputs)).

(** ** Signature hashes (hashing/sighash_type.rs, hashing/sighash.rs) *)

Definition SIG_HASH_ALL : Z := 1.
Definition SIG_HASH_NONE : Z := 2.
Definition SIG_HASH_SINGLE : Z := 4.
Definition SIG_HASH_ANY_ONE_CAN_PAY : Z := 128.
Definition SIG_HASH_MASK : Z := 7.
Definition ALLOWED_SIG_HASH_TYPES_VALUES : list Z :=
  [SIG_HASH_ALL; SIG_HASH_NONE; SIG_HASH_SINGLE;
   Z.lor SIG_HASH_ALL SIG_HASH_ANY_ONE_CAN_PAY; Z.lor SIG_HASH_NONE SIG_HASH_ANY_ONE_CAN_PAY;
   Z.lor SIG_HASH_SINGLE SIG_HASH_ANY_ONE_CAN_PAY].

Definition is_sighash_none (t : Z) : bool := Z.land t SIG_HASH_MASK =? SIG_HASH_NONE.
Definition is_sighash_single (t : Z) : bool := Z.land t SIG_HASH_MASK =? SIG_HASH_SINGLE.
Definition is_sighash_anyone_can_pay (t : Z) : bool :=
  Z.land t SIG_HASH_ANY_ONE_CAN_PAY =? SIG_HASH_ANY_ONE_CAN_PAY.
Definition sighash_from_u8 (val : Z) : option Z :=
  if bool_decide (val ∈ ALLOWED_SIG_HASH_TYPES_VALUES) then Some val else None.

(** [SigHashReusedValuesUnsync]: one optional cell per reused value. *)
Record Reused := mk_reused {
  r_previous_outputs_hash : option bytes;
  r_sequences_hash : option bytes;
  r_sig_op_counts_hash : option bytes;
  r_outputs_hash : option bytes;
  r_payload_hash : option bytes
}.
Definition reused_new : Reused := mk_reused None None None None None.

(** [cell.get().unwrap_or_else(|| { let hash = set(); cell.set(Some(hash)); hash })] *)
Definition get_or_set (cell : option bytes) (set : bytes) : bytes := default set cell.

Definition hash_outpoint (o : TransactionOutpoint) : bytes := transaction_id o ++ write_u32 (outpoint_index o).
Definition hash_script_public_key (spk : ScriptPublicKey) : bytes :=
  write_u16 (spk_version spk) ++ write_var_bytes (spk_script spk).
Definition hash_output (o : TransactionOutput) (v : Z) : bytes :=
  write_u64 (value o) ++ hash_script_public_key (out_spk o) ++
  (if 1 <=? v then
     write_bool (if covenant o then true else false) ++
     match covenant o with
     | Some c => write_u16 (authorizing_input c) ++ binding_covenant_id c
     | None => []
     end
   else []).

Definition previous_outputs_hash (tx : Transaction) (t : Z) (r : Reused) : bytes * Reused :=
  if is_sighash_anyone_can_pay t then (ZERO_HASH, r) else
  let h := get_or_set (r_previous_outputs_hash r) (H TransactionSigningHash
    (mjoin ((λ i, transaction_id (previous_outpoint i) ++ write_u32 (outpoint_index (previous_outpoint i))) <$> inputs tx))) in
  (h, mk_reused (Some h) (r_sequences_hash r) (r_sig_op_counts_hash r) (r_outputs_hash r) (r_payload_hash r)).

Definition sequences_hash (tx : Transaction) (t : Z) (r : Reused) : bytes * Reused :=
  if is_sighash_single t || is_sighash_anyone_can_pay t || is_sighash_none t then (ZERO_HASH, r) else
  let h := get_or_set (r_sequences_hash r) (H TransactionSigningHash (mjoin ((λ i, write_u64 (sequence i)) <$> inputs tx))) in
  (h, mk_reused (r_previous_outputs_hash r) (Some h) (r_sig_op_counts_hash r) (r_outputs_hash r) (r_payload_hash r)).

Definition sig_op_counts_hash (tx : Transaction) (t : Z) (r : Reused) : bytes * Reused :=
  if is_sighash_anyone_can_pay t then (ZERO_HASH, r) else
  let h := get_or_set (r_sig_op_counts_hash r) (H TransactionSigningHash
    (mjoin ((λ i, write_u8 (default 0 (sig_op_count (compute_commit i)))) <$> inputs tx))) in
  (h, mk_reused (r_previous_outputs_hash r) (r_sequences_hash r) (Some h) (r_outputs_hash r) (r_payload_hash r)).

Definition payload_hash (tx : Transaction) (r : Reused) : bytes * Reused :=
  if is_native (subnetwork_id tx) && bool_decide (payload tx = []) then (ZERO_HASH, r) else
  let h := get_or_set (r_payload_hash r) (H TransactionSigningHash (write_var_bytes (payload tx))) in
  (h, mk_reused (r_previous_outputs_hash r) (r_sequences_hash r) (r_sig_op_counts_hash r) (r_outputs_hash r) (Some h)).

Definition outputs_hash (tx : Transaction) (t : Z) (r : Reused) (input_index : Z) : bytes * Reused :=
  if is_sighash_none t then (ZERO_HASH, r) else
  if is_sighash_single t then
    match outputs tx !! Z.to_nat input_index with
    | None => (ZERO_HASH, r)
    | Some o => (H TransactionSigningHash (hash_output o (version tx)), r)
    end
  else
    let h := get_or_set (r_outputs_hash r)
      (H TransactionSigningHash (mjoin ((λ o, hash_output o (version tx)) <$> outputs tx))) in
    (h, mk_reused (r_previous_outputs_hash r) (r_sequences_hash r) (r_sig_op_counts_hash r) (Some h) (r_payload_hash r)).

Definition calc_schnorr_signature_hash (p : PopulatedTransaction) (input_index t : Z) (r : Reused) : exec (bytes * Reused) :=
  '(input, entry) ← populated_input p input_index;
  let tx := ptx p in
  let '(prevs, r) := previous_outputs_hash tx t r in
  let '(seqs, r) := sequences_hash tx t r in
  let '(sigops, r) := if version tx <? 1 then sig_op_counts_hash tx t r else ([], r) in
  let '(outs, r) := outputs_hash tx t r input_index in
  let '(pay, r) := payload_hash tx r in
  Ok (H TransactionSigningHash
    (write_u16 (version tx) ++ prevs ++ seqs ++ sigops ++
     hash_outpoint (previous_outpoint input) ++ hash_script_public_key (entry_spk entry) ++
     write_u64 (amount entry) ++ write_u64 (sequence input) ++
     (if version tx <? 1 then write_u8 (default 0 (sig_op_count (compute_commit input))) else []) ++
     outs ++ write_u64 (lock_time tx) ++ subnetwork_id tx ++ write_u64 (gas tx) ++ pay ++ write_u8 t), r).

Definition calc_ecdsa_signature_hash (p : PopulatedTransaction) (input_index t : Z) (r : Reused) : exec (bytes * Reused) :=
  '(h, r) ← calc_schnorr_signature_hash p input_index t r;
  Ok (H TransactionSigningHashECDSA h, r).
End hashing.

(** ** Well-formed transactions: every field at its width *)

Definition wf_outpoint (o : TransactionOutpoint) : Prop :=
  length (transaction_id o) = 32%nat ∧ is_u32 (outpoint_index o).
Definition wf_spk (s : ScriptPublicKey) : Prop := is_u16 (spk_version s) ∧ Zlength (spk_script s) < 2 ^ 64.
Definition wf_commit (c : ComputeCommit) : Prop :=
  match c with SigopCount n => is_u8 n | ComputeBudget n => is_u16 n end.
Definition wf_input (i : TransactionInput) : Prop :=
  wf_outpoint (previous_outpoint i) ∧ Zlength (signature_script i) < 2 ^ 64 ∧ is_u64 (sequence i) ∧
  wf_commit (compute_commit i).
Definition wf_binding (c : CovenantBinding) : Prop :=
  is_u16 (authorizing_input c) ∧ length (binding_covenant_id c) = 32%nat.
Definition wf_output (o : TransactionOutput) : Prop :=
  is_u64 (value o) ∧ wf_spk (out_spk o) ∧ match covenant o with Some c => wf_binding c | None => True end.
Definition wf_tx (tx : Transaction) : Prop :=
  is_u16 (version tx) ∧ Forall wf_input (inputs tx) ∧ Zlength (inputs tx) < 2 ^ 64 ∧
  Forall wf_output (outputs tx) ∧ Zlength (outputs tx) < 2 ^ 64 ∧
  is_u64 (lock_time tx) ∧ length (subnetwork_id tx) = 20%nat ∧ is_u64 (gas tx) ∧
  Zlength (payload tx) < 2 ^ 64 ∧ is_u64 (storage_mass tx).

(** ** What each encoding commits to *)

Definition sig_view (v flags : Z) (i : TransactionInput) : option (bytes * option Z) :=
  if contains flags EXCLUDE_SIGNATURE_SCRIPT then None
  else Some (signature_script i,
    if version_expects_sig_op_count_field v then Some (default 0 (sig_op_count (compute_commit i))) else None).
Definition budget_view (v flags : Z) (i : TransactionInput) : option Z :=
  if negb (contains flags EXCLUDE_MASS_COMMIT) && version_expects_compute_budget_field v
  then Some (default 0 (compute_budget (compute_commit i))) else None.
Definition input_view (v flags : Z) (i : TransactionInput) :=
  (previous_outpoint i, (sig_view v flags i, (sequence i, budget_view v flags i))).
Definition output_view (v : Z) (o : TransactionOutput) := (value o, (out_spk o, if 1 <=? v then covenant o else None)).
Definition body_view (v flags : Z) (tx : Transaction) :=
  (input_view v flags <$> inputs tx, (output_view v <$> outputs tx, (lock_time tx, (subnetwork_id tx, (gas tx,
    if contains flags EXCLUDE_PAYLOAD then [] else payload tx))))).

Lemma delim_outpoint : delim wf_outpoint write_outpoint (λ o, o).
Proof.
  eapply delim_ext; [|done|].
  - eapply (delim_app _ transaction_id (λ o, write_u32 (outpoint_index o))).
    + eapply delim_weaken; [apply (delim_comap transaction_id _ _ _ (delim_array 32))|]. by intros ? [].
    + eapply delim_weaken; [apply (delim_comap outpoint_index _ _ _ delim_u32)|]. by intros ? [].
  - by intros [] [] [= -> ->].
Qed.

Lemma delim_spk : delim wf_spk hash_script_public_key (λ s, s).
Proof.
  eapply delim_ext; [|done|].
  - eapply (delim_app _ (λ s, write_u16 (spk_version s)) (λ s, write_var_bytes (spk_script s))).
    + eapply delim_weaken; [apply (delim_comap spk_version _ _ _ delim_u16)|]. by intros ? [].
    + eapply delim_weaken; [apply (delim_comap spk_script _ _ _ delim_var)|]. by intros ? [].
  - by intros [] [] [= -> ->].
Qed.

Lemma delim_binding : delim wf_binding (λ c, write_u16 (authorizing_input c) ++ binding_covenant_id c) (λ c, c).
Proof.
  eapply delim_ext; [|done|].
  - eapply (delim_app _ (λ c, write_u16 (authorizing_input c)) binding_covenant_id).
    + eapply delim_weaken; [apply (delim_comap authorizing_input _ _ _ delim_u16)|]. by intros ? [].
    + eapply delim_weaken; [apply (delim_comap binding_covenant_id _ _ _ (delim_array 32))|]. by intros ? [].
  - by intros [] [] [= -> ->].
Qed.

Lemma delim_covenant :
  delim (λ o, match covenant o with Some c => wf_binding c | None => True end)
    (λ o, write_bool (if covenant o then true else false) ++
          match covenant o with Some c => write_u16 (authorizing_input c) ++ binding_covenant_id c | None => [] end)
    covenant.
Proof.
  intros a b r r' Ha Hb. rewrite <- !app_assoc. intros He.
  apply delim_bool in He as [Hc He]; [|done|done].
  destruct (covenant a) as [ca|], (covenant b) as [cb|]; try done.
  by apply delim_binding in He as [-> ->].
Qed.

Lemma delim_output v : delim wf_output (λ o, hash_output o v) (output_view v).
Proof.
  eapply (delim_app _ (λ o, write_u64 (value o))).
  { eapply delim_weaken; [apply (delim_comap value _ _ _ delim_u64)|]. by intros ? []. }
  eapply (delim_app _ (λ o, hash_script_public_key (out_spk o))).
  { eapply delim_weaken; [apply (delim_comap out_spk _ _ _ delim_spk)|]. by intros ? (_ & ? & _). }
  destruct (1 <=? v).
  - eapply delim_weaken; [apply delim_covenant|]. by intros ? (_ & _ & ?).
  - eapply delim_ext; [apply (delim_nil wf_output)|done|done].
Qed.

Lemma write_output_hash_output o v : write_output o v = hash_output o v.
Proof. unfold write_output, hash_output, hash_script_public_key. by rewrite <- !app_assoc. Qed.

Lemma wf_default_u8 i : wf_input i → is_u8 (default 0 (sig_op_count (compute_commit i))).
Proof. intros (_ & _ & _ & Hc). destruct (compute_commit i); cbn in *; [done|unfold is_uint; lia]. Qed.

Lemma wf_default_u16 i : wf_input i → is_u16 (default 0 (compute_budget (compute_commit i))).
Proof. intros (_ & _ & _ & Hc). destruct (compute_commit i); cbn in *; [unfold is_uint; lia|done]. Qed.

Lemma byte_write_u8 x : is_u8 x → write_u8 x = [x].
Proof.
  intros Hx. rewrite <- (to_from_le_bytes [x]) by (by apply Forall_singleton).
  change (from_le_bytes [x]) with (Z.lor x 0). by rewrite Z.lor_0_r.
Qed.

Lemma delim_sig_part v flags :
  delim wf_input (λ i, if contains flags EXCLUDE_SIGNATURE_SCRIPT then write_var_bytes []
    else write_var_bytes (signature_script i) ++
         (if version_expects_sig_op_count_field v then [default 0 (sig_op_count (compute_commit i))] else []))
    (sig_view v flags).
Proof.
  unfold sig_view. destruct (contains flags EXCLUDE_SIGNATURE_SCRIPT).
  { intros a b r r' _ _ He. by apply app_inj_length in He as [_ ->]. }
  assert (delim wf_input (λ i, write_var_bytes (signature_script i)) signature_script) as Hs.
  { eapply delim_weaken; [apply (delim_comap signature_script _ _ _ delim_var)|]. by intros ? (_ & ? & _). }
  destruct (version_expects_sig_op_count_field v).
  - eapply delim_ext; [eapply (delim_app wf_input _ (λ i, write_u8 (default 0 (sig_op_count (compute_commit i)))));
      [exact Hs|]|..].
    + eapply delim_weaken; [apply (delim_comap (λ i, default 0 (sig_op_count (compute_commit i))) _ _ _ delim_u8)|].
      apply wf_default_u8.
    + intros a Ha. cbn. by rewrite byte_write_u8 by (by apply wf_default_u8).
    + by intros a b [= -> ->].
  - eapply delim_ext; [exact Hs|intros; by rewrite app_nil_r|by intros a b ->].
Qed.

Lemma delim_input v flags : delim wf_input (λ i, write_input i v flags) (input_view v flags).
Proof.
  eapply (delim_app _ (λ i, write_outpoint (previous_outpoint i))).
  { eapply delim_weaken; [apply (delim_comap previous_outpoint _ _ _ delim_outpoint)|]. by intros ? []. }
  eapply delim_app; [apply delim_sig_part|].
  eapply (delim_app _ (λ i, write_u64 (sequence i))).
  { eapply delim_weaken; [apply (delim_comap sequence _ _ _ delim_u64)|]. by intros ? (_ & _ & ? & _). }
  unfold budget_view. destruct (_ && _).
  - eapply delim_ext; [|done|].
    + eapply delim_weaken; [apply (delim_comap (λ i, default 0 (compute_budget (compute_commit i))) _ _ _ delim_u16)|].
      apply wf_default_u16.
    + by intros a b ->.
  - eapply delim_ext; [apply (delim_nil wf_input)|done|done].
Qed.

(** The encoding of a transaction up to its trailing mass commitment. *)
Definition tx_body (v flags : Z) (tx : Transaction) : bytes :=
  (write_len (Zlength (inputs tx)) ++ mjoin ((λ i, write_input i v flags) <$> inputs tx)) ++
  (write_len (Zlength (outputs tx)) ++ mjoin ((λ o, hash_output o v) <$> outputs tx)) ++
  write_u64 (lock_time tx) ++ subnetwork_id tx ++ write_u64 (gas tx) ++
  (if contains flags EXCLUDE_PAYLOAD then write_var_bytes [] else write_var_bytes (payload tx)).

Lemma write_transaction_body tx flags :
  write_transaction tx flags = (write_u16 (version tx) ++ tx_body (version tx) flags tx) ++ write_mass_commit tx flags.
Proof.
  unfold write_transaction, tx_body.
  rewrite (list_fmap_ext (λ o, write_output o (version tx)) (λ o, hash_output o (version tx)) (outputs tx))
    by (intros; apply write_output_hash_output).
  by rewrite <- !app_assoc.
Qed.

Lemma delim_body v flags : delim wf_tx (tx_body v flags) (body_view v flags).
Proof.
  eapply delim_app.
  { eapply delim_weaken; [apply (delim_comap inputs _ _ _ (delim_list _ _ _ (delim_input v flags)))|].
    by intros ? (_ & ? & ? & _). }
  eapply delim_app.
  { eapply delim_weaken; [apply (delim_comap outputs _ _ _ (delim_list _ _ _ (delim_output v)))|].
    by intros ? (_ & _ & _ & ? & ? & _). }
  eapply (delim_app _ (λ tx, write_u64 (lock_time tx))).
  { eapply delim_weaken; [apply (delim_comap lock_time _ _ _ delim_u64)|]. by intros ? (_ & _ & _ & _ & _ & ? & _). }
  eapply (delim_app _ subnetwork_id).
  { eapply delim_weaken; [apply (delim_comap subnetwork_id _ _ _ (delim_array 20))|].
    by intros ? (_ & _ & _ & _ & _ & _ & ? & _). }
  eapply (delim_app _ (λ tx, write_u64 (gas tx))).
  { eapply delim_weaken; [apply (delim_comap gas _ _ _ delim_u64)|]. by intros ? (_ & _ & _ & _ & _ & _ & _ & ? & _). }
  destruct (contains flags EXCLUDE_PAYLOAD).
  - intros a b r r' _ _ He. by apply app_inj_length in He as [_ ->].
  - eapply delim_weaken; [apply (delim_comap payload _ _ _ delim_var)|].
    by intros ? (_ & _ & _ & _ & _ & _ & _ & _ & ? & _).
Qed.

Lemma write_transaction_inj tx tx' flags :
  wf_tx tx → wf_tx tx' → write_transaction tx flags = write_transaction tx' flags →
  version tx = version tx' ∧ body_view (version tx) flags tx = body_view (version tx) flags tx' ∧
  write_mass_commit tx flags = write_mass_commit tx' flags.
Proof.
  intros Hw Hw'. rewrite !write_transaction_body, <- !app_assoc. intros He.
  apply (delim_u16 (version tx) (version tx')) in He as [Hv He]; [|by destruct Hw|by destruct Hw'].
  rewrite <- Hv in He. by apply delim_body in He as [Hb Hm].
Qed.

(** ** Binding *)

(** The hasher does not collide on the listed (domain, preimage) queries. *)
Definition no_collision (H : HashDomain → bytes → bytes) (qs : list (HashDomain * bytes)) : Prop :=
  ∀ x y, x ∈ qs → y ∈ qs → H x.1 x.2 = H y.1 y.2 → x = y.

(** The queries made to compute a transaction id. *)
Definition id_queries (H : HashDomain → bytes → bytes) (tx : Transaction) : list (HashDomain * bytes) :=
  if version tx =? 0 then [(TransactionID, write_transaction_v0_for_transaction_id tx)]
  else [(PayloadDigest, payload tx); (TransactionRest, write_rest_preimage tx);
        (TransactionV1Id, payload_digest H (payload tx) ++ H TransactionRest (write_rest_preimage tx))].

(** The non-witness part of a transaction: no signature scripts, no compute or
    mass commitments, and covenant bindings only from version 1 on. *)
Definition tx_core (tx : Transaction) :=
  (version tx, ((λ i, (previous_outpoint i, sequence i)) <$> inputs tx, output_view (version tx) <$> outputs tx),
   (lock_time tx, subnetwork_id tx, gas tx, payload tx)).

Lemma core_of_body flags tx tx' :
  contains flags EXCLUDE_SIGNATURE_SCRIPT = true → contains flags EXCLUDE_MASS_COMMIT = true →
  version tx = version tx' → body_view (version tx) flags tx = body_view (version tx) flags tx' →
  payload tx = payload tx' → tx_core tx = tx_core tx'.
Proof.
  intros Hs Hm Hv [= Hi Ho Hl Hn Hg _] Hp. unfold tx_core. rewrite <- Hv, Ho, Hl, Hn, Hg, Hp.
  do 3 f_equal.
  apply (f_equal (fmap (λ x : TransactionOutpoint * (option (bytes * option Z) * (Z * option Z)), (x.1, x.2.2.1)))) in Hi.
  by rewrite <- !list_fmap_compose in Hi.
Qed.

(** The encoding of the non-witness part is a function of it. *)
Lemma write_transaction_core flags tx tx' :
  contains flags EXCLUDE_SIGNATURE_SCRIPT = true → contains flags EXCLUDE_MASS_COMMIT = true →
  tx_core tx = tx_core tx' → write_transaction tx flags = write_transaction tx' flags.
Proof.
  intros Hs Hm [= Hv Hi Ho Hl Hn Hg Hp]. rewrite !write_transaction_body. unfold tx_body, write_mass_commit.
  rewrite Hm, <- Hv, Hl, Hn, Hg, Hp.
  set (f := λ x : TransactionOutpoint * Z, write_outpoint x.1 ++ write_var_bytes [] ++ write_u64 x.2 ++ []).
  set (g := λ x : Z * (ScriptPublicKey * option CovenantBinding),
    write_u64 x.1 ++ hash_script_public_key x.2.1 ++
    (if 1 <=? version tx then write_bool (if x.2.2 then true else false) ++
      match x.2.2 with Some c => write_u16 (authorizing_input c) ++ binding_covenant_id c | None => [] end else [])).
  assert (∀ l : list TransactionInput, (λ i, write_input i (version tx) flags) <$> l = f <$> ((λ i, (previous_outpoint i, sequence i)) <$> l)) as Hf.
  { intros l. rewrite <- list_fmap_compose. apply list_fmap_ext. intros _ i _. unfold write_input. by rewrite Hs, Hm. }
  assert (∀ l : list TransactionOutput, (λ o, hash_output o (version tx)) <$> l = g <$> (output_view (version tx) <$> l)) as Hgo.
  { intros l. rewrite <- list_fmap_compose. apply list_fmap_ext. intros _ o _. cbn. unfold g, hash_output. cbn.
    by destruct (1 <=? version tx). }
  rewrite <- Hv in Ho. rewrite !Hf, !Hgo, Hi, Ho.
  assert (length (inputs tx) = length (inputs tx')) as Hli.
  { apply (f_equal length) in Hi. by rewrite !length_fmap in Hi. }
  assert (length (outputs tx) = length (outputs tx')) as Hlo.
  { apply (f_equal length) in Ho. by rewrite !length_fmap in Ho. }
  unfold Zlength. by rewrite Hli, Hlo.
Qed.

Lemma tx_id_iff_core (H : HashDomain → bytes → bytes) (tx tx' : Transaction) :
  wf_tx tx → wf_tx tx' →
  (∀ d x, length (H d x) = 32%nat) → H PayloadDigest [] = ZERO_PAYLOAD_DIGEST →
  no_collision H (id_queries H tx ++ id_queries H tx') →
  tx_id H tx = tx_id H tx' ↔ tx_core tx = tx_core tx'.
Proof.
  intros Hw Hw' Hlen Hzero Hcf.
  assert (∀ p, payload_digest H p = H PayloadDigest p) as Hpd.
  { intros p. unfold payload_digest. by case_bool_decide; subst. }
  unfold tx_id. split.
  - unfold id_queries in Hcf. destruct (Z.eqb_spec (version tx) 0), (Z.eqb_spec (version tx') 0); intros He.
    + apply (Hcf (_, _) (_, _)) in He; [|set_solver..]. apply pair_eq in He as [_ He1].
      apply write_transaction_inj in He1 as (Hv & Hb & _); [|done..].
      eapply (core_of_body ID_FLAGS); [done..|]. by injection Hb.
    + by apply (Hcf (_, _) (_, _)) in He; [|set_solver..].
    + by apply (Hcf (_, _) (_, _)) in He; [|set_solver..].
    + apply (Hcf (_, _) (_, _)) in He; [|set_solver..]. apply pair_eq in He as [_ He1].
      apply app_inj_length in He1 as [Hp Hr]; [|by rewrite !Hpd, !Hlen]. rewrite !Hpd in Hp.
      apply (Hcf (_, _) (_, _)) in Hp; [|set_solver..]. apply pair_eq in Hp as [_ Hp1].
      apply (Hcf (_, _) (_, _)) in Hr; [|set_solver..]. apply pair_eq in Hr as [_ Hr1].
      apply write_transaction_inj in Hr1 as (Hv & Hb & _); [|done..].
      by eapply (core_of_body REST_FLAGS).
  - intros Hc. assert (version tx = version tx' ∧ payload tx = payload tx') as [Hv Hp] by (by injection Hc).
    unfold id_v0, id_v1, write_transaction_v0_for_transaction_id, write_rest_preimage.
    rewrite <- Hv, Hp. rewrite (write_transaction_core ID_FLAGS tx tx' eq_refl eq_refl Hc).
    by rewrite (write_transaction_core REST_FLAGS tx tx' eq_refl eq_refl Hc).
Qed.

(** C24. A transaction id commits to exactly the non-witness part: two well-formed
    transactions have the same id if and only if they agree on version,
    outpoints, sequences, outputs, lock time, subnetwork, gas and payload, when
    the hashers return 32 bytes and do not collide on the preimages involved.
    So signatures and mass commitments can change without changing the id, and
    nothing else can. *)
Theorem tx_id_commits (H : HashDomain → bytes → bytes) (tx tx' : Transaction) :
  wf_tx tx → wf_tx tx' →
  (∀ d x, length (H d x) = 32%nat) → H PayloadDigest [] = ZERO_PAYLOAD_DIGEST →
  no_collision H (id_queries H tx ++ id_queries H tx') →
  tx_id H tx = tx_id H tx' ↔ tx_core tx = tx_core tx'.
Proof. apply tx_id_iff_core. Qed.

(** A hasher for evaluation: 32 bytes, domain-separated, with the documented
    digest of the empty payload. *)
Definition example_domain (d : HashDomain) : Z :=
  match d with
  | TransactionHash => 1 | TransactionID => 2 | TransactionRest => 3 | TransactionV1Id => 4 | PayloadDigest => 5
  | CovenantID => 6 | TransactionSigningHash => 7 | TransactionSigningHashECDSA => 8
  end.
Definition example_hasher (d : HashDomain) (x : bytes) : bytes :=
  if bool_decide (d = PayloadDigest ∧ x = []) then ZERO_PAYLOAD_DIGEST else example_hash (example_domain d :: x).

Lemma length_example_hasher d x : length (example_hasher d x) = 32%nat.
Proof. unfold example_hasher. case_bool_decide; [done|apply length_example_hash]. Qed.

(** The queries of a concrete transaction list do not collide: decided by
    evaluating each hash and comparing every pair. *)
Definition no_collision_b (H : HashDomain → bytes → bytes) (qs : list (HashDomain * bytes)) : bool :=
  let hashed := (λ q, (q, H q.1 q.2)) <$> qs in
  forallb (λ x, forallb (λ y, bool_decide (x.1 = y.1) || negb (bool_decide (x.2 = y.2))) hashed) hashed.

Lemma no_collision_b_sound H qs : no_collision_b H qs = true → no_collision H qs.
Proof.
  unfold no_collision_b, no_collision. rewrite forallb_forall. intros Hb x y Hx Hy He.
  apply (list_elem_of_fmap_2 (λ q, (q, H q.1 q.2))), list_elem_of_In in Hx, Hy.
  specialize (Hb _ Hx). rewrite forallb_forall in Hb. specialize (Hb _ Hy). cbn [fst snd] in Hb.
  rewrite (bool_decide_eq_true_2 (H x.1 x.2 = _)) in Hb by done. rewrite orb_false_r in Hb.
  by apply bool_decide_eq_true in Hb.
Qed.

(** The version-1 payment of [Tx] with another signature script and budget. *)
Definition example_tx_resigned : Transaction :=
  mk_tx 1 [mk_input (mk_outpoint (zeros 32) 3) [7; 7] 7 (ComputeBudget 44)]
    [mk_output 5000 (mk_spk 0 [170; 32]) (Some (mk_binding 0 (zeros 32)))] 0 SUBNETWORK_ID_NATIVE 0 [9; 9] 11.

Lemma example_txs_wf : wf_tx example_tx ∧ wf_tx example_tx_resigned.
Proof.
  unfold wf_tx, example_tx, example_tx_resigned. cbn [version inputs outputs lock_time subnetwork_id gas payload storage_mass].
  rewrite !Forall_singleton. unfold wf_input, wf_output, wf_outpoint, wf_spk, wf_binding. cbn. unfold is_uint, Zlength. cbn.
  intuition lia.
Qed.

Lemma tx_id_commits_witness :
  (tx_id example_hasher example_tx = tx_id example_hasher example_tx_resigned ↔
   tx_core example_tx = tx_core example_tx_resigned) ∧
  tx_id example_hasher example_tx = tx_id example_hasher example_tx_resigned.
Proof.
  split; [|vm_compute; reflexivity].
  apply tx_id_commits; [apply example_txs_wf..|apply length_example_hasher|reflexivity|].
  apply no_collision_b_sound. vm_compute. reflexivity.
Defined.

(** ** Signature hashes *)

Section sighash.
Context (H : HashDomain → bytes → bytes).

(** What a sighash of type [t] selects: [None] is replaced by the zero hash. *)
Definition sel_prevs (tx : Transaction) (t : Z) : option (list TransactionOutpoint) :=
  if is_sighash_anyone_can_pay t then None else Some (previous_outpoint <$> inputs tx).
Definition sel_seqs (tx : Transaction) (t : Z) : option (list Z) :=
  if is_sighash_single t || is_sighash_anyone_can_pay t || is_sighash_none t then None else Some (sequence <$> inputs tx).
Definition sel_sigops (tx : Transaction) (t : Z) : option (list Z) :=
  if is_sighash_anyone_can_pay t then None
  else Some ((λ i, default 0 (sig_op_count (compute_commit i))) <$> inputs tx).
Definition sel_outs (tx : Transaction) (t i : Z) : option (list TransactionOutput) :=
  if is_sighash_none t then None
  else if is_sighash_single t then (λ o, [o]) <$> outputs tx !! Z.to_nat i
  else Some (outputs tx).
Definition sel_payload (tx : Transaction) : option (list bytes) :=
  if is_native (subnetwork_id tx) && bool_decide (payload tx = []) then None else Some [payload tx].

(** The digest of a selection, and the query it makes. *)
Definition opt_digest {A} (enc : A → bytes) (sel : option (list A)) : bytes :=
  match sel with None => ZERO_HASH | Some l => H TransactionSigningHash (mjoin (enc <$> l)) end.
Definition opt_query {A} (enc : A → bytes) (sel : option (list A)) : list (HashDomain * bytes) :=
  match sel with None => [] | Some l => [(TransactionSigningHash, mjoin (enc <$> l))] end.

(** The signed message before hashing. *)
Definition sighash_preimage (tx : Transaction) (input : TransactionInput) (entry : UtxoEntry) (i t : Z) : bytes :=
  write_u16 (version tx) ++ opt_digest write_outpoint (sel_prevs tx t) ++ opt_digest write_u64 (sel_seqs tx t) ++
  (if version tx <? 1 then opt_digest write_u8 (sel_sigops tx t) else []) ++
  hash_outpoint (previous_outpoint input) ++ hash_script_public_key (entry_spk entry) ++
  write_u64 (amount entry) ++ write_u64 (sequence input) ++
  (if version tx <? 1 then write_u8 (default 0 (sig_op_count (compute_commit input))) else []) ++
  opt_digest (λ o, hash_output o (version tx)) (sel_outs tx t i) ++ write_u64 (lock_time tx) ++ subnetwork_id tx ++
  write_u64 (gas tx) ++ opt_digest write_var_bytes (sel_payload tx) ++ write_u8 t.

(** Every filled cell of the reused values holds the value a fresh computation
    for [tx] stores there. *)
Definition reused_for (tx : Transaction) (r : Reused) : Prop :=
  (∀ h, r_previous_outputs_hash r = Some h → h = opt_digest write_outpoint (sel_prevs tx SIG_HASH_ALL)) ∧
  (∀ h, r_sequences_hash r = Some h → h = opt_digest write_u64 (sel_seqs tx SIG_HASH_ALL)) ∧
  (∀ h, r_sig_op_counts_hash r = Some h → h = opt_digest write_u8 (sel_sigops tx SIG_HASH_ALL)) ∧
  (∀ h, r_outputs_hash r = Some h → h = opt_digest (λ o, hash_output o (version tx)) (sel_outs tx SIG_HASH_ALL 0)) ∧
  (∀ h, r_payload_hash r = Some h → h = H TransactionSigningHash (write_var_bytes (payload tx))).

Lemma reused_new_for tx : reused_for tx reused_new.
Proof. by repeat split. Qed.

Lemma get_or_set_for cell h : (∀ h', cell = Some h' → h' = h) → get_or_set cell h = h.
Proof. destruct cell as [h'|]; cbn; [|done]. intros Hh. by apply Hh. Qed.

Ltac reused_tac Hr :=
  destruct Hr as (Hr1 & Hr2 & Hr3 & Hr4 & Hr5);
  rewrite get_or_set_for by assumption;
  split; [reflexivity | repeat split; cbn; auto; intros ? [= <-]; reflexivity].

(** The closure each reused value is filled with computes the selection of the
    default type. *)
Lemma fill_prevs tx :
  H TransactionSigningHash
    (mjoin ((λ i, transaction_id (previous_outpoint i) ++ write_u32 (outpoint_index (previous_outpoint i))) <$> inputs tx))
  = opt_digest write_outpoint (sel_prevs tx SIG_HASH_ALL).
Proof. unfold sel_prevs. change (is_sighash_anyone_can_pay SIG_HASH_ALL) with false. cbn [opt_digest]. by rewrite <- list_fmap_compose. Qed.
Lemma fill_seqs tx :
  H TransactionSigningHash (mjoin ((λ i, write_u64 (sequence i)) <$> inputs tx))
  = opt_digest write_u64 (sel_seqs tx SIG_HASH_ALL).
Proof. unfold sel_seqs. change (_ || _) with false. cbn [opt_digest]. by rewrite <- list_fmap_compose. Qed.
Lemma fill_sigops tx :
  H TransactionSigningHash (mjoin ((λ i, write_u8 (default 0 (sig_op_count (compute_commit i)))) <$> inputs tx))
  = opt_digest write_u8 (sel_sigops tx SIG_HASH_ALL).
Proof. unfold sel_sigops. change (is_sighash_anyone_can_pay SIG_HASH_ALL) with false. cbn [opt_digest]. by rewrite <- list_fmap_compose. Qed.

Lemma previous_outputs_hash_spec tx t r : reused_for tx r →
  (previous_outputs_hash H tx t r).1 = opt_digest write_outpoint (sel_prevs tx t) ∧
  reused_for tx (previous_outputs_hash H tx t r).2.
Proof.
  intros Hr. unfold previous_outputs_hash. rewrite fill_prevs.
  change (sel_prevs tx t) with (if is_sighash_anyone_can_pay t then None else sel_prevs tx SIG_HASH_ALL).
  destruct (is_sighash_anyone_can_pay t); [done|]. reused_tac Hr.
Qed.

Lemma sequences_hash_spec tx t r : reused_for tx r →
  (sequences_hash H tx t r).1 = opt_digest write_u64 (sel_seqs tx t) ∧ reused_for tx (sequences_hash H tx t r).2.
Proof.
  intros Hr. unfold sequences_hash. rewrite fill_seqs.
  change (sel_seqs tx t) with (if is_sighash_single t || is_sighash_anyone_can_pay t || is_sighash_none t
    then None else sel_seqs tx SIG_HASH_ALL).
  destruct (_ || _); [done|]. reused_tac Hr.
Qed.

Lemma sig_op_counts_hash_spec tx t r : reused_for tx r →
  (sig_op_counts_hash H tx t r).1 = opt_digest write_u8 (sel_sigops tx t) ∧
  reused_for tx (sig_op_counts_hash H tx t r).2.
Proof.
  intros Hr. unfold sig_op_counts_hash. rewrite fill_sigops.
  change (sel_sigops tx t) with (if is_sighash_anyone_can_pay t then None else sel_sigops tx SIG_HASH_ALL).
  destruct (is_sighash_anyone_can_pay t); [done|]. reused_tac Hr.
Qed.

Lemma payload_hash_spec tx r : reused_for tx r →
  (payload_hash H tx r).1 = opt_digest write_var_bytes (sel_payload tx) ∧ reused_for tx (payload_hash H tx r).2.
Proof.
  intros Hr. unfold payload_hash, sel_payload. destruct (_ && _); [done|]. cbn [fst snd opt_digest].
  rewrite list_fmap_singleton, mjoin_cons. cbn [mjoin list_join]. rewrite app_nil_r. reused_tac Hr.
Qed.

Lemma outputs_hash_spec tx t r i : reused_for tx r →
  (outputs_hash H tx t r i).1 = opt_digest (λ o, hash_output o (version tx)) (sel_outs tx t i) ∧
  reused_for tx (outputs_hash H tx t r i).2.
Proof.
  intros Hr. unfold outputs_hash, sel_outs. destruct (is_sighash_none t); [done|].
  destruct (is_sighash_single t).
  - destruct (outputs tx !! Z.to_nat i); cbn; [|done]. by rewrite app_nil_r.
  - cbn [fst snd]. reused_tac Hr.
Qed.

Lemma calc_schnorr_input p i t r input entry :
  reused_for (ptx p) r → populated_input p i = Ok (input, entry) →
  ∃ r', reused_for (ptx p) r' ∧
    calc_schnorr_signature_hash H p i t r =
      Ok (H TransactionSigningHash (sighash_preimage (ptx p) input entry i t), r').
Proof.
  intros Hr Hp. unfold calc_schnorr_signature_hash. rewrite Hp. cbn [mbind res_bind].
  destruct (previous_outputs_hash H (ptx p) t r) as [h1 r1] eqn:E1.
  destruct (previous_outputs_hash_spec (ptx p) t r Hr) as [Hh1 Hr1]. rewrite E1 in Hh1, Hr1. cbn in Hh1, Hr1.
  destruct (sequences_hash H (ptx p) t r1) as [h2 r2] eqn:E2.
  destruct (sequences_hash_spec (ptx p) t r1 Hr1) as [Hh2 Hr2]. rewrite E2 in Hh2, Hr2. cbn in Hh2, Hr2.
  set (sg := if version (ptx p) <? 1 then _ else _).
  assert (sg.1 = (if version (ptx p) <? 1 then opt_digest write_u8 (sel_sigops (ptx p) t) else []) ∧
          reused_for (ptx p) sg.2) as [Hh3 Hr3].
  { unfold sg. destruct (version (ptx p) <? 1); [by apply sig_op_counts_hash_spec|done]. }
  destruct sg as [h3 r3]. cbn in Hh3, Hr3.
  destruct (outputs_hash H (ptx p) t r3 i) as [h4 r4] eqn:E4.
  destruct (outputs_hash_spec (ptx p) t r3 i Hr3) as [Hh4 Hr4]. rewrite E4 in Hh4, Hr4. cbn in Hh4, Hr4.
  destruct (payload_hash H (ptx p) r4) as [h5 r5] eqn:E5.
  destruct (payload_hash_spec (ptx p) r4 Hr4) as [Hh5 Hr5]. rewrite E5 in Hh5, Hr5. cbn in Hh5, Hr5.
  exists r5. split; [done|]. by subst.
Qed.

Lemma calc_schnorr_spec p i t r :
  reused_for (ptx p) r → 0 <= i < Zlength (inputs (ptx p)) → length (entries p) = length (inputs (ptx p)) →
  ∃ input entry r', populated_input p i = Ok (input, entry) ∧ reused_for (ptx p) r' ∧
    calc_schnorr_signature_hash H p i t r =
      Ok (H TransactionSigningHash (sighash_preimage (ptx p) input entry i t), r').
Proof.
  intros Hr Hi Hl. unfold Zlength in Hi.
  destruct (lookup_lt_is_Some_2 (inputs (ptx p)) (Z.to_nat i)) as [input Hin]; [lia|].
  destruct (lookup_lt_is_Some_2 (entries p) (Z.to_nat i)) as [entry Hen]; [lia|].
  assert (populated_input p i = Ok (input, entry)) as Hp by (unfold populated_input; by rewrite Hin, Hen).
  destruct (calc_schnorr_input p i t r input entry Hr Hp) as (r' & ? & ?). by exists input, entry, r'.
Qed.

(** Signature hashes computed one after the other, sharing the reused values. *)
Fixpoint sighashes (p : PopulatedTransaction) (r : Reused) (l : list (Z * Z)) : exec (list bytes) :=
  match l with
  | [] => Ok []
  | (i, t) :: l =>
      '(h, r) ← calc_schnorr_signature_hash H p i t r;
      hs ← sighashes p r l;
      Ok (h :: hs)
  end.

Lemma sighashes_fresh p r l :
  reused_for (ptx p) r → length (entries p) = length (inputs (ptx p)) →
  Forall (λ x, 0 <= x.1 < Zlength (inputs (ptx p))) l →
  ∃ hs, sighashes p r l = Ok hs ∧
    Forall2 (λ x h, fst <$> calc_schnorr_signature_hash H p x.1 x.2 reused_new = Ok h) l hs.
Proof.
  intros Hr Hl Hin. revert r Hr. induction Hin as [|[i t] l Hi Hin IH]; intros r Hr; [by exists []|].
  destruct (calc_schnorr_spec p i t r Hr Hi Hl) as (input & entry & r' & Hp & Hr' & Hc).
  destruct (calc_schnorr_spec p i t reused_new (reused_new_for _) Hi Hl) as (input' & entry' & r'' & Hp' & _ & Hc').
  rewrite Hp in Hp'. simplify_eq. destruct (IH r' Hr') as (hs & Hhs & Hf).
  eexists (_ :: hs). cbn [sighashes]. rewrite Hc. cbn [mbind res_bind]. rewrite Hhs. split; [done|].
  constructor; [|done]. cbn [fst snd]. by rewrite Hc'.
Qed.

Lemma opt_digest_inj {A B} P (enc : A → bytes) (proj : A → B) sel sel' qs :
  delim P enc proj → (∀ a, P a → enc a ≠ []) →
  (∀ l, sel = Some l → Forall P l) → (∀ l, sel' = Some l → Forall P l) →
  no_collision H qs → (∀ q, q ∈ qs → H q.1 q.2 ≠ ZERO_HASH) →
  opt_query enc sel ⊆ qs → opt_query enc sel' ⊆ qs →
  opt_digest enc sel = opt_digest enc sel' → (λ l : list A, proj <$> l) <$> sel = (λ l : list A, proj <$> l) <$> sel'.
Proof.
  intros Hd Hne Hs Hs' Hcf Hz Hq Hq' He. destruct sel as [l|], sel' as [l'|]; cbn in *; [|..|done].
  - f_equal. eapply mjoin_delim_inj; [done..|by apply Hs|by apply Hs'|].
    apply (Hcf (_, _) (_, _)) in He; [|set_solver..]. by apply pair_eq in He as [_ ?].
  - exfalso. apply (Hz (TransactionSigningHash, mjoin (enc <$> l))); [set_solver|done].
  - exfalso. apply (Hz (TransactionSigningHash, mjoin (enc <$> l'))); [set_solver|done].
Qed.

Lemma opt_digest_inj_id {A} P (enc : A → bytes) sel sel' qs :
  delim P enc (λ x, x) → (∀ a, P a → enc a ≠ []) →
  (∀ l, sel = Some l → Forall P l) → (∀ l, sel' = Some l → Forall P l) →
  no_collision H qs → (∀ q, q ∈ qs → H q.1 q.2 ≠ ZERO_HASH) →
  opt_query enc sel ⊆ qs → opt_query enc sel' ⊆ qs →
  opt_digest enc sel = opt_digest enc sel' → sel = sel'.
Proof.
  intros Hd Hne Hs Hs' Hcf Hz Hq Hq' He.
  pose proof (opt_digest_inj P enc (λ x, x) sel sel' qs Hd Hne Hs Hs' Hcf Hz Hq Hq' He) as Hf.
  destruct sel as [l|], sel' as [l'|]; try done. cbn in Hf. injection Hf as Hf. f_equal. by rewrite !list_fmap_id in Hf.
Qed.

(** All the hashing queries of one signature hash. *)
Definition sighash_queries (tx : Transaction) (input : TransactionInput) (entry : UtxoEntry) (i t : Z) :
    list (HashDomain * bytes) :=
  opt_query write_outpoint (sel_prevs tx t) ++ opt_query write_u64 (sel_seqs tx t) ++
  opt_query write_u8 (sel_sigops tx t) ++ opt_query (λ o, hash_output o (version tx)) (sel_outs tx t i) ++
  opt_query write_var_bytes (sel_payload tx) ++
  [(TransactionSigningHash, sighash_preimage tx input entry i t)].

(** What a signature of type [t] commits to. *)
Definition sighash_view (tx : Transaction) (input : TransactionInput) (entry : UtxoEntry) (i t : Z) :=
  (version tx, t, sel_prevs tx t, sel_seqs tx t,
   (if version tx <? 1 then Some (sel_sigops tx t, default 0 (sig_op_count (compute_commit input))) else None),
   (previous_outpoint input, sequence input, entry_spk entry, amount entry),
   (λ l : list TransactionOutput, output_view (version tx) <$> l) <$> sel_outs tx t i,
   (lock_time tx, subnetwork_id tx, gas tx, payload tx)).

(** The fields of the preimage, in order; the two optional fields are fixed by
    the version. *)
Record message := mk_message {
  m_version : Z; m_prevs : bytes; m_seqs : bytes; m_sigops : bytes; m_outpoint : TransactionOutpoint;
  m_spk : ScriptPublicKey; m_amount : Z; m_sequence : Z; m_sigop : Z; m_outs : bytes; m_lock_time : Z;
  m_subnetwork : bytes; m_gas : Z; m_payload : bytes; m_type : Z }.

Definition message_of (tx : Transaction) (input : TransactionInput) (entry : UtxoEntry) (i t : Z) : message :=
  mk_message (version tx) (opt_digest write_outpoint (sel_prevs tx t)) (opt_digest write_u64 (sel_seqs tx t))
    (opt_digest write_u8 (sel_sigops tx t)) (previous_outpoint input) (entry_spk entry) (amount entry) (sequence input)
    (default 0 (sig_op_count (compute_commit input)))
    (opt_digest (λ o, hash_output o (version tx)) (sel_outs tx t i)) (lock_time tx) (subnetwork_id tx) (gas tx)
    (opt_digest write_var_bytes (sel_payload tx)) t.

Definition wf_message (m : message) : Prop :=
  is_u16 (m_version m) ∧ length (m_prevs m) = 32%nat ∧ length (m_seqs m) = 32%nat ∧ length (m_sigops m) = 32%nat ∧
  wf_outpoint (m_outpoint m) ∧ wf_spk (m_spk m) ∧ is_u64 (m_amount m) ∧ is_u64 (m_sequence m) ∧ is_u8 (m_sigop m) ∧
  length (m_outs m) = 32%nat ∧ is_u64 (m_lock_time m) ∧ length (m_subnetwork m) = 20%nat ∧ is_u64 (m_gas m) ∧
  length (m_payload m) = 32%nat ∧ is_u8 (m_type m).

Definition enc_message (m : message) : bytes :=
  write_u16 (m_version m) ++ m_prevs m ++ m_seqs m ++ (if m_version m <? 1 then m_sigops m else []) ++
  write_outpoint (m_outpoint m) ++ hash_script_public_key (m_spk m) ++ write_u64 (m_amount m) ++
  write_u64 (m_sequence m) ++ (if m_version m <? 1 then write_u8 (m_sigop m) else []) ++ m_outs m ++
  write_u64 (m_lock_time m) ++ m_subnetwork m ++ write_u64 (m_gas m) ++ m_payload m ++ write_u8 (m_type m).

Ltac peel L He := apply L in He as [? He]; [|done|done].

Lemma enc_message_inj m m' :
  wf_message m → wf_message m' → enc_message m = enc_message m' →
  m_version m = m_version m' ∧ m_prevs m = m_prevs m' ∧ m_seqs m = m_seqs m' ∧
  (m_version m < 1 → m_sigops m = m_sigops m' ∧ m_sigop m = m_sigop m') ∧
  m_outpoint m = m_outpoint m' ∧ m_spk m = m_spk m' ∧ m_amount m = m_amount m' ∧ m_sequence m = m_sequence m' ∧
  m_outs m = m_outs m' ∧ m_lock_time m = m_lock_time m' ∧ m_subnetwork m = m_subnetwork m' ∧ m_gas m = m_gas m' ∧
  m_payload m = m_payload m' ∧ m_type m = m_type m'.
Proof.
  intros (W1 & W2 & W3 & W4 & W5 & W6 & W7 & W8 & W9 & W10 & W11 & W12 & W13 & W14 & W15)
    (V1 & V2 & V3 & V4 & V5 & V6 & V7 & V8 & V9 & V10 & V11 & V12 & V13 & V14 & V15) He.
  unfold enc_message in He. peel delim_u16 He. peel (delim_array 32) He. peel (delim_array 32) He.
  replace (m_version m') with (m_version m) in He.
  destruct (Z.ltb_spec (m_version m) 1); [peel (delim_array 32) He|cbn [app] in He].
  all: peel delim_outpoint He; peel delim_spk He; peel delim_u64 He; peel delim_u64 He.
  1: peel delim_u8 He. 2: cbn [app] in He.
  all: peel (delim_array 32) He; peel delim_u64 He; peel (delim_array 20) He; peel delim_u64 He;
    peel (delim_array 32) He;
    apply (delim_inj _ _ _ _ _ delim_u8) in He; [|done|done]; repeat split; auto; lia.
Qed.

Definition wf_entry (e : UtxoEntry) : Prop := wf_spk (entry_spk e) ∧ is_u64 (amount e).
Definition wf_populated (p : PopulatedTransaction) : Prop :=
  wf_tx (ptx p) ∧ length (entries p) = length (inputs (ptx p)) ∧ Forall wf_entry (entries p).

Lemma wf_message_of p i t input entry :
  (∀ d x, length (H d x) = 32%nat) → wf_populated p → is_u8 t → populated_input p i = Ok (input, entry) →
  wf_message (message_of (ptx p) input entry i t).
Proof.
  intros Hlen ((Hv & Hins & Hn & Houts & Hno & Hlt & Hsub & Hgas & Hpay & _) & Hl & Hent) Ht Hp.
  assert (∀ A (enc : A → bytes) sel, length (opt_digest enc sel) = 32%nat) as Hod by (by intros A enc []; cbn).
  apply populated_input_ok in Hp as [Hpi Hpe].
  pose proof (Forall_lookup_1 _ _ _ _ Hins Hpi) as Hwi. pose proof (Forall_lookup_1 _ _ _ _ Hent Hpe) as [Hwe1 Hwe2].
  unfold wf_message, message_of. cbn. rewrite !Hod. pose proof (wf_default_u8 _ Hwi). destruct Hwi as (? & ? & ? & ?).
  by split_and!.
Qed.

Lemma to_le_nonempty n x : 0 < n → to_le_bytes n x ≠ [].
Proof. intros Hn He. apply (f_equal length) in He. rewrite length_to_le_bytes in He by lia. cbn in He. lia. Qed.
Lemma outpoint_nonempty o : write_outpoint o ≠ [].
Proof. intros [_ He]%app_eq_nil. by apply (to_le_nonempty 4) in He. Qed.
Lemma output_nonempty o v : hash_output o v ≠ [].
Proof. intros [He _]%app_eq_nil. by apply (to_le_nonempty 8) in He. Qed.
Lemma var_nonempty b : write_var_bytes b ≠ [].
Proof. intros [He _]%app_eq_nil. by apply (to_le_nonempty 8) in He. Qed.

(** The selections of a well-formed transaction are well-formed. *)
Lemma sel_wf tx t i :
  wf_tx tx →
  (∀ l, sel_prevs tx t = Some l → Forall wf_outpoint l) ∧ (∀ l, sel_seqs tx t = Some l → Forall is_u64 l) ∧
  (∀ l, sel_sigops tx t = Some l → Forall is_u8 l) ∧ (∀ l, sel_outs tx t i = Some l → Forall wf_output l) ∧
  (∀ l, sel_payload tx = Some l → Forall (λ b, Zlength b < 2 ^ 64) l).
Proof.
  intros (_ & Hi & _ & Ho & _ & _ & _ & _ & Hp & _). unfold sel_prevs, sel_seqs, sel_sigops, sel_outs, sel_payload.
  split_and!; intros l Hl; repeat case_match; simplify_eq.
  - apply Forall_fmap. eapply Forall_impl; [exact Hi|]. by intros ? [].
  - apply Forall_fmap. eapply Forall_impl; [exact Hi|]. by intros ? (_ & _ & ? & _).
  - apply Forall_fmap. eapply Forall_impl; [exact Hi|]. intros ?. apply wf_default_u8.
  - apply fmap_Some in Hl as (o & Hlo & ->). apply Forall_singleton. by eapply Forall_lookup_1.
  - done.
  - by apply Forall_singleton.
Qed.
End sighash.

(** Reused values are transparent: computing any sequence of signature hashes
    of one transaction, of any types and inputs, with the reused values shared
    between them, gives for each the same hash as a computation with nothing
    reused. *)
Theorem sighash_reused_transparent (H : HashDomain → bytes → bytes) (p : PopulatedTransaction) (l : list (Z * Z)) :
  length (entries p) = length (inputs (ptx p)) →
  Forall (λ x, 0 <= x.1 < Zlength (inputs (ptx p))) l →
  ∃ hs, sighashes H p reused_new l = Ok hs ∧
    Forall2 (λ x h, fst <$> calc_schnorr_signature_hash H p x.1 x.2 reused_new = Ok h) l hs.
Proof. intros Hl Hin. apply sighashes_fresh; [apply reused_new_for|done|done]. Qed.

Ltac queries_tac qs := unfold qs, sighash_queries; intros ? ?; rewrite !elem_of_app; tauto.

(** C25. A signature hash commits to what its type selects: when two spends of
    well-formed transactions have the same signature hash, they have the same
    type, version, spent outpoint, spent script and amount, sequence, lock time,
    subnetwork, gas and payload, and the same selected outpoints, sequences,
    outputs and (for version 0) signature operation counts.  The hashers return
    32 bytes, do not collide on the preimages involved and do not return the
    zero hash for them. *)
Theorem sighash_commits (H : HashDomain → bytes → bytes) (p p' : PopulatedTransaction) (i i' t t' : Z) input input' entry entry' :
  wf_populated p → wf_populated p' → is_u8 t → is_u8 t' → 0 <= i → 0 <= i' →
  populated_input p i = Ok (input, entry) → populated_input p' i' = Ok (input', entry') →
  (∀ d x, length (H d x) = 32%nat) →
  let qs := sighash_queries H (ptx p) input entry i t ++ sighash_queries H (ptx p') input' entry' i' t' in
  no_collision H qs → (∀ q, q ∈ qs → H q.1 q.2 ≠ ZERO_HASH) →
  fst <$> calc_schnorr_signature_hash H p i t reused_new = fst <$> calc_schnorr_signature_hash H p' i' t' reused_new →
  sighash_view (ptx p) input entry i t = sighash_view (ptx p') input' entry' i' t'.
Proof.
  intros Hw Hw' Ht Ht' Hi Hi' Hp Hp' Hlen qs Hcf Hz He.
  assert (∀ p i input entry, 0 <= i → populated_input p i = Ok (input, entry) → 0 <= i < Zlength (inputs (ptx p))) as Hrange.
  { intros q j a b Hj [Hl _]%populated_input_ok. apply lookup_lt_Some in Hl. unfold Zlength. lia. }
  destruct (calc_schnorr_spec H p i t reused_new (reused_new_for _ _)) as (? & ? & r & Hp1 & _ & Hc); [eauto|apply Hw|].
  destruct (calc_schnorr_spec H p' i' t' reused_new (reused_new_for _ _)) as (? & ? & r' & Hp1' & _ & Hc'); [eauto|apply Hw'|].
  rewrite Hp in Hp1. rewrite Hp' in Hp1'. injection Hp1 as <- <-. injection Hp1' as <- <-. rewrite Hc, Hc' in He. cbn in He. injection He as He.
  apply (Hcf (_, _) (_, _)) in He; [|unfold qs, sighash_queries; rewrite !elem_of_app, !list_elem_of_singleton; tauto..].
  apply pair_eq in He as [_ He].
  apply (enc_message_inj (message_of H (ptx p) input entry i t) (message_of H (ptx p') input' entry' i' t')) in He
    as (E1 & E2 & E3 & E4 & E5 & E6 & E7 & E8 & E9 & E10 & E11 & E12 & E13 & E14); [|by apply wf_message_of..].
  cbn in *. destruct (sel_wf (ptx p) t i) as (S1 & S2 & S3 & S4 & S5); [apply Hw|].
  destruct (sel_wf (ptx p') t' i') as (S1' & S2' & S3' & S4' & S5'); [apply Hw'|].
  apply (opt_digest_inj_id H _ _ _ _ qs delim_outpoint (λ o _, outpoint_nonempty o)) in E2;
    [|done..|queries_tac qs|queries_tac qs].
  apply (opt_digest_inj_id H _ _ _ _ qs delim_u64 (λ x _, to_le_nonempty 8 x eq_refl)) in E3;
    [|done..|queries_tac qs|queries_tac qs].
  rewrite <- E1 in E9.
  apply (opt_digest_inj H _ _ _ _ _ qs (delim_output (version (ptx p))) (λ x _, output_nonempty x _)) in E9;
    [|done..|queries_tac qs|rewrite E1; queries_tac qs].
  apply (opt_digest_inj_id H _ _ _ _ qs delim_var (λ x _, var_nonempty x)) in E13;
    [|done..|queries_tac qs|queries_tac qs].
  assert (payload (ptx p) = payload (ptx p')) as Hpay.
  { unfold sel_payload in E13. rewrite <- E11 in E13. destruct (is_native (subnetwork_id (ptx p))); cbn in E13;
      [|by injection E13]. repeat case_bool_decide; simplify_eq; congruence. }
  unfold sighash_view. rewrite <- E1, E2, E3, E5, E6, E7, E8, E9, E10, E11, E12, E14, Hpay.
  do 4 f_equal. destruct (Z.ltb_spec (version (ptx p)) 1) as [Hlt|]; [|done]. destruct (E4 Hlt) as [E4a ->].
  apply (opt_digest_inj_id H _ _ _ _ qs delim_u8 (λ x _, to_le_nonempty 1 x eq_refl)) in E4a;
    [|done..|queries_tac qs|queries_tac qs].
  rewrite E14 in E4a. by rewrite E4a.
Qed.

Definition example_entry : UtxoEntry := mk_entry 6000 (mk_spk 0 [32; 1; 172]) 12 false None.
Definition example_spend : PopulatedTransaction := mk_populated example_tx [example_entry].
Definition example_spend_resigned : PopulatedTransaction := mk_populated example_tx_resigned [example_entry].

Lemma sighash_reused_transparent_witness :
  ∃ hs, sighashes example_hasher example_spend reused_new [(0, SIG_HASH_ALL); (0, SIG_HASH_SINGLE); (0, SIG_HASH_ALL)] = Ok hs ∧
    Forall2 (λ x h, fst <$> calc_schnorr_signature_hash example_hasher example_spend x.1 x.2 reused_new = Ok h)
      [(0, SIG_HASH_ALL); (0, SIG_HASH_SINGLE); (0, SIG_HASH_ALL)] hs.
Proof. apply sighash_reused_transparent; [reflexivity|]. decide_by_eval. Defined.

Lemma example_spends_wf : wf_populated example_spend ∧ wf_populated example_spend_resigned.
Proof.
  assert (wf_entry example_entry) by (unfold wf_entry, wf_spk, is_uint, Zlength; cbn; lia).
  unfold wf_populated. cbn [ptx entries example_spend example_spend_resigned]. rewrite !Forall_singleton.
  by destruct example_txs_wf.
Qed.

Lemma sighash_commits_witness :
  sighash_view example_tx (mk_input (mk_outpoint (zeros 32) 3) [1; 2; 3] 7 (ComputeBudget 20)) example_entry 0 SIG_HASH_ALL =
  sighash_view example_tx_resigned (mk_input (mk_outpoint (zeros 32) 3) [7; 7] 7 (ComputeBudget 44)) example_entry 0 SIG_HASH_ALL.
Proof.
  apply (sighash_commits example_hasher example_spend example_spend_resigned 0 0 SIG_HASH_ALL SIG_HASH_ALL).
  - apply example_spends_wf.
  - apply example_spends_wf.
  - unfold is_uint, SIG_HASH_ALL. lia.
  - unfold is_uint, SIG_HASH_ALL. lia.
  - lia.
  - lia.
  - reflexivity.
  - reflexivity.
  - apply length_example_hasher.
  - apply no_collision_b_sound. vm_compute. reflexivity.
  - apply Forall_forall. decide_by_eval.
  - vm_compute. reflexivity.
Defined.
