(* ===== verification/BundleVerify.v ===== *)
(** Cryptographic verification of a shielded bundle.

    shielded-core/src/verify.rs: the message that the signatures of a bundle commit
    to, and the checks on the encodings, the proof, the balance and the spend
    authorizations.  The Orchard, Halo 2 and RedPallas libraries are the operations of
    [OrchardVerify]; Blake2b with a personalisation string is a parameter.

    The theorems show that verification accepts exactly the bundles that pass all
    the checks, none of which declares a burn, and that the signed message binds
    the network, the effects of the bundle and the transaction that carries it. *)
From Stdlib Require Import String.
From stdpp Require Import base gmap list.
From S2P Require Import Prelude Turnstile Bundle Tx Encoding.

(** The libraries: canonical decodings, points, keys, the proof system, signatures and
    the arithmetic of value commitments. *)
Class OrchardVerify := {
  OAnchor : Type; OFlags : Type; ONullifier : Type; ONoteCommitment : Type; OValueCommitment : Type; OTrapdoor : Type;
  OPoint : Type; SpendAuthKey : Type; BindingKey : Type; OInstance : Type;
  anchor_from_bytes : bytes → option OAnchor;
  flags_from_byte : Z → option OFlags;
  nullifier_from_bytes : bytes → option ONullifier;
  note_commitment_from_bytes : bytes → option ONoteCommitment;
  value_commitment_from_bytes : bytes → option OValueCommitment;
  spend_auth_key_try_from : bytes → option SpendAuthKey;
  key_is_identity : SpendAuthKey → bool;
  point_from_bytes : bytes → option OPoint;
  point_is_identity : OPoint → bool;
  instance_from_parts : OAnchor → OValueCommitment → ONullifier → SpendAuthKey → ONoteCommitment → OFlags → option OInstance;
  expected_proof_size : Z → Z;
  proof_verify : bytes → list OInstance → bool;
  value_derive : Z → OTrapdoor → OValueCommitment;
  zero_trapdoor : OTrapdoor;
  commitment_add : OValueCommitment → OValueCommitment → OValueCommitment;
  commitment_sub : OValueCommitment → OValueCommitment → OValueCommitment;
  commitment_to_bytes : OValueCommitment → bytes;
  binding_key_try_from : bytes → option BindingKey;
  binding_verify : BindingKey → bytes → bytes → bool;
  spend_auth_verify : SpendAuthKey → bytes → bytes → bool
}.

Inductive NonCanonical := BadAnchor | BadNullifier | BadCmx | BadCvNet | BadRk | BadEpk.
Inductive BundleVerifyError :=
  | NoActions
  | NonCanonicalField (field : NonCanonical)
  | IdentityRk
  | IdentityEpk
  | NonCanonicalFlags
  | BadProofLength (expected got : Z)
  | ProofInvalid
  | BindingSigInvalid
  | SpendAuthSigInvalid (i : Z).

Definition SIGHASH_PERSONALIZATION : bytes := byte_str "zkas_tx_sighash0"%string.

(** ** The signed message *)

Definition sighash_action (a : ActionWire) : bytes :=
  nullifier a ++ rk a ++ cmx a ++ cv_net a ++ ephemeral_key a ++ enc_ciphertext a ++ out_ciphertext a.

(** The bytes fed to the hasher, in order. *)
Definition sighash_input (b : ShieldedBundle) (network_domain tx_context : bytes) : bytes :=
  network_domain ++ [flags b] ++ to_le_bytes 8 (value_balance b) ++ anchor b ++
  to_le_bytes 4 (wrap 32 (Zlength (actions b))) ++ mjoin (sighash_action <$> actions b) ++
  match burn b with Some (value, recipient) => to_le_bytes 8 value ++ recipient | None => [] end ++
  match anchor_block b with Some block => block | None => [] end ++
  to_le_bytes 4 (wrap 32 (Zlength tx_context)) ++ tx_context.

Definition bundle_sighash (blake2b : bytes → bytes → bytes) (b : ShieldedBundle) (network_domain tx_context : bytes) : bytes :=
  blake2b SIGHASH_PERSONALIZATION (sighash_input b network_domain tx_context).

Section verify.
Context `{OrchardVerify}.

Definition verify_spend_auth_sig (rk sighash sig : bytes) : bool :=
  match spend_auth_key_try_from rk with Some vk => spend_auth_verify vk sighash sig | None => false end.

(** ** The checks *)

(** One iteration of the loop over the actions: the public input of the proof, the
    value commitment and the randomized key. *)
Definition decode_action (anc : OAnchor) (fl : OFlags) (a : ActionWire)
    : res BundleVerifyError (OInstance * OValueCommitment * SpendAuthKey) :=
  nf ← ok_or (nullifier_from_bytes (nullifier a)) (NonCanonicalField BadNullifier);
  cm ← ok_or (note_commitment_from_bytes (cmx a)) (NonCanonicalField BadCmx);
  cv ← ok_or (value_commitment_from_bytes (cv_net a)) (NonCanonicalField BadCvNet);
  key ← ok_or (spend_auth_key_try_from (rk a)) (NonCanonicalField BadRk);
  if key_is_identity key then Err IdentityRk else
  epk ← ok_or (point_from_bytes (ephemeral_key a)) (NonCanonicalField BadEpk);
  if point_is_identity epk then Err IdentityEpk else
  inst ← ok_or (instance_from_parts anc cv nf key cm fl) IdentityRk;
  Ok (inst, cv, key).

(** The loop over the actions: [instances], [cv_sum] and [rks]. *)
Definition decode_step (anc : OAnchor) (fl : OFlags) (acc : list OInstance * option OValueCommitment * list SpendAuthKey)
    (a : ActionWire) : res BundleVerifyError (list OInstance * option OValueCommitment * list SpendAuthKey) :=
  '(inst, cv, key) ← decode_action anc fl a;
  let '(instances, cv_sum, rks) := acc in
  Ok (instances ++ [inst], Some (match cv_sum with None => cv | Some s => commitment_add s cv end), rks ++ [key]).

Fixpoint check_spend_auth (i : Z) (sighash : bytes) (l : list (ActionWire * SpendAuthKey)) : res BundleVerifyError () :=
  match l with
  | [] => Ok ()
  | (a, key) :: l =>
      if spend_auth_verify key sighash (spend_auth_sig a) then check_spend_auth (i + 1) sighash l else Err (SpendAuthSigInvalid i)
  end.

(** [0b11], the two Orchard flags. *)
Definition ORCHARD_FLAGS : Z := 3.

Definition verify_bundle (b : ShieldedBundle) (sighash : bytes) : res BundleVerifyError () :=
  if bool_decide (actions b = []) then Err NoActions else
  anc ← ok_or (anchor_from_bytes (anchor b)) (NonCanonicalField BadAnchor);
  let ext := BUNDLE_FLAG_ANCHOR_BLOCK in
  if negb (Z.land (flags b) (Z.lnot (Z.lor ORCHARD_FLAGS ext)) =? 0) ||
     negb (Bool.eqb (negb (Z.land (flags b) ext =? 0)) (bool_decide (is_Some (anchor_block b))))
  then Err NonCanonicalFlags else
  fl ← ok_or (flags_from_byte (Z.land (flags b) ORCHARD_FLAGS)) NonCanonicalFlags;
  '(instances, cv_sum, rks) ← res_foldl (decode_step anc fl) ([], None, []) (actions b);
  let expected := expected_proof_size (Zlength (actions b)) in
  if negb (Zlength (proof b) =? expected) then Err (BadProofLength expected (Zlength (proof b))) else
  if negb (proof_verify (proof b) instances) then Err ProofInvalid else
  cv_sum ← unwrap cv_sum;
  let vb_commit := Commitment.commit value_derive (value_balance b) zero_trapdoor in
  bvk ← ok_or (binding_key_try_from (commitment_to_bytes (commitment_sub cv_sum vb_commit))) BindingSigInvalid;
  if negb (binding_verify bvk sighash (binding_sig b)) then Err BindingSigInvalid else
  check_spend_auth 0 sighash (zip (actions b) rks).
(** ** What a valid bundle is *)

(** The decoded parts of an action: all encodings are canonical and neither key is
    the identity. *)
Definition action_ok (anc : OAnchor) (fl : OFlags) (a : ActionWire) (x : OInstance * OValueCommitment * SpendAuthKey) : Prop :=
  ∃ nf cm epk, nullifier_from_bytes (nullifier a) = Some nf ∧ note_commitment_from_bytes (cmx a) = Some cm ∧
    value_commitment_from_bytes (cv_net a) = Some x.1.2 ∧ spend_auth_key_try_from (rk a) = Some x.2 ∧
    key_is_identity x.2 = false ∧ point_from_bytes (ephemeral_key a) = Some epk ∧ point_is_identity epk = false ∧
    instance_from_parts anc x.1.2 nf x.2 cm fl = Some x.1.1.

Definition net_commitment (c : OValueCommitment) (cs : list OValueCommitment) : OValueCommitment := foldl commitment_add c cs.

(** Only the two Orchard flags and the anchor-block flag may be set, the latter
    exactly with the field. *)
Definition flags_ok (b : ShieldedBundle) : Prop :=
  Z.land (flags b) (Z.lnot (Z.lor ORCHARD_FLAGS BUNDLE_FLAG_ANCHOR_BLOCK)) = 0 ∧
  (Z.land (flags b) BUNDLE_FLAG_ANCHOR_BLOCK ≠ 0 ↔ is_Some (anchor_block b)).

(** The bundle balances: the binding signature verifies under the net value
    commitment minus the commitment to the declared value balance. *)
Definition balanced (b : ShieldedBundle) (sighash : bytes) (c : OValueCommitment) (cs : list OValueCommitment) : Prop :=
  ∃ bvk, binding_key_try_from
      (commitment_to_bytes (commitment_sub (net_commitment c cs) (Commitment.commit value_derive (value_balance b) zero_trapdoor))) =
      Some bvk ∧
    binding_verify bvk sighash (binding_sig b) = true.

Definition bundle_sound (b : ShieldedBundle) (sighash : bytes) : Prop :=
  ∃ anc fl x xs, anchor_from_bytes (anchor b) = Some anc ∧ flags_ok b ∧
    flags_from_byte (Z.land (flags b) ORCHARD_FLAGS) = Some fl ∧
    Forall2 (action_ok anc fl) (actions b) (x :: xs) ∧
    Zlength (proof b) = expected_proof_size (Zlength (actions b)) ∧
    proof_verify (proof b) ((x :: xs).*1.*1) = true ∧
    balanced b sighash x.1.2 (xs.*1.*2) ∧
    Forall2 (λ a (y : OInstance * OValueCommitment * SpendAuthKey), spend_auth_verify y.2 sighash (spend_auth_sig a) = true) (actions b) (x :: xs).

Lemma decode_action_ok anc fl a x : decode_action anc fl a = Ok x ↔ action_ok anc fl a x.
Proof.
  unfold decode_action, action_ok. destruct x as [[inst cv] key]. cbn [fst snd]. split.
  - intros Hd. inv_ok. destruct (key_is_identity _) eqn:Ek; [done|]. inv_ok. destruct (point_is_identity _) eqn:Ep; [done|]. inv_ok.
    eauto 12.
  - intros (nf & cm & epk & -> & -> & -> & -> & Hk & -> & Hp & Hi). cbn [ok_or mbind res_bind]. rewrite Hk.
    cbn [ok_or mbind res_bind]. rewrite Hp, Hi. done.
Qed.
Lemma decode_action_total anc fl a : decode_action anc fl a ≠ Panic.
Proof.
  unfold decode_action. destruct (nullifier_from_bytes _) as [nf|]; [|done]. destruct (note_commitment_from_bytes _) as [cm|]; [|done].
  destruct (value_commitment_from_bytes _) as [cv|]; [|done]. destruct (spend_auth_key_try_from _) as [key|]; [|done]. cbn [ok_or mbind res_bind].
  destruct (key_is_identity key); [done|]. destruct (point_from_bytes _) as [epk|]; [|done]. cbn [ok_or mbind res_bind].
  destruct (point_is_identity epk); [done|]. by destruct (instance_from_parts _ _ _ _ _ _).
Qed.

Definition sum_opt (acc : option OValueCommitment) (cs : list OValueCommitment) : option OValueCommitment :=
  match acc, cs with
  | Some s, cs => Some (net_commitment s cs)
  | None, c :: cs => Some (net_commitment c cs)
  | None, [] => None
  end.

(** The loop collects the parts of the actions in order. *)
Lemma decode_loop anc fl l is0 cs0 ks0 :
  match res_foldl (decode_step anc fl) (is0, cs0, ks0) l with
  | Ok acc => ∃ xs, Forall2 (action_ok anc fl) l xs ∧ acc = (is0 ++ xs.*1.*1, sum_opt cs0 (xs.*1.*2), ks0 ++ xs.*2)
  | Err _ => ∀ xs, ¬ Forall2 (action_ok anc fl) l xs
  | Panic => False
  end.
Proof.
  revert is0 cs0 ks0. induction l as [|a l IH]; intros is0 cs0 ks0; cbn [res_foldl].
  - exists []. split; [constructor|]. cbn. rewrite !app_nil_r. by destruct cs0.
  - pose proof (decode_action_total anc fl a). destruct (decode_action anc fl a) as [[[i c] k]|e|] eqn:Ea; [|..|done].
    + set (s := match cs0 with None => c | Some s => commitment_add s c end).
      assert (decode_step anc fl (is0, cs0, ks0) a = Ok (is0 ++ [i], Some s, ks0 ++ [k])) as -> by (unfold decode_step; by rewrite Ea).
      apply decode_action_ok in Ea. cbn [mbind res_bind]. specialize (IH (is0 ++ [i]) (Some s) (ks0 ++ [k])).
      destruct (res_foldl (decode_step anc fl) _ l) as [acc|e|]; [|..|done].
      * destruct IH as (xs & Hxs & ->). exists ((i, c, k) :: xs). split; [by constructor|]. cbn.
        rewrite <- !app_assoc. unfold s. by destruct cs0.
      * intros xs Hxs. inversion Hxs; subst. by eapply IH.
    + assert (decode_step anc fl (is0, cs0, ks0) a = Err e) as -> by (unfold decode_step; by rewrite Ea). cbn [mbind res_bind].
      intros xs Hxs. inversion Hxs as [|? x ? ? Hx]; subst. apply decode_action_ok in Hx. congruence.
Qed.

Lemma check_spend_auth_ok l : ∀ i sighash,
  check_spend_auth i sighash l = Ok () ↔ Forall (λ x, spend_auth_verify x.2 sighash (spend_auth_sig x.1) = true) l.
Proof.
  induction l as [|[a k] l IH]; intros i sighash; cbn [check_spend_auth]; [split; [constructor|done]|].
  rewrite Forall_cons. cbn [fst snd]. destruct (spend_auth_verify k sighash (spend_auth_sig a)); [rewrite IH|]; naive_solver.
Qed.
Lemma check_spend_auth_total l : ∀ i sighash, check_spend_auth i sighash l ≠ Panic.
Proof. induction l as [|[a k] l IH]; intros i sighash; cbn; [done|]. by destruct (spend_auth_verify _ _ _). Qed.
Lemma flags_ok_spec b :
  negb (Z.land (flags b) (Z.lnot (Z.lor ORCHARD_FLAGS BUNDLE_FLAG_ANCHOR_BLOCK)) =? 0) ||
  negb (Bool.eqb (negb (Z.land (flags b) BUNDLE_FLAG_ANCHOR_BLOCK =? 0)) (bool_decide (is_Some (anchor_block b)))) = false ↔ flags_ok b.
Proof.
  unfold flags_ok. rewrite orb_false_iff, !negb_false_iff, Z.eqb_eq, eqb_true_iff.
  destruct (Z.eqb_spec (Z.land (flags b) BUNDLE_FLAG_ANCHOR_BLOCK) 0); cbn [negb]; case_bool_decide; naive_solver.
Qed.

Lemma spend_auth_zip sighash l xs :
  length l = length xs →
  Forall (λ x, spend_auth_verify x.2 sighash (spend_auth_sig x.1) = true) (zip l (xs : list (OInstance * OValueCommitment * SpendAuthKey)).*2) ↔
  Forall2 (λ a y, spend_auth_verify y.2 sighash (spend_auth_sig a) = true) l xs.
Proof.
  revert xs. induction l as [|a l IH]; intros [|x xs] Hl; try done; cbn [zip zip_with fmap list_fmap].
  injection Hl as Hl. rewrite Forall_cons, Forall2_cons, <- IH by done. done.
Qed.

Lemma decode_det anc fl l xs ys : Forall2 (action_ok anc fl) l xs → Forall2 (action_ok anc fl) l ys → xs = ys.
Proof.
  intros Hx. revert ys. induction Hx as [|a x l xs Ha _ IH]; intros ys Hy; inversion Hy as [|? y ? ys' Hb Hys]; subst; [done|].
  f_equal; [|by apply IH]. apply decode_action_ok in Ha, Hb. congruence.
Qed.

Lemma verify_bundle_total b sighash : verify_bundle b sighash ≠ Panic.
Proof.
  unfold verify_bundle. case_bool_decide as Hne; [done|].
  destruct (anchor_from_bytes _) as [anc|]; [|done]. cbn [ok_or mbind res_bind]. destruct (_ || _); [done|].
  destruct (flags_from_byte _) as [fl|]; [|done]. cbn [ok_or mbind res_bind].
  pose proof (decode_loop anc fl (actions b) [] None []) as Hloop.
  destruct (res_foldl (decode_step anc fl) _ _) as [acc|e|]; [|done|done]. destruct Hloop as (xs & Hxs & ->). cbn [mbind res_bind app].
  destruct (negb (Zlength _ =? _)); [done|]. destruct (negb (proof_verify _ _)); [done|].
  destruct xs as [|x xs]; [inversion Hxs; congruence|]. cbn [sum_opt fmap list_fmap unwrap mbind res_bind].
  destruct (binding_key_try_from _); [|done]. cbn [ok_or mbind res_bind]. destruct (negb _); [done|]. apply check_spend_auth_total.
Qed.

Lemma verify_bundle_ok b sighash : verify_bundle b sighash = Ok () → bundle_sound b sighash.
Proof.
  unfold verify_bundle. case_bool_decide as Hne; [done|].
  destruct (anchor_from_bytes _) as [anc|] eqn:Ea; [|done]. cbn [ok_or mbind res_bind]. destruct (_ || _) eqn:Ef; [done|].
  apply flags_ok_spec in Ef. destruct (flags_from_byte _) as [fl|] eqn:Efl; [|done]. cbn [ok_or mbind res_bind].
  pose proof (decode_loop anc fl (actions b) [] None []) as Hloop.
  destruct (res_foldl (decode_step anc fl) _ _) as [acc|e|]; [|done|done]. destruct Hloop as (xs & Hxs & ->). cbn [mbind res_bind app].
  destruct (Z.eqb_spec (Zlength (proof b)) (expected_proof_size (Zlength (actions b)))) as [Hl|]; [|done]. cbn [negb].
  destruct (proof_verify _ _) eqn:Epf; [|done]. cbn [negb]. destruct xs as [|x xs]; [done|]. cbn [sum_opt fmap list_fmap unwrap mbind res_bind].
  destruct (binding_key_try_from _) as [bvk|] eqn:Eb; [|done]. cbn [ok_or mbind res_bind]. destruct (binding_verify _ _ _) eqn:Ev; [|done]. cbn [negb].
  intros Hs%check_spend_auth_ok. exists anc, fl, x, xs. split_and!; try done; [by exists bvk|].
  apply spend_auth_zip; [by eapply Forall2_length|]. exact Hs.
Qed.

Lemma verify_bundle_complete b sighash : bundle_sound b sighash → verify_bundle b sighash = Ok ().
Proof.
  intros (anc & fl & x & xs & Ha & Hf & Hfl & Hxs & Hl & Hpf & (bvk & Hb & Hv) & Hs). unfold verify_bundle.
  rewrite bool_decide_eq_false_2 by (intros E; rewrite E in Hxs; inversion Hxs). rewrite Ha. cbn [ok_or mbind res_bind].
  apply flags_ok_spec in Hf. rewrite Hf, Hfl. cbn [ok_or mbind res_bind].
  pose proof (decode_loop anc fl (actions b) [] None []) as Hloop.
  destruct (res_foldl (decode_step anc fl) _ _) as [acc|e|]; [|by destruct (Hloop (x :: xs))|done].
  destruct Hloop as (ys & Hys & ->). rewrite (decode_det _ _ _ _ _ Hys Hxs). cbn [mbind res_bind app sum_opt fmap list_fmap].
  rewrite (proj2 (Z.eqb_eq _ _)) by done. cbn [negb]. cbn [fmap list_fmap] in Hpf. rewrite Hpf. cbn [negb unwrap mbind res_bind].
  unfold balanced in *. rewrite Hb. cbn [ok_or mbind res_bind]. rewrite Hv. cbn [negb]. apply check_spend_auth_ok.
  apply (spend_auth_zip sighash (actions b) (x :: xs)); [by eapply Forall2_length|done].
Qed.

(** A sound bundle in its canonical form declares no burn: the flag is refused. *)
Lemma sound_no_burn field b sighash : canonical field b → bundle_sound b sighash → burn b = None.
Proof.
  intros (Hfl & _ & _ & _ & _ & _ & _ & Hb & _) (_ & _ & _ & _ & _ & [Hf _] & _). unfold wf_burn in Hb.
  destruct (Z.eqb_spec (Z.land (flags b) BUNDLE_FLAG_BURN) 0) as [_|Hn]; [done|]. destruct Hn.
  apply Z.bits_inj'. intros n Hn. rewrite Z.land_spec, Z.bits_0. change BUNDLE_FLAG_BURN with (2 ^ 2). rewrite Z.pow2_bits_eqb by lia.
  destruct (Z.eqb_spec 2 n) as [<-|]; [|by rewrite andb_false_r]. rewrite andb_true_r.
  apply (f_equal (λ z, Z.testbit z 2)) in Hf. rewrite Z.land_spec, Z.bits_0 in Hf. vm_compute (Z.testbit (Z.lnot _) 2) in Hf.
  by rewrite andb_true_r in Hf.
Qed.
End verify.

(** ** What the signed message binds *)

Definition action_effects (a : ActionWire) : bytes * bytes * bytes * bytes * bytes * bytes * bytes :=
  (nullifier a, rk a, cmx a, cv_net a, ephemeral_key a, enc_ciphertext a, out_ciphertext a).
(** Everything but the proof and the signatures. *)
Definition effects (b : ShieldedBundle) :=
  (flags b, value_balance b, anchor b, action_effects <$> actions b, burn b, anchor_block b).
(** The fields of a transaction outside its bundle. *)
Definition tx_context_fields (tx : Transaction) : Z * bytes * Z * Z := (version tx, subnetwork_id tx, lock_time tx, gas tx).
Definition wf_context (tx : Transaction) : Prop :=
  is_u16 (version tx) ∧ length (subnetwork_id tx) = 20%nat ∧ is_u64 (lock_time tx) ∧ is_u64 (gas tx).

Lemma delim_action : delim wf_action sighash_action action_effects.
Proof.
  intros a b r r' (A1 & A2 & A3 & A4 & A5 & A6 & A7 & _) (B1 & B2 & B3 & B4 & B5 & B6 & B7 & _) He. unfold sighash_action in He.
  rewrite <- !app_assoc in He. unfold action_effects. destruct A1 as [A1 _], A2 as [A2 _], A3 as [A3 _], A4 as [A4 _], A5 as [A5 _],
    A6 as [A6 _], A7 as [A7 _], B1 as [B1 _], B2 as [B2 _], B3 as [B3 _], B4 as [B4 _], B5 as [B5 _], B6 as [B6 _], B7 as [B7 _].
  repeat (apply app_inj_length in He as [? He]; [|congruence]). split; congruence.
Qed.

Lemma length_context tx : length (subnetwork_id tx) = 20%nat → length (shielded_sighash_context tx) = 38%nat.
Proof. intros Hs. unfold shielded_sighash_context. rewrite !length_app, Hs, !length_to_le_bytes by lia. done. Qed.
Lemma context_inj tx tx' : wf_context tx → wf_context tx' → shielded_sighash_context tx = shielded_sighash_context tx' →
  tx_context_fields tx = tx_context_fields tx'.
Proof.
  intros (V & S & L & G) (V' & S' & L' & G') He. unfold shielded_sighash_context in He.
  apply delim_u16 in He as [Hv He]; [|done..]. apply app_inj_length in He as [Hs He]; [|congruence].
  apply delim_u64 in He as [Hl He]; [|done..]. apply to_le_bytes_inj in He; [|done..]. unfold tx_context_fields. congruence.
Qed.

Lemma wf_burn_bytes fl o o' r r' : wf_burn fl o → wf_burn fl o' →
  match o with Some (v, rc) => to_le_bytes 8 v ++ rc | None => [] end ++ r =
  match o' with Some (v, rc) => to_le_bytes 8 v ++ rc | None => [] end ++ r' → o = o' ∧ r = r'.
Proof.
  unfold wf_burn. destruct (_ =? 0); [by intros -> ->|]. intros (v & rc & -> & Hv & _ & [Hr _]) (v' & rc' & -> & Hv' & _ & [Hr' _]) He.
  rewrite <- !app_assoc in He. apply delim_u64 in He as [-> He]; [|done..]. by apply app_inj_length in He as [-> ->]; [|congruence].
Qed.
Lemma wf_block_bytes field field' fl o o' r r' : wf_anchor_block field fl o → wf_anchor_block field' fl o' → length r = length r' →
  match o with Some block => block | None => [] end ++ r = match o' with Some block => block | None => [] end ++ r' → o = o' ∧ r = r'.
Proof.
  intros Hb Hb' Hl He. pose proof (f_equal length He) as Hll. rewrite !length_app in Hll. unfold wf_anchor_block in *.
  destruct (field && _), (field' && _).
  - destruct Hb as (b & -> & [Hb _]), Hb' as (b' & -> & [Hb' _]). by apply app_inj_length in He as [-> ->]; [|cbn; congruence].
  - destruct Hb as (b & -> & [Hb _]). subst o'. cbn in Hll. lia.
  - destruct Hb' as (b & -> & [Hb' _]). subst o. cbn in Hll. lia.
  - subst o o'. done.
Qed.

Lemma sighash_input_inj field field' b b' d d' tx tx' :
  canonical field b → canonical field' b' → length d = 32%nat → length d' = 32%nat → wf_context tx → wf_context tx' →
  sighash_input b d (shielded_sighash_context tx) = sighash_input b' d' (shielded_sighash_context tx') →
  d = d' ∧ effects b = effects b' ∧ tx_context_fields tx = tx_context_fields tx'.
Proof.
  intros (F & V & [A _] & _ & N & As & _ & Bu & Bl) (F' & V' & [A' _] & _ & N' & As' & _ & Bu' & Bl') Hd Hd' Hc Hc' He.
  unfold MAX_ACTIONS_PER_BUNDLE in *. pose proof (length_context tx) as Lc. pose proof (length_context tx') as Lc'.
  assert (is_u32 (Zlength (actions b)) ∧ is_u32 (Zlength (actions b'))) as [Hu Hu'] by (unfold is_uint, Zlength in *; lia).
  unfold sighash_input, wrap in He. rewrite !Z.mod_small in He by (unfold is_uint, Zlength in *; try lia; rewrite ?Lc, ?Lc' by apply Hc || apply Hc'; lia).
  apply app_inj_length in He as [-> He]; [|congruence]. apply (app_inj_length [_]) in He as [Hf He]; [|done]. assert (flags b = flags b') as Hfl by congruence. clear Hf; rename Hfl into Hf.
  apply delim_i64 in He as [Hv He]; [|done..]. apply app_inj_length in He as [Ha He]; [|congruence].
  apply delim_u32 in He as [Hl He]; [|done..]. apply (delim_elems wf_action _ action_effects) in He as [Hacts He];
    [|apply delim_action|done|done|unfold Zlength in Hl; lia].
  rewrite <- Hf in Bu', Bl'. apply (wf_burn_bytes (flags b)) in He as [Hb He]; [|done..].
  apply (wf_block_bytes field field' (flags b)) in He as [Hbl He]; [|done|done|].
  2: { rewrite !length_app, !length_to_le_bytes, Lc, Lc' by (lia || apply Hc || apply Hc'). done. }
  apply delim_u32 in He as [_ He]; [|unfold is_uint, Zlength; rewrite ?Lc, ?Lc' by (apply Hc || apply Hc'); lia..].
  split; [done|]. split; [unfold effects; congruence|]. by apply context_inj.
Qed.

(** C11. Verification is exact and refuses burns.  It never panics; it accepts exactly
    the bundles whose encodings are canonical with no identity keys, whose flags
    agree with their fields, whose proof has the right length and verifies on the
    decoded actions, whose binding signature proves the balance, and all of whose
    spends are authorized; and no canonical bundle it accepts declares a burn. *)
Theorem verify_bundle_exact `{OrchardVerify} (field : bool) (b : ShieldedBundle) (sighash : bytes) :
  canonical field b →
  verify_bundle b sighash ≠ Panic ∧ (verify_bundle b sighash = Ok () ↔ bundle_sound b sighash) ∧
  (verify_bundle b sighash = Ok () → burn b = None).
Proof.
  intros Hc. split; [apply verify_bundle_total|]. split; [split; [apply verify_bundle_ok|apply verify_bundle_complete]|].
  intros Hv. eapply sound_no_burn; [done|]. by apply verify_bundle_ok.
Qed.

(** C23. The signed message prevents replay.  Two bundles, in either wire format, whose
    messages are equal are signed for the same network, have the same effects
    (everything but the proof and the signatures, the burn declaration and the
    anchor block included) and are carried by transactions with the same version,
    subnetwork, lock time and gas, unless Blake2b collides on the two inputs. *)
Theorem bundle_sighash_binds (blake2b : bytes → bytes → bytes) (field field' : bool) (b b' : ShieldedBundle) (d d' : bytes)
    (tx tx' : Transaction) :
  canonical field b → canonical field' b' → length d = 32%nat → length d' = 32%nat → wf_context tx → wf_context tx' →
  let i := sighash_input b d (shielded_sighash_context tx) in
  let i' := sighash_input b' d' (shielded_sighash_context tx') in
  (blake2b SIGHASH_PERSONALIZATION i = blake2b SIGHASH_PERSONALIZATION i' → i = i') →
  bundle_sighash blake2b b d (shielded_sighash_context tx) = bundle_sighash blake2b b' d' (shielded_sighash_context tx') →
  d = d' ∧ effects b = effects b' ∧ tx_context_fields tx = tx_context_fields tx'.
Proof.
  intros Hc Hc' Hd Hd' Ht Ht' i i' Hcol He. apply Hcol in He. by eapply sighash_input_inj.
Qed.

(** ** Witnesses *)

(** A library in which every encoding is canonical and a signature starts with the
    hash of its key and message. *)
#[export] Instance example_orchard : OrchardVerify := {|
  OAnchor := bytes; OFlags := Z; ONullifier := bytes; ONoteCommitment := bytes; OValueCommitment := Z; OTrapdoor := unit;
  OPoint := bytes; SpendAuthKey := bytes; BindingKey := bytes; OInstance := bytes * bytes;
  anchor_from_bytes := Some; flags_from_byte := Some; nullifier_from_bytes := Some; note_commitment_from_bytes := Some;
  value_commitment_from_bytes b := Some (from_le_bytes b); spend_auth_key_try_from := Some; key_is_identity _ := false;
  point_from_bytes := Some; point_is_identity _ := false; instance_from_parts _ _ nf _ cm _ := Some (nf, cm);
  expected_proof_size := expected_proof_len; proof_verify _ l := negb (bool_decide (l = []));
  value_derive v _ := v; zero_trapdoor := (); commitment_add := Z.add; commitment_sub := Z.sub;
  commitment_to_bytes v := to_le_bytes 32 v; binding_key_try_from := Some;
  binding_verify k m s := bool_decide (take 32 s = example_hash (k ++ m));
  spend_auth_verify k m s := bool_decide (take 32 s = example_hash (k ++ m))
|}.

Definition example_sighash : bytes := replicate 32 9.
Definition example_signed_bundle : ShieldedBundle := Eval vm_compute in
  let a := mkActionWire (zeros 32) (zeros 32) (zeros 32) (to_le_bytes 32 100) (zeros 32) (zeros 580) (zeros 80)
    (example_hash (zeros 32 ++ example_sighash) ++ zeros 32) in
  mkShieldedBundle [a] 3 100 (zeros 32) (zeros 4992) (example_hash (to_le_bytes 32 0 ++ example_sighash) ++ zeros 32) None None.

Lemma example_signed_canonical field : canonical field example_signed_bundle.
Proof.
  unfold canonical. split_and!; [decide_by_eval|decide_by_eval|decide_by_eval|decide_by_eval|
    vm_compute; congruence|decide_by_eval|split; [decide_by_eval|vm_compute; congruence]|done|]. by destruct field.
Qed.

Lemma verify_bundle_exact_witness :
  verify_bundle example_signed_bundle example_sighash = Ok () ∧ bundle_sound example_signed_bundle example_sighash.
Proof.
  assert (verify_bundle example_signed_bundle example_sighash = Ok ()) as Hv by (vm_compute; reflexivity).
  split; [exact Hv|]. apply (verify_bundle_exact true example_signed_bundle example_sighash); [apply example_signed_canonical|exact Hv].
Defined.

Lemma bundle_sighash_binds_witness :
  let tx := mk_tx 2 [] [] 5 (zeros 20) 0 (to_bytes example_signed_bundle) 0 in
  zeros 32 = zeros 32 ∧ effects example_signed_bundle = effects example_signed_bundle ∧ tx_context_fields tx = tx_context_fields tx.
Proof.
  intros tx. assert (wf_context tx) as Htx by (split_and!; [decide_by_eval|reflexivity|decide_by_eval|decide_by_eval]).
  apply (bundle_sighash_binds (λ p x, example_hash (p ++ x)) true false example_signed_bundle example_signed_bundle
    (zeros 32) (zeros 32) tx tx); [apply example_signed_canonical|apply example_signed_canonical|reflexivity|reflexivity|
    exact Htx|exact Htx|intros _; reflexivity|reflexivity].
Defined.
