(* ===== verification/ScriptNum.v ===== *)
(** Script numbers: the stack encoding of integers and booleans.

    The error values of crypto/txscript/errors/src/lib.rs and the conversions of
    crypto/txscript/src/data_stack.rs between stack entries and [i64], [i32],
    sized integers, booleans and hashes.  A number is a little-endian magnitude
    whose top bit is the sign.

    The theorems show that encoding and decoding are inverse to each other on
    minimal encodings, that every decoder is total and in range, and what the
    fixed-size form accepts. *)
From stdpp Require Import base gmap list.
From S2P Require Import Prelude.

(** ** Errors (crypto/txscript/errors/src/lib.rs)

    Human-readable messages are not modelled; an opcode printed in an error is
    its number and its data. *)

Inductive SerializationError := NumberTooLong (n size : Z) | ArkSerialization.

Inductive CovenantsError :=
  | WrongGenesisCovenantId (input : Z) (id : bytes)
  | AuthInputOutOfBounds (output input : Z)
  | InvalidCovInIndex (id : bytes) (k : Z)
  | InvalidCovOutIndex (id : bytes) (k : Z)
  | InvalidAuthCovOutIndex (k input len : Z).

Inductive TxScriptError :=
  | MalformedPushSize (b : bytes)
  | MalformedPush (required remaining : Z)
  | InvalidInputIndex (i len : Z)
  | InvalidOutputIndex (i len : Z)
  | StackSizeExceeded (size max : Z)
  | InvalidOpcode (code : Z) (data : bytes)
  | OpcodeReserved (code : Z) (data : bytes)
  | OpcodeDisabled (code : Z) (data : bytes)
  | EmptyStack
  | CleanStack (n : Z)
  | EvalFalse
  | EarlyReturn
  | VerifyError
  | InvalidState
  | InvalidPubkey
  | InvalidSignature
  | TooManyOperations (n : Z)
  | NotATransactionInput
  | ElementTooBig (len max : Z)
  | NotMinimalData
  | InvalidSource
  | UnsatisfiedLockTime
  | NumberTooBig
  | NullFail
  | InvalidSignatureCount
  | InvalidPubKeyCount
  | InvalidSigHashType (t : Z)
  | PubKeyFormat
  | NoScripts
  | SignatureScriptNotPushOnly
  | ErrUnbalancedConditional
  | InvalidStackOperation (required len : Z)
  | ScriptSize (len max : Z)
  | Serialization (e : SerializationError)
  | ExceededSigOpLimit (limit : Z)
  | ExceededCommittedScriptUnits (used limit : Z)
  | ZkIntegrity
  | OutOfBoundsSubstring (from to len : Z)
  | InvalidIndex (i : Z)
  | InvalidRange (from to : Z)
  | InvalidLengthOfBlockHash (len : Z)
  | BlockNotSelected (block : bytes)
  | BlockAlreadyPruned (block : bytes)
  | BlockIsTooDeep (block : bytes)
  | Covenants (e : CovenantsError).

(** ** Signed arithmetic *)

Definition checked_i (w x : Z) : option Z := if decide (is_int w x) then Some x else None.
Definition i64_add {E} (a b : Z) : res E Z := unwrap (checked_i 64 (a + b)).
Definition i64_mul {E} (a b : Z) : res E Z := unwrap (checked_i 64 (a * b)).
(** [<<] on [i64] discards the bits shifted out. *)
Definition i64_shl (a n : Z) : Z := to_signed 64 (wrap 64 (Z.shiftl a n)).

Definition last_byte (v : bytes) : Z := default 0 (last v).

(** ** Integers (crypto/txscript/src/data_stack.rs) *)

(** [v[v.len() - 2] & 0x80 == 0] is reached only when there are two bytes. *)
Definition check_minimal_data_encoding (v : bytes) : res TxScriptError () :=
  match rev v with
  | [] => Ok ()
  | msb :: rest =>
      if Z.land msb 127 =? 0 then
        match rest with
        | [] => Err NotMinimalData
        | second :: _ => if Z.land second 128 =? 0 then Err NotMinimalData else Ok ()
        end
      else Ok ()
  end.

(** The byte iterator of [serialize_i64]; a [u64] yields at most nine bytes. *)
Fixpoint number_bytes (fuel : nat) (positive : Z) (last_saturated : bool) : bytes :=
  match fuel with
  | O => []
  | S fuel =>
      if positive =? 0 then (if last_saturated then 0 :: number_bytes fuel 0 false else [])
      else
        let value := Z.land positive 255 in
        value :: number_bytes fuel (Z.shiftr positive 8) (negb (Z.land value 128 =? 0))
  end.

(** [*number_vec.last_mut() |= 0x80], unreachable on an empty vector. *)
Definition set_sign (v : bytes) : res SerializationError bytes :=
  match rev v with
  | [] => Panic
  | num :: rest => Ok (rev (Z.lor num 128 :: rest))
  end.

Definition serialize_i64 (from : Z) (size : option Z) : res SerializationError bytes :=
  let sign := Z.sgn from in
  let positive := Z.abs from in
  let number_vec := number_bytes 10 positive false in
  number_vec ←
    match size with
    | Some size =>
        if size <? Zlength number_vec then Err (NumberTooLong from size)
        else Ok (number_vec ++ zeros (Z.to_nat (size - Zlength number_vec)))
    | None => Ok number_vec
    end;
  if sign =? -1 then set_sign number_vec else Ok number_vec.

Definition deserialize_i64 (v : bytes) (enforce_minimal : bool) : res TxScriptError Z :=
  if 8 <? Zlength v then Err NotMinimalData
  else
    match rev v with
    | [] => Ok 0
    | msb :: rest =>
        (if enforce_minimal then check_minimal_data_encoding v else Ok ()) ;;
        let sign := 1 - 2 * Z.shiftr msb 7 in
        let first_byte := Z.land msb 127 in
        m ← res_foldl (λ accum item, i64_add (i64_shl accum 8) item) first_byte rest;
        i64_mul m sign
    end.

(** [SizedEncodeInt<LEN>]. *)
Definition deserialize_sized (len : Z) (v : bytes) (enforce_minimal : bool) : res TxScriptError Z :=
  if len <? Zlength v then Err NumberTooBig else deserialize_i64 v enforce_minimal.
Definition serialize_sized (len from : Z) : res SerializationError bytes :=
  bytes ← serialize_i64 from None;
  if len <? Zlength bytes then Err (NumberTooLong from len) else Ok bytes.

(** [OpcodeData<i64>] *)
Definition deserialize_as_i64 (v : bytes) (enforce_minimal : bool) : res TxScriptError Z :=
  deserialize_sized 8 v enforce_minimal.
Definition serialize_as_i64 (n : Z) : res SerializationError bytes := serialize_sized 8 n.

(** [OpcodeData<i32>]: the 4-byte decoding is expected to be in range, the 8-byte
    one is checked. *)
Definition deserialize_as_i32 (v : bytes) (enforce_minimal : bool) : res TxScriptError Z :=
  if enforce_minimal then
    n ← deserialize_sized 4 v true;
    unwrap (checked_i 32 n)
  else
    n ← deserialize_sized 8 v false;
    ok_or (checked_i 32 n) NumberTooBig.

(** [OpcodeData<bool>] *)
Definition deserialize_bool (v : bytes) : bool :=
  match rev v with
  | [] => false
  | msb :: rest => negb (Z.land msb 127 =? 0) || existsb (λ b, negb (b =? 0)) rest
  end.
Definition serialize_bool (b : bool) : bytes := if b then [1] else [].

(** [OpcodeData<Hash>] *)
Definition deserialize_hash (v : bytes) : res TxScriptError bytes :=
  if Zlength v =? 32 then Ok v else Err (InvalidLengthOfBlockHash (Zlength v)).

(** ** The value an encoding denotes *)

(** Little-endian value of the bytes below the most significant one. *)
Fixpoint le_value (b : bytes) : Z := match b with [] => 0 | x :: b => x + 256 * le_value b end.

Definition magnitude (v : bytes) : Z :=
  match rev v with [] => 0 | msb :: rest => le_value (rev rest) + Z.land msb 127 * 256 ^ Zlength rest end.
Definition negative (v : bytes) : bool := match rev v with [] => false | msb :: _ => 128 <=? msb end.
Definition script_value (v : bytes) : Z := if negative v then - magnitude v else magnitude v.

Lemma le_value_bound b : wf_bytes b → 0 <= le_value b < 256 ^ Zlength b.
Proof.
  unfold Zlength. induction 1 as [|x b Hx Hb IH]; [done|]. cbn [le_value length].
  rewrite Nat2Z.inj_succ, Z.pow_succ_r by lia. unfold is_uint in Hx. lia.
Qed.

Lemma le_value_app a b : le_value (a ++ b) = le_value a + 256 ^ Zlength a * le_value b.
Proof.
  unfold Zlength. induction a as [|x a IH]; [cbn; lia|]. cbn [le_value length app]. rewrite IH.
  rewrite Nat2Z.inj_succ, Z.pow_succ_r by lia. ring.
Qed.

Lemma le_value_inj a b : wf_bytes a → wf_bytes b → length a = length b → le_value a = le_value b → a = b.
Proof.
  intros Ha. revert b. induction Ha as [|x a Hx Ha IH]; intros [|y b] Hb Hl He; try done.
  apply Forall_cons in Hb as [Hy Hb]. cbn in He, Hl. unfold is_uint in Hx, Hy.
  assert (x = y ∧ le_value a = le_value b) as [-> Hv].
  { pose proof (le_value_bound a Ha). pose proof (le_value_bound b Hb). lia. }
  f_equal. apply IH; [done|lia|done].
Qed.

Lemma byte_parts x : is_u8 x → Z.land x 127 = x mod 128 ∧ Z.shiftr x 7 = x / 128 ∧ Z.land x 127 + 128 * Z.shiftr x 7 = x.
Proof.
  intros Hx. assert (Z.land x 127 = x mod 128) as E by (apply (Z.land_ones x 7); lia).
  assert (Z.shiftr x 7 = x / 128) as E' by (apply (Z.shiftr_div_pow2 x 7); lia).
  rewrite E, E'. split_and!; [done|done|]. pose proof (Z.div_mod x 128 ltac:(lia)). lia.
Qed.

Lemma negative_byte x : is_u8 x → Z.shiftr x 7 = if 128 <=? x then 1 else 0.
Proof.
  intros Hx. destruct (byte_parts x Hx) as (_ & -> & _). unfold is_uint in Hx.
  destruct (Z.leb_spec 128 x); [|apply Z.div_small; lia].
  symmetry. apply (Z.div_unique x 128 1 (x - 128)); lia.
Qed.

Lemma magnitude_snoc l x : magnitude (l ++ [x]) = le_value l + Z.land x 127 * 256 ^ Zlength l.
Proof. unfold magnitude, Zlength. rewrite rev_app_distr. cbn. by rewrite rev_involutive, length_rev. Qed.

Lemma negative_snoc l x : negative (l ++ [x]) = (128 <=? x).
Proof. unfold negative. by rewrite rev_app_distr. Qed.




Lemma magnitude_bound v : wf_bytes v → 0 <= magnitude v ∧ (v ≠ [] → 2 * magnitude v < 256 ^ Zlength v).
Proof.
  intros Hv. destruct v as [|x l _] using rev_ind; [done|].
  apply Forall_app in Hv as [Hl [Hx _]%Forall_cons]. rewrite magnitude_snoc, Zlength_snoc.
  pose proof (le_value_bound l Hl). destruct (byte_parts x Hx) as (-> & _).
  pose proof (Z.mod_pos_bound x 128 ltac:(lia)). pose proof (Zlength_ge0 l).
  rewrite Z.pow_add_r by lia. split; [|intros _]; nia.
Qed.

(** The unsigned value of an encoding: its magnitude, with the sign as top bit. *)
Lemma le_value_sign v : wf_bytes v → v ≠ [] →
  le_value v = magnitude v + (if negative v then 128 * 256 ^ (Zlength v - 1) else 0).
Proof.
  intros Hv Hne. destruct v as [|x l _] using rev_ind; [done|].
  apply Forall_app in Hv as [Hl [Hx _]%Forall_cons]. rewrite magnitude_snoc, negative_snoc, Zlength_snoc, le_value_app.
  rewrite Z.add_simpl_r. cbn [le_value]. pose proof (negative_byte x Hx). destruct (byte_parts x Hx) as (_ & _ & Hp).
  destruct (128 <=? x); nia.
Qed.

Lemma fold_magnitude l a :
  wf_bytes l → 0 <= a → (a + 1) * 256 ^ Zlength l <= 2 ^ 63 →
  res_foldl (λ accum item, i64_add (i64_shl accum 8) item) a (rev l) = Ok (E := TxScriptError) (le_value l + a * 256 ^ Zlength l).
Proof.
  intros Hl Ha. revert a Ha. induction Hl as [|x l Hx Hl IH]; intros a Ha Hb.
  { change (256 ^ Zlength []) with 1. cbn [rev res_foldl le_value]. f_equal. lia. }
  cbn [rev]. rewrite res_foldl_app. pose proof (le_value_bound l Hl) as Hlb. unfold Zlength in *. cbn [length] in Hb |- *.
  rewrite Nat2Z.inj_succ, Z.pow_succ_r in Hb |- * by lia. set (P := 256 ^ Z.of_nat (length l)) in *.
  assert (0 < P) by (apply Z.pow_pos_nonneg; lia).
  replace ((a + 1) * (256 * P)) with (256 * ((a + 1) * P)) in Hb by ring. assert (0 <= (a + 1) * P) by nia.
  rewrite IH by (done || lia). cbn [mbind res_bind res_foldl le_value]. set (A := le_value l + a * P).
  assert (A + 1 <= (a + 1) * P) by (unfold A; lia). assert (0 <= A) by (unfold A; nia).
  unfold is_uint in Hx.
  assert (i64_shl A 8 = A * 256) as ->.
  { unfold i64_shl, wrap, to_signed. rewrite Z.shiftl_mul_pow2 by lia. rewrite Z.mod_small by lia.
    destruct (Z.ltb_spec (A * 2 ^ 8) (2 ^ (64 - 1))); [done|lia]. }
  unfold i64_add, checked_i. rewrite decide_True by (unfold is_int; lia). cbn. f_equal. unfold A. ring.
Qed.

(** Decoding without the minimality check is total and gives the value. *)
Lemma deserialize_value v : wf_bytes v → Zlength v <= 8 → deserialize_i64 v false = Ok (script_value v).
Proof.
  intros Hv Hl. unfold deserialize_i64. destruct (Z.ltb_spec 8 (Zlength v)); [lia|].
  destruct v as [|x l _] using rev_ind; [done|]. rewrite rev_app_distr. cbn [rev app].
  apply Forall_app in Hv as [Hl' [Hx _]%Forall_cons]. rewrite Zlength_snoc in Hl. pose proof (Zlength_ge0 l).
  destruct (byte_parts x Hx) as (Hm & _). pose proof (Z.mod_pos_bound x 128 ltac:(lia)).
  assert (256 ^ Zlength l <= 256 ^ 7) by (apply Z.pow_le_mono_r; lia). assert (0 < 256 ^ Zlength l) by (apply Z.pow_pos_nonneg; lia).
  cbn [mbind res_bind]. rewrite fold_magnitude by (done || nia). cbn [mbind res_bind].
  unfold script_value. rewrite magnitude_snoc, negative_snoc, negative_byte by done.
  pose proof (le_value_bound l Hl').
  unfold i64_mul, checked_i. rewrite decide_True.
  - cbn. f_equal. destruct (128 <=? x); ring.
  - unfold is_int. destruct (128 <=? x); nia.
Qed.

(** ** Minimal encodings *)

Lemma check_minimal_snoc l x :
  check_minimal_data_encoding (l ++ [x]) =
  if Z.land x 127 =? 0 then
    match rev l with
    | [] => Err NotMinimalData
    | second :: _ => if Z.land second 128 =? 0 then Err NotMinimalData else Ok ()
    end
  else Ok ().
Proof. unfold check_minimal_data_encoding. rewrite rev_app_distr. done. Qed.

Lemma land_128 x : is_u8 x → (Z.land x 128 =? 0) = (x <? 128).
Proof.
  intros Hx. assert (Z.land x 128 = 128 * Z.shiftr x 7) as ->.
  { apply Z.bits_inj'. intros n Hn. rewrite Z.land_spec.
    rewrite Z.mul_comm. change 128 with (2 ^ 7). rewrite <- Z.shiftl_mul_pow2 by lia. rewrite Z.pow2_bits_eqb by lia.
    destruct (Z.eqb_spec 7 n) as [<-|Hne].
    - rewrite Z.shiftl_spec, Z.shiftr_spec by lia. by rewrite andb_true_r.
    - rewrite andb_false_r. rewrite Z.shiftl_spec by lia. destruct (decide (n < 7)).
      + by rewrite Z.testbit_neg_r by lia.
      + rewrite Z.shiftr_spec by lia. symmetry. unfold is_uint in Hx. rewrite Z.sub_add.
        apply Z.bits_above_log2; [lia|]. destruct (decide (x = 0)) as [->|]; [cbn; lia|].
        apply Z.log2_lt_pow2; [lia|]. eapply Z.lt_le_trans; [apply Hx|]. apply Z.pow_le_mono_r; lia. }
  rewrite negative_byte by done. destruct (Z.leb_spec 128 x), (Z.ltb_spec x 128); (reflexivity || lia).
Qed.

(** A minimal encoding has just enough bytes for its magnitude. *)
Definition tight (v : bytes) : Prop := v = [] ∨ 256 ^ (Zlength v - 1) <= 2 * magnitude v.

Lemma minimal_iff_tight v : wf_bytes v → check_minimal_data_encoding v = Ok () ↔ tight v.
Proof.
  intros Hv. destruct v as [|x l _] using rev_ind; [by split; [left|]|].
  rewrite check_minimal_snoc. unfold tight. rewrite magnitude_snoc, Zlength_snoc, Z.add_simpl_r.
  apply Forall_app in Hv as [Hl [Hx _]%Forall_cons]. destruct (byte_parts x Hx) as (Hm & _).
  pose proof (Z.mod_pos_bound x 128 ltac:(lia)). pose proof (le_value_bound l Hl). pose proof (Zlength_ge0 l).
  assert (0 < 256 ^ Zlength l) by (apply Z.pow_pos_nonneg; lia).
  assert (l ++ [x] ≠ []) by (by destruct l). destruct (Z.eqb_spec (Z.land x 127) 0) as [E|E]; [|split; [right; nia|done]].
  rewrite E. destruct l as [|y l _] using rev_ind; [cbn; split; [done|intros [|?]; [done|lia]]|].
  rewrite rev_app_distr. cbn [rev app]. apply Forall_app in Hl as [Hl [Hy _]%Forall_cons].
  rewrite land_128 by done. rewrite le_value_app, Zlength_snoc, Z.pow_add_r in * by (done || apply Zlength_ge0).
  cbn [le_value]. pose proof (le_value_bound l Hl). unfold is_uint in Hy.
  destruct (Z.ltb_spec y 128); split; try done.
  - intros [|Hc]; [by destruct l|]. nia.
  - intros _. right. nia.
Qed.

(** The window of magnitudes of a tight encoding fixes its length. *)
Lemma tight_length v v' :
  wf_bytes v → wf_bytes v' → tight v → tight v' → magnitude v = magnitude v' → length v = length v'.
Proof.
  intros Hv Hv' Ht Ht' Hm. destruct (magnitude_bound v Hv) as [H0 H1]. destruct (magnitude_bound v' Hv') as [H0' H1'].
  destruct (decide (v = [])) as [->|Hne]; destruct (decide (v' = [])) as [->|Hne']; [done|..].
  - destruct Ht' as [|Ht']; [done|]. change (magnitude []) with 0 in Hm. rewrite <- Hm in Ht'.
    assert (0 < 256 ^ (Zlength v' - 1)); [|lia]. apply Z.pow_pos_nonneg; [lia|].
    destruct v'; [done|]. unfold Zlength. cbn. lia.
  - destruct Ht as [|Ht]; [done|]. change (magnitude []) with 0 in Hm. rewrite Hm in Ht.
    assert (0 < 256 ^ (Zlength v - 1)); [|lia]. apply Z.pow_pos_nonneg; [lia|].
    destruct v; [done|]. unfold Zlength. cbn. lia.
  - specialize (H1 Hne). specialize (H1' Hne'). destruct Ht as [|Ht]; [done|]. destruct Ht' as [|Ht']; [done|].
    assert (¬ Zlength v < Zlength v').
    { intros Hlt. assert (256 ^ Zlength v <= 256 ^ (Zlength v' - 1)) by (apply Z.pow_le_mono_r; lia). lia. }
    assert (¬ Zlength v' < Zlength v).
    { intros Hlt. assert (256 ^ Zlength v' <= 256 ^ (Zlength v - 1)) by (apply Z.pow_le_mono_r; lia). lia. }
    unfold Zlength in *. lia.
Qed.

Lemma tight_positive v : wf_bytes v → tight v → v ≠ [] → 0 < magnitude v.
Proof.
  intros Hv [->|Ht] Hne; [done|]. assert (0 < 256 ^ (Zlength v - 1)); [|lia].
  apply Z.pow_pos_nonneg; [lia|]. destruct v; [done|]. unfold Zlength. cbn. lia.
Qed.

Lemma tight_unique v v' :
  wf_bytes v → wf_bytes v' → tight v → tight v' → script_value v = script_value v' → v = v'.
Proof.
  intros Hv Hv' Ht Ht' He. destruct (magnitude_bound v Hv) as [H0 _]. destruct (magnitude_bound v' Hv') as [H0' _].
  assert (magnitude v = magnitude v') as Hm.
  { unfold script_value in He. destruct (negative v), (negative v'); lia. }
  pose proof (tight_length v v' Hv Hv' Ht Ht' Hm) as Hl.
  destruct (decide (v = [])) as [->|Hne]; [by destruct v'|]. assert (v' ≠ []) as Hne' by (by destruct v, v').
  pose proof (tight_positive v Hv Ht Hne). apply le_value_inj; [done..|].
  rewrite !le_value_sign by done. unfold Zlength. rewrite Hl, Hm.
  unfold script_value in He. destruct (negative v), (negative v'); lia.
Qed.

(** ** The byte iterator *)

Lemma number_bytes_zero fuel : number_bytes fuel 0 false = [].
Proof. by destruct fuel. Qed.

Lemma number_bytes_spec f m s :
  0 <= m < 256 ^ Z.of_nat f →
  let d := number_bytes (S f) m s in
  wf_bytes d ∧ le_value d = m ∧ 2 * m < 256 ^ Zlength d ∧ (d = [] → m = 0) ∧ (0 < m → 256 ^ (Zlength d - 1) <= 2 * m) ∧
  (m = 0 → d = if s then [0] else []).
Proof.
  revert m s. induction f as [|f IH]; intros m s Hm; cbn zeta.
  { assert (m = 0) as -> by (cbn in Hm; lia). cbn. destruct s; unfold Zlength; cbn; split_and!; try lia; try done.
    - apply Forall_singleton. unfold is_uint. lia.
    - by apply Forall_nil. }
  rewrite Nat2Z.inj_succ, Z.pow_succ_r in Hm by lia. remember (S f) as g. cbn [number_bytes].
  destruct (Z.eqb_spec m 0) as [->|Hm0].
  { rewrite number_bytes_zero. destruct s; unfold Zlength; cbn; split_and!; try lia; try done.
    - apply Forall_singleton. unfold is_uint. lia.
    - by apply Forall_nil. }
  assert (Z.land m 255 = m mod 256) as -> by (apply (Z.land_ones m 8); lia).
  assert (Z.shiftr m 8 = m / 256) as -> by (apply (Z.shiftr_div_pow2 m 8); lia).
  pose proof (Z.div_mod m 256 ltac:(lia)) as Hdm. pose proof (Z.mod_pos_bound m 256 ltac:(lia)) as Hmb.
  assert (0 <= m / 256 < 256 ^ Z.of_nat f) as Hq by (split; [apply Z.div_pos; lia|apply Z.div_lt_upper_bound; lia]).
  set (q := m / 256) in *. set (x := m mod 256) in *. rewrite land_128 by done.
  destruct (IH q (negb (x <? 128)) Hq) as (Hw & Hv & Hlt & Hn & Hge & Hz). subst g.
  set (d := number_bytes (S f) q (negb (x <? 128))) in *.
  assert (Zlength (x :: d) = Zlength d + 1) as -> by (unfold Zlength; cbn; lia). pose proof (Zlength_ge0 d).
  cbn [le_value]. rewrite Hv, Z.add_simpl_r, Z.pow_add_r by lia. split_and!; try done; try lia.
  - apply Forall_cons. split; [unfold is_uint; lia|done].
  - destruct (decide (q = 0)) as [Hq0|Hq0].
    + specialize (Hz Hq0). rewrite Hz. destruct (Z.ltb_spec x 128); unfold Zlength; cbn; lia.
    + specialize (Hge ltac:(lia)). assert (1 <= Zlength d).
      { destruct d; [specialize (Hn eq_refl); lia|]. unfold Zlength. cbn. lia. }
      assert (256 ^ Zlength d = 256 * 256 ^ (Zlength d - 1)) as Hp by (rewrite <- Z.pow_succ_r by lia; f_equal; lia).
      rewrite Hp in *. lia.
  - intros _. destruct (decide (q = 0)) as [Hq0|Hq0].
    + specialize (Hz Hq0). rewrite Hz. destruct (Z.ltb_spec x 128); unfold Zlength; cbn; lia.
    + specialize (Hge ltac:(lia)). assert (1 <= Zlength d).
      { destruct d; [specialize (Hn eq_refl); lia|]. unfold Zlength. cbn. lia. }
      assert (256 ^ Zlength d = 256 * 256 ^ (Zlength d - 1)) as Hp by (rewrite <- Z.pow_succ_r by lia; f_equal; lia).
      rewrite Hp. lia.
Qed.

(** An encoding with its sign bit clear, of which the value is the unsigned one. *)
Lemma clear_sign v : wf_bytes v → 2 * le_value v < 256 ^ Zlength v → magnitude v = le_value v ∧ negative v = false.
Proof.
  intros Hv Hlt. destruct v as [|x l _] using rev_ind; [done|].
  apply Forall_app in Hv as [Hl [Hx _]%Forall_cons]. rewrite magnitude_snoc, negative_snoc.
  rewrite le_value_app, Zlength_snoc, Z.pow_add_r in Hlt by (done || apply Zlength_ge0). cbn [le_value] in Hlt.
  pose proof (le_value_bound l Hl). unfold is_uint in Hx. assert (x < 128) by nia.
  rewrite le_value_app. cbn [le_value]. destruct (byte_parts x Hx) as (-> & _). rewrite Z.mod_small by lia.
  split; [lia|]. destruct (Z.leb_spec 128 x); [lia|done].
Qed.

Lemma set_sign_spec v :
  wf_bytes v → v ≠ [] → 2 * le_value v < 256 ^ Zlength v →
  ∃ v', set_sign v = Ok v' ∧ wf_bytes v' ∧ Zlength v' = Zlength v ∧ magnitude v' = magnitude v ∧ negative v' = true.
Proof.
  intros Hv Hne Hlt. destruct (clear_sign v Hv Hlt) as [_ Hneg]. destruct v as [|x l _] using rev_ind; [done|].
  unfold set_sign. rewrite rev_app_distr. cbn [rev app]. rewrite rev_involutive.
  apply Forall_app in Hv as [Hl [Hx _]%Forall_cons]. rewrite negative_snoc in Hneg. unfold is_uint in Hx.
  assert (Z.lor x 128 = x + 128) as Hor.
  { rewrite <- Z.lxor_lor; [rewrite <- Z.add_nocarry_lxor; [done|]|]; apply Z.eqb_eq; rewrite land_128 by done; lia. }
  rewrite Hor. eexists. split; [done|]. rewrite !magnitude_snoc, negative_snoc, !Zlength_snoc.
  assert (is_u8 (x + 128)) as Hx' by (unfold is_uint; lia). split_and!; [|done| |lia].
  - apply Forall_app. split; [done|]. by apply Forall_singleton.
  - destruct (byte_parts x Hx) as (-> & _), (byte_parts (x + 128) Hx') as (-> & _).
    rewrite <- (Z.mod_add x 1 128) by lia. done.
Qed.

(** ** Encoding *)

Lemma serialize_spec n :
  is_int 64 n →
  ∃ b, serialize_i64 n None = Ok b ∧ wf_bytes b ∧ script_value b = n ∧ tight b ∧ magnitude b = Z.abs n.
Proof.
  intros Hn. unfold is_int in Hn. unfold serialize_i64. cbn [mbind res_bind].
  destruct (number_bytes_spec 9 (Z.abs n) false) as (Hw & Hv & Hlt & Hne & Hge & Hz); [lia|].
  set (d := number_bytes 10 (Z.abs n) false) in *. rewrite <- Hv in Hlt. destruct (clear_sign d Hw Hlt) as [Hm Hneg].
  destruct (Z.eqb_spec (Z.sgn n) (-1)) as [Hs|Hs].
  - assert (n < 0) by lia. assert (d ≠ []) by (intros E; specialize (Hne E); lia).
    destruct (set_sign_spec d Hw H0 Hlt) as (b & Hb & Hwb & Hlb & Hmb & Hnb). exists b.
    unfold script_value, tight. rewrite Hnb, Hmb, Hlb, Hm, Hv. specialize (Hge ltac:(lia)). split_and!; auto; lia.
  - exists d. unfold script_value, tight. rewrite Hneg, Hm, Hv. split_and!; auto; [lia|].
    destruct (decide (n = 0)) as [->|]; [left; by apply Hz|right; apply Hge; lia].
Qed.

Lemma tight_length_bound v k : wf_bytes v → tight v → 0 <= k → 2 * magnitude v < 256 ^ k → Zlength v <= k.
Proof.
  intros Hv [->|Ht] Hk Hm; [done|]. destruct (decide (Zlength v <= k)); [done|].
  assert (256 ^ k <= 256 ^ (Zlength v - 1)) by (apply Z.pow_le_mono_r; lia). lia.
Qed.

Lemma script_value_range v : wf_bytes v → Zlength v <= 8 → - 2 ^ 63 < script_value v < 2 ^ 63.
Proof.
  intros Hv Hl. destruct (magnitude_bound v Hv) as [H0 H1]. unfold script_value.
  destruct (decide (v = [])) as [->|Hne]; [cbn; lia|]. specialize (H1 Hne).
  assert (256 ^ Zlength v <= 256 ^ 8) by (apply Z.pow_le_mono_r; lia). destruct (negative v); lia.
Qed.

Lemma deserialize_minimal v n :
  wf_bytes v → deserialize_i64 v true = Ok n ↔ Zlength v <= 8 ∧ tight v ∧ n = script_value v.
Proof.
  intros Hv. rewrite <- minimal_iff_tight by done.
  destruct (decide (8 < Zlength v)) as [Hl|Hl].
  { unfold deserialize_i64. destruct (Z.ltb_spec 8 (Zlength v)); [|lia]. split; [done|lia]. }
  pose proof (deserialize_value v Hv ltac:(lia)) as Hd. unfold deserialize_i64 in *.
  destruct (Z.ltb_spec 8 (Zlength v)); [lia|]. destruct (rev v) as [|x l] eqn:E.
  { assert (v = []) as -> by (by rewrite <- (rev_involutive v), E). split; [by intros [= <-]|by intros (_ & _ & ->)]. }
  cbn [mbind res_bind] in Hd. destruct (check_minimal_data_encoding v) as [[]| |]; cbn [mbind res_bind].
  - rewrite Hd. split; [by intros [= <-]|]. by intros (_ & _ & ->).
  - by split; [|intros (_ & ? & _)].
  - by split; [|intros (_ & ? & _)].
Qed.

(** Script numbers: every [i64] has an encoding; every value above the minimum
    is encoded in at most 8 bytes and decodes back to itself under the
    minimality check; and the encoder's output is the only byte string that
    decodes to the value under that check. *)
Theorem script_num_roundtrip (n : Z) :
  is_int 64 n →
  ∃ b, serialize_i64 n None = Ok b ∧ wf_bytes b ∧
    (n ≠ - 2 ^ 63 → Zlength b <= 8 ∧ deserialize_i64 b true = Ok n) ∧
    (∀ v, wf_bytes v → deserialize_i64 v true = Ok n → v = b).
Proof.
  intros Hn. destruct (serialize_spec n Hn) as (b & Hb & Hw & Hv & Ht & Hm). exists b. split_and!; [done|done|..].
  - intros Hne. unfold is_int in Hn. assert (Zlength b <= 8) as Hl by (apply tight_length_bound; [done..|lia|lia]).
    split; [done|]. by apply deserialize_minimal.
  - intros v Hwv (Hl & Htv & ->)%deserialize_minimal; [|done]. by apply tight_unique.
Qed.

Lemma script_num_roundtrip_witness :
  ∃ b, serialize_i64 (-255) None = Ok b ∧ b = [255; 128] ∧ (∀ v, wf_bytes v → deserialize_i64 v true = Ok (-255) → v = b).
Proof.
  destruct (script_num_roundtrip (-255) ltac:(unfold is_int; lia)) as (b & Hb & _ & _ & Hu). exists b.
  split; [done|]. split; [|done]. vm_compute in Hb. by simplify_eq.
Defined.

(** Two 8-byte entries are enough for every value but the minimum. *)
Lemma serialize_as_i64_ok n : is_int 64 n → n ≠ - 2 ^ 63 →
  ∃ b, serialize_as_i64 n = Ok b ∧ wf_bytes b ∧ Zlength b <= 8 ∧ script_value b = n ∧ tight b.
Proof.
  intros Hn Hne. destruct (serialize_spec n Hn) as (b & Hb & Hw & Hv & Ht & Hm). exists b.
  unfold is_int in Hn. assert (Zlength b <= 8) as Hl by (apply tight_length_bound; [done..|lia|lia]).
  unfold serialize_as_i64, serialize_sized. rewrite Hb. cbn [mbind res_bind].
  destruct (Z.ltb_spec 8 (Zlength b)); [lia|done].
Qed.

Lemma serialize_as_i64_total n : is_int 64 n →
  serialize_as_i64 n = Err (NumberTooLong n 8) ∨ ∃ b, serialize_as_i64 n = Ok b ∧ wf_bytes b ∧ Zlength b <= 8.
Proof.
  intros Hn. destruct (serialize_spec n Hn) as (b & Hb & Hw & _). unfold serialize_as_i64, serialize_sized.
  rewrite Hb. cbn [mbind res_bind]. destruct (Z.ltb_spec 8 (Zlength b)); [by left|right; eauto].
Qed.

Lemma deserialize_i64_total v e : wf_bytes v →
  match deserialize_i64 v e with Ok n => - 2 ^ 63 < n < 2 ^ 63 ∧ n = script_value v ∧ Zlength v <= 8 | Err _ => True | Panic => False end.
Proof.
  intros Hv. destruct (decide (8 < Zlength v)) as [Hl|Hl].
  { unfold deserialize_i64. destruct (Z.ltb_spec 8 (Zlength v)); [done|lia]. }
  pose proof (deserialize_value v Hv ltac:(lia)) as Hd. pose proof (script_value_range v Hv ltac:(lia)).
  destruct e; [|rewrite Hd; split_and!; lia || done].
  destruct (deserialize_i64 v true) as [n| |] eqn:E; [|done|].
  - apply deserialize_minimal in E as (? & _ & ->); [|done]. split_and!; lia || done.
  - unfold deserialize_i64 in *. destruct (8 <? Zlength v); [done|]. destruct (rev v) as [|x l] eqn:Er; [done|].
    cbn [mbind res_bind] in Hd. unfold check_minimal_data_encoding in E. rewrite Er in E.
    repeat case_match; cbn [mbind res_bind] in E; rewrite ?Hd in E; done.
Qed.

Lemma deserialize_sized_total len v e : wf_bytes v → len <= 8 →
  match deserialize_sized len v e with
  | Ok n => - 2 ^ 63 < n < 2 ^ 63 ∧ n = script_value v ∧ Zlength v <= len
  | Err _ => True
  | Panic => False
  end.
Proof.
  intros Hv Hl. unfold deserialize_sized. destruct (Z.ltb_spec len (Zlength v)); [done|].
  pose proof (deserialize_i64_total v e Hv) as Ht. destruct (deserialize_i64 v e); [|done..].
  destruct Ht as (? & ? & ?). split_and!; lia || done.
Qed.

Lemma deserialize_as_i32_total v e : wf_bytes v →
  match deserialize_as_i32 v e with Ok n => is_int 32 n ∧ n = script_value v | Err _ => True | Panic => False end.
Proof.
  intros Hv. unfold deserialize_as_i32. destruct e.
  - pose proof (deserialize_sized_total 4 v true Hv ltac:(lia)) as Ht. destruct (deserialize_sized 4 v true); [|done..].
    destruct Ht as (_ & -> & Hl). cbn [mbind res_bind]. unfold checked_i.
    assert (is_int 32 (script_value v)) as Hi; [|by rewrite decide_True].
    destruct (magnitude_bound v Hv) as [H0 H1]. unfold script_value, is_int.
    destruct (decide (v = [])) as [->|Hne]; [cbn; lia|]. specialize (H1 Hne).
    assert (256 ^ Zlength v <= 256 ^ 4) by (apply Z.pow_le_mono_r; lia). destruct (negative v); lia.
  - pose proof (deserialize_sized_total 8 v false Hv ltac:(lia)) as Ht. destruct (deserialize_sized 8 v false); [|done..].
    destruct Ht as (_ & -> & _). cbn [mbind res_bind]. unfold checked_i. by case_decide.
Qed.

(** Decoding is total and in range: on any bytes, in either mode, the [i64]
    and [i32] decoders return a value of their type, or an error, and never reach
    the [expect] of the 4-byte form. *)
Theorem script_num_decode_total (v : bytes) (e : bool) :
  wf_bytes v →
  match deserialize_as_i64 v e with Ok n => is_int 64 n ∧ n = script_value v | Err _ => True | Panic => False end ∧
  match deserialize_as_i32 v e with Ok n => is_int 32 n ∧ n = script_value v | Err _ => True | Panic => False end.
Proof.
  intros Hv. split.
  - pose proof (deserialize_sized_total 8 v e Hv ltac:(lia)) as Ht. unfold deserialize_as_i64.
    destruct (deserialize_sized 8 v e); [|done..]. unfold is_int. split; [lia|apply Ht].
  - by apply deserialize_as_i32_total.
Qed.

Lemma script_num_decode_total_witness :
  match deserialize_as_i32 [255; 255; 255; 255] true with
  | Ok n => is_int 32 n ∧ n = - (2 ^ 31 - 1) | Err _ => False | Panic => False end.
Proof.
  destruct (script_num_decode_total [255; 255; 255; 255] true ltac:(decide_by_eval)) as [_ H].
  destruct (deserialize_as_i32 [255; 255; 255; 255] true) as [n| |] eqn:E; [|vm_compute in E; discriminate E|done].
  destruct H as [H _]. split; [done|]. vm_compute in E. by simplify_eq.
Defined.

Lemma le_value_zeros v k : le_value (v ++ zeros k) = le_value v.
Proof. rewrite le_value_app. assert (le_value (zeros k) = 0) as -> by (induction k as [|k IH]; [done|change (0 + 256 * le_value (zeros k) = 0); lia]). lia. Qed.

(** The fixed-size form used by OpNum2Bin. *)
Lemma serialize_fixed n size :
  is_int 64 n → 0 <= size <= 8 →
  (2 * Z.abs n < 256 ^ size ∧ ∃ b, serialize_i64 n (Some size) = Ok b ∧ wf_bytes b ∧ Zlength b = size ∧ script_value b = n) ∨
  (256 ^ size <= 2 * Z.abs n ∧ serialize_i64 n (Some size) = Err (NumberTooLong n size)).
Proof.
  intros Hn Hs. unfold is_int in Hn. unfold serialize_i64.
  destruct (number_bytes_spec 9 (Z.abs n) false) as (Hw & Hv & Hlt & Hne & Hge & Hz); [lia|].
  set (d := number_bytes 10 (Z.abs n) false) in *. pose proof (Zlength_ge0 d).
  destruct (Z.ltb_spec size (Zlength d)) as [Hl|Hl].
  { right. split; [|done]. destruct (decide (n = 0)) as [->|]; [rewrite Hz in Hl by done; unfold Zlength in Hl; cbn in Hl; lia|].
    specialize (Hge ltac:(lia)). assert (256 ^ size <= 256 ^ (Zlength d - 1)) by (apply Z.pow_le_mono_r; lia). lia. }
  left. assert (256 ^ Zlength d <= 256 ^ size) by (apply Z.pow_le_mono_r; lia). split; [lia|]. cbn [mbind res_bind].
  set (v := d ++ zeros (Z.to_nat (size - Zlength d))).
  assert (wf_bytes v) as Hwv.
  { apply Forall_app. split; [done|]. apply Forall_replicate. unfold is_uint. lia. }
  assert (Zlength v = size) as Hlv.
  { unfold v. rewrite Zlength_app. unfold Zlength at 2, zeros. rewrite length_replicate. lia. }
  assert (le_value v = Z.abs n) as Hvv by (unfold v; by rewrite le_value_zeros).
  assert (2 * le_value v < 256 ^ Zlength v) as Hltv by (rewrite Hvv, Hlv; lia).
  destruct (clear_sign v Hwv Hltv) as [Hm Hneg].
  destruct (Z.eqb_spec (Z.sgn n) (-1)) as [Hsg|Hsg].
  - assert (v ≠ []) as Hnv. { intros E. rewrite E in Hvv. cbn in Hvv. lia. }
    destruct (set_sign_spec v Hwv Hnv Hltv) as (b & Hb & Hwb & Hlb & Hmb & Hnb). exists b.
    unfold script_value. rewrite Hnb, Hmb, Hm, Hvv, Hlb. split_and!; auto; lia.
  - exists v. unfold script_value. rewrite Hneg, Hm, Hvv. split_and!; auto; lia.
Qed.
