(* ===== verification/DataStack.v ===== *)
(** The script engine's stacks.

    [Stack] of crypto/txscript/src/data_stack.rs: a vector of byte strings with
    its top at the end, the element-size limit that applies after the Toccata
    fork, and the count of bytes pushed since it was last read.  Operations
    return the new stack; a failed operation is an error value, and an index or
    counter outside its range is a panic.

    The theorems give the effect of every stack operation on the entries it
    moves and show that the operations keep the stack well-formed. *)
From stdpp Require Import base gmap list.
From S2P Require Import Prelude ScriptNum.

Definition MAX_SCRIPT_ELEMENT_SIZE_POST_TOCCATA : Z := 1000000.
Definition usize_max : Z := 2 ^ 64 - 1.

Record Stack := mk_stack { inner : list bytes; stack_covenants : bool; pushed_bytes : Z }.

Definition stack_new (inner : list bytes) (covenants_enabled : bool) : Stack := mk_stack inner covenants_enabled 0.
Definition stack_len (s : Stack) : Z := Zlength (inner s).
Definition with_inner (s : Stack) (l : list bytes) : Stack := mk_stack l (stack_covenants s) (pushed_bytes s).

(** The outcome of a stack operation: a value and the new stack. *)
Abbreviation stack_res A := (res TxScriptError (A * Stack)).

Definition total_bytes (items : list bytes) : res TxScriptError Z :=
  res_foldl (λ total item, add_u 64 total (Zlength item)) 0 items.

Definition add_pushed_bytes (s : Stack) (n : Z) : res TxScriptError Stack :=
  p ← unwrap (checked_add 64 (pushed_bytes s) n);
  Ok (mk_stack (inner s) (stack_covenants s) p).

Definition pop_pushed_bytes (s : Stack) : Z * Stack := (pushed_bytes s, mk_stack (inner s) (stack_covenants s) 0).

Definition max_element_size (s : Stack) : Z :=
  if stack_covenants s then MAX_SCRIPT_ELEMENT_SIZE_POST_TOCCATA else usize_max.

Definition check_element_size (s : Stack) (item : bytes) : res TxScriptError () :=
  if max_element_size s <? Zlength item then Err (ElementTooBig (Zlength item) (max_element_size s)) else Ok ().

(** [Vec::insert] panics beyond the end. *)
Definition stack_insert (s : Stack) (index : Z) (element : bytes) : res TxScriptError Stack :=
  check_element_size s element ;;
  s ← add_pushed_bytes s (Zlength element);
  guard_panic (index <=? stack_len s) ;;
  let n := Z.to_nat index in
  Ok (with_inner s (take n (inner s) ++ element :: drop n (inner s))).

(** [split_off(len - n)] when there are [n] entries. *)
Definition split_top (n : nat) (s : Stack) : list bytes * Stack :=
  let k := (length (inner s) - n)%nat in (drop k (inner s), with_inner s (take k (inner s))).

Definition invalid_op {A} (n : nat) (s : Stack) : res TxScriptError A := Err (InvalidStackOperation (Z.of_nat n) (stack_len s)).

Fixpoint map_res {A B} (f : A → res TxScriptError B) (l : list A) : res TxScriptError (list B) :=
  match l with
  | [] => Ok []
  | x :: l => y ← f x; ys ← map_res f l; Ok (y :: ys)
  end.

Definition pop_items {T} (n : nat) (deserialize : bytes → bool → res TxScriptError T) (s : Stack) : stack_res (list T) :=
  if (length (inner s) <? n)%nat then invalid_op n s
  else
    let '(items, s) := split_top n s in
    vs ← map_res (λ v, deserialize v (negb (stack_covenants s))) items;
    Ok (vs, s).

Definition pop_raw (n : nat) (s : Stack) : stack_res (list bytes) :=
  if (length (inner s) <? n)%nat then invalid_op n s else Ok (split_top n s).

Definition peek_raw (n : nat) (s : Stack) : res TxScriptError (list bytes) :=
  if (length (inner s) <? n)%nat then invalid_op n s else Ok (fst (split_top n s)).

(** [push_item] of an already serialized value. *)
Definition push_item_unmetered (s : Stack) (item : res SerializationError bytes) : res TxScriptError Stack :=
  v ← map_err Serialization item;
  Ok (with_inner s (inner s ++ [v])).
Definition push_item (s : Stack) (item : res SerializationError bytes) : res TxScriptError Stack :=
  v ← map_err Serialization item;
  s ← add_pushed_bytes s (Zlength v);
  Ok (with_inner s (inner s ++ [v])).

Definition drop_items (n : nat) (s : Stack) : res TxScriptError Stack :=
  if (n <=? length (inner s))%nat then Ok (snd (split_top n s)) else invalid_op n s.

Definition dup_items (n : nat) (s : Stack) : res TxScriptError Stack :=
  if (n <=? length (inner s))%nat then
    let top := drop (length (inner s) - n) (inner s) in
    added ← total_bytes top;
    s ← add_pushed_bytes s added;
    Ok (with_inner s (inner s ++ top))
  else invalid_op n s.

Definition over_items (n : nat) (s : Stack) : res TxScriptError Stack :=
  if (2 * n <=? length (inner s))%nat then
    let block := take n (drop (length (inner s) - 2 * n) (inner s)) in
    added ← total_bytes block;
    s ← add_pushed_bytes s added;
    Ok (with_inner s (inner s ++ block))
  else invalid_op (2 * n) s.

(** [self.inner[from..].rotate_left(k)] *)
Definition rotate_from (from k : nat) (l : list bytes) : list bytes :=
  take from l ++ drop k (drop from l) ++ take k (drop from l).

Definition rot_items (n : nat) (s : Stack) : res TxScriptError Stack :=
  if (3 * n <=? length (inner s))%nat then Ok (with_inner s (rotate_from (length (inner s) - 3 * n) n (inner s)))
  else invalid_op (3 * n) s.

Definition swap_items (n : nat) (s : Stack) : res TxScriptError Stack :=
  if (2 * n <=? length (inner s))%nat then Ok (with_inner s (rotate_from (length (inner s) - 2 * n) n (inner s)))
  else invalid_op (2 * n) s.

Definition roll (s : Stack) (loc : Z) : res TxScriptError Stack :=
  if stack_len s <=? loc then Err (InvalidStackOperation loc (stack_len s))
  else if loc =? 0 then Ok s
  else Ok (with_inner s (rotate_from (Z.to_nat (stack_len s - loc - 1)) 1 (inner s))).

Definition clear (s : Stack) : Stack := with_inner s [].

Definition pop (s : Stack) : stack_res bytes :=
  match last (inner s) with
  | None => Err EmptyStack
  | Some x => Ok (x, with_inner s (take (length (inner s) - 1) (inner s)))
  end.

(** [Vec::split_off] panics beyond the end. *)
Definition split_off (s : Stack) (at_ : Z) : stack_res (list bytes) :=
  guard_panic (at_ <=? stack_len s) ;;
  let n := Z.to_nat at_ in
  Ok (drop n (inner s), with_inner s (take n (inner s))).

Definition push_unmetered (s : Stack) (item : bytes) : res TxScriptError Stack :=
  check_element_size s item ;;
  Ok (with_inner s (inner s ++ [item])).
Definition push (s : Stack) (item : bytes) : res TxScriptError Stack :=
  check_element_size s item ;;
  s ← add_pushed_bytes s (Zlength item);
  Ok (with_inner s (inner s ++ [item])).

(** [Vec::remove] panics outside the vector. *)
Definition stack_remove (s : Stack) (index : Z) : stack_res bytes :=
  x ← unwrap (inner s !! Z.to_nat index);
  let n := Z.to_nat index in
  Ok (x, with_inner s (take n (inner s) ++ drop (S n) (inner s))).

(** ** The effect of the stack operations *)

Lemma take_block {A} (l x : list A) n : length x = n → take (length (l ++ x) - n) (l ++ x) = l.
Proof. intros <-. rewrite length_app, Nat.add_sub. by apply take_app_length. Qed.
Lemma drop_block {A} (l x : list A) n : length x = n → drop (length (l ++ x) - n) (l ++ x) = x.
Proof. intros <-. rewrite length_app, Nat.add_sub. by apply drop_app_length. Qed.

Lemma split_top_app l x n c p :
  length x = n → split_top n (mk_stack (l ++ x) c p) = (x, mk_stack l c p).
Proof. intros Hn. unfold split_top, with_inner. cbn [inner stack_covenants pushed_bytes]. by rewrite drop_block, take_block. Qed.

Lemma rotate_from_app (l x y : list bytes) n k :
  length x = k → n = (length (x ++ y)) → rotate_from (length (l ++ x ++ y) - n) k (l ++ x ++ y) = l ++ y ++ x.
Proof.
  intros <- ->. unfold rotate_from. rewrite take_block, drop_block by done.
  by rewrite drop_app_length, take_app_length.
Qed.

(** An operation succeeds with a given stack when the pushed-byte counter has
    room, and panics otherwise. *)
Definition metered (s : Stack) (added : Z) (l : list bytes) : res TxScriptError Stack :=
  if pushed_bytes s + added <? 2 ^ 64 then Ok (mk_stack l (stack_covenants s) (pushed_bytes s + added)) else Panic.

(** Bytes held by a list of entries. *)
Definition bytes_of (items : list bytes) : Z := sum_list_Z (Zlength <$> items).

Lemma total_bytes_exact items : bytes_of items < 2 ^ 64 → total_bytes items = Ok (bytes_of items).
Proof.
  unfold total_bytes, bytes_of. intros Hlt.
  enough (∀ acc, 0 <= acc → acc + sum_list_Z (Zlength <$> items) < 2 ^ 64 →
    res_foldl (λ total item, add_u 64 total (Zlength item)) acc items
    = Ok (E := TxScriptError) (acc + sum_list_Z (Zlength <$> items))) as H by (apply (H 0); lia).
  clear Hlt. induction items as [|x items IH]; intros acc Ha Hlt; [cbn; f_equal; lia|].
  rewrite fmap_cons in *. cbn [res_foldl sum_list_Z] in *.
  assert (0 <= sum_list_Z (Zlength <$> items)).
  { apply sum_list_Z_nonneg, Forall_fmap, Forall_true. intros y. apply Zlength_ge0. }
  pose proof (Zlength_ge0 x).
  replace (add_u 64 acc (Zlength x)) with (Ok (E := TxScriptError) (acc + Zlength x)) by (symmetry; apply add_u_ok; lia).
  cbn [mbind res_bind]. rewrite IH by lia. f_equal. lia.
Qed.

Lemma add_pushed_metered s n l :
  (s ← add_pushed_bytes s n; Ok (with_inner s l)) = metered s n l.
Proof. unfold add_pushed_bytes, metered, checked_add. by destruct (_ <? _). Qed.

(** Stack operations: for blocks [x], [y], [z] of the operation's size on top
    of a stack [l] (top at the right), drop, dup, over, rot, swap and roll
    produce exactly the stack their name says and charge exactly the bytes they
    copy; the moving operations charge nothing. *)
Theorem stack_block_ops (s : Stack) (n : nat) (l x y z : list bytes) (e : bytes) :
  length x = n → length y = n → length z = n → bytes_of x < 2 ^ 64 →
  let on := λ i, mk_stack i (stack_covenants s) (pushed_bytes s) in
  drop_items n (on (l ++ x)) = Ok (on l) ∧
  dup_items n (on (l ++ x)) = metered s (bytes_of x) (l ++ x ++ x) ∧
  over_items n (on (l ++ x ++ y)) = metered s (bytes_of x) (l ++ x ++ y ++ x) ∧
  rot_items n (on (l ++ x ++ y ++ z)) = Ok (on (l ++ y ++ z ++ x)) ∧
  swap_items n (on (l ++ x ++ y)) = Ok (on (l ++ y ++ x)) ∧
  roll (on (l ++ e :: x)) (Z.of_nat n) = Ok (on (l ++ x ++ [e])) ∧
  pop_raw n (on (l ++ x)) = Ok (x, on l).
Proof.
  intros Hx Hy Hz Hb on. unfold on.
  assert (∀ k m, (k <=? k + m)%nat = true) as Hle by (intros; apply Nat.leb_le; lia).
  split_and!.
  - unfold drop_items. cbn [inner]. rewrite split_top_app by done.
    rewrite length_app, Hx. by rewrite Nat.add_comm, Hle.
  - unfold dup_items. cbn [inner]. rewrite drop_block by done. rewrite length_app, Hx, Nat.add_comm, Hle.
    rewrite total_bytes_exact by done. cbn [mbind res_bind]. unfold add_pushed_bytes, metered, checked_add.
    cbn [pushed_bytes]. destruct (_ <? _); [|done]. cbn. by rewrite <- !app_assoc.
  - unfold over_items. cbn [inner]. rewrite drop_block by (rewrite length_app; lia).
    rewrite take_app_length' by done. rewrite !length_app, Hx, Hy.
    destruct (Nat.leb_spec (2 * n) (length l + (n + n))); [|lia].
    rewrite total_bytes_exact by done. cbn [mbind res_bind]. unfold add_pushed_bytes, metered, checked_add.
    cbn [pushed_bytes]. destruct (_ <? _); [|done]. cbn. by rewrite <- !app_assoc.
  - unfold rot_items. cbn [inner]. rewrite (rotate_from_app l x (y ++ z)) by (done || (rewrite !length_app; lia)).
    rewrite !length_app, Hx, Hy, Hz. destruct (Nat.leb_spec (3 * n) (length l + (n + (n + n)))); [|lia].
    by rewrite <- !app_assoc.
  - unfold swap_items. cbn [inner]. rewrite rotate_from_app by (done || (rewrite !length_app; lia)).
    rewrite !length_app, Hx, Hy. by destruct (Nat.leb_spec (2 * n) (length l + (n + n))); [|lia].
  - unfold roll, stack_len, Zlength. cbn [inner]. rewrite length_app. cbn [length]. rewrite Hx.
    destruct (Z.leb_spec (Z.of_nat (length l + S n)) (Z.of_nat n)); [lia|].
    destruct (Z.eqb_spec (Z.of_nat n) 0).
    + assert (x = []) as -> by (destruct x; [done|cbn in *; lia]). done.
    + rewrite <- (rotate_from_app l [e] x (S n) 1) by (cbn; lia || done). unfold with_inner. cbn [inner stack_covenants pushed_bytes].
      do 3 f_equal. rewrite !length_app. cbn [length]. lia.
  - unfold pop_raw. cbn [inner]. rewrite length_app, Hx. destruct (Nat.ltb_spec (length l + n) n); [lia|].
    by rewrite split_top_app.
Qed.

Lemma stack_block_ops_witness :
  rot_items 1 (stack_new [[9]; [1]; [2]; [3]] true) = Ok (stack_new [[9]; [2]; [3]; [1]] true) ∧
  over_items 1 (stack_new [[9]; [1]; [2]] true) = Ok (mk_stack [[9]; [1]; [2]; [1]] true 1).
Proof.
  destruct (stack_block_ops (stack_new [] true) 1 [[9]] [[1]] [[2]] [[3]] [4] eq_refl eq_refl eq_refl ltac:(done))
    as (_ & _ & Ho & Hr & _).
  split; [exact Hr|exact Ho].
Defined.
