(* ===== verification/ScriptMeter.v ===== *)
(** Runtime resource accounting of script execution.

    crypto/txscript/src/runtime_resource_meter.rs: before the Toccata fork a
    script is limited by the signature operations committed in its input, after
    it by script units, of which signature checks, hashed bytes, pushed bytes and
    proofs all consume a share.  Also the proof tags of
    crypto/txscript/src/zk_precompiles/tags.rs with their costs.

    The theorem shows that a sequence of charges is accepted exactly when its
    total fits the limit, and that the meter reports exactly that total. *)
From stdpp Require Import base gmap list.
From S2P Require Import Prelude Bundle Tx ScriptNum.

Record RuntimeSigOpCounter := mk_counter { sig_op_limit : Z; sig_op_remaining : Z }.

Definition counter_new (limit : Z) : RuntimeSigOpCounter := mk_counter limit limit.
Definition consume_sig_ops (c : RuntimeSigOpCounter) (count : Z) : res TxScriptError RuntimeSigOpCounter :=
  r ← ok_or (checked_sub (sig_op_remaining c) count) (ExceededSigOpLimit (sig_op_limit c));
  Ok (mk_counter (sig_op_limit c) r).
Definition consume_sig_op (c : RuntimeSigOpCounter) : res TxScriptError RuntimeSigOpCounter := consume_sig_ops c 1.
Definition counter_used_sig_ops (c : RuntimeSigOpCounter) : exec Z := sub_u (sig_op_limit c) (sig_op_remaining c).

Record RuntimeScriptUnitMeter := mk_unit_meter {
  unit_used_sig_ops : Z;
  sigop_script_units : Z;
  script_units_limit : Z;
  remaining_script_units : Z
}.

Definition unit_meter_new (price limit : Z) : RuntimeScriptUnitMeter := mk_unit_meter 0 price limit limit.
Definition unit_used_script_units (m : RuntimeScriptUnitMeter) : exec Z :=
  sub_u (script_units_limit m) (remaining_script_units m).

Definition unit_consume_script_units (m : RuntimeScriptUnitMeter) (units : Z) : res TxScriptError RuntimeScriptUnitMeter :=
  match checked_sub (remaining_script_units m) units with
  | Some r => Ok (mk_unit_meter (unit_used_sig_ops m) (sigop_script_units m) (script_units_limit m) r)
  | None =>
      overflow ← sub_u units (remaining_script_units m);
      Err (ExceededCommittedScriptUnits (saturating_add 64 (script_units_limit m) overflow) (script_units_limit m))
  end.

Definition unit_consume_sig_op_cost (m : RuntimeScriptUnitMeter) (count : Z) : res TxScriptError RuntimeScriptUnitMeter :=
  m ← unit_consume_script_units m (saturating_mul 64 count (sigop_script_units m));
  Ok (mk_unit_meter (saturating_add 16 (unit_used_sig_ops m) count) (sigop_script_units m) (script_units_limit m)
        (remaining_script_units m)).

Definition unit_charge_newly_pushed_bytes (m : RuntimeScriptUnitMeter) (delta : Z) : res TxScriptError RuntimeScriptUnitMeter :=
  unit_consume_script_units m delta.

Inductive RuntimeResourceMeter :=
  | Sigops (c : RuntimeSigOpCounter)
  | ScriptUnits (m : RuntimeScriptUnitMeter).

Definition new_sigops (limit : Z) : RuntimeResourceMeter := Sigops (counter_new limit).
Definition new_script_units (price limit : Z) : RuntimeResourceMeter := ScriptUnits (unit_meter_new price limit).

Definition used_sig_ops (m : RuntimeResourceMeter) : exec Z :=
  match m with Sigops c => counter_used_sig_ops c | ScriptUnits m => Ok (unit_used_sig_ops m) end.
Definition used_script_units (m : RuntimeResourceMeter) : exec Z :=
  match m with Sigops _ => Ok 0 | ScriptUnits m => unit_used_script_units m end.
Definition consume_sig_op_cost (m : RuntimeResourceMeter) (count : Z) : res TxScriptError RuntimeResourceMeter :=
  match m with
  | Sigops c => Sigops <$> consume_sig_ops c count
  | ScriptUnits m => ScriptUnits <$> unit_consume_sig_op_cost m count
  end.
Definition consume_script_units (m : RuntimeResourceMeter) (units : Z) : res TxScriptError RuntimeResourceMeter :=
  match m with
  | Sigops c => Ok (Sigops c)
  | ScriptUnits m => ScriptUnits <$> unit_consume_script_units m units
  end.
Definition charge_newly_pushed_bytes (m : RuntimeResourceMeter) (delta : Z) : res TxScriptError RuntimeResourceMeter :=
  match m with
  | Sigops c => Ok (Sigops c)
  | ScriptUnits m => ScriptUnits <$> unit_charge_newly_pushed_bytes m delta
  end.

(** ** Proof tags (crypto/txscript/src/zk_precompiles/tags.rs) *)

Inductive ZkTag := Groth16 | R0Succinct.

Definition tag_try_from (value : Z) : option ZkTag :=
  if value =? 32 then Some Groth16 else if value =? 33 then Some R0Succinct else None.
Definition tag_cost {E} (t : ZkTag) : res E Z :=
  script_units_of_gram (match t with Groth16 => 1000 * 140 | R0Succinct => 1000 * 250 end).
Definition max_cost {E} : res E Z := script_units_of_gram (1000 * 250).
Definition compute_zk_cost {E} (tag : Z) : res E Z :=
  match tag_try_from tag with Some t => tag_cost t | None => max_cost end.

(** ** Accounting *)

(** The charges script execution makes. *)
Inductive charge :=
  | ChargeUnits (units : Z)
  | ChargeSigOps (count : Z)
  | ChargePushed (bytes : Z).

Definition apply_charge (m : RuntimeResourceMeter) (c : charge) : res TxScriptError RuntimeResourceMeter :=
  match c with
  | ChargeUnits units => consume_script_units m units
  | ChargeSigOps count => consume_sig_op_cost m count
  | ChargePushed delta => charge_newly_pushed_bytes m delta
  end.

Definition cost_units (price : Z) (c : charge) : Z :=
  match c with ChargeUnits n | ChargePushed n => n | ChargeSigOps n => saturating_mul 64 n price end.
Definition cost_sig_ops (c : charge) : Z := match c with ChargeSigOps n => n | _ => 0 end.
Definition charge_ok (c : charge) : Prop :=
  match c with ChargeUnits n | ChargePushed n => is_u64 n | ChargeSigOps n => is_u16 n end.

Lemma unit_consume_exact m units :
  0 <= units →
  match unit_consume_script_units m units with
  | Ok m' => units <= remaining_script_units m ∧
      m' = mk_unit_meter (unit_used_sig_ops m) (sigop_script_units m) (script_units_limit m) (remaining_script_units m - units)
  | Err _ => remaining_script_units m < units
  | Panic => False
  end.
Proof.
  intros Hu. unfold unit_consume_script_units, checked_sub.
  destruct (Z.leb_spec units (remaining_script_units m)) as [Hl|Hl]; [done|].
  replace (sub_u units (remaining_script_units m)) with (Ok (E := TxScriptError) (units - remaining_script_units m))
    by (symmetry; apply sub_u_ok; lia). cbn. lia.
Qed.

Lemma cost_units_nonneg price c : 0 <= price → charge_ok c → 0 <= cost_units price c.
Proof. intros Hp. destruct c; cbn; unfold is_uint, saturating_mul; intros; nia. Qed.

Lemma apply_charge_units u price limit r c :
  charge_ok c → 0 <= price →
  match apply_charge (ScriptUnits (mk_unit_meter u price limit r)) c with
  | Ok m' => cost_units price c <= r ∧
      m' = ScriptUnits (mk_unit_meter (match c with ChargeSigOps n => saturating_add 16 u n | _ => u end) price limit
             (r - cost_units price c))
  | Err _ => r < cost_units price c
  | Panic => False
  end.
Proof.
  intros Hc Hp. pose proof (cost_units_nonneg price c Hp Hc) as Hn.
  set (m := mk_unit_meter u price limit r). pose proof (unit_consume_exact m (cost_units price c) Hn) as Hx.
  destruct c as [n|n|n]; cbn [apply_charge consume_script_units consume_sig_op_cost charge_newly_pushed_bytes] in *;
    unfold unit_charge_newly_pushed_bytes, unit_consume_sig_op_cost; cbn [cost_units] in Hx;
    [|change (sigop_script_units m) with price|];
    destruct (unit_consume_script_units m _) as [m'| |]; try done; destruct Hx as [? ->]; done.
Qed.

Lemma sum_costs_nonneg f cs : (∀ c, charge_ok c → 0 <= f c) → Forall charge_ok cs → 0 <= sum_list_Z (f <$> cs).
Proof. intros Hf Hcs. apply sum_list_Z_nonneg, Forall_fmap. eapply Forall_impl; [exact Hcs|exact Hf]. Qed.

Lemma run_units price limit cs u r :
  Forall charge_ok cs → 0 <= price → 0 <= r <= limit →
  match res_foldl apply_charge (ScriptUnits (mk_unit_meter u price limit r)) cs with
  | Ok m => used_script_units m = Ok (limit - r + sum_list_Z (cost_units price <$> cs)) ∧ sum_list_Z (cost_units price <$> cs) <= r
  | Err _ => r < sum_list_Z (cost_units price <$> cs)
  | Panic => False
  end.
Proof.
  intros Hcs Hp. revert u r. induction Hcs as [|c cs Hc Hcs IH]; intros u r Hr.
  - cbn. rewrite Z.add_0_r. split; [|lia]. apply sub_u_ok. cbn. lia.
  - rewrite fmap_cons. cbn [res_foldl sum_list_Z]. pose proof (apply_charge_units u price limit r c Hc Hp) as Hx.
    pose proof (sum_costs_nonneg (cost_units price) cs (λ c, cost_units_nonneg price c Hp) Hcs).
    pose proof (cost_units_nonneg price c Hp Hc).
    destruct (apply_charge _ c) as [m'| |]; cbn [mbind res_bind]; [destruct Hx as [Hx ->]|lia|done].
    match goal with |- context [res_foldl apply_charge (ScriptUnits (mk_unit_meter ?u' _ _ _))] =>
      specialize (IH u' (r - cost_units price c) ltac:(lia)) end.
    destruct (res_foldl apply_charge _ cs); [|lia|done]. destruct IH as [-> ?]. split; [f_equal; lia|lia].
Qed.

Lemma run_sigops limit cs r :
  Forall charge_ok cs → 0 <= r <= limit →
  match res_foldl apply_charge (Sigops (mk_counter limit r)) cs with
  | Ok m => used_sig_ops m = Ok (limit - r + sum_list_Z (cost_sig_ops <$> cs)) ∧ sum_list_Z (cost_sig_ops <$> cs) <= r
  | Err _ => r < sum_list_Z (cost_sig_ops <$> cs)
  | Panic => False
  end.
Proof.
  intros Hcs. revert r. induction Hcs as [|c cs Hc Hcs IH]; intros r Hr.
  - cbn. rewrite Z.add_0_r. split; [|lia]. apply sub_u_ok. cbn. lia.
  - rewrite fmap_cons. cbn [res_foldl sum_list_Z].
    assert (∀ c, charge_ok c → 0 <= cost_sig_ops c) as Hn by (intros []; cbn; unfold is_uint; lia).
    pose proof (sum_costs_nonneg cost_sig_ops cs Hn Hcs). pose proof (Hn c Hc).
    assert (apply_charge (Sigops (mk_counter limit r)) c =
      if cost_sig_ops c <=? r then Ok (Sigops (mk_counter limit (r - cost_sig_ops c))) else Err (ExceededSigOpLimit limit)) as ->.
    { destruct c as [n|n|n]; cbn [cost_sig_ops]; [|unfold apply_charge, consume_sig_op_cost, consume_sig_ops, checked_sub; cbn; by destruct (n <=? r)|];
        (destruct (Z.leb_spec 0 r); [|lia]); cbn; by rewrite Z.sub_0_r. }
    destruct (Z.leb_spec (cost_sig_ops c) r) as [Hle|Hgt]; cbn [mbind res_bind]; [|lia].
    specialize (IH (r - cost_sig_ops c) ltac:(lia)).
    destruct (res_foldl apply_charge _ cs); [|lia|done]. destruct IH as [-> ?]. split; [f_equal; lia|lia].
Qed.

(** Script-unit accounting: a sequence of charges is accepted exactly when the
    sum of its costs fits the limit, never panics, and the meter then reports
    exactly that sum as used and no more than the limit.  Under the
    signature-operation meter the same holds for the number of checks. *)
Theorem meter_accounting (price limit : Z) (cs : list charge) :
  Forall charge_ok cs → 0 <= price → 0 <= limit →
  (match res_foldl apply_charge (new_script_units price limit) cs with
   | Ok m => used_script_units m = Ok (sum_list_Z (cost_units price <$> cs)) ∧ sum_list_Z (cost_units price <$> cs) <= limit
   | Err _ => limit < sum_list_Z (cost_units price <$> cs)
   | Panic => False
   end) ∧
  (match res_foldl apply_charge (new_sigops limit) cs with
   | Ok m => used_sig_ops m = Ok (sum_list_Z (cost_sig_ops <$> cs)) ∧ sum_list_Z (cost_sig_ops <$> cs) <= limit
   | Err _ => limit < sum_list_Z (cost_sig_ops <$> cs)
   | Panic => False
   end).
Proof.
  intros Hcs Hp Hl. split.
  - pose proof (run_units price limit cs 0 limit Hcs Hp ltac:(lia)) as H. by rewrite Z.sub_diag, Z.add_0_l in H.
  - pose proof (run_sigops limit cs limit Hcs ltac:(lia)) as H. by rewrite Z.sub_diag, Z.add_0_l in H.
Qed.

Lemma meter_accounting_witness :
  match res_foldl apply_charge (new_script_units 100000 250000) [ChargeSigOps 2; ChargePushed 40; ChargeUnits 64] with
  | Ok m => used_script_units m = Ok 200104
  | _ => False
  end.
Proof.
  destruct (meter_accounting 100000 250000 [ChargeSigOps 2; ChargePushed 40; ChargeUnits 64]) as [H _]; [|lia|lia|].
  - rewrite !Forall_cons, Forall_nil. cbn. unfold is_uint. lia.
  - change (sum_list_Z _) with 200104 in H. destruct (res_foldl apply_charge _ _); [apply H|vm_compute in H; discriminate H|done].
Defined.
