(* ===== verification/Covenants.v ===== *)
(** Covenant contexts of a transaction.

    crypto/txscript/src/covenants.rs builds, from the covenant bindings of the
    outputs and the covenant ids of the spent entries, the context that the
    covenant opcodes query: which outputs an input authorizes and which inputs
    and outputs carry a covenant id.  Outputs whose authorizing input does not
    carry their covenant id start a new covenant; their id must be the hash of
    the authorizing outpoint and the outputs of the group.

    The theorems show that the context is exactly the relation between inputs and
    outputs that the bindings state, for every transaction it accepts, and that
    it accepts exactly the valid ones. *)
From stdpp Require Import base gmap list.
From S2P Require Import Prelude Encoding Bundle Tx TxHash ScriptNum.

Record CovenantSharedContext := mk_shared { input_indices : list Z; output_indices : list Z }.
Record CovenantsContext := mk_cov_ctx {
  input_ctxs : gmap Z (list Z);
  shared_ctxs : gmap bytes CovenantSharedContext
}.
Definition EMPTY_COV_CONTEXT : CovenantsContext := mk_cov_ctx ∅ ∅.

(** ** Queries *)

Definition auth_output_index (ctx : CovenantsContext) (input_idx k : Z) : res CovenantsError Z :=
  let auth_outputs := default [] (input_ctxs ctx !! input_idx) in
  ok_or (auth_outputs !! Z.to_nat k) (InvalidAuthCovOutIndex k input_idx (Zlength auth_outputs)).
Definition num_auth_outputs (ctx : CovenantsContext) (input_idx : Z) : Z :=
  match input_ctxs ctx !! input_idx with None => 0 | Some l => Zlength l end.
Definition num_covenant_inputs (ctx : CovenantsContext) (id : bytes) : Z :=
  match shared_ctxs ctx !! id with None => 0 | Some c => Zlength (input_indices c) end.
Definition covenant_input_index (ctx : CovenantsContext) (id : bytes) (k : Z) : res CovenantsError Z :=
  let input_indices := match shared_ctxs ctx !! id with None => [] | Some c => input_indices c end in
  ok_or (input_indices !! Z.to_nat k) (InvalidCovInIndex id k).
Definition num_covenant_outputs (ctx : CovenantsContext) (id : bytes) : Z :=
  match shared_ctxs ctx !! id with None => 0 | Some c => Zlength (output_indices c) end.
Definition covenant_output_index (ctx : CovenantsContext) (id : bytes) (k : Z) : res CovenantsError Z :=
  let output_indices := match shared_ctxs ctx !! id with None => [] | Some c => output_indices c end in
  ok_or (output_indices !! Z.to_nat k) (InvalidCovOutIndex id k).

(** ** Construction *)

(** [iter().enumerate()] *)
Fixpoint enumerate_from {A} (i : Z) (l : list A) : list (Z * A) :=
  match l with [] => [] | x :: l => (i, x) :: enumerate_from (i + 1) l end.
Abbreviation enumerate := (enumerate_from 0).

Abbreviation genesis_map := (gmap (Z * bytes) (list Z)).

Definition add_input (ctx : CovenantsContext) (x : Z * UtxoEntry) : CovenantsContext :=
  let '(i, entry) := x in
  match entry_covenant_id entry with
  | None => ctx
  | Some id =>
      let c := default (mk_shared [] []) (shared_ctxs ctx !! id) in
      mk_cov_ctx (input_ctxs ctx) (<[id := mk_shared (input_indices c ++ [i]) (output_indices c)]> (shared_ctxs ctx))
  end.

Definition add_output (p : PopulatedTransaction) (st : CovenantsContext * genesis_map) (x : Z * TransactionOutput) :
    res CovenantsError (CovenantsContext * genesis_map) :=
  let '(ctx, genesis) := st in
  let '(i, output) := x in
  match covenant output with
  | None => Ok (ctx, genesis)
  | Some b =>
      let id := binding_covenant_id b in
      let auth := authorizing_input b in
      match utxo p auth with
      | None => Err (AuthInputOutOfBounds i auth)
      | Some entry =>
          if bool_decide (entry_covenant_id entry = Some id) then
            let auth_outputs := default [] (input_ctxs ctx !! auth) in
            c ← unwrap (shared_ctxs ctx !! id);
            Ok (mk_cov_ctx (<[auth := auth_outputs ++ [i]]> (input_ctxs ctx))
                  (<[id := mk_shared (input_indices c) (output_indices c ++ [i])]> (shared_ctxs ctx)), genesis)
          else
            Ok (ctx, <[(auth, id) := default [] (genesis !! (auth, id)) ++ [i]]> genesis)
      end
  end.

(** The outputs of a group, as [covenant_id] takes them: [i as u32] and the output. *)
Definition group_outputs (tx : Transaction) (indices : list Z) : res CovenantsError (list (Z * TransactionOutput)) :=
  res_foldl (λ acc i, o ← unwrap (outputs tx !! Z.to_nat i); Ok (acc ++ [(wrap 32 i, o)])) [] indices.

Definition check_genesis (H : HashDomain → bytes → bytes) (tx : Transaction) (g : (Z * bytes) * list Z) : res CovenantsError () :=
  let '((auth, id), output_indices) := g in
  input ← unwrap (inputs tx !! Z.to_nat auth);
  outs ← group_outputs tx output_indices;
  if bool_decide (covenant_id H (previous_outpoint input) outs = id) then Ok ()
  else Err (WrongGenesisCovenantId auth id).

(** The groups are checked in the iteration order of the hash map. *)
Definition from_tx (H : HashDomain → bytes → bytes) (p : PopulatedTransaction) : res CovenantsError CovenantsContext :=
  ins ← map_err (λ e : Empty_set, match e with end) (populated_inputs p);
  let ctx := foldl add_input EMPTY_COV_CONTEXT (enumerate (snd <$> ins)) in
  '(ctx, genesis) ← res_foldl (add_output p) (ctx, ∅) (enumerate (outputs (ptx p)));
  res_foldl (λ _ g, check_genesis H (ptx p) g) () (map_to_list genesis) ;;
  Ok ctx.

(** ** The relation the bindings state *)

Section relation.
Context (p : PopulatedTransaction).

(** Entry [k] carries covenant [id]. *)
Definition carries (k : Z) (id : bytes) : bool :=
  match utxo p k with Some e => bool_decide (entry_covenant_id e = Some id) | None => false end.

(** Indices, ascending, of the elements a test accepts. *)
Definition select {A} (test : A → bool) (l : list (Z * A)) : list Z :=
  omap (λ '(i, x), if test x then Some i else None) l.

Definition has_id (id : bytes) (e : UtxoEntry) : bool := bool_decide (entry_covenant_id e = Some id).
(** The output is bound to input [k], which carries the output's covenant. *)
Definition authorized_by (k : Z) (o : TransactionOutput) : bool :=
  match covenant o with Some b => (authorizing_input b =? k) && carries k (binding_covenant_id b) | None => false end.
(** The output continues covenant [id]. *)
Definition continues (id : bytes) (o : TransactionOutput) : bool :=
  match covenant o with
  | Some b => bool_decide (binding_covenant_id b = id) && carries (authorizing_input b) id
  | None => false
  end.
(** The output starts covenant [id] under input [k]. *)
Definition starts (k : Z) (id : bytes) (o : TransactionOutput) : bool :=
  match covenant o with
  | Some b => bool_decide (binding_covenant_id b = id) && (authorizing_input b =? k) && negb (carries k id)
  | None => false
  end.
Definition in_bounds (o : TransactionOutput) : Prop :=
  match covenant o with Some b => is_Some (utxo p (authorizing_input b)) | None => True end.

Definition inputs_with (id : bytes) : list Z := select (has_id id) (enumerate (entries p)).

(** The context describes the relation, restricted to the outputs in [l]. *)
Definition describes (l : list (Z * TransactionOutput)) (ctx : CovenantsContext) : Prop :=
  (∀ k, default [] (input_ctxs ctx !! k) = select (authorized_by k) l) ∧
  (∀ id, match shared_ctxs ctx !! id with
         | Some c => input_indices c = inputs_with id ∧ output_indices c = select (continues id) l
         | None => inputs_with id = [] ∧ select (continues id) l = []
         end).

Definition groups (l : list (Z * TransactionOutput)) (g : genesis_map) : Prop :=
  (∀ k id, default [] (g !! (k, id)) = select (starts k id) l) ∧
  (∀ k id idx, g !! (k, id) = Some idx → idx ≠ [] ∧ is_Some (utxo p k)).

Lemma select_snoc {A} (test : A → bool) l i x :
  select test (l ++ [(i, x)]) = select test l ++ (if test x then [i] else []).
Proof. unfold select. rewrite omap_app. cbn. by destruct (test x). Qed.

Lemma elem_of_enumerate {A} (l : list A) j i x :
  (i, x) ∈ enumerate_from j l ↔ ∃ n : nat, l !! n = Some x ∧ i = j + Z.of_nat n.
Proof.
  revert j. induction l as [|y l IH]; intros j; cbn.
  { split; [by intros ?%not_elem_of_nil|]. by intros (n & ? & _). }
  rewrite elem_of_cons, IH. split.
  - intros [[= -> ->]|(n & Hn & ->)]; [exists 0%nat; split; [done|lia]|exists (S n); split; [done|lia]].
  - intros ([|n] & Hn & ->); cbn in Hn; [left; simplify_eq; f_equal; lia|right; exists n; split; [done|lia]].
Qed.

Lemma carries_inputs k id : carries k id = true → inputs_with id ≠ [].
Proof.
  unfold carries, utxo. intros Hc. destruct (entries p !! Z.to_nat k) as [e|] eqn:E; [|done].
  apply bool_decide_eq_true in Hc. intros Hn.
  assert (Z.of_nat (Z.to_nat k) ∈ inputs_with id) as Hin; [|rewrite Hn in Hin; by apply not_elem_of_nil in Hin].
  apply list_elem_of_omap. exists (Z.of_nat (Z.to_nat k), e). split.
  - apply elem_of_enumerate. exists (Z.to_nat k). split; [done|lia].
  - unfold has_id. by rewrite bool_decide_eq_true_2.
Qed.

(** Registering the inputs describes the relation over no outputs. *)
Lemma add_inputs_describes :
  describes [] (foldl add_input EMPTY_COV_CONTEXT (enumerate (entries p))).
Proof.
  enough (∀ l pre ctx,
    (input_ctxs ctx = ∅) →
    (∀ id, match shared_ctxs ctx !! id with
           | Some c => input_indices c = select (has_id id) pre ∧ output_indices c = []
           | None => select (has_id id) pre = [] end) →
    let ctx' := foldl add_input ctx l in
    (input_ctxs ctx' = ∅) ∧
    (∀ id, match shared_ctxs ctx' !! id with
           | Some c => input_indices c = select (has_id id) (pre ++ l) ∧ output_indices c = []
           | None => select (has_id id) (pre ++ l) = [] end)) as H.
  { destruct (H (enumerate (entries p)) [] EMPTY_COV_CONTEXT) as [H1 H2]; [done|intros id; done|].
    split; [intros k; by rewrite H1|]. intros id. specialize (H2 id). cbn in H2.
    destruct (shared_ctxs _ !! id); [done|]. done. }
  induction l as [|[i e] l IH]; intros pre ctx H1 H2; cbn [foldl]; [by rewrite app_nil_r|].
  assert (pre ++ (i, e) :: l = (pre ++ [(i, e)]) ++ l) as -> by (by rewrite <- app_assoc). apply IH.
  - unfold add_input. by destruct (entry_covenant_id e).
  - intros id. specialize (H2 id). rewrite select_snoc. unfold add_input.
    change (has_id id e) with (bool_decide (entry_covenant_id e = Some id)).
    destruct (entry_covenant_id e) as [id'|]; cbn [shared_ctxs].
    + destruct (decide (id = id')) as [->|Hne].
      * rewrite lookup_insert_eq, bool_decide_eq_true_2 by done. cbn.
        destruct (shared_ctxs ctx !! id') as [c|]; cbn; [by destruct H2 as [-> ->]|by rewrite H2].
      * rewrite lookup_insert_ne, bool_decide_eq_false_2 by congruence. by rewrite app_nil_r.
    + by rewrite app_nil_r.
Qed.

(** One output extends what the context and the groups describe. *)
Lemma add_output_step l ctx g i o :
  describes l ctx → groups l g → in_bounds o →
  ∃ ctx' g', add_output p (ctx, g) (i, o) = Ok (ctx', g') ∧ describes (l ++ [(i, o)]) ctx' ∧ groups (l ++ [(i, o)]) g'.
Proof.
  intros [D1 D2] [G1 G2] Hb. unfold add_output, in_bounds in *.
  destruct (covenant o) as [b|] eqn:Eb.
  2:{ exists ctx, g. split; [done|].
      assert (∀ k, authorized_by k o = false) as Ha by (intros; unfold authorized_by; by rewrite Eb).
      assert (∀ id, continues id o = false) as Hc by (intros; unfold continues; by rewrite Eb).
      assert (∀ k id, starts k id o = false) as Hs by (intros; unfold starts; by rewrite Eb).
      split; split; [intros k|intros id|intros k id|done]; rewrite select_snoc, ?Ha, ?Hc, ?Hs, app_nil_r;
        [apply D1|apply D2|apply G1]. }
  set (id := binding_covenant_id b) in *. set (k := authorizing_input b) in *.
  assert (carries k id = match utxo p k with Some e => bool_decide (entry_covenant_id e = Some id) | None => false end) as Hc by done.
  destruct Hb as [e He]. rewrite He in Hc |- *.
  assert (∀ k', authorized_by k' o = (k =? k') && carries k' id) as Ha by (intros k'; unfold authorized_by; by rewrite Eb).
  assert (∀ id', continues id' o = bool_decide (id = id') && carries k id') as Hco by (intros id'; unfold continues; by rewrite Eb).
  assert (∀ k' id', starts k' id' o = bool_decide (id = id') && (k =? k') && negb (carries k' id')) as Hs
    by (intros k' id'; unfold starts; by rewrite Eb).
  clearbody id k.
  destruct (bool_decide (entry_covenant_id e = Some id)).
  - pose proof (D2 id) as Did. destruct (shared_ctxs ctx !! id) as [c|] eqn:Ec.
    2:{ by destruct Did as [Hn _]; apply carries_inputs in Hc. }
    eexists _, _. split; [done|]. split; [split|].
    + intros k'. cbn [input_ctxs]. rewrite select_snoc, Ha. destruct (Z.eqb_spec k k') as [<-|Hne]; cbn.
      * rewrite lookup_insert_eq, Hc. cbn. by rewrite D1.
      * rewrite lookup_insert_ne by done. by rewrite app_nil_r, D1.
    + intros id'. cbn [shared_ctxs]. rewrite select_snoc, Hco. destruct (decide (id = id')) as [<-|Hne].
      * rewrite lookup_insert_eq, bool_decide_eq_true_2, Hc by done. cbn. destruct Did as [-> ->]. done.
      * rewrite lookup_insert_ne, bool_decide_eq_false_2 by done. cbn. rewrite app_nil_r. apply D2.
    + split; [|done]. intros k' id'. rewrite G1, select_snoc, Hs.
      destruct (decide (id = id')) as [<-|]; [|rewrite bool_decide_eq_false_2 by done; cbn; by rewrite app_nil_r].
      destruct (Z.eqb_spec k k') as [<-|]; [rewrite Hc|]; rewrite ?andb_false_r; cbn; by rewrite app_nil_r.
  - eexists _, _. split; [done|]. split; [split|split].
    + intros k'. rewrite select_snoc, Ha. destruct (Z.eqb_spec k k') as [<-|Hne]; [rewrite Hc|]; cbn; by rewrite app_nil_r.
    + intros id'. rewrite select_snoc, Hco. specialize (D2 id').
      destruct (decide (id = id')) as [<-|]; [rewrite Hc, andb_false_r|rewrite bool_decide_eq_false_2 by done]; cbn; by rewrite app_nil_r.
    + intros k' id'. rewrite select_snoc, Hs. destruct (decide ((k, id) = (k', id'))) as [[= <- <-]|Hne].
      * rewrite lookup_insert_eq, bool_decide_eq_true_2, Z.eqb_refl, Hc by done. cbn. by rewrite G1.
      * rewrite lookup_insert_ne by done. rewrite G1.
        destruct (decide (id = id')) as [<-|]; [|rewrite bool_decide_eq_false_2 by done; cbn; by rewrite app_nil_r].
        destruct (Z.eqb_spec k k') as [<-|]; [done|]. rewrite andb_false_r. cbn. by rewrite app_nil_r.
    + intros k' id' l'. destruct (decide ((k, id) = (k', id'))) as [[= <- <-]|Hne].
      * rewrite lookup_insert_eq. intros [= <-]. split; [by destruct (default [] _)|by eexists].
      * rewrite lookup_insert_ne by done. apply G2.
Qed.

Lemma add_outputs_run l pre ctx g :
  describes pre ctx → groups pre g →
  match res_foldl (add_output p) (ctx, g) l with
  | Ok (ctx', g') => Forall (λ x, in_bounds x.2) l ∧ describes (pre ++ l) ctx' ∧ groups (pre ++ l) g'
  | Err _ => ¬ Forall (λ x, in_bounds x.2) l
  | Panic => False
  end.
Proof.
  revert pre ctx g. induction l as [|[i o] l IH]; intros pre ctx g Hd Hg; cbn [res_foldl].
  { rewrite app_nil_r. split; [by apply Forall_nil|done]. }
  assert (in_bounds o ∨ ∃ b, covenant o = Some b ∧ utxo p (authorizing_input b) = None) as [Hb|(b & Hb & Hu)].
  { unfold in_bounds. destruct (covenant o) as [b|]; [|by left]. destruct (utxo p (authorizing_input b)) eqn:E; [by left|right; eauto]. }
  - destruct (add_output_step pre ctx g i o Hd Hg Hb) as (ctx1 & g1 & -> & Hd1 & Hg1). cbn [mbind res_bind].
    specialize (IH _ _ _ Hd1 Hg1). rewrite <- app_assoc in IH. cbn [app] in IH.
    destruct (res_foldl _ _ l) as [[ctx' g']| |]; [|rewrite Forall_cons; tauto|done]. rewrite Forall_cons. cbn. tauto.
  - assert (add_output p (ctx, g) (i, o) = Err (AuthInputOutOfBounds i (authorizing_input b))) as ->
      by (unfold add_output; by rewrite Hb, Hu).
    cbn [mbind res_bind]. rewrite Forall_cons. unfold in_bounds at 1. cbn [snd].
    rewrite Hb, Hu. intros [[? ?] _]. done.
Qed.
End relation.

(** ** Construction is exact *)

Lemma populated_inputs_zip p :
  length (entries p) = length (inputs (ptx p)) → populated_inputs p = Ok (zip (inputs (ptx p)) (entries p)).
Proof.
  intros Hl. unfold populated_inputs.
  enough (∀ n, (n <= length (inputs (ptx p)))%nat →
    res_foldl (λ acc i, x ← populated_input p (Z.of_nat i); Ok (acc ++ [x])) [] (seq 0 n)
    = Ok (E := Empty_set) (take n (zip (inputs (ptx p)) (entries p)))) as H.
  { rewrite H by done. f_equal. apply take_ge. rewrite length_zip. lia. }
  induction n as [|n IH]; intros Hn; [done|]. rewrite seq_S, res_foldl_app, IH by lia. cbn [mbind res_bind res_foldl plus].
  destruct (lookup_lt_is_Some_2 (inputs (ptx p)) n) as [i Hi]; [lia|].
  destruct (lookup_lt_is_Some_2 (entries p) n) as [e He]; [lia|].
  assert (populated_input p (Z.of_nat n) = Ok (i, e)) as ->.
  { apply populated_input_ok. by rewrite !Nat2Z.id. }
  cbn. f_equal. symmetry. apply take_S_r. apply lookup_zip_with_Some. eauto.
Qed.

Lemma all_checks {A} (f : A → res CovenantsError ()) l :
  Forall (λ x, f x ≠ Panic) l →
  match res_foldl (λ _ x, f x) () l with Ok _ => Forall (λ x, f x = Ok ()) l | Err _ => ¬ Forall (λ x, f x = Ok ()) l | Panic => False end.
Proof.
  induction 1 as [|x l Hx Hl IH]; cbn [res_foldl]; [by apply Forall_nil|].
  destruct (f x) as [[]|e|] eqn:E; cbn [mbind res_bind]; [|rewrite Forall_cons; intros [? _]; congruence|done].
  destruct (res_foldl _ () l); [by apply Forall_cons|rewrite Forall_cons; tauto|done].
Qed.

(** The outputs of a group with their indices. *)
Definition group_of (tx : Transaction) (indices : list Z) : list (Z * TransactionOutput) :=
  omap (λ i, (λ o, (i, o)) <$> outputs tx !! Z.to_nat i) indices.

Lemma group_outputs_exact tx indices :
  Zlength (outputs tx) < 2 ^ 32 → Forall (λ i, 0 <= i < Zlength (outputs tx)) indices →
  group_outputs tx indices = Ok (group_of tx indices).
Proof.
  intros Hn Hi. unfold group_outputs, group_of.
  enough (∀ acc, res_foldl (λ acc i, o ← unwrap (outputs tx !! Z.to_nat i); Ok (acc ++ [(wrap 32 i, o)])) acc indices
    = Ok (E := CovenantsError) (acc ++ omap (λ i, (λ o, (i, o)) <$> outputs tx !! Z.to_nat i) indices)) as H by apply (H []).
  induction Hi as [|i l Hi Hl IH]; intros acc; [by rewrite app_nil_r|]. cbn [res_foldl].
  unfold Zlength in *. destruct (lookup_lt_is_Some_2 (outputs tx) (Z.to_nat i)) as [o Ho]; [lia|].
  rewrite Ho. cbn. rewrite IH, Ho. cbn. unfold wrap. rewrite Z.mod_small by lia. by rewrite <- app_assoc.
Qed.

Lemma select_range {A} (test : A → bool) (l : list A) : Forall (λ i, 0 <= i < Zlength l) (select test (enumerate l)).
Proof.
  apply Forall_forall. intros i ([j x] & Hin & He)%list_elem_of_omap. apply elem_of_enumerate in Hin as (n & Hn & ->).
  apply lookup_lt_Some in Hn. unfold Zlength. destruct (test x); simplify_eq. lia.
Qed.

(** Every covenant started by the transaction has the id its group hashes to. *)
Definition genesis_valid (H : HashDomain → bytes → bytes) (p : PopulatedTransaction) : Prop :=
  ∀ k id input, inputs (ptx p) !! Z.to_nat k = Some input →
    let indices := select (starts p k id) (enumerate (outputs (ptx p))) in
    indices ≠ [] → covenant_id H (previous_outpoint input) (group_of (ptx p) indices) = id.

Definition bindings_valid (H : HashDomain → bytes → bytes) (p : PopulatedTransaction) : Prop :=
  Forall (λ x, in_bounds p x.2) (enumerate (outputs (ptx p))) ∧ genesis_valid H p.

Lemma check_groups H p g :
  length (entries p) = length (inputs (ptx p)) → Zlength (outputs (ptx p)) < 2 ^ 32 →
  groups p (enumerate (outputs (ptx p))) g →
  Forall (λ x, check_genesis H (ptx p) x ≠ Panic) (map_to_list g) ∧
  (Forall (λ x, check_genesis H (ptx p) x = Ok ()) (map_to_list g) ↔ genesis_valid H p).
Proof.
  intros Hl Hn [G1 G2].
  assert (∀ k id idx, g !! (k, id) = Some idx → ∃ input, inputs (ptx p) !! Z.to_nat k = Some input ∧
    idx = select (starts p k id) (enumerate (outputs (ptx p))) ∧ idx ≠ [] ∧
    check_genesis H (ptx p) ((k, id), idx) =
      if bool_decide (covenant_id H (previous_outpoint input) (group_of (ptx p) idx) = id) then Ok ()
      else Err (WrongGenesisCovenantId k id)) as Hg.
  { intros k id idx Hg. destruct (G2 _ _ _ Hg) as [Hne [e He]]. unfold utxo in He. apply lookup_lt_Some in He.
    destruct (lookup_lt_is_Some_2 (inputs (ptx p)) (Z.to_nat k)) as [input Hi]; [lia|]. exists input.
    specialize (G1 k id). rewrite Hg in G1. cbn in G1. split_and!; [done|done|done|].
    unfold check_genesis. rewrite Hi. cbn. rewrite group_outputs_exact; [done|done|]. rewrite G1. apply select_range. }
  split.
  - apply Forall_forall. intros [[k id] idx] Hin%elem_of_map_to_list. destruct (Hg _ _ _ Hin) as (input & _ & _ & _ & ->).
    by case_bool_decide.
  - split.
    + intros Hall k id input Hi idx Hne. specialize (G1 k id). fold idx in G1.
      destruct (g !! (k, id)) as [idx'|] eqn:E; cbn in G1; [|congruence]. subst idx'.
      rewrite Forall_forall in Hall. specialize (Hall ((k, id), idx)). rewrite elem_of_map_to_list in Hall. specialize (Hall E).
      destruct (Hg _ _ _ E) as (input' & Hi' & _ & _ & Hc). rewrite Hc in Hall. simplify_eq. by case_bool_decide.
    + intros Hv. apply Forall_forall. intros [[k id] idx] Hin%elem_of_map_to_list.
      destruct (Hg _ _ _ Hin) as (input & Hi & -> & Hne & ->). rewrite bool_decide_eq_true_2; [done|]. by apply Hv.
Qed.

Lemma from_tx_exact (H : HashDomain → bytes → bytes) (p : PopulatedTransaction) :
  length (entries p) = length (inputs (ptx p)) → Zlength (outputs (ptx p)) < 2 ^ 32 →
  match from_tx H p with
  | Ok ctx => bindings_valid H p ∧ describes p (enumerate (outputs (ptx p))) ctx
  | Err _ => ¬ bindings_valid H p
  | Panic => False
  end.
Proof.
  intros Hl Hn. unfold from_tx. rewrite populated_inputs_zip by done. cbn [map_err mbind res_bind].
  rewrite snd_zip by lia.
  pose proof (add_outputs_run p (enumerate (outputs (ptx p))) [] _ ∅ (add_inputs_describes p)) as Hr.
  destruct (res_foldl (add_output p) _ _) as [[ctx g]| |]; cbn [mbind res_bind].
  - destruct Hr as (Hb & Hd & Hg); [by split|]. cbn [app] in Hd, Hg.
    destruct (check_groups H p g Hl Hn Hg) as [Hnp Hiff]. pose proof (all_checks (check_genesis H (ptx p)) _ Hnp) as Hc.
    destruct (res_foldl (λ _ x, check_genesis H (ptx p) x) () (map_to_list g)); cbn [mbind res_bind]; [|..|done].
    + split; [split; [done|]|done]. by apply Hiff.
    + intros [_ Hv]. by apply Hc, Hiff.
  - intros [Hb _]. apply Hr in Hb; [done|]. by split.
  - apply Hr. by split.
Qed.

(** C26. Covenant contexts: building the context of a populated transaction never
    panics, succeeds exactly when every bound output has an existing authorizing
    input and every covenant it starts has the id that its outpoint and outputs
    hash to, and the result lists for each input exactly the outputs it
    authorizes, and for each covenant id exactly the inputs that carry it and the
    outputs that continue it, in transaction order. *)
Theorem covenant_context_exact (H : HashDomain → bytes → bytes) (p : PopulatedTransaction) :
  length (entries p) = length (inputs (ptx p)) → Zlength (outputs (ptx p)) < 2 ^ 32 →
  match from_tx H p with
  | Ok ctx => bindings_valid H p ∧ describes p (enumerate (outputs (ptx p))) ctx
  | Err _ => ¬ bindings_valid H p
  | Panic => False
  end.
Proof. apply from_tx_exact. Qed.

(** The spend of [Tx], with the spent entry carrying the covenant its output
    continues. *)
Definition example_covenant_spend : PopulatedTransaction :=
  mk_populated example_tx [mk_entry 6000 (mk_spk 0 [32; 1; 172]) 12 false (Some (zeros 32))].

Lemma covenant_context_exact_witness :
  match from_tx example_hasher example_covenant_spend with
  | Ok ctx => bindings_valid example_hasher example_covenant_spend ∧ num_auth_outputs ctx 0 = 1 ∧
      covenant_output_index ctx (zeros 32) 0 = Ok 0
  | _ => False
  end.
Proof.
  pose proof (covenant_context_exact example_hasher example_covenant_spend eq_refl eq_refl) as H.
  destruct (from_tx example_hasher example_covenant_spend) as [ctx| |] eqn:E.
  - destruct H as [Hv _]. vm_compute in E. injection E as <-. split; [exact Hv|]. split; reflexivity.
  - vm_compute in E. discriminate E.
  - exact H.
Defined.
