(* ===== verification/ScriptParse.v ===== *)
(** Opcodes, script parsing and static script analysis.

    The opcode table of crypto/txscript/src/opcodes/{mod,macros}.rs (numbers,
    lengths, metadata, wire form), the parser [parse_script] and the static
    scanners of crypto/txscript/src/lib.rs, and the standard script forms of
    crypto/txscript/src/script_class.rs.  An opcode is its number and its data.

    The theorems show that parsing is the exact inverse of serializing a sequence
    of opcodes, on every byte string. *)
From stdpp Require Import base gmap list.
From S2P Require Import Prelude Bundle Tx ScriptNum DataStack ScriptMeter.

(** ** Opcode numbers *)

Module codes.
Definition OpFalse : Z := 0.
Definition OpData1 : Z := 1.
Definition OpData32 : Z := 32.
Definition OpData33 : Z := 33.
Definition OpData75 : Z := 75.
Definition OpPushData1 : Z := 76.
Definition OpPushData2 : Z := 77.
Definition OpPushData4 : Z := 78.
Definition Op1Negate : Z := 79.
Definition OpReserved : Z := 80.
Definition OpTrue : Z := 81.
Definition Op16 : Z := 96.
Definition OpVerIf : Z := 101.
Definition OpVerNotIf : Z := 102.
Definition OpReturn : Z := 106.
Definition OpCat : Z := 126.
Definition OpSubstr : Z := 127.
Definition OpLeft : Z := 128.
Definition OpRight : Z := 129.
Definition OpInvert : Z := 131.
Definition OpAnd : Z := 132.
Definition OpOr : Z := 133.
Definition OpXor : Z := 134.
Definition OpEqual : Z := 135.
Definition Op2Mul : Z := 141.
Definition Op2Div : Z := 142.
Definition OpMul : Z := 149.
Definition OpDiv : Z := 150.
Definition OpMod : Z := 151.
Definition OpLShift : Z := 152.
Definition OpRShift : Z := 153.
Definition OpZkPrecompile : Z := 166.
Definition OpCheckMultiSigECDSA : Z := 169.
Definition OpBlake2b : Z := 170.
Definition OpCheckSigECDSA : Z := 171.
Definition OpCheckSig : Z := 172.
Definition OpCheckSigVerify : Z := 173.
Definition OpCheckMultiSig : Z := 174.
Definition OpCheckMultiSigVerify : Z := 175.
Definition OpCheckSigFromStack : Z := 215.
Definition OpCheckSigFromStackECDSA : Z := 216.
End codes.

Definition NO_COST_OPCODE : Z := 96.
Definition OP_SMALL_INT_MIN_VAL : Z := 1.
Definition OP_SMALL_INT_MAX_VAL : Z := 16.
Definition OP_DATA_MIN_VAL : Z := codes.OpData1.
Definition OP_DATA_MAX_VAL : Z := codes.OpData75.
Definition OP_1_NEGATE_VAL : Z := 129.

Record OpCode := mk_op { code : Z; data : bytes }.

(** The length specification of an opcode: a fixed total length, or the width in
    bytes of the length prefix of its data. *)
Inductive OpLength := FixedLen (n : Z) | VarLen (width : Z).

Definition op_length (c : Z) : OpLength :=
  if (codes.OpData1 <=? c) && (c <=? codes.OpData75) then FixedLen (c + 1)
  else if c =? codes.OpPushData1 then VarLen 1
  else if c =? codes.OpPushData2 then VarLen 2
  else if c =? codes.OpPushData4 then VarLen 4
  else FixedLen 1.

(** ** Metadata (opcodes/mod.rs) *)

Definition is_disabled (op : OpCode) (covenants_enabled : bool) : bool :=
  if covenants_enabled then
    bool_decide (code op ∈ [codes.OpLeft; codes.OpRight; codes.Op2Mul; codes.Op2Div; codes.OpLShift; codes.OpRShift])
  else
    bool_decide (code op ∈ [codes.OpCat; codes.OpSubstr; codes.OpLeft; codes.OpRight; codes.OpInvert; codes.OpAnd; codes.OpOr;
      codes.OpXor; codes.Op2Mul; codes.Op2Div; codes.OpMul; codes.OpDiv; codes.OpMod; codes.OpLShift; codes.OpRShift]).
Definition always_illegal (op : OpCode) : bool := bool_decide (code op ∈ [codes.OpVerIf; codes.OpVerNotIf]).
Definition is_push_opcode (op : OpCode) : bool := code op <=? NO_COST_OPCODE.
Definition op_len (op : OpCode) : Z := Zlength (data op).
Definition is_conditional (op : OpCode) : bool := (99 <=? code op) && (code op <=? 104).

Definition check_minimal_data_push (op : OpCode) : res TxScriptError () :=
  let data_len := op_len op in
  let opcode := code op in
  let first := default 0 (head (data op)) in
  if data_len =? 0 then (if negb (opcode =? codes.OpFalse) then Err NotMinimalData else Ok ())
  else if (data_len =? 1) && (OP_SMALL_INT_MIN_VAL <=? first) && (first <=? OP_SMALL_INT_MAX_VAL) then
    (if negb (opcode =? codes.OpTrue + first - 1) then Err NotMinimalData else Ok ())
  else if (data_len =? 1) && (first =? OP_1_NEGATE_VAL) then
    (if negb (opcode =? codes.Op1Negate) then Err NotMinimalData else Ok ())
  else if data_len <=? OP_DATA_MAX_VAL then (if negb (opcode =? data_len) then Err NotMinimalData else Ok ())
  else if data_len <=? 255 then (if negb (opcode =? codes.OpPushData1) then Err NotMinimalData else Ok ())
  else if (data_len <? 65535) && negb (opcode =? codes.OpPushData2) then Err NotMinimalData
  else Ok ().

(** ** Wire form (opcodes/macros.rs) *)

(** [length as $type] truncates. *)
Definition serialize (op : OpCode) : bytes :=
  match op_length (code op) with
  | VarLen w => [code op] ++ to_le_bytes w (wrap (8 * w) (op_len op)) ++ data op
  | FixedLen _ => [code op] ++ data op
  end.

(** The parsed opcode and the bytes the iterator has left. *)
Definition deserialize (c : Z) (it : bytes) : res TxScriptError OpCode * bytes :=
  match op_length c with
  | VarLen w =>
      let size := take (Z.to_nat w) it in
      let it := drop (Z.to_nat w) it in
      if Zlength size =? w then
        let length := from_le_bytes size in
        let data := take (Z.to_nat length) it in
        let it := drop (Z.to_nat length) it in
        (if negb (Zlength data =? length) then Err (MalformedPush length (Zlength data)) else Ok (mk_op c data), it)
      else (Err (MalformedPushSize size), it)
  | FixedLen n =>
      let data := take (Z.to_nat (n - 1)) it in
      let it := drop (Z.to_nat (n - 1)) it in
      (if negb (Zlength data =? n - 1) then Err (MalformedPush (n - 1) (Zlength data)) else Ok (mk_op c data), it)
  end.

Definition deserialize_next_opcode (it : bytes) : option (res TxScriptError OpCode * bytes) :=
  match it with
  | opcode_num :: it => Some (deserialize opcode_num it)
  | [] => None
  end.

(** [script.iter().batching(deserialize_next_opcode)]: every item consumes at
    least one byte, so the length of the script is enough fuel. *)
Fixpoint parse_loop (fuel : nat) (it : bytes) : list (res TxScriptError OpCode) :=
  match fuel with
  | O => []
  | S fuel =>
      match deserialize_next_opcode it with
      | None => []
      | Some (op, it) => op :: parse_loop fuel it
      end
  end.
Definition parse_script (script : bytes) : list (res TxScriptError OpCode) := parse_loop (length script) script.

(** [collect::<Result<Vec<_>, _>>]: the opcodes, or the first error. *)
Fixpoint collect (l : list (res TxScriptError OpCode)) : res TxScriptError (list OpCode) :=
  match l with
  | [] => Ok []
  | r :: l => op ← r; ops ← collect l; Ok (op :: ops)
  end.

(** ** Standard scripts (script_class.rs) *)

Inductive ScriptClass := NonStandard | PubKey | PubKeyECDSA | ScriptHash.

Definition MAX_SCRIPT_PUBLIC_KEY_VERSION : Z := 0.
Definition byte_at (b : bytes) (i : nat) (x : Z) : bool := bool_decide (b !! i = Some x).

Definition is_pay_to_pubkey (script : bytes) : bool :=
  (Zlength script =? 34) && byte_at script 0 codes.OpData32 && byte_at script 33 codes.OpCheckSig.
Definition is_pay_to_pubkey_ecdsa (script : bytes) : bool :=
  (Zlength script =? 35) && byte_at script 0 codes.OpData33 && byte_at script 34 codes.OpCheckSigECDSA.
Definition is_pay_to_script_hash (script : bytes) : bool :=
  (Zlength script =? 35) && byte_at script 0 codes.OpBlake2b && byte_at script 1 codes.OpData32 &&
  byte_at script 34 codes.OpEqual.

Definition from_script (spk : ScriptPublicKey) : ScriptClass :=
  if spk_version spk =? MAX_SCRIPT_PUBLIC_KEY_VERSION then
    if is_pay_to_pubkey (spk_script spk) then PubKey
    else if is_pay_to_pubkey_ecdsa (spk_script spk) then PubKeyECDSA
    else if is_pay_to_script_hash (spk_script spk) then ScriptHash
    else NonStandard
  else NonStandard.

(** ** Static scanners (lib.rs) *)

Definition MAX_PUB_KEYS_PER_MUTLTISIG : Z := 20.

(** The range of the assertion excludes [Op16]. *)
Definition to_small_int (op : OpCode) : exec Z :=
  let value := code op in
  if value =? codes.OpFalse then Ok 0
  else
    guard_panic ((codes.OpTrue <=? value) && (value <? codes.Op16)) ;;
    sub_u value (codes.OpTrue - 1).

Definition is_check_sig (c : Z) : bool :=
  bool_decide (c ∈ [codes.OpCheckSig; codes.OpCheckSigVerify; codes.OpCheckSigECDSA]).
Definition is_check_multisig (c : Z) : bool :=
  bool_decide (c ∈ [codes.OpCheckMultiSig; codes.OpCheckMultiSigVerify; codes.OpCheckMultiSigECDSA]).

(** The loop over the parsed opcodes, with the previous one at hand. *)
Fixpoint count_sig_ops (num_sigs : Z) (prev : option OpCode) (l : list (res TxScriptError OpCode)) : exec Z :=
  match l with
  | Ok op :: l =>
      num_sigs ←
        (if is_check_sig (code op) then add_u 64 num_sigs 1
         else if is_check_multisig (code op) then
           match prev with
           | None => add_u 64 num_sigs MAX_PUB_KEYS_PER_MUTLTISIG
           | Some p =>
               if (codes.OpTrue <=? code p) && (code p <=? codes.Op16)
               then n ← to_small_int p; add_u 64 num_sigs n
               else add_u 64 num_sigs MAX_PUB_KEYS_PER_MUTLTISIG
           end
         else Ok num_sigs);
      count_sig_ops num_sigs (Some op) l
  | _ => Ok num_sigs
  end.
Definition get_sig_op_count_by_opcodes (l : list (res TxScriptError OpCode)) : exec Z := count_sig_ops 0 None l.

(** The data of the last opcode of a signature script: the redeem script of a
    pay-to-script-hash spend. *)
Definition p2sh_redeem (signature_script : bytes) : option bytes :=
  match collect (parse_script signature_script) with
  | Ok ops => data <$> last ops
  | _ => None
  end.

Definition get_sig_op_count_upper_bound (signature_script : bytes) (spk : ScriptPublicKey) : exec Z :=
  if negb (is_pay_to_script_hash (spk_script spk)) then get_sig_op_count_by_opcodes (parse_script (spk_script spk))
  else match p2sh_redeem signature_script with
       | None => Ok 0
       | Some redeem => get_sig_op_count_by_opcodes (parse_script redeem)
       end.

Fixpoint zk_units_loop (zk_units : Z) (prev : option OpCode) (l : list (res TxScriptError OpCode)) : exec Z :=
  match l with
  | Ok op :: l =>
      zk_units ←
        (if code op =? codes.OpZkPrecompile then
           cost ← match prev with
                  | None => max_cost
                  | Some p => match head (data p) with None => max_cost | Some b => compute_zk_cost b end
                  end;
           Ok (saturating_add 64 zk_units cost)
         else Ok zk_units);
      zk_units_loop zk_units (Some op) l
  | _ => Ok zk_units
  end.

Definition get_zk_script_units_upper_bound (signature_script : bytes) (spk : ScriptPublicKey) : exec Z :=
  if negb (is_pay_to_script_hash (spk_script spk)) then zk_units_loop 0 None (parse_script (spk_script spk))
  else match p2sh_redeem signature_script with
       | None => Ok 0
       | Some redeem => zk_units_loop 0 None (parse_script redeem)
       end.

Definition estimate_script_units_upper_bound (signature_script : bytes) (spk : ScriptPublicKey) (sigop_script_units : Z) : exec Z :=
  sig_op_upper_bound ← get_sig_op_count_upper_bound signature_script spk;
  let sig_op_units := saturating_mul 64 sig_op_upper_bound sigop_script_units in
  total_script_len ← add_u 64 (Zlength signature_script) (Zlength (spk_script spk));
  zk_units ← get_zk_script_units_upper_bound signature_script spk;
  len_units ← mul_u 64 total_script_len 100;
  Ok (saturating_add 64 (saturating_add 64 sig_op_units len_units) zk_units).

(** The multisig key count announced by a push, when it is one. *)
Definition multisig_count_of (op : OpCode) : option Z :=
  if (codes.OpTrue <=? code op) && (code op <=? codes.Op16) then Some (code op - codes.OpTrue + 1)
  else if code op <=? codes.OpPushData4 then
    match deserialize_i64 (data op) false with
    | Ok count => if (1 <=? count) && (count <=? MAX_PUB_KEYS_PER_MUTLTISIG) then Some count else None
    | _ => None
    end
  else None.

Definition is_check_sig_post_toccata (c : Z) : bool :=
  bool_decide (c ∈ [codes.OpCheckSig; codes.OpCheckSigVerify; codes.OpCheckSigECDSA; codes.OpCheckSigFromStack;
    codes.OpCheckSigFromStackECDSA]).

Fixpoint scan_sig_ops (sigops : Z) (prev_opcode_multisig_count : option Z) (l : list (res TxScriptError OpCode)) : Z :=
  match l with
  | [] => sigops
  | Ok op :: l =>
      if is_check_sig_post_toccata (code op) then scan_sig_ops (saturating_add 64 sigops 1) None l
      else if is_check_multisig (code op) then
        scan_sig_ops (saturating_add 64 sigops (default MAX_PUB_KEYS_PER_MUTLTISIG prev_opcode_multisig_count)) None l
      else scan_sig_ops sigops (multisig_count_of op) l
  | _ => 0
  end.

Definition post_toccata_p2sh_sig_scanner (signature_script : bytes) (spk : ScriptPublicKey) : Z :=
  if negb (is_pay_to_script_hash (spk_script spk)) then 0
  else match p2sh_redeem signature_script with
       | None => 0
       | Some redeem => scan_sig_ops 0 None (parse_script redeem)
       end.

Definition is_unspendable (script : bytes) : bool :=
  match parse_script script with
  | Ok op :: l => (code op =? codes.OpReturn) || existsb (λ r, negb (is_ok r)) l
  | l => existsb (λ r, negb (is_ok r)) l
  end.

(** ** Parsing inverts serialization *)

Definition data_fits (op : OpCode) : Prop :=
  match op_length (code op) with FixedLen n => op_len op = n - 1 | VarLen w => op_len op < 256 ^ w end.
Definition wf_op (op : OpCode) : Prop := is_u8 (code op) ∧ wf_bytes (data op) ∧ data_fits op.

Lemma op_length_var c w : op_length c = VarLen w → 0 < w <= 4.
Proof. unfold op_length. intros H. repeat case_match; simplify_eq; lia. Qed.

Lemma take_exact {A} (x r : list A) n : Zlength x = n → take (Z.to_nat n) (x ++ r) = x ∧ drop (Z.to_nat n) (x ++ r) = r.
Proof. intros <-. unfold Zlength. rewrite Nat2Z.id. by rewrite take_app_length, drop_app_length. Qed.

Lemma deserialize_complete op rest :
  wf_op op → deserialize (code op) (tail (serialize op) ++ rest) = (Ok op, rest).
Proof.
  intros (Hc & Hd & Hf). unfold deserialize, serialize, data_fits, op_len in *. destruct op as [c d]; cbn [code data] in *.
  destruct (op_length c) as [n|w] eqn:El; cbn [app tail].
  - destruct (take_exact d rest (n - 1) Hf) as [-> ->]. rewrite Hf, Z.eqb_refl. done.
  - pose proof (op_length_var c w El) as Hw.
    pose proof (Zlength_ge0 d). assert (256 ^ w = 2 ^ (8 * w)) as Hp by (rewrite Z.pow_mul_r by lia; done).
    assert (wrap (8 * w) (Zlength d) = Zlength d) as -> by (unfold wrap; apply Z.mod_small; lia).
    set (sz := to_le_bytes w (Zlength d)).
    assert (Zlength sz = w) as Hsz by (unfold Zlength, sz; rewrite length_to_le_bytes by lia; lia).
    rewrite <- app_assoc. destruct (take_exact sz (d ++ rest) w Hsz) as [-> ->]. rewrite Hsz, Z.eqb_refl.
    assert (from_le_bytes sz = Zlength d) as -> by (apply from_to_le_bytes; [lia|unfold is_uint; lia]).
    destruct (take_exact d rest (Zlength d) eq_refl) as [-> ->]. by rewrite Z.eqb_refl.
Qed.

Lemma deserialize_sound c it op rest :
  is_u8 c → wf_bytes it → deserialize c it = (Ok op, rest) → wf_op op ∧ c :: it = serialize op ++ rest ∧ wf_bytes rest.
Proof.
  intros Hc Hit. unfold deserialize, serialize, wf_op, data_fits, op_len.
  destruct (op_length c) as [n|w] eqn:El.
  - destruct (Z.eqb_spec (Zlength (take (Z.to_nat (n - 1)) it)) (n - 1)) as [Hl|]; [|done].
    cbn [negb]. intros [= <- <-]. cbn [code data]. rewrite El. split_and!.
    + done. + by apply Forall_take. + done.
    + cbn. by rewrite take_drop. + by apply Forall_drop.
  - destruct (Z.eqb_spec (Zlength (take (Z.to_nat w) it)) w) as [Hw|]; [|done].
    set (sz := take (Z.to_nat w) it) in *. set (it' := drop (Z.to_nat w) it).
    assert (wf_bytes sz ∧ wf_bytes it') as [Hsz Hit'] by (split; [by apply Forall_take|by apply Forall_drop]).
    pose proof (from_le_bytes_bound sz Hsz) as Hb. unfold is_uint in Hb. fold (Zlength sz) in Hb. rewrite Hw in Hb.
    pose proof (op_length_var c w El) as Hw0.
    destruct (Z.eqb_spec (Zlength (take (Z.to_nat (from_le_bytes sz)) it')) (from_le_bytes sz)) as [Hl|]; [|done].
    cbn [negb]. intros [= <- <-]. cbn [code data]. rewrite El, Hl.
    assert (256 ^ w = 2 ^ (8 * w)) as Hp by (rewrite Z.pow_mul_r by lia; done). split_and!.
    + done. + by apply Forall_take. + lia.
    + unfold wrap. rewrite Z.mod_small by lia.
      assert (to_le_bytes w (from_le_bytes sz) = sz) as ->.
      { rewrite <- Hw at 1. by apply to_from_le_bytes. }
      cbn. rewrite <- !app_assoc, take_drop. unfold sz, it'. by rewrite take_drop.
    + by apply Forall_drop.
Qed.

Lemma serialize_cons op : ∃ t, serialize op = code op :: t ∧ t = tail (serialize op).
Proof. unfold serialize. destruct (op_length (code op)); cbn; eauto. Qed.

Lemma parse_loop_exact fuel s ops :
  wf_bytes s → (length s <= fuel)%nat →
  parse_loop fuel s = Ok <$> ops ↔ Forall wf_op ops ∧ s = mjoin (serialize <$> ops).
Proof.
  revert s ops. induction fuel as [|fuel IH]; intros s ops Hs Hl.
  { assert (s = []) as -> by (destruct s; [done|cbn in Hl; lia]). cbn. split.
    - intros He. destruct ops; [|done]. split; [by apply Forall_nil|done].
    - intros [_ He]. destruct ops as [|op ops]; [done|]. rewrite fmap_cons, mjoin_cons in He.
      destruct (serialize_cons op) as (t & E & _). by rewrite E in He. }
  cbn [parse_loop]. destruct s as [|c it]; cbn [deserialize_next_opcode].
  { split; [intros He; destruct ops; [|done]; split; [by apply Forall_nil|done]|].
    intros [_ He]. destruct ops as [|op ops]; [done|]. rewrite fmap_cons, mjoin_cons in He.
    destruct (serialize_cons op) as (t & E & _). by rewrite E in He. }
  apply Forall_cons in Hs as [Hc Hit]. cbn in Hl. split.
  - destruct (deserialize c it) as [r rest] eqn:E. destruct ops as [|op ops]; [done|]. rewrite fmap_cons.
    intros [= -> Hp]. apply deserialize_sound in E as (Hop & Heq & Hrest); [|done|done].
    assert (length rest <= length it)%nat.
    { apply (f_equal length) in Heq. rewrite length_app in Heq. cbn in Heq.
      destruct (serialize_cons op) as (t & Es & _). rewrite Es in Heq. cbn in Heq. lia. }
    apply IH in Hp as [Hops ->]; [|done|lia]. rewrite Forall_cons, fmap_cons, mjoin_cons. done.
  - intros [Hops He]. destruct ops as [|op ops]; [done|]. apply Forall_cons in Hops as [Hop Hops].
    rewrite fmap_cons, mjoin_cons in He. destruct (serialize_cons op) as (t & Es & Et). rewrite Es in He. cbn in He.
    injection He as -> ->. subst t. rewrite deserialize_complete by done.
    rewrite Es in Hl. rewrite length_app in Hl. rewrite fmap_cons. f_equal.
    apply Forall_app in Hit as [_ Hit]. apply IH; [done|lia|done].
Qed.

(** Parsing is the inverse of serialization: a script parses into a sequence
    of opcodes, with no error, exactly when the opcodes are well-formed and the
    script is the concatenation of their wire forms.  So every accepted script
    has one reading, and every sequence of well-formed opcodes is readable. *)
Theorem parse_iff_serialize (s : bytes) (ops : list OpCode) :
  wf_bytes s → parse_script s = Ok <$> ops ↔ Forall wf_op ops ∧ s = mjoin (serialize <$> ops).
Proof. intros Hs. by apply parse_loop_exact. Qed.

Lemma parse_iff_serialize_witness :
  parse_script [2; 7; 8; 118; 76; 1; 9; 172] = Ok <$> [mk_op 2 [7; 8]; mk_op 118 []; mk_op 76 [9]; mk_op 172 []] ∧
  Forall wf_op [mk_op 2 [7; 8]; mk_op 118 []; mk_op 76 [9]; mk_op 172 []].
Proof.
  assert (parse_script [2; 7; 8; 118; 76; 1; 9; 172] = Ok <$> [mk_op 2 [7; 8]; mk_op 118 []; mk_op 76 [9]; mk_op 172 []]) as E
    by reflexivity.
  split; [exact E|]. by destruct (proj1 (parse_iff_serialize [2; 7; 8; 118; 76; 1; 9; 172] _ ltac:(decide_by_eval)) E).
Defined.

(** ** The static count of signature operations *)

(** The opcodes before the first parse error, each with the one before it. *)
Fixpoint readable (prev : option OpCode) (l : list (res TxScriptError OpCode)) : list (option OpCode * OpCode) :=
  match l with Ok op :: l => (prev, op) :: readable (Some op) l | _ => [] end.
(** The keys a multisignature opcode is charged for: those announced by a small
    integer before it, or the maximum. *)
Definition announced_keys (prev : option OpCode) : Z :=
  match prev with
  | Some p => if (codes.OpTrue <=? code p) && (code p <=? codes.Op16) then code p - codes.OpTrue + 1 else MAX_PUB_KEYS_PER_MUTLTISIG
  | None => MAX_PUB_KEYS_PER_MUTLTISIG
  end.
Definition sig_op_price (x : option OpCode * OpCode) : Z :=
  if is_check_sig (code x.2) then 1 else if is_check_multisig (code x.2) then announced_keys x.1 else 0.
Definition announces_sixteen (x : option OpCode * OpCode) : Prop :=
  is_check_sig (code x.2) = false ∧ is_check_multisig (code x.2) = true ∧ code <$> x.1 = Some codes.Op16.

Lemma announced_keys_range prev : 0 <= announced_keys prev <= 20.
Proof.
  unfold announced_keys, MAX_PUB_KEYS_PER_MUTLTISIG, codes.OpTrue, codes.Op16. destruct prev as [p|]; [|lia].
  destruct ((81 <=? code p) && (code p <=? 96)) eqn:E; [|lia]. apply andb_true_iff in E as [?%Z.leb_le ?%Z.leb_le]. lia.
Qed.
Lemma to_small_int_cases p :
  codes.OpTrue <= code p <= codes.Op16 →
  (code p = codes.Op16 → to_small_int p = Panic) ∧ (code p ≠ codes.Op16 → to_small_int p = Ok (code p - codes.OpTrue + 1)).
Proof.
  unfold to_small_int, codes.OpTrue, codes.Op16, codes.OpFalse. intros Hp. destruct (Z.eqb_spec (code p) 0); [lia|].
  rewrite (proj2 (Z.leb_le 81 _)) by lia. split; intros H; [by rewrite H|]. rewrite (proj2 (Z.ltb_lt _ 96)) by lia.
  cbn [andb guard_panic mbind res_bind]. rewrite (proj2 (sub_u_ok _ _ (code p - 80))) by lia. f_equal. lia.
Qed.
(** One multisignature opcode. *)
Lemma announced_step n prev :
  0 <= n → n + 20 < 2 ^ 64 →
  match prev with
  | None => add_u 64 n MAX_PUB_KEYS_PER_MUTLTISIG
  | Some p => if (codes.OpTrue <=? code p) && (code p <=? codes.Op16) then m ← to_small_int p; add_u 64 n m
              else add_u 64 n MAX_PUB_KEYS_PER_MUTLTISIG
  end = if bool_decide (code <$> prev = Some codes.Op16) then Panic else Ok (E := Empty_set) (n + announced_keys prev).
Proof.
  intros Hn Hb. pose proof (announced_keys_range prev) as Hr. unfold announced_keys in *. destruct prev as [p|]; cbn [fmap option_fmap option_map].
  - destruct ((codes.OpTrue <=? code p) && (code p <=? codes.Op16)) eqn:E.
    + apply andb_true_iff in E as [E1%Z.leb_le E2%Z.leb_le]. destruct (to_small_int_cases p) as [H16 Hlt]; [done|].
      case_bool_decide as Hc; [rewrite H16 by congruence; done|]. rewrite Hlt by congruence. cbn [mbind res_bind]. apply add_u_ok. lia.
    + rewrite bool_decide_eq_false_2; [apply add_u_ok; lia|]. intros [= Hc]. rewrite Hc in E. done.
  - rewrite bool_decide_eq_false_2 by done. apply add_u_ok. unfold MAX_PUB_KEYS_PER_MUTLTISIG in *. lia.
Qed.
Lemma count_sig_ops_exact l n prev :
  0 <= n → n + 20 * Zlength l < 2 ^ 64 →
  match count_sig_ops n prev l with
  | Ok m => Forall (λ x, ¬ announces_sixteen x) (readable prev l) ∧ m = n + sum_list_Z (sig_op_price <$> readable prev l)
  | Err _ => False
  | Panic => Exists announces_sixteen (readable prev l)
  end.
Proof.
  revert n prev. induction l as [|[op|e|] l IH]; intros n prev Hn Hb; cbn [count_sig_ops readable]; try (split; [constructor|cbn; lia]).
  assert (Zlength (Ok (E := TxScriptError) op :: l) = 1 + Zlength l) as El by (unfold Zlength; cbn [length]; lia). rewrite El in Hb.
  pose proof (Zlength_ge0 l) as Hl. pose proof (announced_keys_range prev) as Hr. rewrite fmap_cons. cbn [sum_list_Z].
  assert (∀ m, n <= m <= n + 20 → m = n + sig_op_price (prev, op) → ¬ announces_sixteen (prev, op) →
    match count_sig_ops m (Some op) l with
    | Ok r => Forall (λ x, ¬ announces_sixteen x) ((prev, op) :: readable (Some op) l) ∧
        r = n + (sig_op_price (prev, op) + sum_list_Z (sig_op_price <$> readable (Some op) l))
    | Err _ => False
    | Panic => Exists announces_sixteen ((prev, op) :: readable (Some op) l)
    end) as Hstep.
  { intros m Hm Hp Hno. specialize (IH m (Some op) ltac:(lia) ltac:(lia)). destruct (count_sig_ops m (Some op) l); [|done|by right].
    destruct IH as [IH ->]. split; [by constructor|lia]. }
  assert (sig_op_price (prev, op) = if is_check_sig (code op) then 1 else if is_check_multisig (code op) then announced_keys prev else 0) as Hp
    by done.
  assert (announces_sixteen (prev, op) ↔
    is_check_sig (code op) = false ∧ is_check_multisig (code op) = true ∧ code <$> prev = Some codes.Op16) as Ha by done.
  destruct (is_check_sig (code op)).
  - rewrite (proj2 (add_u_ok 64 n 1 (n + 1))) by lia. cbn [mbind res_bind]. apply Hstep; [lia|lia|rewrite Ha; intros (? & ? & ?); congruence].
  - destruct (is_check_multisig (code op)); [|cbn [mbind res_bind]; apply Hstep; [lia|lia|rewrite Ha; intros (? & ? & ?); congruence]].
    rewrite announced_step by lia. case_bool_decide as Hc; cbn [mbind res_bind]; [left; by apply Ha|]. apply Hstep; [lia|lia|rewrite Ha; intros (? & ? & ?); congruence].
Qed.

(** The static count of signature operations is the sum, over the opcodes before the
    first parse error, of one for a signature check and the announced or maximal
    number of keys for a multisignature check; and the scan aborts exactly when a
    multisignature opcode follows the announcement of sixteen keys, which the range
    of [to_small_int] leaves out. *)
Theorem sig_op_scan_exact (l : list (res TxScriptError OpCode)) :
  Zlength l < 2 ^ 59 →
  match get_sig_op_count_by_opcodes l with
  | Ok n => Forall (λ x, ¬ announces_sixteen x) (readable None l) ∧ n = sum_list_Z (sig_op_price <$> readable None l)
  | Err _ => False
  | Panic => Exists announces_sixteen (readable None l)
  end.
Proof. intros Hl. apply (count_sig_ops_exact l 0 None); lia. Qed.

Lemma sig_op_scan_exact_witness :
  get_sig_op_count_by_opcodes (parse_script [codes.OpTrue + 2; codes.OpCheckMultiSig; codes.OpCheckSig]) = Ok 4 ∧
  get_sig_op_count_by_opcodes (parse_script [codes.Op16; codes.OpCheckMultiSig]) = Panic ∧
  Exists announces_sixteen (readable None (parse_script [codes.Op16; codes.OpCheckMultiSig])).
Proof.
  split; [vm_compute; reflexivity|]. assert (get_sig_op_count_by_opcodes (parse_script [codes.Op16; codes.OpCheckMultiSig]) = Panic) as E
    by (vm_compute; reflexivity). split; [exact E|].
  pose proof (sig_op_scan_exact (parse_script [codes.Op16; codes.OpCheckMultiSig]) ltac:(vm_compute; reflexivity)) as H.
  rewrite E in H. exact H.
Defined.
