(* ===== verification/ScriptBuilder.v ===== *)
(** Building scripts.

    crypto/txscript/src/script_builder.rs: appending opcodes, data pushes and
    integers to a script, with the canonical push opcode for each piece of data
    and the size limits of the engine.

    The theorems show that a pushed piece of data or integer is read back by the
    parser as exactly one push of that value, with the minimal encoding the
    engine requires, and that nothing is appended beyond the limits. *)
From stdpp Require Import base gmap list.
From S2P Require Import Prelude Bundle Tx ScriptNum DataStack ScriptMeter ScriptParse.

Definition MAX_SCRIPTS_SIZE_PRE_TOCCATA : Z := 10000.
Definition MAX_SCRIPTS_SIZE_POST_TOCCATA : Z := 1000000.
Definition MAX_SCRIPT_ELEMENT_SIZE_PRE_TOCCATA : Z := 520.

Definition max_scripts_size (covenants_enabled : bool) : Z :=
  if covenants_enabled then MAX_SCRIPTS_SIZE_POST_TOCCATA else MAX_SCRIPTS_SIZE_PRE_TOCCATA.
Definition max_script_element_size (covenants_enabled : bool) : Z :=
  if covenants_enabled then MAX_SCRIPT_ELEMENT_SIZE_POST_TOCCATA else MAX_SCRIPT_ELEMENT_SIZE_PRE_TOCCATA.

Inductive ScriptBuilderError :=
  | OpCodeRejected (opcode max : Z)
  | OpCodesRejected (n max : Z)
  | DataRejected (n max : Z)
  | ElementExceedsMaxSize (n max : Z)
  | IntegerRejected (n max : Z)
  | ExplicitDataPushRejected
  | BuilderSerialization (e : SerializationError).

Record ScriptBuilder := mk_builder { script : bytes; builder_covenants : bool }.

Definition builder_with_flags (covenants_enabled : bool) : ScriptBuilder := mk_builder [] covenants_enabled.
Definition extend (b : ScriptBuilder) (x : bytes) : ScriptBuilder := mk_builder (script b ++ x) (builder_covenants b).

Definition add_op (b : ScriptBuilder) (opcode : Z) : res ScriptBuilderError ScriptBuilder :=
  let max := max_scripts_size (builder_covenants b) in
  if max <=? Zlength (script b) then Err (OpCodeRejected opcode max) else Ok (extend b [opcode]).

Definition add_ops (b : ScriptBuilder) (opcodes : bytes) : res ScriptBuilderError ScriptBuilder :=
  let max := max_scripts_size (builder_covenants b) in
  n ← add_u 64 (Zlength (script b)) (Zlength opcodes);
  if max <? n then Err (OpCodesRejected (Zlength opcodes) max) else Ok (extend b opcodes).

(** The data is one of the single bytes that have their own opcode. *)
Definition small_int_data (d : bytes) : option Z :=
  match d with
  | [x] => if (OP_SMALL_INT_MIN_VAL <=? x) && (x <=? OP_SMALL_INT_MAX_VAL) then Some x else None
  | _ => None
  end.
Definition negate_data (d : bytes) : bool := match d with [x] => x =? OP_1_NEGATE_VAL | _ => false end.

(** The bytes of an explicit push: its opcode, its length prefix and the data. *)
Definition explicit_push_encoded_size (data_len : Z) : Z :=
  data_len +
  (if data_len <=? OP_DATA_MAX_VAL then 1 else if data_len <=? 255 then 2 else if data_len <=? 65535 then 3 else 5).

Definition canonical_data_size (d : bytes) : Z :=
  if bool_decide (d = []) || (if small_int_data d then true else false) || negate_data d then 1
  else explicit_push_encoded_size (Zlength d).

Definition add_raw_data_with_data_opcode (b : ScriptBuilder) (d : bytes) : ScriptBuilder :=
  let data_len := Zlength d in
  if data_len =? 0 then extend b [codes.OpFalse]
  else
    extend b
      ((if data_len <=? OP_DATA_MAX_VAL then [OP_DATA_MIN_VAL - 1 + wrap 8 data_len]
        else if data_len <=? 255 then [codes.OpPushData1; wrap 8 data_len]
        else if data_len <=? 65535 then codes.OpPushData2 :: to_le_bytes 2 (wrap 16 data_len)
        else codes.OpPushData4 :: to_le_bytes 4 (wrap 32 data_len)) ++ d).

Definition add_raw_data (b : ScriptBuilder) (d : bytes) : ScriptBuilder :=
  if negate_data d then extend b [codes.Op1Negate]
  else match small_int_data d with
       | Some x => extend b [codes.OpTrue - 1 + x]
       | None => add_raw_data_with_data_opcode b d
       end.

Definition validate_data_push (b : ScriptBuilder) (d : bytes) (data_size : Z) : res ScriptBuilderError () :=
  let max := max_scripts_size (builder_covenants b) in
  n ← add_u 64 (Zlength (script b)) data_size;
  if max <? n then Err (DataRejected data_size max)
  else
    let max_element := max_script_element_size (builder_covenants b) in
    if max_element <? Zlength d then Err (ElementExceedsMaxSize (Zlength d) max_element) else Ok ().

Definition add_data (b : ScriptBuilder) (d : bytes) : res ScriptBuilderError ScriptBuilder :=
  validate_data_push b d (canonical_data_size d) ;;
  Ok (add_raw_data b d).

Definition add_data_with_push_opcode (b : ScriptBuilder) (d : bytes) : res ScriptBuilderError ScriptBuilder :=
  if negb (builder_covenants b) then Err ExplicitDataPushRejected
  else
    validate_data_push b d (explicit_push_encoded_size (Zlength d)) ;;
    Ok (add_raw_data_with_data_opcode b d).

Definition add_i64 (b : ScriptBuilder) (val : Z) : res ScriptBuilderError ScriptBuilder :=
  let max := max_scripts_size (builder_covenants b) in
  n ← add_u 64 (Zlength (script b)) 1;
  if max <? n then Err (IntegerRejected val max)
  else if val =? 0 then Ok (extend b [codes.OpFalse])
  else if (val =? -1) || ((1 <=? val) && (val <=? 16)) then Ok (extend b [wrap 8 (codes.OpTrue - 1 + val)])
  else
    bytes ← map_err BuilderSerialization (serialize_as_i64 val);
    add_data b bytes.

(** [SizedEncodeInt<9>(i64::MIN)], expected to serialize. *)
Definition add_i64_min (b : ScriptBuilder) : res ScriptBuilderError ScriptBuilder :=
  match serialize_sized 9 (- 2 ^ 63) with
  | Ok bytes => add_data b bytes
  | _ => Panic
  end.

(** Little-endian bytes without the trailing zeros. *)
Fixpoint drop_zeros (b : bytes) : bytes :=
  match b with [] => [] | x :: l => if x =? 0 then drop_zeros l else x :: l end.
Definition trimmed_le (val : Z) : bytes := rev (drop_zeros (rev (to_le_bytes 8 val))).
Definition add_u64 (b : ScriptBuilder) (val : Z) : res ScriptBuilderError ScriptBuilder := add_data b (trimmed_le val).
Definition add_lock_time (b : ScriptBuilder) (lock_time : Z) : res ScriptBuilderError ScriptBuilder := add_u64 b lock_time.
Definition add_sequence (b : ScriptBuilder) (sequence : Z) : res ScriptBuilderError ScriptBuilder := add_u64 b sequence.

(** ** What a push opcode pushes *)

Definition pushed_value (op : OpCode) : option bytes :=
  if code op <=? codes.OpPushData4 then Some (data op)
  else if code op =? codes.Op1Negate then Some [129]
  else if (codes.OpTrue <=? code op) && (code op <=? codes.Op16) then Some [code op - codes.OpTrue + 1]
  else None.

(** The single opcode a data push appends. *)
Definition push_op (d : bytes) : OpCode :=
  if Zlength d <=? OP_DATA_MAX_VAL then mk_op (Zlength d) d
  else if Zlength d <=? 255 then mk_op codes.OpPushData1 d
  else if Zlength d <=? 65535 then mk_op codes.OpPushData2 d
  else mk_op codes.OpPushData4 d.
Definition canonical_op (d : bytes) : OpCode :=
  if negate_data d then mk_op codes.Op1Negate []
  else match small_int_data d with Some x => mk_op (codes.OpTrue - 1 + x) [] | None => push_op d end.

Lemma op_length_fixed c : 0 <= c <= 75 → op_length c = FixedLen (c + 1).
Proof.
  intros Hc. unfold op_length, codes.OpData1, codes.OpData75.
  destruct (Z.leb_spec 1 c), (Z.leb_spec c 75); cbn; try lia; [done|]. assert (c = 0) as -> by lia. done.
Qed.

Lemma byte_le x : is_u8 x → to_le_bytes 1 x = [x].
Proof.
  intros Hx. rewrite <- (to_from_le_bytes [x]) by (by apply Forall_singleton).
  change (from_le_bytes [x]) with (Z.lor x 0). by rewrite Z.lor_0_r.
Qed.

(** The four forms of an explicit push. *)
Ltac push_cases d :=
  unfold push_op, OP_DATA_MAX_VAL, OP_DATA_MIN_VAL, codes.OpData75, codes.OpData1;
  pose proof (Zlength_ge0 d);
  destruct (Z.leb_spec (Zlength d) 75); [|destruct (Z.leb_spec (Zlength d) 255); [|destruct (Z.leb_spec (Zlength d) 65535)]].

Lemma push_op_wf d : wf_bytes d → Zlength d < 2 ^ 32 → wf_op (push_op d) ∧ pushed_value (push_op d) = Some d.
Proof.
  intros Hd Hl. unfold wf_op, data_fits, op_len, pushed_value, is_uint.
  push_cases d; cbn [code data]; split_and?; try done; try (cbn; lia).
  - rewrite op_length_fixed by lia. lia.
  - unfold codes.OpPushData4. by rewrite (proj2 (Z.leb_le _ _)) by lia.
Qed.

Lemma push_op_wire b d : Zlength d < 2 ^ 32 → add_raw_data_with_data_opcode b d = extend b (serialize (push_op d)).
Proof.
  intros Hl. unfold add_raw_data_with_data_opcode, serialize, op_len.
  push_cases d; cbn [code data].
  - rewrite op_length_fixed by lia. destruct (Z.eqb_spec (Zlength d) 0) as [E|].
    + destruct d; [done|]. unfold Zlength in E. cbn in E. lia.
    + unfold wrap. rewrite Z.mod_small by lia. do 3 f_equal; lia.
  - destruct (Z.eqb_spec (Zlength d) 0); [lia|]. change (op_length codes.OpPushData1) with (VarLen 1). cbv iota.
    unfold wrap. rewrite (Z.mod_small _ (2 ^ (8 * 1))), (Z.mod_small _ (2 ^ 8)) by lia. by rewrite byte_le by (unfold is_uint; lia).
  - destruct (Z.eqb_spec (Zlength d) 0); [lia|]. done.
  - destruct (Z.eqb_spec (Zlength d) 0); [lia|]. done.
Qed.

Lemma push_op_size d : Zlength d < 2 ^ 32 → Zlength (serialize (push_op d)) = explicit_push_encoded_size (Zlength d).
Proof.
  intros Hl. unfold explicit_push_encoded_size, serialize, op_len.
  push_cases d; cbn [code data].
  1: rewrite op_length_fixed by lia.
  2: change (op_length codes.OpPushData1) with (VarLen 1).
  3: change (op_length codes.OpPushData2) with (VarLen 2).
  4: change (op_length codes.OpPushData4) with (VarLen 4).
  all: cbv iota; rewrite !Zlength_app; unfold Zlength; rewrite ?length_to_le_bytes by lia; cbn [length]; lia.
Qed.

Lemma push_op_minimal d : small_int_data d = None → negate_data d = false → check_minimal_data_push (push_op d) = Ok ().
Proof.
  intros Hs Hn. unfold check_minimal_data_push, op_len.
  assert ((Zlength d =? 1) && (OP_SMALL_INT_MIN_VAL <=? default 0 (head d)) && (default 0 (head d) <=? OP_SMALL_INT_MAX_VAL) = false ∧
    (Zlength d =? 1) && (default 0 (head d) =? OP_1_NEGATE_VAL) = false) as [Es En].
  { destruct d as [|x [|y d]]; [done| |].
    - unfold small_int_data in Hs. unfold negate_data in Hn. cbn. by case_match.
    - assert (Zlength (x :: y :: d) =? 1 = false) as -> by (apply Z.eqb_neq; unfold Zlength; cbn; lia). done. }
  push_cases d; cbn [code data]; rewrite Es, En.
  - destruct (Z.eqb_spec (Zlength d) 0) as [->|]; [done|]. rewrite (proj2 (Z.leb_le _ _)), Z.eqb_refl by lia. done.
  - destruct (Z.eqb_spec (Zlength d) 0); [lia|]. rewrite (proj2 (Z.leb_gt _ _)), (proj2 (Z.leb_le _ _)) by lia. done.
  - destruct (Z.eqb_spec (Zlength d) 0); [lia|]. rewrite !(proj2 (Z.leb_gt _ _)) by lia. by rewrite andb_false_r.
  - destruct (Z.eqb_spec (Zlength d) 0); [lia|]. rewrite !(proj2 (Z.leb_gt _ _)) by lia.
    by rewrite (proj2 (Z.ltb_ge _ _)) by lia.
Qed.

(** The check the engine makes on executed pushes: only explicit data pushes of
    a non-zero opcode are examined. *)
Definition push_check (op : OpCode) : res TxScriptError () :=
  if (0 <? code op) && (code op <=? codes.OpPushData4) then check_minimal_data_push op else Ok ().

Lemma canonical_op_spec b d :
  wf_bytes d → Zlength d < 2 ^ 32 →
  wf_op (canonical_op d) ∧ pushed_value (canonical_op d) = Some d ∧
  add_raw_data b d = extend b (serialize (canonical_op d)) ∧
  Zlength (serialize (canonical_op d)) = canonical_data_size d ∧ push_check (canonical_op d) = Ok ().
Proof.
  intros Hd Hl. unfold canonical_op, add_raw_data, canonical_data_size.
  destruct (negate_data d) eqn:En.
  { unfold negate_data in En. destruct d as [|x [|]]; try done. apply Z.eqb_eq in En as ->.
    rewrite orb_true_r. split_and!; try done. by vm_compute. }
  destruct (small_int_data d) as [x|] eqn:Es.
  { unfold small_int_data in Es. destruct d as [|y [|]]; try done. case_match; [|done]. simplify_eq.
    apply andb_prop in H as [H1%Z.leb_le H2%Z.leb_le]. unfold OP_SMALL_INT_MIN_VAL, OP_SMALL_INT_MAX_VAL in *.
    assert (x ∈ [1;2;3;4;5;6;7;8;9;10;11;12;13;14;15;16]) as Hx by (rewrite !elem_of_cons; lia).
    clear -Hx. repeat (apply elem_of_cons in Hx as [->|Hx]; [split_and!; by vm_compute|]). by apply not_elem_of_nil in Hx. }
  destruct (push_op_wf d Hd Hl) as [Hw Hv]. split_and!; try done.
  - by apply push_op_wire.
  - rewrite push_op_size by done. destruct d; [done|]. done.
  - unfold push_check. case_match; [|done]. by apply push_op_minimal.
Qed.

Lemma wf_serialize op : wf_op op → wf_bytes (serialize op).
Proof.
  intros (Hc & Hd & _). unfold serialize. destruct (op_length (code op)) eqn:El; cbn; apply Forall_cons; split; try done.
  apply Forall_app. split; [|done]. apply wf_to_le_bytes. apply op_length_var in El. lia.
Qed.

Lemma parse_extend s ops op :
  wf_bytes s → parse_script s = Ok <$> ops → wf_op op → parse_script (s ++ serialize op) = Ok <$> (ops ++ [op]).
Proof.
  intros Hs Hp Hop. pose proof (wf_serialize op Hop) as Hw.
  apply parse_loop_exact in Hp as [Hops ->]; [|done|lia].
  apply parse_loop_exact; [by apply Forall_app|lia|]. rewrite Forall_app, Forall_singleton, fmap_app. split; [done|].
  rewrite join_app. cbn. by rewrite app_nil_r.
Qed.

(** The script of [b'] is the one of [b] followed by one push of [v]. *)
Definition appends_push (b b' : ScriptBuilder) (v : bytes) : Prop :=
  ∃ op, pushed_value op = Some v ∧ push_check op = Ok () ∧
    Zlength (script b') <= max_scripts_size (builder_covenants b) ∧ builder_covenants b' = builder_covenants b ∧
    wf_bytes (script b') ∧
    ∀ ops, parse_script (script b) = Ok <$> ops → parse_script (script b') = Ok <$> (ops ++ [op]).

Lemma max_element_u32 c : max_script_element_size c < 2 ^ 32.
Proof. by destruct c. Qed.

Lemma add_data_spec b d :
  wf_bytes (script b) → wf_bytes d → Zlength (script b) + canonical_data_size d < 2 ^ 64 →
  match add_data b d with
  | Ok b' => appends_push b b' d ∧ Zlength (script b') = Zlength (script b) + canonical_data_size d ∧
      Zlength d <= max_script_element_size (builder_covenants b)
  | Err _ => max_scripts_size (builder_covenants b) < Zlength (script b) + canonical_data_size d ∨
      max_script_element_size (builder_covenants b) < Zlength d
  | Panic => False
  end.
Proof.
  intros Hb Hd Hl. unfold add_data, validate_data_push.
  replace (add_u 64 (Zlength (script b)) (canonical_data_size d))
    with (Ok (E := ScriptBuilderError) (Zlength (script b) + canonical_data_size d))
    by (symmetry; apply add_u_ok; lia).
  cbn [mbind res_bind]. destruct (Z.ltb_spec (max_scripts_size (builder_covenants b)) (Zlength (script b) + canonical_data_size d)).
  { by left. }
  destruct (Z.ltb_spec (max_script_element_size (builder_covenants b)) (Zlength d)); cbn [mbind res_bind]; [by right|].
  pose proof (max_element_u32 (builder_covenants b)).
  destruct (canonical_op_spec b d Hd) as (Hw & Hv & -> & Hs & Hm); [lia|].
  assert (Zlength (script b ++ serialize (canonical_op d)) = Zlength (script b) + canonical_data_size d) as E
    by (rewrite Zlength_app; lia).
  split_and!; [|done|lia]. exists (canonical_op d). cbn [extend script builder_covenants].
  split_and!; [done|done|lia|done| |].
  - apply Forall_app. split; [done|]. by apply wf_serialize.
  - intros ops Hp. by apply parse_extend.
Qed.

Lemma small_op_push b c v :
  wf_bytes (script b) → Zlength (script b) + 1 <= max_scripts_size (builder_covenants b) →
  c = 0 ∨ codes.Op1Negate <= c <= codes.Op16 → pushed_value (mk_op c []) = Some v → appends_push b (extend b [c]) v.
Proof.
  unfold codes.Op1Negate, codes.Op16. intros Hb Hl Hc Hv. exists (mk_op c []). cbn [extend script builder_covenants].
  assert (is_u8 c) as Hu by (unfold is_uint; lia).
  assert (serialize (mk_op c []) = [c] ∧ wf_op (mk_op c [])) as [Es Hw].
  { unfold serialize, wf_op, data_fits. cbn [code data].
    assert (op_length c = FixedLen 1) as ->; [|split_and!; done || by apply Forall_nil].
    unfold op_length, codes.OpData1, codes.OpData75, codes.OpPushData1, codes.OpPushData2, codes.OpPushData4.
    destruct Hc as [->|Hc]; [done|]. rewrite (proj2 (Z.leb_gt c 75)), andb_false_r by lia.
    by rewrite !(proj2 (Z.eqb_neq _ _)) by lia. }
  split_and!; [done| |rewrite Zlength_snoc; lia|done| |].
  - unfold push_check, codes.OpPushData4. cbn [code]. destruct Hc as [->|Hc]; [done|].
    by rewrite (proj2 (Z.leb_gt c 78)), andb_false_r by lia.
  - apply Forall_app. split; [done|]. by apply Forall_singleton.
  - intros ops Hp. rewrite <- Es. by apply parse_extend.
Qed.

Lemma add_i64_small b n :
  wf_bytes (script b) → Zlength (script b) + 1 <= max_scripts_size (builder_covenants b) → -1 <= n <= 16 →
  ∃ b' v, add_i64 b n = Ok b' ∧ appends_push b b' v ∧ deserialize_as_i64 v true = Ok n.
Proof.
  intros Hb Hl Hn. pose proof (Zlength_ge0 (script b)).
  assert (max_scripts_size (builder_covenants b) < 2 ^ 32) by (by destruct (builder_covenants b)).
  unfold add_i64. replace (add_u 64 (Zlength (script b)) 1) with (Ok (E := ScriptBuilderError) (Zlength (script b) + 1))
    by (symmetry; apply add_u_ok; lia).
  cbn [mbind res_bind]. rewrite (proj2 (Z.ltb_ge _ _)) by lia.
  assert (n ∈ [-1;0;1;2;3;4;5;6;7;8;9;10;11;12;13;14;15;16]) as Hx by (rewrite !elem_of_cons; lia). clear Hn.
  repeat (apply elem_of_cons in Hx as [->|Hx];
    [eexists _, _; split; [done|]; split; [apply small_op_push; [done|done|solve [left; reflexivity|right; split; vm_compute; discriminate]|reflexivity]|reflexivity]|]).
  by apply not_elem_of_nil in Hx.
Qed.

Lemma add_i64_spec b n :
  wf_bytes (script b) → is_int 64 n → Zlength (script b) < 2 ^ 63 →
  match add_i64 b n with
  | Ok b' => ∃ v, appends_push b b' v ∧ deserialize_as_i64 v true = Ok n
  | Err e => n = - 2 ^ 63 ∨ max_scripts_size (builder_covenants b) < Zlength (script b) + 9
  | Panic => False
  end.
Proof.
  intros Hb Hn Hl.
  assert (max_scripts_size (builder_covenants b) < 2 ^ 32 ∧ 8 < max_script_element_size (builder_covenants b)) as [Hm He]
    by (by destruct (builder_covenants b)).
  destruct (decide (max_scripts_size (builder_covenants b) < Zlength (script b) + 1)) as [Hx|Hx].
  { unfold add_i64. replace (add_u 64 (Zlength (script b)) 1) with (Ok (E := ScriptBuilderError) (Zlength (script b) + 1))
      by (symmetry; apply add_u_ok; lia).
    cbn [mbind res_bind]. rewrite (proj2 (Z.ltb_lt _ _)) by lia. right. lia. }
  destruct (decide (-1 <= n <= 16)) as [Hs|Hs].
  { destruct (add_i64_small b n) as (b' & v & -> & ? & ?); [done|lia|done|]. eauto. }
  unfold add_i64. replace (add_u 64 (Zlength (script b)) 1) with (Ok (E := ScriptBuilderError) (Zlength (script b) + 1))
    by (symmetry; apply add_u_ok; lia).
  cbn [mbind res_bind]. rewrite (proj2 (Z.ltb_ge _ _)) by lia.
  destruct (Z.eqb_spec n 0); [lia|]. destruct (Z.eqb_spec n (-1)); [lia|].
  destruct (Z.leb_spec 1 n), (Z.leb_spec n 16); cbn [orb andb]; try lia.
  all: destruct (decide (n = - 2 ^ 63)) as [->|Hne]; [try lia; by left|].
  all: destruct (serialize_as_i64_ok n Hn Hne) as (v & -> & Hw & Hvl & Hv & Ht); cbn [map_err mbind res_bind].
  all: assert (canonical_data_size v <= 9) as Hcs by
    (unfold canonical_data_size, explicit_push_encoded_size; destruct (_ || _); [lia|];
     rewrite (proj2 (Z.leb_le _ _)) by (unfold OP_DATA_MAX_VAL, codes.OpData75; lia); lia).
  all: pose proof (add_data_spec b v Hb Hw ltac:(lia)) as Hd.
  all: destruct (add_data b v); [|right; destruct Hd; lia|done].
  all: exists v; split; [by destruct Hd|].
  all: unfold deserialize_as_i64, deserialize_sized; rewrite (proj2 (Z.ltb_ge _ _)) by lia; by apply deserialize_minimal.
Qed.

(** What the builder appends is what the parser reads: adding data to a
    script fails only beyond a size limit, and otherwise appends exactly the
    announced number of bytes, which parse as one push of that data that passes
    the engine's minimality check; adding an integer fails only for the minimum
    or beyond the size limit, and otherwise appends one such push whose value
    decodes to the integer under the minimality check. *)
Theorem builder_push_exact (b : ScriptBuilder) :
  wf_bytes (script b) → Zlength (script b) < 2 ^ 63 →
  (∀ d, wf_bytes d → Zlength d < 2 ^ 62 →
    match add_data b d with
    | Ok b' => appends_push b b' d ∧ Zlength (script b') = Zlength (script b) + canonical_data_size d ∧
        Zlength d <= max_script_element_size (builder_covenants b)
    | Err _ => max_scripts_size (builder_covenants b) < Zlength (script b) + canonical_data_size d ∨
        max_script_element_size (builder_covenants b) < Zlength d
    | Panic => False
    end) ∧
  (∀ n, is_int 64 n →
    match add_i64 b n with
    | Ok b' => ∃ v, appends_push b b' v ∧ deserialize_as_i64 v true = Ok n
    | Err _ => n = - 2 ^ 63 ∨ max_scripts_size (builder_covenants b) < Zlength (script b) + 9
    | Panic => False
    end).
Proof.
  intros Hb Hl. split; [|intros n Hn; by apply add_i64_spec]. intros d Hd Hdl. apply add_data_spec; [done|done|].
  pose proof (Zlength_ge0 d). unfold canonical_data_size, explicit_push_encoded_size. repeat case_match; lia.
Qed.

Lemma builder_push_exact_witness :
  ∃ b', add_data (mk_builder [118; 170] false) [7; 8; 9] = Ok b' ∧ script b' = [118; 170; 3; 7; 8; 9] ∧
    parse_script (script b') = Ok <$> [mk_op 118 []; mk_op 170 []; mk_op 3 [7; 8; 9]].
Proof.
  destruct (builder_push_exact (mk_builder [118; 170] false) ltac:(decide_by_eval) ltac:(done)) as [H _].
  specialize (H [7; 8; 9] ltac:(decide_by_eval) ltac:(done)). eexists. split; [reflexivity|]. split; [done|].
  destruct H as [(op & Hv & _ & _ & _ & _ & Hp) _]. rewrite (Hp [mk_op 118 []; mk_op 170 []] eq_refl).
  specialize (Hp [mk_op 118 []; mk_op 170 []] eq_refl). vm_compute in Hp. by simplify_eq.
Defined.
