(* ===== verification/IndexMap.v ===== *)
(** Index maps: associative lists in insertion order.

    The operations of the [indexmap] crate that the caches use, as documented: an
    insertion keeps the position of an existing key and otherwise appends, and a
    removal moves the last entry into the place of the removed one.

    The lemmas describe each operation up to the order of the entries, and as an
    update of the finite map of the entries. *)
From stdpp Require Import base gmap list.
From S2P Require Import Prelude.

Section index_map.
Context {K V : Type} `{EqDecision K}.
Implicit Types (k : K) (v : V) (l : list (K * V)).

Fixpoint assoc_get k l : option V :=
  match l with [] => None | (k', v) :: l => if decide (k = k') then Some v else assoc_get k l end.
Fixpoint assoc_insert k v l : list (K * V) :=
  match l with
  | [] => [(k, v)]
  | (k', v') :: l => if decide (k = k') then (k, v) :: l else (k', v') :: assoc_insert k v l
  end.
(** [IndexMap::swap_remove_index] *)
Definition swap_remove_index (i : nat) l : list (K * V) :=
  match last l with
  | None => l
  | Some x => let l' := take (length l - 1) l in if decide (i = length l - 1)%nat then l' else <[i := x]> l'
  end.
Fixpoint assoc_index k l : option nat :=
  match l with [] => None | (k', _) :: l => if decide (k = k') then Some O else S <$> assoc_index k l end.
(** [IndexMap::swap_remove] *)
Definition assoc_swap_remove k l : option V * list (K * V) :=
  match assoc_index k l with
  | None => (None, l)
  | Some i => (snd <$> l !! i, swap_remove_index i l)
  end.

Lemma assoc_get_in k l v : assoc_get k l = Some v → (k, v) ∈ l.
Proof.
  induction l as [|[k' v'] l IH]; cbn; [done|]. case_decide as Hk; [intros [= <-]; subst; apply list_elem_of_here|].
  intros H. apply list_elem_of_further. by apply IH.
Qed.
Lemma assoc_get_elem k l v : NoDup l.*1 → (k, v) ∈ l → assoc_get k l = Some v.
Proof.
  induction l as [|[k' v'] l IH]; cbn; [by intros _ ?%elem_of_nil|]. rewrite NoDup_cons. intros [Hk Hd] [E|H]%elem_of_cons.
  - injection E as -> ->. by rewrite decide_True.
  - rewrite decide_False; [by apply IH|]. intros ->. apply Hk. apply list_elem_of_fmap. by exists (k', v).
Qed.
Lemma assoc_get_perm k l l' : NoDup l.*1 → l' ≡ₚ l → assoc_get k l' = assoc_get k l.
Proof.
  intros Hd Hp. assert (NoDup l'.*1) as Hd' by by rewrite Hp. apply option_eq. intros v.
  split; intros Hg%assoc_get_in; (apply assoc_get_elem; [done|]); [by rewrite <- Hp|by rewrite Hp].
Qed.
Lemma assoc_get_None k l : assoc_get k l = None ↔ k ∉ l.*1.
Proof.
  induction l as [|[k' v'] l IH]; cbn; [split; [intros _; apply not_elem_of_nil|done]|]. rewrite not_elem_of_cons.
  case_decide; [naive_solver|]. rewrite IH. naive_solver.
Qed.
Lemma assoc_get_insert k k' v l : assoc_get k' (assoc_insert k v l) = if decide (k' = k) then Some v else assoc_get k' l.
Proof.
  induction l as [|[k0 v0] l IH]; cbn; [done|]. destruct (decide (k = k0)) as [->|]; cbn; [by destruct (decide (k' = k0))|].
  rewrite IH. destruct (decide (k' = k0)) as [->|]; [|done]. by rewrite decide_False.
Qed.

(** [sub l' l]: the entries of [l'] are entries of [l]. *)
Definition sub (l' l : list (K * V)) : Prop := ∃ e, l ≡ₚ e ++ l'.
Lemma sub_refl l : sub l l.
Proof. by exists []. Qed.
Lemma sub_trans l1 l2 l3 : sub l1 l2 → sub l2 l3 → sub l1 l3.
Proof. intros [e1 H1] [e2 H2]. exists (e2 ++ e1). by rewrite H2, H1, app_assoc. Qed.
Lemma sub_keys l' l : sub l' l → NoDup l.*1 → NoDup l'.*1.
Proof. intros [e ->]. rewrite fmap_app, NoDup_app. tauto. Qed.
Lemma sub_get l' l k v : sub l' l → NoDup l.*1 → assoc_get k l' = Some v → assoc_get k l = Some v.
Proof.
  intros [e He] Hd Hg. apply assoc_get_elem; [done|]. rewrite He. apply elem_of_app. right. by apply assoc_get_in.
Qed.

(** Removal, up to order. *)
Lemma swap_remove_perm i l x : l !! i = Some x → x :: swap_remove_index i l ≡ₚ l.
Proof.
  intros Hi. unfold swap_remove_index. destruct l as [|y l] using rev_ind; [done|clear IHl].
  rewrite last_snoc, length_app, Nat.add_sub, take_app_length.
  case_decide as Hl.
  - subst i. rewrite lookup_app_r, Nat.sub_diag in Hi by lia. cbn in Hi. injection Hi as ->. by rewrite Permutation_app_comm.
  - pose proof (lookup_lt_Some _ _ _ Hi) as Hlt. rewrite length_app in Hlt. cbn in Hlt.
    rewrite lookup_app_l in Hi by lia.
    rewrite (insert_take_drop l i y) by lia. rewrite <- (take_drop_middle l i x Hi) at 3.
    rewrite <- app_assoc. cbn. rewrite Permutation_middle. apply Permutation_app_head.
    apply perm_skip. by rewrite <- Permutation_cons_append.
Qed.
Lemma swap_remove_sub i l : sub (swap_remove_index i l) l.
Proof.
  destruct (l !! i) as [x|] eqn:Hi; [exists [x]; symmetry; by apply swap_remove_perm|].
  unfold swap_remove_index. destruct l as [|y l] using rev_ind; [by exists []|clear IHl].
  apply lookup_ge_None in Hi. rewrite length_app in Hi. cbn in Hi.
  rewrite last_snoc, length_app, Nat.add_sub, take_app_length. rewrite decide_False by (cbn; lia).
  rewrite list_insert_ge by (cbn; lia). exists [y]. by rewrite Permutation_app_comm.
Qed.
Lemma assoc_index_lookup k l i : assoc_index k l = Some i → ∃ v, l !! i = Some (k, v) ∧ assoc_get k l = Some v.
Proof.
  revert i. induction l as [|[k' v'] l IH]; intros i; cbn; [done|]. case_decide as Hk; [intros [= <-]; subst; by exists v'|].
  destruct (assoc_index k l) as [j|]; [|done]. intros [= <-]. by apply IH.
Qed.
Lemma assoc_index_None k l : assoc_index k l = None → assoc_get k l = None.
Proof.
  induction l as [|[k' v'] l IH]; cbn; [done|]. case_decide; [done|]. destruct (assoc_index k l); [done|]. intros _. by apply IH.
Qed.

(** Insertion, up to order. *)
Lemma assoc_insert_perm k v l :
  match assoc_get k l with
  | None => assoc_insert k v l ≡ₚ (k, v) :: l
  | Some v' => ∃ l', l ≡ₚ (k, v') :: l' ∧ assoc_insert k v l ≡ₚ (k, v) :: l'
  end.
Proof.
  induction l as [|[k' v'] l IH]; cbn; [done|]. case_decide as Hk; [subst; by exists l|].
  destruct (assoc_get k l) as [v0|].
  - destruct IH as (l' & H1 & H2). exists ((k', v') :: l').
    split; [rewrite H1|rewrite H2]; apply perm_swap.
  - rewrite IH. apply perm_swap.
Qed.
Lemma assoc_insert_Forall (P : K * V → Prop) k v l : Forall P l → P (k, v) → Forall P (assoc_insert k v l).
Proof.
  intros Hl Hp. pose proof (assoc_insert_perm k v l) as H. destruct (assoc_get k l) as [v'|].
  - destruct H as (l' & H1 & H2). rewrite H1 in Hl. rewrite H2. apply Forall_cons in Hl as [_ ?]. by constructor.
  - rewrite H. by constructor.
Qed.
Lemma swap_remove_Forall (P : K * V → Prop) i l : Forall P l → Forall P (swap_remove_index i l).
Proof. intros Hl. destruct (swap_remove_sub i l) as [e He]. rewrite He in Hl. by apply Forall_app in Hl as [_ ?]. Qed.
Lemma swap_remove_length i l : l ≠ [] → Zlength (swap_remove_index i l) = Zlength l - 1.
Proof.
  intros Hl. unfold swap_remove_index, Zlength. destruct l as [|y l] using rev_ind; [done|clear IHl].
  rewrite last_snoc, length_app, Nat.add_sub, take_app_length. case_decide; rewrite ?length_insert; cbn; lia.
Qed.
Lemma assoc_insert_length k v l : Zlength l <= Zlength (assoc_insert k v l) <= Zlength l + 1.
Proof.
  pose proof (assoc_insert_perm k v l) as H. unfold Zlength. destruct (assoc_get k l) as [v'|].
  - destruct H as (l' & H1 & H2). rewrite H2. apply Permutation_length in H1. cbn in *. lia.
  - rewrite H. cbn. lia.
Qed.
Lemma assoc_insert_keys k v l : NoDup l.*1 → NoDup (assoc_insert k v l).*1.
Proof.
  intros Hd. pose proof (assoc_insert_perm k v l) as H. destruct (assoc_get k l) as [v'|] eqn:E.
  - destruct H as (l' & H1 & H2). rewrite H1 in Hd. rewrite H2. done.
  - rewrite H. cbn. apply NoDup_cons. split; [|done]. by apply assoc_get_None.
Qed.
End index_map.
