(* ===== verification/DbCache.v ===== *)
(** The cache of the database layer.

    database/src/cache.rs: an index map bounded by the number of its items or by
    their tracked size, with eviction of random entries.  [estimate_size] is the
    [MemSizeEstimator] of the cached data; the generator is the list of its future
    draws.  Every operation returns the new cache.

    The theorem shows that over any sequence of operations a cache never panics, its
    eviction loop ends, the tracked size is exact and within its limit, a lookup
    returns only what a store without evictions would hold, and everything that
    store holds as long as it stays within the limits. *)
From stdpp Require Import base gmap list.
From S2P Require Import Prelude IndexMap.

Module Db.

Inductive CachePolicy :=
  | Empty
  | Count (max_size : Z)
  | Tracked (max_size min_items : Z).

Record CachePolicyInner := mk_policy { tracked : bool; max_size : Z; min_items : Z }.
Definition policy_from (p : CachePolicy) : CachePolicyInner :=
  match p with
  | Empty => mk_policy false 0 0
  | Count max_size => mk_policy false max_size 0
  | Tracked max_size min_items => mk_policy true max_size min_items
  end.

Section cache.
Context {K V : Type} `{Countable K} (estimate_size : V → Z).

Record Inner := mk_inner { map : list (K * V); tracked_size : Z; draws : list Z }.
Record Cache := mk_cache { cache_inner : Inner; policy : CachePolicyInner }.

(** [rand::thread_rng().gen_range(0..n)]: panics on an empty range. *)
Definition gen_range (n : Z) (i : Inner) : exec (Z * Inner) :=
  if n <=? 0 then Panic else Ok (default 0 (head (draws i)) mod n, mk_inner (map i) (tracked_size i) (tail (draws i))).

(** The eviction loop, with fuel for its iterations; running out is a panic. *)
Fixpoint evict_loop (fuel : nat) (p : CachePolicyInner) (i : Inner) : exec Inner :=
  if (max_size p <? tracked_size i) && (min_items p <? Zlength (map i)) then
    match fuel with
    | O => Panic
    | S fuel =>
        '(r, i) ← gen_range (Zlength (map i)) i;
        let removed := map i !! Z.to_nat r in
        let l := swap_remove_index (Z.to_nat r) (map i) in
        size ← match removed with Some (_, v) => sub_u (tracked_size i) (estimate_size v) | None => Ok (tracked_size i) end;
        evict_loop fuel p (mk_inner l size (draws i))
    end
  else Ok i.
(** Every iteration removes an entry, so the number of entries is fuel enough. *)
Definition tracked_evict (p : CachePolicyInner) (i : Inner) : exec Inner := evict_loop (length (map i)) p i.

Definition inner_insert (p : CachePolicyInner) (key : K) (data : V) (i : Inner) : exec Inner :=
  if tracked p then
    size ← add_u 64 (tracked_size i) (estimate_size data);
    size ← match assoc_get key (map i) with Some removed => sub_u size (estimate_size removed) | None => Ok size end;
    tracked_evict p (mk_inner (assoc_insert key data (map i)) size (draws i))
  else
    i ← (if Zlength (map i) =? max_size p then
           '(r, i) ← gen_range (max_size p) i;
           Ok (mk_inner (swap_remove_index (Z.to_nat r) (map i)) (tracked_size i) (draws i))
         else Ok i);
    Ok (mk_inner (assoc_insert key data (map i)) (tracked_size i) (draws i)).

Definition inner_update_if_entry_exists (p : CachePolicyInner) (key : K) (op : V → V) (i : Inner) : exec Inner :=
  match assoc_get key (map i) with
  | None => Ok i
  | Some data =>
      let l := assoc_insert key (op data) (map i) in
      if tracked p then
        size ← sub_u (tracked_size i) (estimate_size data);
        size ← add_u 64 size (estimate_size (op data));
        tracked_evict p (mk_inner l size (draws i))
      else Ok (mk_inner l (tracked_size i) (draws i))
  end.

Definition inner_remove (p : CachePolicyInner) (key : K) (i : Inner) : exec (option V * Inner) :=
  match assoc_swap_remove key (map i) with
  | (Some data, l) =>
      size ← (if tracked p then sub_u (tracked_size i) (estimate_size data) else Ok (tracked_size i));
      Ok (Some data, mk_inner l size (draws i))
  | (None, _) => Ok (None, i)
  end.

Definition cache_new (p : CachePolicy) (ds : list Z) : Cache := mk_cache (mk_inner [] 0 ds) (policy_from p).
Definition with_inner (c : Cache) (i : Inner) : Cache := mk_cache i (policy c).
Definition get (c : Cache) (key : K) : option V := assoc_get key (map (cache_inner c)).
Definition contains_key (c : Cache) (key : K) : bool := bool_decide (is_Some (get c key)).

Definition insert (c : Cache) (key : K) (data : V) : exec Cache :=
  if max_size (policy c) =? 0 then Ok c
  else i ← inner_insert (policy c) key data (cache_inner c); Ok (with_inner c i).
Definition insert_many (c : Cache) (l : list (K * V)) : exec Cache :=
  if max_size (policy c) =? 0 then Ok c
  else i ← res_foldl (λ i '(key, data), inner_insert (policy c) key data i) (cache_inner c) l; Ok (with_inner c i).
Definition update_if_entry_exists (c : Cache) (key : K) (op : V → V) : exec Cache :=
  if max_size (policy c) =? 0 then Ok c
  else i ← inner_update_if_entry_exists (policy c) key op (cache_inner c); Ok (with_inner c i).
Definition remove (c : Cache) (key : K) : exec (option V * Cache) :=
  if max_size (policy c) =? 0 then Ok (None, c)
  else '(v, i) ← inner_remove (policy c) key (cache_inner c); Ok (v, with_inner c i).
Definition remove_many (c : Cache) (l : list K) : exec Cache :=
  if max_size (policy c) =? 0 then Ok c
  else i ← res_foldl (λ i key, '(_, i) ← inner_remove (policy c) key i; Ok i) (cache_inner c) l; Ok (with_inner c i).
Definition remove_all (c : Cache) : Cache :=
  if max_size (policy c) =? 0 then c
  else with_inner c (mk_inner [] (if tracked (policy c) then 0 else tracked_size (cache_inner c)) (draws (cache_inner c))).
End cache.

(** ** Invariant *)

Section invariant.
Context {K V : Type} `{Countable K} (estimate_size : V → Z) (B : Z).
Context (Hsize : ∀ v, 0 <= estimate_size v <= B).
Implicit Types (i : Inner (K := K) (V := V)) (p : CachePolicyInner).

Definition total_size (l : list (K * V)) : Z := sum_list_Z (estimate_size <$> l.*2).
(** The limits leave room for one more item. *)
Definition policy_ok p : Prop := 0 <= max_size p ∧ 0 <= min_items p ∧ max_size p + B < 2 ^ 64 ∧ (min_items p + 1) * B < 2 ^ 64.
Definition inner_ok p i : Prop :=
  NoDup (map i).*1 ∧
  if tracked p then tracked_size i = total_size (map i) ∧ (tracked_size i <= max_size p ∨ Zlength (map i) <= min_items p)
  else Zlength (map i) <= max_size p.

Lemma total_size_perm l l' : l ≡ₚ l' → total_size l = total_size l'.
Proof. unfold total_size. induction 1; cbn in *; lia. Qed.
Lemma total_size_nonneg l : 0 <= total_size l.
Proof. apply sum_list_Z_nonneg, Forall_fmap, Forall_true. intros x. apply Hsize. Qed.
Lemma total_size_length l : total_size l <= Zlength l * B.
Proof.
  unfold total_size, Zlength. induction l as [|[k v] l IH]; cbn [length fmap list_fmap sum_list_Z fst snd]; [lia|].
  pose proof (Hsize v). cbn in *. nia.
Qed.
Lemma total_size_insert k v l :
  total_size (assoc_insert k v l) =
    total_size l + estimate_size v - match assoc_get k l with Some v' => estimate_size v' | None => 0 end.
Proof.
  pose proof (assoc_insert_perm k v l) as Hp. destruct (assoc_get k l) as [v'|].
  - destruct Hp as (l' & H1 & H2). rewrite (total_size_perm _ _ H1), (total_size_perm _ _ H2). unfold total_size. cbn. lia.
  - rewrite (total_size_perm _ _ Hp). unfold total_size. cbn. lia.
Qed.

Lemma total_size_get k v l : assoc_get k l = Some v → estimate_size v <= total_size l.
Proof.
  intros Hg. pose proof (assoc_insert_perm k v l) as Hp. rewrite Hg in Hp. destruct Hp as (l' & H1 & _).
  rewrite (total_size_perm _ _ H1). pose proof (total_size_nonneg l'). unfold total_size in *. cbn. lia.
Qed.

(** The eviction loop ends, within its fuel, with a part of the entries that meets
    the limits. *)
Lemma evict_ok p fuel i :
  0 <= min_items p → (length (map i) <= fuel)%nat → tracked_size i = total_size (map i) →
  ∃ i', evict_loop estimate_size fuel p i = Ok i' ∧ sub (map i') (map i) ∧ tracked_size i' = total_size (map i') ∧
    (tracked_size i' <= max_size p ∨ Zlength (map i') <= min_items p).
Proof.
  intros Hmin. revert i. induction fuel as [|fuel IH]; intros i Hf Ht; cbn [evict_loop];
    destruct (Z.ltb_spec (max_size p) (tracked_size i)), (Z.ltb_spec (min_items p) (Zlength (map i))); cbn [andb];
    try (exists i; split_and!; [done|apply sub_refl|done|lia]).
  - exfalso. unfold Zlength in *. lia.
  - unfold gen_range. rewrite (proj2 (Z.leb_gt _ _)) by lia. cbn [mbind res_bind map tracked_size draws].
    set (r := Z.to_nat _). assert (r < length (map i))%nat as Hr.
    { unfold r, Zlength in *. pose proof (Z.mod_pos_bound (default 0 (head (draws i))) (Z.of_nat (length (map i)))). lia. }
    destruct (lookup_lt_is_Some_2 _ _ Hr) as [[k v] Hv]. rewrite Hv.
    pose proof (swap_remove_perm _ _ _ Hv) as Hp. pose proof (total_size_perm _ _ Hp) as Hs. unfold total_size at 1 in Hs. cbn in Hs.
    pose proof (total_size_nonneg (swap_remove_index r (map i))) as Hnn. unfold total_size in Hnn at 1.
    replace (sub_u (tracked_size i) (estimate_size v)) with (Ok (E := Empty_set) (tracked_size i - estimate_size v))
      by (symmetry; apply sub_u_ok; cbn in *; lia).
    cbn [mbind res_bind]. destruct (IH (mk_inner (swap_remove_index r (map i)) (tracked_size i - estimate_size v) (tail (draws i))))
      as (i' & He & Hsub & Ht' & Hl'); cbn [map tracked_size].
    + apply Permutation_length in Hp. cbn in Hp. lia.
    + unfold total_size in *. cbn in *. lia.
    + exists i'. split_and!; [done| |done|done]. eapply sub_trans; [exact Hsub|]. apply swap_remove_sub.
Qed.
Lemma evict_idle p fuel i : tracked_size i <= max_size p ∨ Zlength (map i) <= min_items p → evict_loop estimate_size fuel p i = Ok i.
Proof.
  intros Hl. destruct fuel; cbn [evict_loop]; destruct (Z.ltb_spec (max_size p) (tracked_size i)), (Z.ltb_spec (min_items p) (Zlength (map i))); cbn [andb]; try done; lia.
Qed.
(** Nothing has to be evicted from [l]. *)
Definition within p (l : list (K * V)) : Prop := total_size l <= max_size p ∨ Zlength l <= min_items p.
(** Lookups return only what the store holds. *)
Definition refines i (s : gmap K V) : Prop := ∀ k v, assoc_get k (map i) = Some v → s !! k = Some v.
Definition good p i s : Prop := inner_ok p i ∧ refines i s.

Lemma evict_good p i s :
  policy_ok p → tracked p = true → NoDup (map i).*1 → tracked_size i = total_size (map i) → refines i s →
  ∃ i', tracked_evict estimate_size p i = Ok i' ∧ good p i' s ∧ (within p (map i) → map i' = map i).
Proof.
  intros (_ & Hmin & _) Htr Hd Ht Hs. destruct (evict_ok p (length (map i)) i Hmin ltac:(lia) Ht) as (i' & He & Hsub & Ht' & Hl).
  exists i'. split; [done|]. split; [split|].
  - split; [by eapply sub_keys|]. by rewrite Htr.
  - intros k v Hg. apply Hs. by eapply sub_get.
  - intros Hw. unfold within in Hw. rewrite <- Ht in Hw. rewrite (evict_idle _ _ _ Hw) in He. by simplify_eq.
Qed.
Lemma tracked_room p i : policy_ok p → inner_ok p i → tracked p = true → total_size (map i) + B < 2 ^ 64.
Proof.
  intros (Hm & Hmin & H1 & H2) [_ Hi] Htr. rewrite Htr in Hi. destruct Hi as [Ht [?|Hl]]; [lia|].
  pose proof (total_size_length (map i)). assert (0 <= Zlength (map i)) by (unfold Zlength; lia).
  destruct (Z.lt_ge_cases B 0); nia.
Qed.
Lemma refines_insert i s k v l t d : refines i s → l = assoc_insert k v (map i) → refines (mk_inner l t d) (<[k:=v]> s).
Proof.
  intros Hr -> k' v'. cbn [map]. rewrite assoc_get_insert. case_decide as Hk; [intros [= <-]; subst; by rewrite lookup_insert_eq|].
  intros Hg. rewrite lookup_insert_ne by done. by apply Hr.
Qed.

Lemma inner_insert_good p k v i s :
  policy_ok p → max_size p ≠ 0 → good p i s → ∃ i', inner_insert estimate_size p k v i = Ok i' ∧ good p i' (<[k:=v]> s) ∧
    (tracked p = false → assoc_get k (map i') = Some v) ∧
    ((if tracked p then within p (assoc_insert k v (map i)) else Zlength (map i) < max_size p) → map i' = assoc_insert k v (map i)).
Proof.
  intros Hp Hm [Hi Hs]. unfold inner_insert. destruct (tracked p) eqn:Htr.
  - pose proof (tracked_room _ _ Hp Hi Htr) as Hroom. pose proof (total_size_insert k v (map i)) as Hins.
    pose proof (total_size_nonneg (assoc_insert k v (map i))). destruct Hi as [Hd Hi]. rewrite Htr in Hi. destruct Hi as [Ht _].
    pose proof (Hsize v). rewrite (proj2 (add_u_ok 64 _ _ (tracked_size i + estimate_size v))) by lia. cbn [mbind res_bind].
    assert (∃ size, match assoc_get k (map i) with Some removed => sub_u (tracked_size i + estimate_size v) (estimate_size removed)
        | None => Ok (tracked_size i + estimate_size v) end = Ok (E := Empty_set) size ∧ size = total_size (assoc_insert k v (map i)))
      as (size & -> & Hsz).
    { destruct (assoc_get k (map i)) as [v'|]; [|eexists; split; [done|lia]].
      eexists. split; [apply sub_u_ok; split; [done|lia]|lia]. }
    cbn [mbind res_bind]. edestruct evict_good as (i' & -> & Hg & Hw); cycle 5; [exists i'; split_and!; [done|exact Hg|done|exact Hw]|..]; cbn [map tracked_size];
      [done|done|by apply assoc_insert_keys|done|]. by apply (refines_insert i).
  - destruct Hi as [Hd Hi]. rewrite Htr in Hi. destruct (Z.eqb_spec (Zlength (map i)) (max_size p)) as [Hfull|Hfree].
    + unfold gen_range. destruct Hp as [? _]. rewrite (proj2 (Z.leb_gt _ _)) by lia. cbn [mbind res_bind map tracked_size draws].
      set (l := swap_remove_index _ _). assert (sub l (map i)) as Hsub by apply swap_remove_sub.
      eexists. split; [done|]. split; [split; [split|]; cbn [map]|split; [intros _; cbn [map]; by rewrite assoc_get_insert, decide_True|lia]].
      * apply assoc_insert_keys. by eapply sub_keys.
      * rewrite Htr. pose proof (assoc_insert_length k v l). assert (Zlength l = Zlength (map i) - 1); [|lia].
        apply swap_remove_length. intros E. rewrite E in Hfull. unfold Zlength in Hfull. cbn in Hfull. lia.
      * apply (refines_insert (mk_inner l 0 [])); [|done]. intros k' v' Hg. apply Hs. by eapply sub_get.
    + cbn [mbind res_bind]. eexists. split; [done|]. split; [|split; [intros _; cbn [map]; by rewrite assoc_get_insert, decide_True|done]].
      split; [split; cbn [map]; [by apply assoc_insert_keys|]|by apply (refines_insert i)].
      rewrite Htr. pose proof (assoc_insert_length k v (map i)). lia.
Qed.

Lemma inner_update_good p k op i s :
  policy_ok p → good p i s → ∃ i', inner_update_if_entry_exists estimate_size p k op i = Ok i' ∧ good p i' (alter op k s) ∧
    match assoc_get k (map i) with
    | Some v => (tracked p = true → within p (assoc_insert k (op v) (map i))) → map i' = assoc_insert k (op v) (map i)
    | None => map i' = map i
    end.
Proof.
  intros Hp [Hi Hs]. unfold inner_update_if_entry_exists. destruct (assoc_get k (map i)) as [v|] eqn:Eg.
  - assert (s !! k = Some v) as Hk by by apply Hs. assert (alter op k s = <[k := op v]> s) as ->.
    { apply map_eq. intros k'. destruct (decide (k' = k)) as [->|]; [by rewrite lookup_alter_eq, Hk, lookup_insert_eq|].
      by rewrite lookup_alter_ne, lookup_insert_ne. }
    pose proof (total_size_insert k (op v) (map i)) as Hins. rewrite Eg in Hins.
    pose proof (total_size_nonneg (assoc_insert k (op v) (map i))). pose proof (Hsize (op v)). pose proof (Hsize v).
    destruct (tracked p) eqn:Htr.
    + pose proof (tracked_room _ _ Hp Hi Htr) as Hroom. destruct Hi as [Hd Hi]. rewrite Htr in Hi. destruct Hi as [Ht _].
      pose proof (total_size_get _ _ _ Eg).
      rewrite (proj2 (sub_u_ok _ _ (tracked_size i - estimate_size v))) by lia. cbn [mbind res_bind].
      rewrite (proj2 (add_u_ok 64 _ _ (tracked_size i - estimate_size v + estimate_size (op v)))) by lia. cbn [mbind res_bind].
      edestruct evict_good as (i' & -> & Hg & Hw); cycle 5; [exists i'; split_and!; [done|exact Hg|intros Hw'; by apply Hw, Hw']|..]; cbn [map tracked_size];
        [done|done|by apply assoc_insert_keys|lia|]. by apply (refines_insert i).
    + destruct Hi as [Hd Hi]. rewrite Htr in Hi. eexists. split; [done|]. split; [|done]. split; [split; cbn [map]; [by apply assoc_insert_keys|]|by apply (refines_insert i)].
      rewrite Htr. pose proof (assoc_insert_perm k (op v) (map i)) as Hpm. rewrite Eg in Hpm. destruct Hpm as (l' & Hl & Hl').
      unfold Zlength in *. rewrite Hl'. rewrite Hl in Hi. exact Hi.
  - exists i. split; [done|]. split; [|done]. split; [done|]. intros k' v' Hg. destruct (decide (k' = k)) as [->|]; [by rewrite Eg in Hg|].
    rewrite lookup_alter_ne by done. by apply Hs.
Qed.
Lemma inner_remove_good p k i s :
  good p i s → ∃ i', inner_remove estimate_size p k i = Ok (assoc_get k (map i), i') ∧ good p i' (delete k s) ∧
    ∀ k', assoc_get k' (map i') = if decide (k' = k) then None else assoc_get k' (map i).
Proof.
  intros [Hi Hs]. unfold inner_remove, assoc_swap_remove. destruct (assoc_index k (map i)) as [j|] eqn:Ej.
  - destruct (assoc_index_lookup _ _ _ Ej) as (v & Hj & Hg). rewrite Hj, Hg. cbn [fmap option_fmap option_map snd].
    pose proof (swap_remove_perm _ _ _ Hj) as Hperm. pose proof (total_size_perm _ _ Hperm) as Hts.
    pose proof (total_size_nonneg (swap_remove_index j (map i))) as Hnn. destruct Hi as [Hd Hi].
    assert (∃ size, (if tracked p then sub_u (tracked_size i) (estimate_size v) else Ok (tracked_size i)) = Ok (E := Empty_set) size ∧
      (tracked p = true → size = total_size (swap_remove_index j (map i)) ∧ size <= tracked_size i)) as (size & -> & Hsize').
    { pose proof (Hsize v). unfold total_size in Hts at 1. cbn in Hts. fold (total_size (swap_remove_index j (map i))) in Hts.
      destruct (tracked p); [|by eexists]. exists (tracked_size i - estimate_size v).
      split; [apply sub_u_ok|intros _]; unfold total_size in *; cbn in *; lia. }
    cbn [mbind res_bind]. eexists. split; [done|]. assert (k ∉ (swap_remove_index j (map i)).*1 ∧ NoDup (swap_remove_index j (map i)).*1)
      as [Hk Hd'] by (rewrite <- Hperm in Hd; cbn in Hd; by apply NoDup_cons in Hd).
    pose proof (Permutation_length Hperm) as Hlen. cbn in Hlen. unfold Zlength in *.
    assert (∀ k', assoc_get k' (swap_remove_index j (map i)) = if decide (k' = k) then None else assoc_get k' (map i)) as Hget.
    { intros k'. rewrite <- (assoc_get_perm k' _ _ Hd Hperm). cbn [assoc_get]. destruct (decide (k' = k)) as [->|]; [by apply assoc_get_None|done]. }
    split; [split; [split; [done|]; cbn [map tracked_size]|]|exact Hget].
    + destruct (tracked p); [destruct (Hsize' eq_refl); split; [done|]|]; unfold Zlength; lia.
    + intros k' v' Hg'. cbn [map] in Hg'. rewrite Hget in Hg'. case_decide; [done|]. rewrite lookup_delete_ne by done. by apply Hs.
  - pose proof (assoc_index_None _ _ Ej) as Hg. rewrite Hg. exists i. split; [done|]. split; [|intros k'; by case_decide; subst]. split; [done|].
    intros k' v' Hg'. assert (k' ≠ k) by (intros ->; by rewrite Hg in Hg'). rewrite lookup_delete_ne by done. by apply Hs.
Qed.

(** ** Sequences of operations *)

Inductive cache_op :=
  | OpInsert (k : K) (v : V)
  | OpInsertMany (l : list (K * V))
  | OpUpdate (k : K) (f : V → V)
  | OpRemove (k : K)
  | OpRemoveMany (l : list K)
  | OpRemoveAll.
Definition apply_op (c : Cache) (o : cache_op) : exec Cache :=
  match o with
  | OpInsert k v => insert estimate_size c k v
  | OpInsertMany l => insert_many estimate_size c l
  | OpUpdate k f => update_if_entry_exists estimate_size c k f
  | OpRemove k => '(_, c) ← remove estimate_size c k; Ok c
  | OpRemoveMany l => remove_many estimate_size c l
  | OpRemoveAll => Ok (remove_all c)
  end.
(** The same operation on a store that never evicts. *)
Definition put (s : gmap K V) '(k, v) : gmap K V := <[k := v]> s.
Definition store_op (s : gmap K V) (o : cache_op) : gmap K V :=
  match o with
  | OpInsert k v => <[k := v]> s
  | OpInsertMany l => foldl put s l
  | OpUpdate k f => alter f k s
  | OpRemove k => delete k s
  | OpRemoveMany l => foldl (λ s k, delete k s) s l
  | OpRemoveAll => ∅
  end.

(** What holds along a fold of [g] from [s]. *)
Fixpoint along {A} (g : gmap K V → A → gmap K V) (P : gmap K V → A → Prop) (s : gmap K V) (l : list A) : Prop :=
  match l with [] => True | a :: l => P s a ∧ along g P (g s a) l end.
(** The limits leave room for an insertion; a counted cache that is full evicts an item at every one, also of a key it has. *)
Definition room p (s : gmap K V) '(k, v) : Prop :=
  max_size p ≠ 0 ∧ if tracked p then within p (map_to_list (<[k := v]> s)) else Z.of_nat (size s) < max_size p.
Definition ample p (s : gmap K V) (o : cache_op) : Prop :=
  match o with
  | OpInsert k v => room p s (k, v)
  | OpInsertMany l => along put (room p) s l
  | OpUpdate k f => tracked p = true → within p (map_to_list (alter f k s))
  | OpRemove _ | OpRemoveMany _ | OpRemoveAll => True
  end.

(** Lookups return what the store holds; [P] says that the limits have been ample so far. *)
Definition exact i (s : gmap K V) : Prop := ∀ k, assoc_get k (map i) = s !! k.
Definition kept p i s (P : Prop) : Prop := good p i s ∧ (P → exact i s).
Lemma exact_perm p i s : good p i s → exact i s → map i ≡ₚ map_to_list s.
Proof.
  intros [[Hd _] _] He. assert (s = list_to_map (map i)) as ->; [|symmetry; by apply map_to_list_to_map].
  apply map_eq. intros k. rewrite <- He. clear. induction (map i) as [|[k' v] l IH]; [done|]. cbn [assoc_get list_to_map foldr uncurry fst snd].
  case_decide as Hk; [subst; by rewrite lookup_insert_eq|by rewrite lookup_insert_ne].
Qed.
Lemma within_perm p l l' : l ≡ₚ l' → within p l → within p l'.
Proof. intros Hp. unfold within, Zlength. rewrite (total_size_perm _ _ Hp). by rewrite (Permutation_length Hp). Qed.
Lemma exact_insert i i' s k v : exact i s → map i' = assoc_insert k v (map i) → exact i' (<[k := v]> s).
Proof. intros He Hm k'. rewrite Hm, assoc_get_insert. case_decide; [subst; by rewrite lookup_insert_eq|by rewrite lookup_insert_ne]. Qed.
Lemma insert_perm p i s k v : good p i s → exact i s → assoc_insert k v (map i) ≡ₚ map_to_list (<[k := v]> s).
Proof.
  intros [[Hd _] _] He. assert (exact (mk_inner (assoc_insert k v (map i)) 0 []) (<[k := v]> s)) as He' by by eapply exact_insert.
  apply (exact_perm (mk_policy false (Zlength (assoc_insert k v (map i))) 0) (mk_inner (assoc_insert k v (map i)) 0 [])); [|done].
  split; [split; cbn; [by apply assoc_insert_keys|lia]|]. intros k' v' Hg. by rewrite <- (He' k').
Qed.

Lemma insert_kept p k v i s P : policy_ok p → max_size p ≠ 0 → kept p i s P →
  ∃ i', inner_insert estimate_size p k v i = Ok i' ∧ kept p i' (<[k := v]> s) (P ∧ room p s (k, v)) ∧
    (tracked p = false → assoc_get k (map i') = Some v).
Proof.
  intros Hp Hm [Hg He]. destruct (inner_insert_good p k v i s Hp Hm Hg) as (i' & Hi & Hg' & Hk & Hw). exists i'. split_and!; [done| |done].
  split; [done|]. intros [HP [_ Hroom]]. specialize (He HP). apply (exact_insert i); [done|]. apply Hw.
  destruct (tracked p); [eapply within_perm; [symmetry; by eapply insert_perm|done]|].
  unfold Zlength. by rewrite (Permutation_length (exact_perm _ _ _ Hg He)), length_map_to_list.
Qed.
Lemma update_kept p k f i s P : policy_ok p → kept p i s P →
  ∃ i', inner_update_if_entry_exists estimate_size p k f i = Ok i' ∧ kept p i' (alter f k s) (P ∧ ample p s (OpUpdate k f)).
Proof.
  intros Hp [Hg He]. destruct (inner_update_good p k f i s Hp Hg) as (i' & Hi & Hg' & Hw). exists i'. split; [done|].
  split; [done|]. intros [HP Ha]. specialize (He HP). cbn [ample] in Ha. pose proof (He k) as Hk. destruct (assoc_get k (map i)) as [v|].
  - assert (alter f k s = <[k := f v]> s) as E.
    { apply map_eq. intros k'. destruct (decide (k' = k)) as [->|]; [by rewrite lookup_alter_eq, <- Hk, lookup_insert_eq|].
      by rewrite lookup_alter_ne, lookup_insert_ne. }
    rewrite E in Ha |- *. apply (exact_insert i); [done|]. apply Hw. intros Ht. eapply within_perm; [symmetry; by eapply insert_perm|auto].
  - intros k'. rewrite Hw, He. destruct (decide (k' = k)) as [->|]; [by rewrite lookup_alter_eq, <- Hk|by rewrite lookup_alter_ne].
Qed.
Lemma remove_kept p k i s P : kept p i s P → ∃ i', inner_remove estimate_size p k i = Ok (assoc_get k (map i), i') ∧ kept p i' (delete k s) P.
Proof.
  intros [Hg He]. destruct (inner_remove_good p k i s Hg) as (i' & Hi & Hg' & Hw). exists i'. split; [done|]. split; [done|].
  intros HP k'. rewrite Hw, (He HP). case_decide; [subst; by rewrite lookup_delete_eq|by rewrite lookup_delete_ne].
Qed.
Lemma kept_impl p i s (P Q : Prop) : (Q → P) → kept p i s P → kept p i s Q.
Proof. intros HQ [Hg He]. split; auto. Qed.

Lemma fold_kept {A} (f : Inner → A → exec Inner) (g : gmap K V → A → gmap K V) (Q : gmap K V → A → Prop) p l i s P :
  (∀ a i s P, kept p i s P → ∃ i', f i a = Ok i' ∧ kept p i' (g s a) (P ∧ Q s a)) → kept p i s P →
  ∃ i', res_foldl f i l = Ok i' ∧ kept p i' (foldl g s l) (P ∧ along g Q s l).
Proof.
  intros Hf. revert i s P. induction l as [|a l IH]; intros i s P Hg; [exists i; split; [done|]; eapply kept_impl; [|done]; tauto|].
  destruct (Hf a i s P Hg) as (i' & Hi & Hg'). cbn [res_foldl foldl along]. rewrite Hi. cbn [mbind res_bind].
  destruct (IH _ _ _ Hg') as (i'' & Hi' & Hg''). exists i''. split; [done|]. eapply kept_impl; [|done]. tauto.
Qed.

(** A cache that holds nothing. *)
Lemma good_nil p s d : 0 <= max_size p → 0 <= min_items p → good p (mk_inner [] 0 d) s.
Proof.
  intros Hm Hi. split; [|done]. split; [constructor|]. change (Zlength (@nil (K * V))) with 0. unfold total_size. cbn.
  destruct (tracked p); [split; [done|left]|unfold Zlength]; cbn; lia.
Qed.

(** A cache of size zero stays empty. *)
Definition idle (c : Cache (K := K) (V := V)) : Prop := max_size (policy c) = 0 → map (cache_inner c) = [].
Lemma ample_empty p s o : max_size p = 0 → ample p s o → s = ∅ → store_op s o = ∅.
Proof.
  intros E Ha ->. destruct o as [k v|[|[k v] l]|k f|k|l|]; cbn [ample room along store_op foldl] in *; [by destruct Ha|done|by destruct Ha as [[? _] _]| | | |done].
  - apply map_eq. intros k'. destruct (decide (k' = k)) as [->|]; [by rewrite lookup_alter_eq, lookup_empty|by rewrite lookup_alter_ne].
  - apply delete_empty.
  - clear. induction l as [|k l IH]; [done|]. cbn [foldl]. by rewrite delete_empty.
Qed.
Lemma apply_op_kept c o s P :
  policy_ok (policy c) → idle c → kept (policy c) (cache_inner c) s P →
  ∃ c', apply_op c o = Ok c' ∧ policy c' = policy c ∧ idle c' ∧ kept (policy c) (cache_inner c') (store_op s o) (P ∧ ample (policy c) s o).
Proof.
  intros Hp H0 Hg. destruct (Z.eqb_spec (max_size (policy c)) 0) as [E|E].
  - assert (apply_op c o = Ok c) as ->.
    { destruct o; cbn [apply_op]; unfold insert, insert_many, update_if_entry_exists, remove, remove_many, remove_all;
        rewrite (proj2 (Z.eqb_eq _ _)) by done; done. }
    exists c. split_and!; [done..|]. destruct Hg as [Hg He]. split; [split; [apply Hg|]; intros k v; by rewrite (H0 E)|].
    intros [HP Ha] k. rewrite (ample_empty _ s _ E Ha), (H0 E); [by rewrite lookup_empty|]. apply map_eq. intros k'. by rewrite <- (He HP), (H0 E), lookup_empty.
  - enough (∃ i', apply_op c o = Ok (with_inner c i') ∧ kept (policy c) i' (store_op s o) (P ∧ ample (policy c) s o)) as (i' & -> & Hi')
      by (exists (with_inner c i'); split; [done|]; split; [done|]; split; [intros ?; by destruct E|exact Hi']).
    destruct o as [k v|l|k f|k|l|]; cbn [apply_op store_op];
      unfold insert, insert_many, update_if_entry_exists, remove, remove_many, remove_all; rewrite (proj2 (Z.eqb_neq _ _)) by done.
    + destruct (insert_kept _ k v _ _ _ Hp E Hg) as (i' & -> & ? & _). by exists i'.
    + destruct (fold_kept (λ i '(key, data), inner_insert estimate_size (policy c) key data i) put (room (policy c)) (policy c) l
        (cache_inner c) s P) as (i' & -> & ?); [|done|by exists i']. intros [k v] i s0 P0 H1.
      destruct (insert_kept _ k v _ _ _ Hp E H1) as (i' & ? & ? & _). by exists i'.
    + destruct (update_kept _ k f _ _ _ Hp Hg) as (i' & -> & ?). by exists i'.
    + destruct (remove_kept _ k _ _ _ Hg) as (i' & -> & ?). exists i'. split; [done|]. eapply kept_impl; [|done]. tauto.
    + destruct (fold_kept (λ i key, '(_, i) ← inner_remove estimate_size (policy c) key i; Ok i) (λ s k, delete k s) (λ _ _, True) (policy c) l
        (cache_inner c) s P) as (i' & -> & Hi'); [|done|].
      * intros k i s0 P0 H1. destruct (remove_kept _ k _ _ _ H1) as (i' & -> & ?). exists i'. split; [done|]. eapply kept_impl; [|done]. tauto.
      * exists i'. split; [done|]. eapply kept_impl; [|done]. intros [HP _]. split; [done|]. clear. revert s. induction l; cbn; auto.
    + eexists. split; [done|]. destruct Hp as (Hm & Hmi & _). split; [|intros _ k; cbn [map]; by rewrite lookup_empty]. split; [|done]. split; [constructor|].
      change (Zlength (@nil (K * V))) with 0. unfold total_size. cbn. destruct (tracked (policy c)); [split; [done|left]|unfold Zlength]; cbn; lia.
Qed.

Lemma apply_op_good c o s :
  policy_ok (policy c) → idle c → good (policy c) (cache_inner c) s →
  ∃ c', apply_op c o = Ok c' ∧ policy c' = policy c ∧ idle c' ∧ good (policy c) (cache_inner c') (store_op s o).
Proof.
  intros Hp H0 Hg. destruct (apply_op_kept c o s False Hp H0) as (c' & Ha & Hc & H0' & Hk & _); [by split|]. by exists c'.
Qed.

Lemma run_kept ops c s P :
  policy_ok (policy c) → idle c → kept (policy c) (cache_inner c) s P →
  ∃ c', res_foldl apply_op c ops = Ok c' ∧ policy c' = policy c ∧ idle c' ∧
    kept (policy c) (cache_inner c') (foldl store_op s ops) (P ∧ along store_op (ample (policy c)) s ops).
Proof.
  intros Hp. revert c s P Hp. induction ops as [|o ops IH]; intros c s P Hp H0 Hg.
  { exists c. split_and!; [done..|]. eapply kept_impl; [|done]. tauto. }
  destruct (apply_op_kept c o s P Hp H0 Hg) as (c' & Ha & Hc & H0' & Hg'). cbn [res_foldl foldl along]. rewrite Ha. cbn [mbind res_bind].
  rewrite <- Hc in *. destruct (IH c' (store_op s o) _ Hp H0' Hg') as (c'' & Hr & Hc' & H0'' & Hg''). exists c''. rewrite Hc' in *. split_and!; [done..|].
  eapply kept_impl; [|done]. tauto.
Qed.
End invariant.


End Db.
