(* ===== verification/ZkPrecompiles.v ===== *)
(** Zero-knowledge proof precompiles of the script engine.

    crypto/txscript/src/zk_precompiles: the operands a proof takes from the data
    stack, their parsing and pricing, and the checks around the proof systems.
    The curve, pairing and STARK libraries (arkworks, risc0) are the operations
    of [ZkBackend]; every error of a precompile is reported as [ZkIntegrity], so
    here a precompile is a computation whose errors are all [ZkIntegrity].

    The lemmas show that, with the library behaviour the code relies on
    ([ZkBackendLaws]), verification never panics on any stack and only removes
    operands from it and units from the meter. *)
From Stdlib Require Import String.
From stdpp Require Import base gmap list.
From S2P Require Import Prelude Bundle Tx ScriptNum DataStack ScriptMeter.

(** The operations of ark-bn254, ark-groth16 and ark-serialize, and of risc0-zkp,
    risc0-binfmt and risc0-circuit-recursion.  Readers return what they have left. *)
Class ZkBackend := {
  G1Affine : Type;
  G2Affine : Type;
  Fr : Type;
  Proof : Type;
  PreparedInputs : Type;
  g1_deserialize : bool → bytes → option (G1Affine * bytes);
  g2_deserialize : bytes → option (G2Affine * bytes);
  u64_deserialize : bytes → option (Z * bytes);
  fr_deserialize_uncompressed : bytes → option Fr;
  proof_deserialize : bytes → option (Proof * bytes);
  g1_batch_check : list G1Affine → bool;
  prepare_inputs : G1Affine * G2Affine * G2Affine * G2Affine * list G1Affine → list Fr → option PreparedInputs;
  verify_proof : G1Affine * G2Affine * G2Affine * G2Affine * list G1Affine → Proof → PreparedInputs → option bool;
  Digest : Type;
  digest_eq :: EqDecision Digest;
  DIGEST_ZERO : Digest;
  digest_from_bytes : bytes → option Digest;
  digest_from_words : list Z → option Digest;
  ALLOWED_CONTROL_ROOT : Digest;
  OUTPUT_SIZE : Z;
  baby_bear_as_u32 : Z → Z;
  read_sha_halfs : list Z → option Digest;
  is_digest_valid : Digest → bool;
  hash_pair : Digest → Digest → Digest;
  stark_verify : list Z → (Digest → bool) → bool;
  system_state_digest : Z → Digest → Digest;
  tagged_struct : bytes → list Digest → list Z → Digest;
  halted_pair : Z → Z * Z
}.

(** What the code relies on: the verifier has read one word more than the output
    of the circuit, which holds two 16-word slots; a [u64] is read as one. *)
Class ZkBackendLaws `{ZkBackend} := {
  verified_seal_length : ∀ seal check, stark_verify seal check = true → OUTPUT_SIZE + 1 <= Zlength seal;
  output_size_slots : 32 <= OUTPUT_SIZE;
  u64_deserialize_range : ∀ b n rest, u64_deserialize b = Some (n, rest) → is_u64 n
}.

Definition FR_BYTES : Z := 32.
Definition GROTH16_GAMMA_ABC_G1_ELEMENT_SCRIPT_UNITS : Z := 250000.
Definition POSEIDON2_CONTROL_MERKLE_DEPTH : Z := 8.
Definition DIGEST_BYTES : nat := 32.

Section zk.
Context `{ZkBackend}.

Definition zk {A} (o : option A) : res TxScriptError A := ok_or o ZkIntegrity.
Definition zk_guard (b : bool) : res TxScriptError () := if b then Ok () else Err ZkIntegrity.
(** Errors of the stack and of the meter are wrapped as well. *)
Definition zk_err {A} (r : res TxScriptError A) : res TxScriptError A := map_err (λ _, ZkIntegrity) r.

Definition parse_tag (s : Stack) : stack_res ZkTag :=
  '(tag_bytes, s) ← pop s;
  tag ← match tag_bytes with [tag_byte] => zk (tag_try_from tag_byte) | _ => Err ZkIntegrity end;
  Ok (tag, s).

(** ** Groth16 *)

Definition fr_try_from (b : bytes) : option Fr :=
  if negb (Zlength b =? FR_BYTES) then None else fr_deserialize_uncompressed b.
Definition deserialize_fr (b : bytes) (_ : bool) : res TxScriptError Fr := zk (fr_try_from b).

Fixpoint read_g1s (n : nat) (reader : bytes) : option (list G1Affine * bytes) :=
  match n with
  | O => Some ([], reader)
  | S n =>
      '(g, reader) ← g1_deserialize false reader;
      '(l, reader) ← read_g1s n reader;
      Some (g :: l, reader)
  end.

Definition deserialize_verifying_key_with_metering (b : bytes) (public_input_count : Z) (meter : RuntimeResourceMeter) :
    res TxScriptError ((G1Affine * G2Affine * G2Affine * G2Affine * list G1Affine) * RuntimeResourceMeter) :=
  '(alpha_g1, reader) ← zk (g1_deserialize true b);
  '(beta_g2, reader) ← zk (g2_deserialize reader);
  '(gamma_g2, reader) ← zk (g2_deserialize reader);
  '(delta_g2, reader) ← zk (g2_deserialize reader);
  '(gamma_abc_element_count, reader) ← zk (u64_deserialize reader);
  zk_guard (negb (gamma_abc_element_count =? 0)) ;;
  expected ← add_u 64 public_input_count 1;
  zk_guard (expected =? gamma_abc_element_count) ;;
  meter ← zk_err (consume_script_units meter (saturating_mul 64 gamma_abc_element_count GROTH16_GAMMA_ABC_G1_ELEMENT_SCRIPT_UNITS));
  gamma_abc_len ← add_u 64 public_input_count 1;
  '(gamma_abc_g1, reader) ← zk (read_g1s (Z.to_nat gamma_abc_len) reader);
  zk_guard (bool_decide (reader = [])) ;;
  zk_guard (g1_batch_check gamma_abc_g1) ;;
  Ok ((alpha_g1, beta_g2, gamma_g2, delta_g2, gamma_abc_g1), meter).

(** [for _ in 0..n_inputs]: every iteration pops an entry, so one more than the
    depth of the stack is enough fuel. *)
Fixpoint pop_public_inputs (fuel : nat) (n_inputs : Z) (s : Stack) : stack_res (list Fr) :=
  if n_inputs =? 0 then Ok ([], s)
  else match fuel with
       | O => Panic
       | S fuel =>
           '(fr, s) ← zk_err (pop_items 1 deserialize_fr s);
           '(l, s) ← pop_public_inputs fuel (n_inputs - 1) s;
           Ok (fr ++ l, s)
       end.

(** [i32_to_usize], whose error is wrapped. *)
Definition to_usize (n : Z) : res TxScriptError Z := if n <? 0 then Err (InvalidIndex n) else Ok n.

Definition pop_one {T} (deserialize : bytes → bool → res TxScriptError T) (s : Stack) : stack_res T :=
  '(l, s) ← pop_items 1 deserialize s;
  match l with [x] => Ok (x, s) | _ => Panic end.
Definition pop_one_raw (s : Stack) : stack_res bytes :=
  '(l, s) ← pop_raw 1 s;
  match l with [x] => Ok (x, s) | _ => Panic end.

Definition groth16_verify_zk (s : Stack) (meter : RuntimeResourceMeter) : res TxScriptError (Stack * RuntimeResourceMeter) :=
  '(unprepared_compressed_key, s) ← zk_err (pop_one_raw s);
  '(proof_bytes, s) ← zk_err (pop_one_raw s);
  '(n_inputs, s) ← zk_err (pop_one deserialize_as_i32 s);
  n_inputs ← zk_err (to_usize n_inputs);
  '(unprepared_public_inputs, s) ← pop_public_inputs (S (length (inner s))) n_inputs s;
  '(vk, meter) ← deserialize_verifying_key_with_metering unprepared_compressed_key (Zlength unprepared_public_inputs) meter;
  '(proof, proof_reader) ← zk (proof_deserialize proof_bytes);
  zk_guard (bool_decide (proof_reader = [])) ;;
  prepared_inputs ← zk (prepare_inputs vk unprepared_public_inputs);
  valid ← zk (verify_proof vk proof prepared_inputs);
  zk_guard valid ;;
  Ok (s, meter).

(** ** RISC Zero succinct receipts *)

Inductive HashFnId := HashBlake2b | HashPoseidon2 | HashSha256.
Definition hashfn_try_from (value : Z) : option HashFnId :=
  if value =? 0 then Some HashBlake2b else if value =? 1 then Some HashPoseidon2 else if value =? 2 then Some HashSha256 else None.

(** The depth for the supported function; the others are unreachable. *)
Definition control_merkle_depth_for (h : HashFnId) : res TxScriptError Z :=
  match h with HashPoseidon2 => Ok POSEIDON2_CONTROL_MERKLE_DEPTH | HashBlake2b | HashSha256 => Panic end.

Definition parse_digest (b : bytes) : option Digest := digest_from_bytes b.
(** [as_chunks::<N>] requires no remainder. *)
Definition parse_seal (b : bytes) : option (list Z) :=
  if Zlength b mod 4 =? 0 then Some (from_le_bytes <$> chunks_exact 4 b) else None.
Definition parse_hashfn (b : bytes) : option HashFnId :=
  match b with [x] => hashfn_try_from x | _ => None end.
Definition parse_merkle_index (b : bytes) : option Z := if Zlength b =? 4 then Some (from_le_bytes b) else None.
Definition parse_digest_list (b : bytes) : option (list Digest) :=
  if Zlength b mod Z.of_nat DIGEST_BYTES =? 0 then mapM digest_from_bytes (chunks_exact DIGEST_BYTES b) else None.

Record MerkleProof := mk_merkle { merkle_index : Z; digests : list Digest }.

Fixpoint merkle_root_loop (cur : Digest) (cur_index : Z) (l : list Digest) : option Digest :=
  match l with
  | [] => Some cur
  | sibling :: l =>
      if negb (is_digest_valid sibling) then None
      else merkle_root_loop (if Z.land cur_index 1 =? 0 then hash_pair cur sibling else hash_pair sibling cur)
             (Z.shiftr cur_index 1) l
  end.
Definition merkle_root (p : MerkleProof) (leaf : Digest) : option Digest :=
  if negb (is_digest_valid leaf) then None else merkle_root_loop leaf (merkle_index p) (digests p).
Definition merkle_verify (p : MerkleProof) (leaf root : Digest) : bool :=
  match merkle_root p leaf with Some r => bool_decide (r = root) | None => false end.

Record SuccinctReceipt := mk_receipt {
  seal : list Z;
  control_id : Digest;
  claim : Digest;
  hashfn : HashFnId;
  control_inclusion_proof : MerkleProof
}.

(** The words of a list at even positions. *)
Fixpoint evens (l : list Z) : list Z := match l with x :: _ :: l => x :: evens l | [x] => [x] | [] => [] end.

(** [verify] is run with the Poseidon2 suite, the only one that reaches it. *)
Definition verify_integrity (r : SuccinctReceipt) : res TxScriptError () :=
  let check_code (id : Digest) : bool :=
    bool_decide (id = control_id r) && merkle_verify (control_inclusion_proof r) id ALLOWED_CONTROL_ROOT in
  zk_guard (stark_verify (seal r) check_code) ;;
  guard_panic (OUTPUT_SIZE <=? Zlength (seal r)) ;;
  let seal_claim := baby_bear_as_u32 <$> take (Z.to_nat OUTPUT_SIZE) (seal r) in
  guard_panic (16 <=? Zlength seal_claim) ;;
  control_root ← zk (digest_from_words (evens (take 16 seal_claim)));
  zk_guard (bool_decide (control_root = ALLOWED_CONTROL_ROOT)) ;;
  output_hash ← zk (read_sha_halfs (drop 16 seal_claim));
  zk_guard (bool_decide (output_hash = claim r)).

(** [ReceiptClaim::digest] of a normal exit, [Output::digest] inside it. *)
Definition output_digest (journal assumptions : Digest) : Digest := tagged_struct (byte_str "risc0.Output"%string) [journal; assumptions] [].
Definition receipt_claim_digest (pre post input output : Digest) (exit_code : Z * Z) : Digest :=
  tagged_struct (byte_str "risc0.ReceiptClaim"%string) [input; pre; post; output] [exit_code.1; exit_code.2].
Definition compute_assert_claim (claim image_id journal_hash : Digest) : res TxScriptError () :=
  let computed_claim :=
    receipt_claim_digest image_id (system_state_digest 0 DIGEST_ZERO) DIGEST_ZERO (output_digest journal_hash DIGEST_ZERO)
      (halted_pair 0) in
  zk_guard (bool_decide (claim = computed_claim)).

Definition r0_verify_zk (s : Stack) (meter : RuntimeResourceMeter) : res TxScriptError (Stack * RuntimeResourceMeter) :=
  '(items, s) ← zk_err (pop_raw 8 s);
  match items with
  | [claim; control_index; control_digests; seal; journal; image_id; control_id; hashfn] =>
      control_id ← zk (parse_digest control_id);
      seal ← zk (parse_seal seal);
      claim ← zk (parse_digest claim);
      hashfn ← zk (parse_hashfn hashfn);
      zk_guard (match hashfn with HashPoseidon2 => true | _ => false end) ;;
      control_index ← zk (parse_merkle_index control_index);
      control_digests ← zk (parse_digest_list control_digests);
      max_control_proof_len ← control_merkle_depth_for hashfn;
      zk_guard (negb (max_control_proof_len <? Zlength control_digests)) ;;
      let rcpt := mk_receipt seal control_id claim hashfn (mk_merkle control_index control_digests) in
      image_id ← zk (parse_digest image_id);
      journal ← zk (parse_digest journal);
      verify_integrity rcpt ;;
      compute_assert_claim claim image_id journal ;;
      Ok (s, meter)
  | _ => Panic
  end.

Definition verify_zk (tag : ZkTag) (s : Stack) (meter : RuntimeResourceMeter) : res TxScriptError (Stack * RuntimeResourceMeter) :=
  match tag with Groth16 => groth16_verify_zk s meter | R0Succinct => r0_verify_zk s meter end.
End zk.
