(* ===== verification/Engine.v ===== *)
(** The state of the script engine and signature checking.

    crypto/txscript/src/lib.rs (the engine, its source and flags, signature checks
    and multisig), crypto/txscript/src/caches.rs (the signature cache) and
    crypto/txscript/src/engine_context.rs.

    The engine is a state monad over [vm]: the two stacks, the condition stack, the
    operation counter, the resource meter, and the signature cache and reused
    hash values shared with other engines.  An operation returns its outcome and
    the new state, so the shared parts are accurate after errors too; the stacks
    of a failed engine are not observed.  The secp256k1 and hash libraries are the
    operations of [Secp] and [ScriptHashes].  The generator behind cache eviction
    is the list of its future draws. *)
From stdpp Require Import base gmap list.
From S2P Require Import Prelude IndexMap Encoding Bundle Tx TxHash ScriptNum DataStack ScriptMeter Covenants ScriptParse ScriptBuilder.
From S2P Require Import ZkPrecompiles.

Definition MAX_STACK_SIZE : Z := 244.
Definition MAX_OPS_PER_SCRIPT_PRE_TOCCATA : Z := 201.
Definition MAX_OPS_PER_SCRIPT_POST_TOCCATA : Z := 1000000.
Definition MAX_TX_IN_SEQUENCE_NUM : Z := 2 ^ 64 - 1.
Definition SEQUENCE_LOCK_TIME_DISABLED : Z := 2 ^ 63.
Definition SEQUENCE_LOCK_TIME_MASK : Z := 2 ^ 32 - 1.
Definition LOCK_TIME_THRESHOLD : Z := 500000000000.
Definition STANDARD_SCRIPT_PUB_KEY_MAX_SIZE : Z := 35.

Definition max_ops_per_script (covenants_enabled : bool) : Z :=
  if covenants_enabled then MAX_OPS_PER_SCRIPT_POST_TOCCATA else MAX_OPS_PER_SCRIPT_PRE_TOCCATA.

(** The secp256k1 library: parsing and verification. *)
Class Secp := {
  XOnlyPublicKey : Type;
  EcdsaPublicKey : Type;
  SchnorrSignature : Type;
  EcdsaSignature : Type;
  xonly_eq :: EqDecision XOnlyPublicKey;
  ecdsa_key_eq :: EqDecision EcdsaPublicKey;
  schnorr_sig_eq :: EqDecision SchnorrSignature;
  ecdsa_sig_eq :: EqDecision EcdsaSignature;
  xonly_from_slice : bytes → option XOnlyPublicKey;
  ecdsa_key_from_slice : bytes → option EcdsaPublicKey;
  schnorr_sig_from_slice : bytes → option SchnorrSignature;
  ecdsa_sig_from_compact : bytes → option EcdsaSignature;
  schnorr_verify : SchnorrSignature → bytes → XOnlyPublicKey → bool;
  ecdsa_verify : EcdsaSignature → bytes → EcdsaPublicKey → bool
}.

(** The hash functions of the hash opcodes and of signature hashing. *)
Class ScriptHashes := {
  sha256 : bytes → bytes;
  blake2b_256 : bytes → bytes;
  blake2b_256_keyed : bytes → bytes → bytes;
  blake3_hash : bytes → bytes;
  blake3_keyed_hash : bytes → bytes → bytes;
  domain_hash : HashDomain → bytes → bytes
}.

Inductive OpCond := CondFalse | CondTrue | CondSkip.
#[export] Instance OpCond_eq : EqDecision OpCond.
Proof. solve_decision. Defined.
Definition negate (c : OpCond) : OpCond :=
  match c with CondTrue => CondFalse | CondFalse => CondTrue | CondSkip => CondSkip end.

Record EngineFlags := mk_flags { covenants_enabled : bool; flag_sigop_script_units : Z }.
Definition default_flags : EngineFlags := mk_flags false (1000 * SCRIPT_UNITS_PER_GRAM).

Inductive ScriptSource :=
  | TxInput (tx : PopulatedTransaction) (input : TransactionInput) (idx : Z) (utxo_entry : UtxoEntry) (is_p2sh : bool)
  | StandAloneScripts (scripts : list bytes).

Record SeqCommitAccessor := mk_accessor {
  is_chain_ancestor_from_pov : bytes → option bool;
  seq_commitment_within_depth : bytes → option bytes
}.

(** What does not change during execution. *)
Record engine_env := mk_env {
  script_source : ScriptSource;
  covenants_ctx : CovenantsContext;
  seq_commit_accessor : option SeqCommitAccessor;
  flags : EngineFlags
}.

Section engine.
Context `{Secp, ScriptHashes}.

(** ** The signature cache *)

Inductive Signature := SigSchnorr (s : SchnorrSignature) | SigEcdsa (s : EcdsaSignature).
Inductive PublicKey := KeySchnorr (k : XOnlyPublicKey) | KeyEcdsa (k : EcdsaPublicKey).
#[global] Instance Signature_eq : EqDecision Signature.
Proof. solve_decision. Defined.
#[global] Instance PublicKey_eq : EqDecision PublicKey.
Proof. solve_decision. Defined.
Record SigCacheKey := mk_cache_key { signature : Signature; pub_key : PublicKey; message : bytes }.
#[global] Instance SigCacheKey_eq : EqDecision SigCacheKey.
Proof. solve_decision. Defined.

(** An index map, its capacity and the draws of the generator. *)
Record Cache := mk_cache { cache_map : list (SigCacheKey * bool); cache_size : Z; cache_draws : list Z }.

Definition cache_new (size : Z) (draws : list Z) : Cache := mk_cache [] size draws.
Definition cache_clear (c : Cache) : Cache := mk_cache [] (cache_size c) (cache_draws c).

Definition cache_get (c : Cache) (k : SigCacheKey) : option bool := assoc_get k (cache_map c).
Definition cache_insert (c : Cache) (k : SigCacheKey) (v : bool) : Cache :=
  if cache_size c =? 0 then c
  else
    let '(l, draws) :=
      if Zlength (cache_map c) =? cache_size c
      then (swap_remove_index (Z.to_nat (default 0 (head (cache_draws c)) mod cache_size c)) (cache_map c), tail (cache_draws c))
      else (cache_map c, cache_draws c) in
    mk_cache (assoc_insert k v l) (cache_size c) draws.

(** ** The engine *)

Record vm := mk_vm {
  dstack : Stack;
  astack : Stack;
  cond_stack : list OpCond;
  num_ops : Z;
  meter : RuntimeResourceMeter;
  sig_cache : Cache;
  reused_values : Reused
}.

Definition set_dstack (s : Stack) (v : vm) : vm :=
  mk_vm s (astack v) (cond_stack v) (num_ops v) (meter v) (sig_cache v) (reused_values v).
Definition set_astack (s : Stack) (v : vm) : vm :=
  mk_vm (dstack v) s (cond_stack v) (num_ops v) (meter v) (sig_cache v) (reused_values v).
Definition set_cond_stack (l : list OpCond) (v : vm) : vm :=
  mk_vm (dstack v) (astack v) l (num_ops v) (meter v) (sig_cache v) (reused_values v).
Definition set_num_ops (n : Z) (v : vm) : vm :=
  mk_vm (dstack v) (astack v) (cond_stack v) n (meter v) (sig_cache v) (reused_values v).
Definition set_meter (m : RuntimeResourceMeter) (v : vm) : vm :=
  mk_vm (dstack v) (astack v) (cond_stack v) (num_ops v) m (sig_cache v) (reused_values v).
Definition set_sig_cache (c : Cache) (v : vm) : vm :=
  mk_vm (dstack v) (astack v) (cond_stack v) (num_ops v) (meter v) c (reused_values v).
Definition set_reused_values (r : Reused) (v : vm) : vm :=
  mk_vm (dstack v) (astack v) (cond_stack v) (num_ops v) (meter v) (sig_cache v) r.

Definition script_m (A : Type) : Type := vm → res TxScriptError A * vm.
#[global] Instance script_ret : MRet script_m := λ A a v, (Ok a, v).
#[global] Instance script_bind : MBind script_m := λ A B f m v,
  match m v with (Ok a, v') => f a v' | (Err e, v') => (Err e, v') | (Panic, v') => (Panic, v') end.

Definition throw {A} (e : TxScriptError) : script_m A := λ v, (Err e, v).
Definition lift {A} (r : res TxScriptError A) : script_m A := λ v, (r, v).
(** Return the error when the check fails. *)
Definition ensure (b : bool) (e : TxScriptError) : script_m () := lift (if b then Ok () else Err e).
Definition gets {A} (f : vm → A) : script_m A := λ v, (Ok (f v), v).
Definition modify (f : vm → vm) : script_m () := λ v, (Ok (), f v).

(** An operation on the data stack; the alternate stack and the meter likewise. *)
Definition on_dstack {A} (f : Stack → stack_res A) : script_m A := λ v,
  match f (dstack v) with Ok (a, s) => (Ok a, set_dstack s v) | Err e => (Err e, v) | Panic => (Panic, v) end.
Definition upd_dstack (f : Stack → res TxScriptError Stack) : script_m () := λ v,
  match f (dstack v) with Ok s => (Ok (), set_dstack s v) | Err e => (Err e, v) | Panic => (Panic, v) end.
Definition on_astack {A} (f : Stack → stack_res A) : script_m A := λ v,
  match f (astack v) with Ok (a, s) => (Ok a, set_astack s v) | Err e => (Err e, v) | Panic => (Panic, v) end.
Definition upd_astack (f : Stack → res TxScriptError Stack) : script_m () := λ v,
  match f (astack v) with Ok s => (Ok (), set_astack s v) | Err e => (Err e, v) | Panic => (Panic, v) end.
Definition upd_meter (f : RuntimeResourceMeter → res TxScriptError RuntimeResourceMeter) : script_m () := λ v,
  match f (meter v) with Ok m => (Ok (), set_meter m v) | Err e => (Err e, v) | Panic => (Panic, v) end.

(** [let [a] = vm.dstack.pop_items()?] and its two- and three-element forms; the
    length of the array is the number of popped entries. *)
Definition pop1 {T} (d : bytes → bool → res TxScriptError T) : script_m T :=
  l ← on_dstack (pop_items 1 d);
  match l with [a] => mret a | _ => lift Panic end.
Definition pop2 {T} (d : bytes → bool → res TxScriptError T) : script_m (T * T) :=
  l ← on_dstack (pop_items 2 d);
  match l with [a; b] => mret (a, b) | _ => lift Panic end.
Definition pop3 {T} (d : bytes → bool → res TxScriptError T) : script_m (T * T * T) :=
  l ← on_dstack (pop_items 3 d);
  match l with [a; b; c] => mret (a, b, c) | _ => lift Panic end.
Definition raw (b : bytes) (_ : bool) : res TxScriptError bytes := Ok b.
Definition as_bool (b : bytes) (_ : bool) : res TxScriptError bool := Ok (deserialize_bool b).
Definition as_hash (b : bytes) (_ : bool) : res TxScriptError bytes := deserialize_hash b.

Definition push_bool (b : bool) : script_m () := upd_dstack (λ s, push_item s (Ok (serialize_bool b))).
Definition engine_consume_script_units (units : Z) : script_m () := upd_meter (λ m, consume_script_units m units).
Definition engine_consume_sig_op_cost (count : Z) : script_m () := upd_meter (λ m, consume_sig_op_cost m count).

Definition is_executing (v : vm) : bool :=
  match last (cond_stack v) with None => true | Some c => bool_decide (c = CondTrue) end.

Definition engine_pop_pushed_bytes : script_m Z := λ v,
  let '(d, ds) := pop_pushed_bytes (dstack v) in
  let '(a, asx) := pop_pushed_bytes (astack v) in
  (Ok (saturating_add 64 d a), set_astack asx (set_dstack ds v)).

(** ** Signature checks *)

Section checks.
Context (env : engine_env).

(** A signature hash of the transaction, through the reused values. *)
Definition sig_hash (calc : Reused → exec (bytes * Reused)) : script_m bytes := λ v,
  match calc (reused_values v) with
  | Ok (h, r) => (Ok h, set_reused_values r v)
  | Err e => match e with end
  | Panic => (Panic, v)
  end.

(** The cached verdict, or the verdict, which is cached. *)
Definition cached_verify (k : SigCacheKey) (valid : bool) : script_m bool := λ v,
  match cache_get (sig_cache v) k with
  | Some valid => (Ok valid, v)
  | None => (Ok valid, set_sig_cache (cache_insert (sig_cache v) k valid) v)
  end.

Definition check_schnorr_signature_with_msg_hash (key sig : bytes) (msg_hash : script_m bytes) : script_m bool :=
  engine_consume_sig_op_cost 1 ;;
  pk ← lift (ok_or (xonly_from_slice key) InvalidPubkey);
  sig ← lift (ok_or (schnorr_sig_from_slice sig) InvalidSignature);
  msg ← msg_hash;
  cached_verify (mk_cache_key (SigSchnorr sig) (KeySchnorr pk) msg) (schnorr_verify sig msg pk).

Definition check_schnorr_signature (hash_type : Z) (key sig : bytes) : script_m bool :=
  match script_source env with
  | TxInput tx _ idx _ _ =>
      check_schnorr_signature_with_msg_hash key sig (sig_hash (calc_schnorr_signature_hash domain_hash tx idx hash_type))
  | _ => throw NotATransactionInput
  end.

Definition check_pub_key_encoding_ecdsa (pub_key : bytes) : res TxScriptError () :=
  if Zlength pub_key =? 33 then Ok () else Err PubKeyFormat.

Definition check_ecdsa_signature_with_msg_hash (key sig : bytes) (msg_hash : script_m bytes) : script_m bool :=
  engine_consume_sig_op_cost 1 ;;
  lift (check_pub_key_encoding_ecdsa key) ;;
  pk ← lift (ok_or (ecdsa_key_from_slice key) InvalidPubkey);
  sig ← lift (ok_or (ecdsa_sig_from_compact sig) InvalidSignature);
  msg ← msg_hash;
  cached_verify (mk_cache_key (SigEcdsa sig) (KeyEcdsa pk) msg) (ecdsa_verify sig msg pk).

Definition check_ecdsa_signature (hash_type : Z) (key sig : bytes) : script_m bool :=
  match script_source env with
  | TxInput tx _ idx _ _ =>
      check_ecdsa_signature_with_msg_hash key sig (sig_hash (calc_ecdsa_signature_hash domain_hash tx idx hash_type))
  | _ => throw NotATransactionInput
  end.

(** ** Multisig *)

Definition check_signature (ecdsa : bool) (hash_type : Z) (key sig : bytes) : script_m bool :=
  if ecdsa then check_ecdsa_signature hash_type key sig else check_schnorr_signature hash_type key sig.

(** [self.num_ops += n] and the limit on the operations of a script. *)
Definition count_ops (n : Z) : script_m () :=
  ops ← gets num_ops;
  ops ← lift (unwrap (checked_i 32 (ops + n)));
  modify (set_num_ops ops) ;;
  let max_ops := max_ops_per_script (covenants_enabled (flags env)) in
  ensure (ops <=? max_ops) (TooManyOperations max_ops).

(** The inner loop: advance through the keys until one verifies.  [None] when
    fewer keys than [needed] signatures are left. *)
Fixpoint advance_keys (ecdsa : bool) (hash_type : Z) (sig : bytes) (needed : nat) (keys : list bytes) : script_m (option (list bytes)) :=
  if (length keys <? needed)%nat then mret None
  else match keys with
       | [] => lift Panic
       | key :: keys =>
           valid ← check_signature ecdsa hash_type key sig;
           match valid with true => mret (Some keys) | false => advance_keys ecdsa hash_type sig needed keys end
       end.

(** The outer loop over the signatures; the result is whether it completed. *)
Fixpoint check_signatures (ecdsa : bool) (signatures keys : list bytes) : script_m bool :=
  match signatures with
  | [] => mret true
  | signature :: rest =>
      match last signature with
      | None => mret false
      | Some typ =>
          hash_type ← lift (ok_or (sighash_from_u8 typ) (InvalidSigHashType typ));
          r ← advance_keys ecdsa hash_type (take (length signature - 1) signature) (length signatures) keys;
          match r with None => mret false | Some keys => check_signatures ecdsa rest keys end
      end
  end.

Definition op_check_multisig_schnorr_or_ecdsa (ecdsa : bool) : script_m () :=
  num_keys ← pop1 deserialize_as_i32;
  ensure (0 <=? num_keys) InvalidPubKeyCount ;;
  ensure (num_keys <=? MAX_PUB_KEYS_PER_MUTLTISIG) InvalidPubKeyCount ;;
  count_ops num_keys ;;
  s ← gets dstack;
  ensure (num_keys <=? stack_len s) (InvalidStackOperation num_keys (stack_len s)) ;;
  pub_keys ← on_dstack (λ s, split_off s (stack_len s - num_keys));
  num_sigs ← pop1 deserialize_as_i32;
  ensure (0 <=? num_sigs) InvalidSignatureCount ;;
  ensure (num_sigs <=? num_keys) InvalidSignatureCount ;;
  s ← gets dstack;
  ensure (num_sigs <=? stack_len s) (InvalidStackOperation num_sigs (stack_len s)) ;;
  signatures ← on_dstack (λ s, split_off s (stack_len s - num_sigs));
  ok ← check_signatures ecdsa signatures pub_keys;
  ensure (ok || forallb (λ sig : bytes, bool_decide (sig = [])) signatures) NullFail ;;
  push_bool ok.
End checks.
End engine.
