(* ===== verification/Opcodes.v ===== *)
(** The opcodes of the script language.

    crypto/txscript/src/opcodes/mod.rs: one definition per opcode, under its
    name in the source, and their dispatch by opcode number.  Error messages are
    dropped from the errors; an opcode in an error is its number and data.

    [opcode_table] lists every opcode with a behaviour of its own; the numbers it
    does not list are the opcodes of the source that return [InvalidOpcode]. *)
From stdpp Require Import base gmap list.
From S2P Require Import Prelude Encoding Bundle Tx TxHash ScriptNum DataStack ScriptMeter Covenants ScriptParse ScriptBuilder ZkPrecompiles.
From S2P Require Import Engine.

Definition BLAKE2B_KEYBYTES : Z := 64.
Definition BLAKE3_KEY_LEN : Z := 32.

Inductive HashOpcodePricing := PriceBlake2b | PriceBlake3 | PriceSha256.
Definition units_per_byte (p : HashOpcodePricing) : Z :=
  match p with PriceBlake2b => 2 | PriceBlake3 => 1 | PriceSha256 => 1 end.
Definition script_units_for_data (p : HashOpcodePricing) (data_len : Z) : Z := saturating_mul 64 data_len (units_per_byte p).

(** [as i64] of an unsigned 64-bit value. *)
Definition as_i64 (x : Z) : Z := to_signed 64 (wrap 64 x).
(** [i64::try_from] of an unsigned value. *)
Definition try_i64 (x : Z) : res TxScriptError Z := ok_or (checked_i 64 x) NumberTooBig.

Definition substring (data : bytes) (start stop : Z) : res TxScriptError bytes :=
  diff ← ok_or (checked_sub stop start) (InvalidRange start stop);
  if MAX_SCRIPT_ELEMENT_SIZE_POST_TOCCATA <? diff then Err (ElementTooBig diff MAX_SCRIPT_ELEMENT_SIZE_POST_TOCCATA)
  else if stop <=? Zlength data then Ok (take (Z.to_nat diff) (drop (Z.to_nat start) data))
  else Err (OutOfBoundsSubstring start stop (Zlength data)).

Definition i32_to_usize (value : Z) : res TxScriptError Z := if value <? 0 then Err (InvalidIndex value) else Ok value.

(** The serialization of a script public key: big-endian version, then the script. *)
Definition spk_to_bytes (spk : ScriptPublicKey) : bytes := to_be_bytes 2 (spk_version spk) ++ spk_script spk.

(** Signed 64-bit operators of the numeric opcodes. *)
Definition checked_op (x : Z) : res TxScriptError Z := ok_or (checked_i 64 x) NumberTooBig.
Definition checked_div_i64 (a b : Z) : option Z := if b =? 0 then None else checked_i 64 (Z.quot a b).
Definition checked_rem_i64 (a b : Z) : option Z :=
  if b =? 0 then None else if (a =? - 2 ^ 63) && (b =? -1) then None else Some (Z.rem a b).
Definition b2z (b : bool) : Z := if b then 1 else 0.

Section opcodes.
Context `{Secp, ScriptHashes, ZkBackend} (env : engine_env).

Abbreviation action := (OpCode → script_m ()).

(** ** Helpers *)

Definition push_literal_data (d : bytes) : script_m () := upd_dstack (λ s, push_unmetered s d).
Definition push_data (d : bytes) : script_m () := upd_dstack (λ s, push s d).
Definition push_literal_number (n : Z) : script_m () := upd_dstack (λ s, push_item_unmetered s (serialize_as_i64 n)).
Definition push_number (n : Z) : script_m () := upd_dstack (λ s, push_item s (serialize_as_i64 n)).
Definition pop_bytes : script_m bytes := on_dstack pop.
Definition pop_i64 : script_m Z := pop1 deserialize_as_i64.
Definition pop_i32 : script_m Z := pop1 deserialize_as_i32.
Definition pop_bool : script_m bool := pop1 as_bool.
Definition pop_hash : script_m bytes := pop1 as_hash.
Definition pop_usize : script_m Z := n ← pop_i32; lift (i32_to_usize n).
Definition pop_usize2 : script_m (Z * Z) :=
  '(a, b) ← pop2 deserialize_as_i32; a ← lift (i32_to_usize a); b ← lift (i32_to_usize b); mret (a, b).
Definition pop_usize3 : script_m (Z * Z * Z) :=
  '(a, b, c) ← pop3 deserialize_as_i32;
  a ← lift (i32_to_usize a); b ← lift (i32_to_usize b); c ← lift (i32_to_usize c); mret (a, b, c).

Definition covenants_on : bool := covenants_enabled (flags env).
(** Opcodes that exist only with covenants enabled, by the error they give before. *)
Definition or_disabled (m : script_m ()) : action := λ op, if covenants_on then m else throw (OpcodeDisabled (code op) (data op)).
Definition or_invalid (m : script_m ()) : action := λ op, if covenants_on then m else throw (InvalidOpcode (code op) (data op)).
Definition or_reserved (m : script_m ()) : action := λ op, if covenants_on then m else throw (OpcodeReserved (code op) (data op)).
Definition with_tx (k : PopulatedTransaction → script_m ()) : script_m () :=
  match script_source env with TxInput tx _ _ _ _ => k tx | _ => throw InvalidSource end.

Definition reserved : action := λ op, throw (OpcodeReserved (code op) (data op)).
Definition disabled : action := λ op, throw (OpcodeDisabled (code op) (data op)).
Definition invalid : action := λ op, throw (InvalidOpcode (code op) (data op)).

Definition nth_input (tx : PopulatedTransaction) (idx : Z) : res TxScriptError TransactionInput :=
  ok_or (inputs (ptx tx) !! Z.to_nat idx) (InvalidInputIndex idx (Zlength (inputs (ptx tx)))).
Definition nth_utxo (tx : PopulatedTransaction) (idx : Z) : res TxScriptError UtxoEntry :=
  ok_or (utxo tx idx) (InvalidInputIndex idx (Zlength (inputs (ptx tx)))).
(** The length reported with an invalid output index is the one passed. *)
Definition nth_output (tx : PopulatedTransaction) (idx len : Z) : res TxScriptError TransactionOutput :=
  ok_or (outputs (ptx tx) !! Z.to_nat idx) (InvalidOutputIndex idx len).
(** [usize::try_from(idx).ok().and_then(..)] on a signed index. *)
Definition try_utxo (tx : PopulatedTransaction) (idx : Z) : res TxScriptError UtxoEntry :=
  if idx <? 0 then Err (InvalidInputIndex idx (Zlength (inputs (ptx tx)))) else nth_utxo tx idx.
Definition try_output (tx : PopulatedTransaction) (idx : Z) : res TxScriptError TransactionOutput :=
  if idx <? 0 then Err (InvalidOutputIndex idx (Zlength (inputs (ptx tx)))) else nth_output tx idx (Zlength (inputs (ptx tx))).

(** ** Control *)

Definition OpNop : action := λ _, mret ().

(** The condition [OpIf] pops: with covenants any boolean, before only the empty
    entry or the byte one. *)
Definition pop_condition : script_m bool :=
  if covenants_on then pop_bool
  else
    cond_buf ← pop_bytes;
    ensure (Zlength cond_buf <=? 1) InvalidState ;;
    match last cond_buf with
    | Some b => ensure (b =? 1) InvalidState ;; mret true
    | None => mret false
    end.

Definition OpIf : action := λ _,
  v ← gets is_executing;
  cond ← (match v with
          | true => c ← pop_condition; mret (match c with true => CondTrue | false => CondFalse end)
          | false => mret CondSkip
          end);
  modify (λ v, set_cond_stack (cond_stack v ++ [cond]) v).

Definition OpNotIf : action := λ _,
  v ← gets is_executing;
  cond ← (match v with
          | true => c ← pop_condition; mret (match c with true => CondFalse | false => CondTrue end)
          | false => mret CondSkip
          end);
  modify (λ v, set_cond_stack (cond_stack v ++ [cond]) v).

Definition OpElse : action := λ _,
  l ← gets cond_stack;
  match last l with
  | Some cond => modify (set_cond_stack (take (length l - 1) l ++ [negate cond]))
  | None => throw InvalidState
  end.

Definition OpEndIf : action := λ _,
  l ← gets cond_stack;
  match last l with
  | None => throw InvalidState
  | Some _ => modify (set_cond_stack (take (length l - 1) l))
  end.

Definition OpVerify : action := λ _, result ← pop_bool; ensure result VerifyError.
Definition OpReturn : action := λ _, throw EarlyReturn.

(** ** Stack *)

Definition OpToAltStack : action := λ _, item ← pop1 raw; upd_astack (λ s, push_unmetered s item).
Definition OpFromAltStack : action := λ _, item ← on_astack pop; upd_dstack (λ s, push_unmetered s item).
Definition Op2Drop : action := λ _, upd_dstack (drop_items 2).
Definition Op2Dup : action := λ _, upd_dstack (dup_items 2).
Definition Op3Dup : action := λ _, upd_dstack (dup_items 3).
Definition Op2Over : action := λ _, upd_dstack (over_items 2).
Definition Op2Rot : action := λ _, upd_dstack (rot_items 2).
Definition Op2Swap : action := λ _, upd_dstack (swap_items 2).
Definition OpIfDup : action := λ _,
  s ← gets dstack;
  l ← lift (peek_raw 1 s);
  match l with
  | [result] => if deserialize_bool result then push_data result else mret ()
  | _ => lift Panic
  end.
Definition OpDepth : action := λ _, s ← gets dstack; push_number (as_i64 (stack_len s)).
Definition OpDrop : action := λ _, upd_dstack (drop_items 1).
Definition OpDup : action := λ _, upd_dstack (dup_items 1).
Definition OpNip : action := λ _,
  s ← gets dstack;
  ensure (2 <=? stack_len s) (InvalidStackOperation 2 (stack_len s)) ;;
  _ ← on_dstack (λ s, stack_remove s (stack_len s - 2));
  mret ().
Definition OpOver : action := λ _, upd_dstack (over_items 1).
Definition OpPick : action := λ _,
  loc ← pop_i32;
  s ← gets dstack;
  ensure ((0 <=? loc) && (loc <? stack_len s)) InvalidState ;;
  item ← lift (unwrap (inner s !! Z.to_nat (stack_len s - loc - 1)));
  push_data item.
Definition OpRoll : action := λ _,
  loc ← pop_i32;
  s ← gets dstack;
  ensure ((0 <=? loc) && (loc <? stack_len s)) InvalidState ;;
  upd_dstack (λ s, roll s loc).
Definition OpRot : action := λ _, upd_dstack (rot_items 1).
Definition OpSwap : action := λ _, upd_dstack (swap_items 1).
Definition OpTuck : action := λ _,
  s ← gets dstack;
  ensure (2 <=? stack_len s) (InvalidStackOperation 2 (stack_len s)) ;;
  item ← lift (unwrap (last (inner s)));
  upd_dstack (λ s, stack_insert s (stack_len s - 2) item).

(** ** Splice and bitwise logic *)

Definition OpCat : action := or_disabled (b ← pop_bytes; a ← pop_bytes; push_data (a ++ b)).
Definition OpSubstr : action := or_disabled (
  '(start, stop) ← pop2 deserialize_as_i32;
  d ← pop_bytes;
  start ← lift (i32_to_usize start);
  stop ← lift (i32_to_usize stop);
  substr ← lift (substring d start stop);
  push_data substr).
Definition OpSize : action := λ _,
  s ← gets dstack;
  match last (inner s) with
  | Some d => n ← lift (try_i64 (Zlength d)); push_number n
  | None => throw (InvalidStackOperation 1 0)
  end.
Definition OpInvert : action := or_disabled (d ← pop_bytes; push_data ((λ b, 255 - b) <$> d)).
(** The shared body of [OpAnd], [OpOr] and [OpXor]. *)
Definition bitwise (f : Z → Z → Z) : action := or_disabled (
  b ← pop_bytes;
  a ← pop_bytes;
  ensure (Zlength a =? Zlength b) InvalidState ;;
  push_data (zip_with f a b)).
Definition OpAnd : action := bitwise Z.land.
Definition OpOr : action := bitwise Z.lor.
Definition OpXor : action := bitwise Z.lxor.
Definition pop_pair_equal : script_m bool :=
  s ← gets dstack;
  ensure (2 <=? stack_len s) (InvalidStackOperation 2 (stack_len s)) ;;
  pair ← on_dstack (λ s, split_off s (stack_len s - 2));
  match pair with [x; y] => mret (bool_decide (x = y)) | _ => lift Panic end.
Definition OpEqual : action := λ _, eq ← pop_pair_equal; push_data (match eq with true => [1] | false => [] end).
Definition OpEqualVerify : action := λ _, eq ← pop_pair_equal; ensure eq VerifyError.

(** ** Numeric *)

Definition unary (f : Z → res TxScriptError Z) : script_m () := value ← pop_i64; r ← lift (f value); push_number r.
Definition binary (f : Z → Z → res TxScriptError Z) : script_m () :=
  '(a, b) ← pop2 deserialize_as_i64; r ← lift (f a b); push_number r.
Definition Op1Add : action := λ _, unary (λ x, checked_op (x + 1)).
Definition Op1Sub : action := λ _, unary (λ x, checked_op (x - 1)).
Definition OpNegate : action := λ _, unary (λ x, checked_op (- x)).
Definition OpAbs : action := λ _, unary (λ x, checked_op (Z.abs x)).
Definition OpNot : action := λ _, unary (λ m, Ok (b2z (m =? 0))).
Definition Op0NotEqual : action := λ _, unary (λ m, Ok (b2z (negb (m =? 0)))).
Definition OpAdd : action := λ _, binary (λ a b, checked_op (a + b)).
Definition OpSub : action := λ _, binary (λ a b, checked_op (a - b)).
Definition OpMul : action := or_disabled (binary (λ a b, checked_op (a * b))).
Definition OpDiv : action := or_disabled (binary (λ a b, ok_or (checked_div_i64 a b) InvalidState)).
Definition OpMod : action := or_disabled (binary (λ a b, ok_or (checked_rem_i64 a b) InvalidState)).
Definition OpBoolAnd : action := λ _, binary (λ a b, Ok (b2z (negb (a =? 0) && negb (b =? 0)))).
Definition OpBoolOr : action := λ _, binary (λ a b, Ok (b2z (negb (a =? 0) || negb (b =? 0)))).
Definition OpNumEqual : action := λ _, binary (λ a b, Ok (b2z (a =? b))).
Definition OpNumEqualVerify : action := λ _, '(a, b) ← pop2 deserialize_as_i64; ensure (a =? b) VerifyError.
Definition OpNumNotEqual : action := λ _, binary (λ a b, Ok (b2z (negb (a =? b)))).
Definition OpLessThan : action := λ _, binary (λ a b, Ok (b2z (a <? b))).
Definition OpGreaterThan : action := λ _, binary (λ a b, Ok (b2z (b <? a))).
Definition OpLessThanOrEqual : action := λ _, binary (λ a b, Ok (b2z (a <=? b))).
Definition OpGreaterThanOrEqual : action := λ _, binary (λ a b, Ok (b2z (b <=? a))).
Definition OpMin : action := λ _, binary (λ a b, Ok (Z.min a b)).
Definition OpMax : action := λ _, binary (λ a b, Ok (Z.max a b)).
Definition OpWithin : action := λ _,
  '(x, l, u) ← pop3 deserialize_as_i64; push_number (b2z ((l <=? x) && (x <? u))).

(** ** Proofs and hashes *)

Definition OpZkPrecompile : action := or_invalid (
  tag ← on_dstack parse_tag;
  cost ← lift (tag_cost tag);
  engine_consume_script_units cost ;;
  (λ v, match verify_zk tag (dstack v) (meter v) with
        | Ok (s, m) => (Ok (), set_meter m (set_dstack s v))
        | Err e => (Err e, v)
        | Panic => (Panic, v)
        end) ;;
  push_bool true).
Definition OpBlake2bWithKey : action := or_invalid (
  '(d, key) ← pop2 raw;
  ensure (Zlength key <=? BLAKE2B_KEYBYTES) (ElementTooBig (Zlength key) BLAKE2B_KEYBYTES) ;;
  engine_consume_script_units (script_units_for_data PriceBlake2b (Zlength d)) ;;
  push_data (blake2b_256_keyed key d)).
Definition OpSHA256 : action := λ _,
  d ← pop1 raw; engine_consume_script_units (script_units_for_data PriceSha256 (Zlength d)) ;; push_data (sha256 d).
Definition OpBlake2b : action := λ _,
  d ← pop1 raw; engine_consume_script_units (script_units_for_data PriceBlake2b (Zlength d)) ;; push_data (blake2b_256 d).
Definition OpBlake3 : action := or_invalid (
  d ← pop1 raw; engine_consume_script_units (script_units_for_data PriceBlake3 (Zlength d)) ;; push_data (blake3_hash d)).
Definition OpBlake3WithKey : action := or_invalid (
  '(d, key) ← pop2 raw;
  ensure (Zlength key =? BLAKE3_KEY_LEN) (MalformedPush BLAKE3_KEY_LEN (Zlength key)) ;;
  engine_consume_script_units (script_units_for_data PriceBlake3 (Zlength d)) ;;
  push_data (blake3_keyed_hash key d)).

(** ** Signatures *)

(** The shared body of [OpCheckSig] and [OpCheckSigECDSA]. *)
Definition check_sig (check : Z → bytes → bytes → script_m bool) : script_m () :=
  '(sig, key) ← pop2 raw;
  match last sig with
  | Some typ =>
      hash_type ← lift (ok_or (sighash_from_u8 typ) (InvalidSigHashType typ));
      valid ← check hash_type key (take (length sig - 1) sig);
      push_bool valid
  | None => push_bool false
  end.
Definition OpCheckSigECDSA : action := λ _, check_sig (check_ecdsa_signature env).
Definition OpCheckSig : action := λ _, check_sig (check_schnorr_signature env).
Definition OpCheckSigVerify : action := λ op, OpCheckSig op ;; valid ← pop_bool; ensure valid VerifyError.
Definition OpCheckMultiSigECDSA : action := λ _, op_check_multisig_schnorr_or_ecdsa env true.
Definition OpCheckMultiSig : action := λ _, op_check_multisig_schnorr_or_ecdsa env false.
Definition OpCheckMultiSigVerify : action := λ op, OpCheckMultiSig op ;; valid ← pop_bool; ensure valid VerifyError.
Definition from_stack (check : bytes → bytes → script_m bytes → script_m bool) : script_m () :=
  '(signature, msg_hash, pubkey) ← pop3 raw;
  ensure (Zlength msg_hash =? 32) InvalidState ;;
  is_valid ← check pubkey signature (mret msg_hash);
  push_bool is_valid.
Definition OpCheckSigFromStack : action := or_invalid (from_stack check_schnorr_signature_with_msg_hash).
Definition OpCheckSigFromStackECDSA : action := or_invalid (from_stack check_ecdsa_signature_with_msg_hash).

(** ** Lock times *)

(** The popped bytes as a [u64]: at most 8, padded with zeros. *)
Definition pop_u64 : script_m Z :=
  b ← pop1 raw;
  ensure (Zlength b <=? 8) NumberTooBig ;;
  mret (from_le_bytes (b ++ zeros (8 - length b))).
Definition OpCheckLockTimeVerify : action := λ _,
  match script_source env with
  | TxInput tx input _ _ _ =>
      let tx_lock_time := lock_time (ptx tx) in
      stack_lock_time ← pop_u64;
      ensure (((tx_lock_time <? LOCK_TIME_THRESHOLD) && (stack_lock_time <? LOCK_TIME_THRESHOLD)) ||
              ((LOCK_TIME_THRESHOLD <=? tx_lock_time) && (LOCK_TIME_THRESHOLD <=? stack_lock_time))) UnsatisfiedLockTime ;;
      ensure (stack_lock_time <=? tx_lock_time) UnsatisfiedLockTime ;;
      ensure (negb (sequence input =? MAX_TX_IN_SEQUENCE_NUM)) UnsatisfiedLockTime
  | _ => throw InvalidSource
  end.
Definition OpCheckSequenceVerify : action := λ _,
  match script_source env with
  | TxInput _ input _ _ _ =>
      stack_sequence ← pop_u64;
      if negb (Z.land stack_sequence SEQUENCE_LOCK_TIME_DISABLED =? 0) then mret ()
      else
        ensure (Z.land (sequence input) SEQUENCE_LOCK_TIME_DISABLED =? 0) UnsatisfiedLockTime ;;
        ensure (Z.land stack_sequence SEQUENCE_LOCK_TIME_MASK <=? Z.land (sequence input) SEQUENCE_LOCK_TIME_MASK)
          UnsatisfiedLockTime
  | _ => throw InvalidSource
  end.

(** ** Introspection *)

Definition OpTxVersion : action := or_reserved (with_tx (λ tx, push_number (version (ptx tx)))).
Definition OpTxInputCount : action := λ _, with_tx (λ tx, push_number (as_i64 (Zlength (inputs (ptx tx))))).
Definition OpTxOutputCount : action := λ _, with_tx (λ tx, push_number (as_i64 (Zlength (outputs (ptx tx))))).
Definition OpTxLockTime : action := or_reserved (with_tx (λ tx, push_number (as_i64 (lock_time (ptx tx))))).
Definition OpTxSubnetId : action := or_reserved (with_tx (λ tx, push_data (subnetwork_id (ptx tx)))).
Definition OpTxGas : action := or_reserved (with_tx (λ tx, push_number (as_i64 (gas (ptx tx))))).
Definition OpTxPayloadSubstr : action := or_reserved (with_tx (λ tx,
  '(start, stop) ← pop_usize2;
  substr ← lift (substring (payload (ptx tx)) start stop);
  push_data substr)).
Definition OpTxInputIndex : action := λ _,
  match script_source env with TxInput _ _ idx _ _ => push_number (as_i64 idx) | _ => throw InvalidSource end.
Definition OpOutpointTxId : action := or_reserved (with_tx (λ tx,
  idx ← pop_usize; input ← lift (nth_input tx idx); push_data (transaction_id (previous_outpoint input)))).
Definition OpOutpointIndex : action := or_reserved (with_tx (λ tx,
  idx ← pop_usize; input ← lift (nth_input tx idx); push_number (outpoint_index (previous_outpoint input)))).
Definition OpTxInputScriptSigSubstr : action := or_reserved (with_tx (λ tx,
  '(idx, start, stop) ← pop_usize3;
  input ← lift (nth_input tx idx);
  substr ← lift (substring (signature_script input) start stop);
  push_data substr)).
Definition OpTxInputSeq : action := or_reserved (with_tx (λ tx,
  idx ← pop_usize; input ← lift (nth_input tx idx); push_data (to_le_bytes 8 (sequence input)))).
Definition OpTxInputAmount : action := λ _, with_tx (λ tx,
  idx ← pop_i32; u ← lift (try_utxo tx idx); n ← lift (try_i64 (amount u)); push_number n).
Definition OpTxInputSpk : action := λ _, with_tx (λ tx,
  idx ← pop_i32; u ← lift (try_utxo tx idx); push_data (spk_to_bytes (entry_spk u))).
Definition OpTxInputDaaScore : action := or_invalid (with_tx (λ tx,
  idx ← pop_usize; u ← lift (nth_utxo tx idx); push_number (as_i64 (block_daa_score u)))).
Definition OpTxInputIsCoinbase : action := or_reserved (with_tx (λ tx,
  idx ← pop_usize; u ← lift (nth_utxo tx idx); push_number (b2z (is_coinbase_entry u)))).
Definition OpTxOutputAmount : action := λ _, with_tx (λ tx,
  idx ← pop_i32; o ← lift (try_output tx idx); n ← lift (try_i64 (value o)); push_number n).
Definition OpTxOutputSpk : action := λ _, with_tx (λ tx,
  idx ← pop_i32; o ← lift (try_output tx idx); push_data (spk_to_bytes (out_spk o))).
Definition OpTxPayloadLen : action := or_invalid (with_tx (λ tx, push_number (as_i64 (Zlength (payload (ptx tx)))))).
Definition OpTxInputSpkLen : action := or_invalid (with_tx (λ tx,
  idx ← pop_usize; u ← lift (nth_utxo tx idx); push_number (as_i64 (Zlength (spk_to_bytes (entry_spk u)))))).
Definition OpTxInputSpkSubstr : action := or_invalid (with_tx (λ tx,
  '(idx, start, stop) ← pop_usize3;
  u ← lift (nth_utxo tx idx);
  substr ← lift (substring (spk_to_bytes (entry_spk u)) start stop);
  push_data substr)).
Definition OpTxOutputSpkLen : action := or_invalid (with_tx (λ tx,
  idx ← pop_usize;
  o ← lift (nth_output tx idx (Zlength (outputs (ptx tx))));
  push_number (as_i64 (Zlength (spk_to_bytes (out_spk o)))))).
Definition OpTxOutputSpkSubstr : action := or_invalid (with_tx (λ tx,
  '(idx, start, stop) ← pop_usize3;
  o ← lift (nth_output tx idx (Zlength (outputs (ptx tx))));
  substr ← lift (substring (spk_to_bytes (out_spk o)) start stop);
  push_data substr)).
Definition OpTxInputScriptSigLen : action := or_invalid (with_tx (λ tx,
  idx ← pop_usize; input ← lift (nth_input tx idx); push_number (as_i64 (Zlength (signature_script input))))).

(** ** Covenants *)

Definition check_input_index (tx : PopulatedTransaction) (idx : Z) : res TxScriptError () :=
  if Zlength (inputs (ptx tx)) <=? idx then Err (InvalidInputIndex idx (Zlength (inputs (ptx tx)))) else Ok ().
Definition OpAuthOutputCount : action := or_invalid (with_tx (λ tx,
  input_idx ← pop_usize;
  lift (check_input_index tx input_idx) ;;
  push_number (as_i64 (num_auth_outputs (covenants_ctx env) input_idx)))).
Definition OpAuthOutputIdx : action := or_invalid (with_tx (λ tx,
  '(input_idx, k) ← pop_usize2;
  lift (check_input_index tx input_idx) ;;
  output_idx ← lift (map_err Covenants (auth_output_index (covenants_ctx env) input_idx k));
  push_number (as_i64 output_idx))).
Definition OpNum2Bin : action := or_invalid (
  size ← pop_usize;
  ensure (size <=? 8) NotMinimalData ;;
  num ← pop_i64;
  r ← lift (map_err Serialization (serialize_i64 num (Some size)));
  push_data r).
Definition OpBin2Num : action := or_invalid (num ← pop_i64; push_number num).
Definition OpInputCovenantId : action := or_invalid (with_tx (λ tx,
  idx ← pop_usize; u ← lift (nth_utxo tx idx); push_data (default ZERO_HASH (entry_covenant_id u)))).
Definition OpCovInputCount : action := or_invalid (with_tx (λ _,
  id ← pop_hash; push_number (as_i64 (num_covenant_inputs (covenants_ctx env) id)))).
Definition OpCovInputIdx : action := or_invalid (with_tx (λ _,
  k ← pop_usize;
  id ← pop_hash;
  idx ← lift (map_err Covenants (covenant_input_index (covenants_ctx env) id k));
  push_number (as_i64 idx))).
Definition OpCovOutputCount : action := or_invalid (with_tx (λ _,
  id ← pop_hash; push_number (as_i64 (num_covenant_outputs (covenants_ctx env) id)))).
Definition OpCovOutputIdx : action := or_invalid (with_tx (λ _,
  k ← pop_usize;
  id ← pop_hash;
  idx ← lift (map_err Covenants (covenant_output_index (covenants_ctx env) id k));
  push_number (as_i64 idx))).
Definition OpChainblockSeqCommit : action := λ op,
  match seq_commit_accessor env with
  | None => throw (InvalidOpcode (code op) (data op))
  | Some acc =>
      block ← pop_hash;
      lift (match is_chain_ancestor_from_pov acc block with
            | None => Err (BlockAlreadyPruned block)
            | Some false => Err (BlockNotSelected block)
            | Some true => Ok ()
            end) ;;
      commitment ← lift (ok_or (seq_commitment_within_depth acc block) (BlockIsTooDeep block));
      upd_dstack (λ s, push_item s (Ok commitment))
  end.
Definition OpOutputCovenantId : action := or_invalid (with_tx (λ tx,
  idx ← pop_usize;
  o ← lift (nth_output tx idx (Zlength (inputs (ptx tx))));
  push_data (match covenant o with Some c => binding_covenant_id c | None => ZERO_HASH end))).
Definition OpOutputAuthorizingInput : action := or_invalid (with_tx (λ tx,
  idx ← pop_usize;
  o ← lift (nth_output tx idx (Zlength (inputs (ptx tx))));
  push_number (match covenant o with Some c => authorizing_input c | None => -1 end))).

(** ** Dispatch *)

Definition opcode_table : list (Z * action) := [
  (79, λ _, push_literal_number (-1)); (80, reserved);
  (97, OpNop); (98, reserved); (99, OpIf); (100, OpNotIf); (101, reserved); (102, reserved); (103, OpElse); (104, OpEndIf);
  (105, OpVerify); (106, OpReturn); (107, OpToAltStack); (108, OpFromAltStack); (109, Op2Drop); (110, Op2Dup); (111, Op3Dup);
  (112, Op2Over); (113, Op2Rot); (114, Op2Swap); (115, OpIfDup); (116, OpDepth); (117, OpDrop); (118, OpDup); (119, OpNip);
  (120, OpOver); (121, OpPick); (122, OpRoll); (123, OpRot); (124, OpSwap); (125, OpTuck); (126, OpCat); (127, OpSubstr);
  (128, disabled); (129, disabled); (130, OpSize); (131, OpInvert); (132, OpAnd); (133, OpOr); (134, OpXor); (135, OpEqual);
  (136, OpEqualVerify); (137, reserved); (138, reserved); (139, Op1Add); (140, Op1Sub); (141, disabled); (142, disabled);
  (143, OpNegate); (144, OpAbs); (145, OpNot); (146, Op0NotEqual); (147, OpAdd); (148, OpSub); (149, OpMul); (150, OpDiv);
  (151, OpMod); (152, disabled); (153, disabled); (154, OpBoolAnd); (155, OpBoolOr); (156, OpNumEqual);
  (157, OpNumEqualVerify); (158, OpNumNotEqual); (159, OpLessThan); (160, OpGreaterThan); (161, OpLessThanOrEqual);
  (162, OpGreaterThanOrEqual); (163, OpMin); (164, OpMax); (165, OpWithin); (166, OpZkPrecompile); (167, OpBlake2bWithKey);
  (168, OpSHA256); (169, OpCheckMultiSigECDSA); (170, OpBlake2b); (171, OpCheckSigECDSA); (172, OpCheckSig);
  (173, OpCheckSigVerify); (174, OpCheckMultiSig); (175, OpCheckMultiSigVerify); (176, OpCheckLockTimeVerify);
  (177, OpCheckSequenceVerify); (178, OpTxVersion); (179, OpTxInputCount); (180, OpTxOutputCount); (181, OpTxLockTime);
  (182, OpTxSubnetId); (183, OpTxGas); (184, OpTxPayloadSubstr); (185, OpTxInputIndex); (186, OpOutpointTxId);
  (187, OpOutpointIndex); (188, OpTxInputScriptSigSubstr); (189, OpTxInputSeq); (190, OpTxInputAmount); (191, OpTxInputSpk);
  (192, OpTxInputDaaScore); (193, OpTxInputIsCoinbase); (194, OpTxOutputAmount); (195, OpTxOutputSpk); (196, OpTxPayloadLen);
  (197, OpTxInputSpkLen); (198, OpTxInputSpkSubstr); (199, OpTxOutputSpkLen); (200, OpTxOutputSpkSubstr);
  (201, OpTxInputScriptSigLen); (203, OpAuthOutputCount); (204, OpAuthOutputIdx); (205, OpNum2Bin); (206, OpBin2Num);
  (207, OpInputCovenantId); (208, OpCovInputCount); (209, OpCovInputIdx); (210, OpCovOutputCount); (211, OpCovOutputIdx);
  (212, OpChainblockSeqCommit); (213, OpOutputCovenantId); (214, OpOutputAuthorizingInput); (215, OpCheckSigFromStack);
  (216, OpCheckSigFromStackECDSA); (217, OpBlake3); (218, OpBlake3WithKey)].

Fixpoint find_action (c : Z) (l : list (Z * action)) : option action :=
  match l with [] => None | (c', a) :: l => if c =? c' then Some a else find_action c l end.

(** [opcode.execute(vm)] *)
Definition op_execute : action := λ op,
  if code op =? codes.OpFalse then push_literal_data []
  else if code op <=? codes.OpPushData4 then push_literal_data (data op)
  else if (codes.OpTrue <=? code op) && (code op <=? codes.Op16) then push_literal_number (code op - codes.OpTrue + 1)
  else match find_action (code op) opcode_table with Some a => a op | None => invalid op end.
End opcodes.
