(* ===== verification/ScriptEngine.v ===== *)
(** Script execution.

    crypto/txscript/src/lib.rs: constructing an engine for a transaction input or a
    script, executing one opcode, one script, and all the scripts of an input with
    the pay-to-script-hash rule, and the final conditions. *)
From stdpp Require Import base gmap list.
From S2P Require Import Prelude Encoding Bundle Tx TxHash ScriptNum DataStack ScriptMeter Covenants ScriptParse ScriptBuilder ZkPrecompiles.
From S2P Require Import Engine Opcodes.

Inductive ScriptExecutionOutput := Executed | AcceptedUnknownVersion.

Section script_engine.
Context `{Secp, ScriptHashes, ZkBackend}.

(** ** Construction *)

Definition new_stack (f : EngineFlags) : Stack := stack_new [] (covenants_enabled f).
Definition fresh_vm (f : EngineFlags) (m : RuntimeResourceMeter) (cache : Cache) (reused : Reused) : vm :=
  mk_vm (new_stack f) (new_stack f) [] 0 m cache reused.

(** The context an engine is given: cache, reused values, covenants, accessor. *)
Record EngineContext := mk_ctx {
  ctx_reused_values : Reused;
  ctx_sig_cache : Cache;
  ctx_covenants_ctx : CovenantsContext;
  ctx_seq_commit_accessor : option SeqCommitAccessor
}.
Definition engine_ctx_new (cache : Cache) (reused : Reused) : EngineContext := mk_ctx reused cache EMPTY_COV_CONTEXT None.
Definition with_covenants_ctx (c : EngineContext) (cov : CovenantsContext) : EngineContext :=
  mk_ctx (ctx_reused_values c) (ctx_sig_cache c) cov (ctx_seq_commit_accessor c).
Definition with_seq_commit_accessor_opt (c : EngineContext) (acc : option SeqCommitAccessor) : EngineContext :=
  mk_ctx (ctx_reused_values c) (ctx_sig_cache c) (ctx_covenants_ctx c) acc.

Definition new_env (source : ScriptSource) (c : EngineContext) (f : EngineFlags) : engine_env :=
  mk_env source (ctx_covenants_ctx c) (ctx_seq_commit_accessor c) f.

Definition engine_new (c : EngineContext) (f : EngineFlags) : engine_env * vm :=
  let m := if covenants_enabled f then new_script_units (flag_sigop_script_units f) u64_max else new_sigops 255 in
  (new_env (StandAloneScripts []) c f, fresh_vm f m (ctx_sig_cache c) (ctx_reused_values c)).

Definition from_transaction_input_with_script_units_limit (tx : PopulatedTransaction) (input : TransactionInput) (input_idx : Z)
    (utxo_entry : UtxoEntry) (c : EngineContext) (f : EngineFlags) (limit : Z) : exec (engine_env * vm) :=
  let m := if covenants_enabled f then new_script_units (flag_sigop_script_units f) limit
           else new_sigops (default 0 (sig_op_count (compute_commit input))) in
  let is_p2sh := is_pay_to_script_hash (spk_script (entry_spk utxo_entry)) in
  guard_panic (input_idx <? Zlength (inputs (ptx tx))) ;;
  Ok (new_env (TxInput tx input input_idx utxo_entry is_p2sh) c f, fresh_vm f m (ctx_sig_cache c) (ctx_reused_values c)).

Definition from_transaction_input (tx : PopulatedTransaction) (input : TransactionInput) (input_idx : Z)
    (utxo_entry : UtxoEntry) (c : EngineContext) (f : EngineFlags) : exec (engine_env * vm) :=
  from_transaction_input_with_script_units_limit tx input input_idx utxo_entry c f u64_max.

Definition from_script_with_script_units_limit (script : bytes) (reused : Reused) (cache : Cache) (limit : Z)
    (f : EngineFlags) : engine_env * vm :=
  let m := if covenants_enabled f then new_script_units (flag_sigop_script_units f) limit else new_sigops 255 in
  (new_env (StandAloneScripts [script]) (engine_ctx_new cache reused) f, fresh_vm f m cache reused).
Definition engine_from_script (script : bytes) (reused : Reused) (cache : Cache) (f : EngineFlags) : engine_env * vm :=
  from_script_with_script_units_limit script reused cache u64_max f.

(** ** Execution *)

Section execution.
Context (env : engine_env).
Abbreviation cov := (covenants_enabled (flags env)).

Definition execute_opcode (opcode : OpCode) : script_m () :=
  (if negb (is_push_opcode opcode) then count_ops env 1
   else
     ensure (op_len opcode <=? max_script_element_size cov) (ElementTooBig (op_len opcode) (max_script_element_size cov))) ;;
  executing ← gets is_executing;
  if executing || is_conditional opcode then
    (if negb cov && (0 <? code opcode) && (code opcode <=? 78) then lift (check_minimal_data_push opcode) else mret ()) ;;
    op_execute env opcode ;;
    pushed ← engine_pop_pushed_bytes;
    upd_meter (λ m, charge_newly_pushed_bytes m pushed)
  else mret ().

(** One step of the loop over the parsed opcodes. *)
Definition script_step (verify_only_push : bool) (r : res TxScriptError OpCode) : script_m () :=
  opcode ← lift r;
  ensure (negb (is_disabled opcode cov)) (OpcodeDisabled (code opcode) (data opcode)) ;;
  ensure (negb (always_illegal opcode)) (OpcodeReserved (code opcode) (data opcode)) ;;
  ensure (negb (verify_only_push && negb (is_push_opcode opcode))) SignatureScriptNotPushOnly ;;
  execute_opcode opcode ;;
  d ← gets dstack;
  a ← gets astack;
  combined_size ← lift (add_u 64 (stack_len a) (stack_len d));
  ensure (combined_size <=? MAX_STACK_SIZE) (StackSizeExceeded combined_size MAX_STACK_SIZE).

Fixpoint run_opcodes (verify_only_push : bool) (l : list (res TxScriptError OpCode)) : script_m () :=
  match l with
  | [] => mret ()
  | r :: l => script_step verify_only_push r ;; run_opcodes verify_only_push l
  end.

Definition execute_script (script : bytes) (verify_only_push : bool) : script_m () := λ v,
  let '(script_result, v) := run_opcodes verify_only_push (parse_script script) v in
  if is_ok script_result && negb (bool_decide (cond_stack v = [])) then (Err ErrUnbalancedConditional, v)
  else (script_result, set_num_ops 0 (set_astack (clear (astack v)) v)).

Definition check_error_condition (final_script : bool) : script_m () :=
  s ← gets dstack;
  (if final_script then
     ensure (stack_len s <=? 1) (CleanStack (stack_len s - 1)) ;;
     ensure (negb (stack_len s =? 0)) EmptyStack
   else mret ()) ;;
  v ← pop_bool;
  ensure v EvalFalse.

(** The scripts, the pay-to-script-hash flag and the price of the spent script. *)
Definition scripts_of_source : option (list bytes * bool * Z) :=
  match script_source env with
  | TxInput _ input _ utxo_entry is_p2sh =>
      if MAX_SCRIPT_PUBLIC_KEY_VERSION <? spk_version (entry_spk utxo_entry) then None
      else Some ([signature_script input; spk_script (entry_spk utxo_entry)], is_p2sh,
                 saturating_sub (Zlength (spk_script (entry_spk utxo_entry))) STANDARD_SCRIPT_PUB_KEY_MAX_SIZE)
  | StandAloneScripts scripts => Some (scripts, false, 0)
  end.

Definition is_tx_input : bool := match script_source env with TxInput _ _ _ _ _ => true | _ => false end.

(** The loop over the non-empty scripts from index [idx]; the result is the stack
    saved before script 1 of a pay-to-script-hash spend. *)
Fixpoint run_scripts (is_p2sh : bool) (idx : nat) (scripts : list bytes) (saved : option Stack) : script_m (option Stack) :=
  match scripts with
  | [] => mret saved
  | s :: scripts =>
      if bool_decide (s = []) then run_scripts is_p2sh (S idx) scripts saved
      else
        d ← gets dstack;
        let saved := if is_p2sh && (idx =? 1)%nat then Some d else saved in
        execute_script s ((idx =? 0)%nat && is_tx_input) ;;
        run_scripts is_p2sh (S idx) scripts saved
  end.

Definition execute_scripts (scripts : list bytes) (is_p2sh : bool) (grams : Z) : script_m ScriptExecutionOutput :=
  units ← lift (script_units_of_gram grams);
  engine_consume_script_units units ;;
  ensure (negb (bool_decide (scripts = []))) NoScripts ;;
  ensure (negb (forallb (λ s : bytes, bool_decide (s = [])) scripts)) EvalFalse ;;
  lift (match List.find (λ s : bytes, max_scripts_size cov <? Zlength s) scripts with
        | Some s => Err (ScriptSize (Zlength s) (max_scripts_size cov))
        | None => Ok ()
        end) ;;
  saved ← run_scripts is_p2sh 0 scripts None;
  (if is_p2sh then
     check_error_condition false ;;
     d ← lift (ok_or saved EmptyStack);
     modify (set_dstack d) ;;
     script ← pop_bytes;
     execute_script script false
   else mret ()) ;;
  mret Executed.

Definition execute_inner : script_m ScriptExecutionOutput :=
  match scripts_of_source with
  | None => mret AcceptedUnknownVersion
  | Some (scripts, is_p2sh, grams) => execute_scripts scripts is_p2sh grams
  end.

Definition execute : script_m () :=
  out ← execute_inner;
  match out with Executed => check_error_condition true | AcceptedUnknownVersion => mret () end.

Definition execute_and_return_stacks : script_m (list bytes * list bytes) :=
  _ ← execute_inner;
  d ← gets dstack;
  a ← gets astack;
  mret (inner d, inner a).
End execution.

Definition engine_used_sig_ops (v : vm) : exec Z := used_sig_ops (meter v).
Definition engine_used_script_units (v : vm) : exec Z := used_script_units (meter v).

(** Signature operations of an input, by executing it with a disabled cache and the
    default flags. *)
Definition get_sig_op_count (tx : PopulatedTransaction) (input_idx : Z) (cov : CovenantsContext)
    (acc : option SeqCommitAccessor) : res TxScriptError Z :=
  let c := with_seq_commit_accessor_opt (with_covenants_ctx (engine_ctx_new (cache_new 0 []) reused_new) cov) acc in
  input ← unwrap (inputs (ptx tx) !! Z.to_nat input_idx);
  entry ← ok_or (utxo tx input_idx) (InvalidInputIndex (to_signed 32 (wrap 32 input_idx)) (Zlength (inputs (ptx tx))));
  '(env, v) ← map_err (λ e : Empty_set, match e with end) (from_transaction_input tx input input_idx entry c default_flags);
  match execute env v with
  | (Ok _, v) => map_err (λ e : Empty_set, match e with end) (engine_used_sig_ops v)
  | (Err e, _) => Err e
  | (Panic, _) => Panic
  end.
End script_engine.
