(* ===== verification/ExampleCrypto.v ===== *)
(** Concrete instances of the engine's libraries, for the witnesses.

    Keys and signatures are the byte strings themselves; a signature is valid when
    it starts with the [example_hash] of the key and the message.  A
    pay-to-public-key spend signed that way is the example input. *)
From stdpp Require Import base gmap list.
From S2P Require Import Prelude Encoding Bundle Tx TxHash ScriptNum DataStack ScriptMeter Covenants ScriptParse ScriptBuilder ZkPrecompiles.
From S2P Require Import Engine Opcodes ScriptEngine.

Definition sized (n : Z) (b : bytes) : option bytes := if Zlength b =? n then Some b else None.
Definition example_verify (sig msg key : bytes) : bool := bool_decide (take 32 sig = example_hash (key ++ msg)).
Definition example_sign (key msg : bytes) : bytes := example_hash (key ++ msg) ++ zeros 32.

#[export] Instance example_secp : Secp := {|
  XOnlyPublicKey := bytes; EcdsaPublicKey := bytes; SchnorrSignature := bytes; EcdsaSignature := bytes;
  xonly_from_slice := sized 32; ecdsa_key_from_slice := sized 33;
  schnorr_sig_from_slice := sized 64; ecdsa_sig_from_compact := sized 64;
  schnorr_verify := example_verify; ecdsa_verify := example_verify
|}.
#[export] Instance example_script_hashes : ScriptHashes := {|
  sha256 d := example_hash (1 :: d); blake2b_256 d := example_hash (2 :: d); blake2b_256_keyed k d := example_hash (3 :: k ++ d);
  blake3_hash d := example_hash (4 :: d); blake3_keyed_hash k d := example_hash (5 :: k ++ d); domain_hash := example_hasher
|}.
#[export] Instance example_zk : ZkBackend := {|
  G1Affine := unit; G2Affine := unit; Fr := bytes; Proof := bytes; PreparedInputs := list bytes;
  g1_deserialize _ b := Some ((), b); g2_deserialize b := Some ((), b);
  u64_deserialize b := if Zlength b =? 8 then Some (wrap 64 (from_le_bytes b), []) else None;
  fr_deserialize_uncompressed b := Some b; proof_deserialize b := Some (b, []); g1_batch_check _ := true;
  prepare_inputs _ l := Some l; verify_proof _ p l := Some (bool_decide (p = mjoin l));
  Digest := bytes; DIGEST_ZERO := zeros 32; digest_from_bytes := sized 32;
  digest_from_words l := Some (mjoin (to_le_bytes 4 <$> l)); ALLOWED_CONTROL_ROOT := zeros 32; OUTPUT_SIZE := 32;
  baby_bear_as_u32 x := x; read_sha_halfs l := Some (mjoin (to_le_bytes 2 <$> take 16 l)); is_digest_valid _ := true;
  hash_pair a b := example_hash (a ++ b); stark_verify seal check := (33 <=? Zlength seal) && check (zeros 32);
  system_state_digest pc d := example_hash (to_le_bytes 4 pc ++ d);
  tagged_struct t ds ws := example_hash (t ++ mjoin ds ++ mjoin (to_le_bytes 4 <$> ws)); halted_pair x := (0, x)
|}.

Definition example_key : bytes := replicate 32 7.
Definition example_p2pk_entry : UtxoEntry := mk_entry 6000 (mk_spk 0 ([32] ++ example_key ++ [172])) 12 false None.
(** The spending transaction with a given signature script. *)
Definition example_p2pk_tx (signature_script : bytes) : Transaction :=
  mk_tx 0 [mk_input (mk_outpoint (zeros 32) 3) signature_script 7 (SigopCount 1)] [mk_output 5000 (mk_spk 0 [170; 32]) None]
    0 SUBNETWORK_ID_NATIVE 0 [] 0.
Definition example_message : bytes := Eval vm_compute in
  match calc_schnorr_signature_hash example_hasher (mk_populated (example_p2pk_tx []) [example_p2pk_entry]) 0 SIG_HASH_ALL reused_new with
  | Ok (h, _) => h
  | _ => []
  end.
Definition example_signature : bytes := Eval vm_compute in example_sign example_key example_message ++ [SIG_HASH_ALL].
Definition example_p2pk_spend : PopulatedTransaction :=
  mk_populated (example_p2pk_tx ([65] ++ example_signature)) [example_p2pk_entry].
Definition example_p2pk_input : TransactionInput := mk_input (mk_outpoint (zeros 32) 3) ([65] ++ example_signature) 7 (SigopCount 1).
Definition example_context : EngineContext := engine_ctx_new (cache_new 4 []) reused_new.
