(* ===== verification/EngineSafe.v ===== *)
(** Script execution never panics and keeps its limits.

    A weakest-precondition calculus for the engine's monad ([wp]) with one rule per
    primitive, against the invariant [vm_ok]: entries are byte strings of bounded
    size, the stacks hold at most 244 entries between opcodes, counters and meter
    stay in their ranges.  The rules are applied by the tactic [wp_auto]; every
    opcode is checked by it through [opcode_table].

    The theorem covers every script, every transaction whose fields have their
    widths, and every behaviour of the signature, hash and proof libraries within
    the documented lengths. *)
From stdpp Require Import base gmap list.
From S2P Require Import Prelude Encoding Bundle Tx TxHash ScriptNum DataStack ScriptMeter Covenants ScriptParse ScriptBuilder ZkPrecompiles.
From S2P Require Import Engine Opcodes ScriptEngine ExampleCrypto.

(** ** The stacks *)

Definition entry_max (cov : bool) : Z := if cov then MAX_SCRIPT_ELEMENT_SIZE_POST_TOCCATA else 2 ^ 32.
Definition entry_ok (cov : bool) (b : bytes) : Prop := wf_bytes b ∧ Zlength b <= entry_max cov.
(** What is pushed: bytes that the size check of the stack may still refuse. *)
Definition item_ok (b : bytes) : Prop := wf_bytes b ∧ Zlength b <= 2 ^ 32.

Definition stack_ok (cov : bool) (s : Stack) : Prop :=
  stack_covenants s = cov ∧ Forall (entry_ok cov) (inner s) ∧ 0 <= pushed_bytes s <= 2 ^ 40.
(** A stack after an operation that adds at most [4 * j] entries. *)
Definition stack_step (cov : bool) (j : Z) (s s' : Stack) : Prop :=
  stack_covenants s' = cov ∧ Forall (entry_ok cov) (inner s') ∧ Zlength (inner s') <= Zlength (inner s) + 4 * j ∧
  pushed_bytes s <= pushed_bytes s' <= pushed_bytes s + j * 2 ^ 34.
Definition upd_ok (cov : bool) (j : Z) (s : Stack) (r : res TxScriptError Stack) : Prop :=
  match r with Ok s' => stack_step cov j s s' | Err _ => True | Panic => False end.
Definition pop_ok {A} (cov : bool) (P : A → Prop) (s : Stack) (r : stack_res A) : Prop :=
  match r with Ok (a, s') => stack_step cov 0 s s' ∧ P a | Err _ => True | Panic => False end.

Ltac stk := cbn [mbind res_bind upd_ok pop_ok]; unfold stack_step, with_inner; cbn [inner stack_covenants pushed_bytes].

Lemma entry_item cov b : entry_ok cov b → item_ok b.
Proof. intros [Hw Hl]. split; [done|]. destruct cov; cbn in Hl; unfold MAX_SCRIPT_ELEMENT_SIZE_POST_TOCCATA in Hl; lia. Qed.

Lemma item_small b : wf_bytes b → Zlength b <= 64 → item_ok b ∧ ∀ cov, entry_ok cov b.
Proof. intros Hw Hl. split; [split; [done|lia]|]. intros cov. split; [done|]. destruct cov; cbn; unfold MAX_SCRIPT_ELEMENT_SIZE_POST_TOCCATA; lia. Qed.

Lemma check_element_size_ok cov s b :
  stack_ok cov s → item_ok b → check_element_size s b = Ok () → entry_ok cov b.
Proof.
  intros (<- & _) [Hw Hl]. unfold check_element_size, max_element_size, entry_ok, entry_max.
  destruct (stack_covenants s); [|done]. destruct (Z.ltb_spec MAX_SCRIPT_ELEMENT_SIZE_POST_TOCCATA (Zlength b)); [done|]. auto.
Qed.

Lemma check_element_size_total s b : check_element_size s b ≠ Panic.
Proof. unfold check_element_size. by case_match. Qed.

Lemma add_pushed_bytes_ok s n : 0 <= pushed_bytes s <= 2 ^ 40 → 0 <= n <= 2 ^ 40 →
  add_pushed_bytes s n = Ok (mk_stack (inner s) (stack_covenants s) (pushed_bytes s + n)).
Proof.
  intros Hs Hn. unfold add_pushed_bytes.
  replace (checked_add 64 (pushed_bytes s) n) with (Some (pushed_bytes s + n)) by (symmetry; apply checked_add_Some; lia). done.
Qed.

Lemma push_ok cov s b : stack_ok cov s → item_ok b → upd_ok cov 1 s (push s b).
Proof.
  intros Hs Hb. unfold push. pose proof (check_element_size_total s b).
  destruct (check_element_size s b) as [[]| |] eqn:E; cbn [mbind res_bind]; [|done|done].
  pose proof (check_element_size_ok cov s b Hs Hb E) as He. destruct Hs as (Hc & Hf & Hp). pose proof (Zlength_ge0 b).
  destruct Hb as [_ Hb]. rewrite add_pushed_bytes_ok by lia. stk. split_and!.
  - done. - apply Forall_app. by rewrite Forall_singleton. - rewrite Zlength_snoc. lia. - lia. - lia.
Qed.

Lemma push_unmetered_ok cov s b : stack_ok cov s → item_ok b → upd_ok cov 1 s (push_unmetered s b).
Proof.
  intros Hs Hb. unfold push_unmetered. pose proof (check_element_size_total s b).
  destruct (check_element_size s b) as [[]| |] eqn:E; cbn [mbind res_bind]; [|done|done].
  pose proof (check_element_size_ok cov s b Hs Hb E) as He. destruct Hs as (Hc & Hf & Hp). stk. split_and!.
  - done. - apply Forall_app. by rewrite Forall_singleton. - rewrite Zlength_snoc. lia. - lia. - lia.
Qed.

(** A serialized value: a short byte string or an error. *)
Definition short_ok (r : res SerializationError bytes) : Prop :=
  match r with Ok b => wf_bytes b ∧ Zlength b <= 64 | Err _ => True | Panic => False end.

Lemma push_item_ok cov s r : stack_ok cov s → short_ok r → upd_ok cov 1 s (push_item s r) ∧ upd_ok cov 1 s (push_item_unmetered s r).
Proof.
  intros (Hc & Hf & Hp) Hr. unfold push_item, push_item_unmetered. destruct r as [b| |]; cbn [map_err mbind res_bind]; [|done|done].
  destruct Hr as [Hw Hl]. pose proof (Zlength_ge0 b). rewrite add_pushed_bytes_ok by lia.
  assert (entry_ok cov b) by (by apply item_small).
  cbn [mbind res_bind]; split; stk; (split_and!; [done|apply Forall_app; by rewrite Forall_singleton|rewrite Zlength_snoc; lia|lia|lia]).
Qed.

Lemma Zlength_take {A} n (l : list A) : Zlength (take n l) <= Zlength l.
Proof. unfold Zlength. rewrite length_take. lia. Qed.

(** Keeping part of the stack, and rearranging it. *)
Lemma with_inner_sub cov s l :
  stack_ok cov s → Forall (entry_ok cov) l → Zlength l <= Zlength (inner s) → stack_step cov 0 s (with_inner s l).
Proof. intros (Hc & Hf & Hp) Hl Hn. stk. split_and!; try done; lia. Qed.

Lemma split_top_ok cov n s : stack_ok cov s →
  stack_step cov 0 s (snd (split_top n s)) ∧ Forall (entry_ok cov) (fst (split_top n s)).
Proof.
  intros Hs. unfold split_top. cbn [fst snd]. destruct (Hs) as (_ & Hf & _). split; [|by apply Forall_drop].
  apply with_inner_sub; [done|by apply Forall_take|apply Zlength_take].
Qed.

Lemma map_res_ok {A B} (P : A → Prop) (R : B → Prop) (f : A → res TxScriptError B) l :
  (∀ x, P x → match f x with Ok y => R y | Err _ => True | Panic => False end) → Forall P l →
  match map_res f l with Ok ys => Forall R ys ∧ length ys = length l | Err _ => True | Panic => False end.
Proof.
  intros Hf. induction 1 as [|x l Hx Hl IH]; cbn [map_res]; [by split; [apply Forall_nil|]|].
  specialize (Hf x Hx). destruct (f x); cbn [mbind res_bind]; [|done|done].
  destruct (map_res f l); cbn [mbind res_bind]; [|done|done]. destruct IH as [IH1 IH2]. split; [by apply Forall_cons|cbn; lia].
Qed.

Lemma pop_items_ok {T} cov (R : T → Prop) n (d : bytes → bool → res TxScriptError T) s :
  stack_ok cov s → (∀ b e, entry_ok cov b → match d b e with Ok y => R y | Err _ => True | Panic => False end) →
  pop_ok cov (λ l, Forall R l ∧ length l = n) s (pop_items n d s).
Proof.
  intros Hs Hd. unfold pop_items. destruct (Nat.ltb_spec (length (inner s)) n) as [|Hn]; [done|].
  destruct (split_top_ok cov n s Hs) as [Hs' Hl]. destruct (split_top n s) as [items s'] eqn:E. cbn [fst snd] in *.
  pose proof (map_res_ok (entry_ok cov) R (λ v, d v (negb (stack_covenants s'))) items (λ x Hx, Hd x _ Hx) Hl) as Hm.
  destruct (map_res _ items); cbn [mbind res_bind]; [|done|done]. destruct Hm as [Hm1 Hm2].
  cbn. split; [done|]. split; [done|]. rewrite Hm2. unfold split_top in E. injection E as <- _. rewrite length_drop. lia.
Qed.

Lemma pop_is_ok cov s : stack_ok cov s → pop_ok cov (entry_ok cov) s (pop s).
Proof.
  intros Hs. unfold pop. destruct (last (inner s)) as [x|] eqn:E; [|done].
  destruct (Hs) as (_ & Hf & _). cbn. split.
  - apply with_inner_sub; [done|by apply Forall_take|apply Zlength_take].
  - apply last_Some in E as [l' E]. rewrite E, Forall_app, Forall_singleton in Hf. by destruct Hf.
Qed.

Lemma split_off_ok cov s n : stack_ok cov s → 0 <= n <= stack_len s →
  pop_ok cov (λ l, Forall (entry_ok cov) l ∧ Zlength l = stack_len s - n) s (split_off s n).
Proof.
  intros Hs Hn. unfold split_off. rewrite (proj2 (Z.leb_le _ _)) by lia. cbn. destruct (Hs) as (_ & Hf & _).
  split; [apply with_inner_sub; [done|by apply Forall_take|apply Zlength_take]|]. split; [by apply Forall_drop|].
  unfold stack_len, Zlength in *. rewrite length_drop. lia.
Qed.

Lemma total_bytes_bound cov l : Forall (entry_ok cov) l → Zlength l <= 8 → ∃ n, total_bytes l = Ok n ∧ 0 <= n <= Zlength l * 2 ^ 32.
Proof.
  intros Hl Hn. assert (∀ l acc, Forall (entry_ok cov) l → 0 <= acc → acc + Zlength l * 2 ^ 32 < 2 ^ 64 →
    ∃ n, res_foldl (λ total item, add_u 64 total (Zlength item)) acc l = Ok (E := TxScriptError) n ∧
      acc <= n <= acc + Zlength l * 2 ^ 32) as Hgen.
  { clear. intros l acc Hl. revert acc. induction Hl as [|x l Hx Hl IH]; intros acc Ha Hb; cbn [res_foldl].
    { exists acc. split; [done|]. change (Zlength []) with 0. lia. }
    apply entry_item in Hx as [_ Hx]. pose proof (Zlength_ge0 x). pose proof (Zlength_ge0 l).
    assert (Zlength (x :: l) = Zlength l + 1) as Hxl by (unfold Zlength; cbn; lia). rewrite Hxl in *.
    replace (add_u 64 acc (Zlength x)) with (Ok (E := TxScriptError) (acc + Zlength x)) by (symmetry; apply add_u_ok; lia).
    cbn [mbind res_bind]. destruct (IH (acc + Zlength x)) as (n & -> & ?); [lia|lia|]. exists n. split; [done|lia]. }
  destruct (Hgen l 0 Hl) as (n & Hn' & ?); [lia|lia|]. exists n. split; [exact Hn'|lia].
Qed.

Lemma append_block_ok cov s (l : list bytes) :
  stack_ok cov s → Forall (entry_ok cov) l → Zlength l <= 3 →
  upd_ok cov 1 s (added ← total_bytes l; s ← add_pushed_bytes s added; Ok (with_inner s (inner s ++ l))).
Proof.
  intros (Hc & Hf & Hp) Hl Hn. destruct (total_bytes_bound cov l Hl) as (n & -> & Hb); [lia|]. cbn [mbind res_bind].
  rewrite add_pushed_bytes_ok by lia. stk. split_and!; [done|by apply Forall_app|rewrite Zlength_app; lia|lia|lia].
Qed.

Lemma dup_items_ok cov n s : stack_ok cov s → (n <= 3)%nat → upd_ok cov 1 s (dup_items n s).
Proof.
  intros Hs Hn. unfold dup_items. destruct (n <=? length (inner s))%nat; [|done]. destruct (Hs) as (_ & Hf & _).
  apply append_block_ok; [done|by apply Forall_drop|]. unfold Zlength. rewrite length_drop. lia.
Qed.
Lemma over_items_ok cov n s : stack_ok cov s → (n <= 3)%nat → upd_ok cov 1 s (over_items n s).
Proof.
  intros Hs Hn. unfold over_items. destruct (2 * n <=? length (inner s))%nat; [|done]. destruct (Hs) as (_ & Hf & _).
  apply append_block_ok; [done|by apply Forall_take, Forall_drop|]. unfold Zlength. rewrite length_take, length_drop. lia.
Qed.
Lemma drop_items_ok cov n s : stack_ok cov s → upd_ok cov 0 s (drop_items n s).
Proof. intros Hs. unfold drop_items. destruct (n <=? length (inner s))%nat; [|done]. by apply split_top_ok. Qed.

Lemma rotate_step cov from k s : stack_ok cov s → stack_step cov 0 s (with_inner s (rotate_from from k (inner s))).
Proof.
  intros Hs. destruct (Hs) as (_ & Hf & _). apply with_inner_sub; [done| |].
  - unfold rotate_from. rewrite !Forall_app. split_and!; [by apply Forall_take|by apply Forall_drop, Forall_drop|by apply Forall_take, Forall_drop].
  - unfold rotate_from, Zlength. rewrite !length_app, !length_take, !length_drop. lia.
Qed.
Lemma rot_items_ok cov n s : stack_ok cov s → upd_ok cov 0 s (rot_items n s).
Proof. intros Hs. unfold rot_items. destruct (3 * n <=? length (inner s))%nat; [|done]. by apply rotate_step. Qed.
Lemma swap_items_ok cov n s : stack_ok cov s → upd_ok cov 0 s (swap_items n s).
Proof. intros Hs. unfold swap_items. destruct (2 * n <=? length (inner s))%nat; [|done]. by apply rotate_step. Qed.
Lemma stack_step_refl cov s : stack_ok cov s → stack_step cov 0 s s.
Proof. intros (Hc & Hf & Hp). unfold stack_step. split_and!; try done; lia. Qed.
Lemma roll_ok cov loc s : stack_ok cov s → upd_ok cov 0 s (roll s loc).
Proof.
  intros Hs. unfold roll. destruct (stack_len s <=? loc); [done|]. destruct (loc =? 0); [by apply stack_step_refl|by apply rotate_step].
Qed.

Lemma stack_remove_ok cov s n : stack_ok cov s → 0 <= n < stack_len s → pop_ok cov (λ _, True) s (stack_remove s n).
Proof.
  intros Hs Hn. unfold stack_remove. destruct (inner s !! Z.to_nat n) as [x|] eqn:E.
  2: { apply lookup_ge_None in E. unfold stack_len, Zlength in Hn. lia. }
  cbn. split; [|done]. destruct (Hs) as (_ & Hf & _). apply with_inner_sub; [done| |].
  - apply Forall_app. split; [by apply Forall_take|by apply Forall_drop].
  - unfold Zlength. rewrite length_app, length_take, length_drop. lia.
Qed.

Lemma stack_insert_ok cov s n b : stack_ok cov s → entry_ok cov b → 0 <= n <= stack_len s → upd_ok cov 1 s (stack_insert s n b).
Proof.
  intros Hs Hb Hn. unfold stack_insert. pose proof (check_element_size_total s b).
  destruct (check_element_size s b) as [[]| |] eqn:E; cbn [mbind res_bind]; [|done|done].
  destruct (Hs) as (Hc & Hf & Hp). pose proof (Zlength_ge0 b). destruct (entry_item _ _ Hb) as [_ Hl].
  rewrite add_pushed_bytes_ok by lia. cbn [mbind res_bind]. change (stack_len (mk_stack (inner s) _ _)) with (stack_len s).
  rewrite (proj2 (Z.leb_le _ _)) by lia. cbn [guard_panic mbind res_bind]. stk. split_and!; [done| | |lia|lia].
  - apply Forall_app. split; [by apply Forall_take|]. apply Forall_cons. split; [done|by apply Forall_drop].
  - unfold Zlength. rewrite length_app. cbn. rewrite length_take, length_drop. lia.
Qed.

(** ** What execution is given *)

(** The documented output lengths of the hash functions. *)
Class ScriptHashesLaws `{ScriptHashes} := {
  sha256_len : ∀ d, is_array 32 (sha256 d);
  blake2b_len : ∀ d, is_array 32 (blake2b_256 d);
  blake2b_keyed_len : ∀ k d, is_array 32 (blake2b_256_keyed k d);
  blake3_len : ∀ d, is_array 32 (blake3_hash d);
  blake3_keyed_len : ∀ k d, is_array 32 (blake3_keyed_hash k d)
}.

Definition script_ok (b : bytes) : Prop := wf_bytes b ∧ Zlength b + 2 <= 2 ^ 32.
Definition spk_ok (s : ScriptPublicKey) : Prop := is_u16 (spk_version s) ∧ script_ok (spk_script s).
Definition input_ok (i : TransactionInput) : Prop :=
  is_array 32 (transaction_id (previous_outpoint i)) ∧ is_u32 (outpoint_index (previous_outpoint i)) ∧
  script_ok (signature_script i) ∧ is_u64 (sequence i) ∧ wf_commit (compute_commit i).
Definition output_ok (o : TransactionOutput) : Prop :=
  is_u64 (value o) ∧ spk_ok (out_spk o) ∧
  match covenant o with Some c => is_u16 (authorizing_input c) ∧ is_array 32 (binding_covenant_id c) | None => True end.
Definition utxo_ok (e : UtxoEntry) : Prop :=
  is_u64 (amount e) ∧ spk_ok (entry_spk e) ∧ match entry_covenant_id e with Some c => is_array 32 c | None => True end.
(** Every field of the transaction at its width, scripts below [2 ^ 32] bytes. *)
Definition spend_ok (p : PopulatedTransaction) : Prop :=
  is_u16 (version (ptx p)) ∧ Forall input_ok (inputs (ptx p)) ∧ Forall output_ok (outputs (ptx p)) ∧
  Forall utxo_ok (entries p) ∧ wf_bytes (payload (ptx p)) ∧ is_array 20 (subnetwork_id (ptx p)).
Definition source_ok (s : ScriptSource) : Prop :=
  match s with
  | TxInput p input idx entry _ =>
      spend_ok p ∧ 0 <= idx ∧ inputs (ptx p) !! Z.to_nat idx = Some input ∧ entries p !! Z.to_nat idx = Some entry
  | StandAloneScripts scripts => Forall script_ok scripts
  end.
Definition env_ok (env : engine_env) : Prop :=
  source_ok (script_source env) ∧ 0 <= flag_sigop_script_units (flags env) ∧
  match seq_commit_accessor env with
  | Some acc => ∀ b c, seq_commitment_within_depth acc b = Some c → is_array 32 c
  | None => True
  end.

(** A meter with limit [lim]. *)
Definition meter_ok (lim : Z) (m : RuntimeResourceMeter) : Prop :=
  match m with
  | Sigops c => 0 <= sig_op_remaining c <= lim ∧ sig_op_limit c = lim
  | ScriptUnits u => 0 <= remaining_script_units u <= lim ∧ 0 <= sigop_script_units u ∧ script_units_limit u = lim
  end.

Lemma consume_units_ok lim m n : meter_ok lim m → 0 <= n →
  match consume_script_units m n with Ok m' => meter_ok lim m' | Err _ => True | Panic => False end.
Proof.
  intros Hm Hn. destruct m as [c|u]; cbn [consume_script_units]; [done|].
  pose proof (unit_consume_exact u n Hn) as Hx. destruct (unit_consume_script_units u n); cbn in *; [|done|done].
  destruct Hx as [? ->]. cbn. lia.
Qed.
Lemma charge_pushed_ok lim m n : meter_ok lim m → 0 <= n →
  match charge_newly_pushed_bytes m n with Ok m' => meter_ok lim m' | Err _ => True | Panic => False end.
Proof. intros Hm Hn. pose proof (consume_units_ok lim m n Hm Hn). by destruct m. Qed.
Lemma consume_sig_ok lim m : meter_ok lim m →
  match consume_sig_op_cost m 1 with Ok m' => meter_ok lim m' | Err _ => True | Panic => False end.
Proof.
  intros Hm. destruct m as [c|u]; cbn [consume_sig_op_cost].
  - unfold consume_sig_ops, checked_sub. destruct (Z.leb_spec 1 (sig_op_remaining c)); cbn in *; [lia|done].
  - unfold unit_consume_sig_op_cost.
    pose proof (unit_consume_exact u (saturating_mul 64 1 (sigop_script_units u)) ltac:(unfold saturating_mul; cbn in Hm; lia)) as Hx.
    destruct (unit_consume_script_units u _); cbn in *; [|done|done]. destruct Hx as [? ->]. cbn. unfold saturating_mul in *. lia.
Qed.

(** ** The calculus *)

Definition res_ok {A} (P : A → Prop) (r : res TxScriptError A) : Prop :=
  match r with Ok a => P a | Err _ => True | Panic => False end.
Definition deser_ok {T} (cov : bool) (R : T → Prop) (d : bytes → bool → res TxScriptError T) : Prop :=
  ∀ b e, entry_ok cov b → res_ok R (d b e).

Create HintDb engine_res.

Lemma i32_to_usize_ok n : is_int 32 n → res_ok (λ n, 0 <= n < 2 ^ 31) (i32_to_usize n).
Proof. unfold i32_to_usize, is_int. intros Hn. destruct (Z.ltb_spec n 0); cbn; [done|lia]. Qed.
Lemma checked_op_ok x : res_ok (is_int 64) (checked_op x).
Proof. unfold checked_op, checked_i. by case_decide. Qed.
Lemma try_i64_ok x : res_ok (is_int 64) (try_i64 x).
Proof. unfold try_i64, checked_i. by case_decide. Qed.
Lemma i64_div_ok a b : res_ok (is_int 64) (ok_or (checked_div_i64 a b) InvalidState).
Proof. unfold checked_div_i64, checked_i. destruct (b =? 0); [done|]. by case_decide. Qed.
Lemma rem_ok a b : is_int 64 b → res_ok (is_int 64) (ok_or (checked_rem_i64 a b) InvalidState).
Proof.
  intros Hb. unfold checked_rem_i64. destruct (Z.eqb_spec b 0); [done|]. destruct (_ && _); [done|].
  cbn. unfold is_int in *. pose proof (Z.rem_bound_abs a b ltac:(done)). lia.
Qed.
Lemma b2z_int b : is_int 64 (b2z b).
Proof. unfold is_int. by destruct b. Qed.
Lemma as_i64_int x : is_int 64 (as_i64 x).
Proof.
  unfold is_int, as_i64, to_signed, wrap. pose proof (Z.mod_pos_bound x (2 ^ 64) ltac:(lia)).
  destruct (Z.ltb_spec (x mod 2 ^ 64) (2 ^ (64 - 1))); lia.
Qed.
Lemma substring_ok d a b : wf_bytes d → res_ok item_ok (substring d a b).
Proof.
  intros Hd. unfold substring, checked_sub. destruct (a <=? b); cbn [ok_or mbind res_bind]; [|done].
  destruct (Z.ltb_spec MAX_SCRIPT_ELEMENT_SIZE_POST_TOCCATA (b - a)) as [|Hm]; [done|].
  destruct (b <=? Zlength d); [|done]. cbn. split; [by apply Forall_take, Forall_drop|].
  unfold Zlength. rewrite length_take. unfold MAX_SCRIPT_ELEMENT_SIZE_POST_TOCCATA in Hm. lia.
Qed.
Lemma array_item n b : is_array n b → (n <= 64)%nat → item_ok b.
Proof. intros [Hl Hw] Hn. apply item_small; [done|]. unfold Zlength. lia. Qed.
Lemma zero_hash_array : is_array 32 ZERO_HASH.
Proof. split; [done|]. by apply (bool_decide_unpack _). Qed.
Lemma spk_item s : spk_ok s → item_ok (spk_to_bytes s).
Proof.
  intros (Hv & Hw & Hl). unfold spk_to_bytes. split.
  - apply Forall_app. split; [by apply wf_to_be_bytes|done].
  - rewrite Zlength_app. unfold Zlength at 1. rewrite length_to_be_bytes by done. lia.
Qed.
Lemma serialize_num_short n : is_int 64 n → short_ok (serialize_as_i64 n).
Proof. intros Hn. destruct (serialize_as_i64_total n Hn) as [->|(b & -> & ? & ?)]; cbn; [done|]. split; [done|lia]. Qed.
Lemma deser_i64 cov : deser_ok cov (is_int 64) deserialize_as_i64.
Proof.
  intros b e [Hb _]. pose proof (deserialize_sized_total 8 b e Hb ltac:(lia)) as Ht. unfold deserialize_as_i64.
  destruct (deserialize_sized 8 b e); cbn; [|done|done]. unfold is_int. lia.
Qed.
Lemma deser_i32 cov : deser_ok cov (is_int 32) deserialize_as_i32.
Proof.
  intros b e [Hb _]. pose proof (deserialize_as_i32_total b e Hb) as Ht. destruct (deserialize_as_i32 b e); cbn; [by destruct Ht|done|done].
Qed.
Lemma deser_bool cov : deser_ok cov (λ _, True) as_bool.
Proof. by intros b e _. Qed.
Lemma deser_raw cov : deser_ok cov (entry_ok cov) raw.
Proof. by intros b e Hb. Qed.
Lemma deser_hash cov : deser_ok cov (λ _, True) as_hash.
Proof. intros b e _. unfold as_hash, deserialize_hash. by case_match. Qed.

Section safety.
Context `{Secp, HS : ScriptHashes, ZB : ZkBackend} `{!ScriptHashesLaws, !ZkBackendLaws} (env : engine_env) (lim : Z).
Context (Henv : env_ok env).
Abbreviation cov := (covenants_enabled (flags env)).

(** The invariant: [k] bounds what the current opcode has pushed so far. *)
Definition vm_ok (k : Z) (v : vm) : Prop :=
  stack_covenants (dstack v) = cov ∧ stack_covenants (astack v) = cov ∧
  Forall (entry_ok cov) (inner (dstack v)) ∧ Forall (entry_ok cov) (inner (astack v)) ∧
  stack_len (dstack v) + stack_len (astack v) <= MAX_STACK_SIZE + 4 * k ∧
  0 <= pushed_bytes (dstack v) ∧ 0 <= pushed_bytes (astack v) ∧
  pushed_bytes (dstack v) + pushed_bytes (astack v) <= k * 2 ^ 34 ∧
  0 <= num_ops v <= MAX_OPS_PER_SCRIPT_POST_TOCCATA ∧ meter_ok lim (meter v).

Definition wp {A} (m : script_m A) (Q : A → vm → Prop) (v : vm) : Prop :=
  match m v with (Ok a, v') => Q a v' | (Err _, _) => True | (Panic, _) => False end.

Lemma vm_ok_mono k k' v : vm_ok k v → k <= k' → vm_ok k' v.
Proof. unfold vm_ok. intros (? & ? & ? & ? & ? & ? & ? & ? & ? & ?) Hk. split_and!; try done; lia. Qed.
Lemma vm_ok_dstack k v : vm_ok k v → 0 <= k <= 8 → stack_ok cov (dstack v).
Proof. unfold vm_ok, stack_ok. intros (? & ? & ? & ? & ? & ? & ? & ? & ? & ?) Hk. split_and!; try done; lia. Qed.
Lemma vm_ok_astack k v : vm_ok k v → 0 <= k <= 8 → stack_ok cov (astack v).
Proof. unfold vm_ok, stack_ok. intros (? & ? & ? & ? & ? & ? & ? & ? & ? & ?) Hk. split_and!; try done; lia. Qed.
Lemma vm_ok_set_dstack k j v s : vm_ok k v → stack_step cov j (dstack v) s → vm_ok (k + j) (set_dstack s v).
Proof.
  unfold vm_ok, stack_step, stack_len. intros (? & ? & ? & ? & ? & ? & ? & ? & ? & ?) (? & ? & ? & ?). cbn [dstack astack set_dstack num_ops meter].
  split_and!; try done; lia.
Qed.
Lemma vm_ok_set_astack k j v s : vm_ok k v → stack_step cov j (astack v) s → vm_ok (k + j) (set_astack s v).
Proof.
  unfold vm_ok, stack_step, stack_len. intros (? & ? & ? & ? & ? & ? & ? & ? & ? & ?) (? & ? & ? & ?). cbn [dstack astack set_astack num_ops meter].
  split_and!; try done; lia.
Qed.

Lemma wp_mono {A} (m : script_m A) (Q Q' : A → vm → Prop) v : wp m Q v → (∀ a v', Q a v' → Q' a v') → wp m Q' v.
Proof. unfold wp. intros Hm HQ. destruct (m v) as [[] ?]; auto. Qed.
Lemma wp_bind {A B} (m : script_m A) (f : A → script_m B) Q v : wp m (λ a v', wp (f a) Q v') v → wp (m ≫= f) Q v.
Proof. unfold wp, mbind, script_bind. by destruct (m v) as [[] ?]. Qed.
Lemma wp_ret {A} (a : A) (Q : A → vm → Prop) v : Q a v → wp (mret a) Q v.
Proof. done. Qed.
Lemma wp_throw {A} e (Q : A → vm → Prop) v : wp (throw e) Q v.
Proof. done. Qed.
Lemma wp_ensure b e Q v : (b = true → Q () v) → wp (ensure b e) Q v.
Proof. unfold wp, ensure, lift. destruct b; auto. Qed.
Lemma wp_lift {A} (P : A → Prop) (r : res TxScriptError A) Q v : res_ok P r → (∀ a, P a → Q a v) → wp (lift r) Q v.
Proof. unfold wp, lift, res_ok. destruct r; auto. Qed.
Lemma wp_gets {A} (f : vm → A) Q v : Q (f v) v → wp (gets f) Q v.
Proof. done. Qed.
Lemma wp_modify f Q v : Q () (f v) → wp (modify f) Q v.
Proof. done. Qed.

Lemma wp_upd_dstack k j f Q v :
  vm_ok k v → 0 <= k <= 8 → (stack_ok cov (dstack v) → upd_ok cov j (dstack v) (f (dstack v))) →
  (∀ v', vm_ok (k + j) v' → Q () v') → wp (upd_dstack f) Q v.
Proof.
  intros Hv Hk Hf HQ. specialize (Hf (vm_ok_dstack k v Hv Hk)). unfold wp, upd_dstack.
  destruct (f (dstack v)); cbn in *; [|done|done]. apply HQ. by apply vm_ok_set_dstack.
Qed.
Lemma wp_upd_astack k j f Q v :
  vm_ok k v → 0 <= k <= 8 → (stack_ok cov (astack v) → upd_ok cov j (astack v) (f (astack v))) →
  (∀ v', vm_ok (k + j) v' → Q () v') → wp (upd_astack f) Q v.
Proof.
  intros Hv Hk Hf HQ. specialize (Hf (vm_ok_astack k v Hv Hk)). unfold wp, upd_astack.
  destruct (f (astack v)); cbn in *; [|done|done]. apply HQ. by apply vm_ok_set_astack.
Qed.
Lemma wp_on_dstack {A} (P : A → Prop) k f Q v :
  vm_ok k v → 0 <= k <= 8 → (stack_ok cov (dstack v) → pop_ok cov P (dstack v) (f (dstack v))) →
  (∀ a v', vm_ok k v' → P a → Q a v') → wp (on_dstack f) Q v.
Proof.
  intros Hv Hk Hf HQ. specialize (Hf (vm_ok_dstack k v Hv Hk)). unfold wp, on_dstack.
  destruct (f (dstack v)) as [[a s]| |]; cbn in *; [|done|done]. destruct Hf as [Hs HP]. apply HQ; [|done].
  rewrite <- (Z.add_0_r k). by apply vm_ok_set_dstack.
Qed.
Lemma wp_on_astack {A} (P : A → Prop) k f Q v :
  vm_ok k v → 0 <= k <= 8 → (stack_ok cov (astack v) → pop_ok cov P (astack v) (f (astack v))) →
  (∀ a v', vm_ok k v' → P a → Q a v') → wp (on_astack f) Q v.
Proof.
  intros Hv Hk Hf HQ. specialize (Hf (vm_ok_astack k v Hv Hk)). unfold wp, on_astack.
  destruct (f (astack v)) as [[a s]| |]; cbn in *; [|done|done]. destruct Hf as [Hs HP]. apply HQ; [|done].
  rewrite <- (Z.add_0_r k). by apply vm_ok_set_astack.
Qed.
Lemma wp_upd_meter k f Q v :
  vm_ok k v → (meter_ok lim (meter v) → res_ok (meter_ok lim) (f (meter v))) → (∀ v', vm_ok k v' → Q () v') → wp (upd_meter f) Q v.
Proof.
  intros Hv Hf HQ. unfold wp, upd_meter. assert (meter_ok lim (meter v)) as Hm by (unfold vm_ok in Hv; tauto).
  specialize (Hf Hm). destruct (f (meter v)); cbn in *; [|done|done]. apply HQ. unfold vm_ok in *. cbn. tauto.
Qed.
(** *** Popping and pushing *)

Lemma wp_pop1 {T} (R : T → Prop) k d Q v :
  deser_ok cov R d → vm_ok k v → 0 <= k <= 8 → (∀ a v', vm_ok k v' → R a → Q a v') → wp (pop1 d) Q v.
Proof.
  intros Hd Hv Hk HQ. apply wp_bind. eapply wp_on_dstack; [done|done|intros; by apply (pop_items_ok cov R)|].
  intros l v' Hv' [HR Hl]. destruct l as [|a [|]]; try done. apply wp_ret, HQ; [done|]. by rewrite Forall_singleton in HR.
Qed.
Lemma wp_pop2 {T} (R : T → Prop) k d Q v :
  deser_ok cov R d → vm_ok k v → 0 <= k <= 8 → (∀ a b v', vm_ok k v' → R a → R b → Q (a, b) v') → wp (pop2 d) Q v.
Proof.
  intros Hd Hv Hk HQ. apply wp_bind. eapply wp_on_dstack; [done|done|intros; by apply (pop_items_ok cov R)|].
  intros l v' Hv' [HR Hl]. destruct l as [|a [|b [|]]]; try done. rewrite !Forall_cons in HR. apply wp_ret, HQ; tauto.
Qed.
Lemma wp_pop3 {T} (R : T → Prop) k d Q v :
  deser_ok cov R d → vm_ok k v → 0 <= k <= 8 → (∀ a b c v', vm_ok k v' → R a → R b → R c → Q (a, b, c) v') → wp (pop3 d) Q v.
Proof.
  intros Hd Hv Hk HQ. apply wp_bind. eapply wp_on_dstack; [done|done|intros; by apply (pop_items_ok cov R)|].
  intros l v' Hv' [HR Hl]. destruct l as [|a [|b [|c [|]]]]; try done. rewrite !Forall_cons in HR. apply wp_ret, HQ; tauto.
Qed.
Lemma wp_pop_bytes k Q v : vm_ok k v → 0 <= k <= 8 → (∀ a v', vm_ok k v' → entry_ok cov a → Q a v') → wp pop_bytes Q v.
Proof. intros Hv Hk HQ. eapply wp_on_dstack; [done|done|intros; by apply pop_is_ok|done]. Qed.
Lemma wp_push_data k d Q v : vm_ok k v → 0 <= k <= 8 → item_ok d → (∀ v', vm_ok (k + 1) v' → Q () v') → wp (push_data d) Q v.
Proof. intros Hv Hk Hd HQ. eapply wp_upd_dstack; [done|done| |done]. intros. by apply push_ok. Qed.
Lemma wp_push_literal_data k d Q v :
  vm_ok k v → 0 <= k <= 8 → item_ok d → (∀ v', vm_ok (k + 1) v' → Q () v') → wp (push_literal_data d) Q v.
Proof. intros Hv Hk Hd HQ. eapply wp_upd_dstack; [done|done| |done]. intros. by apply push_unmetered_ok. Qed.
Lemma wp_push_number k n Q v : vm_ok k v → 0 <= k <= 8 → is_int 64 n → (∀ v', vm_ok (k + 1) v' → Q () v') → wp (push_number n) Q v.
Proof. intros Hv Hk Hn HQ. eapply wp_upd_dstack; [done|done| |done]. intros. by apply push_item_ok, serialize_num_short. Qed.
Lemma wp_push_literal_number k n Q v :
  vm_ok k v → 0 <= k <= 8 → is_int 64 n → (∀ v', vm_ok (k + 1) v' → Q () v') → wp (push_literal_number n) Q v.
Proof. intros Hv Hk Hn HQ. eapply wp_upd_dstack; [done|done| |done]. intros. by apply push_item_ok, serialize_num_short. Qed.
Lemma serialize_bool_short b : short_ok (Ok (serialize_bool b)).
Proof. destruct b; cbn; (split; [decide_by_eval|done]). Qed.
Lemma wp_push_bool k b Q v : vm_ok k v → 0 <= k <= 8 → (∀ v', vm_ok (k + 1) v' → Q () v') → wp (push_bool b) Q v.
Proof. intros Hv Hk HQ. eapply wp_upd_dstack; [done|done| |done]. intros. by apply push_item_ok, serialize_bool_short. Qed.
Lemma wp_consume_units k n Q v : vm_ok k v → 0 <= n → (∀ v', vm_ok k v' → Q () v') → wp (engine_consume_script_units n) Q v.
Proof. intros Hv Hn HQ. eapply wp_upd_meter; [done| |done]. intros. by apply consume_units_ok. Qed.
Lemma wp_consume_sig k Q v : vm_ok k v → (∀ v', vm_ok k v' → Q () v') → wp (engine_consume_sig_op_cost 1) Q v.
Proof. intros Hv HQ. eapply wp_upd_meter; [done| |done]. intros. by apply consume_sig_ok. Qed.
Lemma wp_pop_usize k Q v : vm_ok k v → 0 <= k <= 8 → (∀ a v', vm_ok k v' → 0 <= a < 2 ^ 31 → Q a v') → wp pop_usize Q v.
Proof.
  intros Hv Hk HQ. apply wp_bind. eapply wp_pop1; [apply deser_i32|done|done|]. intros a v' Hv' Ha.
  eapply wp_lift; [by apply i32_to_usize_ok|]. intros n Hn. by apply HQ.
Qed.
Lemma wp_pop_usize2 k Q v :
  vm_ok k v → 0 <= k <= 8 → (∀ a b v', vm_ok k v' → 0 <= a < 2 ^ 31 → 0 <= b < 2 ^ 31 → Q (a, b) v') → wp pop_usize2 Q v.
Proof.
  intros Hv Hk HQ. apply wp_bind. eapply wp_pop2; [apply deser_i32|done|done|]. intros a b v' Hv' Ha Hb.
  apply wp_bind. eapply wp_lift; [by apply i32_to_usize_ok|]. intros n Hn.
  apply wp_bind. eapply wp_lift; [by apply i32_to_usize_ok|]. intros m Hm. apply wp_ret. by apply HQ.
Qed.
Lemma wp_pop_usize3 k Q v :
  vm_ok k v → 0 <= k <= 8 →
  (∀ a b c v', vm_ok k v' → 0 <= a < 2 ^ 31 → 0 <= b < 2 ^ 31 → 0 <= c < 2 ^ 31 → Q (a, b, c) v') → wp pop_usize3 Q v.
Proof.
  intros Hv Hk HQ. apply wp_bind. eapply wp_pop3; [apply deser_i32|done|done|]. intros a b c v' Hv' Ha Hb Hc.
  apply wp_bind. eapply wp_lift; [by apply i32_to_usize_ok|]. intros n Hn.
  apply wp_bind. eapply wp_lift; [by apply i32_to_usize_ok|]. intros m Hm.
  apply wp_bind. eapply wp_lift; [by apply i32_to_usize_ok|]. intros o Ho. apply wp_ret. by apply HQ.
Qed.

(** *** Counting operations, hashing, caching *)

Lemma wp_count_ops k n Q v : vm_ok k v → 0 <= n <= 20 → (∀ v', vm_ok k v' → Q () v') → wp (count_ops env n) Q v.
Proof.
  intros Hv Hn HQ. assert (0 <= num_ops v <= MAX_OPS_PER_SCRIPT_POST_TOCCATA) as Ho by (unfold vm_ok in Hv; tauto).
  unfold MAX_OPS_PER_SCRIPT_POST_TOCCATA in Ho. unfold count_ops. apply wp_bind, wp_gets, wp_bind.
  assert (checked_i 32 (num_ops v + n) = Some (num_ops v + n)) as -> by (unfold checked_i; rewrite decide_True; [done|unfold is_int; lia]).
  apply (wp_lift (λ x, x = num_ops v + n)); [done|]. intros ? ->. apply wp_bind, wp_modify, wp_ensure. intros Hmax%Z.leb_le. apply HQ.
  assert (max_ops_per_script cov <= MAX_OPS_PER_SCRIPT_POST_TOCCATA) by (by destruct cov).
  unfold vm_ok in *. cbn. split_and!; try tauto; unfold MAX_OPS_PER_SCRIPT_POST_TOCCATA in *; lia.
Qed.
Lemma wp_cached_verify k key valid Q v : vm_ok k v → (∀ b v', vm_ok k v' → Q b v') → wp (cached_verify key valid) Q v.
Proof.
  intros Hv HQ. unfold wp, cached_verify. destruct (cache_get _ key); [by apply HQ|]. apply HQ. unfold vm_ok in *. cbn. tauto.
Qed.
(** The signature hashes of the input under validation. *)
Definition hashes_ok (calc : Reused → exec (bytes * Reused)) : Prop := ∀ r, calc r ≠ Panic.
Lemma wp_sig_hash k calc Q v : hashes_ok calc → vm_ok k v → (∀ h v', vm_ok k v' → Q h v') → wp (sig_hash calc) Q v.
Proof.
  intros Hc Hv HQ. unfold wp, sig_hash. specialize (Hc (reused_values v)).
  destruct (calc (reused_values v)) as [[h r]|[]|]; [|done]. apply HQ. unfold vm_ok in *. cbn. tauto.
Qed.
Lemma schnorr_hash_ok p input idx entry b t :
  script_source env = TxInput p input idx entry b →
  hashes_ok (calc_schnorr_signature_hash domain_hash p idx t) ∧ hashes_ok (calc_ecdsa_signature_hash domain_hash p idx t).
Proof.
  intros Es. destruct Henv as [Hs _]. rewrite Es in Hs. destruct Hs as (_ & _ & Hi & He).
  assert (populated_input p idx = Ok (input, entry)) as Hp by (by apply populated_input_ok).
  assert (∀ r, ∃ x, calc_schnorr_signature_hash domain_hash p idx t r = Ok x) as Hx.
  { intros r. unfold calc_schnorr_signature_hash. rewrite Hp. cbn [mbind res_bind].
    repeat match goal with |- context [let '(_, _) := ?x in _] => destruct x end. eauto. }
  split; intros r; unfold calc_ecdsa_signature_hash; destruct (Hx r) as [[h r'] ->]; done.
Qed.

(** A signature check, whichever hash it uses. *)
Lemma wp_check_schnorr_msg k key sig (msg : script_m bytes) Q v :
  vm_ok k v → (∀ v', vm_ok k v' → wp msg (λ _, vm_ok k) v') → (∀ b v', vm_ok k v' → Q b v') →
  wp (check_schnorr_signature_with_msg_hash key sig msg) Q v.
Proof.
  intros Hv Hm HQ. unfold check_schnorr_signature_with_msg_hash. apply wp_bind. eapply wp_consume_sig; [done|]. intros v1 Hv1.
  apply wp_bind. apply (wp_lift (λ _, True)); [by destruct (xonly_from_slice key)|]. intros pk _.
  apply wp_bind. apply (wp_lift (λ _, True)); [by destruct (schnorr_sig_from_slice sig)|]. intros sg _.
  apply wp_bind. eapply wp_mono; [by apply Hm|]. intros h v2 Hv2. by apply (wp_cached_verify k).
Qed.
Lemma wp_check_ecdsa_msg k key sig (msg : script_m bytes) Q v :
  vm_ok k v → (∀ v', vm_ok k v' → wp msg (λ _, vm_ok k) v') → (∀ b v', vm_ok k v' → Q b v') →
  wp (check_ecdsa_signature_with_msg_hash key sig msg) Q v.
Proof.
  intros Hv Hm HQ. unfold check_ecdsa_signature_with_msg_hash. apply wp_bind. eapply wp_consume_sig; [done|]. intros v1 Hv1.
  apply wp_bind. apply (wp_lift (λ _, True)); [unfold check_pub_key_encoding_ecdsa; by case_match|]. intros _ _.
  apply wp_bind. apply (wp_lift (λ _, True)); [by destruct (ecdsa_key_from_slice key)|]. intros pk _.
  apply wp_bind. apply (wp_lift (λ _, True)); [by destruct (ecdsa_sig_from_compact sig)|]. intros sg _.
  apply wp_bind. eapply wp_mono; [by apply Hm|]. intros h v2 Hv2. by apply (wp_cached_verify k).
Qed.
Lemma wp_check_signature k ecdsa t key sig Q v :
  vm_ok k v → (∀ b v', vm_ok k v' → Q b v') → wp (check_signature env ecdsa t key sig) Q v.
Proof.
  intros Hv HQ. unfold check_signature, check_ecdsa_signature, check_schnorr_signature.
  destruct (script_source env) as [p input idx entry b|] eqn:Es; [|by destruct ecdsa].
  destruct (schnorr_hash_ok p input idx entry b t Es) as [Hh1 Hh2].
  destruct ecdsa; [eapply (wp_check_ecdsa_msg k)|eapply (wp_check_schnorr_msg k)]; try done; intros v' Hv'; by apply (wp_sig_hash k).
Qed.
(** *** Multisig *)

Lemma wp_advance_keys k ecdsa t sig needed keys Q v :
  (0 < needed)%nat → vm_ok k v → (∀ r v', vm_ok k v' → Q r v') → wp (advance_keys env ecdsa t sig needed keys) Q v.
Proof.
  intros Hn. revert v. induction keys as [|key keys IH]; intros v Hv HQ; cbn [advance_keys].
  { destruct (Nat.ltb_spec (length (@nil bytes)) needed) as [|Hl]; [by apply wp_ret, HQ|cbn in Hl; lia]. }
  destruct (length (key :: keys) <? needed)%nat; [by apply wp_ret, HQ|]. apply wp_bind.
  eapply wp_check_signature; [done|]. intros [] v' Hv'; [by apply wp_ret, HQ|by apply IH].
Qed.
Lemma wp_check_signatures k ecdsa sigs keys Q v :
  vm_ok k v → (∀ r v', vm_ok k v' → Q r v') → wp (check_signatures env ecdsa sigs keys) Q v.
Proof.
  intros Hv HQ. revert keys v Hv. induction sigs as [|sig sigs IH]; intros keys v Hv; cbn [check_signatures].
  { by apply wp_ret, HQ. }
  destruct (last sig) as [typ|]; [|by apply wp_ret, HQ]. apply wp_bind.
  apply (wp_lift (λ _, True)); [by destruct (sighash_from_u8 typ)|]. intros t _. apply wp_bind.
  eapply wp_advance_keys; [cbn; lia|done|]. intros [keys'|] v' Hv'; [by apply IH|by apply wp_ret, HQ].
Qed.
Lemma wp_multisig ecdsa Q v :
  vm_ok 0 v → (∀ v', vm_ok 1 v' → Q () v') → wp (op_check_multisig_schnorr_or_ecdsa env ecdsa) Q v.
Proof.
  intros Hv HQ. unfold op_check_multisig_schnorr_or_ecdsa.
  apply wp_bind. eapply wp_pop1; [apply deser_i32|done|lia|]. intros num_keys v1 Hv1 _.
  apply wp_bind, wp_ensure. intros Hc1%Z.leb_le. apply wp_bind, wp_ensure. intros Hc2%Z.leb_le.
  unfold MAX_PUB_KEYS_PER_MUTLTISIG in Hc2. apply wp_bind. eapply wp_count_ops; [done|lia|]. intros v2 Hv2.
  apply wp_bind, wp_gets, wp_bind, wp_ensure. intros Hc3%Z.leb_le.
  apply wp_bind. eapply wp_on_dstack; [done|lia|intros; apply split_off_ok; [done|lia]|]. intros keys v3 Hv3 _.
  apply wp_bind. eapply wp_pop1; [apply deser_i32|done|lia|]. intros num_sigs v4 Hv4 _.
  apply wp_bind, wp_ensure. intros Hc5%Z.leb_le. apply wp_bind, wp_ensure. intros Hc6%Z.leb_le.
  apply wp_bind, wp_gets, wp_bind, wp_ensure. intros Hc7%Z.leb_le.
  apply wp_bind. eapply wp_on_dstack; [done|lia|intros; apply split_off_ok; [done|lia]|]. intros sigs v5 Hv5 _.
  apply wp_bind. eapply wp_check_signatures; [done|]. intros ok v6 Hv6.
  apply wp_bind, wp_ensure. intros _. eapply wp_push_bool; [done|lia|done].
Qed.

(** *** Reading the transaction *)

Lemma wp_with_tx k Q v : (∀ tx, spend_ok tx → wp (k tx) Q v) → wp (with_tx env k) Q v.
Proof.
  intros Hk. unfold with_tx. destruct Henv as [Hs _]. destruct (script_source env); [|done]. apply Hk. by destruct Hs.
Qed.
Lemma nth_input_ok tx i : spend_ok tx → res_ok input_ok (nth_input tx i).
Proof.
  intros (_ & Hf & _). unfold nth_input. destruct (inputs (ptx tx) !! _) eqn:E; [|done]. cbn. by eapply Forall_lookup_1.
Qed.
Lemma nth_utxo_ok tx i : spend_ok tx → res_ok utxo_ok (nth_utxo tx i).
Proof.
  intros (_ & _ & _ & Hf & _). unfold nth_utxo, utxo. destruct (entries tx !! _) eqn:E; [|done]. cbn. by eapply Forall_lookup_1.
Qed.
Lemma nth_output_ok tx i n : spend_ok tx → res_ok output_ok (nth_output tx i n).
Proof.
  intros (_ & _ & Hf & _). unfold nth_output. destruct (outputs (ptx tx) !! _) eqn:E; [|done]. cbn. by eapply Forall_lookup_1.
Qed.
Lemma try_utxo_ok tx i : spend_ok tx → res_ok utxo_ok (try_utxo tx i).
Proof. intros Hs. unfold try_utxo. destruct (i <? 0); [done|]. by apply nth_utxo_ok. Qed.
Lemma try_output_ok tx i : spend_ok tx → res_ok output_ok (try_output tx i).
Proof. intros Hs. unfold try_output. destruct (i <? 0); [done|]. by apply nth_output_ok. Qed.

(** *** The opcodes *)

(** An opcode is safe: from the invariant it fails or restores it, up to what it
    pushed. *)
Definition op_safe (a : OpCode → script_m ()) : Prop := ∀ op v, vm_ok 0 v → wp (a op) (λ _, vm_ok 4) v.

Lemma op_safe_disabled m : (cov = true → ∀ v, vm_ok 0 v → wp m (λ _, vm_ok 4) v) → op_safe (or_disabled env m).
Proof. intros Hm op v Hv. unfold or_disabled, covenants_on. destruct cov eqn:E; [by apply Hm|apply wp_throw]. Qed.
Lemma op_safe_invalid m : (cov = true → ∀ v, vm_ok 0 v → wp m (λ _, vm_ok 4) v) → op_safe (or_invalid env m).
Proof. intros Hm op v Hv. unfold or_invalid, covenants_on. destruct cov eqn:E; [by apply Hm|apply wp_throw]. Qed.
Lemma op_safe_reserved m : (cov = true → ∀ v, vm_ok 0 v → wp m (λ _, vm_ok 4) v) → op_safe (or_reserved env m).
Proof. intros Hm op v Hv. unfold or_reserved, covenants_on. destruct cov eqn:E; [by apply Hm|apply wp_throw]. Qed.

Lemma wp_unary f k Q v :
  vm_ok k v → 0 <= k <= 8 → (∀ x, is_int 64 x → res_ok (is_int 64) (f x)) → (∀ v', vm_ok (k + 1) v' → Q () v') → wp (unary f) Q v.
Proof.
  intros Hv Hk Hf HQ. apply wp_bind. eapply wp_pop1; [apply deser_i64|done|done|]. intros x v' Hv' Hx.
  apply wp_bind. eapply wp_lift; [by apply Hf|]. intros r Hr. by eapply wp_push_number.
Qed.
Lemma wp_binary f k Q v :
  vm_ok k v → 0 <= k <= 8 → (∀ x y, is_int 64 x → is_int 64 y → res_ok (is_int 64) (f x y)) → (∀ v', vm_ok (k + 1) v' → Q () v') →
  wp (binary f) Q v.
Proof.
  intros Hv Hk Hf HQ. apply wp_bind. eapply wp_pop2; [apply deser_i64|done|done|]. intros x y v' Hv' Hx Hy.
  apply wp_bind. eapply wp_lift; [by apply Hf|]. intros r Hr. by eapply wp_push_number.
Qed.
Lemma wp_pop_u64 k Q v : vm_ok k v → 0 <= k <= 8 → (∀ n v', vm_ok k v' → Q n v') → wp pop_u64 Q v.
Proof.
  intros Hv Hk HQ. apply wp_bind. eapply wp_pop1; [apply deser_raw|done|done|]. intros b v' Hv' _.
  apply wp_bind, wp_ensure. intros _. by apply wp_ret, HQ.
Qed.
Lemma wp_check_sig check k Q v :
  vm_ok k v → 0 <= k <= 8 → (∀ t key sig v Q', vm_ok k v → (∀ b v', vm_ok k v' → Q' b v') → wp (check t key sig) Q' v) →
  (∀ v', vm_ok (k + 1) v' → Q () v') → wp (check_sig check) Q v.
Proof.
  intros Hv Hk Hc HQ. apply wp_bind. eapply wp_pop2; [apply deser_raw|done|done|]. intros sig key v' Hv' _ _.
  destruct (last sig) as [typ|]; [|by eapply wp_push_bool]. apply wp_bind.
  apply (wp_lift (λ _, True)); [by destruct (sighash_from_u8 typ)|]. intros t _. apply wp_bind, Hc; [done|].
  intros b v2 Hv2. by eapply wp_push_bool.
Qed.
Lemma wp_pop_condition k Q v : vm_ok k v → 0 <= k <= 8 → (∀ b v', vm_ok k v' → Q b v') → wp (pop_condition env) Q v.
Proof.
  intros Hv Hk HQ. unfold pop_condition. destruct (covenants_on env).
  { eapply wp_pop1; [apply deser_bool|done|done|]. intros b v' Hv' _. by apply HQ. }
  apply wp_bind. eapply wp_pop_bytes; [done|done|]. intros b v' Hv' _. apply wp_bind, wp_ensure. intros _.
  destruct (last b); [|by apply wp_ret, HQ]. apply wp_bind, wp_ensure. intros _. by apply wp_ret, HQ.
Qed.
Lemma wp_pop_pair k Q v : vm_ok k v → 0 <= k <= 8 → (∀ b v', vm_ok k v' → Q b v') → wp pop_pair_equal Q v.
Proof.
  intros Hv Hk HQ. apply wp_bind, wp_gets, wp_bind, wp_ensure. intros Hl%Z.leb_le. apply wp_bind.
  eapply wp_on_dstack; [done|done|intros; apply split_off_ok; [done|lia]|]. intros l v' Hv' [_ Hll].
  unfold Zlength in Hll. destruct l as [|x [|y [|z l]]]; cbn [length] in Hll; try lia. by apply wp_ret, HQ.
Qed.
Lemma vm_ok_cond k l v : vm_ok k v → vm_ok k (set_cond_stack l v).
Proof. unfold vm_ok. cbn. tauto. Qed.
Lemma vm_ok_top k v d : vm_ok k v → last (inner (dstack v)) = Some d → entry_ok cov d.
Proof. intros Hv Hd. unfold vm_ok in Hv. apply last_Some in Hd as [l Hl]. rewrite Hl, Forall_app, Forall_singleton in Hv. tauto. Qed.
Lemma vm_ok_nth k v i d : vm_ok k v → inner (dstack v) !! i = Some d → entry_ok cov d.
Proof. intros Hv Hd. unfold vm_ok in Hv. destruct Hv as (_ & _ & Hf & _). by eapply Forall_lookup_1. Qed.
(** *** Proof verification *)

Lemma res_ok_bind {A B} (P : A → Prop) (Q : B → Prop) (r : res TxScriptError A) f :
  res_ok P r → (∀ a, P a → res_ok Q (f a)) → res_ok Q (r ≫= f).
Proof. destruct r; cbn; auto. Qed.
Lemma zk_ok {A} (o : option A) : res_ok (λ a, o = Some a) (zk o).
Proof. by destruct o. Qed.
Lemma zk_guard_ok b : res_ok (λ _, b = true) (zk_guard b).
Proof. by destruct b. Qed.
Lemma zk_err_ok {A} (P : A → Prop) r : res_ok P r → res_ok P (zk_err r).
Proof. by destruct r. Qed.
Lemma zk_err_pop {A} (P : A → Prop) s r : pop_ok cov P s r → res_ok (λ '(a, s'), stack_step cov 0 s s' ∧ P a) (zk_err r).
Proof. by destruct r as [[]| |]. Qed.
Lemma stack_step_ok s s' : stack_ok cov s → stack_step cov 0 s s' → stack_ok cov s'.
Proof. unfold stack_ok, stack_step. intros (? & ? & ?) (? & ? & ? & ?). split_and!; try done; lia. Qed.
Lemma stack_step_trans s s1 s2 : stack_step cov 0 s s1 → stack_step cov 0 s1 s2 → stack_step cov 0 s s2.
Proof. unfold stack_step. intros (? & ? & ? & ?) (? & ? & ? & ?). split_and!; try done; lia. Qed.

Lemma pop_one_ok {T} (R : T → Prop) d s : deser_ok cov R d → stack_ok cov s → pop_ok cov R s (pop_one d s).
Proof.
  intros Hd Hs. unfold pop_one. pose proof (pop_items_ok cov R 1 d s Hs Hd) as Hp.
  destruct (pop_items 1 d s) as [[l s']| |]; cbn [mbind res_bind]; [|done|done]. destruct Hp as (Hst & HR & Hl).
  destruct l as [|a [|]]; try done. split; [done|]. by rewrite Forall_singleton in HR.
Qed.
Lemma pop_one_raw_ok s : stack_ok cov s → pop_ok cov (entry_ok cov) s (pop_one_raw s).
Proof.
  intros Hs. unfold pop_one_raw, pop_raw. destruct (Nat.ltb_spec (length (inner s)) 1) as [|Hn]; [done|].
  destruct (split_top_ok cov 1 s Hs) as [Hs' Hl]. destruct (split_top 1 s) as [items s'] eqn:E. cbn [mbind res_bind fst snd] in *.
  assert (length items = 1%nat) as Hi by (unfold split_top in E; injection E as <- _; rewrite length_drop; lia).
  destruct items as [|x [|]]; try done. split; [done|]. by rewrite Forall_singleton in Hl.
Qed.
Lemma parse_tag_ok s : stack_ok cov s → pop_ok cov (λ _, True) s (parse_tag s).
Proof.
  intros Hs. unfold parse_tag. pose proof (pop_is_ok cov s Hs) as Hp. destruct (pop s) as [[b s']| |]; cbn [mbind res_bind]; [|done|done].
  destruct b as [|x [|]]; try done. destruct (tag_try_from x); [|done]. by destruct Hp.
Qed.

(** Popping shortens the stack, so the fuel of the loop is enough. *)
Lemma pop_items_shorter {T} (d : bytes → bool → res TxScriptError T) s l s' :
  pop_items 1 d s = Ok (l, s') → (length (inner s') < length (inner s))%nat.
Proof.
  unfold pop_items. destruct (Nat.ltb_spec (length (inner s)) 1) as [|Hn]; [done|]. unfold split_top.
  destruct (map_res _ _); cbn [mbind res_bind]; [|done|done]. intros [= _ <-]. cbn. rewrite length_take. lia.
Qed.
Lemma pop_public_inputs_ok fuel n s :
  stack_ok cov s → (length (inner s) < fuel)%nat → 0 <= n →
  pop_ok cov (λ l, Zlength l <= Zlength (inner s)) s (pop_public_inputs fuel n s).
Proof.
  revert n s. induction fuel as [|fuel IH]; intros n s Hs Hf Hn; [lia|]. cbn [pop_public_inputs].
  destruct (Z.eqb_spec n 0); [split; [by apply stack_step_refl|]; unfold Zlength; cbn; lia|].
  pose proof (zk_err_pop _ s _ (pop_items_ok cov (λ _, True) 1 deserialize_fr s Hs
    (λ b e _, match fr_try_from b as o return res_ok _ (zk o) with Some _ => I | None => I end))) as Hp.
  pose proof (pop_items_shorter deserialize_fr s) as Hsh.
  destruct (pop_items 1 deserialize_fr s) as [[l s1]| |]; cbn [zk_err map_err mbind res_bind] in *; [|done|done].
  destruct Hp as (Hst & _ & Hl). specialize (Hsh l s1 eq_refl).
  specialize (IH (n - 1) s1 (stack_step_ok s s1 Hs Hst) ltac:(lia) ltac:(lia)).
  destruct (pop_public_inputs fuel (n - 1) s1) as [[l2 s2]| |]; cbn [mbind res_bind] in *; [|done|done].
  destruct IH as [Hst2 Hl2]. split; [by eapply stack_step_trans|]. rewrite Zlength_app. unfold Zlength in *. lia.
Qed.
Lemma vk_ok b n m : meter_ok lim m → 0 <= n < 2 ^ 40 → res_ok (λ '(_, m'), meter_ok lim m') (deserialize_verifying_key_with_metering b n m).
Proof.
  intros Hm Hn. unfold deserialize_verifying_key_with_metering.
  do 4 (eapply res_ok_bind; [apply zk_ok|]; intros [? ?] _).
  eapply res_ok_bind; [apply zk_ok|]. intros [cnt rd] Hu. apply u64_deserialize_range in Hu. unfold is_uint in Hu.
  eapply res_ok_bind; [apply zk_guard_ok|]. intros _ _.
  replace (add_u 64 n 1) with (Ok (E := TxScriptError) (n + 1)) by (symmetry; apply add_u_ok; lia).
  cbn [mbind res_bind]. eapply res_ok_bind; [apply zk_guard_ok|]. intros _ _.
  eapply res_ok_bind; [apply zk_err_ok, consume_units_ok; [done|unfold saturating_mul, GROTH16_GAMMA_ABC_G1_ELEMENT_SCRIPT_UNITS; lia]|].
  intros m' Hm'. eapply res_ok_bind; [apply zk_ok|]. intros [gs rd'] _.
  eapply res_ok_bind; [apply zk_guard_ok|]. intros _ _. eapply res_ok_bind; [apply zk_guard_ok|]. intros _ _. done.
Qed.
Lemma groth16_ok s m :
  stack_ok cov s → Zlength (inner s) < 2 ^ 40 → meter_ok lim m →
  res_ok (λ '(s', m'), stack_step cov 0 s s' ∧ meter_ok lim m') (groth16_verify_zk s m).
Proof.
  intros Hs Hl Hm. unfold groth16_verify_zk.
  eapply res_ok_bind; [by eapply zk_err_pop, pop_one_raw_ok|]. intros [key s1] [Hs1 _]. pose proof (stack_step_ok _ _ Hs Hs1) as Ho1.
  eapply res_ok_bind; [by eapply zk_err_pop, pop_one_raw_ok|]. intros [prf s2] [Hs2 _]. pose proof (stack_step_ok _ _ Ho1 Hs2) as Ho2.
  eapply res_ok_bind; [eapply zk_err_pop, pop_one_ok; [apply deser_i32|done]|]. intros [n s3] [Hs3 Hn].
  pose proof (stack_step_ok _ _ Ho2 Hs3) as Ho3.
  eapply res_ok_bind; [apply zk_err_ok, (i32_to_usize_ok n Hn)|]. intros n' Hn'. cbv beta in Hn'.
  pose proof (pop_public_inputs_ok (S (length (inner s3))) n' s3 Ho3 ltac:(lia) ltac:(lia)) as Hp.
  destruct (pop_public_inputs _ n' s3) as [[ins s4]| |]; cbn [mbind res_bind] in *; [|done|done]. destruct Hp as [Hs4 Hins].
  assert (0 <= Zlength ins < 2 ^ 40) as Hb by (unfold stack_step in *; pose proof (Zlength_ge0 ins); lia).
  eapply res_ok_bind; [by apply vk_ok|]. intros [vk m'] Hm'.
  eapply res_ok_bind; [apply zk_ok|]. intros [pr rd] _. eapply res_ok_bind; [apply zk_guard_ok|]. intros _ _.
  eapply res_ok_bind; [apply zk_ok|]. intros pi _. eapply res_ok_bind; [apply zk_ok|]. intros ok _.
  eapply res_ok_bind; [apply zk_guard_ok|]. intros _ _. split; [|done].
  by eapply stack_step_trans, stack_step_trans, stack_step_trans.
Qed.
Lemma verify_integrity_ok r : res_ok (λ _, True) (verify_integrity r).
Proof.
  unfold verify_integrity. eapply res_ok_bind; [apply zk_guard_ok|]. intros u Hv. cbv beta in Hv.
  apply verified_seal_length in Hv. pose proof output_size_slots as Hsl. rewrite (proj2 (Z.leb_le OUTPUT_SIZE _)) by lia.
  cbn [guard_panic mbind res_bind]. rewrite (proj2 (Z.leb_le 16 _)).
  2: { unfold Zlength in *. rewrite length_fmap, length_take. lia. }
  cbn [guard_panic mbind res_bind]. eapply res_ok_bind; [apply zk_ok|]. intros root _.
  eapply res_ok_bind; [apply zk_guard_ok|]. intros _ _. eapply res_ok_bind; [apply zk_ok|]. intros h _. by case_bool_decide.
Qed.
Lemma r0_ok s m : stack_ok cov s → meter_ok lim m → res_ok (λ '(s', m'), stack_step cov 0 s s' ∧ meter_ok lim m') (r0_verify_zk s m).
Proof.
  intros Hs Hm. unfold r0_verify_zk, pop_raw. destruct (Nat.ltb_spec (length (inner s)) 8) as [|Hn]; [done|].
  destruct (split_top_ok cov 8 s Hs) as [Hs' _]. destruct (split_top 8 s) as [items s'] eqn:E. cbn [zk_err map_err mbind res_bind snd] in *.
  assert (length items = 8%nat) as Hi by (unfold split_top in E; injection E as <- _; rewrite length_drop; lia).
  destruct items as [|? [|? [|? [|? [|? [|? [|? [|? [|]]]]]]]]]; try done.
  do 3 (eapply res_ok_bind; [apply zk_ok|]; intros ? _). eapply res_ok_bind; [apply zk_ok|]. intros h _.
  destruct h; try done. cbn [zk_guard mbind res_bind control_merkle_depth_for].
  do 2 (eapply res_ok_bind; [apply zk_ok|]; intros ? _). cbn [mbind res_bind].
  eapply res_ok_bind; [apply zk_guard_ok|]. intros _ _. do 2 (eapply res_ok_bind; [apply zk_ok|]; intros ? _).
  eapply res_ok_bind; [apply verify_integrity_ok|]. intros _ _. eapply res_ok_bind; [apply zk_guard_ok|]. by intros _ _.
Qed.
Lemma zk_precompile_safe : op_safe (OpZkPrecompile env).
Proof.
  apply op_safe_invalid. intros _ v Hv. apply wp_bind. eapply wp_on_dstack; [done|lia|intros; by apply parse_tag_ok|].
  intros tag v1 Hv1 _. apply wp_bind. apply (wp_lift (λ n, 0 <= n)); [by destruct tag|]. intros n Hn.
  apply wp_bind. eapply wp_consume_units; [done|done|]. intros v2 Hv2. apply wp_bind.
  pose proof (vm_ok_dstack 0 v2 Hv2 ltac:(lia)) as Hs. assert (meter_ok lim (meter v2)) as Hm by (unfold vm_ok in Hv2; tauto).
  assert (Zlength (inner (dstack v2)) < 2 ^ 40) as Hl.
  { unfold vm_ok, stack_len, MAX_STACK_SIZE in Hv2. pose proof (Zlength_ge0 (inner (astack v2))). lia. }
  assert (res_ok (λ '(s', m'), stack_step cov 0 (dstack v2) s' ∧ meter_ok lim m') (verify_zk tag (dstack v2) (meter v2))) as Hz
    by (destruct tag; [by apply groth16_ok|by apply r0_ok]).
  unfold wp at 1. destruct (verify_zk tag (dstack v2) (meter v2)) as [[s' m']| |]; [|done|done]. destruct Hz as [Hst Hm'].
  pose proof (vm_ok_set_dstack 0 0 v2 s' Hv2 Hst) as Hv3. apply (wp_push_bool 0); [|lia|].
  - unfold vm_ok in *. cbn in *. tauto.
  - intros v' Hv'. eapply vm_ok_mono; [done|lia].
Qed.
(** *** Every opcode *)

Ltac ok_solve :=
  first
    [ assumption | apply as_i64_int | apply b2z_int
    | eapply entry_item; eassumption
    | eapply array_item; [first [apply sha256_len | apply blake2b_len | apply blake2b_keyed_len | apply blake3_len
        | apply blake3_keyed_len | apply zero_hash_array | eassumption]|lia]
    | apply spk_item; assumption ].
Ltac wp_step :=
  cbv beta iota;
  lazymatch goal with
  | |- wp (mbind _ _) _ _ => apply wp_bind
  | |- wp (mret _) _ _ => apply wp_ret
  | |- wp (throw _) _ _ => apply wp_throw
  | |- wp (ensure _ _) _ _ => apply wp_ensure; intros ?
  | |- wp (gets _) _ _ => apply wp_gets
  | |- wp pop_bytes _ _ => eapply wp_pop_bytes; [eassumption|lia|intros ? ? ? ?]
  | |- wp pop_i32 _ _ => eapply wp_pop1; [apply deser_i32|eassumption|lia|intros ? ? ? ?]
  | |- wp pop_i64 _ _ => eapply wp_pop1; [apply deser_i64|eassumption|lia|intros ? ? ? ?]
  | |- wp pop_bool _ _ => eapply wp_pop1; [apply deser_bool|eassumption|lia|intros ? ? ? _]
  | |- wp pop_hash _ _ => eapply wp_pop1; [apply deser_hash|eassumption|lia|intros ? ? ? _]
  | |- wp (pop1 raw) _ _ => eapply wp_pop1; [apply deser_raw|eassumption|lia|intros ? ? ? ?]
  | |- wp (pop2 raw) _ _ => eapply wp_pop2; [apply deser_raw|eassumption|lia|intros ? ? ? ? ? ?]
  | |- wp (pop3 raw) _ _ => eapply wp_pop3; [apply deser_raw|eassumption|lia|intros ? ? ? ? ? ? ? ?]
  | |- wp (pop2 deserialize_as_i32) _ _ => eapply wp_pop2; [apply deser_i32|eassumption|lia|intros ? ? ? ? ? ?]
  | |- wp (pop2 deserialize_as_i64) _ _ => eapply wp_pop2; [apply deser_i64|eassumption|lia|intros ? ? ? ? ? ?]
  | |- wp (pop3 deserialize_as_i64) _ _ => eapply wp_pop3; [apply deser_i64|eassumption|lia|intros ? ? ? ? ? ? ? ?]
  | |- wp pop_usize _ _ => eapply wp_pop_usize; [eassumption|lia|intros ? ? ? ?]
  | |- wp pop_usize2 _ _ => eapply wp_pop_usize2; [eassumption|lia|intros ? ? ? ? ? ?]
  | |- wp pop_usize3 _ _ => eapply wp_pop_usize3; [eassumption|lia|intros ? ? ? ? ? ? ? ?]
  | |- wp pop_u64 _ _ => eapply wp_pop_u64; [eassumption|lia|intros ? ? ?]
  | |- wp (pop_condition _) _ _ => eapply wp_pop_condition; [eassumption|lia|intros ? ? ?]
  | |- wp pop_pair_equal _ _ => eapply wp_pop_pair; [eassumption|lia|intros ? ? ?]
  | |- wp (push_data _) _ _ => eapply wp_push_data; [eassumption|lia|try ok_solve|intros ? ?]
  | |- wp (push_number _) _ _ => eapply wp_push_number; [eassumption|lia|try ok_solve|intros ? ?]
  | |- wp (push_literal_number _) _ _ => eapply wp_push_literal_number; [eassumption|lia|try ok_solve|intros ? ?]
  | |- wp (push_bool _) _ _ => eapply wp_push_bool; [eassumption|lia|intros ? ?]
  | |- wp (engine_consume_script_units _) _ _ => eapply wp_consume_units; [eassumption| |intros ? ?]
  | |- wp (unary _) _ _ => eapply wp_unary; [eassumption|lia|intros ? ?|intros ? ?]
  | |- wp (binary _) _ _ => eapply wp_binary; [eassumption|lia|intros ? ? ? ?|intros ? ?]
  | |- wp (with_tx _ _) _ _ => apply wp_with_tx; intros ? ?
  | |- wp (lift (i32_to_usize _)) _ _ => eapply wp_lift; [apply i32_to_usize_ok; eassumption|intros ? ?]
  | |- wp (lift (nth_input _ _)) _ _ => eapply wp_lift; [apply nth_input_ok; eassumption|intros ? (? & ? & [? ?] & ?)]
  | |- wp (lift (nth_utxo _ _)) _ _ => eapply wp_lift; [apply nth_utxo_ok; eassumption|intros ? (? & ? & ?)]
  | |- wp (lift (try_utxo _ _)) _ _ => eapply wp_lift; [apply try_utxo_ok; eassumption|intros ? (? & ? & ?)]
  | |- wp (lift (nth_output _ _ _)) _ _ => eapply wp_lift; [apply nth_output_ok; eassumption|intros ? (? & ? & ?)]
  | |- wp (lift (try_output _ _)) _ _ => eapply wp_lift; [apply try_output_ok; eassumption|intros ? (? & ? & ?)]
  | |- wp (lift (try_i64 _)) _ _ => eapply wp_lift; [apply try_i64_ok|intros ? ?]
  | |- wp (lift (substring _ _ _)) _ _ => eapply wp_lift; [apply substring_ok|intros ? ?]
  | |- wp (lift (map_err Covenants _)) _ _ => apply (wp_lift (λ _, True)); [|intros ? _]
  | |- vm_ok _ _ => eapply vm_ok_mono; [eassumption|lia]
  end.
Ltac wp_auto := repeat wp_step.
Ltac op_start :=
  first [apply op_safe_disabled; intros Hcov v Hv | apply op_safe_invalid; intros Hcov v Hv | apply op_safe_reserved; intros Hcov v Hv | intros op v Hv].

Lemma stack_ops_safe f : (∀ s, stack_ok cov s → upd_ok cov 1 s (f s)) → op_safe (λ _, upd_dstack f).
Proof. intros Hf op v Hv. eapply wp_upd_dstack; [done|lia|apply Hf|]. intros. wp_auto. Qed.
Lemma stack_ops_safe0 f : (∀ s, stack_ok cov s → upd_ok cov 0 s (f s)) → op_safe (λ _, upd_dstack f).
Proof. intros Hf op v Hv. eapply wp_upd_dstack; [done|lia|apply Hf|]. intros. wp_auto. Qed.

Lemma control_safe : Forall op_safe [OpNop; OpIf env; OpNotIf env; OpElse; OpEndIf; OpVerify; OpReturn; reserved; disabled;
  λ _, push_literal_number (-1)].
Proof.
  rewrite !Forall_cons, Forall_nil. split_and!; try done; op_start;
    unfold OpNop, OpIf, OpNotIf, OpElse, OpEndIf, OpVerify, OpReturn, reserved, disabled; wp_auto.
  1,2: destruct (is_executing v); wp_auto; apply wp_modify, vm_ok_cond; wp_auto.
  1,2: destruct (last (cond_stack v)); [apply wp_modify, vm_ok_cond; wp_auto|apply wp_throw].
  unfold is_int. lia.
Qed.
Lemma shuffle_safe : Forall op_safe [Op2Drop; Op2Dup; Op3Dup; Op2Over; Op2Rot; Op2Swap; OpDrop; OpDup; OpOver; OpRot; OpSwap].
Proof.
  rewrite !Forall_cons, Forall_nil. split_and!; try done.
  all: first [apply stack_ops_safe; intros s Hs; first [by apply dup_items_ok; [|lia]|by apply over_items_ok; [|lia]]
             |apply stack_ops_safe0; intros s Hs; first [by apply drop_items_ok|by apply rot_items_ok|by apply swap_items_ok]].
Qed.
Lemma stack_safe : Forall op_safe [OpToAltStack; OpFromAltStack; OpIfDup; OpDepth; OpNip; OpPick; OpRoll; OpTuck].
Proof.
  rewrite !Forall_cons, Forall_nil. split_and!; try done; op_start;
    unfold OpToAltStack, OpFromAltStack, OpIfDup, OpDepth, OpNip, OpPick, OpRoll, OpTuck; wp_auto.
  - eapply wp_upd_astack; [done|lia|intros; apply push_unmetered_ok; [done|by eapply entry_item]|]. intros. wp_auto.
  - eapply wp_on_astack; [done|lia|intros; by apply pop_is_ok|]. intros a v1 Hv1 Ha.
    eapply wp_upd_dstack; [done|lia|intros; apply push_unmetered_ok; [done|by eapply entry_item]|]. intros. wp_auto.
  - pose proof (vm_ok_dstack 0 v Hv ltac:(lia)) as Hs. apply (wp_lift (λ l, Forall (entry_ok cov) l ∧ length l = 1%nat)).
    + unfold peek_raw. destruct (Nat.ltb_spec (length (inner (dstack v))) 1) as [|Hn]; [done|]. cbn [res_ok].
      split; [by apply split_top_ok|]. unfold split_top. cbn [fst]. rewrite length_drop. lia.
    + intros l [Hl Hn]. destruct l as [|b [|]]; try done. rewrite Forall_singleton in Hl. destruct (deserialize_bool b); wp_auto.
  - apply Z.leb_le in H2. eapply wp_on_dstack; [done|lia|intros; apply stack_remove_ok; [done|lia]|]. intros. wp_auto.
  - apply andb_prop in H4 as [Hl%Z.leb_le Hu%Z.ltb_lt]. destruct (inner (dstack v') !! _) as [d|] eqn:E.
    + apply (wp_lift (λ x, x = d)); [done|]. intros ? ->. pose proof (vm_ok_nth _ _ _ _ H2 E). wp_auto.
    + apply lookup_ge_None in E. unfold stack_len, Zlength in *. lia.
  - eapply wp_upd_dstack; [done|lia|intros; by apply roll_ok|]. intros. wp_auto.
  - apply Z.leb_le in H2. destruct (last (inner (dstack v))) as [d|] eqn:E.
    + apply (wp_lift (λ x, x = d)); [done|]. intros ? ->. pose proof (vm_ok_top _ _ _ Hv E).
      eapply wp_upd_dstack; [done|lia|intros; apply stack_insert_ok; [done|done|lia]|]. intros. wp_auto.
    + apply last_None in E. unfold stack_len, Zlength in H2. rewrite E in H2. cbn in H2. lia.
Qed.
Lemma zip_bytes_ok (f : Z → Z → Z) a b :
  (∀ x y, is_u8 x → is_u8 y → is_u8 (f x y)) → wf_bytes a → wf_bytes b → wf_bytes (zip_with f a b).
Proof.
  intros Hf Ha. revert b. induction Ha as [|x a Hx Ha IH]; intros b Hb; [by apply Forall_nil|].
  destruct Hb as [|y b Hy Hb]; cbn; [by apply Forall_nil|]. apply Forall_cons. split; [by apply Hf|by apply IH].
Qed.
Lemma byte_bits x : is_u8 x ↔ 0 <= x ∧ ∀ n, 8 <= n → Z.testbit x n = false.
Proof.
  unfold is_uint. split.
  - intros Hx. split; [lia|]. intros n Hn. rewrite <- (Z.mod_small x (2 ^ 8)) by lia. apply Z.mod_pow2_bits_high. lia.
  - intros [H0' Hb]. split; [done|]. destruct (Z.eq_dec x 0); [lia|]. apply Z.log2_lt_pow2; [lia|].
    destruct (Z.lt_ge_cases (Z.log2 x) 8) as [|Hge]; [done|]. specialize (Hb _ Hge). rewrite Z.bit_log2 in Hb by lia. done.
Qed.
Lemma bitwise_u8 x y : is_u8 x → is_u8 y → is_u8 (Z.land x y) ∧ is_u8 (Z.lor x y) ∧ is_u8 (Z.lxor x y).
Proof.
  rewrite !byte_bits. intros [Hx1 Hx2] [Hy1 Hy2]. split_and!.
  - apply Z.land_nonneg. auto. - intros n Hn. by rewrite Z.land_spec, Hx2.
  - apply Z.lor_nonneg. auto. - intros n Hn. by rewrite Z.lor_spec, Hx2, Hy2.
  - by apply Z.lxor_nonneg. - intros n Hn. by rewrite Z.lxor_spec, Hx2, Hy2.
Qed.
Lemma bitwise_safe f : (∀ x y, is_u8 x → is_u8 y → is_u8 (f x y)) → op_safe (bitwise env f).
Proof.
  intros Hf. unfold bitwise. op_start. wp_auto. destruct (entry_item _ _ H5) as [Ha Hl], (entry_item _ _ H3) as [Hb _].
  split; [by apply zip_bytes_ok|]. unfold Zlength in *. rewrite length_zip_with. lia.
Qed.
Lemma splice_safe : Forall op_safe [OpCat env; OpSubstr env; OpSize; OpInvert env; OpAnd env; OpOr env; OpXor env; OpEqual; OpEqualVerify].
Proof.
  rewrite !Forall_cons, Forall_nil. split_and!; try done.
  5-7: apply bitwise_safe; intros; by apply bitwise_u8.
  all: op_start; unfold OpCat, OpSubstr, OpSize, OpInvert, OpEqual, OpEqualVerify; wp_auto.
  - destruct H3 as [Ha Hla], H5 as [Hb Hlb]. split; [by apply Forall_app|]. rewrite Zlength_app.
    rewrite Hcov in *. unfold entry_max, MAX_SCRIPT_ELEMENT_SIZE_POST_TOCCATA in *. lia.
  - match goal with H : entry_ok _ a0 |- _ => by destruct H end.
  - destruct (last (inner (dstack v))); wp_auto.
  - destruct H3 as [Ha Hla]. apply (entry_item cov). split; [|unfold Zlength in *; by rewrite length_fmap].
    apply Forall_fmap. eapply Forall_impl; [exact Ha|]. unfold is_uint. cbn. lia.
  - apply item_small; [destruct b; decide_by_eval|by destruct b].
Qed.

Lemma numeric_safe : Forall op_safe [Op1Add; Op1Sub; OpNegate; OpAbs; OpNot; Op0NotEqual; OpAdd; OpSub; OpMul env; OpDiv env; OpMod env;
  OpBoolAnd; OpBoolOr; OpNumEqual; OpNumEqualVerify; OpNumNotEqual; OpLessThan; OpGreaterThan; OpLessThanOrEqual;
  OpGreaterThanOrEqual; OpMin; OpMax; OpWithin].
Proof.
  rewrite !Forall_cons, Forall_nil. split_and!; try done; op_start;
    unfold Op1Add, Op1Sub, OpNegate, OpAbs, OpNot, Op0NotEqual, OpAdd, OpSub, OpBoolAnd, OpBoolOr, OpNumEqual, OpNumEqualVerify,
      OpNumNotEqual, OpLessThan, OpGreaterThan, OpLessThanOrEqual, OpGreaterThanOrEqual, OpMin, OpMax, OpWithin; wp_auto;
    try apply checked_op_ok; try apply i64_div_ok; try (by apply rem_ok); try apply b2z_int.
  all: unfold is_int in *; cbn [res_ok]; lia.
Qed.

Lemma from_stack_safe check :
  (∀ key sig (msg : script_m bytes) Q v, vm_ok 0 v → (∀ v', vm_ok 0 v' → wp msg (λ _, vm_ok 0) v') → (∀ b v', vm_ok 0 v' → Q b v') →
     wp (check key sig msg) Q v) →
  op_safe (or_invalid env (from_stack check)).
Proof.
  intros Hc. op_start. unfold from_stack. wp_auto. apply Hc; [done|intros; by apply wp_ret|]. intros. wp_auto.
Qed.
Lemma crypto_safe : Forall op_safe [OpBlake2bWithKey env; OpSHA256; OpBlake2b; OpBlake3 env; OpBlake3WithKey env; OpCheckSigECDSA env;
  OpCheckSig env; OpCheckSigVerify env; OpCheckMultiSigECDSA env; OpCheckMultiSig env; OpCheckMultiSigVerify env;
  OpCheckSigFromStack env; OpCheckSigFromStackECDSA env].
Proof.
  assert (∀ p (d : bytes), 0 <= script_units_for_data p (Zlength d)) as Hu.
  { intros p d. unfold script_units_for_data, saturating_mul. pose proof (Zlength_ge0 d). destruct p; cbn [units_per_byte]; lia. }
  assert (∀ ecdsa t key sig v Q', vm_ok 0 v → (∀ b v', vm_ok 0 v' → Q' b v') → wp (check_signature env ecdsa t key sig) Q' v) as Hc
    by (intros; by eapply wp_check_signature).
  rewrite !Forall_cons, Forall_nil. split_and!; try done.
  12: apply from_stack_safe; intros; by eapply wp_check_schnorr_msg.
  12: apply from_stack_safe; intros; by eapply wp_check_ecdsa_msg.
  all: op_start; unfold OpSHA256, OpBlake2b, OpCheckSigECDSA, OpCheckSigVerify, OpCheckSig, OpCheckMultiSigECDSA, OpCheckMultiSigVerify,
    OpCheckMultiSig; wp_auto; try apply Hu.
  - eapply wp_check_sig; [done|lia|apply (Hc true)|]. intros. wp_auto.
  - eapply wp_check_sig; [done|lia|apply (Hc false)|]. intros. wp_auto.
  - eapply wp_check_sig; [done|lia|apply (Hc false)|]. intros. wp_auto.
  - eapply wp_multisig; [done|]. intros. wp_auto.
  - eapply wp_multisig; [done|]. intros. wp_auto.
  - eapply wp_multisig; [done|]. intros. wp_auto.
Qed.
Lemma small_int n lo hi : lo <= n < hi → - 2 ^ 63 <= lo → hi <= 2 ^ 63 → is_int 64 n.
Proof. unfold is_int. lia. Qed.
Lemma introspection_safe : Forall op_safe [OpCheckLockTimeVerify env; OpCheckSequenceVerify env; OpTxVersion env; OpTxInputCount env;
  OpTxOutputCount env; OpTxLockTime env; OpTxSubnetId env; OpTxGas env; OpTxPayloadSubstr env; OpTxInputIndex env; OpOutpointTxId env;
  OpOutpointIndex env; OpTxInputScriptSigSubstr env; OpTxInputSeq env; OpTxInputAmount env; OpTxInputSpk env; OpTxInputDaaScore env;
  OpTxInputIsCoinbase env; OpTxOutputAmount env; OpTxOutputSpk env; OpTxPayloadLen env; OpTxInputSpkLen env; OpTxInputSpkSubstr env;
  OpTxOutputSpkLen env; OpTxOutputSpkSubstr env; OpTxInputScriptSigLen env].
Proof.
  rewrite !Forall_cons, Forall_nil. split_and!; try done; op_start;
    unfold OpCheckLockTimeVerify, OpCheckSequenceVerify, OpTxInputCount, OpTxOutputCount, OpTxInputIndex, OpTxInputAmount,
      OpTxInputSpk, OpTxOutputAmount, OpTxOutputSpk; wp_auto.
  all: try (destruct (script_source env); wp_auto; fail).
  - destruct (script_source env); wp_auto. destruct (negb _); wp_auto.
  - destruct H2 as (Hv' & _). eapply small_int; [exact Hv'|lia|lia].
  - destruct H2 as (_ & _ & _ & _ & _ & Hs). eapply array_item; [exact Hs|lia].
  - by destruct H2 as (_ & _ & _ & _ & Hp & _).
  - match goal with H : is_u32 _ |- _ => eapply small_int; [exact H|lia|lia] end.
  - done.
  - apply item_small; [by apply wf_to_le_bytes|]. unfold Zlength. by rewrite length_to_le_bytes.
  - by apply spk_item.
  - by apply spk_item.
Qed.

Lemma covenant_safe : Forall op_safe [OpAuthOutputCount env; OpAuthOutputIdx env; OpNum2Bin env; OpBin2Num env; OpInputCovenantId env;
  OpCovInputCount env; OpCovInputIdx env; OpCovOutputCount env; OpCovOutputIdx env; OpChainblockSeqCommit env;
  OpOutputCovenantId env; OpOutputAuthorizingInput env].
Proof.
  assert (∀ tx i, res_ok (λ _, True) (check_input_index tx i)) as Hci by (intros; unfold check_input_index; by case_match).
  assert (∀ A (o : option A) e, res_ok (λ _, True) (map_err Covenants (ok_or o e))) as Hok by (intros A [] e; done).
  rewrite !Forall_cons, Forall_nil. split_and!; try done; op_start; unfold OpChainblockSeqCommit; wp_auto; try apply Hok.
  - eapply wp_lift; [apply Hci|]. intros. wp_auto.
  - eapply wp_lift; [apply Hci|]. intros. wp_auto. apply Hok.
  - apply Z.leb_le in H4. destruct (serialize_fixed _ a H6 ltac:(lia)) as [(_ & b & -> & Hw & Hl & _)|(_ & ->)].
    + apply (wp_lift (λ x, x = b)); [done|]. intros ? ->. assert (item_ok b) by (apply item_small; [done|lia]). wp_auto.
    + by apply (wp_lift (λ _, False)).
  - destruct (entry_covenant_id a0); cbn [default]; ok_solve.
  - destruct Henv as (_ & _ & Ha). destruct (seq_commit_accessor env) as [acc|]; [|apply wp_throw]. wp_auto.
    apply (wp_lift (λ _, True)); [by destruct (is_chain_ancestor_from_pov acc a) as [[]|]|]. intros _ _. wp_auto.
    destruct (seq_commitment_within_depth acc a) as [c|] eqn:Ec; [|by apply (wp_lift (λ _, False))].
    apply (wp_lift (λ x, x = c)); [done|]. intros ? ->. apply Ha in Ec as [Hl Hw].
    eapply (wp_upd_dstack 0 1); [done|lia| |intros; wp_auto]. intros. apply push_item_ok; [done|]. split; [done|]. unfold Zlength. lia.
  - destruct (covenant a0) as [c|]; [|ok_solve].
    match goal with Hc : _ ∧ is_array 32 _ |- _ => destruct Hc as [_ Hc]; eapply array_item; [exact Hc|lia] end.
  - destruct (covenant a0) as [c|]; [|unfold is_int; lia].
    match goal with Hc : _ ∧ is_array 32 _ |- _ => destruct Hc as [Hc _]; eapply small_int; [exact Hc|lia|lia] end.
Qed.

Lemma table_safe : Forall (λ x, op_safe x.2) (opcode_table env).
Proof.
  pose proof control_safe as Hs1. pose proof shuffle_safe as Hs2. pose proof stack_safe as Hs3. pose proof splice_safe as Hs4.
  pose proof numeric_safe as Hs5. pose proof crypto_safe as Hs6. pose proof introspection_safe as Hs7. pose proof covenant_safe as Hs8.
  pose proof zk_precompile_safe as Hs9. rewrite !Forall_cons, Forall_nil in *. destruct_and!. unfold opcode_table.
  repeat (apply Forall_cons_2; [cbn [snd]; assumption|]). apply Forall_nil_2.
Qed.
(** ** Whole scripts *)

Lemma find_action_in c l a : find_action c l = Some a → (c, a) ∈ l.
Proof.
  induction l as [|[c' a'] l IH]; cbn; [done|]. destruct (Z.eqb_spec c c') as [->|]; intros E.
  - simplify_eq. by left. - right. auto.
Qed.
Lemma op_execute_safe op v :
  (code op <= 78 → item_ok (data op)) → vm_ok 0 v → wp (op_execute env op) (λ _, vm_ok 4) v.
Proof.
  intros Hd Hv. unfold op_execute, codes.OpFalse, codes.OpPushData4, codes.OpTrue, codes.Op16. destruct (code op =? 0).
  { eapply wp_push_literal_data; [done|lia|split; [by apply Forall_nil|done]|]. intros. wp_auto. }
  destruct (Z.leb_spec (code op) 78).
  { eapply wp_push_literal_data; [done|lia|by apply Hd|]. intros. wp_auto. }
  destruct (Z.leb_spec 81 (code op)), (Z.leb_spec (code op) 96); cbn [andb].
  1: wp_auto; unfold is_int; lia.
  all: destruct (find_action _ _) as [a|] eqn:E; [|apply wp_throw].
  all: apply find_action_in in E; pose proof table_safe as Ht; rewrite Forall_forall in Ht; by apply (Ht _ E).
Qed.

(** The state between scripts: the alternate stack and the condition stack are
    empty and everything pushed has been charged. *)
Definition idle (v : vm) : Prop := vm_ok 0 v ∧ inner (astack v) = [] ∧ cond_stack v = [].

Lemma execute_opcode_safe op v : wf_op op → vm_ok 0 v →
  wp (execute_opcode env op) (λ _ v', ∃ k, 0 <= k <= 4 ∧ vm_ok k v' ∧ pushed_bytes (dstack v') = 0 ∧ pushed_bytes (astack v') = 0) v.
Proof.
  intros (Hc & Hw & Hf) Hv. unfold execute_opcode.
  assert (∀ v, vm_ok 0 v → pushed_bytes (dstack v) = 0 ∧ pushed_bytes (astack v) = 0) as Hz by (unfold vm_ok; intros; lia).
  apply wp_bind. apply (wp_mono _ (λ _ v', vm_ok 0 v' ∧ (code op <= 78 → item_ok (data op)))).
  { unfold is_push_opcode, NO_COST_OPCODE. destruct (Z.leb_spec (code op) 96); cbn [negb].
    - apply wp_ensure. intros Hl%Z.leb_le. split; [done|]. intros _. split; [done|]. unfold op_len in Hl.
      unfold max_script_element_size, MAX_SCRIPT_ELEMENT_SIZE_POST_TOCCATA, MAX_SCRIPT_ELEMENT_SIZE_PRE_TOCCATA in Hl. destruct cov; lia.
    - eapply wp_count_ops; [done|lia|]. intros. split; [done|lia]. }
  intros _ v1 [Hv1 Hd]. apply wp_bind, wp_gets. destruct (_ || _).
  2: { apply wp_ret. exists 0. split; [lia|]. split; [done|]. by apply Hz. }
  apply wp_bind. apply (wp_mono _ (λ _, vm_ok 0)).
  { destruct (_ && _); [|by apply wp_ret]. apply (wp_lift (λ _, True)); [|done].
    unfold check_minimal_data_push. repeat case_match; done. }
  intros ? v2 Hv2. cbv beta in Hv2. apply wp_bind. eapply wp_mono; [by apply op_execute_safe|]. intros ? v3 Hv3. cbv beta in Hv3. apply wp_bind.
  unfold wp at 1, engine_pop_pushed_bytes. cbn [pop_pushed_bytes].
  assert (vm_ok 4 (set_astack (mk_stack (inner (astack v3)) (stack_covenants (astack v3)) 0)
    (set_dstack (mk_stack (inner (dstack v3)) (stack_covenants (dstack v3)) 0) v3))) as Hv4.
  { unfold vm_ok, stack_len in *. cbn. split_and!; try tauto; lia. }
  assert (0 <= saturating_add 64 (pushed_bytes (dstack v3)) (pushed_bytes (astack v3))) as Hn
    by (unfold saturating_add, vm_ok in *; lia).
  unfold wp, upd_meter. cbn [meter set_astack set_dstack].
  pose proof (charge_pushed_ok lim (meter v3) _ ltac:(unfold vm_ok in Hv3; tauto) Hn) as Hch.
  destruct (charge_newly_pushed_bytes _ _); [|done|done]. exists 4. split; [lia|]. split; [|done].
  unfold vm_ok, stack_len in *. cbn in *. tauto.
Qed.

Definition parsed_ok (r : res TxScriptError OpCode) : Prop := res_ok wf_op r.
Lemma parse_loop_ok fuel s : wf_bytes s → Forall parsed_ok (parse_loop fuel s).
Proof.
  revert s. induction fuel as [|fuel IH]; intros s Hs; cbn [parse_loop]; [by apply Forall_nil|].
  destruct s as [|c it]; cbn [deserialize_next_opcode]; [by apply Forall_nil|]. apply Forall_cons in Hs as [Hc Hit].
  destruct (deserialize c it) as [r rest] eqn:E. apply Forall_cons. split.
  - destruct r as [op| |]; [|done|].
    + apply deserialize_sound in E; [|done|done]. by destruct E.
    + unfold deserialize in E. repeat case_match; simplify_eq.
  - apply IH. unfold deserialize in E. repeat case_match; simplify_eq; repeat apply Forall_drop; done.
Qed.

Lemma script_step_safe push r v : parsed_ok r → vm_ok 0 v → wp (script_step env push r) (λ _, vm_ok 0) v.
Proof.
  intros Hr Hv. unfold script_step. apply wp_bind. eapply wp_lift; [exact Hr|]. intros op Hop.
  do 3 (apply wp_bind, wp_ensure; intros _). apply wp_bind. eapply wp_mono; [by apply execute_opcode_safe|].
  intros _ v' (k & Hk & Hv' & Hd & Ha). apply wp_bind, wp_gets, wp_bind, wp_gets, wp_bind.
  pose proof (Zlength_ge0 (inner (dstack v'))). pose proof (Zlength_ge0 (inner (astack v'))).
  apply (wp_lift (λ n, n = stack_len (astack v') + stack_len (dstack v'))).
  { replace (add_u 64 (stack_len (astack v')) (stack_len (dstack v'))) with
      (Ok (E := TxScriptError) (stack_len (astack v') + stack_len (dstack v'))); [done|].
    symmetry. apply add_u_ok. unfold vm_ok, stack_len, MAX_STACK_SIZE in *. lia. }
  intros ? ->. apply wp_ensure. intros Hl%Z.leb_le. unfold vm_ok in *. split_and!; try tauto; lia.
Qed.
Lemma run_opcodes_safe push l v : Forall parsed_ok l → vm_ok 0 v → wp (run_opcodes env push l) (λ _, vm_ok 0) v.
Proof.
  intros Hl. revert v. induction Hl as [|r l Hr Hl IH]; intros v Hv; cbn [run_opcodes]; [by apply wp_ret|].
  apply wp_bind. eapply wp_mono; [by apply script_step_safe|]. intros ? v' Hv'. cbv beta in Hv'. by apply IH.
Qed.
Lemma execute_script_safe s push v : wf_bytes s → vm_ok 0 v → wp (execute_script env s push) (λ _, idle) v.
Proof.
  intros Hs Hv. pose proof (run_opcodes_safe push (parse_script s) v (parse_loop_ok _ _ Hs) Hv) as Hr. unfold wp, execute_script in *.
  destruct (run_opcodes env push (parse_script s) v) as [[u| |] v']; cbn [is_ok andb]; [|done|done].
  case_bool_decide as Hc; cbn [negb]; [|done]. split; [|done]. unfold vm_ok in *. cbn.
  split_and!; try tauto; try by apply Forall_nil.
  - change (stack_len (dstack v') + stack_len (clear (astack v')) <= MAX_STACK_SIZE + 4 * 0).
    unfold stack_len at 2. cbn [clear inner with_inner]. change (Zlength (@nil bytes)) with 0.
    pose proof (Zlength_ge0 (inner (astack v'))). unfold stack_len in *. lia.
  - lia. - by vm_compute.
Qed.
Definition saved_ok (o : option Stack) : Prop :=
  match o with
  | Some s => stack_covenants s = cov ∧ Forall (entry_ok cov) (inner s) ∧ stack_len s <= MAX_STACK_SIZE ∧ pushed_bytes s = 0
  | None => True
  end.
Lemma run_scripts_safe p2sh idx scripts saved v :
  Forall script_ok scripts → saved_ok saved → idle v → wp (run_scripts env p2sh idx scripts saved) (λ o v', saved_ok o ∧ idle v') v.
Proof.
  intros Hs. revert idx saved v. induction Hs as [|s scripts [Hw _] Hs IH]; intros idx saved v Ho Hv; cbn [run_scripts]; [by apply wp_ret|].
  case_bool_decide; [by apply IH|]. apply wp_bind, wp_gets, wp_bind. destruct Hv as [Hv _].
  eapply wp_mono; [by apply execute_script_safe|]. intros ? v' Hv'. apply IH; [|done].
  destruct (_ && _); [|done]. unfold vm_ok, saved_ok in *. pose proof (Zlength_ge0 (inner (astack v))). unfold stack_len in *.
  split_and!; try tauto; lia.
Qed.
Lemma check_error_condition_safe final v : idle v → wp (check_error_condition final) (λ _, idle) v.
Proof.
  intros [Hv [Ha Hc]]. unfold check_error_condition. apply wp_bind, wp_gets, wp_bind. apply (wp_mono _ (λ _ v', v' = v)).
  { destruct final; [|by apply wp_ret]. apply wp_bind, wp_ensure. intros _. by apply wp_ensure. }
  intros _ v' ->. apply wp_bind. unfold pop_bool, pop1. apply wp_bind. unfold wp at 1, on_dstack.
  pose proof (pop_items_ok cov (λ _, True) 1 as_bool (dstack v) (vm_ok_dstack 0 v Hv ltac:(lia)) (deser_bool cov)) as Hp.
  destruct (pop_items 1 as_bool (dstack v)) as [[l s]| |]; [|done|done]. destruct Hp as (Hst & _ & Hl).
  pose proof (vm_ok_set_dstack 0 0 v s Hv Hst) as Hv'. destruct l as [|b [|]]; try done. apply wp_ret, wp_ensure. by intros _.
Qed.

Lemma execute_scripts_safe scripts p2sh grams v :
  Forall script_ok scripts → 0 <= grams <= 2 ^ 32 → idle v → wp (execute_scripts env scripts p2sh grams) (λ _, idle) v.
Proof.
  intros Hs Hg Hv. apply wp_bind. apply (wp_lift (λ n, 0 <= n)).
  { unfold script_units_of_gram, SCRIPT_UNITS_PER_GRAM. replace (mul_u 64 grams 100) with (Ok (E := TxScriptError) (grams * 100))
      by (symmetry; apply mul_u_ok; lia). cbn. lia. }
  intros n Hn. destruct Hv as [Hv [Ha Hc]]. apply wp_bind. apply (wp_mono _ (λ _, idle)).
  { pose proof (consume_units_ok lim (meter v) n ltac:(unfold vm_ok in Hv; tauto) Hn) as Hm. unfold wp, engine_consume_script_units, upd_meter.
    destruct (consume_script_units (meter v) n); [|done|done]. split; [|done]. unfold vm_ok in *. cbn. tauto. }
  intros ? v1 Hv1. cbv beta in Hv1. do 2 (apply wp_bind, wp_ensure; intros _). apply wp_bind.
  apply (wp_lift (λ _, True)); [by case_match|]. intros _ _. apply wp_bind. eapply wp_mono; [by apply run_scripts_safe|].
  intros saved v2 [Ho Hv2]. apply wp_bind. apply (wp_mono _ (λ _, idle)); [|intros ? ? ?; by apply wp_ret].
  destruct p2sh; [|by apply wp_ret]. apply wp_bind. eapply wp_mono; [by apply check_error_condition_safe|].
  intros ? v3 Hv3. cbv beta in Hv3. apply wp_bind. destruct saved as [d|]; [|by apply (wp_lift (λ _, False))].
  apply (wp_lift (λ x, x = d)); [done|]. intros ? ->. apply wp_bind, wp_modify. destruct Ho as (Ho1 & Ho2 & Ho3 & Ho4), Hv3 as [Hv3 [Ha3 _]].
  assert (vm_ok 0 (set_dstack d v3)) as Hv4.
  { unfold vm_ok in *. unfold stack_len in *. cbn [dstack astack set_dstack num_ops meter] in *. rewrite Ha3 in *.
    change (Zlength (@nil bytes)) with 0 in *. split_and!; try tauto; lia. }
  apply wp_bind. eapply wp_pop_bytes; [done|lia|]. intros b v5 Hv5 [Hb _]. by apply execute_script_safe.
Qed.
Lemma execute_inner_safe v : idle v → wp (execute_inner env) (λ _, idle) v.
Proof.
  intros Hv. destruct Henv as (Hsrc & _). unfold execute_inner, scripts_of_source.
  destruct (script_source env) as [p input idx entry p2sh|scripts].
  - destruct Hsrc as ((_ & Hi & _ & He & _) & _ & Hin & Hen).
    apply (Forall_lookup_1 _ _ _ _ Hi) in Hin as (_ & _ & Hsig & _). apply (Forall_lookup_1 _ _ _ _ He) in Hen as (_ & (_ & Hspk) & _).
    destruct (MAX_SCRIPT_PUBLIC_KEY_VERSION <? _); [by apply wp_ret|]. apply execute_scripts_safe; [by rewrite !Forall_cons, Forall_nil| |done].
    destruct Hspk as [_ Hl]. pose proof (Zlength_ge0 (spk_script (entry_spk entry))). unfold saturating_sub, STANDARD_SCRIPT_PUB_KEY_MAX_SIZE. lia.
  - by apply execute_scripts_safe.
Qed.

Lemma execute_safe v : idle v → wp (execute env) (λ _, idle) v.
Proof.
  intros Hv. apply wp_bind. eapply wp_mono; [by apply execute_inner_safe|]. intros [] v' Hv'; [by apply check_error_condition_safe|by apply wp_ret].
Qed.
End safety.

(** ** The theorem *)

Definition accessor_ok (o : option SeqCommitAccessor) : Prop :=
  match o with Some acc => ∀ b c, seq_commitment_within_depth acc b = Some c → is_array 32 c | None => True end.

(** The meter a transaction input starts with. *)
Definition input_limit (f : EngineFlags) (input : TransactionInput) (limit : Z) : Z :=
  if covenants_enabled f then limit else default 0 (sig_op_count (compute_commit input)).

Lemma fresh_idle `{Secp} env lim f m cache reused :
  flags env = f → meter_ok lim m → idle env lim (fresh_vm f m cache reused).
Proof.
  intros <- Hm. unfold idle, vm_ok, fresh_vm, new_stack, stack_new, stack_len. cbn [dstack astack inner stack_covenants pushed_bytes num_ops meter cond_stack].
  change (Zlength (@nil bytes)) with 0. split_and!; try done; try by apply Forall_nil.
Qed.

(** The engine of an input, before it runs. *)
Lemma input_engine `{Secp, ScriptHashes, ZkBackend} p i input entry c f limit :
  spend_ok p → 0 <= i → inputs (ptx p) !! Z.to_nat i = Some input → entries p !! Z.to_nat i = Some entry →
  accessor_ok (ctx_seq_commit_accessor c) → 0 <= flag_sigop_script_units f → 0 <= limit →
  let env := new_env (TxInput p input i entry (is_pay_to_script_hash (spk_script (entry_spk entry)))) c f in
  let m := if covenants_enabled f then new_script_units (flag_sigop_script_units f) limit
           else new_sigops (default 0 (sig_op_count (compute_commit input))) in
  let v := fresh_vm f m (ctx_sig_cache c) (ctx_reused_values c) in
  from_transaction_input_with_script_units_limit p input i entry c f limit = Ok (env, v) ∧
  env_ok env ∧ idle env (input_limit f input limit) v.
Proof.
  intros Hp Hi Hin Hen Hacc Hpr Hlim env m v. unfold from_transaction_input_with_script_units_limit.
  assert (i < Zlength (inputs (ptx p))) as Hlt by (apply lookup_lt_Some in Hin; unfold Zlength; lia).
  rewrite (proj2 (Z.ltb_lt _ _)) by done. cbn [guard_panic mbind res_bind]. split; [done|]. split; [unfold env_ok; cbn; done|].
  apply fresh_idle; [done|]. unfold m, input_limit. destruct (covenants_enabled f); [cbn; lia|].
  assert (input_ok input) as (_ & _ & _ & _ & Hc) by (destruct Hp as (_ & Hf & _); by eapply Forall_lookup_1).
  destruct (compute_commit input); cbn in *; unfold is_uint in *; lia.
Qed.

(** C6. Script execution is total and bounded.  For every input of a transaction whose
    fields have their widths, whatever the scripts, the caches and the signature,
    hash and proof libraries do, constructing the engine and executing the input
    never panics: it succeeds or returns an error.  When the scripts run to the
    end, the data stack holds at most 244 entries, each of at most the element
    limit, the alternate and condition stacks are empty, and the units or
    signature operations used are within the limit of the input. *)
Theorem execute_never_panics `{Secp, ScriptHashes, ZkBackend} `{!ScriptHashesLaws, !ZkBackendLaws}
    (p : PopulatedTransaction) (i : Z) (input : TransactionInput) (entry : UtxoEntry) (c : EngineContext) (f : EngineFlags) (limit : Z) :
  spend_ok p → 0 <= i → inputs (ptx p) !! Z.to_nat i = Some input → entries p !! Z.to_nat i = Some entry →
  accessor_ok (ctx_seq_commit_accessor c) → 0 <= flag_sigop_script_units f → 0 <= limit →
  ∃ env v, from_transaction_input_with_script_units_limit p input i entry c f limit = Ok (env, v) ∧
    fst (execute env v) ≠ Panic ∧
    match execute_inner env v with
    | (Ok _, v') =>
        stack_len (dstack v') <= MAX_STACK_SIZE ∧ Forall (entry_ok (covenants_enabled f)) (inner (dstack v')) ∧
        inner (astack v') = [] ∧ cond_stack v' = [] ∧
        ∃ units ops, used_script_units (meter v') = Ok units ∧ used_sig_ops (meter v') = Ok ops ∧
          match meter v' with ScriptUnits _ => units | Sigops _ => ops end <= input_limit f input limit
    | (Err _, _) => True
    | (Panic, _) => False
    end.
Proof.
  intros Hp Hi Hin Hen Hacc Hpr Hlim.
  destruct (input_engine p i input entry c f limit Hp Hi Hin Hen Hacc Hpr Hlim) as (Hf & Henv & Hidle).
  match type of Hidle with idle ?e ?l ?v => set (env := e) in *; set (lim := l) in *; set (vm0 := v) in * end.
  exists env, vm0. split; [done|]. split.
  - pose proof (execute_safe env lim Henv vm0 Hidle) as Hx. unfold wp in Hx. by destruct (execute env vm0) as [[] ?].
  - pose proof (execute_inner_safe env lim Henv vm0 Hidle) as Hx. unfold wp in Hx. destruct (execute_inner env vm0) as [[] v']; [|done|done].
    destruct Hx as [Hv [Ha Hc]]. pose proof (Zlength_ge0 (inner (astack v'))). unfold vm_ok, stack_len in *. split_and!; try done; try tauto; [lia|].
    destruct Hv as (_ & _ & _ & _ & _ & _ & _ & _ & _ & Hm). destruct (meter v') as [ct|u]; cbn in Hm |- *.
    + eexists _, _. split; [done|]. split; [by apply sub_u_ok; split; [|lia]|]. lia.
    + eexists _, _. split; [by apply sub_u_ok; split; [|lia]|]. split; [done|]. lia.
Qed.

#[export] Instance example_hash_laws : ScriptHashesLaws.
Proof. split; intros; (split; [apply length_example_hash|by apply wf_to_le_bytes]). Qed.
#[export] Instance example_zk_laws : ZkBackendLaws.
Proof.
  split.
  - cbn. intros seal check [Hl%Z.leb_le _]%andb_prop. lia.
  - done.
  - cbn. intros b n rest. destruct (Zlength b =? 8); [|done]. intros [= <- _]. apply Z.mod_pos_bound. lia.
Qed.

Lemma example_p2pk_ok : spend_ok example_p2pk_spend.
Proof.
  unfold spend_ok, input_ok, output_ok, utxo_ok, spk_ok, script_ok. cbn [ptx entries inputs outputs example_p2pk_spend example_p2pk_tx].
  rewrite !Forall_singleton. split_and!; try done; try decide_by_eval; try (split; [done|decide_by_eval]).
Qed.

Lemma execute_never_panics_witness :
  ∃ env v, from_transaction_input_with_script_units_limit example_p2pk_spend example_p2pk_input 0 example_p2pk_entry
    example_context default_flags u64_max = Ok (env, v) ∧ fst (execute env v) = Ok () ∧
    match execute_inner env v with (Ok _, v') => stack_len (dstack v') <= 244 | (Err _, _) => True | (Panic, _) => False end.
Proof.
  destruct (execute_never_panics example_p2pk_spend 0 example_p2pk_input example_p2pk_entry example_context default_flags u64_max
    example_p2pk_ok ltac:(lia) eq_refl eq_refl I ltac:(done) ltac:(done)) as (env & v & E & _ & Hx).
  exists env, v. split; [exact E|]. injection E as <- <-. split; [vm_compute; reflexivity|].
  match type of Hx with match ?x with _ => _ end => destruct x as [[] ?] end; [apply Hx|done|done].
Defined.
