(* ===== verification/EngineCache.v ===== *)
(** What engines share does not change what scripts do.

    The engines that check the inputs of a transaction share a signature cache and
    the reused parts of the signature hash.  A cache is sound when every cached
    verdict is the verdict of the library; reused values are right when each part
    that is filled in belongs to the transaction.  Two engines that differ only in
    sound caches, whatever their capacities, contents and eviction draws, and in
    right reused values, return the same result and stay equal but for these, which
    stay sound and right. *)
From stdpp Require Import base gmap list.
From S2P Require Import Prelude IndexMap Encoding Bundle Tx TxHash ScriptNum DataStack ScriptMeter Covenants ScriptParse ScriptBuilder.
From S2P Require Import ZkPrecompiles Engine Opcodes ScriptEngine ExampleCrypto.

Section cache.
Context `{Secp, HS : ScriptHashes, ZB : ZkBackend}.

(** ** Sound caches *)

(** The verdict of the library on a cache key; a key that mixes the two schemes is
    never made. *)
Definition verdict (k : SigCacheKey) : option bool :=
  match signature k, pub_key k with
  | SigSchnorr s, KeySchnorr pk => Some (schnorr_verify s (message k) pk)
  | SigEcdsa s, KeyEcdsa pk => Some (ecdsa_verify s (message k) pk)
  | _, _ => None
  end.
Definition cache_sound (c : Cache) : Prop :=
  Forall (λ x, verdict x.1 = Some x.2) (cache_map c) ∧ 0 <= cache_size c ∧ Zlength (cache_map c) <= cache_size c.

Lemma cache_get_sound c k b : cache_sound c → cache_get c k = Some b → verdict k = Some b.
Proof. intros [Hf _] Hg%assoc_get_in. rewrite Forall_forall in Hf. by apply (Hf (k, b)). Qed.

Lemma cache_insert_sound c k b : cache_sound c → verdict k = Some b → cache_sound (cache_insert c k b).
Proof.
  intros (Hf & Hs & Hl) Hk. unfold cache_insert. destruct (Z.eqb_spec (cache_size c) 0); [done|].
  destruct (Z.eqb_spec (Zlength (cache_map c)) (cache_size c)) as [Hfull|Hfree]; unfold cache_sound; cbn [cache_map cache_size].
  - set (l := swap_remove_index _ _). assert (Zlength l = Zlength (cache_map c) - 1) as Hl'.
    { apply swap_remove_length. intros E. rewrite E in Hfull. unfold Zlength in Hfull. cbn in Hfull. lia. }
    pose proof (assoc_insert_length k b l). split_and!; [|done|lia]. by apply assoc_insert_Forall; [apply swap_remove_Forall|].
  - pose proof (assoc_insert_length k b (cache_map c)). split_and!; [by apply assoc_insert_Forall|done|lia].
Qed.

(** ** Engines that differ only in what they share *)

Section engines.
Context (env : engine_env).

Definition reused_right (r : Reused) : Prop :=
  match script_source env with TxInput p _ _ _ _ => reused_for domain_hash (ptx p) r | StandAloneScripts _ => True end.
Definition shared_sound (v : vm) : Prop := cache_sound (sig_cache v) ∧ reused_right (reused_values v).
(** Replace what is shared. *)
Definition set_shared (c : Cache) (r : Reused) (v : vm) : vm := set_reused_values r (set_sig_cache c v).
Definition same_but_shared (v1 v2 : vm) : Prop :=
  v2 = set_shared (sig_cache v2) (reused_values v2) v1 ∧ shared_sound v1 ∧ shared_sound v2.
(** A computation that cannot tell such engines apart. *)
Definition cache_free {A} (m : script_m A) : Prop :=
  ∀ v1 v2, same_but_shared v1 v2 → fst (m v1) = fst (m v2) ∧ same_but_shared (snd (m v1)) (snd (m v2)).

Lemma same_fields v1 v2 : same_but_shared v1 v2 →
  dstack v2 = dstack v1 ∧ astack v2 = astack v1 ∧ cond_stack v2 = cond_stack v1 ∧ num_ops v2 = num_ops v1 ∧ meter v2 = meter v1.
Proof. intros [-> _]. done. Qed.

(** An update of the other fields, computed from them. *)
Ltac same_upd Hs := destruct Hs as (-> & ? & ?); done.

Lemma cf_bind {A B} (m : script_m A) (f : A → script_m B) : cache_free m → (∀ a, cache_free (f a)) → cache_free (m ≫= f).
Proof.
  intros Hm Hf v1 v2 Hs. specialize (Hm v1 v2 Hs). unfold mbind, script_bind.
  destruct (m v1) as [[a| |] v1'], (m v2) as [[b| |] v2']; cbn in Hm; destruct Hm as [Hr Hs']; simplify_eq; [|done..].
  by apply Hf.
Qed.
Lemma cf_pure {A} (r : res TxScriptError A) : cache_free (λ v, (r, v)).
Proof. by intros v1 v2 Hs. Qed.
Lemma cf_gets {A} (f : vm → A) : (∀ v c r, f (set_shared c r v) = f v) → cache_free (gets f).
Proof. intros Hf v1 v2 Hs. split; [|done]. destruct Hs as [-> _]. cbn. by rewrite Hf. Qed.
Lemma cf_modify f :
  (∀ v c r, f (set_shared c r v) = set_shared c r (f v)) → (∀ v, sig_cache (f v) = sig_cache v ∧ reused_values (f v) = reused_values v) →
  cache_free (modify f).
Proof.
  intros Hf Hc v1 v2 Hs. split; [done|]. destruct Hs as (E & [S1 R1] & [S2 R2]). cbn. unfold same_but_shared, shared_sound.
  destruct (Hc v1) as [-> ->], (Hc v2) as [-> ->]. split_and!; try done. rewrite E at 1. by rewrite Hf.
Qed.
Lemma cf_on_dstack {A} (f : Stack → stack_res A) : cache_free (on_dstack f).
Proof.
  intros v1 v2 Hs. destruct (same_fields v1 v2 Hs) as (E & _). unfold on_dstack. rewrite E.
  destruct (f (dstack v1)) as [[a s]| |]; [|done|done]. split; [done|]. same_upd Hs.
Qed.
Lemma cf_upd_dstack f : cache_free (upd_dstack f).
Proof.
  intros v1 v2 Hs. destruct (same_fields v1 v2 Hs) as (E & _). unfold upd_dstack. rewrite E.
  destruct (f (dstack v1)); [|done|done]. split; [done|]. same_upd Hs.
Qed.
Lemma cf_on_astack {A} (f : Stack → stack_res A) : cache_free (on_astack f).
Proof.
  intros v1 v2 Hs. destruct (same_fields v1 v2 Hs) as (_ & E & _). unfold on_astack. rewrite E.
  destruct (f (astack v1)) as [[a s]| |]; [|done|done]. split; [done|]. same_upd Hs.
Qed.
Lemma cf_upd_astack f : cache_free (upd_astack f).
Proof.
  intros v1 v2 Hs. destruct (same_fields v1 v2 Hs) as (_ & E & _). unfold upd_astack. rewrite E.
  destruct (f (astack v1)); [|done|done]. split; [done|]. same_upd Hs.
Qed.
Lemma cf_upd_meter f : cache_free (upd_meter f).
Proof.
  intros v1 v2 Hs. destruct (same_fields v1 v2 Hs) as (_ & _ & _ & _ & E). unfold upd_meter. rewrite E.
  destruct (f (meter v1)); [|done|done]. split; [done|]. same_upd Hs.
Qed.
(** A signature hash of the input does not depend on the reused values. *)
Definition steady (calc : Reused → exec (bytes * Reused)) : Prop :=
  ∀ r1 r2, reused_right r1 → reused_right r2 →
  match calc r1, calc r2 with
  | Ok (h1, r1'), Ok (h2, r2') => h1 = h2 ∧ reused_right r1' ∧ reused_right r2'
  | Panic, Panic => True
  | _, _ => False
  end.
Lemma cf_sig_hash calc : steady calc → cache_free (sig_hash calc).
Proof.
  intros Hc v1 v2 Hs. destruct Hs as (E & [S1 R1] & [S2 R2]). specialize (Hc _ _ R1 R2). unfold sig_hash.
  destruct (calc (reused_values v1)) as [[h1 r1]|[]|], (calc (reused_values v2)) as [[h2 r2]|[]|]; [|done|done|done].
  destruct Hc as (-> & ? & ?). split; [done|]. split; [|done]. cbn. by rewrite E.
Qed.
Lemma steady_schnorr p input idx entry b t :
  script_source env = TxInput p input idx entry b → steady (calc_schnorr_signature_hash domain_hash p idx t).
Proof.
  intros Hsrc r1 r2. unfold reused_right. rewrite Hsrc. intros H1 H2.
  destruct (populated_input p idx) as [[i e]|[]|] eqn:Ep.
  2: { unfold calc_schnorr_signature_hash. by rewrite Ep. }
  destruct (calc_schnorr_input domain_hash p idx t r1 i e H1 Ep) as (r1' & Hr1 & ->).
  by destruct (calc_schnorr_input domain_hash p idx t r2 i e H2 Ep) as (r2' & Hr2 & ->).
Qed.
Lemma steady_ecdsa p input idx entry b t :
  script_source env = TxInput p input idx entry b → steady (calc_ecdsa_signature_hash domain_hash p idx t).
Proof.
  intros Hsrc r1 r2 H1 H2. pose proof (steady_schnorr _ _ _ _ _ t Hsrc r1 r2 H1 H2) as Hs. unfold calc_ecdsa_signature_hash.
  destruct (calc_schnorr_signature_hash domain_hash p idx t r1) as [[]|[]|], (calc_schnorr_signature_hash domain_hash p idx t r2) as [[]|[]|]; try done.
  cbn. by destruct Hs as (-> & ? & ?).
Qed.
Lemma cf_pop_pushed : cache_free engine_pop_pushed_bytes.
Proof.
  intros v1 v2 Hs. destruct (same_fields v1 v2 Hs) as (Ed & Ea & _). unfold engine_pop_pushed_bytes. rewrite Ed, Ea.
  cbn [pop_pushed_bytes]. split; [done|]. same_upd Hs.
Qed.

(** The cached verdict is the verdict. *)
Lemma cf_cached_verify k b : verdict k = Some b → cache_free (cached_verify k b).
Proof.
  intros Hk v1 v2 Hs. destruct (Hs) as (E & [S1 R1] & [S2 R2]). unfold cached_verify, same_but_shared, shared_sound.
  destruct v1 as [d1 a1 c1 n1 m1 s1 r1], v2 as [d2 a2 c2 n2 m2 s2 r2]. cbn in E. injection E as -> -> -> -> ->.
  cbn [sig_cache reused_values] in *.
  destruct (cache_get s1 k) as [b1|] eqn:E1, (cache_get s2 k) as [b2|] eqn:E2;
    try (apply cache_get_sound in E1; [|done]); try (apply cache_get_sound in E2; [|done]); cbn [fst snd];
    (split; [congruence|]); split_and!; try done; by apply cache_insert_sound.
Qed.
(** ** Every opcode *)

Ltac cf_step :=
  cbv beta iota;
  lazymatch goal with
  | |- cache_free (mbind _ _) => apply cf_bind; [|intros ?]
  | |- cache_free (mret _) => apply cf_pure
  | |- cache_free (throw _) => apply cf_pure
  | |- cache_free (lift _) => apply cf_pure
  | |- cache_free (ensure _ _) => apply cf_pure
  | |- cache_free (gets _) => apply cf_gets; done
  | |- cache_free (modify _) => apply cf_modify; done
  | |- cache_free (on_dstack _) => apply cf_on_dstack
  | |- cache_free (upd_dstack _) => apply cf_upd_dstack
  | |- cache_free (on_astack _) => apply cf_on_astack
  | |- cache_free (upd_astack _) => apply cf_upd_astack
  | |- cache_free (upd_meter _) => apply cf_upd_meter
  | |- cache_free engine_pop_pushed_bytes => apply cf_pop_pushed
  | |- cache_free (cached_verify _ _) => apply cf_cached_verify; done
  | |- cache_free (match ?x with _ => _ end) => destruct x
  end.
Ltac cf_auto := repeat cf_step.

Lemma cf_pop1 {T} (d : bytes → bool → res TxScriptError T) : cache_free (pop1 d).
Proof. unfold pop1. cf_auto. Qed.
Lemma cf_pop2 {T} (d : bytes → bool → res TxScriptError T) : cache_free (pop2 d).
Proof. unfold pop2. cf_auto. Qed.
Lemma cf_pop3 {T} (d : bytes → bool → res TxScriptError T) : cache_free (pop3 d).
Proof. unfold pop3. cf_auto. Qed.

Lemma cf_schnorr_msg key sig (msg : script_m bytes) : cache_free msg → cache_free (check_schnorr_signature_with_msg_hash key sig msg).
Proof. intros Hm. unfold check_schnorr_signature_with_msg_hash, engine_consume_sig_op_cost. cf_auto. done. Qed.
Lemma cf_ecdsa_msg key sig (msg : script_m bytes) : cache_free msg → cache_free (check_ecdsa_signature_with_msg_hash key sig msg).
Proof. intros Hm. unfold check_ecdsa_signature_with_msg_hash, engine_consume_sig_op_cost. cf_auto. done. Qed.
Lemma cf_schnorr t key sig : cache_free (check_schnorr_signature env t key sig).
Proof.
  unfold check_schnorr_signature. destruct (script_source env) eqn:Hsrc; [|cf_auto]. apply cf_schnorr_msg, cf_sig_hash. by eapply steady_schnorr.
Qed.
Lemma cf_ecdsa t key sig : cache_free (check_ecdsa_signature env t key sig).
Proof.
  unfold check_ecdsa_signature. destruct (script_source env) eqn:Hsrc; [|cf_auto]. apply cf_ecdsa_msg, cf_sig_hash. by eapply steady_ecdsa.
Qed.
Lemma cf_check_signature ecdsa t key sig : cache_free (check_signature env ecdsa t key sig).
Proof. unfold check_signature. destruct ecdsa; [apply cf_ecdsa|apply cf_schnorr]. Qed.
Lemma cf_advance_keys ecdsa t sig n keys : cache_free (advance_keys env ecdsa t sig n keys).
Proof.
  induction keys as [|key keys IH]; cbn [advance_keys]; (destruct (_ <? _)%nat; [cf_auto|]); [cf_auto|].
  apply cf_bind; [apply cf_check_signature|]. intros []; [cf_auto|done].
Qed.
Lemma cf_check_signatures ecdsa sigs keys : cache_free (check_signatures env ecdsa sigs keys).
Proof.
  revert keys. induction sigs as [|sig sigs IH]; intros keys; cbn [check_signatures]; [cf_auto|].
  destruct (last sig); [|cf_auto]. apply cf_bind; [cf_auto|]. intros t. apply cf_bind; [apply cf_advance_keys|].
  intros []; [apply IH|cf_auto].
Qed.
Lemma cf_multisig ecdsa : cache_free (op_check_multisig_schnorr_or_ecdsa env ecdsa).
Proof.
  unfold op_check_multisig_schnorr_or_ecdsa, count_ops, push_bool. cf_auto; first [apply cf_pop1|apply cf_check_signatures].
Qed.

Lemma cf_verify_zk tag : cache_free (λ v : vm,
  match verify_zk tag (dstack v) (meter v) with
  | Ok (s, m) => (Ok (), set_meter m (set_dstack s v))
  | Err e => (Err e, v)
  | Panic => (Panic, v)
  end).
Proof.
  intros v1 v2 Hs. destruct (same_fields v1 v2 Hs) as (Ed & _ & _ & _ & Em). rewrite Ed, Em.
  destruct (verify_zk tag (dstack v1) (meter v1)) as [[s m]| |]; [|done|done]. split; [done|]. same_upd Hs.
Qed.

Ltac head_of t := lazymatch t with ?f _ => head_of f | _ => t end.
Ltac cf_op :=
  repeat first [ progress cf_step | apply cf_pop1 | apply cf_pop2 | apply cf_pop3 | apply cf_multisig | apply cf_schnorr | apply cf_ecdsa
    | apply cf_schnorr_msg | apply cf_ecdsa_msg | apply cf_verify_zk
    | match goal with |- cache_free ?t => let h := head_of t in progress unfold h end ].

Lemma table_cache_free : Forall (λ x, ∀ op, cache_free (x.2 op)) (opcode_table env).
Proof. unfold opcode_table. repeat (apply Forall_cons_2; [intros op; cbn [snd]; solve [cf_op]|]). apply Forall_nil_2. Qed.

(** ** Whole scripts *)

Lemma cf_op_execute op : cache_free (op_execute env op).
Proof.
  unfold op_execute, push_literal_data, push_literal_number. destruct (_ =? _); [cf_auto|]. destruct (_ <=? _); [cf_auto|].
  destruct (_ && _); [cf_auto|]. destruct (find_action _ _) as [a|] eqn:E; [|unfold invalid; cf_auto].
  pose proof table_cache_free as Ht. rewrite Forall_forall in Ht.
  assert ((code op, a) ∈ opcode_table env) as Hin; [|by apply (Ht _ Hin)].
  revert E. generalize (opcode_table env). induction l as [|[c' a'] l IH]; cbn; [done|].
  destruct (Z.eqb_spec (code op) c') as [->|]; intros E; [simplify_eq; by left|right; auto].
Qed.
Lemma cf_execute_opcode op : cache_free (execute_opcode env op).
Proof. unfold execute_opcode, count_ops. cf_auto. apply cf_op_execute. Qed.
Lemma cf_run_opcodes push l : cache_free (run_opcodes env push l).
Proof.
  induction l as [|r l IH]; cbn [run_opcodes]; [cf_auto|]. unfold script_step. cf_auto; [apply cf_execute_opcode|done].
Qed.
Lemma cf_execute_script s push : cache_free (execute_script env s push).
Proof.
  intros v1 v2 Hs. pose proof (cf_run_opcodes push (parse_script s) v1 v2 Hs) as [Hr Hs']. unfold execute_script.
  destruct (run_opcodes env push (parse_script s) v1) as [r1 v1'], (run_opcodes env push (parse_script s) v2) as [r2 v2']. cbn in Hr, Hs'.
  subst r2. destruct (same_fields _ _ Hs') as (_ & Ea & Ec & _). rewrite Ec, Ea.
  destruct (_ && _); (split; [done|]); [done|]. same_upd Hs'.
Qed.
Lemma cf_check_error_condition b : cache_free (check_error_condition b).
Proof. unfold check_error_condition. cf_auto. apply cf_pop1. Qed.
Lemma cf_run_scripts p2sh i l saved : cache_free (run_scripts env p2sh i l saved).
Proof.
  revert i saved. induction l as [|s l IH]; intros i saved; cbn [run_scripts]; [cf_auto|].
  case_bool_decide; [apply IH|]. apply cf_bind; [cf_auto|]. intros d. apply cf_bind; [apply cf_execute_script|]. intros _. apply IH.
Qed.
Lemma cf_execute_inner : cache_free (execute_inner env).
Proof.
  unfold execute_inner. destruct (scripts_of_source env) as [[[scripts p2sh] grams]|]; [|cf_auto]. unfold execute_scripts.
  do 2 (apply cf_bind; [unfold engine_consume_script_units; cf_auto|intros ?]). do 3 (apply cf_bind; [cf_auto|intros ?]).
  apply cf_bind; [apply cf_run_scripts|]. intros saved. apply cf_bind; [|intros; cf_auto]. destruct p2sh; [|cf_auto].
  apply cf_bind; [apply cf_check_error_condition|]. intros _. unfold pop_bytes. cf_auto. apply cf_execute_script.
Qed.
Lemma cf_execute : cache_free (execute env).
Proof. unfold execute. apply cf_bind; [apply cf_execute_inner|]. intros []; [apply cf_check_error_condition|cf_auto]. Qed.
End engines.
End cache.

(** C21. What engines share is transparent.  Executing an input with two sound
    caches of any capacity, contents and eviction draws, and with right reused
    values filled in to any extent, gives the same outcome and the same engine
    state apart from these; both caches are sound and both reused values right
    afterwards, so this carries over to every later input that shares them; and no
    cache exceeds its capacity. *)
Theorem sig_cache_transparent `{Secp, ScriptHashes, ZkBackend} (env : engine_env) (v : vm) (c1 c2 : Cache) (r1 r2 : Reused) :
  cache_sound c1 → cache_sound c2 → reused_right env r1 → reused_right env r2 →
  let '(o1, v1) := execute env (set_shared c1 r1 v) in
  let '(o2, v2) := execute env (set_shared c2 r2 v) in
  o1 = o2 ∧ v2 = set_shared (sig_cache v2) (reused_values v2) v1 ∧ shared_sound env v1 ∧ shared_sound env v2.
Proof.
  intros Hc1 Hc2 Hr1 Hr2. pose proof (cf_execute env (set_shared c1 r1 v) (set_shared c2 r2 v) ltac:(done)) as [Hr Hs].
  destruct (execute env (set_shared c1 r1 v)) as [o1 v1], (execute env (set_shared c2 r2 v)) as [o2 v2]. done.
Qed.

(** A cache that already holds the verdict on the example input, and no cache. *)
Definition example_cached : Cache :=
  mk_cache [(mk_cache_key (SigSchnorr (take 64 example_signature)) (KeySchnorr example_key) example_message, true)] 1 [0].
Definition example_engine : engine_env * vm :=
  match from_transaction_input example_p2pk_spend example_p2pk_input 0 example_p2pk_entry example_context default_flags with
  | Ok x => x
  | _ => engine_new example_context default_flags
  end.

Lemma sig_cache_transparent_witness :
  cache_sound example_cached ∧
  fst (execute example_engine.1 (set_shared example_cached reused_new example_engine.2)) =
  fst (execute example_engine.1 (set_shared (cache_new 0 []) reused_new example_engine.2)) ∧
  fst (execute example_engine.1 (set_shared example_cached reused_new example_engine.2)) = Ok ().
Proof.
  assert (cache_sound example_cached) as H1.
  { split; [apply Forall_singleton; vm_compute; reflexivity|]. split; [done|]. vm_compute. discriminate. }
  assert (cache_sound (cache_new 0 [])) as H2 by (split; [apply Forall_nil_2|done]).
  assert (reused_right example_engine.1 reused_new) as H3 by apply reused_new_for.
  split; [exact H1|]. split; [|vm_compute; reflexivity].
  pose proof (sig_cache_transparent example_engine.1 example_engine.2 _ _ _ _ H1 H2 H3 H3) as H.
  destruct (execute _ (set_shared example_cached _ _)), (execute _ (set_shared (cache_new 0 []) _ _)). apply H.
Defined.
