(* ===== verification/Multisig.v ===== *)
(** Multisig succeeds exactly when the signatures can be assigned to keys in order.

    [sig_verdict] is the verdict on one signature and one key, without caches: the
    hash type is the last byte of the signature, the message is the signature hash
    of the input computed afresh.  [assigned] is the specification of multisig:
    every signature has a key of its own, in the order of the keys.  [stops] lists
    the reasons for which the pass stops with an error: a hash type, a key or a
    signature that is malformed, or the budget of signature operations.  The theorem
    shows that the single pass of the engine over the keys decides the assignment. *)
From stdpp Require Import base gmap list.
From S2P Require Import Prelude Encoding Bundle Tx TxHash ScriptNum DataStack ScriptMeter Covenants ScriptParse ScriptBuilder ZkPrecompiles.
From S2P Require Import Engine Opcodes ScriptEngine ExampleCrypto EngineCache.

(** ** Assignments of signatures to keys *)

Section assignment.
Context (ok : bytes → bytes → Prop).

Inductive assigned : list bytes → list bytes → Prop :=
  | assigned_nil keys : assigned [] keys
  | assigned_use s sigs k keys : ok s k → assigned sigs keys → assigned (s :: sigs) (k :: keys)
  | assigned_skip s sigs k keys : assigned (s :: sigs) keys → assigned (s :: sigs) (k :: keys).

Lemma assigned_length sigs keys : assigned sigs keys → (length sigs <= length keys)%nat.
Proof. induction 1; cbn in *; lia. Qed.
Lemma assigned_more sigs k keys : assigned sigs keys → assigned sigs (k :: keys).
Proof. destruct sigs; [intros; apply assigned_nil|apply assigned_skip]. Qed.
Lemma assigned_tail s sigs keys : assigned (s :: sigs) keys → assigned sigs keys.
Proof.
  remember (s :: sigs) as l eqn:E. intros Ha. revert s sigs E. induction Ha as [|s' sigs' k keys Hok Ha _|s' sigs' k keys Ha IH]; intros s sigs E;
    [done| |]; simplify_eq; apply assigned_more; [done|by eapply IH].
Qed.
(** The first key that verifies a signature may be used for it. *)
Lemma assigned_first s sigs k keys : ok s k → assigned (s :: sigs) (k :: keys) ↔ assigned sigs keys.
Proof.
  intros Hok. split; [|by apply assigned_use]. inversion 1; subst; [done|]. by eapply assigned_tail.
Qed.
Lemma assigned_pass s sigs k keys : ¬ ok s k → assigned (s :: sigs) (k :: keys) ↔ assigned (s :: sigs) keys.
Proof. intros Hok. split; [|apply assigned_skip]. inversion 1; subst; done. Qed.
End assignment.

(** ** The data stack *)

Section stack.
Context `{Secp}.

Lemma pop1_last {T} (d : bytes → bool → res TxScriptError T) l e c n a v :
  dstack v = mk_stack (l ++ [e]) c n → d e (negb c) = Ok a → pop1 d v = (Ok a, set_dstack (mk_stack l c n) v).
Proof.
  intros Hd He. unfold pop1, on_dstack, mbind, script_bind, pop_items. rewrite Hd. cbn [inner].
  rewrite (proj2 (Nat.ltb_ge _ _)) by (rewrite length_app; cbn; lia). rewrite split_top_app by done.
  cbn [stack_covenants map_res]. rewrite He. done.
Qed.
Lemma split_off_block l x c n : split_off (mk_stack (l ++ x) c n) (stack_len (mk_stack (l ++ x) c n) - Zlength x) = Ok (x, mk_stack l c n).
Proof.
  unfold split_off, stack_len. cbn [inner]. unfold Zlength. rewrite length_app, Nat2Z.inj_add.
  replace (Z.of_nat (length l) + Z.of_nat (length x) - Z.of_nat (length x)) with (Z.of_nat (length l)) by lia.
  unfold guard_panic. rewrite (proj2 (Z.leb_le _ _)) by lia. rewrite Nat2Z.id. cbn [mbind res_bind]. unfold with_inner.
  cbn [stack_covenants pushed_bytes]. by rewrite drop_app_length, take_app_length.
Qed.
Lemma push_bool_ok b v l c n : dstack v = mk_stack l c n → 0 <= n < 2 ^ 64 - 1 →
  push_bool b v = (Ok (), set_dstack (mk_stack (l ++ [serialize_bool b]) c (n + Zlength (serialize_bool b))) v).
Proof.
  intros Hd Hn. unfold push_bool, upd_dstack. rewrite Hd.
  replace (push_item _ _) with (Ok (E := TxScriptError) (mk_stack (l ++ [serialize_bool b]) c (n + Zlength (serialize_bool b)))); [done|].
  symmetry. unfold push_item, add_pushed_bytes. cbn [map_err mbind res_bind pushed_bytes]. assert (Zlength (serialize_bool b) <= 1) by (by destruct b).
  unfold checked_add. rewrite (proj2 (Z.ltb_lt _ _)) by lia. done.
Qed.
End stack.

Section multisig.
Context `{Secp, HS : ScriptHashes} (env : engine_env) (p : PopulatedTransaction) (input : TransactionInput) (idx : Z)
  (entry : UtxoEntry) (p2sh : bool).
Context (Hsrc : script_source env = TxInput p input idx entry p2sh) (Hidx : 0 <= idx < Zlength (inputs (ptx p)))
  (Hlen : length (entries p) = length (inputs (ptx p))).
Abbreviation cov := (covenants_enabled (flags env)).

(** ** The verdict on one signature *)

Definition calc (ecdsa : bool) (t : Z) : Reused → exec (bytes * Reused) :=
  if ecdsa then calc_ecdsa_signature_hash domain_hash p idx t else calc_schnorr_signature_hash domain_hash p idx t.
Definition sig_message (ecdsa : bool) (t : Z) : bytes :=
  match calc ecdsa t reused_new with Ok (h, _) => h | _ => [] end.
Definition key_verdict (ecdsa : bool) (t : Z) (key sig : bytes) : option bool :=
  if ecdsa then
    if Zlength key =? 33 then
      pk ← ecdsa_key_from_slice key; s ← ecdsa_sig_from_compact sig; Some (ecdsa_verify s (sig_message true t) pk)
    else None
  else pk ← xonly_from_slice key; s ← schnorr_sig_from_slice sig; Some (schnorr_verify s (sig_message false t) pk).
Definition sig_verdict (ecdsa : bool) (sig key : bytes) : option bool :=
  typ ← last sig; t ← sighash_from_u8 typ; key_verdict ecdsa t key (take (length sig - 1) sig).

(** The shared state is accurate: verdicts and reused hashes are the right ones. *)
Definition shared_ok (v : vm) : Prop := cache_sound (sig_cache v) ∧ reused_for domain_hash (ptx p) (reused_values v).
(** The price of a signature operation is a [u64]. *)
Definition meter_typed (m : RuntimeResourceMeter) : Prop :=
  match m with Sigops _ => True | ScriptUnits u => 0 <= sigop_script_units u < 2 ^ 64 end.
(** Room for [n] more signature operations. *)
Definition sig_room (m : RuntimeResourceMeter) (n : Z) : Prop :=
  match m with Sigops c => n <= sig_op_remaining c | ScriptUnits u => n * sigop_script_units u <= remaining_script_units u end.
(** The error of a meter whose budget is spent. *)
Definition over_budget (m : RuntimeResourceMeter) (e : TxScriptError) : Prop :=
  match m with
  | Sigops c => e = ExceededSigOpLimit (sig_op_limit c)
  | ScriptUnits u => ∃ used, e = ExceededCommittedScriptUnits used (script_units_limit u)
  end.
(** The error of a key and a signature that do not parse. *)
Definition pair_error (ecdsa : bool) (key sig : bytes) : option TxScriptError :=
  if ecdsa && negb (Zlength key =? 33) then Some PubKeyFormat
  else if ecdsa then match ecdsa_key_from_slice key, ecdsa_sig_from_compact sig with None, _ => Some InvalidPubkey | _, None => Some InvalidSignature | _, _ => None end
  else match xonly_from_slice key, schnorr_sig_from_slice sig with None, _ => Some InvalidPubkey | _, None => Some InvalidSignature | _, _ => None end.
(** The reasons for which the pass stops with an error. *)
Definition stops (ecdsa : bool) (m : RuntimeResourceMeter) (sigs keys : list bytes) (e : TxScriptError) : Prop :=
  (∃ s typ, s ∈ sigs ∧ last s = Some typ ∧ sighash_from_u8 typ = None ∧ e = InvalidSigHashType typ) ∨
  (∃ s k, s ∈ sigs ∧ s ≠ [] ∧ k ∈ keys ∧ pair_error ecdsa k (take (length s - 1) s) = Some e) ∨
  (over_budget m e ∧ ¬ sig_room m (Zlength keys)).
(** Everything but the meter and the shared state is kept. *)
Definition same_run (v v' : vm) : Prop :=
  dstack v' = dstack v ∧ astack v' = astack v ∧ cond_stack v' = cond_stack v ∧ num_ops v' = num_ops v.

(** What a meter that has charged one more operation keeps. *)
Definition charged (m m' : RuntimeResourceMeter) : Prop :=
  meter_typed m' ∧ (∀ e, over_budget m' e → over_budget m e) ∧ ∀ n, sig_room m (n + 1) → sig_room m' n.
Lemma consume_cases m : meter_typed m →
  match consume_sig_op_cost m 1 with
  | Ok m' => charged m m'
  | Err e => over_budget m e ∧ ∀ n, 0 <= n → ¬ sig_room m (n + 1)
  | Panic => False
  end.
Proof.
  intros Hm. destruct m as [c|u]; cbn in *.
  - unfold consume_sig_ops. destruct (checked_sub (sig_op_remaining c) 1) as [r|] eqn:E; cbn.
    + apply checked_sub_Some in E as [-> ?]. split_and!; [done|done|]. cbn. lia.
    + unfold checked_sub in E. split; [done|]. intros n Hn. destruct (Z.leb_spec 1 (sig_op_remaining c)); [done|lia].
  - assert (saturating_mul 64 1 (sigop_script_units u) = sigop_script_units u) as Hs by (unfold saturating_mul; lia).
    unfold unit_consume_sig_op_cost, unit_consume_script_units. rewrite Hs.
    destruct (checked_sub (remaining_script_units u) (sigop_script_units u)) as [r|] eqn:E; cbn.
    + apply checked_sub_Some in E as [-> ?]. split_and!; cbn; [done|done|]. nia.
    + unfold checked_sub in E. destruct (Z.leb_spec (sigop_script_units u) (remaining_script_units u)); [done|].
      unfold sub_u. rewrite (proj2 (checked_sub_Some (sigop_script_units u) (remaining_script_units u) _)) by (split; [reflexivity|lia]). cbn.
      split; [by eexists|]. intros n Hn. nia.
Qed.

Lemma calc_fresh ecdsa t r : reused_for domain_hash (ptx p) r →
  ∃ r', calc ecdsa t r = Ok (sig_message ecdsa t, r') ∧ reused_for domain_hash (ptx p) r'.
Proof.
  intros Hr. unfold sig_message, calc.
  destruct (calc_schnorr_spec domain_hash p idx t r Hr Hidx Hlen) as (i & e & r' & Hp & Hr' & Hc).
  destruct (calc_schnorr_spec domain_hash p idx t reused_new (reused_new_for _ _) Hidx Hlen) as (i' & e' & r'' & Hp' & _ & Hc').
  rewrite Hp in Hp'. simplify_eq. exists r'. unfold calc_ecdsa_signature_hash. destruct ecdsa; rewrite Hc, Hc'; done.
Qed.

(** One check: the verdict, for one signature operation, or the error of the pair or of the meter. *)
Lemma check_signature_cases ecdsa t key sig v : shared_ok v → meter_typed (meter v) →
  match check_signature env ecdsa t key sig v with
  | (Ok b, v') => key_verdict ecdsa t key sig = Some b ∧ shared_ok v' ∧ charged (meter v) (meter v') ∧ same_run v v'
  | (Err e, _) => pair_error ecdsa key sig = Some e ∨ (over_budget (meter v) e ∧ ∀ n, 0 <= n → ¬ sig_room (meter v) (n + 1))
  | (Panic, _) => False
  end.
Proof.
  intros [Hc Hr] Hm. destruct (calc_fresh ecdsa t _ Hr) as (r' & Hcalc & Hr'). pose proof (consume_cases _ Hm) as Hcons.
  assert (∀ m' k b, charged (meter v) m' → verdict k = Some b → ∃ v', cached_verify k b (set_reused_values r' (set_meter m' v)) = (Ok b, v') ∧
    shared_ok v' ∧ charged (meter v) (meter v') ∧ same_run v v') as Hcv.
  { intros m' k b Hch Hk. unfold cached_verify. cbn [sig_cache set_reused_values set_meter].
    destruct (cache_get (sig_cache v) k) as [b'|] eqn:Eg.
    - pose proof (cache_get_sound _ _ _ Hc Eg) as Hk'. rewrite Hk in Hk'. simplify_eq. eexists. by split.
    - eexists. split; [done|]. split; [|done]. split; [by apply cache_insert_sound|done]. }
  unfold check_signature, check_ecdsa_signature, check_schnorr_signature, check_ecdsa_signature_with_msg_hash,
    check_schnorr_signature_with_msg_hash, check_pub_key_encoding_ecdsa, engine_consume_sig_op_cost, upd_meter, lift, sig_hash,
    mbind, script_bind. rewrite Hsrc. unfold calc in Hcalc.
  unfold key_verdict, pair_error. destruct ecdsa; (destruct (consume_sig_op_cost (meter v) 1) as [m'|e|]; [|by right|done]).
  - destruct (Zlength key =? 33); [|by left]. destruct (ecdsa_key_from_slice key) as [pk|]; [|by left].
    destruct (ecdsa_sig_from_compact sig) as [s|]; [|by left]. cbn [ok_or reused_values set_meter]. rewrite Hcalc.
    by destruct (Hcv m' (mk_cache_key (SigEcdsa s) (KeyEcdsa pk) (sig_message true t)) (ecdsa_verify s (sig_message true t) pk) Hcons eq_refl) as (v' & -> & ? & ? & ?).
  - destruct (xonly_from_slice key) as [pk|]; [|by left].
    destruct (schnorr_sig_from_slice sig) as [s|]; [|by left]. cbn [ok_or reused_values set_meter]. rewrite Hcalc.
    by destruct (Hcv m' (mk_cache_key (SigSchnorr s) (KeySchnorr pk) (sig_message false t)) (schnorr_verify s (sig_message false t) pk) Hcons eq_refl) as (v' & -> & ? & ? & ?).
Qed.
(** ** The pass over the keys *)

Abbreviation ok_for ecdsa := (λ s k : bytes, sig_verdict ecdsa s k = Some true).

Lemma same_run_trans v1 v2 v3 : same_run v1 v2 → same_run v2 v3 → same_run v1 v3.
Proof. unfold same_run. intuition congruence. Qed.
Lemma Zlength_rest (k : bytes) keys : Zlength (k :: keys) = Zlength keys + 1.
Proof. unfold Zlength. cbn [length]. lia. Qed.

(** What a meter keeps while [keys] are consumed down to [keys']. *)
Definition spent (m m' : RuntimeResourceMeter) (keys keys' : list bytes) : Prop :=
  meter_typed m' ∧ (∀ e, over_budget m' e → over_budget m e) ∧ (sig_room m (Zlength keys) → sig_room m' (Zlength keys')).
Lemma spent_charge m m' m'' k keys keys' : charged m m' → spent m' m'' keys keys' → spent m m'' (k :: keys) keys'.
Proof. intros (_ & He & Hn) (Ht' & He' & Hn'). split_and!; [done|auto|]. rewrite Zlength_rest. auto. Qed.

Lemma advance_keys_cases ecdsa s typ t sigs keys v :
  last s = Some typ → sighash_from_u8 typ = Some t → shared_ok v → meter_typed (meter v) →
  match advance_keys env ecdsa t (take (length s - 1) s) (S (length sigs)) keys v with
  | (Ok None, v') => same_run v v' ∧ ¬ assigned (ok_for ecdsa) (s :: sigs) keys
  | (Ok (Some keys'), v') => shared_ok v' ∧ same_run v v' ∧ (∃ pre, keys = pre ++ keys') ∧ spent (meter v) (meter v') keys keys' ∧
      (assigned (ok_for ecdsa) (s :: sigs) keys ↔ assigned (ok_for ecdsa) sigs keys')
  | (Err e, _) => (∃ k, k ∈ keys ∧ pair_error ecdsa k (take (length s - 1) s) = Some e) ∨
      (over_budget (meter v) e ∧ ¬ sig_room (meter v) (Zlength keys))
  | (Panic, _) => False
  end.
Proof.
  intros Hs Ht. revert v. induction keys as [|k keys IH]; intros v Hsh Hm.
  - split; [done|]. intros Ha. by apply assigned_length in Ha; cbn in Ha; lia.
  - cbn [advance_keys]. destruct (Nat.ltb_spec (length (k :: keys)) (S (length sigs))) as [Hlt|Hge].
    { split; [done|]. intros Ha. apply assigned_length in Ha. cbn in *. lia. }
    pose proof (check_signature_cases ecdsa t k (take (length s - 1) s) v Hsh Hm) as Hc. unfold mbind, script_bind.
    destruct (check_signature env ecdsa t k (take (length s - 1) s) v) as [[b|e|] v'].
    2:{ destruct Hc as [Hp|[He Hn]]; [left; exists k; split; [left|done]|right; split; [done|]]. rewrite Zlength_rest. apply Hn. unfold Zlength. lia. }
    2:{ done. }
    destruct Hc as (Hb & Hsh' & Hch & Hsame). assert (sig_verdict ecdsa s k = Some b) as Hv by (unfold sig_verdict; rewrite Hs; cbn; by rewrite Ht).
    destruct b.
    + split_and!; [done|done|by exists [k]|apply (spent_charge _ _ _ _ _ _ Hch); split_and!; [apply Hch|auto..]|by apply (assigned_first (ok_for ecdsa))].
    + assert (¬ sig_verdict ecdsa s k = Some true) as Hno by (rewrite Hv; done).
      pose proof (assigned_pass (ok_for ecdsa) s sigs k keys Hno) as Hp. specialize (IH v' Hsh' (proj1 Hch)).
      destruct (advance_keys env ecdsa t (take (length s - 1) s) (S (length sigs)) keys v') as [[[keys'|]|e|] v''].
      * destruct IH as (? & ? & (pre & ->) & ? & ?). split_and!; [done|by eapply same_run_trans|by exists (k :: pre)|by eapply spent_charge|by rewrite Hp].
      * destruct IH as [? ?]. split; [by eapply same_run_trans|by rewrite Hp].
      * destruct Hch as (_ & He & Hn). destruct IH as [(k' & ? & ?)|[? Hr]]; [left; exists k'; split; [by right|done]|right].
        split; [auto|]. rewrite Zlength_rest. auto.
      * done.
Qed.

Lemma stops_rest ecdsa m m' s sigs pre keys e : spent m m' (pre ++ keys) keys → stops ecdsa m' sigs keys e → stops ecdsa m (s :: sigs) (pre ++ keys) e.
Proof.
  intros (_ & He & Hn) [(s' & typ & Hs & H1)|[(s' & k & Hs & Hne & Hk & H1)|[H1 H2]]].
  - left. exists s', typ. split; [by right|done].
  - right; left. exists s', k. split_and!; [by right|done|by apply elem_of_app; right|done].
  - right; right. auto.
Qed.
Lemma unsigned_empty ecdsa sigs keys : ¬ assigned (ok_for ecdsa) ([] :: sigs) keys.
Proof.
  remember ([] :: sigs) as l eqn:E. induction 1 as [|s' sigs' k keys Hok Ha _|s' sigs' k keys Ha IH]; simplify_eq; auto.
Qed.
Lemma check_signatures_cases ecdsa sigs keys v : shared_ok v → meter_typed (meter v) →
  match check_signatures env ecdsa sigs keys v with
  | (Ok b, v') => same_run v v' ∧ (b = true ↔ assigned (ok_for ecdsa) sigs keys)
  | (Err e, _) => stops ecdsa (meter v) sigs keys e
  | (Panic, _) => False
  end.
Proof.
  revert keys v. induction sigs as [|s sigs IH]; intros keys v Hsh Hm.
  - split; [done|]. split; [intros _; apply assigned_nil|done].
  - cbn [check_signatures]. destruct (last s) as [typ|] eqn:Els.
    2:{ apply last_None in Els as ->. split; [done|]. split; [done|]. intros Ha. by destruct (unsigned_empty _ _ _ Ha). }
    unfold lift, mbind, script_bind. destruct (sighash_from_u8 typ) as [t|] eqn:Ht; cbn [ok_or length].
    2:{ left. exists s, typ. split_and!; [left|done..]. }
    pose proof (advance_keys_cases ecdsa s typ t sigs keys v Els Ht Hsh Hm) as Ha.
    destruct (advance_keys env ecdsa t (take (length s - 1) s) (S (length sigs)) keys v) as [[[keys'|]|e|] v'].
    + destruct Ha as (Hsh' & Hsame & (pre & ->) & Hsp & Hiff). specialize (IH keys' v' Hsh' (proj1 Hsp)).
      destruct (check_signatures env ecdsa sigs keys' v') as [[b|e|] v'']; [|by eapply stops_rest|done].
      destruct IH as [? ?]. split; [by eapply same_run_trans|by rewrite Hiff].
    + destruct Ha as [? ?]. split; [done|]. by split.
    + destruct Ha as [(k & Hk & He)|Hb]; [right; left|by right; right]. exists s, k. split_and!; [left|by intros ->|done|done].
    + done.
Qed.

(** ** The opcode *)

Lemma count_ops_ok n v : 0 <= num_ops v → 0 <= n → num_ops v + n <= max_ops_per_script cov →
  count_ops env n v = (Ok (), set_num_ops (num_ops v + n) v).
Proof.
  intros H1 H2 H3. assert (max_ops_per_script cov <= 2 ^ 20) by (unfold max_ops_per_script; destruct cov; vm_compute; discriminate).
  unfold count_ops, gets, lift, modify, ensure, mbind, script_bind.
  replace (checked_i 32 (num_ops v + n)) with (Some (num_ops v + n))
    by (unfold checked_i; rewrite decide_True by (unfold is_int; cbn; lia); done).
  cbn [unwrap]. rewrite (proj2 (Z.leb_le _ _)) by lia. done.
Qed.
(** The operands of multisig on the data stack, over [base]; the counts are the
    numbers the script pushed and are within the limits, and the shared state is accurate. *)
Record multisig_setup (base sigs keys : list bytes) (v : vm) : Prop := {
  setup_stack : ∃ c n nsigs nkeys, dstack v = mk_stack (base ++ sigs ++ [nsigs] ++ keys ++ [nkeys]) c n ∧ 0 <= n < 2 ^ 64 - 1 ∧
    deserialize_as_i32 nsigs (negb c) = Ok (Zlength sigs) ∧ deserialize_as_i32 nkeys (negb c) = Ok (Zlength keys);
  setup_count : Zlength sigs <= Zlength keys <= MAX_PUB_KEYS_PER_MUTLTISIG;
  setup_ops : 0 <= num_ops v ∧ num_ops v + Zlength keys <= max_ops_per_script cov;
  setup_meter : meter_typed (meter v);
  setup_shared : shared_ok v
}.

Lemma multisig_run ecdsa base sigs keys v : multisig_setup base sigs keys v →
  ∃ v1 c n, dstack v1 = mk_stack base c n ∧ 0 <= n < 2 ^ 64 - 1 ∧ meter v1 = meter v ∧ shared_ok v1 ∧
    op_check_multisig_schnorr_or_ecdsa env ecdsa v =
    (ok ← check_signatures env ecdsa sigs keys;
     ensure (ok || forallb (λ sig : bytes, bool_decide (sig = [])) sigs) NullFail ;; push_bool ok) v1.
Proof using Hlen.
  clear Hsrc Hidx. intros [(c & n & ns & nk & Hd & Hn & Hns & Hnk) Hcount [Hops0 Hops] Hm Hsh].
  assert (0 <= Zlength sigs ∧ 0 <= Zlength keys) as [Hs0 Hk0] by (unfold Zlength; lia).
  exists (set_dstack (mk_stack base c n) (set_num_ops (num_ops v + Zlength keys) v)), c, n. split_and!; [done|lia|lia|done|apply Hsh|].
  unfold op_check_multisig_schnorr_or_ecdsa. rewrite !app_assoc in Hd. unfold mbind at 1, script_bind at 1.
  rewrite (pop1_last _ _ _ _ _ _ _ Hd Hnk). unfold ensure, lift, gets, on_dstack.
  unfold mbind, script_bind. rewrite !(proj2 (Z.leb_le _ _)) by lia.
  rewrite count_ops_ok by (cbn [num_ops set_dstack]; lia). cbn [dstack set_num_ops set_dstack num_ops].
  rewrite split_off_block. unfold stack_len at 1. cbn [inner]. rewrite (proj2 (Z.leb_le _ _)) by (unfold Zlength; rewrite length_app; lia).
  erewrite (pop1_last deserialize_as_i32); [|reflexivity|exact Hns]. rewrite !(proj2 (Z.leb_le _ _)) by lia.
  cbn [dstack set_num_ops set_dstack num_ops]. rewrite split_off_block. unfold stack_len at 1. cbn [inner].
  rewrite (proj2 (Z.leb_le _ _)) by (unfold Zlength; rewrite length_app; lia). done.
Qed.
End multisig.


(** Two signatures for three keys: the second key does not sign. *)
Definition example_multisig_keys : list bytes := [replicate 32 7; replicate 32 8; replicate 32 9].
Definition example_multisig_sigs : list bytes := Eval vm_compute in
  [example_sign (replicate 32 7) example_message ++ [SIG_HASH_ALL]; example_sign (replicate 32 9) example_message ++ [SIG_HASH_ALL]].
Definition example_multisig_vm : vm :=
  set_meter (Sigops (mk_counter 3 3))
    (set_dstack (stack_new ([[5]] ++ example_multisig_sigs ++ [[2]] ++ example_multisig_keys ++ [[3]]) false) example_engine.2).

