(* ===== verification/TxValidator.v ===== *)
(** Transaction validation.

    consensus/src/processes/transaction_validator: the rules a transaction must meet
    in isolation, against the block that carries it, and against the entries it
    spends.  The last composes the masses of [Tx], the covenant contexts of
    [Covenants], the script engine and the shielded bundle verification; its two
    caches are state that the checks read and fill.

    Floating-point feerates are compared by a parameter; so is the order in which the
    thread pool takes the inputs of a transaction.  Message texts are dropped from
    the errors. *)
From stdpp Require Import base gmap list.
From S2P Require Import Prelude IndexMap DbCache Turnstile Burn Encoding Bundle Tx TxHash BundleVerify ScriptNum DataStack.
From S2P Require Import ScriptMeter Covenants ScriptParse ScriptBuilder ZkPrecompiles Engine Opcodes ScriptEngine.

(** ** Parameters (consensus/core/src/config/params.rs) and errors *)

(** [ForkActivation], the score it holds. *)
Definition NEVER : Z := u64_max.
Definition ALWAYS : Z := 0.
Definition is_active (activation current_daa_score : Z) : bool := activation <=? current_daa_score.

Record ForkedParam (T : Type) := mk_forked { pre : T; post : T; activation : Z }.
Arguments mk_forked {T}.
Arguments pre {T}.
Arguments post {T}.
Arguments activation {T}.
Definition forked_get {T} (p : ForkedParam T) (daa_score : Z) : T := if is_active (activation p) daa_score then post p else pre p.
Definition upper_bound (p : ForkedParam Z) : Z :=
  if activation p =? NEVER then pre p else if activation p =? ALWAYS then post p else Z.max (pre p) (post p).

Inductive TxRuleError :=
  | NoTxInputs
  | TxDuplicateInputs
  | TxHasGas
  | UnknownTxVersion (v : Z)
  | InvalidShieldedTransaction
  | InvalidShieldedBundle
  | InvalidShieldedProof
  | TooManyInputs (n limit : Z)
  | TooManyOutputs (n limit : Z)
  | TooBigSignatureScript (i limit : Z)
  | TooBigScriptPublicKey (i limit : Z)
  | NotFinalized (i : Z)
  | CoinbaseHasInputs (n : Z)
  | CoinbaseTooManyOutputs (n limit : Z)
  | CoinbaseScriptPublicKeyTooLong (i : Z)
  | CoinbaseNonZeroMassCommitment
  | ImmatureCoinbaseSpend (i : Z) (outpoint : TransactionOutpoint) (entry_daa_score pov_daa_score maturity : Z)
  | InputAmountOverflow
  | InputAmountTooHigh
  | TxOutZero (i : Z)
  | TxOutTooHigh (i : Z)
  | OutputsValueOverflow
  | TotalTxOutTooHigh
  | SpendTooHigh (total_out total_in : Z)
  | SequenceLockConditionsAreNotMet
  | MissingTxOutpoints
  | SignatureInvalid (e : TxScriptError)
  | SignatureEmpty (e : TxScriptError)
  | WrongSigOpCount (i committed calculated : Z)
  | MassIncomputable
  | WrongMass (calculated committed : Z)
  | SubnetworksDisabled (id : bytes)
  | FeerateTooLow
  | CovenantBindingInV0 (i : Z)
  | SigopCountInV1 (i n : Z)
  | ComputeBudgetInV0 (i n : Z)
  | TxCovenantsError (e : CovenantsError).

Definition TX_VERSION : Z := 0.
Definition TX_VERSION_TOCCATA : Z := 1.
Definition MAX_SOMPI : Z := 29000000000 * 100000000.
Definition SUBNETWORK_NAMESPACE_LEN : nat := 4.

Record TransactionValidator := mk_validator {
  max_tx_inputs : Z;
  max_tx_outputs : Z;
  max_signature_script_len : ForkedParam Z;
  max_script_public_key_len : Z;
  coinbase_payload_script_public_key_max_len : Z;
  coinbase_maturity : Z;
  ghostdag_k : Z;
  toccata_activation : Z;
  security_fork_activation : Z;
  mass_per_sig_op : Z;
  shielded_network_domain : bytes;
  mass_calculator : MassCalculator
}.

Inductive TxValidationFlags := Full | SkipScriptChecks | SkipMassCheck.
#[export] Instance TxValidationFlags_eq_dec : EqDecision TxValidationFlags.
Proof. solve_decision. Defined.

Definition reject {A} (b : bool) (e : TxRuleError) (k : res TxRuleError A) : res TxRuleError A := if b then Err e else k.
(** [iter().position(..)] *)
Fixpoint position_from {A} (f : A → bool) (i : Z) (l : list A) : option Z :=
  match l with [] => None | x :: l => if f x then Some i else position_from f (i + 1) l end.
Definition position {A} (f : A → bool) (l : list A) : option Z := position_from f 0 l.
(** A [for] loop with an index over checks. *)
Fixpoint for_each {A} (f : Z → A → res TxRuleError ()) (i : Z) (l : list A) : res TxRuleError () :=
  match l with [] => Ok () | x :: l => f i x ;; for_each f (i + 1) l end.

Section validator.
Context (tv : TransactionValidator).

(** ** In isolation *)

Definition check_transaction_inputs_count (tx : Transaction) : res TxRuleError () :=
  reject (negb (is_coinbase tx) && negb (is_shielded tx) && bool_decide (inputs tx = [])) NoTxInputs $
  reject (max_tx_inputs tv <? Zlength (inputs tx)) (TooManyInputs (Zlength (inputs tx)) (max_tx_inputs tv)) $ Ok ().

Definition check_signature_scripts_within (limit : Z) (tx : Transaction) : res TxRuleError () :=
  match position (λ i, limit <? Zlength (signature_script i)) (inputs tx) with
  | Some i => Err (TooBigSignatureScript i limit)
  | None => Ok ()
  end.
Definition check_transaction_signature_scripts (tx : Transaction) : res TxRuleError () :=
  check_signature_scripts_within (upper_bound (max_signature_script_len tv)) tx.
Definition check_transaction_inputs_in_isolation (tx : Transaction) : res TxRuleError () :=
  check_transaction_inputs_count tx ;; check_transaction_signature_scripts tx.

(** The limit reported is the one of the inputs. *)
Definition check_transaction_outputs_count (tx : Transaction) : res TxRuleError () :=
  if is_coinbase tx then Ok ()
  else reject (max_tx_outputs tv <? Zlength (outputs tx)) (TooManyOutputs (Zlength (outputs tx)) (max_tx_inputs tv)) $ Ok ().
Definition check_transaction_script_public_keys (tx : Transaction) : res TxRuleError () :=
  match position (λ o, max_script_public_key_len tv <? Zlength (spk_script (out_spk o))) (outputs tx) with
  | Some i => Err (TooBigScriptPublicKey i (max_script_public_key_len tv))
  | None => Ok ()
  end.
Definition check_transaction_outputs_in_isolation (tx : Transaction) : res TxRuleError () :=
  check_transaction_outputs_count tx ;; check_transaction_script_public_keys tx.

Definition check_coinbase_in_isolation (tx : Transaction) : res TxRuleError () :=
  if negb (is_coinbase tx) then Ok () else
  reject (negb (bool_decide (inputs tx = []))) (CoinbaseHasInputs (Zlength (inputs tx))) $
  reject (0 <? storage_mass tx) CoinbaseNonZeroMassCommitment $
  outputs_limit ← add_u 64 (ghostdag_k tv) 4;
  reject (outputs_limit <? Zlength (outputs tx)) (CoinbaseTooManyOutputs (Zlength (outputs tx)) outputs_limit) $
  for_each (λ i o, reject (coinbase_payload_script_public_key_max_len tv <? Zlength (spk_script (out_spk o)))
    (CoinbaseScriptPublicKeyTooLong i) $ Ok ()) 0 (outputs tx).

(** The loop over the outputs from index [i], with the total so far. *)
Fixpoint output_value_ranges (i total : Z) (l : list TransactionOutput) : res TxRuleError () :=
  match l with
  | [] => Ok ()
  | output :: l =>
      reject (value output =? 0) (TxOutZero i) $
      reject (MAX_SOMPI <? value output) (TxOutTooHigh i) $
      total ← ok_or (checked_add 64 total (value output)) OutputsValueOverflow;
      reject (MAX_SOMPI <? total) TotalTxOutTooHigh $
      output_value_ranges (i + 1) total l
  end.
Definition check_transaction_output_value_ranges (tx : Transaction) : res TxRuleError () := output_value_ranges 0 0 (outputs tx).

#[export] Instance TransactionOutpoint_eq_dec : EqDecision TransactionOutpoint.
Proof. solve_decision. Defined.
Fixpoint duplicate_inputs (existing : list TransactionOutpoint) (l : list TransactionInput) : res TxRuleError () :=
  match l with
  | [] => Ok ()
  | input :: l =>
      if bool_decide (previous_outpoint input ∈ existing) then Err TxDuplicateInputs
      else duplicate_inputs (previous_outpoint input :: existing) l
  end.
Definition check_duplicate_transaction_inputs (tx : Transaction) : res TxRuleError () := duplicate_inputs [] (inputs tx).

(** [matches!(id, [_x, rest @ ..] if rest == ZEROES_19)] *)
Definition is_system_id (id : bytes) : bool := bool_decide (drop 1 id = zeros 19).

Definition check_gas (tx : Transaction) : res TxRuleError () :=
  if gas tx =? 0 then Ok () else
  reject (version tx <? TX_VERSION_TOCCATA) TxHasGas $
  if negb (is_system_id (subnetwork_id tx)) then Ok () else Err TxHasGas.

Definition check_transaction_subnetwork (tx : Transaction) : res TxRuleError () :=
  let id := subnetwork_id tx in
  if is_system_id id then
    if bool_decide (head id = Some 0) || bool_decide (head id = Some 1) then Ok () else Err (SubnetworksDisabled id)
  else if (TX_VERSION_TOCCATA <=? version tx) && bool_decide (drop SUBNETWORK_NAMESPACE_LEN id = zeros 16) then Ok ()
  else Err (SubnetworksDisabled id).

Definition check_transaction_version (tx : Transaction) : res TxRuleError () :=
  if version tx =? TX_VERSION_SHIELDED then Ok ()
  else reject (TX_VERSION_TOCCATA <? version tx) (UnknownTxVersion (version tx)) $ Ok ().

Definition check_tx_version_specific_fields (tx : Transaction) : res TxRuleError () :=
  if 0 <? version tx then
    for_each (λ i input, match sig_op_count (compute_commit input) with Some n => Err (SigopCountInV1 i n) | None => Ok () end) 0 (inputs tx)
  else
    for_each (λ i input, match compute_budget (compute_commit input) with Some n => Err (ComputeBudgetInV0 i n) | None => Ok () end) 0 (inputs tx) ;;
    for_each (λ i output, if covenant output then Err (CovenantBindingInV0 i) else Ok ()) 0 (outputs tx).

(** [Result::or_else] and [map_err] to the one shielded error. *)
Definition decoded {A} (r : res BundleDecodeError A) : res TxRuleError A := map_err (λ _, InvalidShieldedTransaction) r.

Definition check_shielded_in_isolation (tx : Transaction) : res TxRuleError () :=
  if negb (is_shielded tx) then Ok () else
  reject (negb (bool_decide (inputs tx = []))) InvalidShieldedTransaction $
  reject (negb (bool_decide (outputs tx = []))) InvalidShieldedTransaction $
  bundle ← decoded (match from_bytes_at (payload tx) true with Err _ => from_bytes_at (payload tx) false | r => r end);
  reject (bool_decide (actions bundle = [])) InvalidShieldedTransaction $
  reject (MAX_ACTIONS_PER_BUNDLE <? Zlength (actions bundle)) InvalidShieldedTransaction $
  reject (bool_decide (is_Some (burn bundle)) && negb BRIDGE_ENABLED) InvalidShieldedTransaction $
  match burn bundle with
  | Some (burn_value, _) => reject (value_balance bundle <? burn_value) InvalidShieldedTransaction $ Ok ()
  | None => Ok ()
  end.

Definition validate_tx_in_isolation (tx : Transaction) : res TxRuleError () :=
  check_transaction_inputs_in_isolation tx ;;
  check_transaction_outputs_in_isolation tx ;;
  check_coinbase_in_isolation tx ;;
  check_transaction_output_value_ranges tx ;;
  check_duplicate_transaction_inputs tx ;;
  check_gas tx ;;
  check_transaction_subnetwork tx ;;
  check_transaction_version tx ;;
  check_tx_version_specific_fields tx ;;
  check_shielded_in_isolation tx.

(** ** Against the carrying block *)

Inductive LockTimeType := TypeFinalized | TypeDaaScore | TypeTime.
Inductive LockTimeArg := Finalized | DaaScore (daa_score : Z) | MedianTime (time : Z).

Definition get_lock_time_type (tx : Transaction) : LockTimeType :=
  if lock_time tx =? 0 then TypeFinalized else if lock_time tx <? LOCK_TIME_THRESHOLD then TypeDaaScore else TypeTime.

Definition check_tx_is_finalized (tx : Transaction) (arg : LockTimeArg) : res TxRuleError () :=
  match match arg with Finalized => None | DaaScore d => Some d | MedianTime t => Some t end with
  | None => Ok ()
  | Some block_time_or_daa_score =>
      if lock_time tx <? block_time_or_daa_score then Ok ()
      else for_each (λ i input, reject (negb (sequence input =? u64_max)) (NotFinalized i) $ Ok ()) 0 (inputs tx)
  end.

Definition check_transaction_version_in_header_context (tx : Transaction) (block_daa_score : Z) : res TxRuleError () :=
  if version tx =? TX_VERSION_SHIELDED then Ok ()
  else if is_active (toccata_activation tv) block_daa_score then
    reject (TX_VERSION_TOCCATA <? version tx) (UnknownTxVersion (version tx)) $ Ok ()
  else reject (negb (version tx =? TX_VERSION)) (UnknownTxVersion (version tx)) $ Ok ().

Definition check_shielded_format_in_header_context (tx : Transaction) (block_daa_score : Z) : res TxRuleError () :=
  if negb (is_shielded tx) then Ok ()
  else _ ← decoded (from_bytes_at (payload tx) (is_active (security_fork_activation tv) block_daa_score)); Ok ().

Definition check_transaction_signature_scripts_in_header_context (tx : Transaction) (block_daa_score : Z) : res TxRuleError () :=
  check_signature_scripts_within (forked_get (max_signature_script_len tv) block_daa_score) tx.

Definition validate_tx_in_header_context (tx : Transaction) (arg : LockTimeArg) (block_daa_score : Z) : res TxRuleError () :=
  check_tx_is_finalized tx arg ;;
  check_transaction_version_in_header_context tx block_daa_score ;;
  check_shielded_format_in_header_context tx block_daa_score ;;
  check_transaction_signature_scripts_in_header_context tx block_daa_score.

Definition validate_tx_in_header_context_with_args (tx : Transaction) (ctx_daa_score ctx_block_time : Z) : res TxRuleError () :=
  validate_tx_in_header_context tx
    match get_lock_time_type tx with
    | TypeFinalized => Finalized
    | TypeDaaScore => DaaScore ctx_daa_score
    | TypeTime => MedianTime ctx_block_time
    end ctx_daa_score.

(** ** Against the spent entries *)

Definition no_err {A} (r : exec A) : res TxRuleError A := map_err (λ e : Empty_set, match e with end) r.

(** The first immature coinbase entry; the sum is evaluated only for these. *)
Fixpoint find_immature (pov_daa_score i : Z) (l : list (TransactionInput * UtxoEntry)) : res TxRuleError () :=
  match l with
  | [] => Ok ()
  | (input, entry) :: l =>
      immature ← (if is_coinbase_entry entry then
                    mature_at ← add_u 64 (block_daa_score entry) (coinbase_maturity tv); Ok (pov_daa_score <? mature_at)
                  else Ok false);
      if (immature : bool)
      then Err (ImmatureCoinbaseSpend i (previous_outpoint input) (block_daa_score entry) pov_daa_score (coinbase_maturity tv))
      else find_immature pov_daa_score (i + 1) l
  end.
Definition check_transaction_coinbase_maturity (p : PopulatedTransaction) (pov_daa_score : Z) : res TxRuleError () :=
  ins ← no_err (populated_inputs p); find_immature pov_daa_score 0 ins.

Definition check_transaction_input_amounts (p : PopulatedTransaction) : res TxRuleError Z :=
  ins ← no_err (populated_inputs p);
  res_foldl (λ total '(_, entry),
    total ← ok_or (checked_add 64 total (amount entry)) InputAmountOverflow;
    reject (MAX_SOMPI <? total) InputAmountTooHigh $ Ok total) 0 ins.

Definition check_transaction_output_values (p : PopulatedTransaction) (total_in : Z) : res TxRuleError Z :=
  total_out ← no_err (sum_u64 (value <$> outputs (ptx p)));
  reject (total_in <? total_out) (SpendTooHigh total_out total_in) $ Ok total_out.

Definition check_mass_commitment (p : PopulatedTransaction) : res TxRuleError () :=
  m ← no_err (calc_contextual_masses (mass_calculator tv) p);
  calculated ← ok_or m MassIncomputable;
  reject (negb (storage_mass (ptx p) =? calculated)) (WrongMass calculated (storage_mass (ptx p))) $ Ok ().

(** Whether some input is still locked: the casts to [i64] wrap, the sums panic. *)
Fixpoint any_locked (pov : Z) (l : list (TransactionInput * UtxoEntry)) : res TxRuleError bool :=
  match l with
  | [] => Ok false
  | (input, entry) :: l =>
      if Z.land (sequence input) SEQUENCE_LOCK_TIME_DISABLED =? SEQUENCE_LOCK_TIME_DISABLED then any_locked pov l
      else
        let relative_lock := as_i64 (Z.land (sequence input) SEQUENCE_LOCK_TIME_MASK) in
        x ← i64_add (as_i64 (block_daa_score entry)) relative_lock;
        lock_daa_score ← i64_add x (-1);
        if pov <=? lock_daa_score then Ok true else any_locked pov l
  end.
Definition check_sequence_lock (p : PopulatedTransaction) (pov_daa_score : Z) : res TxRuleError () :=
  ins ← no_err (populated_inputs p);
  locked ← any_locked (as_i64 pov_daa_score) ins;
  reject locked SequenceLockConditionsAreNotMet $ Ok ().

Definition map_script_err (e : TxScriptError) (input : TransactionInput) : TxRuleError :=
  if bool_decide (signature_script input = []) then SignatureEmpty e else SignatureInvalid e.

Section utxo_context.
Context `{Secp, ScriptHashes, ZkBackend, OrchardVerify} (bundle_blake2b : bytes → bytes → bytes).
(** [fee as f64 / mass as f64 <= threshold] *)
Context {F64 : Type} (feerate_le : Z → Z → F64 → bool).

Definition check_feerate_threshold (fee : Z) (t : option (Z * F64)) : res TxRuleError () :=
  match t with
  | None => Ok ()
  | Some (contextual_mass, feerate_threshold) =>
      guard_panic (0 <? contextual_mass) ;;
      reject (feerate_le fee contextual_mass feerate_threshold) FeerateTooLow $ Ok ()
  end.

Definition check_covenant_info (p : PopulatedTransaction) (block_daa_score : Z) : res TxRuleError CovenantsContext :=
  if negb (is_active (toccata_activation tv) block_daa_score) then Ok EMPTY_COV_CONTEXT
  else map_err TxCovenantsError (from_tx domain_hash p).

(** What the engines of a transaction share. *)
Definition shared : Type := Engine.Cache * Reused.

(** One input: its engine, and the shared parts as the engine leaves them. *)
Definition check_input_script (p : PopulatedTransaction) (cov : CovenantsContext) (acc : option SeqCommitAccessor) (f : EngineFlags)
    (idx : Z) (input : TransactionInput) (entry : UtxoEntry) (s : shared) : res TxRuleError () * shared :=
  let ctx := with_seq_commit_accessor_opt (with_covenants_ctx (engine_ctx_new s.1 s.2) cov) acc in
  match limit ← allowed_script_units (compute_commit input);
        from_transaction_input_with_script_units_limit p input idx entry ctx f limit with
  | Ok (env, v) =>
      match execute env v with
      | (Ok _, v) => (Ok (), (sig_cache v, reused_values v))
      | (Err e, v) => (Err (map_script_err e input), (sig_cache v, reused_values v))
      | (Panic, v) => (Panic, (sig_cache v, reused_values v))
      end
  | _ => (Panic, s)
  end.

Fixpoint check_scripts_sequential_from (p : PopulatedTransaction) (cov : CovenantsContext) (acc : option SeqCommitAccessor) (f : EngineFlags)
    (idx : Z) (l : list (TransactionInput * UtxoEntry)) (s : shared) : res TxRuleError () * shared :=
  match l with
  | [] => (Ok (), s)
  | (input, entry) :: l =>
      match check_input_script p cov acc f idx input entry s with
      | (Ok _, s) => check_scripts_sequential_from p cov acc f (idx + 1) l s
      | r => r
      end
  end.
Definition check_scripts_sequential (p : PopulatedTransaction) (cov : CovenantsContext) (acc : option SeqCommitAccessor) (f : EngineFlags)
    (s : shared) : res TxRuleError () * shared :=
  match populated_inputs p with Ok ins => check_scripts_sequential_from p cov acc f 0 ins s | _ => (Panic, s) end.

(** The inputs in the order in which the workers of the pool take them. *)
Fixpoint check_scripts_par_iter (p : PopulatedTransaction) (cov : CovenantsContext) (acc : option SeqCommitAccessor) (f : EngineFlags)
    (schedule : list Z) (s : shared) : res TxRuleError () * shared :=
  match schedule with
  | [] => (Ok (), s)
  | idx :: schedule =>
      match populated_input p idx with
      | Ok (input, entry) =>
          match check_input_script p cov acc f idx input entry s with
          | (Ok _, s) => check_scripts_par_iter p cov acc f schedule s
          | r => r
          end
      | _ => (Panic, s)
      end
  end.

Definition CHECK_SCRIPTS_PARALLELISM_THRESHOLD : Z := 1.
Definition check_scripts_with (p : PopulatedTransaction) (cov : CovenantsContext) (acc : option SeqCommitAccessor) (f : EngineFlags)
    (schedule : list Z) (c : Engine.Cache) : res TxRuleError () * Engine.Cache :=
  let '(r, s) :=
    if CHECK_SCRIPTS_PARALLELISM_THRESHOLD <? Zlength (inputs (ptx p))
    then check_scripts_par_iter p cov acc f schedule (c, reused_new)
    else check_scripts_sequential p cov acc f (c, reused_new) in
  (r, s.1).
Definition check_scripts (p : PopulatedTransaction) (cov : CovenantsContext) (acc : option SeqCommitAccessor) (block_daa_score : Z)
    (schedule : list Z) (c : Engine.Cache) : res TxRuleError () * Engine.Cache :=
  match script_units_of_gram (mass_per_sig_op tv) with
  | Ok units => check_scripts_with p cov acc (mk_flags (is_active (toccata_activation tv) block_daa_score) units) schedule c
  | Err e => match (e : Empty_set) with end
  | Panic => (Panic, c)
  end.

(** ** Shielded bundles *)

Definition map_verify_err (e : BundleVerifyError) : TxRuleError :=
  match e with
  | ProofInvalid | BindingSigInvalid | SpendAuthSigInvalid _ => InvalidShieldedProof
  | _ => InvalidShieldedBundle
  end.

Definition verify_shielded_bundle (tx : Transaction) (security_fork_active : bool) : res TxRuleError () :=
  bundle ← decoded (from_bytes_at (payload tx) security_fork_active);
  let sighash := bundle_sighash bundle_blake2b bundle (shielded_network_domain tv) (shielded_sighash_context tx) in
  map_err map_verify_err (verify_bundle bundle sighash).

(** The cache of verdicts holds the ids of verified transactions. *)
Abbreviation verify_cache := (Db.Cache (K := bytes) (V := Z)).

Definition verify_shielded_bundle_cached (tx : Transaction) (block_daa_score : Z) (c : verify_cache) : res TxRuleError () * verify_cache :=
  let txid := tx_id domain_hash tx in
  if bool_decide (Db.get c txid = Some 1) then (Ok (), c)
  else match verify_shielded_bundle tx (is_active (security_fork_activation tv) block_daa_score) with
       | Ok _ => match Db.insert (λ _, 1) c txid 1 with Ok c => (Ok (), c) | _ => (Panic, c) end
       | r => (r, c)
       end.

(** A transaction offered outside any block. *)
Definition preverify_shielded_bundle (tx : Transaction) (daa_score : Z) (c : verify_cache) : res TxRuleError () * verify_cache :=
  verify_shielded_bundle_cached tx daa_score c.

Definition shielded_fee (p : PopulatedTransaction) (block_daa_score : Z) : res TxRuleError Z :=
  let fork := is_active (security_fork_activation tv) block_daa_score in
  bundle ← decoded (from_bytes_at (payload (ptx p)) fork);
  reject (value_balance bundle <? 0) InvalidShieldedTransaction $
  reject (negb (Bool.eqb fork (bool_decide (is_Some (anchor_block bundle))))) InvalidShieldedTransaction $
  Ok (value_balance bundle).

Record Caches := mk_caches { script_cache : Engine.Cache; shielded_verify_cache : verify_cache }.

(** The checks before the scripts; the result is the fee and the covenant context. *)
Definition validate_amounts (p : PopulatedTransaction) (pov_daa_score block_daa_score : Z) (fl : TxValidationFlags)
    (t : option (Z * F64)) : res TxRuleError (Z * CovenantsContext) :=
  check_transaction_coinbase_maturity p pov_daa_score ;;
  total_in ← check_transaction_input_amounts p;
  total_out ← check_transaction_output_values p total_in;
  fee ← (if is_shielded (ptx p) then shielded_fee p block_daa_score else sub_u total_in total_out);
  (if negb (bool_decide (fl = SkipMassCheck)) then check_mass_commitment p else Ok ()) ;;
  check_sequence_lock p pov_daa_score ;;
  check_feerate_threshold fee t ;;
  covenants_ctx ← check_covenant_info p block_daa_score;
  Ok (fee, covenants_ctx).

Definition validate_populated_transaction_and_get_fee (p : PopulatedTransaction) (pov_daa_score block_daa_score : Z)
    (fl : TxValidationFlags) (t : option (Z * F64)) (acc : option SeqCommitAccessor) (schedule : list Z) (c : Caches)
    : res TxRuleError Z * Caches :=
  match validate_amounts p pov_daa_score block_daa_score fl t with
  | Ok (fee, covenants_ctx) =>
      if bool_decide (fl = SkipScriptChecks) then (Ok fee, c)
      else
        let '(r, sc) := check_scripts p covenants_ctx acc block_daa_score schedule (script_cache c) in
        match r with
        | Ok _ =>
            if is_shielded (ptx p) then
              let '(r, vc) := verify_shielded_bundle_cached (ptx p) block_daa_score (shielded_verify_cache c) in
              (_ ← r; Ok fee, mk_caches sc vc)
            else (Ok fee, mk_caches sc (shielded_verify_cache c))
        | Err e => (Err e, mk_caches sc (shielded_verify_cache c))
        | Panic => (Panic, mk_caches sc (shielded_verify_cache c))
        end
  | Err e => (Err e, c)
  | Panic => (Panic, c)
  end.
End utxo_context.
End validator.
