(* ===== verification/TxIsolation.v ===== *)
(** The rules of a transaction in isolation.

    [isolated_ok] states the context-free rules declaratively; the theorem shows that
    the checks of consensus/src/processes/transaction_validator accept exactly the
    transactions that meet them. *)
From stdpp Require Import base gmap list.
From S2P Require Import Prelude IndexMap DbCache Turnstile Burn Encoding Bundle Tx TxHash BundleVerify ScriptNum DataStack.
From S2P Require Import ScriptMeter Covenants ScriptParse ScriptBuilder ZkPrecompiles Engine Opcodes ScriptEngine ExampleCrypto TxValidator.

(** ** The loops *)

Lemma bind_ok_unit (r r' : res TxRuleError ()) : (r ;; r') = Ok () ↔ r = Ok () ∧ r' = Ok ().
Proof. destruct r as [[]| |]; cbn; naive_solver. Qed.
Lemma bind_total {A B} (r : res TxRuleError A) (k : A → res TxRuleError B) : r ≠ Panic → (∀ a, r = Ok a → k a ≠ Panic) → (r ≫= k) ≠ Panic.
Proof. destruct r; cbn; naive_solver. Qed.
Lemma reject_ok {A} b e (k : res TxRuleError A) a : reject b e k = Ok a ↔ b = false ∧ k = Ok a.
Proof. destruct b; cbn; naive_solver. Qed.
Lemma reject_total {A} b e (k : res TxRuleError A) : k ≠ Panic → reject b e k ≠ Panic.
Proof. by destruct b. Qed.

Lemma position_None {A} (f : A → bool) l i : position_from f i l = None ↔ Forall (λ x, f x = false) l.
Proof.
  revert i. induction l as [|x l IH]; intros i; cbn; [split; [constructor|done]|]. rewrite Forall_cons.
  destruct (f x); [naive_solver|]. rewrite IH. naive_solver.
Qed.
Lemma position_check {A} (f : A → bool) l e :
  match position f l with Some i => Err (e i) | None => Ok (E := TxRuleError) () end = Ok () ↔ Forall (λ x, f x = false) l.
Proof. unfold position. rewrite <- (position_None f l 0). destruct (position_from f 0 l); naive_solver. Qed.

Lemma for_each_ok {A} (f : Z → A → res TxRuleError ()) (P : A → Prop) l i :
  (∀ i x, f i x = Ok () ↔ P x) → for_each f i l = Ok () ↔ Forall P l.
Proof.
  intros Hf. revert i. induction l as [|x l IH]; intros i; cbn [for_each]; [split; [constructor|done]|].
  by rewrite bind_ok_unit, Forall_cons, Hf, IH.
Qed.
Lemma for_each_total {A} (f : Z → A → res TxRuleError ()) l i : (∀ i x, f i x ≠ Panic) → for_each f i l ≠ Panic.
Proof. intros Hf. revert i. induction l as [|x l IH]; intros i; cbn [for_each]; [done|]. by apply bind_total. Qed.

Lemma output_value_ranges_ok l i total : 0 <= total <= MAX_SOMPI → Forall (λ o, 0 <= value o) l →
  output_value_ranges i total l ≠ Panic ∧
  (output_value_ranges i total l = Ok () ↔ Forall (λ o, 1 <= value o) l ∧ total + sum_list_Z (value <$> l) <= MAX_SOMPI).
Proof.
  intros Ht Hl. revert i total Ht. induction Hl as [|o l Ho Hl IH]; intros i total Ht; cbn [output_value_ranges].
  { split; [done|]. cbn. split; [intros _; split; [constructor|lia]|done]. }
  assert (0 <= sum_list_Z (value <$> l)) by (by apply sum_list_Z_nonneg, Forall_fmap).
  rewrite fmap_cons, Forall_cons. cbn [sum_list_Z]. unfold reject.
  destruct (Z.eqb_spec (value o) 0); [split; [done|]; split; [done|lia]|].
  destruct (Z.ltb_spec MAX_SOMPI (value o)); [split; [done|]; split; [done|lia]|].
  unfold checked_add. rewrite (proj2 (Z.ltb_lt _ _)) by (unfold MAX_SOMPI in *; lia). cbn [ok_or mbind res_bind].
  destruct (Z.ltb_spec MAX_SOMPI (total + value o)); [split; [done|]; split; [done|lia]|].
  destruct (IH (i + 1) (total + value o)) as [IH1 IH2]; [lia|]. split; [done|]. rewrite IH2. split; intros [? ?]; (split; [|lia]).
  - split; [lia|done].
  - tauto.
Qed.

Lemma duplicate_inputs_ok l seen :
  duplicate_inputs seen l ≠ Panic ∧
  (duplicate_inputs seen l = Ok () ↔ NoDup (previous_outpoint <$> l) ∧ Forall (λ i, previous_outpoint i ∉ seen) l).
Proof.
  revert seen. induction l as [|i l IH]; intros seen; cbn [duplicate_inputs].
  { split; [done|]. split; [intros _; split; constructor|done]. }
  rewrite fmap_cons, NoDup_cons, Forall_cons. case_bool_decide as Hi.
  { split; [done|]. split; [done|]. by intros (_ & ? & _). }
  destruct (IH (previous_outpoint i :: seen)) as [IH1 IH2]. split; [done|]. rewrite IH2.
  assert (Forall (λ j, previous_outpoint j ∉ previous_outpoint i :: seen) l ↔
    previous_outpoint i ∉ previous_outpoint <$> l ∧ Forall (λ j, previous_outpoint j ∉ seen) l) as Hiff; [|rewrite Hiff; tauto].
  rewrite !Forall_forall, list_elem_of_fmap. split.
  - intros Hf. split; [|intros j Hj; specialize (Hf j Hj); set_solver]. intros (j & Hj & Hin). specialize (Hf j Hin). set_solver.
  - intros [Hn Hf] j Hj. apply not_elem_of_cons. split; [|by apply Hf]. intros E. apply Hn. by exists j.
Qed.

(** ** The rules *)

Definition reserved_id (id : bytes) : Prop := drop 1 id = zeros 19.
Definition shielded_rules (tx : Transaction) : Prop :=
  inputs tx = [] ∧ outputs tx = [] ∧
  ∃ b, (from_bytes_at (payload tx) true = Ok b ∨ from_bytes_at (payload tx) false = Ok b) ∧ actions b ≠ [] ∧ burn b = None.
Definition coinbase_rules (tv : TransactionValidator) (tx : Transaction) : Prop :=
  inputs tx = [] ∧ storage_mass tx <= 0 ∧ Zlength (outputs tx) <= ghostdag_k tv + 4 ∧
  Forall (λ o, Zlength (spk_script (out_spk o)) <= coinbase_payload_script_public_key_max_len tv) (outputs tx).
Definition version_rules (tx : Transaction) : Prop :=
  if 0 <? version tx then Forall (λ i, sig_op_count (compute_commit i) = None) (inputs tx)
  else Forall (λ i, compute_budget (compute_commit i) = None) (inputs tx) ∧ Forall (λ o, covenant o = None) (outputs tx).
Definition subnetwork_rules (tx : Transaction) : Prop :=
  (reserved_id (subnetwork_id tx) ∧ (head (subnetwork_id tx) = Some 0 ∨ head (subnetwork_id tx) = Some 1)) ∨
  (¬ reserved_id (subnetwork_id tx) ∧ 1 <= version tx ∧ drop 4 (subnetwork_id tx) = zeros 16).

Definition isolated_ok (tv : TransactionValidator) (tx : Transaction) : Prop :=
  (is_coinbase tx = false → is_shielded tx = false → inputs tx ≠ []) ∧
  Zlength (inputs tx) <= max_tx_inputs tv ∧
  Forall (λ i, Zlength (signature_script i) <= upper_bound (max_signature_script_len tv)) (inputs tx) ∧
  (is_coinbase tx = false → Zlength (outputs tx) <= max_tx_outputs tv) ∧
  Forall (λ o, Zlength (spk_script (out_spk o)) <= max_script_public_key_len tv) (outputs tx) ∧
  (is_coinbase tx = true → coinbase_rules tv tx) ∧
  Forall (λ o, 1 <= value o) (outputs tx) ∧ sum_list_Z (value <$> outputs tx) <= MAX_SOMPI ∧
  NoDup (previous_outpoint <$> inputs tx) ∧
  (gas tx ≠ 0 → 1 <= version tx ∧ ¬ reserved_id (subnetwork_id tx)) ∧
  subnetwork_rules tx ∧
  (version tx = TX_VERSION_SHIELDED ∨ version tx <= TX_VERSION_TOCCATA) ∧
  version_rules tx ∧
  (is_shielded tx = true → shielded_rules tx).

Section checks.
Context (tv : TransactionValidator) (tx : Transaction).
Context (Hk : 0 <= ghostdag_k tv < 2 ^ 63) (Hval : Forall (λ o, 0 <= value o) (outputs tx))
  (Hpay : wf_bytes (payload tx)) (Hlen : Zlength (payload tx) < 2 ^ 63).

Lemma Forall_le {A} (f : A → Z) n l : Forall (λ x, (n <? f x) = false) l ↔ Forall (λ x, f x <= n) l.
Proof. rewrite !Forall_forall. by setoid_rewrite Z.ltb_ge. Qed.

Lemma inputs_in_isolation_ok : check_transaction_inputs_in_isolation tv tx = Ok () ↔
  (is_coinbase tx = false → is_shielded tx = false → inputs tx ≠ []) ∧ Zlength (inputs tx) <= max_tx_inputs tv ∧
  Forall (λ i, Zlength (signature_script i) <= upper_bound (max_signature_script_len tv)) (inputs tx).
Proof.
  unfold check_transaction_inputs_in_isolation, check_transaction_inputs_count, check_transaction_signature_scripts,
    check_signature_scripts_within. rewrite bind_ok_unit, position_check, !reject_ok, Z.ltb_ge, (Forall_le (λ i, Zlength (signature_script i))).
  rewrite !andb_false_iff, !negb_false_iff, bool_decide_eq_false. destruct (is_coinbase tx), (is_shielded tx); naive_solver.
Qed.
Lemma outputs_in_isolation_ok : check_transaction_outputs_in_isolation tv tx = Ok () ↔
  (is_coinbase tx = false → Zlength (outputs tx) <= max_tx_outputs tv) ∧
  Forall (λ o, Zlength (spk_script (out_spk o)) <= max_script_public_key_len tv) (outputs tx).
Proof.
  unfold check_transaction_outputs_in_isolation, check_transaction_outputs_count, check_transaction_script_public_keys.
  rewrite bind_ok_unit, position_check, (Forall_le (λ o, Zlength (spk_script (out_spk o)))).
  destruct (is_coinbase tx); [naive_solver|]. rewrite reject_ok, Z.ltb_ge. naive_solver.
Qed.
Lemma coinbase_in_isolation_ok :
  check_coinbase_in_isolation tv tx ≠ Panic ∧
  (check_coinbase_in_isolation tv tx = Ok () ↔ (is_coinbase tx = true → coinbase_rules tv tx)).
Proof.
  unfold check_coinbase_in_isolation, coinbase_rules. destruct (is_coinbase tx); cbn [negb]; [|naive_solver].
  replace (add_u 64 (ghostdag_k tv) 4) with (Ok (E := TxRuleError) (ghostdag_k tv + 4)) by (symmetry; apply add_u_ok; lia).
  cbn [mbind res_bind]. split.
  - repeat apply reject_total. apply for_each_total. intros. by apply reject_total.
  - rewrite !reject_ok, negb_false_iff, bool_decide_eq_true, !Z.ltb_ge.
    rewrite (for_each_ok _ (λ o, Zlength (spk_script (out_spk o)) <= coinbase_payload_script_public_key_max_len tv)); [naive_solver|].
    intros i o. rewrite reject_ok, Z.ltb_ge. naive_solver.
Qed.
Lemma gas_ok : check_gas tx = Ok () ↔ (gas tx ≠ 0 → 1 <= version tx ∧ ¬ reserved_id (subnetwork_id tx)).
Proof.
  unfold check_gas, is_system_id, reserved_id, TX_VERSION_TOCCATA. destruct (Z.eqb_spec (gas tx) 0); [naive_solver|].
  rewrite reject_ok, Z.ltb_ge. case_bool_decide; cbn [negb]; naive_solver.
Qed.
Lemma subnetwork_ok : check_transaction_subnetwork tx = Ok () ↔ subnetwork_rules tx.
Proof.
  unfold check_transaction_subnetwork, subnetwork_rules, is_system_id, reserved_id, SUBNETWORK_NAMESPACE_LEN, TX_VERSION_TOCCATA.
  case_bool_decide as Hr.
  - destruct (bool_decide_reflect (head (subnetwork_id tx) = Some 0)), (bool_decide_reflect (head (subnetwork_id tx) = Some 1)); naive_solver.
  - destruct (Z.leb_spec 1 (version tx)); cbn [andb]; [|naive_solver lia]. case_bool_decide; naive_solver.
Qed.
Lemma version_ok : check_transaction_version tx = Ok () ↔ version tx = TX_VERSION_SHIELDED ∨ version tx <= TX_VERSION_TOCCATA.
Proof.
  unfold check_transaction_version. destruct (Z.eqb_spec (version tx) TX_VERSION_SHIELDED); [naive_solver|].
  rewrite reject_ok, Z.ltb_ge. naive_solver.
Qed.
Lemma version_fields_ok :
  check_tx_version_specific_fields tx ≠ Panic ∧ (check_tx_version_specific_fields tx = Ok () ↔ version_rules tx).
Proof.
  unfold check_tx_version_specific_fields, version_rules. destruct (0 <? version tx).
  - split; [apply for_each_total; intros i x; by destruct (sig_op_count _)|].
    apply for_each_ok. intros i x. destruct (sig_op_count _); naive_solver.
  - split.
    + apply bind_total; [apply for_each_total; intros i x; by destruct (compute_budget _)|]. intros _ _.
      apply for_each_total. intros i x. by destruct (covenant x).
    + rewrite bind_ok_unit. rewrite (for_each_ok _ (λ i, compute_budget (compute_commit i) = None)), (for_each_ok _ (λ o, covenant o = None)); [done|..].
      * intros i x. destruct (covenant x); naive_solver.
      * intros i x. destruct (compute_budget _); naive_solver.
Qed.
Lemma shielded_in_isolation_ok :
  check_shielded_in_isolation tx ≠ Panic ∧ (check_shielded_in_isolation tx = Ok () ↔ (is_shielded tx = true → shielded_rules tx)).
Proof.
  unfold check_shielded_in_isolation, shielded_rules. destruct (is_shielded tx); cbn [negb]; [|naive_solver].
  set (r := match from_bytes_at (payload tx) true with Err _ => _ | r => r end).
  assert (r ≠ Panic) as Hr by (unfold r; pose proof (decode_no_panic true (payload tx) Hpay Hlen);
    pose proof (decode_no_panic false (payload tx) Hpay Hlen); unfold from_bytes_at in *; by destruct (decode (payload tx) true)).
  assert (∀ b, r = Ok b → Zlength (actions b) <= MAX_ACTIONS_PER_BUNDLE ∧ (from_bytes_at (payload tx) true = Ok b ∨ from_bytes_at (payload tx) false = Ok b)) as Hb.
  { intros b Hb. assert (from_bytes_at (payload tx) true = Ok b ∨ from_bytes_at (payload tx) false = Ok b) as Hor.
    { unfold r in Hb. destruct (from_bytes_at (payload tx) true) eqn:E; naive_solver. }
    split; [|done]. destruct Hor as [E|E]; apply decode_ok_iff in E as [(_ & _ & _ & _ & ? & _) _]; done. }
  assert (∀ b, from_bytes_at (payload tx) true = Ok b ∨ from_bytes_at (payload tx) false = Ok b → r = Ok b) as Hb'.
  { intros b Hor. unfold r. destruct (from_bytes_at (payload tx) true) as [b'| |] eqn:E; [|by destruct Hor|by destruct (decode_no_panic true (payload tx) Hpay Hlen)].
    destruct Hor as [Hor|Hor]; [done|]. by destruct (formats_agree (payload tx) b b' Hpay Hlen Hor E) as [-> _]. }
  destruct r as [b| |]; [|..|done]; cbn [decoded map_err mbind res_bind].
  - destruct (Hb b eq_refl) as [Hn Hor]. split.
    + do 5 apply reject_total. destruct (burn b) as [[]|]; [|done]. by apply reject_total.
    + rewrite !reject_ok, !negb_false_iff, !bool_decide_eq_true, bool_decide_eq_false, Z.ltb_ge. cbn [negb BRIDGE_ENABLED].
      rewrite andb_true_r, bool_decide_eq_false. split.
      * intros (? & ? & ? & _ & Hnb & _) _. split; [done|]. split; [done|]. exists b. split_and!; [done|done|by apply eq_None_not_Some].
      * intros Hx. destruct (Hx eq_refl) as (? & ? & b' & Hor' & ? & Hb0). apply Hb' in Hor'. injection Hor' as ->. rewrite Hb0.
        split_and!; try done.
  - split; [by do 2 apply reject_total|]. rewrite !reject_ok. split; [naive_solver|]. intros Hx.
    destruct (Hx eq_refl) as (_ & _ & b & Hor & _). by apply Hb' in Hor.
Qed.

Lemma inputs_in_isolation_total : check_transaction_inputs_in_isolation tv tx ≠ Panic.
Proof.
  apply bind_total; [by do 2 apply reject_total|]. intros _ _. unfold check_transaction_signature_scripts, check_signature_scripts_within.
  by destruct (position _ _).
Qed.
Lemma outputs_in_isolation_total : check_transaction_outputs_in_isolation tv tx ≠ Panic.
Proof.
  apply bind_total.
  - unfold check_transaction_outputs_count. destruct (is_coinbase tx); [done|]. by apply reject_total.
  - intros _ _. unfold check_transaction_script_public_keys. by destruct (position _ _).
Qed.
Lemma gas_total : check_gas tx ≠ Panic.
Proof. unfold check_gas. destruct (gas tx =? 0); [done|]. apply reject_total. by destruct (negb _). Qed.
Lemma subnetwork_total : check_transaction_subnetwork tx ≠ Panic.
Proof. unfold check_transaction_subnetwork. by repeat case_match. Qed.
Lemma version_total : check_transaction_version tx ≠ Panic.
Proof. unfold check_transaction_version. destruct (_ =? _); [done|]. by apply reject_total. Qed.

Lemma isolation_spec : validate_tx_in_isolation tv tx ≠ Panic ∧ (validate_tx_in_isolation tv tx = Ok () ↔ isolated_ok tv tx).
Proof.
  destruct coinbase_in_isolation_ok as [Hc1 Hc2], version_fields_ok as [Hv1 Hv2], shielded_in_isolation_ok as [Hs1 Hs2].
  destruct (duplicate_inputs_ok (inputs tx) []) as [Hd1 Hd2].
  destruct (output_value_ranges_ok (outputs tx) 0 0 ltac:(done) Hval) as [Ho1 Ho2]. split.
  - unfold validate_tx_in_isolation. apply bind_total; [apply inputs_in_isolation_total|intros _ _].
    apply bind_total; [apply outputs_in_isolation_total|intros _ _]. apply bind_total; [exact Hc1|intros _ _].
    apply bind_total; [exact Ho1|intros _ _]. apply bind_total; [exact Hd1|intros _ _]. apply bind_total; [apply gas_total|intros _ _].
    apply bind_total; [apply subnetwork_total|intros _ _]. apply bind_total; [apply version_total|intros _ _].
    apply bind_total; [exact Hv1|intros _ _]. exact Hs1.
  - unfold validate_tx_in_isolation, isolated_ok, check_transaction_output_value_ranges, check_duplicate_transaction_inputs.
    rewrite !bind_ok_unit, inputs_in_isolation_ok, outputs_in_isolation_ok, Hc2, Ho2, Hd2, gas_ok, subnetwork_ok, version_ok, Hv2, Hs2.
    rewrite Z.add_0_l. assert (Forall (λ i, previous_outpoint i ∉ []) (inputs tx)) as Hnil
      by (apply Forall_true; intros; apply not_elem_of_nil). tauto.
Qed.
End checks.

(** C7. A transaction passes the context-free checks exactly when it meets the rules, and
    the checks never panic: counts, script and coinbase limits, positive outputs
    worth at most the maximal supply, no input twice, gas and subnetworks only where
    they are allowed, the fields of its version, and for a shielded transaction no
    transparent side and a payload that decodes to actions without a burn. *)
Theorem isolation_exact (tv : TransactionValidator) (tx : Transaction) :
  0 <= ghostdag_k tv < 2 ^ 63 → Forall (λ o, 0 <= value o) (outputs tx) → wf_bytes (payload tx) → Zlength (payload tx) < 2 ^ 63 →
  validate_tx_in_isolation tv tx ≠ Panic ∧ (validate_tx_in_isolation tv tx = Ok () ↔ isolated_ok tv tx).
Proof. apply isolation_spec. Qed.

(** A validator with forks at scores 1000 and 2000. *)
Definition example_validator : TransactionValidator :=
  mk_validator 10 15 (mk_forked 10000 250000 1000) 10000 150 100 18 1000 2000 1000 (zeros 32) (mk_mass_calculator 1 10 (10 ^ 12)).
(** A shielded transaction that carries the signed example bundle. *)
Definition example_shielded_tx : Transaction :=
  mk_tx 2 [] [] 0 SUBNETWORK_ID_NATIVE 0 (to_bytes example_signed_bundle) 0.

Lemma isolation_exact_witness :
  isolated_ok example_validator (example_p2pk_tx []) ∧ isolated_ok example_validator example_shielded_tx ∧
  ¬ isolated_ok example_validator (mk_tx 0 [] [] 0 SUBNETWORK_ID_NATIVE 0 [] 0).
Proof.
  split_and!.
  - apply (isolation_exact example_validator (example_p2pk_tx [])); [cbn; lia|by apply Forall_singleton|constructor|done|vm_compute; reflexivity].
  - apply (isolation_exact example_validator example_shielded_tx); [cbn; lia|constructor|decide_by_eval|vm_compute; reflexivity|vm_compute; reflexivity].
  - destruct (isolation_exact example_validator (mk_tx 0 [] [] 0 SUBNETWORK_ID_NATIVE 0 [] 0)) as [_ H]; [cbn; lia|constructor|constructor|done|].
    intros Hx. apply H in Hx. vm_compute in Hx. discriminate Hx.
Defined.
