(* ===== verification/TxScripts.v ===== *)
(** Checking the scripts of a transaction in any order.

    The inputs of a transaction are checked one after the other or by the workers of
    a pool, which share the signature cache and the reused hash values.
    [input_verdict] is the verdict on one input by itself, with a disabled cache and
    nothing reused.

    The theorem shows that whatever the order in which the workers take the inputs
    and whatever sound cache they share, the outcome is the one of these verdicts. *)
From stdpp Require Import base gmap list.
From S2P Require Import Prelude IndexMap DbCache Turnstile Burn Encoding Bundle Tx TxHash BundleVerify ScriptNum DataStack.
From S2P Require Import ScriptMeter Covenants ScriptParse ScriptBuilder ZkPrecompiles Engine Opcodes ScriptEngine ExampleCrypto EngineSafe EngineCache TxValidator.

Section scripts.
Context `{Secp, HS : ScriptHashes, ZB : ZkBackend} (p : PopulatedTransaction) (cov : CovenantsContext) (acc : option SeqCommitAccessor)
  (f : EngineFlags).

Definition shared_sound_for (s : shared) : Prop := cache_sound s.1 ∧ reused_for domain_hash (ptx p) s.2.
Definition input_verdict (idx : Z) : res TxRuleError () :=
  match populated_input p idx with
  | Ok (input, entry) => fst (check_input_script p cov acc f idx input entry (cache_new 0 [], reused_new))
  | _ => Panic
  end.

(** The first outcome that is not a success. *)
Fixpoint first_failure (l : list (res TxRuleError ())) : res TxRuleError () :=
  match l with [] => Ok () | Ok _ :: l => first_failure l | r :: _ => r end.

Lemma fresh_shared fl m c r : fresh_vm fl m c r = set_shared c r (fresh_vm fl m (cache_new 0 []) reused_new).
Proof. done. Qed.
Lemma no_cache_sound : cache_sound (cache_new 0 []).
Proof. split; [apply Forall_nil_2|done]. Qed.

(** The verdict on an input does not depend on what is shared. *)
Lemma check_input_same idx input entry s :
  shared_sound_for s →
  fst (check_input_script p cov acc f idx input entry s) =
    fst (check_input_script p cov acc f idx input entry (cache_new 0 [], reused_new)) ∧
  shared_sound_for (snd (check_input_script p cov acc f idx input entry s)).
Proof.
  intros [Hc Hr]. unfold check_input_script. destruct (allowed_script_units (compute_commit input)) as [limit| |]; [|done|done].
  cbn [mbind res_bind]. unfold from_transaction_input_with_script_units_limit. destruct (guard_panic _) as [[]|[]|]; [|done].
  cbn [mbind res_bind fst snd]. unfold new_env. cbn [with_seq_commit_accessor_opt with_covenants_ctx engine_ctx_new
    ctx_covenants_ctx ctx_seq_commit_accessor ctx_sig_cache ctx_reused_values].
  set (env := mk_env _ _ _ _). set (m := if covenants_enabled f then _ else _). rewrite (fresh_shared _ _ s.1 s.2).
  assert (same_but_shared env (fresh_vm f m (cache_new 0 []) reused_new) (set_shared s.1 s.2 (fresh_vm f m (cache_new 0 []) reused_new))) as Hs.
  { split; [done|]. split; (split; [|]); [apply no_cache_sound|apply reused_new_for|done|done]. }
  destruct (cf_execute env _ _ Hs) as [Hf (_ & _ & [Hc' Hr'])].
  destruct (execute env (fresh_vm _ _ _ _)) as [r1 v1], (execute env (set_shared _ _ _)) as [r2 v2]. cbn in Hf, Hc', Hr'. subst r2.
  by destruct r1.
Qed.

Lemma input_verdict_ok idx input entry :
  populated_input p idx = Ok (input, entry) →
  input_verdict idx = fst (check_input_script p cov acc f idx input entry (cache_new 0 [], reused_new)).
Proof. unfold input_verdict. by intros ->. Qed.
Lemma input_verdict_panic idx : populated_input p idx = Panic → input_verdict idx = Panic.
Proof. unfold input_verdict. by intros ->. Qed.

Lemma par_iter_first schedule s :
  shared_sound_for s →
  fst (check_scripts_par_iter p cov acc f schedule s) = first_failure (input_verdict <$> schedule) ∧
  shared_sound_for (snd (check_scripts_par_iter p cov acc f schedule s)).
Proof.
  revert s. induction schedule as [|idx l IH]; intros s Hs; cbn [check_scripts_par_iter fmap list_fmap first_failure]; [done|].
  destruct (populated_input p idx) as [[input entry]|[]|] eqn:Ep; [|by rewrite (input_verdict_panic _ Ep)].
  destruct (check_input_same idx input entry s Hs) as [Hf Hs']. rewrite (input_verdict_ok _ _ _ Ep), <- Hf.
  destruct (check_input_script p cov acc f idx input entry s) as [[[]| |] s']; cbn [fst snd] in *; [by apply IH|done|done].
Qed.

Lemma sequential_first l idx s :
  shared_sound_for s →
  (∀ i x, l !! i = Some x → populated_input p (idx + Z.of_nat i) = Ok x) →
  fst (check_scripts_sequential_from p cov acc f idx l s) = first_failure (input_verdict <$> seqZ idx (Zlength l)) ∧
  shared_sound_for (snd (check_scripts_sequential_from p cov acc f idx l s)).
Proof.
  revert idx s. induction l as [|[input entry] l IH]; intros idx s Hs Hl; cbn [check_scripts_sequential_from]; [done|].
  assert (Zlength ((input, entry) :: l) = Z.succ (Zlength l)) as -> by (unfold Zlength; cbn [length]; lia).
  rewrite seqZ_cons by (unfold Zlength; lia). rewrite Z.pred_succ. cbn [fmap list_fmap first_failure].
  pose proof (Hl O (input, entry) eq_refl) as H0. rewrite Z.add_0_r in H0.
  destruct (check_input_same idx input entry s Hs) as [Hf Hs']. rewrite (input_verdict_ok _ _ _ H0), <- Hf.
  destruct (check_input_script p cov acc f idx input entry s) as [[[]| |] s']; cbn [fst snd] in *; [|done|done].
  rewrite <- Z.add_1_r. apply IH; [done|]. intros i x Hi. replace (idx + 1 + Z.of_nat i) with (idx + Z.of_nat (S i)) by lia. by apply Hl.
Qed.

Lemma sequential_all s :
  length (entries p) = length (inputs (ptx p)) → shared_sound_for s →
  fst (check_scripts_sequential p cov acc f s) = first_failure (input_verdict <$> seqZ 0 (Zlength (inputs (ptx p)))) ∧
  shared_sound_for (snd (check_scripts_sequential p cov acc f s)).
Proof.
  intros Hl Hs. unfold check_scripts_sequential. rewrite populated_inputs_zip by done.
  replace (Zlength (inputs (ptx p))) with (Zlength (zip (inputs (ptx p)) (entries p))) by (unfold Zlength; rewrite length_zip; lia).
  apply sequential_first; [done|]. intros i [input entry] Hi. apply populated_input_ok. rewrite Z.add_0_l, Nat2Z.id.
  apply lookup_zip_with_Some in Hi as (a & b & [= <- <-] & ? & ?). done.
Qed.

Lemma first_failure_ok l : first_failure l = Ok () ↔ Forall (λ r, r = Ok ()) l.
Proof.
  induction l as [|r l IH]; cbn; [split; [constructor|done]|]. rewrite Forall_cons. destruct r as [[]| |]; [|naive_solver..].
  rewrite IH. naive_solver.
Qed.
Lemma first_failure_in l r : first_failure l = r → r ≠ Ok () → r ∈ l.
Proof.
  induction l as [|r' l IH]; cbn; [naive_solver|]. destruct r' as [[]| |]; intros E Hr; [apply list_elem_of_further; by apply IH|..];
    rewrite <- E; apply list_elem_of_here.
Qed.
End scripts.

(** C20. Parallel script checking is sequential script checking.  For any order in which
    the workers take the inputs, and any sound caches and right reused values, the
    parallel check accepts exactly when the sequential one does, which is exactly
    when every input is accepted by itself with no cache; when it rejects, it
    reports the verdict on one of the inputs; and what is shared stays sound. *)
Theorem check_scripts_order_free `{Secp, ScriptHashes, ZkBackend} (p : PopulatedTransaction) (cov : CovenantsContext)
    (acc : option SeqCommitAccessor) (f : EngineFlags) (schedule : list Z) (s s' : shared) :
  length (entries p) = length (inputs (ptx p)) → schedule ≡ₚ seqZ 0 (Zlength (inputs (ptx p))) →
  shared_sound_for p s → shared_sound_for p s' →
  let '(r, sp) := check_scripts_par_iter p cov acc f schedule s in
  let '(r', ss) := check_scripts_sequential p cov acc f s' in
  (r = Ok () ↔ r' = Ok ()) ∧
  (r = Ok () ↔ Forall (λ i, input_verdict p cov acc f i = Ok ()) (seqZ 0 (Zlength (inputs (ptx p))))) ∧
  (r ≠ Ok () → ∃ i, i ∈ schedule ∧ r = input_verdict p cov acc f i) ∧
  shared_sound_for p sp ∧ shared_sound_for p ss.
Proof.
  intros Hl Hperm Hs Hs'. destruct (par_iter_first p cov acc f schedule s Hs) as [Hr Hsp].
  destruct (sequential_all p cov acc f s' Hl Hs') as [Hr' Hss].
  destruct (check_scripts_par_iter p cov acc f schedule s) as [r sp], (check_scripts_sequential p cov acc f s') as [r' ss]. cbn in *. subst r r'.
  assert (first_failure (input_verdict p cov acc f <$> schedule) ≠ Ok () →
    ∃ i, i ∈ schedule ∧ first_failure (input_verdict p cov acc f <$> schedule) = input_verdict p cov acc f i) as Hbad.
  { intros Hne. apply (first_failure_in _ _ eq_refl) in Hne. apply list_elem_of_fmap in Hne as (i & Hi & Hin). by exists i. }
  split_and!; try done; rewrite !first_failure_ok, !Forall_fmap; unfold compose; by rewrite Hperm.
Qed.

(** Two inputs, the first of which spends an output with a false script. *)
Definition example_two_spend : PopulatedTransaction :=
  mk_populated
    (mk_tx 0 [mk_input (mk_outpoint (zeros 32) 0) [] 7 (SigopCount 0); mk_input (mk_outpoint (zeros 32) 1) [] 7 (SigopCount 0)]
      [mk_output 5000 (mk_spk 0 [81]) None] 0 SUBNETWORK_ID_NATIVE 0 [] 0)
    [mk_entry 3000 (mk_spk 0 [0]) 12 false None; mk_entry 3000 (mk_spk 0 [81]) 12 false None].

Lemma check_scripts_order_free_witness :
  fst (check_scripts_par_iter example_two_spend EMPTY_COV_CONTEXT None default_flags [1; 0] (example_cached, reused_new)) =
    Err (SignatureEmpty EvalFalse) ∧
  fst (check_scripts_sequential example_two_spend EMPTY_COV_CONTEXT None default_flags (cache_new 0 [], reused_new)) ≠ Ok ().
Proof.
  assert (shared_sound_for example_two_spend (example_cached, reused_new)) as H1.
  { split; [|apply reused_new_for]. split; [apply Forall_singleton; vm_compute; reflexivity|]. split; [done|]. vm_compute. discriminate. }
  assert (shared_sound_for example_two_spend (cache_new 0 [], reused_new)) as H2 by (split; [apply no_cache_sound|apply reused_new_for]).
  assert (fst (check_scripts_par_iter example_two_spend EMPTY_COV_CONTEXT None default_flags [1; 0] (example_cached, reused_new)) =
    Err (SignatureEmpty EvalFalse)) as E by (vm_compute; reflexivity).
  split; [exact E|]. pose proof (check_scripts_order_free example_two_spend EMPTY_COV_CONTEXT None default_flags [1; 0]
    _ _ eq_refl (Permutation_swap 0 1 []) H1 H2) as H.
  destruct (check_scripts_par_iter _ _ _ _ _ _) as [r sp], (check_scripts_sequential _ _ _ _ _) as [r' ss].
  cbn in E |- *. subst r. intros ->. pose proof (proj2 (proj1 H) eq_refl) as Hx. discriminate Hx.
Defined.
