(* ===== verification/TxContext.v ===== *)
(** The rules of a transaction against the entries it spends.

    [context_rules] states them declaratively: coinbase maturity, value
    conservation, the fee, the storage mass, relative locks, the feerate and the
    covenant bindings.  [contextual_exact] shows that the checks of
    tx_validation_in_utxo_context.rs decide them without a panic, and
    [validation_exact] that the whole validation, its scripts in any order and its
    two caches included, decides them together with the scripts and the shielded
    proof. *)
From stdpp Require Import base gmap list.
From S2P Require Import Prelude IndexMap DbCache Turnstile Burn Encoding Bundle Tx TxHash BundleVerify ScriptNum DataStack.
From S2P Require Import ScriptMeter Covenants ScriptParse ScriptBuilder ZkPrecompiles Engine Opcodes ScriptEngine ExampleCrypto EngineSafe EngineCache TxValidator.
From S2P Require Import TxIsolation TxScripts.

(** ** Checks that decide a rule *)

(** The check succeeds only with values that meet the rule, fails only when no
    value does, and does not panic. *)
Definition decides {A} (r : res TxRuleError A) (P : A → Prop) : Prop :=
  match r with Ok a => P a | Err _ => ∀ a, ¬ P a | Panic => False end.

Lemma decides_iff {A} (r : res TxRuleError A) P Q : decides r P → (∀ a, P a ↔ Q a) → decides r Q.
Proof. intros Hr HPQ. destruct r; cbn in *; [by apply HPQ|intros a; rewrite <- HPQ; apply Hr|done]. Qed.
(** A check that a rule implies may be made first. *)
Lemma decides_step {A B} (r : res TxRuleError A) (k : A → res TxRuleError B) P Q :
  decides r P → (∀ b, Q b → ∃ a, P a) → (∀ a, P a → decides (k a) Q) → decides (r ≫= k) Q.
Proof. intros Hr Hq Hk. destruct r as [a|e|]; cbn in *; [by apply Hk| |done]. intros b [a Ha]%Hq. by eapply Hr. Qed.
Lemma decides_reject {A} (b : bool) e (k : res TxRuleError A) (P : Prop) Q :
  (b = false ↔ P) → (P → decides k Q) → decides (reject b e k) (λ a, P ∧ Q a).
Proof.
  intros Hb Hk. destruct b; cbn; [naive_solver|]. assert P as HP by by apply Hb. specialize (Hk HP). destruct k; cbn in *; naive_solver.
Qed.

Lemma Forall_zip_snd {A B} (P : B → Prop) (l : list A) (k : list B) :
  length k = length l → Forall (λ x, P x.2) (zip l k) ↔ Forall P k.
Proof. intros Hl. rewrite <- (snd_zip l k) at 2 by lia. by rewrite Forall_fmap. Qed.

Section context.
Context (tv : TransactionValidator) (p : PopulatedTransaction).

(** ** The rules *)

Definition total_in : Z := sum_list_Z (amount <$> entries p).
Definition total_out : Z := sum_list_Z (value <$> outputs (ptx p)).

Definition mature (pov_daa_score : Z) (e : UtxoEntry) : Prop :=
  is_coinbase_entry e = true → block_daa_score e + coinbase_maturity tv <= pov_daa_score.

(** The inputs and outputs as storage cells of hundreds of bytes. *)
Definition spk_plurality (s : ScriptPublicKey) (covenant : bool) : Z :=
  div_ceil (UTXO_CONST_STORAGE + Zlength (spk_script s) + if covenant then HASH_SIZE else 0) UTXO_UNIT_SIZE.
Definition in_cells : list UtxoCell :=
  (λ e, mk_cell (spk_plurality (entry_spk e) (if entry_covenant_id e then true else false)) (amount e)) <$> entries p.
Definition out_cells : list UtxoCell :=
  (λ o, mk_cell (spk_plurality (out_spk o) (if covenant o then true else false)) (value o)) <$> outputs (ptx p).
Definition mass_rule : Prop :=
  let C := storage_mass_parameter (mass_calculator tv) in
  sum_list_Z (harmonic_term C <$> out_cells) < 2 ^ 64 ∧ storage_mass (ptx p) = storage_mass_reference C in_cells out_cells.

(** An enabled relative lock counts from the score of the spent entry. *)
Definition unlocked (pov_daa_score : Z) (x : TransactionInput * UtxoEntry) : Prop :=
  Z.land (sequence x.1) SEQUENCE_LOCK_TIME_DISABLED ≠ SEQUENCE_LOCK_TIME_DISABLED →
  to_signed 64 (block_daa_score x.2) + Z.land (sequence x.1) SEQUENCE_LOCK_TIME_MASK - 1 < pov_daa_score.

(** A shielded transaction pays what its bundle releases, a transparent one what
    its outputs leave of its inputs. *)
Definition fee_rule (fork : bool) (fee : Z) : Prop :=
  if is_shielded (ptx p) then
    ∃ b, from_bytes_at (payload (ptx p)) fork = Ok b ∧ 0 <= value_balance b ∧ (fork = true ↔ is_Some (anchor_block b)) ∧ fee = value_balance b
  else fee = total_in - total_out.

Definition feerate_rule {F64} (feerate_le : Z → Z → F64 → bool) (t : option (Z * F64)) (fee : Z) : Prop :=
  match t with Some (mass, threshold) => feerate_le fee mass threshold = false | None => True end.

Definition covenants_rule (domain_hash : HashDomain → bytes → bytes) (block_daa_score : Z) (ctx : CovenantsContext) : Prop :=
  if is_active (toccata_activation tv) block_daa_score
  then bindings_valid domain_hash p ∧ describes p (enumerate (outputs (ptx p))) ctx
  else ctx = EMPTY_COV_CONTEXT.

Definition context_rules {F64} (feerate_le : Z → Z → F64 → bool) (pov_daa_score block_daa_score : Z) (fl : TxValidationFlags)
    (t : option (Z * F64)) (fee : Z) : Prop :=
  Forall (mature pov_daa_score) (entries p) ∧ total_out <= total_in <= MAX_SOMPI ∧
  fee_rule (is_active (security_fork_activation tv) block_daa_score) fee ∧ (fl ≠ SkipMassCheck → mass_rule) ∧
  Forall (unlocked pov_daa_score) (zip (inputs (ptx p)) (entries p)) ∧ feerate_rule feerate_le t fee.

(** ** What is given *)

(** Parameters with which the arithmetic of the checks stays in its width. *)
Definition validator_ok : Prop :=
  let q := div_ceil (UTXO_CONST_STORAGE + max_script_public_key_len tv + HASH_SIZE) UTXO_UNIT_SIZE in
  let C := storage_mass_parameter (mass_calculator tv) in
  0 <= coinbase_maturity tv < 2 ^ 62 ∧ 0 <= mass_per_sig_op tv ∧ mass_per_sig_op tv * SCRIPT_UNITS_PER_GRAM < 2 ^ 64 ∧
  0 <= C ∧ C * q * q < 2 ^ 64 ∧ 0 <= max_script_public_key_len tv < 2 ^ 31 ∧
  0 <= max_tx_inputs tv < 2 ^ 31 ∧ 0 <= max_tx_outputs tv < 2 ^ 31.

(** An entry of the UTXO set, or one of an unaccepted transaction. *)
Definition spent_ok (e : UtxoEntry) : Prop :=
  1 <= amount e ∧ Zlength (spk_script (entry_spk e)) <= max_script_public_key_len tv ∧
  (0 <= block_daa_score e < 2 ^ 62 ∨ block_daa_score e = u64_max ∧ is_coinbase_entry e = false).

(** A transaction that passed the checks in isolation, with its entries. *)
Definition context_ok : Prop :=
  validator_ok ∧ spend_ok p ∧ length (entries p) = length (inputs (ptx p)) ∧ Forall spent_ok (entries p) ∧
  is_coinbase (ptx p) = false ∧ Zlength (payload (ptx p)) < 2 ^ 63 ∧ isolated_ok tv (ptx p).
End context.

(** ** The checks, one by one *)

Section pieces.
Context (tv : TransactionValidator) (p : PopulatedTransaction) (Hok : context_ok tv p).

Local Lemma ins_zip : no_err (populated_inputs p) = Ok (zip (inputs (ptx p)) (entries p)).
Proof. destruct Hok as (_ & _ & Hl & _). unfold no_err. by rewrite populated_inputs_zip. Qed.

Lemma find_immature_decides pov i l :
  validator_ok tv → Forall (λ x, spent_ok tv x.2) l → decides (find_immature tv pov i l) (λ _, Forall (λ x, mature tv pov x.2) l).
Proof.
  intros Hv Hl. revert i. induction Hl as [|[input e] l He Hl IH]; intros i; cbn [find_immature]; [by apply Forall_nil|].
  cbn [snd] in He. destruct Hv as (Hm & _), He as (_ & _ & He). specialize (IH (i + 1)).
  destruct (is_coinbase_entry e) eqn:Ec.
  - assert (0 <= block_daa_score e < 2 ^ 62) as Hd by naive_solver.
    rewrite (proj2 (add_u_ok 64 _ _ (block_daa_score e + coinbase_maturity tv))) by lia. cbn [mbind res_bind].
    destruct (Z.ltb_spec pov (block_daa_score e + coinbase_maturity tv)) as [Hlt|Hge].
    + cbn. intros _ [Hx _]%Forall_cons. specialize (Hx Ec). cbn [snd] in Hx. lia.
    + eapply decides_iff; [exact IH|]. intros []. cbn beta. rewrite Forall_cons. unfold mature at 2. cbn [snd]. intuition.
  - cbn [mbind res_bind]. eapply decides_iff; [exact IH|]. intros []. cbn beta. rewrite Forall_cons. unfold mature at 2. cbn [snd]. rewrite Ec. split; [by intros; split|by intros [_ ?]].
Qed.
Lemma maturity_decides pov : decides (check_transaction_coinbase_maturity tv p pov) (λ _, Forall (mature tv pov) (entries p)).
Proof.
  unfold check_transaction_coinbase_maturity. rewrite ins_zip. cbn [mbind res_bind]. destruct Hok as (Hv & _ & Hl & He & _).
  eapply decides_iff; [apply find_immature_decides; [done|by apply Forall_zip_snd]|]. intros []. cbn beta. by apply Forall_zip_snd.
Qed.

Lemma input_amounts_decides (l : list (TransactionInput * UtxoEntry)) t :
  0 <= t <= MAX_SOMPI → Forall (λ x, 0 <= amount x.2) l →
  decides (res_foldl (λ total '(_, entry),
    total ← ok_or (checked_add 64 total (amount entry)) InputAmountOverflow;
    reject (MAX_SOMPI <? total) InputAmountTooHigh $ Ok total) t l)
  (λ total, total = t + sum_list_Z (amount <$> l.*2) ∧ total <= MAX_SOMPI).
Proof.
  intros Ht Hl. revert t Ht. induction Hl as [|[input e] l He Hl IH]; intros t Ht; cbn [res_foldl fmap list_fmap sum_list_Z snd]; [cbn; lia|].
  cbn [snd] in He. assert (0 <= sum_list_Z (amount <$> l.*2)) as Hs.
  { apply sum_list_Z_nonneg. rewrite !Forall_fmap. exact Hl. }
  unfold checked_add. change (2 ^ 64) with 18446744073709551616. unfold MAX_SOMPI in *.
  destruct (Z.ltb_spec (t + amount e) 18446744073709551616); cbn [ok_or mbind res_bind]; [|cbn; intros ? ?; lia].
  unfold reject. destruct (Z.ltb_spec (29000000000 * 100000000) (t + amount e)); [cbn; intros ? ?; lia|].
  cbn [mbind res_bind]. eapply decides_iff; [apply IH; lia|]. intros a. cbn. rewrite Z.add_assoc. done.
Qed.
Lemma total_in_decides : decides (check_transaction_input_amounts p) (λ t, t = total_in p ∧ t <= MAX_SOMPI).
Proof.
  unfold check_transaction_input_amounts. rewrite ins_zip. cbn [mbind res_bind]. destruct Hok as (_ & _ & Hl & He & _).
  eapply decides_iff; [apply input_amounts_decides; [unfold MAX_SOMPI; lia|]|].
  - apply (Forall_zip_snd (λ e, 0 <= amount e)); [done|]. eapply Forall_impl; [exact He|]. intros e (? & _). lia.
  - intros t. rewrite snd_zip by lia. done.
Qed.

Lemma outputs_pos : Forall (λ o, 1 <= value o) (outputs (ptx p)) ∧ 0 <= total_out p <= MAX_SOMPI.
Proof.
  destruct Hok as (_ & _ & _ & _ & _ & _ & (_ & _ & _ & _ & _ & _ & Hv & Hs & _)). split; [done|]. split; [|done].
  apply sum_list_Z_nonneg, Forall_fmap. eapply Forall_impl; [exact Hv|]. cbn. lia.
Qed.
Lemma total_out_decides t : decides (check_transaction_output_values p t) (λ o, o = total_out p ∧ o <= t).
Proof.
  destruct outputs_pos as [Hv Hs]. unfold check_transaction_output_values, no_err. rewrite sum_u64_exact; cycle 1.
  { apply Forall_fmap. eapply Forall_impl; [exact Hv|]. cbn. lia. }
  { fold (total_out p). unfold MAX_SOMPI in Hs. lia. }
  cbn [map_err mbind res_bind]. fold (total_out p). eapply decides_iff;
    [apply (decides_reject _ _ _ (total_out p <= t) (λ o, o = total_out p)); [by rewrite Z.ltb_ge|done]|]. intros o. cbn. split; intros; intuition lia.
Qed.

Lemma shielded_fee_decides blk :
  decides (shielded_fee tv p blk) (λ fee, let fork := is_active (security_fork_activation tv) blk in
    ∃ b, from_bytes_at (payload (ptx p)) fork = Ok b ∧ 0 <= value_balance b ∧ (fork = true ↔ is_Some (anchor_block b)) ∧ fee = value_balance b).
Proof.
  unfold shielded_fee. destruct Hok as (_ & (_ & _ & _ & _ & Hw & _) & _ & _ & _ & Hlen & _). set (fork := is_active _ _).
  pose proof (decode_no_panic fork (payload (ptx p)) Hw Hlen) as Hnp. fold (from_bytes_at (payload (ptx p)) fork) in Hnp.
  destruct (from_bytes_at (payload (ptx p)) fork) as [b|e|]; [|cbn; naive_solver|done]. cbn [decoded map_err mbind res_bind].
  eapply decides_iff; [apply (decides_reject _ _ _ (0 <= value_balance b)); [by rewrite Z.ltb_ge|intros _]|].
  - apply (decides_reject _ _ _ (fork = true ↔ is_Some (anchor_block b)) (λ fee, fee = value_balance b)); [|done].
    destruct fork; case_bool_decide; cbn; naive_solver.
  - cbn. naive_solver.
Qed.

(** The cells of the storage mass stay in their width. *)
Lemma plurality_bounds (s : ScriptPublicKey) b :
  let q := div_ceil (UTXO_CONST_STORAGE + max_script_public_key_len tv + HASH_SIZE) UTXO_UNIT_SIZE in
  Zlength (spk_script s) <= max_script_public_key_len tv →
  1 <= spk_plurality s b <= q ∧ q < 2 ^ 31 ∧ utxo_plurality s b = Ok (spk_plurality s b).
Proof.
  destruct Hok as (Hv & _). destruct Hv as (_ & _ & _ & _ & _ & Hm & _). intros q Hs. unfold spk_plurality, q, div_ceil.
  assert (0 <= (if b then HASH_SIZE else 0) <= 32) as Hb by (destruct b; unfold HASH_SIZE; lia).
  pose proof (Zlength_ge0 (spk_script s)) as Hl. unfold utxo_plurality. rewrite add_all_exact; cycle 1.
  { done. }
  { repeat constructor; [done|lia]. }
  { cbn [sum_list_Z]. unfold UTXO_CONST_STORAGE. lia. }
  cbn [sum_list_Z mbind res_bind]. unfold UTXO_CONST_STORAGE, UTXO_UNIT_SIZE, HASH_SIZE, div_ceil in *. split_and!.
  - apply Z.div_le_lower_bound; lia.
  - apply Z.div_le_mono; lia.
  - apply Z.div_lt_upper_bound; lia.
  - do 2 f_equal. lia.
Qed.

Lemma cells_fold {A} (f : list UtxoCell → A → exec (list UtxoCell)) (g : A → UtxoCell) l acc :
  Forall (λ x, ∀ acc, f acc x = Ok (acc ++ [g x])) l → res_foldl f acc l = Ok (acc ++ (g <$> l)).
Proof.
  intros Hl. revert acc. induction Hl as [|x l Hx Hl IH]; intros acc; cbn [res_foldl fmap list_fmap]; [by rewrite app_nil_r|].
  rewrite Hx. cbn [mbind res_bind]. rewrite IH, <- app_assoc. done.
Qed.

Lemma cells_bounded {A} (s : A → ScriptPublicKey) (c : A → bool) (v : A → Z) (l : list A) :
  let C := storage_mass_parameter (mass_calculator tv) in
  let cells := (λ x, mk_cell (spk_plurality (s x) (c x)) (v x)) <$> l in
  Zlength l < 2 ^ 31 → Forall (λ x, 1 <= v x ∧ Zlength (spk_script (s x)) <= max_script_public_key_len tv) l →
  sum_list_Z (v <$> l) < 2 ^ 64 → cells_ok C cells.
Proof.
  intros C cells Hn Hl Hsum. assert (Forall (cell_ok C) cells ∧ sum_list_Z (plurality <$> cells) <= 2 ^ 31 * Zlength l) as [H1 H2].
  { unfold cells. clear Hn Hsum. induction Hl as [|x l [Hx Hs] Hl [IH1 IH2]]; [split; [constructor|done]|].
    destruct (plurality_bounds (s x) (c x) Hs) as (Hq1 & Hq2 & _). set (q := div_ceil _ _) in *.
    destruct Hok as (Hv & _). destruct Hv as (_ & _ & _ & HC & Hq & _). fold q C in Hq, HC.
    rewrite !fmap_cons. cbn [sum_list_Z plurality]. split.
    - constructor; [|done]. split_and!; cbn; [lia|lia|]. eapply Z.le_lt_trans; [|exact Hq]. rewrite <- !Z.mul_assoc.
      apply Z.mul_le_mono_nonneg_l; [done|]. apply Z.mul_le_mono_nonneg; lia.
    - unfold Zlength in *. cbn [length]. lia. }
  split; [done|]. split; [lia|]. unfold cells. rewrite <- list_fmap_compose. exact Hsum.
Qed.

Lemma contextual_masses_exact : total_in p <= MAX_SOMPI →
  let C := storage_mass_parameter (mass_calculator tv) in
  calc_contextual_masses (mass_calculator tv) p =
  Ok (if sum_list_Z (harmonic_term C <$> out_cells p) <? 2 ^ 64 then Some (storage_mass_reference C (in_cells p) (out_cells p)) else None).
Proof.
  intros Hin C. pose proof Hok as (Hv & _ & Hl & He & Hcb & _ & Hiso). destruct outputs_pos as [Hpos Hout].
  destruct Hiso as (_ & Hni & _ & Hno & Hspk & _). specialize (Hno Hcb). destruct Hv as (_ & _ & _ & HC & _ & _ & Hmi & Hmo).
  assert (Forall (λ o, 1 <= value o ∧ Zlength (spk_script (out_spk o)) <= max_script_public_key_len tv) (outputs (ptx p))) as Ho
    by (by apply Forall_and).
  assert (Forall (λ e, 1 <= amount e ∧ Zlength (spk_script (entry_spk e)) <= max_script_public_key_len tv) (entries p)) as He'
    by (eapply Forall_impl; [exact He|]; intros e (? & ? & _); done).
  unfold calc_contextual_masses. rewrite Hcb, populated_inputs_zip by done. cbn [mbind res_bind].
  rewrite (cells_fold _ (λ x, mk_cell (spk_plurality (entry_spk x.2) (if entry_covenant_id x.2 then true else false)) (amount x.2))); cycle 1.
  { rewrite <- (Forall_zip_snd _ (inputs (ptx p))) in He' by done. eapply Forall_impl; [exact He'|]. intros [i e] [_ Hs] acc.
    unfold cell_of_entry, plurality_entry. by rewrite (proj2 (proj2 (plurality_bounds (entry_spk e) _ Hs))). }
  cbn [mbind res_bind app]. rewrite (cells_fold _ (λ o, mk_cell (spk_plurality (out_spk o) (if covenant o then true else false)) (value o))); cycle 1.
  { eapply Forall_impl; [exact Ho|]. intros o [_ Hs] acc.
    unfold cell_of_output, plurality_output. by rewrite (proj2 (proj2 (plurality_bounds (out_spk o) _ Hs))). }
  cbn [mbind res_bind app]. fold (out_cells p).
  replace ((λ x, mk_cell _ _) <$> zip (inputs (ptx p)) (entries p)) with (in_cells p); cycle 1.
  { unfold in_cells. rewrite <- (snd_zip (inputs (ptx p)) (entries p)) at 1 by lia. by rewrite <- list_fmap_compose. }
  unfold MAX_SOMPI in *. apply calc_storage_mass_exact; [done|..]; apply cells_bounded; try done.
  - unfold Zlength in *. lia.
  - fold (total_in p). lia.
  - lia.
  - fold (total_out p). lia.
Qed.

Lemma mass_decides : total_in p <= MAX_SOMPI → decides (check_mass_commitment tv p) (λ _, mass_rule tv p).
Proof.
  intros Hin. unfold check_mass_commitment. rewrite contextual_masses_exact by done. cbn [no_err map_err mbind res_bind]. unfold mass_rule.
  destruct (Z.ltb_spec (sum_list_Z (harmonic_term (storage_mass_parameter (mass_calculator tv)) <$> out_cells p)) (2 ^ 64)) as [Hlt|Hge];
    cbn [ok_or mbind res_bind]; [|cbn; intros [] [? _]; lia].
  destruct (Z.eqb_spec (storage_mass (ptx p)) (storage_mass_reference (storage_mass_parameter (mass_calculator tv)) (in_cells p) (out_cells p))); cbn; [done|].
  by intros [] [_ ?].
Qed.

Lemma land_low_bounds x n : 0 <= x → 0 <= n → 0 <= Z.land x (2 ^ n - 1) < 2 ^ n.
Proof. intros Hx Hn. replace (2 ^ n - 1) with (Z.ones n) by (rewrite Z.ones_equiv; lia). rewrite Z.land_ones by lia. apply Z.mod_pos_bound. lia. Qed.

Lemma any_locked_decides pov l :
  Forall (λ x, is_u64 (sequence x.1) ∧ spent_ok tv x.2) l →
  match any_locked pov l with Ok true => ¬ Forall (unlocked pov) l | Ok false => Forall (unlocked pov) l | _ => False end.
Proof.
  induction 1 as [|[input e] l [Hseq (_ & _ & He)] Hl IH]; cbn [any_locked]; [by apply Forall_nil|]. cbn [fst snd] in *.
  destruct (Z.eqb_spec (Z.land (sequence input) SEQUENCE_LOCK_TIME_DISABLED) SEQUENCE_LOCK_TIME_DISABLED) as [Hd|Hd].
  { destruct (any_locked pov l) as [[]| |]; [| |done..]; rewrite Forall_cons; unfold unlocked at 1; cbn [fst]; tauto. }
  pose proof (land_low_bounds (sequence input) 32 ltac:(apply Hseq) ltac:(lia)) as Hm. fold SEQUENCE_LOCK_TIME_MASK in Hm.
  assert (as_i64 (Z.land (sequence input) SEQUENCE_LOCK_TIME_MASK) = Z.land (sequence input) SEQUENCE_LOCK_TIME_MASK) as ->.
  { unfold as_i64, to_signed, wrap. rewrite Z.mod_small by lia. destruct (Z.ltb_spec (Z.land (sequence input) SEQUENCE_LOCK_TIME_MASK) (2 ^ (64 - 1))); lia. }
  assert (as_i64 (block_daa_score e) = to_signed 64 (block_daa_score e) ∧ -1 <= to_signed 64 (block_daa_score e) < 2 ^ 62) as [-> Hs].
  { destruct He as [He|[-> _]]; [|by vm_compute]. unfold as_i64, to_signed, wrap. rewrite Z.mod_small by lia.
    destruct (Z.ltb_spec (block_daa_score e) (2 ^ (64 - 1))); lia. }
  unfold i64_add, checked_i. rewrite decide_True by (unfold is_int; lia). cbn [unwrap mbind res_bind].
  rewrite decide_True by (unfold is_int; lia). cbn [unwrap mbind res_bind].
  destruct (Z.leb_spec pov (to_signed 64 (block_daa_score e) + Z.land (sequence input) SEQUENCE_LOCK_TIME_MASK + -1)) as [Hle|Hlt].
  - intros [Hu _]%Forall_cons. specialize (Hu Hd). cbn [fst snd] in Hu. lia.
  - destruct (any_locked pov l) as [[]| |]; [| |done..]; rewrite Forall_cons; [tauto|]. split; [|done]. intros _. cbn [fst snd]. lia.
Qed.
Lemma sequence_lock_decides pov : 0 <= pov < 2 ^ 63 →
  decides (check_sequence_lock p pov) (λ _, Forall (unlocked pov) (zip (inputs (ptx p)) (entries p))).
Proof.
  intros Hp. unfold check_sequence_lock. rewrite ins_zip. cbn [mbind res_bind].
  assert (as_i64 pov = pov) as ->.
  { unfold as_i64, to_signed, wrap. rewrite Z.mod_small by lia. destruct (Z.ltb_spec pov (2 ^ (64 - 1))); lia. }
  destruct Hok as (_ & (_ & Hin & _) & Hl & He & _).
  assert (Forall (λ x, is_u64 (sequence x.1) ∧ spent_ok tv x.2) (zip (inputs (ptx p)) (entries p))) as Hz.
  { apply Forall_and; split; [|by apply Forall_zip_snd].
    rewrite <- (fst_zip (inputs (ptx p)) (entries p)), Forall_fmap in Hin by lia. eapply Forall_impl; [exact Hin|].
    intros [i e] (_ & _ & _ & Hs & _). done. }
  pose proof (any_locked_decides pov _ Hz) as Ha. destruct (any_locked pov _) as [[]| |]; [| |done..]; cbn; naive_solver.
Qed.
Lemma covenants_decides `{Secp, ScriptHashes} blk : decides (check_covenant_info tv p blk) (covenants_rule tv p domain_hash blk).
Proof.
  destruct Hok as (Hv & _ & Hl & _ & Hcb & _ & (_ & _ & _ & Ho & _)). destruct Hv as (_ & _ & _ & _ & _ & _ & _ & Hmo). specialize (Ho Hcb).
  unfold check_covenant_info, covenants_rule. destruct (is_active _ blk); cbn [negb]; [|done].
  pose proof (from_tx_exact domain_hash p Hl ltac:(lia)) as Hf. destruct (from_tx domain_hash p); cbn; naive_solver.
Qed.

Lemma fee_rule_unique fork fee fee' : fee_rule p fork fee → fee_rule p fork fee' → fee = fee'.
Proof. unfold fee_rule. destruct (is_shielded (ptx p)); [naive_solver congruence|congruence]. Qed.

Section rules.
Context `{Secp, ScriptHashes} {F64 : Type} (feerate_le : Z → Z → F64 → bool) (pov blk : Z) (fl : TxValidationFlags) (t : option (Z * F64)).
Context (Hpov : 0 <= pov < 2 ^ 63) (Ht : match t with Some (mass, _) => 0 < mass | None => True end).

Lemma feerate_decides fee : decides (check_feerate_threshold feerate_le fee t) (λ _, feerate_rule feerate_le t fee).
Proof.
  unfold check_feerate_threshold, feerate_rule. destruct t as [[mass threshold]|]; [|done]. rewrite (proj2 (Z.ltb_lt _ _)) by done.
  cbn [guard_panic mbind res_bind]. destruct (feerate_le fee mass threshold); cbn; naive_solver.
Qed.

Lemma amounts_decides :
  decides (validate_amounts tv feerate_le p pov blk fl t)
    (λ x, context_rules tv p feerate_le pov blk fl t x.1 ∧ covenants_rule tv p domain_hash blk x.2).
Proof.
  unfold validate_amounts, context_rules. eapply decides_step; [apply maturity_decides|by intros ? ((? & _) & _); exists ()|intros [] Hmat].
  eapply decides_step; [apply total_in_decides|intros ? ((_ & [_ ?] & _) & _); by eexists|intros ti [-> Hmax]].
  eapply decides_step; [apply total_out_decides|intros ? ((_ & [? _] & _) & _); by eexists|intros to [-> Hle]].
  eapply (decides_step _ _ (fee_rule p (is_active (security_fork_activation tv) blk)));
    [|intros ? ((_ & _ & ? & _) & _); by eexists|intros fee Hfee].
  { unfold fee_rule. destruct (is_shielded (ptx p)); [apply shielded_fee_decides|]. by rewrite (proj2 (sub_u_ok _ _ _)) by done. }
  eapply (decides_step _ _ (λ _, fl ≠ SkipMassCheck → mass_rule tv p)); [|intros ? ((_ & _ & _ & ? & _) & _); by exists ()|intros [] Hmass].
  { case_bool_decide as Hfl; cbn [negb]; [by intros []|]. eapply decides_iff; [by apply mass_decides|]. intros []. tauto. }
  eapply decides_step; [by apply sequence_lock_decides|intros ? ((_ & _ & _ & _ & ? & _) & _); by exists ()|intros [] Hseq].
  eapply decides_step; [apply feerate_decides|intros [fee' cov]|intros [] Hrate].
  { intros ((_ & _ & Hfee' & _ & _ & ?) & _). exists (). by rewrite (fee_rule_unique _ _ _ Hfee Hfee'). }
  eapply decides_step; [apply covenants_decides|by intros ? [_ ?]; eexists|intros cov Hcov]. done.
Qed.
End rules.
End pieces.

(** ** The cache of verified bundles *)

Section verified.
Context `{Secp, ScriptHashes, OrchardVerify} (tv : TransactionValidator) (bundle_blake2b : bytes → bytes → bytes).

(** The bundle of a shielded transaction is sound for the message it signs. *)
Definition bundle_rule (tx : Transaction) (fork : bool) : Prop :=
  ∃ b, from_bytes_at (payload tx) fork = Ok b ∧
    bundle_sound b (bundle_sighash bundle_blake2b b (shielded_network_domain tv) (shielded_sighash_context tx)).

Lemma verify_decides tx fork : wf_bytes (payload tx) → Zlength (payload tx) < 2 ^ 63 →
  decides (verify_shielded_bundle tv bundle_blake2b tx fork) (λ _, bundle_rule tx fork).
Proof.
  intros Hw Hlen. unfold verify_shielded_bundle, bundle_rule. pose proof (decode_no_panic fork (payload tx) Hw Hlen) as Hnp.
  fold (from_bytes_at (payload tx) fork) in Hnp. destruct (from_bytes_at (payload tx) fork) as [b|e|] eqn:Ed; [|cbn; naive_solver|done].
  cbn [decoded map_err mbind res_bind].
  set (m := bundle_sighash _ _ _ _).
  pose proof (verify_bundle_total b m) as Ht. pose proof (verify_bundle_ok b m) as Hok. pose proof (verify_bundle_complete b m) as Hcomp.
  destruct (verify_bundle b m) as [[]|e|]; cbn; [by eauto| |done]. intros [] (b' & [= <-] & Hs). specialize (Hcomp Hs). done.
Qed.

(** Every verdict in the cache is one on a known transaction. *)
Definition verify_cache_ok (known : list Transaction) (c : Db.Cache (K := bytes) (V := Z)) : Prop :=
  ∃ s : gmap bytes Z, Db.policy_ok 1 (Db.policy c) ∧ (Db.max_size (Db.policy c) = 0 → Db.map (Db.cache_inner c) = []) ∧
    Db.good (λ _, 1) (Db.policy c) (Db.cache_inner c) s ∧
    ∀ id, s !! id = Some 1 → ∃ tx, tx ∈ known ∧ tx_id domain_hash tx = id ∧ ∃ fork, bundle_rule tx fork.

(** No two of the transactions collide under the hash of the ids. *)
Definition ids_distinct (tx : Transaction) (known : list Transaction) : Prop :=
  wf_tx tx ∧ (∀ d x, length (domain_hash d x) = 32%nat) ∧ domain_hash PayloadDigest [] = ZERO_PAYLOAD_DIGEST ∧
  Forall (λ tx', wf_tx tx' ∧ no_collision domain_hash (id_queries domain_hash tx ++ id_queries domain_hash tx')) known.

(** A verdict is the same for every transaction with the id, in either format. *)
Lemma bundle_rule_same tx tx' fork fork' b : wf_bytes (payload tx) → Zlength (payload tx) < 2 ^ 63 →
  tx_core tx = tx_core tx' → from_bytes_at (payload tx) fork = Ok b → bundle_rule tx' fork' → bundle_rule tx fork.
Proof.
  intros Hw Hlen Hcore Hb (b' & Hb' & Hs). unfold tx_core in Hcore. injection Hcore as Ev _ _ El En Eg Ep.
  rewrite <- Ep in Hb'. assert (b = b') as <-.
  { destruct fork, fork'; try congruence; [symmetry|]; by eapply formats_agree. }
  exists b. split; [done|]. replace (shielded_sighash_context tx) with (shielded_sighash_context tx'); [done|].
  unfold shielded_sighash_context. by rewrite Ev, El, En, Eg.
Qed.

Lemma cached_verify_decides tx blk known c b :
  let fork := is_active (security_fork_activation tv) blk in
  wf_bytes (payload tx) → Zlength (payload tx) < 2 ^ 63 → from_bytes_at (payload tx) fork = Ok b →
  ids_distinct tx known → verify_cache_ok known c →
  decides (fst (verify_shielded_bundle_cached tv bundle_blake2b tx blk c)) (λ _, bundle_rule tx fork) ∧
  verify_cache_ok (tx :: known) (snd (verify_shielded_bundle_cached tv bundle_blake2b tx blk c)).
Proof.
  intros fork Hw Hlen Hb (Htx & Hh & Hz & Hids) (s & Hp & Hnil & Hg & Hs). unfold verify_shielded_bundle_cached. fold fork.
  assert (verify_cache_ok (tx :: known) c) as Hkeep.
  { exists s. split_and!; [done..|]. intros id (tx' & Hin & Hid & Hr)%Hs. exists tx'. split; [by apply list_elem_of_further|done]. }
  case_bool_decide as Hget.
  { split; [|done]. apply Hg in Hget. apply Hs in Hget as (tx' & Hin & Hid & fork' & Hr). cbn.
    rewrite Forall_forall in Hids. destruct (Hids _ Hin) as [Htx' Hnc].
    eapply bundle_rule_same; [done..| |done|done]. by apply (tx_id_iff_core domain_hash). }
  pose proof (verify_decides tx fork Hw Hlen) as Hv. destruct (verify_shielded_bundle tv bundle_blake2b tx fork) as [[]|e|]; [|done|done].
  destruct (Db.apply_op_good (λ _ : Z, 1) 1 ltac:(lia) c (Db.OpInsert (tx_id domain_hash tx) 1) s Hp Hnil Hg) as (c' & Hi & Hp' & Hnil' & Hg'). unfold Db.idle in Hnil'. rewrite Hp' in Hnil'.
  cbn [Db.apply_op] in Hi. rewrite Hi. split; [done|]. cbn [snd]. exists (<[tx_id domain_hash tx := 1]> s). rewrite Hp'. split_and!; [done..|].
  intros id. rewrite lookup_insert_Some. intros [[<- _]|[_ (tx' & Hin & Hid & Hr)%Hs]].
  - exists tx. split; [apply list_elem_of_here|]. eauto.
  - exists tx'. split; [by apply list_elem_of_further|done].
Qed.
End verified.

(** ** The scripts *)

Section scripts.
Context `{Secp, ScriptHashes, ZkBackend} `{!ScriptHashesLaws, !ZkBackendLaws} (tv : TransactionValidator) (p : PopulatedTransaction).
Context (Hok : context_ok tv p) (acc : option SeqCommitAccessor) (Hacc : accessor_ok acc) (cov : CovenantsContext).

(** The limits of the engines at a score. *)
Definition script_flags (block_daa_score : Z) : EngineFlags :=
  mk_flags (is_active (toccata_activation tv) block_daa_score) (mass_per_sig_op tv * SCRIPT_UNITS_PER_GRAM).
Definition all_inputs : list Z := seqZ 0 (Zlength (inputs (ptx p))).
Definition scripts_rule (block_daa_score : Z) : Prop :=
  Forall (λ i, input_verdict p cov acc (script_flags block_daa_score) i = Ok ()) all_inputs.

Lemma allowed_units_ok c : wf_commit c → ∃ u, allowed_script_units c = Ok u ∧ 0 <= u.
Proof.
  intros Hc. unfold allowed_script_units, script_units_of_commit, script_units_of_sigop_count, script_units_of_compute_budget.
  change SCRIPT_UNITS_PER_SIGOP_COUNT_UNIT with 100000. change SCRIPT_UNITS_PER_COMPUTE_BUDGET_UNIT with 10000.
  change free_script_units_per_input with 9999. unfold saturating_add.
  destruct c as [n|n]; cbn in Hc; unfold is_uint in Hc; (rewrite (proj2 (mul_u_ok 64 n _ _)) by (split; [done|lia]));
    cbn [mbind res_bind]; eexists; (split; [done|lia]).
Qed.

Lemma input_verdict_total f i : 0 <= flag_sigop_script_units f → i ∈ all_inputs → input_verdict p cov acc f i ≠ Panic.
Proof.
  intros Hf [Hi1 Hi2]%elem_of_seqZ. destruct Hok as (_ & Hsp & Hl & _). unfold Zlength in Hi2.
  destruct (lookup_lt_is_Some_2 (inputs (ptx p)) (Z.to_nat i)) as [input Hin]; [lia|].
  destruct (lookup_lt_is_Some_2 (entries p) (Z.to_nat i)) as [entry Hen]; [lia|].
  rewrite (input_verdict_ok _ _ _ _ _ input entry) by (by apply populated_input_ok). unfold check_input_script.
  assert (wf_commit (compute_commit input)) as Hc.
  { destruct Hsp as (_ & Hin' & _). eapply Forall_lookup_1 in Hin'; [|done]. apply Hin'. }
  destruct (allowed_units_ok _ Hc) as (u & -> & Hu). cbn [mbind res_bind].
  set (ctx := with_seq_commit_accessor_opt _ _). destruct (input_engine p i input entry ctx f u Hsp Hi1 Hin Hen Hacc Hf Hu) as (-> & Henv & Hidle).
  pose proof (execute_safe _ _ Henv _ Hidle) as Hx. unfold wp in Hx. by destruct (execute _ _) as [[] ?].
Qed.

Lemma check_scripts_decides blk schedule c :
  schedule ≡ₚ all_inputs → cache_sound c →
  decides (fst (check_scripts tv p cov acc blk schedule c)) (λ _, scripts_rule blk) ∧
  cache_sound (snd (check_scripts tv p cov acc blk schedule c)).
Proof.
  intros Hperm Hc. pose proof Hok as ((_ & Hm0 & Hm & _) & _ & Hl & _). unfold check_scripts, check_scripts_with, script_units_of_gram.
  rewrite (proj2 (mul_u_ok 64 _ _ (mass_per_sig_op tv * SCRIPT_UNITS_PER_GRAM))) by done. fold (script_flags blk).
  assert (shared_sound_for p (c, reused_new)) as Hs by (split; [done|apply reused_new_for]).
  assert (Forall (λ i, input_verdict p cov acc (script_flags blk) i ≠ Panic) all_inputs) as Hnp.
  { apply Forall_forall. intros i Hi. apply input_verdict_total; [|done]. change (0 <= mass_per_sig_op tv * 100). lia. }
  assert (∀ l, l ≡ₚ all_inputs → decides (first_failure (input_verdict p cov acc (script_flags blk) <$> l)) (λ _, scripts_rule blk)) as Hd.
  { intros l Hlp. eapply (decides_iff _ (λ _, Forall (λ i, input_verdict p cov acc (script_flags blk) i = Ok ()) l));
      [|intros []; unfold scripts_rule; by rewrite Hlp].
    rewrite <- Hlp in Hnp. clear -Hnp. induction Hnp as [|i l Hi Hl IH]; [by apply Forall_nil|].
    cbn [fmap list_fmap first_failure]. destruct (input_verdict p cov acc (script_flags blk) i) as [[]|e|] eqn:Ei; [| |done].
    - eapply decides_iff; [exact IH|]. intros []. cbn beta. rewrite Forall_cons. tauto.
    - intros [] [? _]%Forall_cons. congruence. }
  destruct (_ <? _).
  - destruct (par_iter_first p cov acc (script_flags blk) schedule _ Hs) as [Hr [Hs' _]].
    destruct (check_scripts_par_iter _ _ _ _ _ _) as [r s]. cbn in *. subst r. by split; [apply Hd|].
  - destruct (sequential_all p cov acc (script_flags blk) _ Hl Hs) as [Hr [Hs' _]].
    destruct (check_scripts_sequential _ _ _ _ _) as [r s]. cbn in *. subst r. by split; [apply Hd|].
Qed.
End scripts.

(** ** The whole validation *)

Definition caches_ok `{Secp, ScriptHashes, OrchardVerify} (tv : TransactionValidator) (bundle_blake2b : bytes → bytes → bytes)
    (known : list Transaction) (c : Caches) : Prop :=
  cache_sound (script_cache c) ∧ verify_cache_ok tv bundle_blake2b known (shielded_verify_cache c).

Lemma amounts_covenants `{Secp, ScriptHashes} tv {F64} (feerate_le : Z → Z → F64 → bool) p pov blk fl t fee cov :
  validate_amounts tv feerate_le p pov blk fl t = Ok (fee, cov) → check_covenant_info tv p blk = Ok cov.
Proof. unfold validate_amounts. intros Ev. do 8 (apply res_bind_ok in Ev as (? & ? & Ev)). congruence. Qed.

(** What an accepted transaction meets, with its fee. *)
Definition valid_spend `{Secp, ScriptHashes, ZkBackend, OrchardVerify} (tv : TransactionValidator) (bundle_blake2b : bytes → bytes → bytes)
    {F64} (feerate_le : Z → Z → F64 → bool) (p : PopulatedTransaction) (pov_daa_score block_daa_score : Z) (fl : TxValidationFlags)
    (t : option (Z * F64)) (acc : option SeqCommitAccessor) (fee : Z) : Prop :=
  context_rules tv p feerate_le pov_daa_score block_daa_score fl t fee ∧
  ∃ cov, check_covenant_info tv p block_daa_score = Ok cov ∧ covenants_rule tv p domain_hash block_daa_score cov ∧
    (fl ≠ SkipScriptChecks → scripts_rule tv p acc cov block_daa_score ∧
      (is_shielded (ptx p) = true → bundle_rule tv bundle_blake2b (ptx p) (is_active (security_fork_activation tv) block_daa_score))).

(** C1. Validation against the spent entries decides the rules.  For a transaction that
    passed the checks in isolation, sound caches, and the inputs taken by the script
    workers in any order, validation never panics; it returns a fee exactly when the
    transaction meets every rule with that fee: coinbase maturity, conservation of
    value, the storage mass, the relative locks, the feerate, the covenant bindings
    and, unless they are skipped, every script by itself and the soundness of the
    shielded bundle under the format of the block, also when the verdict on the
    bundle comes from the cache; and the caches stay sound. *)
Theorem validation_exact `{Secp, ScriptHashes, ZkBackend, OrchardVerify} `{!ScriptHashesLaws, !ZkBackendLaws}
    (tv : TransactionValidator) (bundle_blake2b : bytes → bytes → bytes) {F64} (feerate_le : Z → Z → F64 → bool) (p : PopulatedTransaction)
    (pov blk : Z) (fl : TxValidationFlags) (t : option (Z * F64)) (acc : option SeqCommitAccessor) (schedule : list Z)
    (known : list Transaction) (c : Caches) :
  context_ok tv p → 0 <= pov < 2 ^ 63 → match t with Some (mass, _) => 0 < mass | None => True end → accessor_ok acc →
  schedule ≡ₚ all_inputs p → ids_distinct (ptx p) known → caches_ok tv bundle_blake2b known c →
  let '(r, c') := validate_populated_transaction_and_get_fee tv bundle_blake2b feerate_le p pov blk fl t acc schedule c in
  decides r (valid_spend tv bundle_blake2b feerate_le p pov blk fl t acc) ∧ caches_ok tv bundle_blake2b (ptx p :: known) c'.
Proof.
  intros Hok Hpov Ht Hacc Hperm Hids [Hsc Hvc]. unfold validate_populated_transaction_and_get_fee, valid_spend.
  assert (verify_cache_ok tv bundle_blake2b (ptx p :: known) (shielded_verify_cache c)) as Hvc'.
  { destruct Hvc as (s & ? & ? & ? & Hs). exists s. split_and!; [done..|]. intros id (tx & ? & ?)%Hs. exists tx.
    split; [by apply list_elem_of_further|done]. }
  pose proof (amounts_decides tv p Hok feerate_le pov blk fl t Hpov Ht) as Ha.
  destruct (validate_amounts tv feerate_le p pov blk fl t) as [[fee cov]|e|] eqn:Ev; [|split; [|done]|done]; cbn in Ha; cycle 1.
  { intros fee (Hr & cov & _ & Hcov & _). by apply (Ha (fee, cov)). }
  apply amounts_covenants in Ev. destruct Ha as [Hr Hcov]. case_bool_decide as Hfl.
  { split; [|done]. cbn. split; [done|]. by exists cov. }
  destruct (check_scripts_decides tv p Hok acc Hacc cov blk schedule _ Hperm Hsc) as [Hs Hsc'].
  destruct (check_scripts tv p cov acc blk schedule (script_cache c)) as [[[]|e|] sc]; cbn [fst snd] in Hs, Hsc'; [|split; [|done]|done]; cycle 1.
  { intros fee' (_ & cov' & Hc' & _ & Hx). rewrite Ev in Hc'. injection Hc' as <-. by apply (Hs ()), Hx. }
  destruct (is_shielded (ptx p)) eqn:Esh; [|split; [|done]; cbn; split; [done|]; exists cov; naive_solver].
  pose proof Hok as (_ & (_ & _ & _ & _ & Hw & _) & _ & _ & _ & Hlen & _).
  assert (∃ b, from_bytes_at (payload (ptx p)) (is_active (security_fork_activation tv) blk) = Ok b) as [b Hb].
  { destruct Hr as (_ & _ & Hfee & _). unfold fee_rule in Hfee. rewrite Esh in Hfee. naive_solver. }
  destruct (cached_verify_decides tv bundle_blake2b (ptx p) blk known (shielded_verify_cache c) b Hw Hlen Hb Hids Hvc) as [Hv Hvk].
  destruct (verify_shielded_bundle_cached tv bundle_blake2b (ptx p) blk (shielded_verify_cache c)) as [[[]|e|] vc]; cbn in Hv, Hvk |- *;
    [|split; [|done]|done].
  - split; [|done]. split; [done|]. by exists cov.
  - intros fee' (_ & cov' & _ & _ & Hx). by apply (Hv ()), Hx.
Qed.

(** A shielded transaction that releases 100 and is signed under the example hash. *)
Definition example_blake2b (personal x : bytes) : bytes := example_hash (personal ++ x).
Definition example_payment_tx : Transaction := Eval vm_compute in
  let unsigned := mk_tx 2 [] [] 0 SUBNETWORK_ID_NATIVE 0 [] 0 in
  let b := example_signed_bundle in
  let m := bundle_sighash example_blake2b b (shielded_network_domain example_validator) (shielded_sighash_context unsigned) in
  let sign a := mkActionWire (nullifier a) (rk a) (cmx a) (cv_net a) (ephemeral_key a) (enc_ciphertext a) (out_ciphertext a)
    (example_hash (rk a ++ m) ++ zeros 32) in
  mk_tx 2 [] [] 0 SUBNETWORK_ID_NATIVE 0
    (to_bytes (mkShieldedBundle (sign <$> actions b) (Bundle.flags b) (value_balance b) (anchor b) (proof b)
      (example_hash (to_le_bytes 32 0 ++ m) ++ zeros 32) None None)) 0.
Definition example_no_caches : Caches := mk_caches (cache_new 4 []) (Db.cache_new (Db.Count 8) []).
Definition example_feerate_le (fee mass r : Z) : bool := fee <=? mass * r.
Definition example_validation (p : PopulatedTransaction) (fl : TxValidationFlags) (c : Caches) : res TxRuleError Z * Caches :=
  validate_populated_transaction_and_get_fee example_validator example_blake2b example_feerate_le p 1500 1500 fl
    (Some (3, 2)) None (all_inputs p) c.

Lemma example_validator_ok : validator_ok example_validator.
Proof. unfold validator_ok. vm_compute. intuition discriminate. Qed.
Lemma example_p2pk_context : context_ok example_validator example_p2pk_spend.
Proof.
  split_and!; [exact example_validator_ok|exact example_p2pk_ok|reflexivity| |reflexivity|vm_compute; reflexivity|].
  - apply Forall_singleton. unfold spent_ok. split_and!; [vm_compute; congruence|vm_compute; congruence|left; vm_compute; intuition congruence].
  - apply isolation_spec; [cbn; lia|by apply Forall_singleton|constructor|vm_compute; reflexivity|vm_compute; reflexivity].
Qed.
Lemma example_payment_context : context_ok example_validator (mk_populated example_payment_tx []).
Proof.
  split_and!; [exact example_validator_ok| |reflexivity|constructor|reflexivity|vm_compute; reflexivity|].
  - unfold spend_ok. split_and!; [decide_by_eval|constructor|constructor|constructor|decide_by_eval|decide_by_eval].
  - apply isolation_spec; [cbn; lia|constructor|decide_by_eval|vm_compute; reflexivity|vm_compute; reflexivity].
Qed.
Lemma example_ids_none tx : wf_tx tx → ids_distinct tx [].
Proof. intros Htx. split_and!; [done|exact length_example_hasher|reflexivity|constructor]. Qed.
Lemma example_ids_self tx : wf_tx tx → no_collision_b domain_hash (id_queries domain_hash tx) = true → ids_distinct tx [tx].
Proof.
  intros Htx Hb%no_collision_b_sound. split_and!; [done|exact length_example_hasher|reflexivity|]. apply Forall_singleton. split; [done|].
  intros x y Hx%elem_of_app Hy%elem_of_app. apply Hb; tauto.
Qed.
Lemma example_no_caches_ok : caches_ok example_validator example_blake2b [] example_no_caches.
Proof.
  split; [split; [apply Forall_nil_2|done]|]. exists ∅. split_and!; [vm_compute; intuition congruence|done| |].
  - apply Db.good_nil; vm_compute; congruence.
  - intros id. by rewrite lookup_empty.
Qed.
Lemma run_ok {A C} (P : A → Prop) (Q : C → Prop) (x : res TxRuleError A * C) a :
  fst x = Ok a → (let '(r, c) := x in decides r P ∧ Q c) → P a.
Proof. destruct x as [r c]. cbn. by intros -> [? _]. Qed.
Lemma example_payment_wf : wf_tx example_payment_tx.
Proof.
  unfold wf_tx. split_and!; [decide_by_eval|constructor|vm_compute; reflexivity|constructor|vm_compute; reflexivity|
    decide_by_eval|reflexivity|decide_by_eval|vm_compute; reflexivity|decide_by_eval].
Qed.
Lemma example_p2pk_wf : wf_tx (ptx example_p2pk_spend).
Proof.
  unfold wf_tx, wf_input, wf_output. cbn [ptx example_p2pk_spend example_p2pk_tx inputs outputs]. rewrite !Forall_singleton.
  split_and!; try decide_by_eval; try (vm_compute; intuition congruence).
Qed.

(** A transparent payment, and a shielded one validated twice, the second time with
    the verdict of the first in the cache. *)
Lemma validation_exact_witness :
  let pay := mk_populated example_payment_tx [] in
  let c := snd (example_validation pay Full example_no_caches) in
  valid_spend example_validator example_blake2b example_feerate_le example_p2pk_spend 1500 1500 SkipMassCheck (Some (3, 2)) None 1000 ∧
  Db.get (shielded_verify_cache c) (tx_id domain_hash example_payment_tx) = Some 1 ∧
  caches_ok example_validator example_blake2b [example_payment_tx] c ∧
  valid_spend example_validator example_blake2b example_feerate_le pay 1500 1500 Full (Some (3, 2)) None 100.
Proof.
  intros pay c. split.
  { pose proof (validation_exact example_validator example_blake2b example_feerate_le example_p2pk_spend 1500 1500
      SkipMassCheck (Some (3, 2)) None (all_inputs example_p2pk_spend) [] example_no_caches example_p2pk_context ltac:(lia) eq_refl I
      (Permutation_refl _) (example_ids_none _ example_p2pk_wf) example_no_caches_ok) as Hv.
    apply (run_ok _ (caches_ok example_validator example_blake2b [ptx example_p2pk_spend]) (example_validation example_p2pk_spend SkipMassCheck example_no_caches) 1000); [vm_compute; reflexivity|unfold example_validation; exact Hv]. }
  assert (caches_ok example_validator example_blake2b [example_payment_tx] c) as Hc.
  { pose proof (validation_exact example_validator example_blake2b example_feerate_le pay 1500 1500
      Full (Some (3, 2)) None (all_inputs pay) [] example_no_caches example_payment_context ltac:(lia) eq_refl I
      (Permutation_refl _) (example_ids_none _ example_payment_wf) example_no_caches_ok) as Hv.
    unfold c, example_validation. destruct (validate_populated_transaction_and_get_fee _ _ _ _ _ _ _ _ _ _ _) as [r c']. exact (proj2 Hv). }
  split; [vm_compute; reflexivity|]. split; [exact Hc|].
  pose proof (validation_exact example_validator example_blake2b example_feerate_le pay 1500 1500
    Full (Some (3, 2)) None (all_inputs pay) [example_payment_tx] c example_payment_context ltac:(lia) eq_refl I
    (Permutation_refl _) (example_ids_self _ example_payment_wf ltac:(vm_compute; reflexivity)) Hc) as Hv.
  apply (run_ok _ (caches_ok example_validator example_blake2b [example_payment_tx; example_payment_tx]) (example_validation pay Full c) 100); [vm_compute; reflexivity|unfold example_validation; exact Hv].
Defined.

(** The same payment with its anchor block, signed for the format of the fork. *)
Definition example_anchored_tx : Transaction := Eval vm_compute in
  let b := example_signed_bundle in
  let b := mkShieldedBundle (actions b) (Bundle.flags b + BUNDLE_FLAG_ANCHOR_BLOCK) (value_balance b) (anchor b) (proof b) (binding_sig b) None
    (Some (zeros 32)) in
  let m := bundle_sighash example_blake2b b (shielded_network_domain example_validator) (shielded_sighash_context example_payment_tx) in
  let sign a := mkActionWire (nullifier a) (rk a) (cmx a) (cv_net a) (ephemeral_key a) (enc_ciphertext a) (out_ciphertext a)
    (example_hash (rk a ++ m) ++ zeros 32) in
  mk_tx 2 [] [] 0 SUBNETWORK_ID_NATIVE 0
    (to_bytes (mkShieldedBundle (sign <$> actions b) (Bundle.flags b) (value_balance b) (anchor b) (proof b)
      (example_hash (to_le_bytes 32 0 ++ m) ++ zeros 32) None (anchor_block b))) 0.

(** The cached verdict is not a function of the bytes alone: a bundle verified in the
    format of the fork is accepted from the cache under the older format, in which
    the same bytes do not verify. *)
Example cached_verdict_ignores_format :
  let '(r, c) := preverify_shielded_bundle example_validator example_blake2b example_anchored_tx 2500 (Db.cache_new (Db.Count 8) []) in
  r = Ok () ∧ fst (preverify_shielded_bundle example_validator example_blake2b example_anchored_tx 1500 c) = Ok () ∧
  verify_shielded_bundle example_validator example_blake2b example_anchored_tx false = Err InvalidShieldedTransaction.
Proof. vm_compute. split_and!; reflexivity. Qed.
