(* ===== verification/ShieldedStores.v ===== *)
(** The stores of the shielded pool (consensus/src/model/stores/shielded.rs).

    A database is one map per store prefix; keys are byte strings and iteration is in
    their lexicographic order.  A batch is the list of its staged operations, which take
    effect when the batch is written.  Reads see the written state.
    Errors of the database itself are not modelled. *)
From stdpp Require Import base gmap list sorting.
From S2P Require Import Prelude Tree Burn AnchorLog Tx Limbs MuHash.

Inductive StoreError := DataInconsistency.
Notation StoreResult := (res StoreError).

(** ** Rows *)

Record SupplyTotals := mk_totals { tot_coinbase : Z; tot_fees : Z }.
Definition totals_default : SupplyTotals := mk_totals 0 0.

(** [MinerAccrual] of consensus/core/src/coinbase.rs. *)
Record MinerAccrual := mk_accrual { acc_spk : ScriptPublicKey; acc_amount : Z }.
Definition accrual_default : MinerAccrual := mk_accrual (mk_spk 0 []) 0.
Definition accrual_is_empty (m : MinerAccrual) : bool := acc_amount m =? 0.

Record ShieldedScanTx := mk_scan_tx { scan_txid : bytes; action_bytes : bytes }.
Record ShieldedScanBlockData := mk_scan {
  scan_blue_score : Z;
  scan_daa_score : Z;
  scan_timestamp : Z;
  scan_coinbase_txid : bytes;
  scan_coinbase_outputs : list (bytes * Z);
  scan_coinbase_commitments : list bytes;
  scan_accepted : list ShieldedScanTx;
}.

#[export] Instance SupplyTotals_eq_dec : EqDecision SupplyTotals.
Proof. solve_decision. Defined.
#[export] Instance ScriptPublicKey_eq_dec : EqDecision ScriptPublicKey.
Proof. solve_decision. Defined.
#[export] Instance MinerAccrual_eq_dec : EqDecision MinerAccrual.
Proof. solve_decision. Defined.

(** [DatabaseStorePrefixes], the shielded ones. *)
Inductive Table :=
  | ShieldedNullifiers
  | ShieldedTreeFrontier
  | ShieldedAnchors
  | ShieldedSupply
  | ShieldedNullifierDiffs
  | ShieldedNullifierMuHash
  | ShieldedScanBlock
  | ShieldedBurns
  | ShieldedAnchorProducers
  | ShieldedDevAccrued
  | ShieldedAnchorSourceScore
  | ShieldedAnchorGcQueue
  | ShieldedAnchorWindow
  | ShieldedWindowEntry
  | ShieldedMinerAccrual.
#[export] Instance Table_eq_dec : EqDecision Table.
Proof. solve_decision. Defined.

Definition row (t : Table) : Type :=
  match t with
  | ShieldedNullifiers => Z
  | ShieldedTreeFrontier => FrontierState
  | ShieldedAnchors => bytes
  | ShieldedSupply => SupplyTotals
  | ShieldedNullifierDiffs => list bytes
  | ShieldedNullifierMuHash => list Z
  | ShieldedScanBlock => ShieldedScanBlockData
  | ShieldedBurns => list ExitReceipt
  | ShieldedAnchorProducers => list bytes
  | ShieldedDevAccrued => Z
  | ShieldedAnchorSourceScore => Z
  | ShieldedAnchorGcQueue => bytes
  | ShieldedAnchorWindow => AnchorLog
  | ShieldedWindowEntry => WindowEntry * AnchorLog
  | ShieldedMinerAccrual => MinerAccrual
  end.

(** ** Databases and batches *)

Definition Db : Type := ∀ t, gmap bytes (row t).
Definition db_empty : Db := λ t, ∅.
Definition set_table (t : Table) (m : gmap bytes (row t)) (db : Db) : Db :=
  λ t', match decide (t = t') with left e => eq_rect t (λ t, gmap bytes (row t)) m t' e | right _ => db t' end.

Inductive BatchOp :=
  | Put (t : Table) (k : bytes) (v : row t)
  | Delete (t : Table) (k : bytes)
  | DeleteAll (t : Table).
Notation WriteBatch := (list BatchOp).

Definition apply_op (db : Db) (op : BatchOp) : Db :=
  match op with
  | Put t k v => set_table t (<[k := v]> (db t)) db
  | Delete t k => set_table t (delete k (db t)) db
  | DeleteAll t => set_table t ∅ db
  end.
(** [DB::write] *)
Definition write (db : Db) (batch : WriteBatch) : Db := foldl apply_op db batch.

Lemma set_table_same t m db : set_table t m db t = m.
Proof. unfold set_table. destruct (decide (t = t)) as [e|]; [|done]. by rewrite (Eqdep_dec.UIP_dec Table_eq_dec e eq_refl). Qed.
Lemma set_table_other t t' m db : t ≠ t' → set_table t m db t' = db t'.
Proof. intros H. unfold set_table. by destruct (decide (t = t')). Qed.

Definition op_table (op : BatchOp) : Table := match op with Put t _ _ | Delete t _ | DeleteAll t => t end.
Definition op_touches (t : Table) (k : bytes) (op : BatchOp) : Prop :=
  op_table op = t ∧ match op with Put _ k' _ | Delete _ k' => k' = k | DeleteAll _ => True end.

Lemma apply_op_other db op t k : ¬ op_touches t k op → apply_op db op t !! k = db t !! k.
Proof.
  unfold op_touches. destruct op as [t' k' v|t' k'|t']; cbn; intros H; destruct (decide (t' = t)) as [->|Ht].
  - rewrite set_table_same, lookup_insert_ne; [done|naive_solver].
  - by rewrite set_table_other.
  - rewrite set_table_same, lookup_delete_ne; [done|naive_solver].
  - by rewrite set_table_other.
  - naive_solver.
  - by rewrite set_table_other.
Qed.
Lemma write_app db b1 b2 : write db (b1 ++ b2) = write (write db b1) b2.
Proof. apply foldl_app. Qed.
Lemma write_snoc db b op : write db (b ++ [op]) = apply_op (write db b) op.
Proof. by rewrite write_app. Qed.
(** A row no operation of the batch touches is unchanged. *)
Lemma write_other db b t k : Forall (λ op, ¬ op_touches t k op) b → write db b t !! k = db t !! k.
Proof.
  intros H. revert db. induction H as [|op b Hop Hb IH]; intros db; [done|]. cbn. rewrite IH. by apply apply_op_other.
Qed.
Lemma write_put_last db b t k v : write db (b ++ [Put t k v]) t !! k = Some v.
Proof. rewrite write_snoc. cbn. by rewrite set_table_same, lookup_insert_eq. Qed.

(** ** Iteration in key order *)

Fixpoint bytes_leb (a b : bytes) : bool :=
  match a, b with
  | [], _ => true
  | _ :: _, [] => false
  | x :: a, y :: b => (x <? y) || ((x =? y) && bytes_leb a b)
  end.
Definition key_le {A} (x y : bytes * A) : Prop := bytes_leb x.1 y.1 = true.
#[export] Instance key_le_dec {A} : RelDecision (key_le (A := A)).
Proof. intros x y. unfold key_le. apply _. Defined.
(** [CachedDbAccess::iterator] *)
Definition iter {t} (m : gmap bytes (row t)) : list (bytes * row t) := merge_sort key_le (map_to_list m).
Lemma iter_perm {t} (m : gmap bytes (row t)) : iter m ≡ₚ map_to_list m.
Proof. apply merge_sort_Permutation. Qed.
Lemma elem_of_iter {t} (m : gmap bytes (row t)) k v : (k, v) ∈ iter m ↔ m !! k = Some v.
Proof. by rewrite iter_perm, elem_of_map_to_list. Qed.
Lemma bytes_leb_total a b : bytes_leb a b = true ∨ bytes_leb b a = true.
Proof.
  revert b. induction a as [|x a IH]; intros [|y b]; cbn; auto. destruct (Z.ltb_spec x y); [by left|].
  destruct (Z.ltb_spec y x); [right; done|]. assert (x = y) as -> by lia. rewrite Z.eqb_refl. apply IH.
Qed.
Lemma bytes_leb_trans a b c : bytes_leb a b = true → bytes_leb b c = true → bytes_leb a c = true.
Proof.
  revert b c. induction a as [|x a IH]; intros [|y b] [|z c]; cbn; try done.
  rewrite !orb_true_iff, !andb_true_iff, !Z.ltb_lt, !Z.eqb_eq. intros [H1|[-> H1]] [H2|[-> H2]]; [left; lia|by left|by left|right; eauto].
Qed.
Lemma iter_sorted {t} (m : gmap bytes (row t)) : StronglySorted key_le (iter m).
Proof.
  apply Sorted_StronglySorted; [intros x y z; apply bytes_leb_trans|]. apply Sorted_merge_sort. intros x y. apply bytes_leb_total.
Qed.

(** ** The stores

    A missing row reads as the store's default; [set] and [delete] stage an operation. *)

Module NullifierSet_.
Definition contains (db : Db) (nf : bytes) : bool := bool_decide (is_Some (db ShieldedNullifiers !! nf)).
Definition insert_batch (batch : WriteBatch) (nf : bytes) : WriteBatch := batch ++ [Put ShieldedNullifiers nf 1].
Definition delete_batch (batch : WriteBatch) (nf : bytes) : WriteBatch := batch ++ [Delete ShieldedNullifiers nf].
Definition iter_all (db : Db) : list bytes := (iter (db ShieldedNullifiers)).*1.
End NullifierSet_.

Module NullifierDiffs.
Definition get (db : Db) (block : bytes) : list bytes := default [] (db ShieldedNullifierDiffs !! block).
Definition set_batch (batch : WriteBatch) (block : bytes) (nullifiers : list bytes) : WriteBatch :=
  batch ++ [Put ShieldedNullifierDiffs block nullifiers].
Definition delete_batch (batch : WriteBatch) (block : bytes) : WriteBatch := batch ++ [Delete ShieldedNullifierDiffs block].
End NullifierDiffs.

Module TreeStore.
Definition frontier_default : FrontierState := mkFrontierState 0 None [].
Definition get_present (db : Db) (block : bytes) : option FrontierState := db ShieldedTreeFrontier !! block.
Definition get (db : Db) (block : bytes) : FrontierState := default frontier_default (get_present db block).
Definition set_batch (batch : WriteBatch) (block : bytes) (s : FrontierState) : WriteBatch := batch ++ [Put ShieldedTreeFrontier block s].
Definition delete_batch (batch : WriteBatch) (block : bytes) : WriteBatch := batch ++ [Delete ShieldedTreeFrontier block].
End TreeStore.

Module SupplyStore.
Definition get (db : Db) (block : bytes) : SupplyTotals := default totals_default (db ShieldedSupply !! block).
Definition set_batch (batch : WriteBatch) (block : bytes) (t : SupplyTotals) : WriteBatch := batch ++ [Put ShieldedSupply block t].
Definition delete_batch (batch : WriteBatch) (block : bytes) : WriteBatch := batch ++ [Delete ShieldedSupply block].
End SupplyStore.

Module DevAccruedStore.
Definition get (db : Db) (block : bytes) : Z := default 0 (db ShieldedDevAccrued !! block).
Definition set_batch (batch : WriteBatch) (block : bytes) (accrued : Z) : WriteBatch := batch ++ [Put ShieldedDevAccrued block accrued].
Definition delete_batch (batch : WriteBatch) (block : bytes) : WriteBatch := batch ++ [Delete ShieldedDevAccrued block].
End DevAccruedStore.

Module MinerAccrualStore.
Definition get (db : Db) (block : bytes) : MinerAccrual := default accrual_default (db ShieldedMinerAccrual !! block).
Definition set_batch (batch : WriteBatch) (block : bytes) (slot : MinerAccrual) : WriteBatch := batch ++ [Put ShieldedMinerAccrual block slot].
Definition delete_batch (batch : WriteBatch) (block : bytes) : WriteBatch := batch ++ [Delete ShieldedMinerAccrual block].
End MinerAccrualStore.

Module SourceScores.
Definition get (db : Db) (source : bytes) : option Z := db ShieldedAnchorSourceScore !! source.
Definition set_batch (batch : WriteBatch) (source : bytes) (score : Z) : WriteBatch := batch ++ [Put ShieldedAnchorSourceScore source score].
Definition delete_batch (batch : WriteBatch) (source : bytes) : WriteBatch := batch ++ [Delete ShieldedAnchorSourceScore source].
Definition delete_all_batch (batch : WriteBatch) : WriteBatch := batch ++ [DeleteAll ShieldedAnchorSourceScore].
End SourceScores.

Module AnchorWindow.
Definition window (db : Db) (block : bytes) : option AnchorLog := db ShieldedAnchorWindow !! block.
Definition entry_with_log (db : Db) (block : bytes) : option (WindowEntry * AnchorLog) := db ShieldedWindowEntry !! block.
Definition entry (db : Db) (block : bytes) : option WindowEntry := fst <$> entry_with_log db block.
Definition set_window_batch (batch : WriteBatch) (block : bytes) (w : AnchorLog) : WriteBatch := batch ++ [Put ShieldedAnchorWindow block w].
Definition delete_window_batch (batch : WriteBatch) (block : bytes) : WriteBatch := batch ++ [Delete ShieldedAnchorWindow block].
Definition set_entry_batch (batch : WriteBatch) (block : bytes) (e : WindowEntry) (log_before : AnchorLog) : WriteBatch :=
  batch ++ [Put ShieldedWindowEntry block (e, log_before)].
Definition delete_entry_batch (batch : WriteBatch) (block : bytes) : WriteBatch := batch ++ [Delete ShieldedWindowEntry block].
End AnchorWindow.

Module BurnStore.
Definition get (db : Db) (block : bytes) : list ExitReceipt := default [] (db ShieldedBurns !! block).
Definition set_batch (batch : WriteBatch) (block : bytes) (receipts : list ExitReceipt) : WriteBatch := batch ++ [Put ShieldedBurns block receipts].
Definition delete_batch (batch : WriteBatch) (block : bytes) : WriteBatch := batch ++ [Delete ShieldedBurns block].
End BurnStore.

(** The row is the normalized value only; a denominator other than one is refused. *)
Module MuHashStore.
Definition get (db : Db) (block : bytes) : MuHash :=
  match db ShieldedNullifierMuHash !! block with Some u => from_uint3072 u | None => muhash_new end.
Definition set_batch (batch : WriteBatch) (block : bytes) (m : MuHash) : StoreResult WriteBatch :=
  normalized ← map_err (λ _, DataInconsistency) (try_from m);
  Ok (batch ++ [Put ShieldedNullifierMuHash block normalized]).
Definition delete_batch (batch : WriteBatch) (block : bytes) : WriteBatch := batch ++ [Delete ShieldedNullifierMuHash block].
End MuHashStore.

Module AnchorGcQueue.
(** [AnchorGcKey]: the score in front, big-endian, so that iteration is by score. *)
Definition key_new (blue_score : Z) (anchor block : bytes) : bytes := to_be_bytes 8 blue_score ++ anchor ++ block.
Definition parts (k : bytes) : Z * bytes * bytes := (from_be_bytes (take 8 k), take 32 (drop 8 k), drop 40 k).
Definition enqueue_batch (batch : WriteBatch) (blue_score : Z) (anchor block : bytes) : WriteBatch :=
  batch ++ [Put ShieldedAnchorGcQueue (key_new blue_score anchor block) block].
Definition delete_batch (batch : WriteBatch) (blue_score : Z) (anchor block : bytes) : WriteBatch :=
  batch ++ [Delete ShieldedAnchorGcQueue (key_new blue_score anchor block)].
Fixpoint peek_loop (blue_limit : Z) (cap : nat) (keys : list bytes) (out : list (Z * bytes * bytes)) : list (Z * bytes * bytes) :=
  match keys with
  | [] => out
  | key :: keys =>
      if negb (length key =? 72)%nat then peek_loop blue_limit cap keys out
      else
        let '(blue, anchor, block) := parts key in
        if (blue_limit <? blue) || (cap <=? length out)%nat then out
        else peek_loop blue_limit cap keys (out ++ [(blue, anchor, block)])
  end.
Definition peek_upto (db : Db) (blue_limit : Z) (cap : nat) : list (Z * bytes * bytes) :=
  peek_loop blue_limit cap (iter (db ShieldedAnchorGcQueue)).*1 [].
End AnchorGcQueue.

Module AnchorProducers.
Definition get_producers (db : Db) (anchor : bytes) : list bytes := default [] (db ShieldedAnchorProducers !! anchor).
Definition set_producers_batch (batch : WriteBatch) (anchor : bytes) (producers : list bytes) : WriteBatch :=
  batch ++ [Put ShieldedAnchorProducers anchor producers].
Definition add_producer_batch (db : Db) (batch : WriteBatch) (anchor block : bytes) : WriteBatch :=
  let producers := get_producers db anchor in
  if bool_decide (block ∈ producers) then batch else set_producers_batch batch anchor (producers ++ [block]).
Definition delete_all_batch (batch : WriteBatch) : WriteBatch := batch ++ [DeleteAll ShieldedAnchorProducers].
Definition remove_producers_batch (db : Db) (batch : WriteBatch) (anchor : bytes) (blocks : list bytes) : WriteBatch :=
  let before := get_producers db anchor in
  let producers := filter (λ p, p ∉ blocks) before in
  if (length producers =? length before)%nat then batch
  else match producers with
       | [] => batch ++ [Delete ShieldedAnchorProducers anchor]
       | _ => set_producers_batch batch anchor producers
       end.
Definition iter_all (db : Db) : list (bytes * bytes) := '(anchor, producers) ← iter (db ShieldedAnchorProducers); pair anchor <$> producers.
End AnchorProducers.

Module AnchorBlocks.
Definition get (db : Db) (anchor : bytes) : option bytes := db ShieldedAnchors !! anchor.
Definition set_batch (batch : WriteBatch) (anchor block : bytes) : WriteBatch := batch ++ [Put ShieldedAnchors anchor block].
Definition delete_batch (batch : WriteBatch) (anchor : bytes) : WriteBatch := batch ++ [Delete ShieldedAnchors anchor].
Definition delete_all_batch (batch : WriteBatch) : WriteBatch := batch ++ [DeleteAll ShieldedAnchors].
Definition iter_all (db : Db) : list (bytes * bytes) := iter (db ShieldedAnchors).
End AnchorBlocks.

Module ScanStore.
Definition get (db : Db) (block : bytes) : option ShieldedScanBlockData := db ShieldedScanBlock !! block.
Definition set_batch (batch : WriteBatch) (block : bytes) (data : ShieldedScanBlockData) : WriteBatch := batch ++ [Put ShieldedScanBlock block data].
Definition delete_batch (batch : WriteBatch) (block : bytes) : WriteBatch := batch ++ [Delete ShieldedScanBlock block].
End ScanStore.
