(* ===== verification/ShieldedManager.v ===== *)
(** The driver of the shielded state over its stores (consensus/src/processes/shielded.rs).

    [ShieldedStateManager] over the database of [ShieldedStores]: the transition of a
    chain block against its selected parent's snapshots ([compute]), its commit
    ([persist]), the nullifier moves of a reorganization, the partition of candidate
    transactions, history replay, the transfer of the state at a pruning point, and
    pruning.  It composes the transition of [ShieldedState], the accumulators of [MuHash]
    and [Burn], the commitments of [StateRoot] and the tree of [Tree].  The crates behind
    [OrchardTree], the hash functions and the modular inverse are parameters. *)
From stdpp Require Import base gmap list sorting.
From S2P Require Import Prelude Turnstile Nullifier Burn AnchorLog Tree Bundle ShieldedState StateRoot Tx Limbs MuHash ShieldedStores.

Definition MAX_IMPORTED_IN_WINDOW_ANCHORS : Z := 2 ^ 18.
Definition MAX_IMPORTED_BURN_RECEIPTS : Z := 2 ^ 20.
(** [CompactActionRecord::SERIALIZED_LEN]: nullifier, commitment, ephemeral key, the first 52 bytes of the ciphertext. *)
Definition COMPACT_ACTION_LEN : nat := 148.

(** The hash of the empty accumulator (crypto/muhash/src/lib.rs). *)
Definition EMPTY_MUHASH : bytes :=
  [0x54; 0x4e; 0xb3; 0x14; 0x2c; 0x0; 0xf; 0xa; 0xd2; 0xc7; 0x6a; 0xc4; 0x1f; 0x42; 0x22; 0xab; 0xba; 0xba; 0xbe; 0xd8; 0x30; 0xee;
   0xaf; 0xee; 0x4b; 0x6d; 0xc5; 0x6b; 0x52; 0xd5; 0xca; 0xc0].

Section manager.
Context (sha256 : bytes → bytes) (blake2b : bytes → bytes → bytes) {O : OrchardTree} (anchor_to_bytes : Anchor → bytes).
Context (MuHashElementHash : bytes → bytes) (chacha20 : bytes → nat → bytes) (MuHashFinalizeHash : bytes → bytes).
Context (natural_mod_inverse : Z → Z → option Z) (debug_assertions : bool).

Let add_element := add_element MuHashElementHash chacha20.
Let finalize := finalize MuHashFinalizeHash natural_mod_inverse debug_assertions.
Abbreviation absurd := (λ e : Empty_set, match e with end).

(** The hash an accumulator finalizes to; the receiver is a clone. *)
Definition muhash_root {E} (m : MuHash) : res E bytes := map_err absurd (fst <$> finalize m).
Definition muhash_of {E} (m : MuHash) (nfs : list bytes) : res E MuHash := map_err absurd (res_foldl add_element m nfs).

Record ComputedBlockShielded := mk_computed {
  frontier_state : FrontierState;
  supply_totals : SupplyTotals;
  nullifier_muhash : MuHash;
  outcome : BlockShieldedOutcome;
  burns : list ExitReceipt;
  scan_block : option ShieldedScanBlockData;
}.
Definition computed_anchor (c : ComputedBlockShielded) : bytes := anchor_to_bytes (out_anchor (outcome c)).
Definition root_of {E} (anchor : bytes) (m : MuHash) (t : SupplyTotals) (receipts : list ExitReceipt) : res E bytes :=
  nullifier_root ← muhash_root m;
  burn_root ← map_err absurd (Burn.root sha256 (Burn.from_receipts sha256 receipts));
  Ok (shielded_state_root blake2b (mkRootInputs anchor nullifier_root (tot_coinbase t) (tot_fees t) burn_root)).
(** [ComputedBlockShielded::state_root] *)
Definition computed_state_root {E} (c : ComputedBlockShielded) : res E bytes :=
  root_of (computed_anchor c) (nullifier_muhash c) (supply_totals c) (burns c).

Record PruningPointShieldedMetadata := mk_metadata {
  md_frontier : FrontierState;
  md_supply : SupplyTotals;
  md_nullifier_muhash : MuHash;
  md_burns : list ExitReceipt;
  md_state_root : bytes;
  md_in_window_anchors : list (bytes * bytes);
  md_dev_accrued : Z;
  md_in_window_anchor_source_scores : list (bytes * Z);
  md_window_entries : list WindowEntry;
  md_miner_accrual : MinerAccrual;
  md_window_prefix : AnchorLog;
}.

Definition recompute_state_root (frontier : FrontierState) (supply : SupplyTotals) (m : MuHash) (receipts : list ExitReceipt)
  : res TreeStateError bytes :=
  tree ← from_state frontier;
  root_of (anchor_to_bytes (tree_anchor tree)) m supply receipts.

Definition empty_state_root : exec bytes :=
  match recompute_state_root TreeStore.frontier_default totals_default muhash_new [] with Ok r => Ok r | _ => Panic end.

Inductive ShieldedManagerError :=
  | StateError (e : ShieldedStateError)
  | MalformedCoinbaseNote
  | StoreErr (e : StoreError).

Inductive ReplayError :=
  | ReplaySource
  | ReplayData (e : TreeStateError).

(** [LayeredNullifierSet] *)
Record LayeredNullifierSet := mk_layered { ls_store : Db; ls_pending : MemNullifierSet }.
#[export] Instance layered_contains : NullifierSet LayeredNullifierSet := λ s nf,
  Nullifier.contains (ls_pending s) nf || NullifierSet_.contains (ls_store s) nf.

Record PartitionOutcome := mk_partition { anchor_ok : bool; conflict_ok : bool }.
Definition kept (o : PartitionOutcome) : bool := anchor_ok o && conflict_ok o.

(** ** Reads *)

Definition window_at (db : Db) (block : bytes) : option AnchorLog := AnchorWindow.window db block.

(** A persisted frontier that does not decode is a panic. *)
Definition load_tree {E} (db : Db) (block : bytes) : res E GlobalTree :=
  match from_state (TreeStore.get db block) with Ok t => Ok t | _ => Panic end.
Definition load_supply (db : Db) (block : bytes) : SupplyLedger :=
  let t := SupplyStore.get db block in Ledger.from_totals (tot_coinbase t) (tot_fees t).
Definition load_burns (db : Db) (block : bytes) : BurnAccumulator := Burn.from_receipts sha256 (BurnStore.get db block).

Definition anchor_at {E} (db : Db) (block : bytes) : res E bytes :=
  tree ← load_tree db block; Ok (anchor_to_bytes (tree_anchor tree)).
Definition own_anchor_of {E} (db : Db) (block : bytes) : res E (option bytes) :=
  match TreeStore.get_present db block with
  | None => Ok None
  | Some s => match from_state s with Ok t => Ok (Some (anchor_to_bytes (tree_anchor t))) | _ => Panic end
  end.

Definition state_root_at {E} (db : Db) (block : bytes) : res E bytes :=
  tree ← load_tree db block;
  root_of (anchor_to_bytes (tree_anchor tree)) (MuHashStore.get db block) (SupplyStore.get db block) (BurnStore.get db block).

Definition miner_accrual_ref (slot : MinerAccrual) : MinerAccrualRef :=
  mkMinerAccrualRef (spk_version (acc_spk slot)) (spk_script (acc_spk slot)) (acc_amount slot).

Definition state_root_v1_at (db : Db) (block : bytes) (is_genesis : bool) : StoreResult bytes :=
  root0 ← state_root_at db block;
  window ← match window_at db block with
           | Some w => Ok w
           | None => if is_genesis then Ok Log.default_log else Err DataInconsistency
           end;
  let slot := MinerAccrualStore.get db block in
  Ok (shielded_state_root_v1 blake2b root0 (DevAccruedStore.get db block) (Log.commitment blake2b window) (miner_accrual_ref slot)).

(** ** The transition *)

Definition compute (db : Db) (selected_parent : bytes) (coinbase : option CoinbaseMint) (txs : list ShieldedTx)
  : res ShieldedManagerError ComputedBlockShielded :=
  tree ← load_tree db selected_parent;
  let supply := load_supply db selected_parent in
  let burns := load_burns db selected_parent in
  let finalized := mk_layered db MemNullifierSet_ops.new in
  '(outcome, tree, supply, burns) ← map_err StateError (apply_chain_block_to sha256 finalized tree supply coinbase txs burns);
  muhash ← muhash_of (MuHashStore.get db selected_parent) (out_new_nullifiers outcome);
  Ok (mk_computed (to_state tree) (mk_totals (cumulative_coinbase supply) (cumulative_fees supply)) muhash outcome
        (Burn.receipts burns) None).

Definition persist (db : Db) (batch : WriteBatch) (block : bytes) (computed : ComputedBlockShielded) : StoreResult WriteBatch :=
  let batch :=
    if 0 <? fs_size (frontier_state computed) then
      let batch := TreeStore.set_batch batch block (frontier_state computed) in
      let batch := AnchorBlocks.set_batch batch (computed_anchor computed) block in
      AnchorProducers.add_producer_batch db batch (computed_anchor computed) block
    else batch in
  let t := supply_totals computed in
  let batch := if (0 <? tot_coinbase t) || (0 <? tot_fees t) then SupplyStore.set_batch batch block t else batch in
  let batch := if bool_decide (burns computed = []) then batch else BurnStore.set_batch batch block (burns computed) in
  let nfs := out_new_nullifiers (outcome computed) in
  let batch := if bool_decide (nfs = []) then batch
               else foldl NullifierSet_.insert_batch (NullifierDiffs.set_batch batch block nfs) nfs in
  hash ← muhash_root (nullifier_muhash computed);
  batch ← (if bool_decide (hash = EMPTY_MUHASH) then Ok batch else MuHashStore.set_batch batch block (nullifier_muhash computed));
  Ok (match scan_block computed with Some scan => ScanStore.set_batch batch block scan | None => batch end).

Definition apply_nullifiers_from_store (db : Db) (batch : WriteBatch) (block : bytes) : WriteBatch :=
  foldl NullifierSet_.insert_batch batch (NullifierDiffs.get db block).
Definition revert_nullifiers_from_store (db : Db) (batch : WriteBatch) (block : bytes) : WriteBatch :=
  foldl NullifierSet_.delete_batch batch (NullifierDiffs.get db block).

Definition persist_window (batch : WriteBatch) (block : bytes) (window : AnchorLog) (entry : WindowEntry) (log_before : AnchorLog) : WriteBatch :=
  AnchorWindow.set_window_batch (AnchorWindow.set_entry_batch batch block entry log_before) block window.
Definition set_miner_accrual (batch : WriteBatch) (block : bytes) (slot : MinerAccrual) : WriteBatch :=
  if accrual_is_empty slot then batch else MinerAccrualStore.set_batch batch block slot.
Definition burn_total_at {E} (db : Db) (block : bytes) : res E Z :=
  map_err absurd (res_foldl (λ s r, add_u 128 s (Burn.v r)) 0 (BurnStore.get db block)).

(** ** Partition of the candidates *)

Fixpoint partition_loop (resolver : NullifierConflictResolver LayeredNullifierSet) (anchor_final : ShieldedTx → bool) (txs : list ShieldedTx)
  : list PartitionOutcome :=
  match txs with
  | [] => []
  | stx :: txs =>
      let anchor_ok := bool_decide (tx_nullifiers stx = []) || anchor_final stx in
      if anchor_ok then
        match Resolver.try_accept resolver (tx_nullifiers stx) with
        | Ok resolver => mk_partition true true :: partition_loop resolver anchor_final txs
        | _ => mk_partition true false :: partition_loop resolver anchor_final txs
        end
      else mk_partition false false :: partition_loop resolver anchor_final txs
  end.
Definition partition_applied (db : Db) (txs : list ShieldedTx) (anchor_final : ShieldedTx → bool) : list PartitionOutcome :=
  partition_loop (Resolver.new (mk_layered db MemNullifierSet_ops.new)) anchor_final txs.

(** ** Replay of archived history *)

(** [append] of the replay: the tree and the number of leaves. *)
Definition replay_append (s : GlobalTree * Z) (cmx : bytes) : res ReplayError (GlobalTree * Z) :=
  let '(tree, leaves) := s in
  match cmx_from_bytes cmx with
  | None => Err (ReplayData NonCanonicalNode)
  | Some c =>
      tree ← map_err (λ _, ReplayData Inconsistent) (tree_append tree c);
      leaves ← add_u 64 leaves 1;
      Ok (tree, leaves)
  end.
(** The commitment of a compact action record. *)
Definition record_cmx (rec : bytes) : bytes := take 32 (drop 32 rec).
Definition archived_cmxs (coinbase : list bytes) (accepted : list bytes) : list bytes :=
  coinbase ++ (actions ← accepted; record_cmx <$> chunks_exact COMPACT_ACTION_LEN actions).

(** The checkpoints handed to the callback, and the outcome. *)
Fixpoint replay_loop {L} (s : GlobalTree * Z) (out : list (L * FrontierState)) (blocks : list (res () (option L * list bytes * list bytes)))
  : list (L * FrontierState) * res ReplayError (FrontierState * Z) :=
  match blocks with
  | [] => (out, Ok (to_state s.1, s.2))
  | block :: blocks =>
      match block with
      | Ok (label, coinbase, accepted) =>
          match res_foldl replay_append s (archived_cmxs coinbase accepted) with
          | Ok s => replay_loop s (match label with Some l => out ++ [(l, to_state s.1)] | None => out end) blocks
          | Err e => (out, Err e)
          | Panic => (out, Panic)
          end
      | Err _ => (out, Err ReplaySource)
      | Panic => (out, Panic)
      end
  end.
Definition replay_frontier_streaming_capturing {L} (blocks : list (res () (option L * list bytes * list bytes)))
  : list (L * FrontierState) * res ReplayError (FrontierState * Z) := replay_loop (tree_new, 0) [] blocks.
Definition replay_frontier_streaming (blocks : list (res () (list bytes * list bytes))) : res ReplayError (FrontierState * Z) :=
  (replay_frontier_streaming_capturing (L := ())
    ((λ b, match b with Ok (c, a) => Ok (None, c, a) | Err e => Err e | Panic => Panic end) <$> blocks)).2.

(** ** Nullifier sets against their snapshots *)

Definition set_matches_snapshot {E} (db : Db) (set : list bytes) (block : bytes) : res E bool :=
  acc ← muhash_of muhash_new set;
  h ← muhash_root acc;
  h' ← muhash_root (MuHashStore.get db block);
  Ok (bool_decide (h = h')).
Definition global_set_matches_snapshot {E} (db : Db) (block : bytes) : res E (bool * Z) :=
  ok ← set_matches_snapshot db (NullifierSet_.iter_all db) block;
  Ok (ok, Zlength (NullifierSet_.iter_all db)).

Definition anchors_for_blocks (db : Db) (blocks : gset bytes) : list (bytes * bytes) :=
  (foldl (λ '(seen, out) '(anchor, source),
     if bool_decide (source ∈ blocks) && negb (bool_decide ((anchor, source) ∈ (seen : gset (bytes * bytes))))
     then ({[(anchor, source)]} ∪ seen, out ++ [(anchor, source)]) else (seen, out))
   (∅, []) (AnchorProducers.iter_all db ++ AnchorBlocks.iter_all db)).2.

Definition subtract_nullifier_diffs (db : Db) (set : list bytes) (post_blocks : list bytes) : list bytes :=
  let post : gset bytes := foldl (λ post block, list_to_set (NullifierDiffs.get db block) ∪ post) ∅ post_blocks in
  if bool_decide (post = ∅) then set else filter (λ nf, nf ∉ post) set.

(** ** Pruning *)

Definition prune_block_snapshots (db : Db) (batch : WriteBatch) (block : bytes) (keep_checkpoint : bool) (blue_score : option Z) : WriteBatch :=
  let batch := match blue_score with
    | Some blue => match from_state (TreeStore.get db block) with
                   | Ok tree => AnchorGcQueue.enqueue_batch batch blue (anchor_to_bytes (tree_anchor tree)) block
                   | _ => batch
                   end
    | None => batch end in
  let batch := SupplyStore.delete_batch batch block in
  let batch := MuHashStore.delete_batch batch block in
  let batch := BurnStore.delete_batch batch block in
  let batch := DevAccruedStore.delete_batch batch block in
  let batch := MinerAccrualStore.delete_batch batch block in
  let batch := AnchorWindow.delete_window_batch batch block in
  let batch := NullifierDiffs.delete_batch batch block in
  if keep_checkpoint then batch else TreeStore.delete_batch batch block.

Definition gc_one (db : Db) (s : WriteBatch * gmap bytes (list bytes)) (item : Z * bytes * bytes) : WriteBatch * gmap bytes (list bytes) :=
  let '(batch, removals) := s in
  let '(blue, anchor, block) := item in
  let batch := if bool_decide (AnchorBlocks.get db anchor = Some block) then AnchorBlocks.delete_batch batch anchor else batch in
  let removals := <[anchor := default [] (removals !! anchor) ++ [block]]> removals in
  let batch := AnchorWindow.delete_entry_batch batch block in
  let batch := SourceScores.delete_batch batch block in
  (AnchorGcQueue.delete_batch batch blue anchor block, removals).
Definition gc_aged_anchors (db : Db) (batch : WriteBatch) (pp_blue_score max_age : Z) (cap : nat) : WriteBatch * Z :=
  let margin := saturating_mul 64 max_age 2 in
  let limit := saturating_sub pp_blue_score margin in
  if limit =? 0 then (batch, 0)
  else
    let aged := AnchorGcQueue.peek_upto db limit cap in
    let '(batch, removals) := foldl (gc_one db) (batch, ∅) aged in
    let batch := foldl (λ batch '(anchor, blocks), AnchorProducers.remove_producers_batch db batch anchor blocks) batch
                   (iter (t := ShieldedAnchorProducers) removals) in
    (batch, Zlength aged).

(** ** The state at a pruning point *)

Definition export_pruning_point_shielded (db : Db) (block : bytes) : StoreResult (option PruningPointShieldedMetadata) :=
  let frontier := TreeStore.get db block in
  if fs_size frontier =? 0 then Ok None
  else
    let supply := SupplyStore.get db block in
    let m := MuHashStore.get db block in
    let receipts := BurnStore.get db block in
    state_root ← map_err (λ _, DataInconsistency) (recompute_state_root frontier supply m receipts);
    Ok (Some (mk_metadata frontier supply m receipts state_root [] (DevAccruedStore.get db block) [] []
                (MinerAccrualStore.get db block) Log.default_log)).

(** Why an import is refused. *)
Inductive ImportError :=
  | NotNormalized | TooManyAnchors | TooManyScores | BurnsWhileDisabled | TooManyBurns
  | SetMismatch | MoreNullifiersThanNotes | MalformedFrontier | RootMismatch | BindingMismatch.

Definition verify_pruning_point_shielded (md : PruningPointShieldedMetadata) (nullifiers : list bytes) : res ImportError Z :=
  if negb (is_ok (try_from (md_nullifier_muhash md))) then Err NotNormalized
  else if MAX_IMPORTED_IN_WINDOW_ANCHORS <? Zlength (md_in_window_anchors md) then Err TooManyAnchors
  else if MAX_IMPORTED_IN_WINDOW_ANCHORS <? Zlength (md_in_window_anchor_source_scores md) then Err TooManyScores
  else if negb (bool_decide (md_burns md = [])) && negb BRIDGE_ENABLED then Err BurnsWhileDisabled
  else if MAX_IMPORTED_BURN_RECEIPTS <? Zlength (md_burns md) then Err TooManyBurns
  else
    acc ← muhash_of muhash_new nullifiers;
    h ← muhash_root acc;
    h' ← muhash_root (md_nullifier_muhash md);
    if negb (bool_decide (h = h')) then Err SetMismatch
    else if fs_size (md_frontier md) <? Zlength nullifiers then Err MoreNullifiersThanNotes
    else
      recomputed ← map_err (λ _, MalformedFrontier) (recompute_state_root (md_frontier md) (md_supply md) (md_nullifier_muhash md) (md_burns md));
      if bool_decide (recomputed = md_state_root md) then Ok (Zlength nullifiers) else Err RootMismatch.

Definition verify_import_binding (md : PruningPointShieldedMetadata) (committed_state_root : bytes) : res ImportError () :=
  if bool_decide (md_state_root md = committed_state_root) then Ok () else Err BindingMismatch.

(** The producer lists of the imported anchors, the pruning point's own first. *)
Definition imported_producers (anchor block : bytes) (anchors : list (bytes * bytes)) : gmap bytes (list bytes) :=
  foldl (λ m '(hist_anchor, source),
    let list := default [] (m !! hist_anchor) in
    <[hist_anchor := if bool_decide (source ∈ list) then list else list ++ [source]]> m)
    {[anchor := [block]]} anchors.

Definition seed_pruning_point_shielded (batch : WriteBatch) (block : bytes) (md : PruningPointShieldedMetadata) (nullifiers : list bytes)
  : StoreResult WriteBatch :=
  let batch := TreeStore.set_batch batch block (md_frontier md) in
  tree ← map_err (λ _, DataInconsistency) (from_state (md_frontier md));
  let anchor := anchor_to_bytes (tree_anchor tree) in
  let batch := AnchorBlocks.set_batch batch anchor block in
  let batch := foldl (λ batch '(hist_anchor, source), AnchorBlocks.set_batch batch hist_anchor source) batch (md_in_window_anchors md) in
  let batch := foldl (λ batch '(root, list), AnchorProducers.set_producers_batch batch root list) batch
                 (iter (t := ShieldedAnchorProducers) (imported_producers anchor block (md_in_window_anchors md))) in
  let batch := foldl (λ batch '(source, score), SourceScores.set_batch batch source score) batch (md_in_window_anchor_source_scores md) in
  let scores : gmap bytes Z := foldl (λ m '(source, score), <[source := score]> m) ∅ (md_in_window_anchor_source_scores md) in
  let batch := foldl (λ batch '(hist_anchor, source),
                 match scores !! source with Some score => AnchorGcQueue.enqueue_batch batch score hist_anchor source | None => batch end)
                 batch (md_in_window_anchors md) in
  let t := md_supply md in
  let batch := if (0 <? tot_coinbase t) || (0 <? tot_fees t) then SupplyStore.set_batch batch block t else batch in
  let batch := if bool_decide (md_burns md = []) then batch else BurnStore.set_batch batch block (md_burns md) in
  hash ← muhash_root (md_nullifier_muhash md);
  batch ← (if bool_decide (hash = EMPTY_MUHASH) then Ok batch else MuHashStore.set_batch batch block (md_nullifier_muhash md));
  let batch := DevAccruedStore.set_batch batch block (md_dev_accrued md) in
  let batch := MinerAccrualStore.delete_batch batch block in
  let batch := if accrual_is_empty (md_miner_accrual md) then batch else MinerAccrualStore.set_batch batch block (md_miner_accrual md) in
  Ok (foldl NullifierSet_.insert_batch batch nullifiers).

Definition clear_for_pruning_reimport (db : Db) (batch : WriteBatch) (pruning_point : bytes) : WriteBatch :=
  let batch := foldl NullifierSet_.delete_batch batch (NullifierSet_.iter_all db) in
  let batch := TreeStore.delete_batch batch pruning_point in
  let batch := SupplyStore.delete_batch batch pruning_point in
  let batch := MuHashStore.delete_batch batch pruning_point in
  let batch := BurnStore.delete_batch batch pruning_point in
  let batch := DevAccruedStore.delete_batch batch pruning_point in
  let batch := MinerAccrualStore.delete_batch batch pruning_point in
  let batch := AnchorWindow.delete_window_batch batch pruning_point in
  let batch := AnchorBlocks.delete_all_batch batch in
  let batch := AnchorProducers.delete_all_batch batch in
  SourceScores.delete_all_batch batch.
End manager.
