(* ===== verification/ShieldedSnapshots.v ===== *)
(** What the shielded stores hold for a chain block, and that computing and committing a
    block extends it as the reference transition of [ShieldedState] does. *)
From stdpp Require Import base gmap list sorting.
From S2P Require Import Prelude Turnstile Nullifier Burn AnchorLog Tree Bundle ShieldedState StateRoot Tx Limbs MuHash ShieldedStores ShieldedManager.

(** ** Rows after a batch *)

Lemma write_put_mid db b1 t k v b2 : Forall (λ op, ¬ op_touches t k op) b2 → write db (b1 ++ Put t k v :: b2) t !! k = Some v.
Proof. intros H. rewrite (cons_middle (Put t k v)), app_assoc, write_app, write_other by exact H. apply write_put_last. Qed.
Lemma write_skip db b1 b2 t k : Forall (λ op, ¬ op_touches t k op) b1 → write db (b1 ++ b2) t !! k = write (write db b1) b2 t !! k.
Proof. by rewrite write_app. Qed.

(** The rows of the nullifier set after inserts and deletes. *)
Definition inserts (l : list bytes) : WriteBatch := (λ nf, Put ShieldedNullifiers nf 1) <$> l.
Definition deletes (l : list bytes) : WriteBatch := (λ nf, Delete ShieldedNullifiers nf) <$> l.
Lemma foldl_inserts l batch : foldl NullifierSet_.insert_batch batch l = batch ++ inserts l.
Proof. revert batch. induction l as [|nf l IH]; intros batch; cbn; [by rewrite app_nil_r|]. rewrite IH. unfold NullifierSet_.insert_batch. by rewrite <- app_assoc. Qed.
Lemma foldl_deletes l batch : foldl NullifierSet_.delete_batch batch l = batch ++ deletes l.
Proof. revert batch. induction l as [|nf l IH]; intros batch; cbn; [by rewrite app_nil_r|]. rewrite IH. unfold NullifierSet_.delete_batch. by rewrite <- app_assoc. Qed.
Lemma inserts_other l t k : t ≠ ShieldedNullifiers → Forall (λ op, ¬ op_touches t k op) (inserts l).
Proof. intros Ht. apply Forall_fmap, Forall_true. intros nf [H _]. by cbn in H. Qed.
Lemma deletes_other l t k : t ≠ ShieldedNullifiers → Forall (λ op, ¬ op_touches t k op) (deletes l).
Proof. intros Ht. apply Forall_fmap, Forall_true. intros nf [H _]. by cbn in H. Qed.

(** The members of the global set. *)
Definition nullifier_set (db : Db) : gset bytes := dom (db ShieldedNullifiers).
Lemma contains_set db nf : NullifierSet_.contains db nf = bool_decide (nf ∈ nullifier_set db).
Proof. unfold NullifierSet_.contains, nullifier_set. apply bool_decide_ext. by rewrite elem_of_dom. Qed.
Lemma set_inserts l db : nullifier_set (write db (inserts l)) = nullifier_set db ∪ list_to_set l.
Proof.
  revert db. induction l as [|nf l IH]; intros db; cbn; [set_solver|]. unfold write, inserts in IH. rewrite IH. unfold nullifier_set. cbn [apply_op].
  rewrite set_table_same, dom_insert_L. set_solver.
Qed.
Lemma set_deletes l db : nullifier_set (write db (deletes l)) = nullifier_set db ∖ list_to_set l.
Proof.
  revert db. induction l as [|nf l IH]; intros db; cbn; [set_solver|]. unfold write, deletes in IH. rewrite IH. unfold nullifier_set. cbn [apply_op].
  rewrite set_table_same, dom_delete_L. set_solver.
Qed.
Lemma set_other b db : Forall (λ op, op_table op ≠ ShieldedNullifiers) b → nullifier_set (write db b) = nullifier_set db.
Proof.
  intros H. apply set_eq. intros nf. unfold nullifier_set. rewrite !elem_of_dom, write_other; [done|].
  eapply Forall_impl; [exact H|]. intros op Hop [Ht _]. done.
Qed.

(** The stream cipher fills the buffer it is given, and the modular inverse of malachite is exact. *)
Class MuHashLaws (chacha20 : bytes → nat → bytes) (natural_mod_inverse : Z → Z → option Z) : Prop := {
  chacha20_bytes seed n : wf_bytes (chacha20 seed n) ∧ length (chacha20 seed n) = n;
  natural_mod_inverse_some x p y : 0 < x < p → natural_mod_inverse x p = Some y → 0 < y < p ∧ (x * y) mod p = 1;
  natural_mod_inverse_none x p : 0 < x < p → natural_mod_inverse x p = None → Z.gcd x p ≠ 1;
}.

Section accumulator.
Context (MuHashElementHash : bytes → bytes) (chacha20 : bytes → nat → bytes) (MuHashFinalizeHash : bytes → bytes).
Context (natural_mod_inverse : Z → Z → option Z) (debug_assertions : bool).
Context {ML : MuHashLaws chacha20 natural_mod_inverse}.

Abbreviation product := (MuHash.product MuHashElementHash chacha20).

(** An accumulator to which only the elements [nfs] were added. *)
Definition acc_ok (m : MuHash) (nfs : list bytes) : Prop :=
  denominator m = U3072.one ∧ wf_limbs U3072.LIMBS (numerator m) ∧ U3072.cong (limbs_value (numerator m)) (product nfs).
(** The hash it finalizes to. *)
Definition acc_hash (nfs : list bytes) : bytes :=
  let limbs := U3072.into_limbs_asc (product nfs mod U3072.P) in
  MuHashFinalizeHash (U3072.to_le_bytes (limbs ++ drop (length limbs) U3072.zero)).

Lemma acc_ok_new : acc_ok muhash_new [].
Proof. split; [done|]. split; [apply U3072.wf_one|]. cbn [numerator muhash_new]. by rewrite U3072.value_one. Qed.
Lemma acc_ok_ratio m nfs : acc_ok m nfs → ratio m (product nfs) 1.
Proof.
  intros (Hd & Hn & Hc). split; [exact Hn|]. rewrite Hd, U3072.value_one. split; [apply U3072.wf_one|]. split; [apply U3072.unit_one|].
  by rewrite !Z.mul_1_r.
Qed.
Lemma acc_ok_cong m nfs nfs' : acc_ok m nfs → U3072.cong (product nfs) (product nfs') → acc_ok m nfs'.
Proof. intros (Hd & Hn & Hc) H. split; [exact Hd|]. split; [exact Hn|]. by rewrite Hc. Qed.

Lemma acc_of_ok {E} m nfs l : acc_ok m nfs → ∃ m', ShieldedManager.muhash_of MuHashElementHash chacha20 (E := E) m l = Ok m' ∧ acc_ok m' (nfs ++ l).
Proof.
  revert m nfs. induction l as [|nf l IH]; intros m nfs Hm; [exists m; by rewrite app_nil_r|].
  destruct Hm as (Hd & Hn & Hc).
  destruct (U3072.mul_cong _ _ Hn (wf_element MuHashElementHash chacha20 chacha20_bytes nf)) as (n & En & Hwn & Hcn & _).
  destruct (IH {| numerator := n; denominator := denominator m |} (nfs ++ [nf])) as (m' & Em' & Hm').
  { split; [exact Hd|]. split; [exact Hwn|]. cbn [numerator]. rewrite Hcn, Hc. rewrite product_app. apply reflexive_eq.
    unfold MuHash.product at 3. cbn [foldr]. unfold element. ring. }
  exists m'. rewrite <- app_assoc in Hm'. split; [|exact Hm']. unfold ShieldedManager.muhash_of in *. cbn [res_foldl].
  assert (add_element MuHashElementHash chacha20 m nf = Ok {| numerator := n; denominator := denominator m |}) as -> by (unfold add_element; by rewrite En).
  cbn [mbind res_bind]. exact Em'.
Qed.

Lemma acc_root_ok {E} m nfs : acc_ok m nfs → ShieldedManager.muhash_root MuHashFinalizeHash natural_mod_inverse debug_assertions (E := E) m = Ok (acc_hash nfs).
Proof.
  intros Hm. destruct (serialize_ok natural_mod_inverse debug_assertions natural_mod_inverse_some natural_mod_inverse_none _ _ _ (acc_ok_ratio _ _ Hm)) as (v & Ev & Hv & HP & Hc).
  unfold ShieldedManager.muhash_root, finalize. rewrite Ev. cbn [mbind res_bind fmap res_fmap map_err fst]. f_equal. unfold acc_hash.
  pose proof U3072.P_gt1 as HP1. pose proof (Z.mod_pos_bound (product nfs) U3072.P ltac:(lia)) as Hb.
  destruct U3072.P_big as (_ & HPB & _). destruct (U3072.into_limbs_ok (product nfs mod U3072.P) ltac:(lia)) as (_ & Hw & Hvv).
  do 2 f_equal. apply U3072.value_inj; [exact Hv|exact Hw|]. rewrite Hvv. apply U3072.cong_small.
  - split; [apply limbs_value_bound, Hv|exact HP].
  - exact Hb.
  - rewrite U3072.cong_mod, <- Hc, Z.mul_1_r. done.
Qed.
End accumulator.

(** No operation of an explicit batch touches a row. *)
Ltac untouched :=
  repeat match goal with
  | |- Forall _ (_ ++ _) => apply Forall_app; split
  | |- Forall _ (_ :: _) => apply Forall_cons; split; [intros [? ?]; cbn in *; congruence|]
  | |- Forall _ [] => constructor
  | |- Forall _ (inserts _) => apply inserts_other; done
  | |- Forall _ (deletes _) => apply deletes_other; done
  | |- Forall _ (if ?b then _ else _) => destruct b
  | |- Forall _ (match ?o with Some _ => _ | None => _ end) => destruct o
  end.

(** Membership in a list of tables. *)
Ltac in_tables := apply (bool_decide_unpack _); vm_compute; exact I.

(** The getters in terms of their row. *)
Lemma tree_row db b (o : option (row ShieldedTreeFrontier)) : db ShieldedTreeFrontier !! b = o → TreeStore.get db b = default TreeStore.frontier_default o.
Proof. by intros <-. Qed.
Lemma supply_row db b (o : option (row ShieldedSupply)) : db ShieldedSupply !! b = o → SupplyStore.get db b = default totals_default o.
Proof. by intros <-. Qed.
Lemma burns_row db b (o : option (row ShieldedBurns)) : db ShieldedBurns !! b = o → BurnStore.get db b = default [] o.
Proof. by intros <-. Qed.
Lemma diffs_row db b (o : option (row ShieldedNullifierDiffs)) : db ShieldedNullifierDiffs !! b = o → NullifierDiffs.get db b = default [] o.
Proof. by intros <-. Qed.
Lemma muhash_row db b (o : option (row ShieldedNullifierMuHash)) :
  db ShieldedNullifierMuHash !! b = o → MuHashStore.get db b = match o with Some u => from_uint3072 u | None => muhash_new end.
Proof. by intros <-. Qed.
Lemma write_absent db batch t b : Forall (λ op, ¬ op_touches t b op) batch → db t !! b = None → write db batch t !! b = None.
Proof. intros H <-. by apply write_other. Qed.

(** ** Snapshots *)

Section snapshots.
Context (sha256 : bytes → bytes) {O : OrchardTree} {OL : OrchardTreeLaws O} (anchor_to_bytes : Anchor → bytes).
Context (MuHashElementHash : bytes → bytes) (chacha20 : bytes → nat → bytes) (MuHashFinalizeHash : bytes → bytes).
Context (natural_mod_inverse : Z → Z → option Z) (debug_assertions : bool).
Context {ML : MuHashLaws chacha20 natural_mod_inverse}.

Abbreviation acc_ok := (ShieldedSnapshots.acc_ok MuHashElementHash chacha20).
Abbreviation acc_hash := (ShieldedSnapshots.acc_hash MuHashElementHash chacha20 MuHashFinalizeHash).
Abbreviation compute := (ShieldedManager.compute sha256 MuHashElementHash chacha20).
Abbreviation persist := (ShieldedManager.persist anchor_to_bytes MuHashFinalizeHash natural_mod_inverse debug_assertions).

(** The reference state after a chain, with the nullifiers accepted along it. *)
Record reference (st : ShieldedState) (nfs : list bytes) : Prop := {
  ref_tree : wf_tree (st_tree st);
  ref_supply : Ledger.wf (st_supply st);
  ref_no_burns : cumulative_burns (st_supply st) = 0 ∧ cumulative_pegged_in (st_supply st) = 0 ∧ st_burns st = Burn.new;
  ref_set : nf_set (st_nullifiers st) = list_to_set nfs;
  ref_nodup : NoDup nfs;
}.
Definition totals_of (l : SupplyLedger) : SupplyTotals := mk_totals (cumulative_coinbase l) (cumulative_fees l).

(** The rows of a block describe the reference state. *)
Record snapshot (db : Db) (b : bytes) (st : ShieldedState) (nfs : list bytes) : Prop := {
  snap_tree : from_state (TreeStore.get db b) = Ok (st_tree st);
  snap_frontier : TreeStore.get db b = to_state (st_tree st);
  snap_supply : SupplyStore.get db b = totals_of (st_supply st);
  snap_burns : BurnStore.get db b = [];
  snap_muhash : acc_ok (MuHashStore.get db b) nfs;
}.
(** The tables whose rows are per block. *)
Definition block_tables : list Table :=
  [ShieldedTreeFrontier; ShieldedSupply; ShieldedBurns; ShieldedNullifierMuHash; ShieldedNullifierDiffs; ShieldedDevAccrued;
   ShieldedMinerAccrual; ShieldedAnchorWindow; ShieldedWindowEntry; ShieldedScanBlock].
Definition rows_absent (db : Db) (b : bytes) : Prop := ∀ t, t ∈ block_tables → db t !! b = None.
(** Databases that agree on a block. *)
Definition same_rows (db db' : Db) (b : bytes) : Prop := ∀ t, t ∈ block_tables → db t !! b = db' t !! b.

Lemma snapshot_agree db db' b st nfs :
  (∀ t, t ∈ [ShieldedTreeFrontier; ShieldedSupply; ShieldedBurns; ShieldedNullifierMuHash] → db t !! b = db' t !! b) → snapshot db b st nfs → snapshot db' b st nfs.
Proof using OL.
  clear ML. intros H [H1 H1' H2 H3 H4].
  pose proof (H ShieldedTreeFrontier ltac:(in_tables)) as E1. pose proof (H ShieldedSupply ltac:(in_tables)) as E2.
  pose proof (H ShieldedBurns ltac:(in_tables)) as E3. pose proof (H ShieldedNullifierMuHash ltac:(in_tables)) as E4.
  split; [rewrite <- H1|rewrite <- H1'|rewrite <- H2|rewrite <- H3|]; [symmetry..|].
  - exact (f_equal (λ o, from_state (default TreeStore.frontier_default o)) E1).
  - exact (f_equal (default TreeStore.frontier_default) E1).
  - exact (f_equal (default totals_default) E2).
  - exact (f_equal (default []) E3).
  - exact (eq_ind _ (λ o, acc_ok match o with Some u => from_uint3072 u | None => muhash_new end nfs) H4 _ E4).
Qed.
Lemma snapshot_same db db' b st nfs : same_rows db db' b → snapshot db b st nfs → snapshot db' b st nfs.
Proof using OL. clear ML. intros H. apply snapshot_agree. intros t Ht. apply H. repeat (apply elem_of_cons in Ht as [->|Ht]; [in_tables|]). by apply elem_of_nil in Ht. Qed.

(** No receipt leaves a ledger that the totals determine. *)
Lemma load_supply_ok db b st nfs : reference st nfs → snapshot db b st nfs → load_supply db b = st_supply st.
Proof using OL.
  clear ML.
  intros [_ _ (H1 & H2 & _) _] [_ _ Hs _ _]. unfold load_supply. rewrite Hs. unfold totals_of. cbn. destruct (st_supply st). cbn in *. by subst.
Qed.

Lemma no_receipts (l : list ShieldedTx) : Forall (λ tx, tx_burn tx = None) l → receipts_of l = [] ∧ sum_list_Z (burn_value <$> l) = 0.
Proof using OL.
  clear ML.
  induction 1 as [|tx l Htx _ [IH1 IH2]]; [done|]. unfold receipts_of in *. cbn. rewrite Htx. split; [done|].
  change (sum_list_Z (burn_value <$> tx :: l) = 0). rewrite fmap_cons. cbn [sum_list_Z]. unfold burn_value at 1. rewrite Htx. lia.
Qed.

(** The reference transition keeps its invariant on blocks that declare no burn. *)
Lemma reference_step st nfs cb txs st' o :
  reference st nfs → wf_block (cb, txs) → Forall (λ tx, tx_burn tx = None) txs →
  apply_chain_block sha256 st cb txs = Ok (st', o) → reference st' (nfs ++ out_new_nullifiers o).
Proof using OL.
  clear ML.
  intros [Ht Hs (Hb1 & Hb2 & Hb3) Hset Hnd] Hwf Hnb H.
  destruct (apply_chain_block_effect sha256 st (cb, txs) st' o Ht Hs Hwf H) as (Hv & He & Hnf & Ht' & Hs').
  destruct He as [_ E2 E3 E4 _ _ _ E8 _ E10]. cbn [fst snd] in *.
  assert (Forall (λ tx, tx_burn tx = None) (block_kept (st_nullifiers st) txs)) as Hk by by apply select_Forall.
  apply no_receipts in Hk as [Hk1 Hk2]. split; [done|done| | |].
  - rewrite E8, E10, Hk1. unfold supply_after. cbn. rewrite Hb1, Hb2, Hk2. done.
  - by rewrite Hnf, MemNullifierSet_ops.extend_set, Hset, list_to_set_app_L.
  - apply NoDup_app. split; [done|]. split; [|done]. intros nf Hin Hin'. rewrite Forall_forall in E4.
    specialize (E4 nf Hin'). unfold Nullifier.contains, MemNullifierSet_contains in E4. rewrite bool_decide_eq_false, Hset in E4. set_solver.
Qed.

(** What [compute] returns for a block the reference accepts. *)
Record computed_ok (c : ComputedBlockShielded) (st : ShieldedState) (nfs : list bytes) (o : BlockShieldedOutcome) : Prop := {
  comp_tree : frontier_state c = to_state (st_tree st);
  comp_supply : supply_totals c = totals_of (st_supply st);
  comp_muhash : acc_ok (nullifier_muhash c) nfs;
  comp_outcome : outcome c = o;
  comp_burns : burns c = [];
}.

Lemma compute_ok db b st nfs cb txs :
  reference st nfs → snapshot db b st nfs → nullifier_set db = list_to_set nfs → wf_block (cb, txs) → Forall (λ tx, tx_burn tx = None) txs →
  match apply_chain_block sha256 st cb txs with
  | Ok (st', o) => ∃ c, compute db b cb txs = Ok c ∧ computed_ok c st' (nfs ++ out_new_nullifiers o) o ∧ scan_block c = None
  | Err e => compute db b cb txs = Err (StateError e)
  | Panic => False
  end.
Proof.
  intros Href Hsnap Hset Hwf Hnb. pose proof (reference_step st nfs cb txs) as Hstep.
  pose proof (apply_block_cases sha256 (st_nullifiers st) (st_tree st) (st_supply st) cb txs (st_burns st)
    (ref_tree _ _ Href) (ref_supply _ _ Href) (proj1 Hwf) (proj1 (proj2 Hwf)) (proj2 (proj2 Hwf))) as Hcases.
  unfold ShieldedManager.compute, load_tree, apply_chain_block in *. rewrite (snap_tree _ _ _ _ Hsnap). cbn [mbind res_bind].
  rewrite (load_supply_ok _ _ _ _ Href Hsnap). destruct (ref_no_burns _ _ Href) as (_ & _ & Hbr).
  unfold load_burns. rewrite (snap_burns _ _ _ _ Hsnap). change (Burn.from_receipts sha256 []) with Burn.new. rewrite Hbr in *.
  rewrite (apply_same sha256 (mk_layered db MemNullifierSet_ops.new) (st_nullifiers st)); swap 1 2.
  { intros nf. unfold Nullifier.contains at 1, layered_contains. cbn [ls_pending ls_store]. rewrite contains_set, Hset.
    unfold Nullifier.contains, MemNullifierSet_contains. rewrite (ref_set _ _ Href). cbn. done. }
  case_bool_decide as Hv; [|destruct Hcases as [e ->]; done].
  destruct Hcases as (o & t' & s' & br' & E & He). rewrite E in *. cbn [mbind res_bind map_err] in *.
  specialize (Hstep _ _ Href Hwf Hnb eq_refl). destruct (ref_no_burns _ _ Hstep) as (_ & _ & Hbr'). cbn [st_burns] in Hbr'. subst br'.
  destruct (acc_of_ok MuHashElementHash chacha20 natural_mod_inverse (E := ShieldedManagerError) _ _ (out_new_nullifiers o) (snap_muhash _ _ _ _ Hsnap)) as (m & Em & Hm).
  rewrite Em. cbn [mbind res_bind]. eexists. split; [done|]. split; [|done]. by split.
Qed.

(** The operations [persist] stages. *)
Definition persisted_ops (db : Db) (b : bytes) (c : ComputedBlockShielded) (nfs : list bytes) : WriteBatch :=
  let anchor := computed_anchor anchor_to_bytes c in
  let t := supply_totals c in
  let new := out_new_nullifiers (outcome c) in
  (if 0 <? fs_size (frontier_state c)
   then [Put ShieldedTreeFrontier b (frontier_state c); Put ShieldedAnchors anchor b] ++
        (if bool_decide (b ∈ AnchorProducers.get_producers db anchor) then []
         else [Put ShieldedAnchorProducers anchor (AnchorProducers.get_producers db anchor ++ [b])])
   else []) ++
  (if (0 <? tot_coinbase t) || (0 <? tot_fees t) then [Put ShieldedSupply b t] else []) ++
  (if bool_decide (new = []) then [] else Put ShieldedNullifierDiffs b new :: inserts new) ++
  (if bool_decide (acc_hash nfs = EMPTY_MUHASH) then [] else [Put ShieldedNullifierMuHash b (numerator (nullifier_muhash c))]) ++
  match scan_block c with Some scan => [Put ShieldedScanBlock b scan] | None => [] end.

Lemma persist_shape db batch b c st nfs o : computed_ok c st nfs o → persist db batch b c = Ok (batch ++ persisted_ops db b c nfs).
Proof.
  intros [_ _ Hm _ Hb]. unfold ShieldedManager.persist, persisted_ops. rewrite Hb. rewrite (bool_decide_eq_true_2 ([] = [])) by done.
  rewrite (acc_root_ok MuHashElementHash chacha20 MuHashFinalizeHash natural_mod_inverse debug_assertions _ _ Hm). cbn [mbind res_bind].
  assert (∀ batch, MuHashStore.set_batch batch b (nullifier_muhash c) = Ok (batch ++ [Put ShieldedNullifierMuHash b (numerator (nullifier_muhash c))])) as Hset.
  { intros bt. unfold MuHashStore.set_batch, try_from. rewrite bool_decide_eq_true_2 by apply Hm. done. }
  set (new := out_new_nullifiers (outcome c)). rewrite foldl_inserts.
  unfold TreeStore.set_batch, AnchorBlocks.set_batch, AnchorProducers.add_producer_batch, AnchorProducers.set_producers_batch,
    SupplyStore.set_batch, NullifierDiffs.set_batch, ScanStore.set_batch.
  repeat (case_match || case_bool_decide); rewrite ?Hset; cbn [mbind res_bind]; rewrite ?app_nil_l, ?app_nil_r, <- ?app_assoc; cbn [app]; rewrite <- ?app_assoc; done.
Qed.

Lemma empty_tree t : wf_tree t → fs_size (to_state t) <= 0 → t = tree_new.
Proof using OL.
  clear ML.
  intros Hwf Hs. unfold wf_tree, to_state in *. destruct (f_value (frontier t)) as [[[p l] os]|] eqn:E.
  - cbn in Hs. apply f_value_some in E as (Hp & Hl & _). unfold leaves in *. lia.
  - apply f_value_none in E. destruct t as [f sz]. cbn in *. subst f. unfold tree_new. unfold leaves in Hwf. cbn in Hwf. rewrite f_leaves_empty in Hwf. by destruct Hwf as [-> _].
Qed.

Lemma to_state_new : to_state tree_new = TreeStore.frontier_default.
Proof using OL. clear ML. unfold to_state, tree_new. cbn [frontier]. by rewrite f_value_empty. Qed.

(** The rows of a freshly committed block. *)
Lemma persisted_snapshot db b c st nfs o :
  computed_ok c st nfs o → rows_absent db b → wf_tree (st_tree st) → Ledger.wf (st_supply st) →
  (acc_hash nfs = EMPTY_MUHASH → U3072.cong 1 (product MuHashElementHash chacha20 nfs)) →
  snapshot (write db (persisted_ops db b c nfs)) b st nfs.
Proof.
  intros [Ht Hs Hm Ho Hb] Habs Hwf Hws Hempty. unfold persisted_ops. set (anchor := computed_anchor anchor_to_bytes c). set (new := out_new_nullifiers (outcome c)).
  match goal with |- snapshot ?db' _ _ _ => assert (TreeStore.get db' b = to_state (st_tree st)) as Hf end.
  { destruct (Z.ltb_spec 0 (fs_size (frontier_state c))) as [Hpos|Hneg].
    - rewrite (tree_row _ _ (Some (frontier_state c))) by (cbn [app]; apply (write_put_mid db []); untouched). exact Ht.
    - rewrite (tree_row _ _ None) by (apply write_absent; [untouched|apply Habs; in_tables]). rewrite Ht in Hneg. rewrite (empty_tree _ Hwf Hneg), to_state_new. done. }
  split; [rewrite Hf; by apply state_roundtrip|exact Hf|clear Hf..].
  - rewrite Hs. destruct ((0 <? _) || (0 <? _)) eqn:Hz.
    + erewrite supply_row by (cbn [app]; apply write_put_mid; untouched). done.
    + rewrite (supply_row _ _ None) by (apply write_absent; [untouched|apply Habs; in_tables]). apply orb_false_iff in Hz as [H1%Z.ltb_ge H2%Z.ltb_ge].
      unfold totals_of in *. cbn in *. destruct Hws as (Hw1 & Hw2 & _). unfold is_uint, totals_default in *. f_equal; lia.
  - by rewrite (burns_row _ _ None) by (apply write_absent; [untouched|apply Habs; in_tables]).
  - destruct (bool_decide_reflect (acc_hash nfs = EMPTY_MUHASH)) as [He|He].
    + rewrite (muhash_row _ _ None) by (apply write_absent; [untouched|apply Habs; in_tables]). eapply acc_ok_cong; [apply acc_ok_new|]. exact (Hempty He).
    + rewrite !app_assoc, <- (app_assoc _ [_]). erewrite muhash_row by (apply write_put_mid; untouched). destruct Hm as (Hd & Hn & Hc). by split.
Qed.
Lemma persisted_diff db b c st nfs o : computed_ok c st nfs o → rows_absent db b →
  NullifierDiffs.get (write db (persisted_ops db b c nfs)) b = out_new_nullifiers o.
Proof.
  intros [_ _ _ Ho _] Habs. unfold persisted_ops. rewrite Ho. destruct (bool_decide_reflect (out_new_nullifiers o = [])) as [Hn|Hn].
  - rewrite (diffs_row _ _ None) by (apply write_absent; [untouched|apply Habs; in_tables]). by rewrite Hn.
  - rewrite (app_assoc _ (if (_ || _) then _ else _)). cbn [app]. by erewrite diffs_row by (apply write_put_mid; untouched).
Qed.
Lemma persisted_scan db b c nfs : rows_absent db b → ScanStore.get (write db (persisted_ops db b c nfs)) b = scan_block c.
Proof.
  intros Habs. unfold persisted_ops, ScanStore.get. destruct (scan_block c) as [scan|].
  - rewrite !app_assoc. apply (write_put_last db _ ShieldedScanBlock b (scan : row ShieldedScanBlock)).
  - refine (write_absent _ _ ShieldedScanBlock b _ _); [untouched|apply Habs; in_tables].
Qed.
Lemma persisted_other db b c nfs b' : b' ≠ b → same_rows db (write db (persisted_ops db b c nfs)) b'.
Proof.
  intros Hb t Ht. unfold persisted_ops. rewrite write_other; [done|]. unfold block_tables in Ht.
  repeat (apply elem_of_cons in Ht as [->|Ht]; [untouched|]). by apply elem_of_nil in Ht.
Qed.
Lemma persisted_producers db b c nfs a :
  AnchorProducers.get_producers (write db (persisted_ops db b c nfs)) a =
  AnchorProducers.get_producers db a ++
    (if bool_decide (a = computed_anchor anchor_to_bytes c ∧ 0 < fs_size (frontier_state c) ∧ b ∉ AnchorProducers.get_producers db a) then [b] else []).
Proof.
  clear ML. unfold persisted_ops. set (anchor := computed_anchor anchor_to_bytes c).
  assert (∀ db' (o : option (row ShieldedAnchorProducers)), db' ShieldedAnchorProducers !! a = o → AnchorProducers.get_producers db' a = default [] o) as Hrow by by intros ? ? <-.
  destruct (Z.ltb_spec 0 (fs_size (frontier_state c))) as [Hpos|Hneg]; cycle 1.
  { rewrite (bool_decide_eq_false_2 (a = anchor ∧ _)), app_nil_r by (intros (_ & ? & _); lia). rewrite (Hrow _ (db ShieldedAnchorProducers !! a)); [done|]. apply write_other. untouched. }
  destruct (decide (a = anchor)) as [->|Ha]; cycle 1.
  { rewrite (bool_decide_eq_false_2 (a = anchor ∧ _)), app_nil_r by (intros [? _]; done). rewrite (Hrow _ (db ShieldedAnchorProducers !! a)); [done|]. apply write_other. untouched. }
  destruct (bool_decide_reflect (b ∈ AnchorProducers.get_producers db anchor)) as [Hb|Hb].
  { rewrite (bool_decide_eq_false_2 (anchor = anchor ∧ _)) by (intros (_ & _ & Hnb); exact (Hnb Hb)). etrans; [apply (Hrow _ (db ShieldedAnchorProducers !! anchor)); apply write_other; untouched|by rewrite app_nil_r]. }
  rewrite (bool_decide_eq_true_2 (anchor = anchor ∧ _)) by done. rewrite <- app_assoc. cbn [app]. erewrite Hrow by (apply (write_put_mid db [_; _]); untouched). done.
Qed.
Lemma persisted_latest db b c nfs a :
  AnchorBlocks.get (write db (persisted_ops db b c nfs)) a =
  if bool_decide (a = computed_anchor anchor_to_bytes c ∧ 0 < fs_size (frontier_state c)) then Some b else AnchorBlocks.get db a.
Proof.
  clear ML sha256. unfold persisted_ops, AnchorBlocks.get. set (anchor := computed_anchor anchor_to_bytes c).
  destruct (bool_decide_reflect (a = anchor ∧ 0 < fs_size (frontier_state c))) as [Hd|Hd].
  - destruct Hd as [-> Hpos%Z.ltb_lt]. rewrite Hpos, <- app_assoc. cbn [app]. refine (write_put_mid db [_] ShieldedAnchors anchor (b : row ShieldedAnchors) _ _). case_bool_decide; untouched.
  - refine (write_other _ _ ShieldedAnchors a _). destruct (Z.ltb_spec 0 (fs_size (frontier_state c))); [|untouched]. assert (a ≠ anchor) by naive_solver. untouched.
Qed.
Lemma persisted_untouched db b c nfs t k : t ∉ [ShieldedTreeFrontier; ShieldedAnchors; ShieldedAnchorProducers; ShieldedSupply; ShieldedNullifierDiffs;
  ShieldedNullifiers; ShieldedNullifierMuHash; ShieldedScanBlock] → write db (persisted_ops db b c nfs) t !! k = db t !! k.
Proof. clear ML. intros Ht. unfold persisted_ops. apply write_other. repeat (apply not_elem_of_cons in Ht as [? Ht]). untouched. Qed.
Lemma persisted_set db b c st nfs o : computed_ok c st nfs o →
  nullifier_set (write db (persisted_ops db b c nfs)) = nullifier_set db ∪ list_to_set (out_new_nullifiers o).
Proof.
  clear ML sha256.
  intros [_ _ _ Ho _]. unfold persisted_ops. rewrite Ho, !write_app.
  assert (∀ (x : bool) db op, op_table op ≠ ShieldedNullifiers → nullifier_set (write db (if x then [op] else [])) = nullifier_set db) as Hone.
  { intros x d op Hop. apply set_other. destruct x; by repeat constructor. }
  rewrite set_other by (destruct (scan_block c); by repeat constructor).
  rewrite set_other by (case_bool_decide; by repeat constructor).
  transitivity (nullifier_set db ∪ list_to_set (out_new_nullifiers o)); [|done].
  assert (∀ d, nullifier_set (write d (if bool_decide (out_new_nullifiers o = []) then []
    else Put ShieldedNullifierDiffs b (out_new_nullifiers o) :: inserts (out_new_nullifiers o))) = nullifier_set d ∪ list_to_set (out_new_nullifiers o)) as ->.
  { intros d. case_bool_decide as Hn; [rewrite Hn; cbn; set_solver|]. change (Put ?t ?k ?v :: ?l) with ([Put t k v] ++ l). rewrite write_app, set_inserts. done. }
  f_equal. rewrite Hone by done. apply set_other. case_match; [|constructor]. apply Forall_app. split; [by repeat constructor|].
  case_bool_decide; by repeat constructor.
Qed.
End snapshots.

(** ** The partition of the candidates and the transition agree *)

Section partition.
Context {O : OrchardTree}.

Definition spend_ok (anchor_final : ShieldedTx → bool) (tx : ShieldedTx) : bool := bool_decide (tx_nullifiers tx = []) || anchor_final tx.
Definition final_spends (anchor_final : ShieldedTx → bool) (txs : list ShieldedTx) : list ShieldedTx :=
  List.filter (spend_ok anchor_final) txs.

Lemma partition_loop_select r f txs :
  select txs (kept <$> partition_loop r f txs) = select (final_spends f txs) (Resolver.run r (tx_nullifiers <$> final_spends f txs)).2.
Proof.
  revert r. induction txs as [|tx txs IH]; intros r; [done|]. cbn [partition_loop final_spends List.filter].
  change (bool_decide (tx_nullifiers tx = []) || f tx) with (spend_ok f tx). destruct (spend_ok f tx); [|cbn; apply IH].
  rewrite fmap_cons. cbn [Resolver.run].
  destruct (Resolver.try_accept r (tx_nullifiers tx)) as [r'|e|]; cbn [fmap list_fmap select kept anchor_ok conflict_ok andb];
    [rewrite IH; by destruct (Resolver.run r' _)|rewrite IH; by destruct (Resolver.run r _)..].
Qed.

(** Resolving the survivors again keeps them all. *)
Lemma run_survivors {S} `{NullifierSet S} (r : NullifierConflictResolver S) (txs : list ShieldedTx) :
  let '(r', fl) := Resolver.run r (tx_nullifiers <$> txs) in
  Resolver.run r (tx_nullifiers <$> select txs fl) = (r', replicate (length (select txs fl)) true).
Proof.
  revert r. induction txs as [|tx txs IH]; intros r; [done|]. rewrite fmap_cons. cbn [Resolver.run].
  destruct (Resolver.try_accept r (tx_nullifiers tx)) as [r'|e|] eqn:E.
  - specialize (IH r'). destruct (Resolver.run r' (tx_nullifiers <$> txs)) as [r'' fl]. cbn [select]. rewrite fmap_cons. cbn [Resolver.run length replicate].
    by rewrite E, IH.
  - specialize (IH r). destruct (Resolver.run r (tx_nullifiers <$> txs)) as [r'' fl]. cbn [select]. exact IH.
  - specialize (IH r). destruct (Resolver.run r (tx_nullifiers <$> txs)) as [r'' fl]. cbn [select]. exact IH.
Qed.
Lemma select_true {A} (l : list A) : select l (replicate (length l) true) = l.
Proof. induction l as [|x l IH]; [done|]. cbn. by rewrite IH. Qed.
Lemma block_kept_idemp {S} `{NullifierSet S} (fin : S) txs : block_kept fin (block_kept fin txs) = block_kept fin txs.
Proof.
  unfold block_kept. pose proof (run_survivors (Resolver.new fin) txs) as H1. destruct (Resolver.run _ (tx_nullifiers <$> txs)) as [r' fl]. cbn [snd] in *.
  rewrite H1. cbn [snd]. apply select_true.
Qed.
Lemma run_same {S1 S2} `{NullifierSet S1, NullifierSet S2} (r1 : NullifierConflictResolver S1) (r2 : NullifierConflictResolver S2) l :
  same_resolver r1 r2 → (Resolver.run r1 l).2 = (Resolver.run r2 l).2.
Proof.
  revert r1 r2. induction l as [|nfs l IH]; intros r1 r2 Hr; [done|]. cbn [Resolver.run]. pose proof (try_accept_same r1 r2 nfs Hr) as Ht.
  destruct (Resolver.try_accept r1 nfs) as [r1'| |], (Resolver.try_accept r2 nfs) as [r2'| |]; try done.
  - specialize (IH r1' r2' Ht). destruct (Resolver.run r1' l), (Resolver.run r2' l). cbn in *. by f_equal.
  - specialize (IH r1 r2 Hr). destruct (Resolver.run r1 l), (Resolver.run r2 l). cbn in *. by f_equal.
  - specialize (IH r1 r2 Hr). destruct (Resolver.run r1 l), (Resolver.run r2 l). cbn in *. by f_equal.
Qed.

(** The retained transactions, against any set with the same members as the stored one. *)
Lemma partition_kept {S} `{NullifierSet S} (fin : S) db f txs :
  (∀ nf, Nullifier.contains fin nf = NullifierSet_.contains db nf) →
  select txs (kept <$> partition_applied db txs f) = block_kept fin (final_spends f txs).
Proof.
  intros Hfin. unfold partition_applied, block_kept. rewrite partition_loop_select. f_equal. apply run_same. split; [|done].
  intros nf. cbn. rewrite Hfin. done.
Qed.

(** The spends to keep, given the nullifiers spent before: a spend needs a final anchor and nullifiers that are distinct and unspent. *)
Fixpoint spend_mask (spent : list bytes) (anchor_final : ShieldedTx → bool) (txs : list ShieldedTx) : list bool :=
  match txs with
  | [] => []
  | tx :: txs =>
      let keep := spend_ok anchor_final tx && bool_decide (NoDup (tx_nullifiers tx) ∧ Forall (λ nf, nf ∉ spent) (tx_nullifiers tx)) in
      keep :: spend_mask (if keep then spent ++ tx_nullifiers tx else spent) anchor_final txs
  end.
Lemma spend_mask_length spent f txs : length (spend_mask spent f txs) = length txs.
Proof. revert spent. induction txs as [|tx txs IH]; intros spent; [done|]. cbn. by rewrite IH. Qed.
Lemma spend_mask_ext spent (f g : ShieldedTx → bool) txs : (∀ tx, f tx = g tx) → spend_mask spent f txs = spend_mask spent g txs.
Proof. intros Hfg. revert spent. induction txs as [|tx txs IH]; intros spent; [done|]. cbn. unfold spend_ok. by rewrite Hfg, IH. Qed.
Lemma partition_mask r f txs : ∀ spent, (∀ nf, Resolver.spent r nf ↔ nf ∈ spent) → kept <$> partition_loop r f txs = spend_mask spent f txs.
Proof.
  revert r. induction txs as [|tx txs IH]; intros r spent Hs; [done|]. cbn [partition_loop spend_mask].
  change (bool_decide (tx_nullifiers tx = []) || f tx) with (spend_ok f tx). destruct (spend_ok f tx); cbn [andb]; [|rewrite fmap_cons; f_equal; by apply IH].
  assert (Resolver.acceptable r (tx_nullifiers tx) ↔ NoDup (tx_nullifiers tx) ∧ Forall (λ nf, nf ∉ spent) (tx_nullifiers tx)) as Ha.
  { unfold Resolver.acceptable. rewrite !Forall_forall. by setoid_rewrite Hs. }
  destruct (Resolver.try_accept_spec r (tx_nullifiers tx)) as [[Hacc ->]|[Hacc [e ->]]]; rewrite fmap_cons; unfold kept at 1; cbn [anchor_ok conflict_ok andb].
  - rewrite bool_decide_eq_true_2 by by apply Ha. f_equal. apply IH. intros nf. unfold Resolver.spent in *. cbn. rewrite elem_of_app, <- Hs. set_solver.
  - rewrite bool_decide_eq_false_2 by by rewrite <- Ha. f_equal. by apply IH.
Qed.
Lemma partition_applied_mask db f txs nfs : nullifier_set db = list_to_set nfs → kept <$> partition_applied db txs f = spend_mask nfs f txs.
Proof.
  intros Hset. apply partition_mask. intros nf. unfold Resolver.spent. cbn [Resolver.new finalized seen]. unfold Nullifier.contains, layered_contains.
  cbn [ls_pending ls_store]. rewrite contains_set, Hset. unfold Nullifier.contains, MemNullifierSet_contains. rewrite orb_true_iff, !bool_decide_eq_true. set_solver.
Qed.
(** The transition keeps what the mask keeps. *)
Lemma spend_mask_kept (fin : MemNullifierSet) nfs f txs : nf_set fin = list_to_set nfs →
  block_kept fin (select txs (spend_mask nfs f txs)) = select txs (spend_mask nfs f txs).
Proof.
  intros Hfin. set (db := write db_empty (inserts nfs)). assert (nullifier_set db = list_to_set nfs) as Hset.
  { unfold db. rewrite set_inserts. unfold nullifier_set. cbn. set_solver. }
  rewrite <- (partition_applied_mask db f txs nfs Hset), (partition_kept fin); [apply block_kept_idemp|].
  intros nf. rewrite contains_set, Hset. unfold Nullifier.contains, MemNullifierSet_contains. by rewrite Hfin.
Qed.
End partition.
