(* ===== verification/Coinbase.v ===== *)
(** Coinbase issuance (consensus/src/processes/coinbase.rs, consensus/core/src/coinbase.rs).

    [CoinbaseManager]: the subsidy of a block by its DAA score, the expected coinbase of a
    block from the rewards of its mergeset, the dev fee and its accrual, the carried miner
    slot, and the payload codec.  The theorems show that the coinbase pays exactly the
    rewards and what is carried, that the subsidy never rises and never falls below the
    tail, and that the payload round-trips. *)
From stdpp Require Import base gmap list.
From S2P Require Import Prelude Tx TxValidator ShieldedStores.

(** ** Parameters (consensus/core/src/config/params.rs) *)

Definition FORK_NEVER : Z := 2 ^ 64 - 1.
Definition FORK_ALWAYS : Z := 0.
Definition fp_before (p : ForkedParam Z) : Z := if activation p =? FORK_ALWAYS then post p else pre p.
Definition fp_after (p : ForkedParam Z) : Z := if activation p =? FORK_NEVER then pre p else post p.

(** ** Data *)

Record MinerData := mk_miner_data { miner_spk : ScriptPublicKey; extra_data : bytes }.
Record CoinbaseData := mk_coinbase_data { cb_blue_score : Z; cb_subsidy : Z; cb_shielded_commitment : bytes; cb_miner_data : MinerData }.
Record BlockRewardData := mk_reward { rw_subsidy : Z; rw_total_fees : Z; rw_spk : ScriptPublicKey }.
Record CoinbaseTransactionTemplate := mk_template { tpl_tx : Transaction; has_red_reward : bool; dev_accrued : Z; miner_accrual : MinerAccrual }.
(** The part of [GhostdagData] the coinbase reads. *)
Record GhostdagData := mk_ghostdag { gd_blue_score : Z; mergeset_blues : list bytes; mergeset_reds : list bytes }.

Inductive CoinbaseError :=
  | PayloadLenBelowMin (len min : Z)
  | PayloadLenAboveMax (len max : Z)
  | PayloadScriptPublicKeyLenAboveMax (len max : Z)
  | PayloadCantContainScriptPublicKey (len need : Z)
  | AccrualOverflow.

Definition SECONDS_PER_MONTH : Z := 2629800.
Definition SUBSIDY_HALVING_INTERVAL_MONTHS : Z := 3.
Definition LEGACY_MONTHS_PER_HALVING : Z := 12.
Definition REWARD_SCALE_NUM : Z := 3.
Definition REWARD_SCALE_DEN : Z := 22.
Definition TAIL_SUBSIDY_INITIAL_PER_SEC_SOMPI : Z := 600000000.
Definition TAIL_SUBSIDY_FINAL_PER_SEC_SOMPI : Z := 60000000.
Definition TAIL_STEP_DOWN_MONTH : Z := 24.
Definition MIN_PAYLOAD_LENGTH : Z := 8 + 8 + 32 + 2 + 1.
Definition TX_VERSION : Z := 0.
Definition TX_VERSION_TOCCATA : Z := 1.

Definition SUBSIDY_BY_MONTH_TABLE : list Z :=
  [44000000000; 41530469757; 39199543598; 36999442271; 34922823143; 32962755691; 31112698372; 29366476791; 27718263097; 26162556530; 24694165062; 23308188075; 22000000000; 20765234878; 19599771799; 18499721135; 17461411571; 16481377845;
   15556349186; 14683238395; 13859131548; 13081278265; 12347082531; 11654094037; 11000000000; 10382617439; 9799885899; 9249860567; 8730705785; 8240688922; 7778174593; 7341619197; 6929565774; 6540639132; 6173541265; 5827047018;
   5500000000; 5191308719; 4899942949; 4624930283; 4365352892; 4120344461; 3889087296; 3670809598; 3464782887; 3270319566; 3086770632; 2913523509; 2750000000; 2595654359; 2449971474; 2312465141; 2182676446; 2060172230;
   1944543648; 1835404799; 1732391443; 1635159783; 1543385316; 1456761754; 1375000000; 1297827179; 1224985737; 1156232570; 1091338223; 1030086115; 972271824; 917702399; 866195721; 817579891; 771692658; 728380877;
   687500000; 648913589; 612492868; 578116285; 545669111; 515043057; 486135912; 458851199; 433097860; 408789945; 385846329; 364190438; 343750000; 324456794; 306246434; 289058142; 272834555; 257521528;
   243067956; 229425599; 216548930; 204394972; 192923164; 182095219; 171875000; 162228397; 153123217; 144529071; 136417277; 128760764; 121533978; 114712799; 108274465; 102197486; 96461582; 91047609;
   85937500; 81114198; 76561608; 72264535; 68208638; 64380382; 60766989; 57356399; 54137232; 51098743; 48230791; 45523804; 42968750; 40557099; 38280804; 36132267; 34104319; 32190191;
   30383494; 28678199; 27068616; 25549371; 24115395; 22761902; 21484375; 20278549; 19140402; 18066133; 17052159; 16095095; 15191747; 14339099; 13534308; 12774685; 12057697; 11380951;
   10742187; 10139274; 9570201; 9033066; 8526079; 8047547; 7595873; 7169549; 6767154; 6387342; 6028848; 5690475; 5371093; 5069637; 4785100; 4516533; 4263039; 4023773;
   3797936; 3584774; 3383577; 3193671; 3014424; 2845237; 2685546; 2534818; 2392550; 2258266; 2131519; 2011886; 1898968; 1792387; 1691788; 1596835; 1507212; 1422618;
   1342773; 1267409; 1196275; 1129133; 1065759; 1005943; 949484; 896193; 845894; 798417; 753606; 711309; 671386; 633704; 598137; 564566; 532879; 502971;
   474742; 448096; 422947; 399208; 376803; 355654; 335693; 316852; 299068; 282283; 266439; 251485; 237371; 224048; 211473; 199604; 188401; 177827;
   167846; 158426; 149534; 141141; 133219; 125742; 118685; 112024; 105736; 99802; 94200; 88913; 83923; 79213; 74767; 70570; 66609; 62871;
   59342; 56012; 52868; 49901; 47100; 44456; 41961; 39606; 37383; 35285; 33304; 31435; 29671; 28006; 26434; 24950; 23550; 22228;
   20980; 19803; 18691; 17642; 16652; 15717; 14835; 14003; 13217; 12475; 11775; 11114; 10490; 9901; 9345; 8821; 8326; 7858;
   7417; 7001; 6608; 6237; 5887; 5557; 5245; 4950; 4672; 4410; 4163; 3929; 3708; 3500; 3304; 3118; 2943; 2778;
   2622; 2475; 2336; 2205; 2081; 1964; 1854; 1750; 1652; 1559; 1471; 1389; 1311; 1237; 1168; 1102; 1040; 982;
   927; 875; 826; 779; 735; 694; 655; 618; 584; 551; 520; 491; 463; 437; 413; 389; 367; 347;
   327; 309; 292; 275; 260; 245; 231; 218; 206; 194; 183; 173; 163; 154; 146; 137; 130; 122;
   115; 109; 103; 97; 91; 86; 81; 77; 73; 68; 65; 61; 57; 54; 51; 48; 45; 43;
   40; 38; 36; 34; 32; 30; 28; 27; 25; 24; 22; 21; 20; 19; 18; 17; 16; 15;
   14; 13; 12; 12; 11; 10; 10; 9; 9; 8; 8; 7; 7; 6; 6; 6; 5; 5;
   5; 4; 4; 4; 4; 3; 3; 3; 3; 3; 2; 2; 2; 2; 2; 2; 2; 1;
   1; 1; 1; 1; 1; 1; 1; 1; 1; 1; 1; 0].

Record CoinbaseManager := mk_manager {
  coinbase_payload_script_public_key_max_len : Z;
  max_coinbase_payload_len : Z;
  deflationary_phase_daa_score : Z;
  pre_deflationary_phase_base_subsidy : Z;
  bps_history : ForkedParam Z;
  toccata_activation : Z;
  dev_fee_permille : Z;
  dev_fee_recipient : option bytes;
  dev_fee_accrual_activation : Z;
  dev_fee_payout_interval : Z;
  dev_fee_end_activation : Z;
  miner_accrual_payout_interval : Z;
  miner_accrual_activation : Z;
  subsidy_by_month_table_before : list Z;
  subsidy_by_month_table_after : list Z;
  crescendo_activation_daa_score : Z;
}.

(** The division of [div_ceil] panics on zero; the final cast truncates. *)
Definition scaled_subsidy (table_value bps : Z) : exec Z :=
  q ← (if bps =? 0 then Panic else Ok (div_ceil table_value bps));
  p ← mul_u 128 q REWARD_SCALE_NUM;
  Ok (wrap 64 (p / REWARD_SCALE_DEN)).

Fixpoint res_map {E A B} (f : A → res E B) (l : list A) : res E (list B) :=
  match l with [] => Ok [] | x :: l => y ← f x; ys ← res_map f l; Ok (y :: ys) end.

(** [CoinbaseManager::new] *)
Definition manager_new (spk_max_len max_len deflationary base : Z) (bps : ForkedParam Z) (toccata permille : Z) (recipient : option bytes)
    (accrual_activation interval miner_activation miner_interval end_activation : Z) : exec CoinbaseManager :=
  before ← res_map (λ v, scaled_subsidy v (fp_before bps)) SUBSIDY_BY_MONTH_TABLE;
  after ← res_map (λ v, scaled_subsidy v (fp_after bps)) SUBSIDY_BY_MONTH_TABLE;
  Ok (mk_manager spk_max_len max_len deflationary base bps toccata permille recipient accrual_activation (Z.max interval 1)
        end_activation (Z.max miner_interval 1) miner_activation before after (activation bps)).

Section manager.
Context (m : CoinbaseManager).

(** ** Subsidy *)

Definition subsidy_month (daa_score : Z) : exec Z :=
  let deflation := deflationary_phase_daa_score m in
  let crescendo := crescendo_activation_daa_score m in
  let before := fp_before (bps_history m) in
  let after := fp_after (bps_history m) in
  seconds ←
    (if crescendo <? deflation then d ← sub_u daa_score deflation; div_u d after
     else if daa_score <? crescendo then d ← sub_u daa_score deflation; div_u d before
     else
       d0 ← sub_u crescendo deflation; s0 ← div_u d0 before;
       d1 ← sub_u daa_score crescendo; s1 ← div_u d1 after;
       add_u 64 s0 s1);
  p ← mul_u 128 seconds LEGACY_MONTHS_PER_HALVING;
  Ok (wrap 64 (p / (SECONDS_PER_MONTH * SUBSIDY_HALVING_INTERVAL_MONTHS))).

Definition curve_subsidy (daa_score : Z) : exec Z :=
  month ← subsidy_month daa_score;
  let table := if is_active (activation (bps_history m)) daa_score then subsidy_by_month_table_after m else subsidy_by_month_table_before m in
  last ← sub_u (Zlength table) 1;
  unwrap (table !! Z.to_nat (Z.min month last)).

Definition tail_subsidy (daa_score : Z) : exec Z :=
  month ← subsidy_month daa_score;
  p ← mul_u 64 month SUBSIDY_HALVING_INTERVAL_MONTHS;
  let real_month := p / LEGACY_MONTHS_PER_HALVING in
  let per_sec := if real_month <? TAIL_STEP_DOWN_MONTH then TAIL_SUBSIDY_INITIAL_PER_SEC_SOMPI else TAIL_SUBSIDY_FINAL_PER_SEC_SOMPI in
  if fp_after (bps_history m) =? 0 then Panic else Ok (div_ceil per_sec (fp_after (bps_history m))).

Definition calc_block_subsidy (daa_score : Z) : exec Z :=
  if daa_score <? deflationary_phase_daa_score m then Ok (pre_deflationary_phase_base_subsidy m)
  else
    curve ← curve_subsidy daa_score;
    tail ← tail_subsidy daa_score;
    Ok (Z.max curve tail).

(** ** Rewards *)

Definition dev_fee_cut (subsidy : Z) : Z :=
  if bool_decide (is_Some (dev_fee_recipient m)) && (0 <? dev_fee_permille m) then wrap 64 (subsidy * dev_fee_permille m / 1000) else 0.
Definition is_dev_fee_payout (parent_daa_score daa_score : Z) : bool :=
  parent_daa_score / dev_fee_payout_interval m <? daa_score / dev_fee_payout_interval m.

(** The miner's part of a rewarded block, and the dev fee so far. *)
Definition reward_of (ended : bool) (reward : BlockRewardData) (dev_fee_accum : Z) : exec (Z * Z) :=
  let cut := if ended then 0 else dev_fee_cut (rw_subsidy reward) in
  dev_fee_accum ← add_u 64 dev_fee_accum cut;
  kept ← sub_u (rw_subsidy reward) cut;
  r ← add_u 64 kept (rw_total_fees reward);
  Ok (r, dev_fee_accum).

Fixpoint blue_rewards (rewards : gmap bytes BlockRewardData) (non_daa : gset bytes) (ended : bool) (blues : list bytes)
    (payments : list (Z * ScriptPublicKey)) (dev_fee_accum : Z) : exec (list (Z * ScriptPublicKey) * Z) :=
  match blues with
  | [] => Ok (payments, dev_fee_accum)
  | blue :: blues =>
      if bool_decide (blue ∈ non_daa) then blue_rewards rewards non_daa ended blues payments dev_fee_accum
      else
        reward ← unwrap (rewards !! blue);
        '(miner_reward, dev_fee_accum) ← reward_of ended reward dev_fee_accum;
        blue_rewards rewards non_daa ended blues
          (if 0 <? miner_reward then payments ++ [(miner_reward, rw_spk reward)] else payments) dev_fee_accum
  end.

Fixpoint red_rewards (rewards : gmap bytes BlockRewardData) (non_daa : gset bytes) (ended : bool) (reds : list bytes) (red_reward dev_fee_accum : Z)
  : exec (Z * Z) :=
  match reds with
  | [] => Ok (red_reward, dev_fee_accum)
  | red :: reds =>
      reward ← unwrap (rewards !! red);
      '(red_reward, dev_fee_accum) ←
        (if bool_decide (red ∈ non_daa) then r ← add_u 64 red_reward (rw_total_fees reward); Ok (r, dev_fee_accum)
         else
           '(miner_reward, dev_fee_accum) ← reward_of ended reward dev_fee_accum;
           r ← add_u 64 red_reward miner_reward;
           Ok (r, dev_fee_accum));
      red_rewards rewards non_daa ended reds red_reward dev_fee_accum
  end.

Definition output_new (v : Z) (spk : ScriptPublicKey) : TransactionOutput := mk_output v spk None.

Fixpoint accrue_loop (payments : list (Z * ScriptPublicKey)) (slot : MinerAccrual) (outs : list TransactionOutput)
  : res CoinbaseError (list TransactionOutput * MinerAccrual) :=
  match payments with
  | [] => Ok (outs, slot)
  | (v, spk) :: payments =>
      if negb (accrual_is_empty slot) && bool_decide (acc_spk slot = spk) then
        sum ← ok_or (checked_add 64 (acc_amount slot) v) AccrualOverflow;
        accrue_loop payments (mk_accrual (acc_spk slot) sum) outs
      else
        accrue_loop payments (mk_accrual spk v)
          (if accrual_is_empty slot then outs else outs ++ [output_new (acc_amount slot) (acc_spk slot)])
  end.
Definition accrue_miner_rewards (parent : MinerAccrual) (payments : list (Z * ScriptPublicKey)) (payout : bool)
  : res CoinbaseError (list TransactionOutput * MinerAccrual) :=
  '(outs, slot) ← accrue_loop payments parent [];
  if payout && negb (accrual_is_empty slot) then Ok (outs ++ [output_new (acc_amount slot) (acc_spk slot)], accrual_default) else Ok (outs, slot).

(** ** Payload *)

Definition serialize_coinbase_payload (data : CoinbaseData) : res CoinbaseError bytes :=
  let spk := miner_spk (cb_miner_data data) in
  let len := Zlength (spk_script spk) in
  if coinbase_payload_script_public_key_max_len m <? len
  then Err (PayloadScriptPublicKeyLenAboveMax len (coinbase_payload_script_public_key_max_len m))
  else Ok (to_le_bytes 8 (cb_blue_score data) ++ to_le_bytes 8 (cb_subsidy data) ++ cb_shielded_commitment data ++
           to_le_bytes 2 (spk_version spk) ++ to_le_bytes 1 (wrap 8 len) ++ spk_script spk ++ extra_data (cb_miner_data data)).

Definition modify_coinbase_payload (payload : bytes) (miner : MinerData) : res CoinbaseError bytes :=
  let spk := miner_spk miner in
  let len := Zlength (spk_script spk) in
  if coinbase_payload_script_public_key_max_len m <? len
  then Err (PayloadScriptPublicKeyLenAboveMax len (coinbase_payload_script_public_key_max_len m))
  else Ok (take 48 payload ++ to_le_bytes 2 (spk_version spk) ++ to_le_bytes 1 (wrap 8 len) ++ spk_script spk ++ extra_data miner).

(** [PayloadParser::take]: [split_at] panics past the end. *)
Definition payload_take {E} (n : nat) (remaining : bytes) : res E (bytes * bytes) :=
  if (n <=? length remaining)%nat then Ok (take n remaining, drop n remaining) else Panic.

Definition deserialize_coinbase_payload (payload : bytes) : res CoinbaseError CoinbaseData :=
  if Zlength payload <? MIN_PAYLOAD_LENGTH then Err (PayloadLenBelowMin (Zlength payload) MIN_PAYLOAD_LENGTH)
  else if max_coinbase_payload_len m <? Zlength payload then Err (PayloadLenAboveMax (Zlength payload) (max_coinbase_payload_len m))
  else
    '(blue, r) ← payload_take 8 payload;
    '(sub, r) ← payload_take 8 r;
    '(root, r) ← payload_take 32 r;
    '(ver, r) ← payload_take 2 r;
    '(len, r) ← payload_take 1 r;
    let len := from_le_bytes len in
    if coinbase_payload_script_public_key_max_len m <? len
    then Err (PayloadScriptPublicKeyLenAboveMax len (coinbase_payload_script_public_key_max_len m))
    else if Zlength r <? len then Err (PayloadCantContainScriptPublicKey (Zlength payload) (MIN_PAYLOAD_LENGTH + len))
    else
      '(script, r) ← payload_take (Z.to_nat len) r;
      Ok (mk_coinbase_data (from_le_bytes blue) (from_le_bytes sub) root (mk_miner_data (mk_spk (from_le_bytes ver) script) r)).

(** ** The expected coinbase *)

(** What is paid to the dev fund by this block and what is carried. *)
Definition dev_fee_split (ended : bool) (daa_score parent_daa_score dev_accrued_parent dev_fee_accum : Z) : Z * Z :=
  let accrual_active := is_active (dev_fee_accrual_activation m) daa_score in
  let dev_accrued_after := if accrual_active then saturating_add 64 dev_accrued_parent dev_fee_accum else 0 in
  if negb accrual_active then (dev_fee_accum, 0)
  else if ended || is_dev_fee_payout parent_daa_score daa_score then (dev_accrued_after, 0)
  else (0, dev_accrued_after).

Definition expected_coinbase_transaction (daa_score : Z) (miner_data : MinerData) (gd : GhostdagData) (rewards : gmap bytes BlockRewardData)
    (non_daa : gset bytes) (shielded_commitment : bytes) (parent_daa_score dev_accrued_parent : Z) (miner_accrual_parent : MinerAccrual)
  : res CoinbaseError CoinbaseTransactionTemplate :=
  let ended := is_active (dev_fee_end_activation m) daa_score in
  '(payments, dev_fee_accum) ← map_err (λ e : Empty_set, match e with end) (blue_rewards rewards non_daa ended (mergeset_blues gd) [] 0);
  '(red_reward, dev_fee_accum) ← map_err (λ e : Empty_set, match e with end) (red_rewards rewards non_daa ended (mergeset_reds gd) 0 dev_fee_accum);
  let payments := if 0 <? red_reward then payments ++ [(red_reward, miner_spk miner_data)] else payments in
  '(outs, slot) ←
    (if is_active (miner_accrual_activation m) daa_score then
       a ← div_u daa_score (miner_accrual_payout_interval m);
       b ← div_u parent_daa_score (miner_accrual_payout_interval m);
       accrue_miner_rewards miner_accrual_parent payments (b <? a)
     else Ok ((λ p, output_new p.1 p.2) <$> payments, accrual_default));
  let '(dev_fee_paid, dev_accrued_after) := dev_fee_split ended daa_score parent_daa_score dev_accrued_parent dev_fee_accum in
  let outs := match dev_fee_recipient m with
              | Some recipient => if 0 <? dev_fee_paid then outs ++ [output_new dev_fee_paid (mk_spk 0 recipient)] else outs
              | None => outs
              end in
  subsidy ← map_err (λ e : Empty_set, match e with end) (calc_block_subsidy daa_score);
  payload ← serialize_coinbase_payload (mk_coinbase_data (gd_blue_score gd) subsidy shielded_commitment miner_data);
  let tx_version := if is_active (toccata_activation m) daa_score then TX_VERSION_TOCCATA else TX_VERSION in
  Ok (mk_template (mk_tx tx_version [] outs 0 SUBNETWORK_ID_COINBASE 0 payload 0) (0 <? red_reward) dev_accrued_after slot).
End manager.

(** ** The emission schedule *)

(** The scaled table for a block rate. *)
Definition scaled (bps v : Z) : Z := div_ceil v bps * REWARD_SCALE_NUM / REWARD_SCALE_DEN.

Record wf_manager (m : CoinbaseManager) : Prop := {
  wm_permille : 0 <= dev_fee_permille m <= 1000;
  wm_interval : 0 < dev_fee_payout_interval m ∧ 0 < miner_accrual_payout_interval m;
  wm_bps : 0 < fp_before (bps_history m) ∧ 0 < fp_after (bps_history m);
  wm_before : subsidy_by_month_table_before m = scaled (fp_before (bps_history m)) <$> SUBSIDY_BY_MONTH_TABLE;
  wm_after : subsidy_by_month_table_after m = scaled (fp_after (bps_history m)) <$> SUBSIDY_BY_MONTH_TABLE;
  wm_crescendo : crescendo_activation_daa_score m = activation (bps_history m);
  wm_scores : 0 <= deflationary_phase_daa_score m ∧ 0 <= activation (bps_history m);
}.

Lemma table_bounds : Forall (λ v, 0 <= v <= 44000000000) SUBSIDY_BY_MONTH_TABLE.
Proof. apply (bool_decide_unpack _). vm_compute. exact I. Qed.
Lemma table_length : length SUBSIDY_BY_MONTH_TABLE = 426%nat.
Proof. reflexivity. Qed.
(** The table never rises, and every twelve entries it halves up to rounding. *)
Lemma table_steps : ∀ i, (i < 425)%nat → SUBSIDY_BY_MONTH_TABLE !!! S i <= SUBSIDY_BY_MONTH_TABLE !!! i.
Proof.
  assert (Forall (λ i, SUBSIDY_BY_MONTH_TABLE !!! S i <= SUBSIDY_BY_MONTH_TABLE !!! i) (seq 0 425)) as H by (apply (bool_decide_unpack _); vm_compute; exact I).
  intros i Hi. rewrite Forall_forall in H. apply H, elem_of_seq. lia.
Qed.
Lemma table_halves : ∀ i, (i < 414)%nat → -1 <= 2 * SUBSIDY_BY_MONTH_TABLE !!! (i + 12)%nat - SUBSIDY_BY_MONTH_TABLE !!! i <= 1.
Proof.
  assert (Forall (λ i, -1 <= 2 * SUBSIDY_BY_MONTH_TABLE !!! (i + 12)%nat - SUBSIDY_BY_MONTH_TABLE !!! i <= 1) (seq 0 414)) as H
    by (apply (bool_decide_unpack _); vm_compute; exact I).
  intros i Hi. rewrite Forall_forall in H. apply H, elem_of_seq. lia.
Qed.
Lemma table_mono i j : (i <= j)%nat → (j < 426)%nat → SUBSIDY_BY_MONTH_TABLE !!! j <= SUBSIDY_BY_MONTH_TABLE !!! i.
Proof. intros Hij Hj. induction Hij as [|j Hij IH]; [lia|]. etrans; [apply table_steps; lia|]. apply IH. lia. Qed.

Lemma div_ceil_mono a b c : 0 < c → a <= b → div_ceil a c <= div_ceil b c.
Proof. intros Hc H. unfold div_ceil. apply Z.div_le_mono; lia. Qed.
Lemma div_ceil_anti a b c : 0 <= a → 0 < b → b <= c → div_ceil a c <= div_ceil a b.
Proof.
  intros Ha Hb H. unfold div_ceil. replace (a + c - 1) with (a - 1 + 1 * c) by lia. replace (a + b - 1) with (a - 1 + 1 * b) by lia. rewrite !Z.div_add by lia.
  destruct (Z.eq_dec a 0) as [->|]; [|pose proof (Z.div_le_compat_l (a - 1) b c ltac:(lia) ltac:(lia)); lia].
  rewrite <- (Z.div_unique (0 - 1) c (-1) (c - 1)), <- (Z.div_unique (0 - 1) b (-1) (b - 1)) by lia. lia.
Qed.
Lemma div_ceil_nonneg a c : 0 < c → 0 <= a → 0 <= div_ceil a c.
Proof. intros Hc H. unfold div_ceil. apply Z.div_pos; lia. Qed.
Lemma scaled_bounds bps v : 0 < bps → 0 <= v <= 44000000000 → 0 <= scaled bps v <= 6000000000.
Proof.
  intros Hb Hv. unfold scaled, REWARD_SCALE_NUM, REWARD_SCALE_DEN. pose proof (div_ceil_nonneg v bps Hb ltac:(lia)).
  pose proof (div_ceil_anti v 1 bps ltac:(lia) ltac:(lia) ltac:(lia)). assert (div_ceil v 1 = v) by (unfold div_ceil; rewrite Z.div_1_r; lia).
  split; [apply Z.div_pos; lia|]. apply Z.div_le_upper_bound; lia.
Qed.
Lemma scaled_mono bps bps' v v' : 0 < bps → bps <= bps' → 0 <= v → v <= v' → scaled bps' v <= scaled bps v'.
Proof.
  intros Hb Hb' Hv Hvv. unfold scaled, REWARD_SCALE_NUM, REWARD_SCALE_DEN. apply Z.div_le_mono; [lia|]. apply Z.mul_le_mono_nonneg_r; [lia|].
  etrans; [apply (div_ceil_anti v bps bps'); lia|]. by apply div_ceil_mono.
Qed.

Lemma scaled_subsidy_ok bps v : 0 < bps → 0 <= v <= 44000000000 → scaled_subsidy v bps = Ok (scaled bps v).
Proof.
  intros Hb Hv. unfold scaled_subsidy. rewrite (proj2 (Z.eqb_neq bps 0)) by lia. cbn [mbind res_bind].
  pose proof (scaled_bounds bps v Hb Hv) as Hs. pose proof (div_ceil_nonneg v bps Hb ltac:(lia)). pose proof (div_ceil_anti v 1 bps ltac:(lia) ltac:(lia) ltac:(lia)).
  assert (div_ceil v 1 = v) by (unfold div_ceil; rewrite Z.div_1_r; lia).
  rewrite (proj2 (mul_u_ok 128 _ _ _)) by (split; [reflexivity|unfold REWARD_SCALE_NUM; lia]). cbn [mbind res_bind]. unfold wrap, scaled in *. by rewrite Z.mod_small by lia.
Qed.
Lemma res_map_ok {E A B} (f : A → res E B) g l : Forall (λ x, f x = Ok (g x)) l → res_map f l = Ok (g <$> l).
Proof. induction 1 as [|x l Hx _ IH]; [done|]. cbn. rewrite Hx. cbn [mbind res_bind]. rewrite IH. done. Qed.

Lemma manager_new_ok sl ml defl base bps toc permille rcp acc interval mact mint en :
  0 < fp_before bps → 0 < fp_after bps → 0 <= permille <= 1000 → 0 <= defl → 0 <= activation bps →
  ∃ m, manager_new sl ml defl base bps toc permille rcp acc interval mact mint en = Ok m ∧ wf_manager m ∧
    deflationary_phase_daa_score m = defl ∧ bps_history m = bps ∧ pre_deflationary_phase_base_subsidy m = base.
Proof.
  intros Hb Ha Hp Hd Hc. unfold manager_new.
  rewrite (res_map_ok (λ v, scaled_subsidy v (fp_before bps)) (scaled (fp_before bps))) by (eapply Forall_impl; [exact table_bounds|]; intros v Hv; by apply scaled_subsidy_ok). cbn [mbind res_bind].
  rewrite (res_map_ok (λ v, scaled_subsidy v (fp_after bps)) (scaled (fp_after bps))) by (eapply Forall_impl; [exact table_bounds|]; intros v Hv; by apply scaled_subsidy_ok). cbn [mbind res_bind].
  eexists. split; [done|]. split; [|done]. split; cbn; try done; lia.
Qed.

Section schedule.
Context (m : CoinbaseManager) (Hm : wf_manager m).
Let defl := deflationary_phase_daa_score m.

(** Seconds since the deflationary phase began, and the table entry they reach. *)
Definition seconds (d : Z) : Z :=
  let cres := activation (bps_history m) in
  if cres <? defl then (d - defl) / fp_after (bps_history m)
  else if d <? cres then (d - defl) / fp_before (bps_history m)
  else (cres - defl) / fp_before (bps_history m) + (d - cres) / fp_after (bps_history m).
Definition month (d : Z) : Z := seconds d * LEGACY_MONTHS_PER_HALVING / (SECONDS_PER_MONTH * SUBSIDY_HALVING_INTERVAL_MONTHS).
Definition rate (d : Z) : Z := if is_active (activation (bps_history m)) d then fp_after (bps_history m) else fp_before (bps_history m).
Definition curve (d : Z) : Z := scaled (rate d) (SUBSIDY_BY_MONTH_TABLE !!! Z.to_nat (Z.min (month d) 425)).
Definition floor (d : Z) : Z :=
  div_ceil (if month d / 4 <? TAIL_STEP_DOWN_MONTH then TAIL_SUBSIDY_INITIAL_PER_SEC_SOMPI else TAIL_SUBSIDY_FINAL_PER_SEC_SOMPI) (fp_after (bps_history m)).

Lemma seconds_bound d : defl <= d → 0 <= seconds d <= d.
Proof.
  intros Hd. destruct (wm_bps _ Hm) as [Hb Ha]. destruct (wm_scores _ Hm) as [Hs Hc]. fold defl in Hs. unfold seconds.
  assert (∀ x b, 0 <= x → 0 < b → 0 <= x / b <= x) as Hdiv by (intros x b Hx Hb'; split; [apply Z.div_pos; lia|apply Z.div_le_upper_bound; nia]).
  destruct (Z.ltb_spec (activation (bps_history m)) defl); [pose proof (Hdiv (d - defl) _ ltac:(lia) Ha); lia|].
  destruct (Z.ltb_spec d (activation (bps_history m))); [pose proof (Hdiv (d - defl) _ ltac:(lia) Hb); lia|].
  pose proof (Hdiv (activation (bps_history m) - defl) _ ltac:(lia) Hb). pose proof (Hdiv (d - activation (bps_history m)) _ ltac:(lia) Ha). lia.
Qed.
Lemma seconds_mono d d' : defl <= d → d <= d' → seconds d <= seconds d'.
Proof.
  intros Hd Hdd. destruct (wm_bps _ Hm) as [Hb Ha]. unfold seconds. set (cres := activation (bps_history m)).
  destruct (Z.ltb_spec cres defl); [apply Z.div_le_mono; lia|]. destruct (Z.ltb_spec d cres), (Z.ltb_spec d' cres).
  - apply Z.div_le_mono; lia.
  - pose proof (Z.div_le_mono (d - defl) (cres - defl) _ Hb ltac:(lia)). pose proof (Z.div_pos (d' - cres) _ ltac:(lia) Ha). lia.
  - lia.
  - pose proof (Z.div_le_mono (d - cres) (d' - cres) _ Ha ltac:(lia)). lia.
Qed.
Lemma month_bound d : defl <= d → 0 <= month d <= d.
Proof.
  intros Hd. pose proof (seconds_bound d Hd). unfold month, LEGACY_MONTHS_PER_HALVING, SECONDS_PER_MONTH, SUBSIDY_HALVING_INTERVAL_MONTHS.
  split; [apply Z.div_pos; lia|]. apply Z.div_le_upper_bound; lia.
Qed.
Lemma month_mono d d' : defl <= d → d <= d' → month d <= month d'.
Proof. intros Hd Hdd. pose proof (seconds_mono d d' Hd Hdd). unfold month, LEGACY_MONTHS_PER_HALVING, SECONDS_PER_MONTH, SUBSIDY_HALVING_INTERVAL_MONTHS. apply Z.div_le_mono; lia. Qed.

Lemma subsidy_month_ok d : defl <= d < 2 ^ 64 → subsidy_month m d = Ok (month d).
Proof.
  intros Hd. destruct (wm_bps _ Hm) as [Hb Ha]. destruct (wm_scores _ Hm) as [Hs Hc]. pose proof (seconds_bound d ltac:(lia)) as Hsec.
  unfold subsidy_month. rewrite (wm_crescendo _ Hm). fold defl. set (cres := activation (bps_history m)) in *.
  assert ((if cres <? defl then x ← sub_u d defl; div_u x (fp_after (bps_history m))
           else if d <? cres then x ← sub_u d defl; div_u x (fp_before (bps_history m))
           else x ← sub_u cres defl; s0 ← div_u x (fp_before (bps_history m)); y ← sub_u d cres; s1 ← div_u y (fp_after (bps_history m)); add_u 64 s0 s1)
          = Ok (E := Empty_set) (seconds d)) as ->.
  { unfold seconds in *. fold cres in Hsec |- *. destruct (Z.ltb_spec cres defl); [|destruct (Z.ltb_spec d cres)].
    - rewrite (proj2 (sub_u_ok d defl _)) by (split; [reflexivity|lia]). cbn [mbind res_bind]. apply div_u_ok. split; [done|lia].
    - rewrite (proj2 (sub_u_ok d defl _)) by (split; [reflexivity|lia]). cbn [mbind res_bind]. apply div_u_ok. split; [done|lia].
    - rewrite (proj2 (sub_u_ok cres defl _)) by (split; [reflexivity|lia]). cbn [mbind res_bind]. rewrite (proj2 (div_u_ok _ (fp_before (bps_history m)) _)) by (split; [reflexivity|lia]).
      cbn [mbind res_bind]. rewrite (proj2 (sub_u_ok d cres _)) by (split; [reflexivity|lia]). cbn [mbind res_bind].
      rewrite (proj2 (div_u_ok _ (fp_after (bps_history m)) _)) by (split; [reflexivity|lia]). cbn [mbind res_bind]. apply add_u_ok. split; [done|lia]. }
  cbn [mbind res_bind]. unfold LEGACY_MONTHS_PER_HALVING. rewrite (proj2 (mul_u_ok 128 (seconds d) 12 _)) by (split; [reflexivity|lia]). cbn [mbind res_bind].
  pose proof (month_bound d ltac:(lia)) as Hmb. unfold month, LEGACY_MONTHS_PER_HALVING in *. unfold wrap. by rewrite Z.mod_small by lia.
Qed.

Lemma calc_ok d : defl <= d < 2 ^ 64 → calc_block_subsidy m d = Ok (Z.max (curve d) (floor d)).
Proof.
  intros Hd. destruct (wm_bps _ Hm) as [Hb Ha]. pose proof (month_bound d ltac:(lia)) as Hmb. unfold calc_block_subsidy. fold defl. destruct (Z.ltb_spec d defl); [lia|].
  assert (month d * 3 < 2 ^ 64) as Hm3.
  { pose proof (seconds_bound d ltac:(lia)). unfold month, LEGACY_MONTHS_PER_HALVING, SECONDS_PER_MONTH, SUBSIDY_HALVING_INTERVAL_MONTHS.
    pose proof (Z.div_le_upper_bound (seconds d * 12) (2629800 * 3) (2 ^ 60) ltac:(lia) ltac:(lia)). lia. }
  assert (curve_subsidy m d = Ok (curve d)) as ->.
  { unfold curve_subsidy. rewrite subsidy_month_ok by done. cbn [mbind res_bind]. rewrite (wm_before _ Hm), (wm_after _ Hm). fold (rate d).
    assert (∀ b : bool, (if b then scaled (fp_after (bps_history m)) <$> SUBSIDY_BY_MONTH_TABLE else scaled (fp_before (bps_history m)) <$> SUBSIDY_BY_MONTH_TABLE) =
      scaled (if b then fp_after (bps_history m) else fp_before (bps_history m)) <$> SUBSIDY_BY_MONTH_TABLE) as -> by by intros [].
    fold (rate d). unfold Zlength. rewrite length_fmap, table_length. rewrite (proj2 (sub_u_ok (Z.of_nat 426) 1 425)) by lia. cbn [mbind res_bind].
    rewrite list_lookup_fmap, (list_lookup_lookup_total_lt SUBSIDY_BY_MONTH_TABLE) by (rewrite table_length; lia). done. }
  cbn [mbind res_bind]. unfold tail_subsidy. rewrite subsidy_month_ok by done. cbn [mbind res_bind]. unfold SUBSIDY_HALVING_INTERVAL_MONTHS.
  rewrite (proj2 (mul_u_ok 64 (month d) 3 _)) by (split; [reflexivity|lia]). cbn [mbind res_bind]. rewrite (proj2 (Z.eqb_neq _ 0)) by lia. cbn [mbind res_bind].
  do 2 f_equal. unfold floor, LEGACY_MONTHS_PER_HALVING. change 12 with (4 * 3). by rewrite Z.div_mul_cancel_r by lia.
Qed.

Lemma curve_mono d d' : defl <= d → d <= d' → fp_before (bps_history m) <= fp_after (bps_history m) → curve d' <= curve d.
Proof.
  intros Hd Hdd Hr. destruct (wm_bps _ Hm) as [Hb Ha]. pose proof (month_mono d d' Hd Hdd). pose proof (month_bound d Hd). unfold curve. apply scaled_mono.
  - unfold rate. destruct (is_active _ _); lia.
  - unfold rate, is_active. destruct (Z.leb_spec (activation (bps_history m)) d), (Z.leb_spec (activation (bps_history m)) d'); lia.
  - pose proof table_bounds as Ht. rewrite Forall_lookup in Ht.
    apply (Ht (Z.to_nat (Z.min (month d') 425))). apply list_lookup_lookup_total_lt. rewrite table_length. lia.
  - apply table_mono; lia.
Qed.
Lemma floor_mono d d' : defl <= d → d <= d' → floor d' <= floor d.
Proof.
  intros Hd Hdd. destruct (wm_bps _ Hm) as [Hb Ha]. pose proof (month_mono d d' Hd Hdd). unfold floor. apply div_ceil_mono; [lia|].
  pose proof (Z.div_le_mono (month d) (month d') 4 ltac:(lia) ltac:(lia)). unfold TAIL_STEP_DOWN_MONTH, TAIL_SUBSIDY_INITIAL_PER_SEC_SOMPI, TAIL_SUBSIDY_FINAL_PER_SEC_SOMPI.
  destruct (Z.ltb_spec (month d / 4) 24), (Z.ltb_spec (month d' / 4) 24); lia.
Qed.
Lemma scaled_halves b v v' : 0 < b → -1 <= 2 * v' - v <= 1 → -2 <= 2 * scaled b v' - scaled b v <= 1.
Proof.
  intros Hb Hv. unfold scaled, REWARD_SCALE_NUM, REWARD_SCALE_DEN, div_ceil.
  pose proof (Z.div_mod (v + b - 1) b ltac:(lia)). pose proof (Z.mod_pos_bound (v + b - 1) b Hb).
  pose proof (Z.div_mod (v' + b - 1) b ltac:(lia)). pose proof (Z.mod_pos_bound (v' + b - 1) b Hb).
  set (x := (v' + b - 1) / b) in *. set (y := (v + b - 1) / b) in *. assert (-1 <= 2 * x - y <= 2) by nia.
  pose proof (Z.div_mod (x * 3) 22 ltac:(lia)). pose proof (Z.mod_pos_bound (x * 3) 22 ltac:(lia)).
  pose proof (Z.div_mod (y * 3) 22 ltac:(lia)). pose proof (Z.mod_pos_bound (y * 3) 22 ltac:(lia)). lia.
Qed.
(** Three months later the curve has halved, up to rounding. *)
Lemma curve_halves d d' : defl <= d → seconds d' = seconds d + 3 * SECONDS_PER_MONTH → rate d' = rate d → month d < 414 → -2 <= 2 * curve d' - curve d <= 1.
Proof.
  intros Hd Hs Hr Hmo. destruct (wm_bps _ Hm) as [Hb Ha]. pose proof (month_bound d Hd). unfold curve. rewrite Hr.
  assert (month d' = month d + 12) as Em.
  { unfold month. rewrite Hs. unfold LEGACY_MONTHS_PER_HALVING, SECONDS_PER_MONTH, SUBSIDY_HALVING_INTERVAL_MONTHS. rewrite <- Z.div_add by lia. f_equal. lia. }
  rewrite !Z.min_l by lia. replace (Z.to_nat (month d')) with (Z.to_nat (month d) + 12)%nat by lia. apply scaled_halves; [unfold rate; destruct (is_active _ _); lia|].
  apply table_halves. lia.
Qed.
End schedule.

(** ** Conservation of value *)

(** What the mergeset is owed: subsidy and fees of the blocks in the DAA window, the fees of the reds outside it. *)
Definition reward_total (r : BlockRewardData) : Z := rw_subsidy r + rw_total_fees r.
Definition blue_total (rewards : gmap bytes BlockRewardData) (non_daa : gset bytes) (blues : list bytes) : Z :=
  sum_list_Z ((λ b, if bool_decide (b ∈ non_daa) then 0 else from_option reward_total 0 (rewards !! b)) <$> blues).
Definition red_total (rewards : gmap bytes BlockRewardData) (non_daa : gset bytes) (reds : list bytes) : Z :=
  sum_list_Z ((λ b, from_option (if bool_decide (b ∈ non_daa) then rw_total_fees else reward_total) 0 (rewards !! b)) <$> reds).
Definition wf_reward (r : BlockRewardData) : Prop := 0 <= rw_subsidy r ∧ 0 <= rw_total_fees r.
Definition wf_rewards (rewards : gmap bytes BlockRewardData) (l : list bytes) : Prop := Forall (λ b, ∃ r, rewards !! b = Some r ∧ wf_reward r) l.
Definition canonical_slot (s : MinerAccrual) : Prop := 0 <= acc_amount s ∧ (acc_amount s = 0 → s = accrual_default).

Section conservation.
Context (m : CoinbaseManager) (Hm : wf_manager m).

Lemma dev_fee_cut_bound s : 0 <= s < 2 ^ 64 → 0 <= dev_fee_cut m s <= s.
Proof.
  intros Hs. unfold dev_fee_cut. destruct (_ && _); [|lia]. pose proof (wm_permille _ Hm).
  assert (0 <= s * dev_fee_permille m / 1000 <= s) as [? ?].
  { split; [apply Z.div_pos; nia|]. apply Z.div_le_upper_bound; nia. }
  unfold wrap. rewrite Z.mod_small by lia. lia.
Qed.

Lemma reward_of_ok ended r accum : wf_reward r → 0 <= accum → accum + reward_total r < 2 ^ 64 →
  ∃ cut, 0 <= cut ∧ cut <= rw_subsidy r ∧ reward_of m ended r accum = Ok (reward_total r - cut, accum + cut) ∧ (dev_fee_recipient m = None → cut = 0).
Proof.
  intros [Hs Hf] Ha Ht. unfold reward_total in *. exists (if ended then 0 else dev_fee_cut m (rw_subsidy r)).
  pose proof (dev_fee_cut_bound (rw_subsidy r) ltac:(lia)) as Hc. set (cut := if ended then 0 else dev_fee_cut m (rw_subsidy r)).
  assert (0 <= cut <= rw_subsidy r) as Hcut by (unfold cut; destruct ended; lia). split; [lia|]. split; [lia|].
  unfold reward_of. fold cut. rewrite (proj2 (add_u_ok 64 accum cut _)) by (split; [reflexivity|lia]). cbn [mbind res_bind].
  rewrite (proj2 (sub_u_ok (rw_subsidy r) cut _)) by (split; [reflexivity|lia]). cbn [mbind res_bind].
  rewrite (proj2 (add_u_ok 64 (rw_subsidy r - cut) _ _)) by (split; [reflexivity|lia]). cbn [mbind res_bind].
  split; [do 2 f_equal; lia|]. unfold cut, dev_fee_cut. intros ->. by destruct ended.
Qed.

Definition paid (payments : list (Z * ScriptPublicKey)) : Z := sum_list_Z payments.*1.
Lemma paid_nonneg payments : Forall (λ p, 0 < p.1) payments → 0 <= paid payments.
Proof. intros H. apply sum_list_Z_nonneg, Forall_fmap. eapply Forall_impl; [exact H|]. intros p Hp. cbn in *. lia. Qed.
Lemma blue_total_nonneg rewards non_daa blues : wf_rewards rewards blues → 0 <= blue_total rewards non_daa blues.
Proof.
  intros H. apply sum_list_Z_nonneg, Forall_fmap. eapply Forall_impl; [exact H|]. intros b (r & Hr & Hw). cbn. case_bool_decide; [lia|]. rewrite Hr. cbn.
  destruct Hw. unfold reward_total. lia.
Qed.
Lemma red_total_nonneg rewards non_daa reds : wf_rewards rewards reds → 0 <= red_total rewards non_daa reds.
Proof.
  intros H. apply sum_list_Z_nonneg, Forall_fmap. eapply Forall_impl; [exact H|]. intros b (r & Hr & Hw). cbn. rewrite Hr. cbn.
  destruct Hw. unfold reward_total. case_bool_decide; lia.
Qed.

Lemma blue_rewards_ok rewards non_daa ended blues : ∀ payments accum,
  wf_rewards rewards blues → 0 <= accum → accum + blue_total rewards non_daa blues < 2 ^ 64 →
  ∃ pay cut, blue_rewards m rewards non_daa ended blues payments accum = Ok (payments ++ pay, accum + cut) ∧
    0 <= cut ∧ paid pay + cut = blue_total rewards non_daa blues ∧ Forall (λ p, 0 < p.1) pay ∧ (length pay <= length blues)%nat ∧ (dev_fee_recipient m = None → cut = 0).
Proof.
  induction blues as [|b blues IH]; intros payments accum Hw Ha Ht.
  { exists [], 0. rewrite app_nil_r, Z.add_0_r. split; [done|]. split; [done|]. split; [done|]. split; [constructor|]. done. }
  apply Forall_cons_1 in Hw as [(r & Hr & Hrw) Hw]. pose proof (blue_total_nonneg rewards non_daa blues Hw) as Hnn.
  unfold blue_total in Ht |- *. rewrite fmap_cons in *. cbn [sum_list_Z blue_rewards] in *. fold (blue_total rewards non_daa blues) in *.
  case_bool_decide as Hd.
  { destruct (IH payments accum Hw Ha ltac:(lia)) as (pay & cut & E & H1 & H2 & H3 & H4 & H5). exists pay, cut. rewrite E. split; [done|]. split; [done|]. split; [lia|]. split; [done|]. cbn. split; [lia|done]. }
  rewrite Hr in *. cbn [from_option unwrap mbind res_bind] in *. assert (0 <= reward_total r) as Hrt by (destruct Hrw; unfold reward_total; lia).
  destruct (reward_of_ok ended r accum Hrw Ha ltac:(lia)) as (c & Hc0 & Hc & -> & Hcn). cbn [mbind res_bind].
  destruct (IH (if 0 <? reward_total r - c then payments ++ [(reward_total r - c, rw_spk r)] else payments) (accum + c) Hw ltac:(lia)) as (pay & cut & E & H1 & H2 & H3 & H4 & H5).
  { unfold reward_total in *. destruct Hrw. lia. }
  rewrite E. destruct (Z.ltb_spec 0 (reward_total r - c)) as [Hp|Hp].
  - exists ((reward_total r - c, rw_spk r) :: pay), (c + cut). rewrite <- app_assoc, Z.add_assoc. split; [done|]. split; [lia|]. unfold paid in *. cbn [fmap list_fmap sum_list_Z fst] in *.
    split; [lia|]. split; [by constructor|]. cbn. split; [lia|]. intros Hn. rewrite Hcn, H5 by done. done.
  - exists pay, (c + cut). rewrite Z.add_assoc. split; [done|]. split; [lia|]. split; [|split; [done|split; [cbn; lia|intros Hn; rewrite Hcn, H5 by done; done]]]. destruct Hrw. unfold reward_total in *. lia.
Qed.

Lemma red_rewards_ok rewards non_daa ended reds : ∀ red accum,
  wf_rewards rewards reds → 0 <= red → 0 <= accum → red + accum + red_total rewards non_daa reds < 2 ^ 64 →
  ∃ r cut, red_rewards m rewards non_daa ended reds red accum = Ok (red + r, accum + cut) ∧ 0 <= r ∧ 0 <= cut ∧ r + cut = red_total rewards non_daa reds ∧ (dev_fee_recipient m = None → cut = 0).
Proof.
  induction reds as [|b reds IH]; intros red accum Hw Hr0 Ha Ht; [exists 0, 0; rewrite !Z.add_0_r; done|].
  apply Forall_cons_1 in Hw as [(r & Hr & Hrw) Hw]. pose proof (red_total_nonneg rewards non_daa reds Hw) as Hnn.
  unfold red_total in Ht |- *. rewrite fmap_cons in *. cbn [sum_list_Z red_rewards] in *. fold (red_total rewards non_daa reds) in *.
  rewrite Hr in *. cbn [from_option unwrap mbind res_bind] in *. case_bool_decide as Hd.
  - destruct Hrw as [Hrs Hrf]. rewrite (proj2 (add_u_ok 64 red (rw_total_fees r) _)) by (split; [reflexivity|lia]). cbn [mbind res_bind].
    destruct (IH (red + rw_total_fees r) accum Hw ltac:(lia) Ha ltac:(lia)) as (r' & cut & -> & H1 & H2 & H3 & H4).
    exists (rw_total_fees r + r'), cut. split; [do 2 f_equal; lia|]. split; [lia|]. split; [lia|]. split; [lia|done].
  - assert (0 <= reward_total r) as Hrt by (destruct Hrw; unfold reward_total; lia).
    destruct (reward_of_ok ended r accum Hrw Ha ltac:(lia)) as (c & Hc0 & Hc & -> & Hcn). cbn [mbind res_bind].
    assert (c <= reward_total r) by (destruct Hrw; unfold reward_total; lia).
    rewrite (proj2 (add_u_ok 64 red (reward_total r - c) _)) by (split; [reflexivity|lia]). cbn [mbind res_bind].
    destruct (IH (red + (reward_total r - c)) (accum + c) Hw ltac:(lia) ltac:(lia) ltac:(lia)) as (r' & cut & -> & H1 & H2 & H3 & H4).
    exists (reward_total r - c + r'), (c + cut). split; [do 2 f_equal; lia|]. split; [lia|]. split; [lia|]. split; [lia|]. intros Hn. rewrite Hcn, H4 by done. done.
Qed.

Definition output_sum (outs : list TransactionOutput) : Z := sum_list_Z (value <$> outs).
Lemma output_sum_app o1 o2 : output_sum (o1 ++ o2) = output_sum o1 + output_sum o2.
Proof. unfold output_sum. by rewrite fmap_app, sum_list_Z_app. Qed.

(** The slot takes rewards to its own script and is paid out by any other. *)
Lemma accrue_loop_ok payments : ∀ slot outs,
  canonical_slot slot → Forall (λ p, 0 < p.1) payments → acc_amount slot + paid payments < 2 ^ 64 →
  ∃ outs' slot', accrue_loop payments slot outs = Ok (outs ++ outs', slot') ∧ canonical_slot slot' ∧
    output_sum outs' + acc_amount slot' = acc_amount slot + paid payments ∧ Forall (λ o, 0 < value o) outs' ∧ (length outs' <= length payments)%nat.
Proof.
  induction payments as [|[v spk] payments IH]; intros slot outs Hc Hp Ht.
  { exists [], slot. rewrite app_nil_r. unfold paid, output_sum. cbn. split; [done|]. split; [done|]. split; [lia|]. split; [constructor|done]. }
  apply Forall_cons_1 in Hp as [Hv Hp]. cbn [fst] in Hv. unfold paid in *. rewrite fmap_cons in *. cbn [fst sum_list_Z accrue_loop] in *. fold (paid payments) in *.
  pose proof (paid_nonneg payments Hp) as Hnn.
  destruct Hc as [Hc0 Hc1]. unfold accrual_is_empty. destruct (Z.eqb_spec (acc_amount slot) 0) as [He|He]; cbn [negb andb].
  - destruct (IH (mk_accrual spk v) outs) as (o & s' & -> & H1 & H2 & H3 & H4); [split; cbn; lia|done|cbn; lia|]. exists o, s'. cbn [acc_amount] in H2. cbn. split; [done|]. split; [done|]. split; [lia|]. split; [done|lia].
  - case_bool_decide as Hs.
    + unfold checked_add. destruct (Z.ltb_spec (acc_amount slot + v) (2 ^ 64)); [|lia]. cbn [ok_or mbind res_bind].
      destruct (IH (mk_accrual (acc_spk slot) (acc_amount slot + v)) outs) as (o & s' & -> & H1 & H2 & H3 & H4); [split; cbn; lia|done|cbn; lia|].
      exists o, s'. cbn [acc_amount] in H2. cbn. split; [done|]. split; [done|]. split; [lia|]. split; [done|lia].
    + destruct (IH (mk_accrual spk v) (outs ++ [output_new (acc_amount slot) (acc_spk slot)])) as (o & s' & -> & H1 & H2 & H3 & H4); [split; cbn; lia|done|cbn; lia|].
      exists (output_new (acc_amount slot) (acc_spk slot) :: o), s'. rewrite <- app_assoc. split; [done|]. split; [done|]. cbn [acc_amount] in H2. unfold output_sum in *. cbn.
      split; [lia|]. split; [constructor; [cbn; lia|done]|lia].
Qed.
Lemma accrue_ok slot payments payout :
  canonical_slot slot → Forall (λ p, 0 < p.1) payments → acc_amount slot + paid payments < 2 ^ 64 →
  ∃ outs slot', accrue_miner_rewards slot payments payout = Ok (outs, slot') ∧ canonical_slot slot' ∧
    output_sum outs + acc_amount slot' = acc_amount slot + paid payments ∧ Forall (λ o, 0 < value o) outs ∧ (length outs <= length payments + 1)%nat ∧
    (payout = true → slot' = accrual_default).
Proof.
  intros Hc Hp Ht. destruct (accrue_loop_ok payments slot [] Hc Hp Ht) as (o & s' & E & H1 & H2 & H3 & H4). unfold accrue_miner_rewards. rewrite E. cbn [app mbind res_bind].
  unfold accrual_is_empty. destruct (payout && negb (acc_amount s' =? 0)) eqn:Hb.
  - apply andb_true_iff in Hb as [-> Hb]. apply negb_true_iff, Z.eqb_neq in Hb. eexists _, _. split; [done|]. split; [by split|].
    rewrite output_sum_app. unfold output_sum at 2. cbn. split; [lia|]. split; [apply Forall_app; split; [done|]; constructor; [destruct H1; cbn; lia|constructor]|]. rewrite length_app. cbn. split; [lia|done].
  - exists o, s'. split; [done|]. split; [done|]. split; [done|]. split; [done|]. split; [lia|]. intros ->. apply negb_false_iff, Z.eqb_eq in Hb. by apply H1.
Qed.
End conservation.

Lemma paid_app p1 p2 : paid (p1 ++ p2) = paid p1 + paid p2.
Proof. unfold paid. by rewrite fmap_app, sum_list_Z_app. Qed.
Lemma plain_outputs payments : Forall (λ p, 0 < p.1) payments →
  output_sum ((λ p, output_new p.1 p.2) <$> payments) = paid payments ∧ Forall (λ o, 0 < value o) ((λ p : Z * ScriptPublicKey, output_new p.1 p.2) <$> payments).
Proof. induction 1 as [|[v spk] payments Hv _ [IH1 IH2]]; [done|]. unfold output_sum, paid in *. cbn. rewrite IH1. split; [done|]. by constructor. Qed.

Section expected.
Context (m : CoinbaseManager) (Hm : wf_manager m).

(** The miner payments, as outputs or through the slot. *)
Lemma miner_outputs_ok daa_score parent_daa_score slot payments :
  let active := is_active (miner_accrual_activation m) daa_score in
  canonical_slot slot → Forall (λ p, 0 < p.1) payments → acc_amount slot + paid payments < 2 ^ 64 →
  ∃ outs slot',
    (if active then
       a ← div_u daa_score (miner_accrual_payout_interval m);
       b ← div_u parent_daa_score (miner_accrual_payout_interval m);
       accrue_miner_rewards slot payments (b <? a)
     else Ok ((λ p, output_new p.1 p.2) <$> payments, accrual_default)) = Ok (outs, slot') ∧ canonical_slot slot' ∧
    output_sum outs + acc_amount slot' = (if active then acc_amount slot else 0) + paid payments ∧
    Forall (λ o, 0 < value o) outs ∧ (length outs <= length payments + 1)%nat.
Proof.
  intros active Hc Hp Ht. destruct (wm_interval _ Hm) as [_ Hi]. destruct active.
  - rewrite (proj2 (div_u_ok daa_score _ _)) by (split; [reflexivity|lia]). cbn [mbind res_bind]. rewrite (proj2 (div_u_ok parent_daa_score _ _)) by (split; [reflexivity|lia]). cbn [mbind res_bind].
    destruct (accrue_ok slot payments (parent_daa_score / miner_accrual_payout_interval m <? daa_score / miner_accrual_payout_interval m) Hc Hp Ht)
      as (o & s' & E & H1 & H2 & H3 & H4 & _). by exists o, s'.
  - destruct (plain_outputs payments Hp) as [H1 H2]. eexists _, _. split; [done|]. split; [by split|]. split; [rewrite H1; cbn; lia|]. split; [done|]. rewrite length_fmap. lia.
Qed.

(** The dev fee is paid or carried. *)
Lemma dev_fee_split_ok ended daa_score parent_daa_score dev accum :
  0 <= dev → 0 <= accum → dev + accum < 2 ^ 64 →
  let '(fee, after) := dev_fee_split m ended daa_score parent_daa_score dev accum in
  0 <= fee ∧ 0 <= after ∧ fee + after = (if is_active (dev_fee_accrual_activation m) daa_score then dev else 0) + accum.
Proof.
  intros Hd Ha Ht. unfold dev_fee_split. destruct (is_active _ _); cbn [negb]; [|lia]. unfold saturating_add. rewrite Z.min_l by lia. destruct (_ || _); lia.
Qed.
Lemma subsidy_ok daa_score : 0 <= daa_score < 2 ^ 64 → ∃ s, calc_block_subsidy m daa_score = Ok s.
Proof.
  intros Hd. destruct (Z.ltb_spec daa_score (deflationary_phase_daa_score m)) as [Hlt|Hge]; [|by rewrite (calc_ok m Hm) by lia; eexists].
  unfold calc_block_subsidy. destruct (Z.ltb_spec daa_score (deflationary_phase_daa_score m)); [by eexists|lia].
Qed.
End expected.

Lemma expected_coinbase_ok m daa_score miner gd rewards non_daa root parent_daa_score dev slot :
  wf_manager m → wf_rewards rewards (mergeset_blues gd ++ mergeset_reds gd) → canonical_slot slot → 0 <= dev → (dev_fee_recipient m = None → dev = 0) →
  0 <= daa_score < 2 ^ 64 → Zlength (spk_script (miner_spk miner)) <= coinbase_payload_script_public_key_max_len m →
  let owed := blue_total rewards non_daa (mergeset_blues gd) + red_total rewards non_daa (mergeset_reds gd) in
  owed + acc_amount slot + dev < 2 ^ 64 →
  ∃ tpl, expected_coinbase_transaction m daa_score miner gd rewards non_daa root parent_daa_score dev slot = Ok tpl ∧
    let outs := outputs (tpl_tx tpl) in
    output_sum outs + acc_amount (miner_accrual tpl) + dev_accrued tpl =
      owed + (if is_active (miner_accrual_activation m) daa_score then acc_amount slot else 0) + (if is_active (dev_fee_accrual_activation m) daa_score then dev else 0) ∧
    0 <= dev_accrued tpl ∧ canonical_slot (miner_accrual tpl) ∧ Forall (λ o, 0 < value o) outs ∧ (length outs <= length (mergeset_blues gd) + 3)%nat ∧
    (is_active (miner_accrual_activation m) daa_score = false → miner_accrual tpl = accrual_default) ∧
    (is_active (dev_fee_accrual_activation m) daa_score = false ∨ dev_fee_recipient m = None → dev_accrued tpl = 0).
Proof.
  intros Hm Hw Hc Hd Hrec Hdaa Hlen owed Ht. apply Forall_app in Hw as [Hwb Hwr]. unfold expected_coinbase_transaction. cbv zeta.
  set (ended := is_active (dev_fee_end_activation m) daa_score). pose proof (blue_total_nonneg rewards non_daa _ Hwb) as Hbn. pose proof (red_total_nonneg rewards non_daa _ Hwr) as Hrn.
  destruct Hc as [Hc0 Hc1]. destruct (blue_rewards_ok m Hm rewards non_daa ended (mergeset_blues gd) [] 0 Hwb ltac:(lia) ltac:(unfold owed in *; lia)) as (pay & cut & -> & Hcut & Hpay & Hpos & Hpl & Hcn).
  cbn [app map_err mbind res_bind]. destruct (red_rewards_ok m Hm rewards non_daa ended (mergeset_reds gd) 0 (0 + cut) Hwr ltac:(lia) ltac:(lia)) as (red & cut' & -> & Hred & Hcut' & Hredt & Hcn').
  { pose proof (paid_nonneg pay Hpos). unfold owed in *. lia. }
  cbn [map_err mbind res_bind]. rewrite !Z.add_0_l. set (payments := if 0 <? red then pay ++ [(red, miner_spk miner)] else pay).
  assert (paid payments = paid pay + red ∧ Forall (λ p, 0 < p.1) payments ∧ (length payments <= length (mergeset_blues gd) + 1)%nat) as (Hps & Hpp & Hpln).
  { unfold payments. destruct (Z.ltb_spec 0 red); [rewrite paid_app, length_app; unfold paid at 2; cbn; split; [lia|]; split; [apply Forall_app; split; [done|by constructor]|lia]|].
    split; [lia|]. split; [done|lia]. }
  destruct (miner_outputs_ok m Hm daa_score parent_daa_score slot payments ltac:(by split) Hpp ltac:(unfold owed in *; lia)) as (outs & slot' & Eo & Hs' & Hsum & Hop & Hol).
  assert (is_active (miner_accrual_activation m) daa_score = false → slot' = accrual_default) as Hinact by (intros Hi; rewrite Hi in Eo; by injection Eo as <- <-). rewrite Eo. clear Eo.
  cbn [mbind res_bind]. pose proof (dev_fee_split_ok m ended daa_score parent_daa_score dev (cut + cut') Hd ltac:(lia)) as Hsplit.
  assert (is_active (dev_fee_accrual_activation m) daa_score = false → (dev_fee_split m ended daa_score parent_daa_score dev (cut + cut')).2 = 0) as Hdinact by (unfold dev_fee_split; intros ->; done).
  destruct (dev_fee_split m ended daa_score parent_daa_score dev (cut + cut')) as [fee after]. destruct Hsplit as (Hf & Ha & Hfa).
  { pose proof (paid_nonneg pay Hpos). unfold owed in *. lia. }
  destruct (subsidy_ok m Hm daa_score Hdaa) as (s & ->). cbn [map_err mbind res_bind]. unfold serialize_coinbase_payload. cbn [cb_miner_data].
  destruct (Z.ltb_spec (coinbase_payload_script_public_key_max_len m) (Zlength (spk_script (miner_spk miner)))); [lia|]. cbn [mbind res_bind]. eexists. split; [done|]. cbn [outputs tpl_tx miner_accrual dev_accrued].
  assert (∀ X : list TransactionOutput, X = (match dev_fee_recipient m with Some r => if 0 <? fee then outs ++ [output_new fee (mk_spk 0 r)] else outs | None => outs end) →
    output_sum X = output_sum outs + fee ∧ Forall (λ o, 0 < value o) X ∧ (length X <= length outs + 1)%nat) as HX.
  { intros X ->. destruct (dev_fee_recipient m) as [r|].
    - destruct (Z.ltb_spec 0 fee); [|split; [lia|]; split; [done|lia]]. rewrite output_sum_app, length_app. unfold output_sum at 2. cbn. split; [lia|]. split; [apply Forall_app; split; [done|by constructor]|lia].
    - rewrite Hrec, Hcn, Hcn' in Hfa by done. split; [destruct (is_active (dev_fee_accrual_activation m) daa_score); lia|]. split; [done|lia]. }
  destruct (HX _ eq_refl) as (H1 & H2 & H3). rewrite H1. split; [unfold owed; lia|]. split; [done|]. split; [done|]. split; [done|]. split; [lia|]. split; [done|].
  intros [Hi|Hn]; [by apply Hdinact|]. rewrite Hrec, Hcn, Hcn' in Hfa by done. destruct (is_active (dev_fee_accrual_activation m) daa_score); lia.
Qed.

(** C9. The expected coinbase conserves value: as long as the sums fit a word it is built, its outputs, the carried miner
    slot and the carried dev fee together are exactly what the mergeset is owed plus what the selected parent carried, every
    output pays something, the slot is in its canonical form, and there are at most three outputs more than blue blocks. *)
Theorem coinbase_conserves_value m daa_score miner gd rewards non_daa root parent_daa_score dev slot :
  wf_manager m → wf_rewards rewards (mergeset_blues gd ++ mergeset_reds gd) → canonical_slot slot → 0 <= dev → (dev_fee_recipient m = None → dev = 0) →
  0 <= daa_score < 2 ^ 64 → Zlength (spk_script (miner_spk miner)) <= coinbase_payload_script_public_key_max_len m →
  let owed := blue_total rewards non_daa (mergeset_blues gd) + red_total rewards non_daa (mergeset_reds gd) in
  owed + acc_amount slot + dev < 2 ^ 64 →
  ∃ tpl, expected_coinbase_transaction m daa_score miner gd rewards non_daa root parent_daa_score dev slot = Ok tpl ∧
    let outs := outputs (tpl_tx tpl) in
    output_sum outs + acc_amount (miner_accrual tpl) + dev_accrued tpl =
      owed + (if is_active (miner_accrual_activation m) daa_score then acc_amount slot else 0) + (if is_active (dev_fee_accrual_activation m) daa_score then dev else 0) ∧
    0 <= dev_accrued tpl ∧ canonical_slot (miner_accrual tpl) ∧ Forall (λ o, 0 < value o) outs ∧ (length outs <= length (mergeset_blues gd) + 3)%nat.
Proof.
  intros Hm Hw Hc Hd Hrec Hdaa Hlen owed Ht.
  destruct (expected_coinbase_ok m daa_score miner gd rewards non_daa root parent_daa_score dev slot Hm Hw Hc Hd Hrec Hdaa Hlen Ht) as (tpl & E & H1 & H2 & H3 & H4 & H5 & _). by exists tpl.
Qed.

(** The subsidy of a DAA score: the base subsidy before the deflationary phase, then the larger of the curve and the tail. *)
Definition scheduled (m : CoinbaseManager) (d : Z) : Z :=
  if d <? deflationary_phase_daa_score m then pre_deflationary_phase_base_subsidy m else Z.max (curve m d) (floor m d).
(** The bounds on the tail and on the curve. *)
Lemma floor_bounds m d : wf_manager m → div_ceil TAIL_SUBSIDY_FINAL_PER_SEC_SOMPI (fp_after (bps_history m)) <= floor m d <= 600000000.
Proof.
  intros Hm. destruct (wm_bps _ Hm) as [_ Ha]. unfold floor.
  set (r := if month m d / 4 <? TAIL_STEP_DOWN_MONTH then TAIL_SUBSIDY_INITIAL_PER_SEC_SOMPI else TAIL_SUBSIDY_FINAL_PER_SEC_SOMPI).
  assert (TAIL_SUBSIDY_FINAL_PER_SEC_SOMPI <= r <= 600000000) as Hr
    by (unfold r, TAIL_SUBSIDY_FINAL_PER_SEC_SOMPI, TAIL_SUBSIDY_INITIAL_PER_SEC_SOMPI; destruct (_ <? _); lia).
  split; [apply div_ceil_mono; lia|]. etrans; [apply (div_ceil_anti r 1); unfold TAIL_SUBSIDY_FINAL_PER_SEC_SOMPI in *; lia|]. unfold div_ceil. rewrite Z.div_1_r. lia.
Qed.
Lemma curve_bound m d : wf_manager m → deflationary_phase_daa_score m <= d → curve m d <= 6000000000.
Proof.
  intros Hm Hd. destruct (wm_bps _ Hm). pose proof (month_bound m Hm d Hd). apply scaled_bounds; [unfold rate; destruct (is_active _ _); lia|].
  pose proof table_bounds as Ht. rewrite Forall_lookup in Ht. eapply Ht, list_lookup_lookup_total_lt. rewrite table_length. lia.
Qed.


(** ** The payload codec *)

Record wf_coinbase_data (m : CoinbaseManager) (d : CoinbaseData) : Prop := {
  wd_blue : is_u64 (cb_blue_score d);
  wd_subsidy : is_u64 (cb_subsidy d);
  wd_root : length (cb_shielded_commitment d) = 32%nat;
  wd_version : is_u16 (spk_version (miner_spk (cb_miner_data d)));
  wd_len : Zlength (spk_script (miner_spk (cb_miner_data d))) <= coinbase_payload_script_public_key_max_len m;
}.
Definition with_miner (d : CoinbaseData) (miner : MinerData) : CoinbaseData := mk_coinbase_data (cb_blue_score d) (cb_subsidy d) (cb_shielded_commitment d) miner.

Lemma payload_take_app {E} n a r : length a = n → payload_take (E := E) n (a ++ r) = Ok (a, r).
Proof. intros <-. unfold payload_take. rewrite length_app, (proj2 (Nat.leb_le _ _)) by lia. by rewrite take_app_length, drop_app_length. Qed.
Lemma payload_take_inv {E} n p : (n <= length p)%nat → ∃ a r, payload_take (E := E) n p = Ok (a, r) ∧ p = a ++ r ∧ length a = n.
Proof. intros Hn. exists (take n p), (drop n p). unfold payload_take. rewrite (proj2 (Nat.leb_le _ _)) by lia. rewrite take_drop, length_take. split; [done|]. split; [done|lia]. Qed.

Section codec.
Context (m : CoinbaseManager) (Hmax : 0 <= coinbase_payload_script_public_key_max_len m <= 255).

Definition encoded (d : CoinbaseData) : bytes :=
  let spk := miner_spk (cb_miner_data d) in
  to_le_bytes 8 (cb_blue_score d) ++ to_le_bytes 8 (cb_subsidy d) ++ cb_shielded_commitment d ++
  to_le_bytes 2 (spk_version spk) ++ to_le_bytes 1 (Zlength (spk_script spk)) ++ spk_script spk ++ extra_data (cb_miner_data d).
Lemma serialize_shape d : wf_coinbase_data m d → serialize_coinbase_payload m d = Ok (encoded d).
Proof.
  intros Hd. unfold serialize_coinbase_payload, encoded. set (spk := miner_spk (cb_miner_data d)). pose proof (wd_len _ _ Hd) as Hl. pose proof (Zlength_ge0 (spk_script spk)). fold spk in Hl.
  destruct (Z.ltb_spec (coinbase_payload_script_public_key_max_len m) (Zlength (spk_script spk))); [lia|]. unfold wrap. by rewrite Z.mod_small by lia.
Qed.

Lemma decode_encode d p : wf_coinbase_data m d → serialize_coinbase_payload m d = Ok p → Zlength p <= max_coinbase_payload_len m → deserialize_coinbase_payload m p = Ok d.
Proof.
  intros Hd E Hp. rewrite (serialize_shape d Hd) in E. assert (encoded d = p) as <- by congruence. clear E. unfold encoded in *. destruct Hd as [Hb Hs Hr Hv Hl]. set (spk := miner_spk (cb_miner_data d)) in *.
  set (p := to_le_bytes 8 _ ++ _) in *. assert (MIN_PAYLOAD_LENGTH <= Zlength p) as Hmin.
  { unfold p, MIN_PAYLOAD_LENGTH, Zlength. rewrite !length_app, !length_to_le_bytes, Hr by lia. lia. }
  unfold deserialize_coinbase_payload. destruct (Z.ltb_spec (Zlength p) MIN_PAYLOAD_LENGTH); [lia|]. destruct (Z.ltb_spec (max_coinbase_payload_len m) (Zlength p)); [lia|].
  unfold p. rewrite payload_take_app by (by rewrite length_to_le_bytes). cbn [mbind res_bind]. rewrite payload_take_app by (by rewrite length_to_le_bytes). cbn [mbind res_bind].
  rewrite payload_take_app by done. cbn [mbind res_bind]. rewrite payload_take_app by (by rewrite length_to_le_bytes). cbn [mbind res_bind].
  rewrite payload_take_app by (by rewrite length_to_le_bytes). cbn [mbind res_bind].
  pose proof (Zlength_ge0 (spk_script spk)). rewrite (from_to_le_bytes 1) by (unfold is_uint; lia).
  destruct (Z.ltb_spec (coinbase_payload_script_public_key_max_len m) (Zlength (spk_script spk))); [lia|].
  destruct (Z.ltb_spec (Zlength (spk_script spk ++ extra_data (cb_miner_data d))) (Zlength (spk_script spk))) as [Hx|]; [unfold Zlength in Hx; rewrite length_app in Hx; lia|].
  rewrite payload_take_app by (unfold Zlength; lia). cbn [mbind res_bind]. rewrite (from_to_le_bytes 8 (cb_blue_score d)), (from_to_le_bytes 8 (cb_subsidy d)), (from_to_le_bytes 2) by (done || lia).
  unfold spk. destruct d as [bs sb cm [[v sc] ex]]. done.
Qed.

Lemma encode_decode p : wf_bytes p →
  match deserialize_coinbase_payload m p with
  | Ok d => wf_coinbase_data m d ∧ serialize_coinbase_payload m d = Ok p
  | Err _ => True
  | Panic => False
  end.
Proof.
  intros Hwf. unfold deserialize_coinbase_payload. destruct (Z.ltb_spec (Zlength p) MIN_PAYLOAD_LENGTH) as [|Hmin]; [done|]. destruct (_ <? Zlength p); [done|].
  unfold Zlength, MIN_PAYLOAD_LENGTH in Hmin. destruct (payload_take_inv (E := CoinbaseError) 8 p ltac:(lia)) as (a & r & -> & -> & Ha). rewrite length_app in Hmin. cbn [mbind res_bind].
  destruct (payload_take_inv (E := CoinbaseError) 8 r ltac:(lia)) as (b & r1 & -> & -> & Hb). rewrite length_app in Hmin. cbn [mbind res_bind].
  destruct (payload_take_inv (E := CoinbaseError) 32 r1 ltac:(lia)) as (c & r2 & -> & -> & Hc). rewrite length_app in Hmin. cbn [mbind res_bind].
  destruct (payload_take_inv (E := CoinbaseError) 2 r2 ltac:(lia)) as (v & r3 & -> & -> & Hv). rewrite length_app in Hmin. cbn [mbind res_bind].
  destruct (payload_take_inv (E := CoinbaseError) 1 r3 ltac:(lia)) as (l & r4 & -> & -> & Hl). cbn [mbind res_bind].
  unfold wf_bytes in Hwf. rewrite !Forall_app in Hwf. destruct Hwf as (Wa & Wb & _ & Wv & Wl & _). fold (wf_bytes a) in Wa.
  pose proof (from_le_bytes_bound a Wa) as Ba. pose proof (from_le_bytes_bound b Wb) as Bb. pose proof (from_le_bytes_bound v Wv) as Bv. pose proof (from_le_bytes_bound l Wl) as Bl.
  pose proof (to_from_le_bytes a Wa) as Ta. pose proof (to_from_le_bytes b Wb) as Tb. pose proof (to_from_le_bytes v Wv) as Tv. pose proof (to_from_le_bytes l Wl) as Tl.
  rewrite Ha in *. rewrite Hb in *. rewrite Hv in *. rewrite Hl in *. set (len := from_le_bytes l) in *.
  destruct (Z.ltb_spec (coinbase_payload_script_public_key_max_len m) len); [done|]. destruct (Z.ltb_spec (Zlength r4) len) as [|Hlen]; [done|]. unfold is_uint in Bl.
  destruct (payload_take_inv (E := CoinbaseError) (Z.to_nat len) r4 ltac:(unfold Zlength in *; lia)) as (s & r5 & -> & -> & Hs). cbn [mbind res_bind].
  assert (Zlength s = len) as Es by (unfold Zlength; lia). set (d := mk_coinbase_data _ _ _ _). assert (wf_coinbase_data m d) as Hd by (split; cbn; (done || lia)).
  split; [exact Hd|]. rewrite (serialize_shape d Hd). unfold encoded. cbn. rewrite Es. change 8 with (Z.of_nat 8). rewrite Ta, Tb. change 2 with (Z.of_nat 2). rewrite Tv. change 1 with (Z.of_nat 1). by rewrite Tl.
Qed.

Lemma modify_serialize d p miner : wf_coinbase_data m d → serialize_coinbase_payload m d = Ok p → modify_coinbase_payload m p miner = serialize_coinbase_payload m (with_miner d miner).
Proof.
  intros Hd E. rewrite (serialize_shape d Hd) in E. assert (encoded d = p) as <- by congruence. unfold modify_coinbase_payload, serialize_coinbase_payload. cbn [cb_miner_data with_miner].
  destruct (_ <? _); [done|]. f_equal. cbn [cb_blue_score cb_subsidy cb_shielded_commitment with_miner].
  assert (length (to_le_bytes 8 (cb_blue_score d) ++ to_le_bytes 8 (cb_subsidy d) ++ cb_shielded_commitment d) = 48%nat) as Hlen.
  { rewrite !length_app, !length_to_le_bytes, (wd_root _ _ Hd) by lia. done. }
  unfold encoded. rewrite (app_assoc (to_le_bytes 8 (cb_subsidy d)) (cb_shielded_commitment d)), (app_assoc (to_le_bytes 8 (cb_blue_score d))). rewrite <- Hlen, take_app_length.
  by rewrite <- !app_assoc.
Qed.
End codec.

(** ** The pool-delta check of [verify_expected_utxo_state] *)

Definition add_s {E} (w a b : Z) : res E Z := if (- 2 ^ (w - 1) <=? a + b) && (a + b <? 2 ^ (w - 1)) then Ok (a + b) else Panic.

Definition blue_delta (rewards : gmap bytes BlockRewardData) (non_daa : gset bytes) (delta : Z) (blue : bytes) : exec Z :=
  reward ← unwrap (rewards !! blue);
  if bool_decide (blue ∈ non_daa) then add_s 128 delta (- rw_total_fees reward) else add_s 128 delta (rw_subsidy reward).
Definition red_delta (rewards : gmap bytes BlockRewardData) (non_daa : gset bytes) (delta : Z) (red : bytes) : exec Z :=
  if bool_decide (red ∈ non_daa) then Ok delta else reward ← unwrap (rewards !! red); add_s 128 delta (rw_subsidy reward).

Definition pool_delta_ok (gd : GhostdagData) (rewards : gmap bytes BlockRewardData) (non_daa : gset bytes) (parent computed : SupplyTotals)
    (parent_accrued this_accrued : Z) (parent_slot this_slot : MinerAccrual) : exec bool :=
  dc ← sub_u (tot_coinbase computed) (tot_coinbase parent);
  df ← sub_u (tot_fees computed) (tot_fees parent);
  actual_delta ← add_s 128 (to_signed 128 dc) (- to_signed 128 df);
  delta ← res_foldl (blue_delta rewards non_daa) 0 (mergeset_blues gd);
  delta ← res_foldl (red_delta rewards non_daa) delta (mergeset_reds gd);
  dev ← add_s 128 this_accrued (- parent_accrued);
  delta ← add_s 128 delta (- dev);
  slot ← add_s 128 (acc_amount this_slot) (- acc_amount parent_slot);
  expected_delta ← add_s 128 delta (- slot);
  Ok (actual_delta =? expected_delta).

Section delta.
Context (rewards : gmap bytes BlockRewardData) (non_daa : gset bytes).

Definition fees_of (l : list bytes) : Z := sum_list_Z ((λ b, from_option rw_total_fees 0 (rewards !! b)) <$> l).
Definition subsidies_of (l : list bytes) : Z := sum_list_Z ((λ b, if bool_decide (b ∈ non_daa) then 0 else from_option rw_subsidy 0 (rewards !! b)) <$> l).
Definition lost_fees (l : list bytes) : Z := sum_list_Z ((λ b, if bool_decide (b ∈ non_daa) then from_option rw_total_fees 0 (rewards !! b) else 0) <$> l).

Lemma add_s_ok {E} a b : - 2 ^ 127 <= a + b < 2 ^ 127 → add_s (E := E) 128 a b = Ok (a + b).
Proof. intros H. unfold add_s. change (2 ^ (128 - 1)) with (2 ^ 127). by rewrite (proj2 (Z.leb_le _ _)), (proj2 (Z.ltb_lt _ _)) by lia. Qed.

(** The sums a list of rewards splits into. *)
Lemma sums_split l : wf_rewards rewards l → 0 <= fees_of l ∧ 0 <= subsidies_of l ∧ 0 <= lost_fees l ∧ lost_fees l <= fees_of l ∧
  blue_total rewards non_daa l = subsidies_of l + fees_of l - lost_fees l ∧ red_total rewards non_daa l = subsidies_of l + fees_of l.
Proof.
  unfold fees_of, subsidies_of, lost_fees, blue_total, red_total. induction 1 as [|b l (r & Hr & Hs & Hf) _ IH]; [by cbn|]. rewrite !fmap_cons. cbn [sum_list_Z]. rewrite Hr. cbn [from_option].
  unfold reward_total in *. case_bool_decide; lia.
Qed.
Lemma blue_delta_ok l : ∀ d, wf_rewards rewards l → - 2 ^ 127 <= d - fees_of l → d + subsidies_of l < 2 ^ 127 →
  res_foldl (blue_delta rewards non_daa) d l = Ok (d + subsidies_of l - lost_fees l).
Proof.
  induction l as [|b l IH]; intros d Hw Hlo Hhi; [cbn; f_equal; unfold subsidies_of, lost_fees; cbn; lia|].
  apply Forall_cons_1 in Hw as [(r & Hr & Hs & Hf) Hw]. pose proof (sums_split l Hw) as (H1 & H2 & H3 & H4 & _).
  unfold fees_of, subsidies_of, lost_fees in *. rewrite !fmap_cons in *. cbn [sum_list_Z res_foldl] in *. rewrite Hr in *. cbn [from_option] in *.
  assert (blue_delta rewards non_daa d b = if bool_decide (b ∈ non_daa) then add_s 128 d (- rw_total_fees r) else add_s 128 d (rw_subsidy r)) as -> by (unfold blue_delta; by rewrite Hr).
  case_bool_decide; rewrite add_s_ok by lia; cbn [mbind res_bind]; rewrite IH by (done || lia); f_equal; lia.
Qed.
Lemma red_delta_ok l : ∀ d, wf_rewards rewards l → - 2 ^ 127 <= d → d + subsidies_of l < 2 ^ 127 → res_foldl (red_delta rewards non_daa) d l = Ok (d + subsidies_of l).
Proof.
  induction l as [|b l IH]; intros d Hw Hlo Hhi; [cbn; f_equal; unfold subsidies_of; cbn; lia|].
  apply Forall_cons_1 in Hw as [(r & Hr & Hs & Hf) Hw]. pose proof (sums_split l Hw) as (H1 & H2 & _).
  unfold subsidies_of in *. rewrite !fmap_cons in *. cbn [sum_list_Z res_foldl] in *. rewrite Hr in *. cbn [from_option] in *.
  assert (red_delta rewards non_daa d b = if bool_decide (b ∈ non_daa) then Ok d else add_s 128 d (rw_subsidy r)) as -> by (unfold red_delta; by rewrite Hr).
  case_bool_decide; [|rewrite add_s_ok by lia]; cbn [mbind res_bind]; rewrite IH by (done || lia); f_equal; lia.
Qed.

(** The check compares the growth of the pool and of what is carried with the subsidies of the rewarded blocks. *)
Lemma pool_delta_value gd parent computed dev dev' slot slot' :
  wf_rewards rewards (mergeset_blues gd ++ mergeset_reds gd) →
  0 <= tot_coinbase computed - tot_coinbase parent < 2 ^ 64 → 0 <= tot_fees computed - tot_fees parent < 2 ^ 64 →
  0 <= dev < 2 ^ 64 → 0 <= dev' < 2 ^ 64 → 0 <= acc_amount slot < 2 ^ 64 → 0 <= acc_amount slot' < 2 ^ 64 →
  subsidies_of (mergeset_blues gd) + subsidies_of (mergeset_reds gd) < 2 ^ 65 → fees_of (mergeset_blues gd) < 2 ^ 65 →
  pool_delta_ok gd rewards non_daa parent computed dev dev' slot slot' =
  Ok (bool_decide ((tot_coinbase computed - tot_coinbase parent) - (tot_fees computed - tot_fees parent) + (dev' - dev) + (acc_amount slot' - acc_amount slot) =
    subsidies_of (mergeset_blues gd) + subsidies_of (mergeset_reds gd) - lost_fees (mergeset_blues gd))).
Proof.
  intros [Hwb Hwr]%Forall_app Hc Hf Hd Hd' Hs Hs' Hsub Hfb. destruct (sums_split _ Hwb) as (B1 & B2 & B3 & B4 & _). destruct (sums_split _ Hwr) as (_ & R2 & _).
  unfold pool_delta_ok. rewrite (proj2 (sub_u_ok _ (tot_coinbase parent) _)) by (split; [reflexivity|lia]). cbn [mbind res_bind].
  rewrite (proj2 (sub_u_ok _ (tot_fees parent) _)) by (split; [reflexivity|lia]). cbn [mbind res_bind].
  assert (∀ x, 0 <= x < 2 ^ 64 → to_signed 128 x = x) as Hsg by (intros x Hx; unfold to_signed; destruct (Z.ltb_spec x (2 ^ (128 - 1))); lia). rewrite !Hsg by lia.
  rewrite add_s_ok by lia. cbn [mbind res_bind]. rewrite (blue_delta_ok _ 0 Hwb) by lia. cbn [mbind res_bind]. rewrite (red_delta_ok _ _ Hwr) by lia. cbn [mbind res_bind].
  do 4 (rewrite add_s_ok by lia; cbn [mbind res_bind]). f_equal. case_bool_decide; [apply Z.eqb_eq|apply Z.eqb_neq]; lia.
Qed.
End delta.

(** The payload codec is exact: well-formed data is serialized and read back, a payload that is read serializes to
    itself, reading never panics, and replacing the miner data equals serializing with the new miner data. *)
Theorem coinbase_payload_exact m d p miner :
  0 <= coinbase_payload_script_public_key_max_len m <= 255 → wf_coinbase_data m d → wf_bytes p →
  (∃ q, serialize_coinbase_payload m d = Ok q ∧ (Zlength q <= max_coinbase_payload_len m → deserialize_coinbase_payload m q = Ok d) ∧
        modify_coinbase_payload m q miner = serialize_coinbase_payload m (with_miner d miner)) ∧
  match deserialize_coinbase_payload m p with
  | Ok d' => wf_coinbase_data m d' ∧ serialize_coinbase_payload m d' = Ok p
  | Err _ => True
  | Panic => False
  end.
Proof.
  intros Hm Hd Hp. split; [|by apply encode_decode]. pose proof (serialize_shape m Hm d Hd) as E. eexists. split; [exact E|].
  split; [by apply decode_encode|by apply modify_serialize].
Qed.

(** The pool-delta check accepts a block with the expected coinbase exactly when the fees its transition collected are
    the fees its rewards re-mint: neither a payout nor an accrual can disqualify it. *)
Theorem pool_delta_exact m daa_score miner gd rewards non_daa root parent_daa_score dev slot tpl parent fees :
  wf_manager m → wf_rewards rewards (mergeset_blues gd ++ mergeset_reds gd) → canonical_slot slot → 0 <= dev → (dev_fee_recipient m = None → dev = 0) →
  0 <= daa_score < 2 ^ 64 → Zlength (spk_script (miner_spk miner)) <= coinbase_payload_script_public_key_max_len m →
  (is_active (miner_accrual_activation m) daa_score = false → acc_amount slot = 0) →
  (is_active (dev_fee_accrual_activation m) daa_score = false → dev = 0) →
  blue_total rewards non_daa (mergeset_blues gd) + red_total rewards non_daa (mergeset_reds gd) + acc_amount slot + dev < 2 ^ 64 →
  fees_of rewards (mergeset_blues gd) < 2 ^ 64 → 0 <= fees < 2 ^ 64 →
  expected_coinbase_transaction m daa_score miner gd rewards non_daa root parent_daa_score dev slot = Ok tpl →
  pool_delta_ok gd rewards non_daa parent
    (mk_totals (tot_coinbase parent + output_sum (outputs (tpl_tx tpl))) (tot_fees parent + fees)) dev (dev_accrued tpl) slot (miner_accrual tpl) =
  Ok (bool_decide (fees = fees_of rewards (mergeset_blues gd) + fees_of rewards (mergeset_reds gd))).
Proof.
  intros Hm Hw Hc Hd Hrec Hdaa Hlen Hs0 Hd0 Ht Hfb Hf E.
  destruct (expected_coinbase_ok m daa_score miner gd rewards non_daa root parent_daa_score dev slot Hm Hw Hc Hd Hrec Hdaa Hlen Ht) as (tpl' & E' & Hsum & Hda & [Hs _] & Hpos & _).
  rewrite E in E'. injection E' as <-. apply Forall_app in Hw as [Hwb Hwr]. destruct (sums_split rewards non_daa _ Hwb) as (B1 & B2 & B3 & B4 & B5 & _).
  destruct (sums_split rewards non_daa _ Hwr) as (R1 & R2 & _ & _ & _ & R5). destruct Hc as [Hc _]. cbv zeta in *.
  assert (0 <= output_sum (outputs (tpl_tx tpl))) as Hos.
  { apply sum_list_Z_nonneg, Forall_fmap. eapply Forall_impl; [exact Hpos|]. intros o Ho. cbn in *. lia. }
  assert (output_sum (outputs (tpl_tx tpl)) + acc_amount (miner_accrual tpl) + dev_accrued tpl = blue_total rewards non_daa (mergeset_blues gd) + red_total rewards non_daa (mergeset_reds gd) + acc_amount slot + dev) as Hbal.
  { rewrite Hsum. destruct (is_active (miner_accrual_activation m) daa_score), (is_active (dev_fee_accrual_activation m) daa_score); rewrite ?Hs0, ?Hd0 by done; lia. }
  rewrite pool_delta_value by (cbn [tot_coinbase tot_fees]; (by apply Forall_app) || lia). f_equal. cbn [tot_coinbase tot_fees].
  apply bool_decide_ext. lia.
Qed.

(** ** Examples *)

Definition example_manager : CoinbaseManager :=
  mk_manager 150 204 0 50 (mk_forked 1 1 FORK_NEVER) FORK_NEVER 50 (Some (zeros 43)) 0 10 FORK_NEVER 10 0
    (scaled 1 <$> SUBSIDY_BY_MONTH_TABLE) (scaled 1 <$> SUBSIDY_BY_MONTH_TABLE) FORK_NEVER.
Lemma example_manager_wf : wf_manager example_manager.
Proof. split; cbn; try done; try lia. Qed.
Definition example_gd : GhostdagData := mk_ghostdag 7 [[1]; [2]] [[3]].
Definition example_rewards : gmap bytes BlockRewardData :=
  {[ [1] := mk_reward 100 3 (mk_spk 0 [9]); [2] := mk_reward 100 0 (mk_spk 0 [9]); [3] := mk_reward 60 2 (mk_spk 0 [8]) ]}.
Lemma example_rewards_wf : wf_rewards example_rewards (mergeset_blues example_gd ++ mergeset_reds example_gd).
Proof. repeat (apply Forall_cons; split; [eexists; split; [reflexivity|done]|]). constructor. Qed.
Definition example_miner : MinerData := mk_miner_data (mk_spk 0 [7]) [].
Definition example_slot : MinerAccrual := mk_accrual (mk_spk 0 [9]) 40.

Lemma coinbase_conserves_value_witness :
  ∃ tpl, expected_coinbase_transaction example_manager 25 example_miner example_gd example_rewards ∅ (zeros 32) 24 5 example_slot = Ok tpl ∧
    output_sum (outputs (tpl_tx tpl)) + acc_amount (miner_accrual tpl) + dev_accrued tpl = 265 + 40 + 5.
Proof.
  destruct (coinbase_conserves_value example_manager 25 example_miner example_gd example_rewards ∅ (zeros 32) 24 5 example_slot) as (tpl & E & H & _).
  - exact example_manager_wf.
  - exact example_rewards_wf.
  - split; cbn; lia.
  - lia.
  - discriminate.
  - lia.
  - vm_compute. discriminate.
  - vm_compute. reflexivity.
  - exists tpl. split; [exact E|]. exact H.
Defined.


Definition example_data : CoinbaseData := mk_coinbase_data 5 600 (zeros 32) example_miner.
Lemma example_data_wf : wf_coinbase_data example_manager example_data.
Proof. split; vm_compute; (reflexivity || discriminate || (split; (reflexivity || discriminate))). Qed.
Lemma coinbase_payload_exact_witness : ∃ q, serialize_coinbase_payload example_manager example_data = Ok q ∧ deserialize_coinbase_payload example_manager q = Ok example_data.
Proof.
  destruct (coinbase_payload_exact example_manager example_data [] example_miner) as [(q & E & Hq & _) _].
  - cbn. lia.
  - exact example_data_wf.
  - constructor.
  - exists q. split; [exact E|]. apply Hq. vm_compute in E. injection E as <-. vm_compute. discriminate.
Defined.

Lemma pool_delta_exact_witness :
  ∃ tpl, expected_coinbase_transaction example_manager 25 example_miner example_gd example_rewards ∅ (zeros 32) 24 5 example_slot = Ok tpl ∧
    pool_delta_ok example_gd example_rewards ∅ (mk_totals 1000 10) (mk_totals (1000 + output_sum (outputs (tpl_tx tpl))) (10 + 5)) 5 (dev_accrued tpl) example_slot (miner_accrual tpl) = Ok true.
Proof.
  destruct (expected_coinbase_ok example_manager 25 example_miner example_gd example_rewards ∅ (zeros 32) 24 5 example_slot) as (tpl & E & _);
    [exact example_manager_wf|exact example_rewards_wf|split; cbn; lia|lia|discriminate|lia|vm_compute; discriminate|vm_compute; reflexivity|].
  exists tpl. split; [exact E|].
  rewrite (pool_delta_exact example_manager 25 example_miner example_gd example_rewards ∅ (zeros 32) 24 5 example_slot tpl (mk_totals 1000 10) 5);
    [reflexivity|exact example_manager_wf|exact example_rewards_wf|split; cbn; lia|lia|discriminate|lia|vm_compute; discriminate|discriminate|discriminate|vm_compute; reflexivity|vm_compute; reflexivity|lia|exact E].
Defined.
