(* ===== verification/CoinbaseNotes.v ===== *)
(** Coinbase notes (shielded-core/src/coinbase.rs, and [build_coinbase_mint] of
    consensus/src/processes/shielded.rs).

    The note of a reward is derived from public data: its [rho] and seed come from the
    coinbase transaction, the output index and, after the fork, the block hash.  The
    address, note and field types of the orchard and pasta crates and the hash function
    are parameters. *)
From Stdlib Require Import String.
From stdpp Require Import base list.
From S2P Require Import Prelude Tree ShieldedState Tx Coinbase.

(** The orchard types a coinbase note is made of. *)
Class OrchardNotes (O : OrchardTree) := {
  Address : Type;
  Rho : Type;
  RandomSeed : Type;
  from_raw_address_bytes : bytes → option Address;
  uniform_to_repr : bytes → bytes;
  rho_from_bytes : bytes → option Rho;
  seed_from_bytes : bytes → Rho → option RandomSeed;
  (** [Note::from_parts] and its commitment. *)
  note_commitment_of : Address → Z → Rho → RandomSeed → option Cmx;
  cmx_to_bytes : Cmx → bytes;
}.
(** A reduced field element is a canonical [Rho], and a commitment is read back from its bytes. *)
Class OrchardNotesLaws {O : OrchardTree} (N : OrchardNotes O) : Prop := {
  rho_canonical h : is_Some (rho_from_bytes (uniform_to_repr h));
  cmx_roundtrip c : cmx_from_bytes (cmx_to_bytes c) = Some c;
}.

Definition RHO_PERSONAL : bytes := byte_str "zkas_cb_rho_0000".
Definition SEED_PERSONAL : bytes := byte_str "zkas_cb_seed0000".

Record CoinbaseNoteDesc := mk_desc { recipient : bytes; rho : bytes; rseed : bytes }.
Inductive CoinbaseNoteError := BadRecipient | BadRho | BadRseed | BadNote.

Section notes.
Context {O : OrchardTree} {N : OrchardNotes O} (blake2b_64 blake2b_32 : bytes → bytes → bytes).

Definition is_canonical_orchard_payout (script : bytes) : bool :=
  (length script =? 43)%nat && bool_decide (is_Some (from_raw_address_bytes script)).

(** The seed candidates, by counter. *)
Definition candidate (seed : bytes) (ctr : Z) : bytes := blake2b_32 SEED_PERSONAL (seed ++ to_le_bytes 4 ctr).
(** A turn of the loop over the 32-bit counter, and the loop: it leaves with a seed, or by the overflow of its counter. *)
Definition rseed_turn (seed : bytes) (r : Rho) (ctr : Z) : Z + exec bytes :=
  let cand := candidate seed ctr in
  if bool_decide (is_Some (seed_from_bytes cand r)) then inr (Ok cand)
  else match add_u (E := Empty_set) 32 ctr 1 with Ok ctr => inl ctr | _ => inr Panic end.
Definition derive_rseed (seed : bytes) (r : Rho) : exec bytes :=
  match loop_pos (rseed_turn seed r) 4294967296 0 with inr res => res | inl _ => Panic end.
Definition derive_coinbase_note_desc (recipient seed : bytes) : exec CoinbaseNoteDesc :=
  let rho_bytes := uniform_to_repr (blake2b_64 RHO_PERSONAL seed) in
  r ← unwrap (rho_from_bytes rho_bytes);
  rs ← derive_rseed seed r;
  Ok (mk_desc recipient rho_bytes rs).

Definition coinbase_note_commitment (desc : CoinbaseNoteDesc) (v : Z) : res CoinbaseNoteError Cmx :=
  a ← ok_or (from_raw_address_bytes (recipient desc)) BadRecipient;
  r ← ok_or (rho_from_bytes (rho desc)) BadRho;
  s ← ok_or (seed_from_bytes (rseed desc) r) BadRseed;
  ok_or (note_commitment_of a v r s) BadNote.
Definition coinbase_note (desc : CoinbaseNoteDesc) (v : Z) : res CoinbaseNoteError CoinbaseNote :=
  c ← coinbase_note_commitment desc v; Ok (mkCoinbaseNote v c).
Definition coinbase_mint_of (descs : list (CoinbaseNoteDesc * Z)) : res CoinbaseNoteError CoinbaseMint :=
  ns ← res_map (λ '(d, v), coinbase_note d v) descs; Ok (mkCoinbaseMint ns).

(** ** The notes of a block *)

(** [ShieldedManagerError::MalformedCoinbaseNote], by its message. *)
Inductive NotesError := ScriptTooShort | BadPayoutAddress.

Definition note_seed (block_hash : option bytes) (coinbase_txid : bytes) (i : nat) : bytes :=
  default [] block_hash ++ coinbase_txid ++ to_le_bytes 4 (wrap 32 (Z.of_nat i)).
Definition note_of_output (coinbase_txid : bytes) (block_hash : option bytes) (i : nat) (script : bytes) (v : Z) : res NotesError CoinbaseNote :=
  if (length script <? 43)%nat then Err ScriptTooShort
  else
    desc ← map_err (λ e : Empty_set, match e with end) (derive_coinbase_note_desc (take 43 script) (note_seed block_hash coinbase_txid i));
    map_err (λ _, BadPayoutAddress) (coinbase_note desc v).
Fixpoint notes_loop (coinbase_txid : bytes) (block_hash : option bytes) (i : nat) (outs : list (bytes * Z)) : res NotesError (list CoinbaseNote) :=
  match outs with
  | [] => Ok []
  | (script, v) :: outs =>
      n ← note_of_output coinbase_txid block_hash i script v;
      ns ← notes_loop coinbase_txid block_hash (S i) outs;
      Ok (n :: ns)
  end.
Definition coinbase_notes_from_outputs (coinbase_txid : bytes) (outs : list (bytes * Z)) (block_hash : option bytes) : res NotesError (list CoinbaseNote) :=
  notes_loop coinbase_txid block_hash 0 outs.
Definition build_coinbase_mint (tx_id : Transaction → bytes) (coinbase_tx : Transaction) (block_hash : option bytes) : res NotesError CoinbaseMint :=
  ns ← coinbase_notes_from_outputs (tx_id coinbase_tx) ((λ o, (spk_script (out_spk o), value o)) <$> outputs coinbase_tx) block_hash;
  Ok (mkCoinbaseMint ns).
End notes.

(** The notes have the values of the outputs. *)
Lemma notes_loop_values {O : OrchardTree} {N : OrchardNotes O} h64 h32 txid bh outs : ∀ i ns,
  notes_loop h64 h32 txid bh i outs = Ok ns → note_value <$> ns = outs.*2.
Proof.
  induction outs as [|[script v] outs IH]; intros i ns; cbn; [by intros [= <-]|]. intros (n & Hn & H)%res_bind_ok. apply res_bind_ok in H as (ns' & Hns & [= <-]).
  rewrite !fmap_cons, (IH _ _ Hns). f_equal. unfold note_of_output in Hn. destruct (_ <? _)%nat; [done|]. apply res_bind_ok in Hn as (d & _ & Hn).
  unfold coinbase_note in Hn. destruct (coinbase_note_commitment d v); cbn in Hn; [by injection Hn as <-|done|done].
Qed.
Lemma build_mint_values {O : OrchardTree} {N : OrchardNotes O} h64 h32 id tx bh mint :
  build_coinbase_mint h64 h32 id tx bh = Ok mint → note_value <$> notes mint = value <$> outputs tx.
Proof.
  unfold build_coinbase_mint, coinbase_notes_from_outputs. intros (ns & Hns%notes_loop_values & [= <-])%res_bind_ok. cbn. rewrite Hns, <- list_fmap_compose. done.
Qed.

(** ** Derivation and minting *)

Section mint.
Context {O : OrchardTree} {N : OrchardNotes O} {NL : OrchardNotesLaws N} (blake2b_64 blake2b_32 : bytes → bytes → bytes).

Definition rho_bytes (seed : bytes) : bytes := uniform_to_repr (blake2b_64 RHO_PERSONAL seed).
(** The counter [c] is the first whose candidate is a seed for the note's [rho]. *)
Definition valid_counter (seed : bytes) (c : nat) : Prop :=
  ∃ r, rho_from_bytes (rho_bytes seed) = Some r ∧ is_Some (seed_from_bytes (candidate blake2b_32 seed (Z.of_nat c)) r).
Definition first_counter (seed : bytes) (c : nat) : Prop := valid_counter seed c ∧ Z.of_nat c < 2 ^ 32 ∧ ∀ c', (c' < c)%nat → ¬ valid_counter seed c'.

Definition no_counter (seed : bytes) : Prop := ∀ c : nat, Z.of_nat c < 2 ^ 32 → ¬ valid_counter seed c.

Lemma first_counter_unique seed c c' : first_counter seed c → first_counter seed c' → c = c'.
Proof. intros (Hv & _ & Hf) (Hv' & _ & Hf'). destruct (Nat.lt_trichotomy c c') as [Hl|[->|Hl]]; [by destruct (Hf' c Hl)|done|by destruct (Hf c' Hl)]. Qed.
(** From the counter [k], with as many turns as the width leaves. *)
Lemma rseed_loop seed r : rho_from_bytes (rho_bytes seed) = Some r → ∀ n k, (∀ c, (c < k)%nat → ¬ valid_counter seed c) → Z.of_nat k < 2 ^ 32 → 2 ^ 32 <= Z.of_nat k + Z.of_nat n →
  (∃ c, first_counter seed c ∧ loop_nat (rseed_turn blake2b_32 seed r) n (Z.of_nat k) = inr (Ok (candidate blake2b_32 seed (Z.of_nat c)))) ∨
  no_counter seed ∧ loop_nat (rseed_turn blake2b_32 seed r) n (Z.of_nat k) = inr Panic.
Proof.
  intros Hr n. induction n as [|n IH]; intros k Hf Hk Hn; [lia|]. cbn [loop_nat]. unfold rseed_turn at 1 3. case_bool_decide as Hv.
  - left. exists k. split; [|done]. split; [by exists r|done].
  - assert (¬ valid_counter seed k) as Hnk by (intros (r' & Hr' & Hv'); rewrite Hr in Hr'; by injection Hr' as <-).
    assert (∀ c, (c < S k)%nat → ¬ valid_counter seed c) as Hf' by (intros c Hc; destruct (decide (c = k)) as [-> | Hne]; [done|apply Hf; lia]).
    destruct (decide (Z.of_nat (S k) < 2 ^ 32)) as [Hlt|Hge].
    + rewrite (proj2 (add_u_ok 32 (Z.of_nat k) 1 (Z.of_nat (S k)))) by lia. apply IH; [done|done|lia].
    + right. split; [intros c Hc; apply Hf'; lia|]. unfold add_u. rewrite (proj2 (checked_add_None 32 (Z.of_nat k) 1)) by lia. done.
Qed.
(** The loop ends, at the first counter that gives a seed or by the overflow of the counter. *)
Lemma derive_rseed_cases seed r : rho_from_bytes (rho_bytes seed) = Some r →
  (∃ c, first_counter seed c ∧ derive_rseed blake2b_32 seed r = Ok (candidate blake2b_32 seed (Z.of_nat c))) ∨ no_counter seed ∧ derive_rseed blake2b_32 seed r = Panic.
Proof.
  intros Hr. unfold derive_rseed. rewrite loop_pos_nat. pose proof (positive_nat_Z 4294967296) as Hz. revert Hz. generalize (Pos.to_nat 4294967296). intros n Hn.
  destruct (rseed_loop seed r Hr n 0 ltac:(lia) ltac:(lia) ltac:(lia)) as [(c & Hc & E)|[Hno E]]; change (Z.of_nat 0) with 0 in E; rewrite E; eauto.
Qed.

Lemma derive_desc_cases recipient seed :
  (∃ c, first_counter seed c ∧ derive_coinbase_note_desc blake2b_64 blake2b_32 recipient seed = Ok (mk_desc recipient (rho_bytes seed) (candidate blake2b_32 seed (Z.of_nat c)))) ∨
  no_counter seed ∧ derive_coinbase_note_desc blake2b_64 blake2b_32 recipient seed = Panic.
Proof.
  destruct (rho_canonical (blake2b_64 RHO_PERSONAL seed)) as [r Hr]. unfold derive_coinbase_note_desc. rewrite Hr, unwrap_bind.
  pose proof (derive_rseed_cases seed r Hr) as H. revert H. generalize (derive_rseed blake2b_32 seed r). intros x [(c & Hc & ->)|[Hn ->]]; cbn [unwrap mbind res_bind]; [left; exists c; split; [done|reflexivity]|right; split; [done|reflexivity]].
Qed.

(** The address and the note of an output. *)
Definition payable (seed : bytes) (c : nat) (script : bytes) (v : Z) : option Cmx :=
  if (length script <? 43)%nat then None
  else
    match from_raw_address_bytes (take 43 script), rho_from_bytes (rho_bytes seed) with
    | Some a, Some r => match seed_from_bytes (candidate blake2b_32 seed (Z.of_nat c)) r with Some s => note_commitment_of a v r s | None => None end
    | _, _ => None
    end.

(** The three outcomes of an output: a note or an error, and no seed. *)
Definition mintable (seed script : bytes) (v : Z) (n : CoinbaseNote) : Prop :=
  ∃ c cmx, first_counter seed c ∧ payable seed c script v = Some cmx ∧ n = mkCoinbaseNote v cmx.
Definition seedless (seed script : bytes) : Prop := (43 <= length script)%nat ∧ no_counter seed.

Lemma mintable_seed seed script v n : mintable seed script v n → ¬ seedless seed script.
Proof. intros (c & _ & (Hv & Hc & _) & _) [_ Hn]. exact (Hn c Hc Hv). Qed.
Lemma mintable_unique seed script v n n' : mintable seed script v n → mintable seed script v n' → n = n'.
Proof. intros (c & cmx & Hc & Hp & ->) (c' & cmx' & Hc' & Hp' & ->). rewrite <- (first_counter_unique _ _ _ Hc Hc') in Hp'. rewrite Hp in Hp'. by injection Hp' as <-. Qed.

Lemma note_of_output_cases txid bh i script v : let seed := note_seed bh txid i in
  match note_of_output blake2b_64 blake2b_32 txid bh i script v with
  | Ok n => mintable seed script v n
  | Err _ => (∀ n, ¬ mintable seed script v n) ∧ ¬ seedless seed script
  | Panic => seedless seed script
  end.
Proof.
  intros seed. unfold note_of_output. destruct (length script <? 43)%nat eqn:El.
  { split; [|intros [Hl _]; apply Nat.ltb_lt in El; lia]. intros n (c & cmx & _ & Hp & _). unfold payable in Hp. by rewrite El in Hp. }
  fold seed. destruct (rho_canonical (blake2b_64 RHO_PERSONAL seed)) as [r Hr]. fold (rho_bytes seed) in Hr. pose proof (derive_desc_cases (take 43 script) seed) as Hd. revert Hd.
  generalize (derive_coinbase_note_desc blake2b_64 blake2b_32 (take 43 script) seed). intros x [(c & Hc & ->)|[Hn ->]]; cbn [mbind res_bind map_err]; [|split; [by apply Nat.ltb_ge|done]].
  assert (payable seed c script v = match from_raw_address_bytes (take 43 script) with
    | Some a => match seed_from_bytes (candidate blake2b_32 seed (Z.of_nat c)) r with Some s => note_commitment_of a v r s | None => None end | None => None end) as Hp
    by (unfold payable; rewrite El, Hr; done).
  assert (∀ e : NotesError, payable seed c script v = None → (∀ n, ¬ mintable seed script v n) ∧ ¬ seedless seed script) as Hnone.
  { intros _ Hno. split; [|intros [_ Hn]; destruct Hc as (Hv & Hb & _); exact (Hn c Hb Hv)].
    intros n (c' & cmx & Hc' & Hp' & _). rewrite <- (first_counter_unique _ _ _ Hc Hc') in Hp'. congruence. }
  unfold coinbase_note, coinbase_note_commitment. cbn [recipient rho rseed]. rewrite Hr. destruct (from_raw_address_bytes (take 43 script)) as [a|]; [|by apply (Hnone BadPayoutAddress)].
  cbn [ok_or mbind res_bind]. destruct (seed_from_bytes _ r) as [s|]; [|by apply (Hnone BadPayoutAddress)]. cbn [ok_or mbind res_bind].
  destruct (note_commitment_of a v r s) as [cmx|] eqn:Ec; [|by apply (Hnone BadPayoutAddress)]. by exists c, cmx.
Qed.

(** The outputs of a coinbase, from index [i]: every one gives its note, or the first that does not decides. *)
Definition minted_notes (bh : option bytes) (txid : bytes) (i : nat) (outs : list (bytes * Z)) (ns : list CoinbaseNote) : Prop :=
  length ns = length outs ∧ ∀ k script v n, outs !! k = Some (script, v) → ns !! k = Some n → mintable (note_seed bh txid (i + k)) script v n.
Definition mint_stops (bh : option bytes) (txid : bytes) (i : nat) (outs : list (bytes * Z)) : Prop :=
  ∃ k script v ns, outs !! k = Some (script, v) ∧ seedless (note_seed bh txid (i + k)) script ∧ minted_notes bh txid i (take k outs) ns.

Lemma minted_notes_cons bh txid i script v outs n ns :
  minted_notes bh txid i ((script, v) :: outs) (n :: ns) ↔ mintable (note_seed bh txid i) script v n ∧ minted_notes bh txid (S i) outs ns.
Proof.
  split.
  - intros [Hl H]. split; [rewrite <- (Nat.add_0_r i); by apply (H 0%nat)|]. split; [cbn in Hl; lia|]. intros k sc w m Ho Hm.
    replace (S i + k)%nat with (i + S k)%nat by lia. by apply (H (S k)).
  - intros [Hn [Hl H]]. split; [cbn; lia|]. intros [|k] sc w m Ho Hm; cbn in Ho, Hm; [rewrite Nat.add_0_r; by simplify_eq|].
    replace (i + S k)%nat with (S i + k)%nat by lia. by apply (H k).
Qed.
Lemma minted_notes_nil bh txid i ns : minted_notes bh txid i [] ns ↔ ns = [].
Proof. split; [intros [Hl _]; by apply nil_length_inv|intros ->; by split]. Qed.
Lemma minted_notes_inv bh txid i script v outs ns : minted_notes bh txid i ((script, v) :: outs) ns →
  ∃ n ns', ns = n :: ns' ∧ mintable (note_seed bh txid i) script v n ∧ minted_notes bh txid (S i) outs ns'.
Proof. destruct ns as [|n ns]; [by intros [[=] _]|]. intros [Hn Hr]%minted_notes_cons. by exists n, ns. Qed.
Lemma mint_stops_cons bh txid i script v outs :
  mint_stops bh txid i ((script, v) :: outs) ↔
  seedless (note_seed bh txid i) script ∨ (∃ n, mintable (note_seed bh txid i) script v n) ∧ mint_stops bh txid (S i) outs.
Proof.
  split.
  - intros ([|k] & sc & w & ns & Ho & Hs & Hm); cbn in Ho; [left; rewrite Nat.add_0_r in Hs; by simplify_eq|right].
    cbn [take] in Hm. apply minted_notes_inv in Hm as (n & ns' & -> & Hn & Hm). split; [by exists n|]. exists k, sc, w, ns'. by replace (S i + k)%nat with (i + S k)%nat by lia.
  - intros [Hs|[[n Hn] (k & sc & w & ns & Ho & Hs & Hm)]].
    + exists 0%nat, script, v, []. rewrite Nat.add_0_r. split; [done|]. split; [done|]. by apply minted_notes_nil.
    + exists (S k), sc, w, (n :: ns). replace (i + S k)%nat with (S i + k)%nat by lia. split; [done|]. split; [done|]. cbn [take]. by apply minted_notes_cons.
Qed.
Lemma notes_loop_cases txid bh outs : ∀ i,
  match notes_loop blake2b_64 blake2b_32 txid bh i outs with
  | Ok ns => minted_notes bh txid i outs ns ∧ ¬ mint_stops bh txid i outs
  | Err _ => (∀ ns, ¬ minted_notes bh txid i outs ns) ∧ ¬ mint_stops bh txid i outs
  | Panic => (∀ ns, ¬ minted_notes bh txid i outs ns) ∧ mint_stops bh txid i outs
  end.
Proof.
  induction outs as [|[script v] outs IH]; intros i; cbn [notes_loop].
  { split; [by apply minted_notes_nil|]. by intros ([|k] & sc & w & ns & [=] & _). }
  pose proof (note_of_output_cases txid bh i script v) as Hn. cbv zeta in Hn. destruct (note_of_output _ _ _ _ _ _ _) as [n|e|]; cbn [mbind res_bind].
  - specialize (IH (S i)). destruct (notes_loop _ _ _ _ _ _) as [ns|e|]; cbn [mbind res_bind]; destruct IH as [H1 H2];
      split; try (intros ns' (? & ? & _ & _ & Hm)%minted_notes_inv; by eapply H1);
      try (intros [Hs|[_ Hs]]%mint_stops_cons; [by eapply mintable_seed|done]).
    + by apply minted_notes_cons.
    + apply mint_stops_cons. right. eauto.
  - destruct Hn as [Hn Hs]. split; [intros ns (n & ? & _ & Hm & _)%minted_notes_inv; exact (Hn n Hm)|].
    intros [Hs'|[[n Hm] _]]%mint_stops_cons; [done|exact (Hn n Hm)].
  - split; [intros ns (n & ? & _ & Hm & _)%minted_notes_inv; by eapply mintable_seed|]. apply mint_stops_cons. by left.
Qed.

Lemma mint_returns tx_id tx bh :
  (∀ i, (i < length (outputs tx))%nat → ∃ c, Z.of_nat c < 2 ^ 32 ∧ valid_counter (note_seed bh (tx_id tx) i) c) →
  build_coinbase_mint blake2b_64 blake2b_32 tx_id tx bh ≠ Panic.
Proof.
  intros Hc. unfold build_coinbase_mint, coinbase_notes_from_outputs. set (outs := _ <$> outputs tx). pose proof (notes_loop_cases (tx_id tx) bh outs 0) as H.
  destruct (notes_loop _ _ _ _ _ _) as [ns|e|]; [done..|]. destruct H as (_ & k & script & v & ns & Ho & [_ Hn] & _).
  apply lookup_lt_Some in Ho. unfold outs in Ho. rewrite length_fmap in Ho. destruct (Hc k Ho) as (c & Hb & Hv). by destruct (Hn c Hb).
Qed.

Lemma note_seed_inj bh bh' txid txid' i i' :
  length txid = 32%nat → length txid' = 32%nat → (∀ h, bh = Some h ∨ bh' = Some h → length h = 32%nat) → Z.of_nat i < 2 ^ 32 → Z.of_nat i' < 2 ^ 32 →
  note_seed bh txid i = note_seed bh' txid' i' → bh = bh' ∧ txid = txid' ∧ i = i'.
Proof.
  intros Ht Ht' Hh Hi Hi' E. unfold note_seed, wrap in E. rewrite !Z.mod_small in E by lia.
  assert (bh = bh') as ->.
  { pose proof (f_equal length E) as El. rewrite !length_app, !length_to_le_bytes, Ht, Ht' in El by lia.
    destruct bh as [h|], bh' as [h'|]; cbn in *; [|pose proof (Hh h (or_introl eq_refl)); lia|pose proof (Hh h' (or_intror eq_refl)); lia|done].
    f_equal. pose proof (Hh h (or_introl eq_refl)). pose proof (Hh h' (or_intror eq_refl)). apply app_inj_1 in E as [E _]; [done|lia]. }
  apply app_inj_1 in E as [_ E]; [|done]. apply app_inj_1 in E as [-> E]; [|lia]. split; [done|]. split; [done|].
  apply to_le_bytes_inj in E; unfold is_uint; lia.
Qed.
End mint.

(** C28. The derivation of a block's coinbase notes always ends, and its outcome is exact: the mint is returned exactly when
    every output names an address and its note commits under the first 32-bit counter that gives a seed, it then has one
    note per output with the output's value; it panics exactly when the first output that gives no note has none of the
    2^32 counters giving a seed; in every other case an error is returned. *)
Theorem coinbase_mint_exact {O : OrchardTree} {N : OrchardNotes O} {NL : OrchardNotesLaws N} (blake2b_64 blake2b_32 : bytes → bytes → bytes)
    (tx_id : Transaction → bytes) (tx : Transaction) (block_hash : option bytes) :
  let outs := (λ o, (spk_script (out_spk o), value o)) <$> outputs tx in
  let built := build_coinbase_mint blake2b_64 blake2b_32 tx_id tx block_hash in
  (∀ ns, built = Ok (mkCoinbaseMint ns) ↔ minted_notes blake2b_64 blake2b_32 block_hash (tx_id tx) 0 outs ns) ∧
  (∀ mint, built = Ok mint → minted (Some mint) = output_sum (outputs tx)) ∧
  (built = Panic ↔ mint_stops blake2b_64 blake2b_32 block_hash (tx_id tx) 0 outs).
Proof.
  intros outs built. split; [|split].
  - intros ns. unfold built, build_coinbase_mint, coinbase_notes_from_outputs. fold outs. pose proof (notes_loop_cases blake2b_64 blake2b_32 (tx_id tx) block_hash outs 0) as H.
    destruct (notes_loop _ _ _ _ _ _) as [ns'|e|]; cbn [mbind res_bind]; destruct H as [H1 H2]; [|split; [done|intros Hm; by destruct (H1 ns)]..].
    split; [by intros [= <-]|]. intros Hm. do 2 f_equal. apply list_eq_same_length with (length outs); [apply Hm|apply H1|].
    intros k n n' Hk Hn Hn'. destruct (lookup_lt_is_Some_2 outs k Hk) as [[script v] Ho]. eapply mintable_unique; [by eapply H1|by eapply Hm].
  - intros mint Hb%build_mint_values. unfold minted, cb_notes. cbn. rewrite Hb. done.
  - unfold built, build_coinbase_mint, coinbase_notes_from_outputs. fold outs. pose proof (notes_loop_cases blake2b_64 blake2b_32 (tx_id tx) block_hash outs 0) as H.
    destruct (notes_loop _ _ _ _ _ _) as [ns'|e|]; cbn [mbind res_bind]; destruct H as [H1 H2]; split; done.
Qed.

(** ** Examples *)

Definition example_notes : OrchardNotes example_tree := {|
  Address := bytes; Rho := bytes; RandomSeed := bytes;
  from_raw_address_bytes := λ b, if (length b =? 43)%nat then Some b else None;
  uniform_to_repr := λ h, h;
  rho_from_bytes := λ b, Some b;
  seed_from_bytes := λ s _, if bool_decide (head s = Some 1) then Some s else None;
  note_commitment_of := λ _ v _ _, Some (v : @Cmx example_tree);
  cmx_to_bytes := λ c : @Cmx example_tree, [c];
|}.
Definition example_notes_laws : OrchardNotesLaws example_notes.
Proof. split; [intros h; by exists h|]. intros c. cbn [cmx_from_bytes cmx_to_bytes example_tree example_notes]. f_equal. exact (Z.lor_0_r c). Qed.
(** The counter bytes of the candidate. *)
Definition example_digest (_ b : bytes) : bytes := drop (length b - 4) b.
Definition example_coinbase_tx : Transaction := mk_tx 0 [] [output_new 60 (mk_spk 0 (zeros 43)); output_new 5 (mk_spk 0 (zeros 44))] 0 SUBNETWORK_ID_COINBASE 0 [] 0.

Lemma coinbase_mint_exact_witness :
  ∃ mint, build_coinbase_mint (N := example_notes) (λ _ b, b) example_digest (λ _, zeros 32) example_coinbase_tx (Some (zeros 32)) = Ok mint ∧ minted (Some mint) = 65.
Proof.
  destruct (coinbase_mint_exact (N := example_notes) (NL := example_notes_laws) (λ _ b, b) example_digest (λ _, zeros 32) example_coinbase_tx (Some (zeros 32))) as (_ & Hv & _).
  assert (is_ok (build_coinbase_mint (N := example_notes) (λ _ b, b) example_digest (λ _, zeros 32) example_coinbase_tx (Some (zeros 32))) = true) as Hs by (vm_compute; reflexivity).
  destruct (build_coinbase_mint _ _ _ _ _) as [mint|e|]; [|discriminate Hs..]. exists mint. split; [done|]. rewrite (Hv mint eq_refl). reflexivity.
Defined.
