(* ===== verification/Mergeset.v ===== *)
(** The mergeset of a block (consensus/src/pipeline/virtual_processor/utxo_validation.rs):
    the shielded side of [calculate_utxo_state] and the coinbase check.

    The merged blocks are walked in consensus order; their shielded transactions are
    collected with a compact record for wallets, and the fees of a block are credited
    to its reward.  A spend that is dropped afterwards has its fee taken back.  The
    transactions of a merged block that are valid in the UTXO view, with their fees, are
    data of the model. *)
From stdpp Require Import base gmap list.
From S2P Require Import Prelude Bundle Tree ShieldedState Tx Encoding TxHash TxValidator ShieldedStores ShieldedManager Coinbase.

Record ValidatedTransaction := mk_validated { vtx : Transaction; calculated_fee : Z }.
Record MergedBlock := mk_merged { mb_hash : bytes; mb_daa_score : Z; mb_coinbase_payload : bytes; mb_validated : list ValidatedTransaction }.

(** [CompactActionRecord::from_wire] and [to_bytes]. *)
Definition compact_record (a : ActionWire) : bytes := nullifier a ++ cmx a ++ ephemeral_key a ++ take 52 (enc_ciphertext a).

Section mergeset.
Context (H : HashDomain → bytes → bytes) {O : OrchardTree} (m : CoinbaseManager) (security_fork_activation : Z).

(** The fields of [UtxoProcessingContext] the shielded state uses, with the source block of every transaction. *)
Record MergesetContext := mk_mergeset {
  shielded_txs : list ShieldedTx;
  shielded_scan : list ShieldedScanTx;
  shielded_tx_sources : list bytes;
  mergeset_rewards : gmap bytes BlockRewardData;
}.

(** [from_bytes_at(..).ok().and_then(|b| from_bundle(&b).ok())] *)
Definition parse_spend (post_fork : bool) (tx : Transaction) : exec (option (ShieldedTx * ShieldedBundle)) :=
  b ← ok_q (from_bytes_at (payload tx) post_fork);
  match b with
  | None => Ok None
  | Some b => match from_bundle b with Ok stx => Ok (Some (stx, b)) | Err _ => Ok None | Panic => Panic end
  end.

(** One transaction of a merged block. *)
Definition collect_tx (post_fork : bool) (merged_block : bytes) (s : MergesetContext * Z) (v : ValidatedTransaction) : exec (MergesetContext * Z) :=
  let '(ctx, block_fee) := s in
  block_fee ← add_u 64 block_fee (calculated_fee v);
  if version (vtx v) =? TX_VERSION_SHIELDED then
    p ← parse_spend post_fork (vtx v);
    match p with
    | Some (stx, b) =>
        Ok (mk_mergeset (shielded_txs ctx ++ [stx]) (shielded_scan ctx ++ [mk_scan_tx (tx_id H (vtx v)) (mjoin (compact_record <$> actions b))])
              (shielded_tx_sources ctx ++ [merged_block]) (mergeset_rewards ctx), block_fee)
    | None => block_fee ← sub_u block_fee (calculated_fee v); Ok (ctx, block_fee)
    end
  else Ok (ctx, block_fee).

Definition collect_block (ctx : MergesetContext) (mb : MergedBlock) : exec MergesetContext :=
  let post_fork := is_active security_fork_activation (mb_daa_score mb) in
  '(ctx, block_fee) ← res_foldl (collect_tx post_fork (mb_hash mb)) (ctx, 0) (mb_validated mb);
  data ← match deserialize_coinbase_payload m (mb_coinbase_payload mb) with Ok d => Ok d | _ => Panic end;
  Ok (mk_mergeset (shielded_txs ctx) (shielded_scan ctx) (shielded_tx_sources ctx)
        (<[mb_hash mb := mk_reward (cb_subsidy data) block_fee (miner_spk (cb_miner_data data))]> (mergeset_rewards ctx))).

Definition collect_mergeset (merged : list MergedBlock) : exec MergesetContext := res_foldl collect_block (mk_mergeset [] [] [] ∅) merged.

(** [shielded_txs.retain(..)]: the fee of a dropped spend leaves the reward of its source. *)
Fixpoint retain_loop (txs : list ShieldedTx) (keep : list bool) (sources : list bytes) (rewards : gmap bytes BlockRewardData)
  : exec (list ShieldedTx * gmap bytes BlockRewardData) :=
  match txs, keep, sources with
  | [], _, _ => Ok ([], rewards)
  | stx :: txs, keep_it :: keep, source :: sources =>
      if (keep_it : bool) then
        '(txs, rewards) ← retain_loop txs keep sources rewards;
        Ok (stx :: txs, rewards)
      else
        reward ← unwrap (rewards !! source);
        fees ← sub_u (rw_total_fees reward) (tx_fee stx);
        retain_loop txs keep sources (<[source := mk_reward (rw_subsidy reward) fees (rw_spk reward)]> rewards)
  | _, _, _ => Panic
  end.
Definition retain (ctx : MergesetContext) (keep : list bool) : exec MergesetContext :=
  '(txs, rewards) ← retain_loop (shielded_txs ctx) keep (shielded_tx_sources ctx) (mergeset_rewards ctx);
  Ok (mk_mergeset txs (select (shielded_scan ctx) keep) (shielded_tx_sources ctx) rewards).

Definition verify_coinbase_transaction (coinbase : Transaction) (daa_score : Z) (gd : GhostdagData) (rewards : gmap bytes BlockRewardData)
    (non_daa : gset bytes) (shielded_commitment : bytes) (parent_daa_score dev_accrued_parent : Z) (miner_accrual_parent : MinerAccrual)
  : res () (Z * MinerAccrual) :=
  data ← match deserialize_coinbase_payload m (payload coinbase) with Ok d => Ok d | _ => Panic end;
  expected ← match expected_coinbase_transaction m daa_score (cb_miner_data data) gd rewards non_daa shielded_commitment parent_daa_score
                     dev_accrued_parent miner_accrual_parent with Ok e => Ok e | _ => Panic end;
  if bool_decide (tx_hash H coinbase = tx_hash H (tpl_tx expected)) then Ok (dev_accrued expected, miner_accrual expected) else Err ().
End mergeset.

(** ** Well-formed mergesets *)

Section spec.
Context (H : HashDomain → bytes → bytes) {O : OrchardTree} (m : CoinbaseManager) (security_fork_activation : Z).

(** What validation leaves of a transaction: the fee of a shielded one is the value balance of its bundle. *)
Record wf_validated (post_fork : bool) (v : ValidatedTransaction) : Prop := {
  wv_fee : 0 <= calculated_fee v;
  wv_bytes : wf_bytes (payload (vtx v));
  wv_len : Zlength (payload (vtx v)) < 2 ^ 63;
  wv_balance b : version (vtx v) = TX_VERSION_SHIELDED → from_bytes_at (payload (vtx v)) post_fork = Ok b → calculated_fee v = value_balance b;
}.
Definition claimed (mb : MergedBlock) : Z := sum_list_Z (calculated_fee <$> mb_validated mb).
Definition subsidy_of (mb : MergedBlock) : Z :=
  match deserialize_coinbase_payload m (mb_coinbase_payload mb) with Ok d => cb_subsidy d | _ => 0 end.
Record wf_merged (mb : MergedBlock) : Prop := {
  wm_bytes : wf_bytes (mb_coinbase_payload mb);
  wm_payload : ∃ d, deserialize_coinbase_payload m (mb_coinbase_payload mb) = Ok d;
  wm_txs : Forall (wf_validated (is_active security_fork_activation (mb_daa_score mb))) (mb_validated mb);
  wm_fees : claimed mb < 2 ^ 64;
}.
(** The fees of transactions that are not shielded. *)
Definition plain_fee (v : ValidatedTransaction) : Z := if version (vtx v) =? TX_VERSION_SHIELDED then 0 else calculated_fee v.
Definition plain_fees (mb : MergedBlock) : Z :=
  sum_list_Z (plain_fee <$> mb_validated mb).
Record wf_mergeset (merged : list MergedBlock) : Prop := {
  wms_hashes : NoDup (mb_hash <$> merged);
  wms_blocks : Forall wf_merged merged;
  wms_count : Zlength (mjoin (mb_validated <$> merged)) <= 2 ^ 64;
}.

(** The fees of the collected transactions that came from a block. *)
Definition credit (h : bytes) (txs : list ShieldedTx) (sources : list bytes) : Z :=
  sum_list_Z ((λ '(tx, s), if bool_decide (s = h) then tx_fee tx else 0) <$> zip txs sources).
Lemma credit_snoc h txs sources tx s : length txs = length sources →
  credit h (txs ++ [tx]) (sources ++ [s]) = credit h txs sources + (if bool_decide (s = h) then tx_fee tx else 0).
Proof. intros Hl. unfold credit. rewrite zip_with_app by done. rewrite fmap_app, sum_list_Z_app. cbn. lia. Qed.
Lemma credit_absent h txs sources : h ∉ sources → credit h txs sources = 0.
Proof.
  revert sources. induction txs as [|tx txs IH]; intros [|s sources] Hn; try done. apply not_elem_of_cons in Hn as [Hs Hn].
  unfold credit. cbn [zip zip_with fmap list_fmap sum_list_Z]. rewrite bool_decide_eq_false_2 by done. unfold credit in IH. rewrite (IH sources Hn). lia.
Qed.

(** The record of a transaction holds its nullifiers and its commitments, one compact record per action. *)
Definition archived (stx : ShieldedTx) (r : ShieldedScanTx) : Prop :=
  take 32 <$> chunks_exact COMPACT_ACTION_LEN (action_bytes r) = tx_nullifiers stx ∧
  Forall2 (λ c cm, cmx_from_bytes c = Some cm) (record_cmx <$> chunks_exact COMPACT_ACTION_LEN (action_bytes r)) (tx_commitments stx) ∧
  (length (action_bytes r) mod COMPACT_ACTION_LEN = 0)%nat.
Definition spend_wf (stx : ShieldedTx) : Prop := ShieldedState.wf_tx stx ∧ tx_burn stx = None.
(** The transactions a context holds, each with its source and its record. *)
Record ctx_ok (ctx : MergesetContext) : Prop := {
  cx_sources : length (shielded_txs ctx) = length (shielded_tx_sources ctx);
  cx_scan : Forall2 archived (shielded_txs ctx) (shielded_scan ctx);
  cx_txs : Forall spend_wf (shielded_txs ctx);
}.

Lemma compact_archived (acts : list ActionWire) cs : Forall wf_action acts → Forall2 (λ a c, cmx_from_bytes (cmx a) = Some c) acts cs →
  let records := chunks_exact COMPACT_ACTION_LEN (mjoin (compact_record <$> acts)) in
  take 32 <$> records = nullifier <$> acts ∧ Forall2 (λ c cm, cmx_from_bytes c = Some cm) (record_cmx <$> records) cs ∧
  (length (mjoin (compact_record <$> acts)) mod COMPACT_ACTION_LEN = 0)%nat.
Proof.
  intros Hw Hc. assert (Forall (λ r, length r = COMPACT_ACTION_LEN) (compact_record <$> acts)) as Hl.
  { apply Forall_fmap. eapply Forall_impl; [exact Hw|]. intros a ((H1 & _) & _ & (H2 & _) & _ & (H3 & _) & (H4 & _) & _).
    unfold compose, compact_record, COMPACT_ACTION_LEN. rewrite !length_app, length_take. lia. }
  cbv zeta. rewrite chunks_exact_mjoin by (done || (unfold COMPACT_ACTION_LEN; lia)). rewrite <- !list_fmap_compose. split; [|split].
  - apply list_fmap_ext. intros i a Ha. rewrite Forall_forall in Hw. destruct (Hw a (list_elem_of_lookup_2 _ _ _ Ha)) as ((H1 & _) & _). cbn. by apply take_app_length'.
  - clear Hl. apply Forall2_fmap_l. induction Hc as [|a c acts cs Ha Hc IH]; [constructor|]. apply Forall_cons_1 in Hw as [((H1 & _) & _ & (H2 & _) & _) Hw].
    constructor; [|by apply IH]. cbn. unfold record_cmx, compact_record. rewrite drop_app_length' by done. by rewrite take_app_length' by done.
  - clear -Hl. induction (compact_record <$> acts) as [|r rs IH]; [done|]. apply Forall_cons in Hl as [Hr Hl]. cbn [mjoin list_join]. rewrite length_app, Hr.
    rewrite Nat.Div0.add_mod, Nat.Div0.mod_same, Nat.add_0_l, Nat.Div0.mod_mod. by apply IH.
Qed.

Lemma parse_spend_ok fork v : wf_validated fork v → version (vtx v) = TX_VERSION_SHIELDED →
  ∃ p, parse_spend fork (vtx v) = Ok p ∧
    match p with
    | Some (stx, b) => spend_wf stx ∧ tx_fee stx = calculated_fee v ∧ archived stx (mk_scan_tx (tx_id H (vtx v)) (mjoin (compact_record <$> actions b)))
    | None => True
    end.
Proof.
  intros [Hf Hb Hl Hv] Hver. unfold parse_spend. pose proof (decode_no_panic fork _ Hb Hl) as Hnp. specialize (λ b, Hv b Hver). unfold from_bytes_at in *.
  destruct (decode (payload (vtx v)) fork) as [b|e|] eqn:E; cbn [ok_q mbind res_bind]; [|by exists None|done].
  apply decode_ok_iff in E as [Hc _]; [|done..]. destruct (from_bundle b) as [stx|e|] eqn:Eb; [|by exists None|by destruct (from_bundle_total b)].
  eexists. split; [done|]. cbn. destruct (from_bundle_wf fork b stx Hc Eb) as [Hw _]. apply from_bundle_iff in Eb as ((cs & Hcs & ->) & _).
  split; [done|]. split; [cbn; by rewrite (Hv b)|]. apply compact_archived; [|exact Hcs]. by destruct Hc as (_ & _ & _ & _ & _ & ? & _).
Qed.
Abbreviation collect_tx := (Mergeset.collect_tx H).
Definition fees_total (txs : list ShieldedTx) : Z := sum_list_Z (tx_fee <$> txs).

(** One transaction adds at most one spend, and its fee to the block's. *)
Lemma collect_tx_ok fork h ctx fee v : wf_validated fork v → ctx_ok ctx → 0 <= fee → fee + calculated_fee v < 2 ^ 64 →
  ∃ ctx' txs, collect_tx fork h (ctx, fee) v = Ok (ctx', fee + plain_fee v + fees_total txs) ∧ ctx_ok ctx' ∧ mergeset_rewards ctx' = mergeset_rewards ctx ∧
    shielded_txs ctx' = shielded_txs ctx ++ txs ∧ shielded_tx_sources ctx' = shielded_tx_sources ctx ++ replicate (length txs) h ∧
    (length txs <= 1)%nat ∧ 0 <= plain_fee v + fees_total txs <= calculated_fee v ∧ 0 <= fees_total txs.
Proof.
  intros Hv Hc Hf Hb. pose proof (wv_fee _ _ Hv) as Hv0. unfold Mergeset.collect_tx, plain_fee. rewrite (proj2 (add_u_ok 64 fee (calculated_fee v) _)) by (split; [reflexivity|lia]).
  cbn [mbind res_bind]. destruct (Z.eqb_spec (version (vtx v)) TX_VERSION_SHIELDED) as [Hver|Hver].
  - destruct (parse_spend_ok fork v Hv Hver) as (p & -> & Hp). cbn [mbind res_bind]. destruct p as [[stx b]|].
    + destruct Hp as (Hw & Hfee & Ha). eexists _, [stx]. unfold fees_total. cbn [fmap list_fmap sum_list_Z length]. split; [do 2 f_equal; lia|]. cbn.
      split; [|repeat split; lia]. destruct Hc as [H1 H2 H3]. split; cbn.
      * rewrite !length_app, H1. done.
      * by apply Forall2_app; [|constructor].
      * by apply Forall_app; split; [|constructor].
    + rewrite (proj2 (sub_u_ok _ _ (fee + calculated_fee v - calculated_fee v))) by lia. cbn [mbind res_bind]. exists ctx, []. unfold fees_total. cbn.
      rewrite !app_nil_r. split; [do 2 f_equal; lia|]. repeat split; (done || lia || apply Hc).
  - exists ctx, []. unfold fees_total. cbn. rewrite !app_nil_r. split; [do 2 f_equal; lia|]. repeat split; (done || lia || apply Hc).
Qed.

Lemma collect_txs_ok fork h vs : ∀ ctx fee, Forall (wf_validated fork) vs → ctx_ok ctx → 0 <= fee → fee + sum_list_Z (calculated_fee <$> vs) < 2 ^ 64 →
  ∃ ctx' txs, res_foldl (collect_tx fork h) (ctx, fee) vs = Ok (ctx', fee + sum_list_Z (plain_fee <$> vs) + fees_total txs) ∧ ctx_ok ctx' ∧
    mergeset_rewards ctx' = mergeset_rewards ctx ∧ shielded_txs ctx' = shielded_txs ctx ++ txs ∧
    shielded_tx_sources ctx' = shielded_tx_sources ctx ++ replicate (length txs) h ∧
    (length txs <= length vs)%nat ∧ 0 <= sum_list_Z (plain_fee <$> vs) + fees_total txs <= sum_list_Z (calculated_fee <$> vs) ∧ 0 <= fees_total txs.
Proof.
  induction vs as [|v vs IH]; intros ctx fee Hw Hc Hf Hb.
  { exists ctx, []. unfold fees_total. cbn. rewrite !app_nil_r. split; [do 2 f_equal; lia|]. repeat split; (done || lia || apply Hc). }
  apply Forall_cons_1 in Hw as [Hv Hw]. rewrite !fmap_cons in *. cbn [sum_list_Z res_foldl length] in *.
  assert (0 <= sum_list_Z (calculated_fee <$> vs)) as Hs by (apply sum_list_Z_nonneg, Forall_fmap; eapply Forall_impl; [exact Hw|]; intros x Hx; exact (wv_fee _ _ Hx)).
  destruct (collect_tx_ok fork h ctx fee v Hv Hc Hf ltac:(lia)) as (c1 & t1 & E1 & Hc1 & Hr1 & Ht1 & Hs1 & Hl1 & Hb1 & Hn1).
  rewrite E1. cbn [mbind res_bind]. destruct (IH c1 (fee + plain_fee v + fees_total t1) Hw Hc1 ltac:(lia) ltac:(lia)) as (c2 & t2 & E2 & Hc2 & Hr2 & Ht2 & Hs2 & Hl2 & Hb2 & Hn2).
  assert (fees_total (t1 ++ t2) = fees_total t1 + fees_total t2) as Ht by (unfold fees_total; by rewrite fmap_app, sum_list_Z_app).
  exists c2, (t1 ++ t2). rewrite E2, Ht. split; [do 2 f_equal; lia|]. split; [done|]. split; [congruence|]. split; [by rewrite Ht2, Ht1, app_assoc|].
  split; [by rewrite Hs2, Hs1, length_app, replicate_add, app_assoc|]. rewrite length_app. split; [lia|]. lia.
Qed.
Lemma credit_app h t1 t2 s1 s2 : length t1 = length s1 → credit h (t1 ++ t2) (s1 ++ s2) = credit h t1 s1 + credit h t2 s2.
Proof. intros Hl. unfold credit. rewrite zip_with_app by done. by rewrite fmap_app, sum_list_Z_app. Qed.
Lemma credit_replicate h h' txs : credit h txs (replicate (length txs) h') = if bool_decide (h' = h) then fees_total txs else 0.
Proof.
  unfold credit, fees_total. induction txs as [|tx txs IH]; [by case_bool_decide|]. cbn [length replicate zip zip_with]. rewrite !fmap_cons. cbn [sum_list_Z].
  rewrite IH. by case_bool_decide.
Qed.

(** What the walk over the merged blocks leaves: every reward holds the subsidy of its block, the fees of its plain transactions and
    of its collected spends. *)
Record collected_ok (merged : list MergedBlock) (ctx : MergesetContext) : Prop := {
  cl_ctx : ctx_ok ctx;
  cl_count : (length (shielded_txs ctx) <= length (mjoin (mb_validated <$> merged)))%nat;
  cl_sources : Forall (λ s, s ∈ mb_hash <$> merged) (shielded_tx_sources ctx);
  cl_rewards mb : mb ∈ merged → ∃ spk, mergeset_rewards ctx !! mb_hash mb =
    Some (mk_reward (subsidy_of mb) (plain_fees mb + credit (mb_hash mb) (shielded_txs ctx) (shielded_tx_sources ctx)) spk);
  cl_claimed mb : mb ∈ merged → plain_fees mb + credit (mb_hash mb) (shielded_txs ctx) (shielded_tx_sources ctx) <= claimed mb;
  cl_dom h : is_Some (mergeset_rewards ctx !! h) → h ∈ mb_hash <$> merged;
}.

Abbreviation collect_block := (Mergeset.collect_block H m security_fork_activation).
Abbreviation collect_mergeset := (Mergeset.collect_mergeset H m security_fork_activation).

Lemma collect_block_ok merged ctx mb : collected_ok merged ctx → wf_merged mb → mb_hash mb ∉ mb_hash <$> merged →
  ∃ ctx', collect_block ctx mb = Ok ctx' ∧ collected_ok (merged ++ [mb]) ctx'.
Proof.
  intros [Hctx Hcnt Hsrc Hrew Hcl Hdom] Hm Hnew. unfold Mergeset.collect_block. pose proof (wm_fees _ Hm) as Hfees.
  destruct (collect_txs_ok _ (mb_hash mb) (mb_validated mb) ctx 0 (wm_txs _ Hm) Hctx ltac:(lia) Hfees) as (c & txs & -> & Hc & Hr & Ht & Hs & Hl & Hb & Hn).
  cbn [mbind res_bind]. destruct (wm_payload _ Hm) as [d Ed]. rewrite Ed. cbn [mbind res_bind]. eexists. split; [done|].
  fold (plain_fees mb) in *. fold (claimed mb) in *.
  assert (∀ h, credit h (shielded_txs c) (shielded_tx_sources c) = credit h (shielded_txs ctx) (shielded_tx_sources ctx) + if bool_decide (mb_hash mb = h) then fees_total txs else 0) as Hcr.
  { intros h. rewrite Ht, Hs, credit_app by apply Hctx. by rewrite credit_replicate. }
  assert (credit (mb_hash mb) (shielded_txs ctx) (shielded_tx_sources ctx) = 0) as H0.
  { apply credit_absent. intros Hin. rewrite Forall_forall in Hsrc. by apply Hnew, Hsrc. }
  assert (∀ mb', mb' ∈ merged → mb_hash mb ≠ mb_hash mb') as Hne by (intros mb' Hin E; apply Hnew; rewrite E; by apply list_elem_of_fmap_2).
  split; cbn [shielded_txs shielded_scan shielded_tx_sources mergeset_rewards].
  - destruct Hc as [H1 H2 H3]. by split.
  - rewrite fmap_app, join_app, Ht, !length_app. cbn [fmap list_fmap mjoin list_join length app]. rewrite ?app_nil_r. lia.
  - rewrite Hs, fmap_app. apply Forall_app. split; [eapply Forall_impl; [exact Hsrc|]; intros x Hx; apply elem_of_app; by left|].
    apply Forall_replicate. apply elem_of_app. right. by left.
  - intros mb' [Hin|Hin%list_elem_of_singleton]%elem_of_app.
    + destruct (Hrew mb' Hin) as [spk E]. exists spk. rewrite lookup_insert_ne by by apply Hne. rewrite Hr, Hcr, bool_decide_eq_false_2, Z.add_0_r by by apply Hne. done.
    + subst mb'. eexists. rewrite lookup_insert_eq. do 2 f_equal; [unfold subsidy_of; by rewrite Ed|]. rewrite Hcr, bool_decide_eq_true_2, H0 by done. lia.
  - intros mb' [Hin|Hin%list_elem_of_singleton]%elem_of_app.
    + rewrite Hcr, bool_decide_eq_false_2, Z.add_0_r by by apply Hne. by apply Hcl.
    + subst mb'. rewrite Hcr, bool_decide_eq_true_2, H0 by done. lia.
  - intros h Hh. rewrite fmap_app. apply elem_of_app. rewrite Hr in Hh. apply lookup_insert_is_Some in Hh as [<-|[_ Hh]]; [right; by left|left; by apply Hdom].
Qed.

Lemma collect_mergeset_ok merged : wf_mergeset merged → ∃ ctx, collect_mergeset merged = Ok ctx ∧ collected_ok merged ctx.
Proof.
  intros [Hnd Hw _]. unfold Mergeset.collect_mergeset. induction merged as [|mb merged IH] using rev_ind.
  { eexists. split; [done|]. split; cbn; [split; constructor|lia|constructor|by intros mb ?%elem_of_nil..|]. intros h [? E]. by rewrite lookup_empty in E. }
  rewrite fmap_app in Hnd. apply NoDup_app in Hnd as (Hnd & Hdis & _). apply Forall_app in Hw as [Hw [Hmb _]%Forall_cons_1].
  destruct (IH Hnd Hw) as (ctx & E & Hc). rewrite res_foldl_app, E. cbn [mbind res_bind res_foldl].
  destruct (collect_block_ok merged ctx mb Hc Hmb) as (ctx' & E' & Hc'); [intros Hin; by apply (Hdis _ Hin); left|].
  exists ctx'. by rewrite E'.
Qed.
Lemma credit_cons h tx txs s sources : credit h (tx :: txs) (s :: sources) = (if bool_decide (s = h) then tx_fee tx else 0) + credit h txs sources.
Proof. done. Qed.
Lemma credit_nonneg h txs sources : Forall (λ tx, 0 <= tx_fee tx) txs → 0 <= credit h txs sources.
Proof.
  intros Hf. revert sources. induction Hf as [|tx txs Ht _ IH]; intros [|s sources]; [done..|]. rewrite credit_cons. specialize (IH sources). case_bool_decide; lia.
Qed.

(** A reward with other fees. *)
Definition with_fees (r : BlockRewardData) (fees : Z) : BlockRewardData := mk_reward (rw_subsidy r) fees (rw_spk r).
(** The rewards hold at least the fees of the transactions that may still be dropped. *)
Lemma retain_loop_ok txs : ∀ keep sources rewards (base : bytes → Z),
  length keep = length txs → length txs = length sources → Forall (λ tx, 0 <= tx_fee tx) txs → (∀ h, 0 <= base h) →
  Forall (λ s, is_Some (rewards !! s)) sources → (∀ h r, rewards !! h = Some r → rw_total_fees r = base h + credit h txs sources) →
  ∃ rewards', retain_loop txs keep sources rewards = Ok (select txs keep, rewards') ∧
    ∀ h, rewards' !! h = (λ r, with_fees r (base h + credit h (select txs keep) (select sources keep))) <$> rewards !! h.
Proof.
  induction txs as [|tx txs IH]; intros [|k keep] [|s sources] rewards base Hk Hl Hf Hb Hs Hr; try done.
  { exists rewards. split; [done|]. intros h. cbn. destruct (rewards !! h) as [r|] eqn:E; [|done]. cbn. f_equal. apply Hr in E. destruct r. unfold with_fees, credit in *. cbn in *. f_equal. lia. }
  injection Hk as Hk. injection Hl as Hl. apply Forall_cons_1 in Hf as [Hf0 Hf]. apply Forall_cons_1 in Hs as [[r0 Hr0] Hs]. cbn [retain_loop select]. destruct k.
  - destruct (IH keep sources rewards (λ h, base h + if bool_decide (s = h) then tx_fee tx else 0)) as (rewards' & -> & Hr'); try done.
    { intros h. specialize (Hb h). case_bool_decide; lia. }
    { intros h r Hh. rewrite (Hr h r Hh), credit_cons. lia. }
    cbn [mbind res_bind]. exists rewards'. split; [done|]. intros h. rewrite Hr'. destruct (rewards !! h); [|done]. cbn [fmap option_fmap option_map]. f_equal. f_equal. rewrite credit_cons. lia.
  - rewrite Hr0. cbn [unwrap mbind res_bind]. pose proof (Hr _ _ Hr0) as Hfees. rewrite credit_cons, bool_decide_eq_true_2 in Hfees by done.
    pose proof (credit_nonneg s txs sources Hf) as Hcn. specialize (Hb s) as Hbs. rewrite (proj2 (sub_u_ok _ _ (rw_total_fees r0 - tx_fee tx))) by lia. cbn [mbind res_bind].
    fold (with_fees r0 (rw_total_fees r0 - tx_fee tx)). destruct (IH keep sources (<[s := with_fees r0 (rw_total_fees r0 - tx_fee tx)]> rewards) base) as (rewards' & -> & Hr'); try done.
    { eapply Forall_impl; [exact Hs|]. intros x Hx. apply lookup_insert_is_Some. destruct (decide (s = x)); [by left|by right]. }
    { intros h r Hh. apply lookup_insert_Some in Hh as [[<- <-]|[Hne Hh]]; [unfold with_fees; cbn; lia|]. rewrite (Hr h r Hh), credit_cons, bool_decide_eq_false_2 by done. lia. }
    exists rewards'. split; [done|]. intros h. rewrite Hr'. destruct (decide (s = h)) as [<-|Hne]; [by rewrite lookup_insert_eq, Hr0|by rewrite lookup_insert_ne].
Qed.

Lemma sum_pointwise {A} (f g : A → Z) l : sum_list_Z ((λ x, f x + g x) <$> l) = sum_list_Z (f <$> l) + sum_list_Z (g <$> l).
Proof. induction l as [|x l IH]; [done|]. rewrite !fmap_cons. cbn [sum_list_Z]. lia. Qed.
(** Every transaction is credited to one block. *)
Lemma sum_credit hs : NoDup hs → ∀ txs sources, length txs = length sources → Forall (λ s, s ∈ hs) sources →
  sum_list_Z ((λ h, credit h txs sources) <$> hs) = fees_total txs.
Proof.
  intros Hnd. assert (∀ s f, s ∈ hs → sum_list_Z ((λ h, if bool_decide (s = h) then f else 0) <$> hs) = f) as Hone.
  { intros s f. induction Hnd as [|h hs Hn _ IH]; [by intros ?%elem_of_nil|]. rewrite fmap_cons. cbn [sum_list_Z]. intros [->|Hin]%elem_of_cons.
    - rewrite bool_decide_eq_true_2 by done. enough (sum_list_Z ((λ h0, if bool_decide (h = h0) then f else 0) <$> hs) = 0) by lia. clear IH.
      induction hs as [|x hs IH]; [done|]. apply not_elem_of_cons in Hn as [Hx Hn]. rewrite fmap_cons. cbn [sum_list_Z]. rewrite bool_decide_eq_false_2, IH by done. done.
    - rewrite bool_decide_eq_false_2 by (intros ->; done). rewrite IH by done. lia. }
  induction txs as [|tx txs IH]; intros [|s sources] Hl Hs; try done.
  - clear. unfold fees_total, credit. cbn. induction hs as [|h hs IH]; [done|]. rewrite fmap_cons. cbn [sum_list_Z]. lia.
  - apply Forall_cons_1 in Hs as [Hs0 Hs]. injection Hl as Hl. unfold fees_total. rewrite fmap_cons. cbn [sum_list_Z]. fold (fees_total txs). rewrite <- (IH sources Hl Hs).
    rewrite (list_fmap_ext _ (λ h, (if bool_decide (s = h) then tx_fee tx else 0) + credit h txs sources)) by (intros; apply credit_cons).
    rewrite sum_pointwise, Hone by done. done.
Qed.
Lemma plain_fees_nonneg mb : wf_merged mb → 0 <= plain_fees mb.
Proof.
  intros Hm. apply sum_list_Z_nonneg, Forall_fmap. eapply Forall_impl; [exact (wm_txs _ Hm)|]. intros v Hv. pose proof (wv_fee _ _ Hv). unfold compose, plain_fee. destruct (_ =? _); lia.
Qed.
Lemma subsidy_bound mb : 0 <= coinbase_payload_script_public_key_max_len m <= 255 → wf_merged mb → is_u64 (subsidy_of mb).
Proof.
  intros Hmax Hm. unfold subsidy_of. destruct (wm_payload _ Hm) as [d E]. pose proof (encode_decode m Hmax _ (wm_bytes _ Hm)) as He. rewrite E in *.
  exact (wd_subsidy _ _ (proj1 He)).
Qed.

(** What is left after the retention of the kept spends. *)
Record retained_ok (merged : list MergedBlock) (ctx : MergesetContext) (keep : list bool) (ctx' : MergesetContext) : Prop := {
  rt_txs : shielded_txs ctx' = select (shielded_txs ctx) keep;
  rt_scan : Forall2 archived (shielded_txs ctx') (shielded_scan ctx');
  rt_rewards mb : mb ∈ merged → ∃ spk, mergeset_rewards ctx' !! mb_hash mb =
    Some (mk_reward (subsidy_of mb) (plain_fees mb + credit (mb_hash mb) (shielded_txs ctx') (select (shielded_tx_sources ctx) keep)) spk);
}.

Lemma select_Forall2 {A B} (R : A → B → Prop) l k fl : Forall2 R l k → Forall2 R (select l fl) (select k fl).
Proof. intros Hr. revert fl. induction Hr as [|x y l k Hxy _ IH]; intros [|[] fl]; cbn; [constructor..|by constructor; [|apply IH]|apply IH]. Qed.
Lemma select_credit h txs sources keep : length txs = length sources → Forall (λ tx, 0 <= tx_fee tx) txs →
  credit h (select txs keep) (select sources keep) <= credit h txs sources.
Proof.
  intros Hl Hf. revert sources keep Hl. induction Hf as [|tx txs Ht Hf IH]; intros [|s sources] [|k keep] Hl; try done.
  - apply (credit_nonneg h (tx :: txs) (s :: sources)). by constructor.
  - injection Hl as Hl. rewrite (credit_cons h tx). specialize (IH sources keep Hl). cbn [select]. destruct k; [rewrite credit_cons; lia|]. case_bool_decide; lia.
Qed.
Lemma select_same_length {A B} (l : list A) (k : list B) fl : length l = length k → length (select l fl) = length (select k fl).
Proof. revert k fl. induction l as [|x l IH]; intros [|y k] [|b fl] Hl; try done. injection Hl as Hl. cbn [select]. destruct b; [cbn; f_equal|]; by apply IH. Qed.

Lemma ctx_fees ctx : ctx_ok ctx → Forall (λ tx, 0 <= tx_fee tx) (shielded_txs ctx).
Proof. intros Hc. eapply Forall_impl; [exact (cx_txs _ Hc)|]. intros tx [[Hf _] _]. destruct Hf. done. Qed.

Lemma retain_ok merged ctx keep : wf_mergeset merged → collected_ok merged ctx → length keep = length (shielded_txs ctx) →
  ∃ ctx', retain ctx keep = Ok ctx' ∧ retained_ok merged ctx keep ctx'.
Proof.
  intros Hw Hc Hk. pose proof (cl_ctx _ _ Hc) as Hctx. pose proof (ctx_fees _ Hctx) as Hf. set (rewards := mergeset_rewards ctx).
  assert (∀ h, is_Some (rewards !! h) → ∃ mb spk, mb ∈ merged ∧ mb_hash mb = h ∧
     rewards !! h = Some (mk_reward (subsidy_of mb) (plain_fees mb + credit h (shielded_txs ctx) (shielded_tx_sources ctx)) spk)) as Hrew.
  { intros h Hh. apply (cl_dom _ _ Hc) in Hh. apply list_elem_of_fmap in Hh as (mb & -> & Hin). destruct (cl_rewards _ _ Hc mb Hin) as [spk E]. by exists mb, spk. }
  destruct (retain_loop_ok (shielded_txs ctx) keep (shielded_tx_sources ctx) rewards
    (λ h, from_option (λ r, rw_total_fees r - credit h (shielded_txs ctx) (shielded_tx_sources ctx)) 0 (rewards !! h))) as (rewards' & E & Hr');
    [done|apply Hctx|done| | | |].
  - intros h. destruct (rewards !! h) as [r|] eqn:Er; [|done]. destruct (Hrew h ltac:(by eexists)) as (mb & spk & Hin & _ & Er'). rewrite Er in Er'. injection Er' as ->. cbn.
    pose proof (wms_blocks _ Hw) as Hb. rewrite Forall_forall in Hb. pose proof (plain_fees_nonneg mb (Hb mb Hin)). lia.
  - eapply Forall_impl; [exact (cl_sources _ _ Hc)|]. intros h (mb & -> & Hin)%list_elem_of_fmap. destruct (cl_rewards _ _ Hc mb Hin) as [spk Er]. by eexists.
  - intros h r Hh. rewrite Hh. cbn. lia.
  - unfold retain. fold rewards. rewrite E. cbn [mbind res_bind]. eexists. split; [done|]. split; cbn [shielded_txs shielded_scan mergeset_rewards]; [done|apply select_Forall2, Hctx|].
    intros mb Hin. destruct (cl_rewards _ _ Hc mb Hin) as [spk Er]. exists spk. rewrite Hr'. fold rewards in Er. rewrite Er. cbn. unfold with_fees. cbn. do 2 f_equal. lia.
Qed.

(** The rewards re-mint the fees of the plain transactions and of the retained spends, and no others. *)
Lemma retained_fees merged ctx keep ctx' : wf_mergeset merged → collected_ok merged ctx → retained_ok merged ctx keep ctx' →
  fees_of (mergeset_rewards ctx') (mb_hash <$> merged) = sum_list_Z (plain_fees <$> merged) + fees_total (shielded_txs ctx').
Proof.
  intros Hw Hc Hr. set (sources := select (shielded_tx_sources ctx) keep).
  rewrite <- (sum_credit (mb_hash <$> merged) (wms_hashes _ Hw) (shielded_txs ctx') sources).
  - unfold fees_of. rewrite <- !list_fmap_compose, <- sum_pointwise. f_equal. apply list_fmap_ext. intros i mb Hi. unfold compose.
    destruct (rt_rewards _ _ _ _ Hr mb (list_elem_of_lookup_2 _ _ _ Hi)) as [spk ->]. done.
  - rewrite (rt_txs _ _ _ _ Hr). apply select_same_length, Hc.
  - apply select_Forall, (cl_sources _ _ Hc).
Qed.
Lemma retained_wf merged ctx keep ctx' : 0 <= coinbase_payload_script_public_key_max_len m <= 255 → wf_mergeset merged → collected_ok merged ctx → retained_ok merged ctx keep ctx' →
  wf_rewards (mergeset_rewards ctx') (mb_hash <$> merged).
Proof.
  intros Hmax Hw Hc Hr. apply Forall_fmap, Forall_forall. intros mb Hin. destruct (rt_rewards _ _ _ _ Hr mb Hin) as [spk E]. eexists. split; [exact E|].
  pose proof (wms_blocks _ Hw) as Hb. rewrite Forall_forall in Hb. specialize (Hb mb Hin). split; cbn; [by apply (subsidy_bound mb Hmax Hb)|].
  pose proof (plain_fees_nonneg mb Hb). rewrite (rt_txs _ _ _ _ Hr). pose proof (credit_nonneg (mb_hash mb) (select (shielded_txs ctx) keep) (select (shielded_tx_sources ctx) keep)) as Hn.
  specialize (Hn ltac:(apply select_Forall, (ctx_fees _ (cl_ctx _ _ Hc)))). lia.
Qed.

(** The sums of the retained rewards, over any order of the merged blocks. *)
Lemma sum_list_Z_perm l l' : l ≡ₚ l' → sum_list_Z l = sum_list_Z l'.
Proof. induction 1; cbn; lia. Qed.
Lemma sum_list_Z_le {A} (f g : A → Z) l : Forall (λ x, f x <= g x) l → sum_list_Z (f <$> l) <= sum_list_Z (g <$> l).
Proof. induction 1 as [|x l Hx _ IH]; [done|]. rewrite !fmap_cons. cbn. lia. Qed.
Lemma retained_subsidies merged ctx keep ctx' non_daa : retained_ok merged ctx keep ctx' →
  subsidies_of (mergeset_rewards ctx') non_daa (mb_hash <$> merged) =
  sum_list_Z ((λ mb, if bool_decide (mb_hash mb ∈ non_daa) then 0 else subsidy_of mb) <$> merged).
Proof.
  intros Hr. unfold subsidies_of. rewrite <- list_fmap_compose. f_equal. apply list_fmap_ext. intros i mb Hi. unfold compose.
  destruct (rt_rewards _ _ _ _ Hr mb (list_elem_of_lookup_2 _ _ _ Hi)) as [spk ->]. done.
Qed.
Lemma retained_claims merged ctx keep ctx' : collected_ok merged ctx → retained_ok merged ctx keep ctx' →
  fees_of (mergeset_rewards ctx') (mb_hash <$> merged) <= sum_list_Z (claimed <$> merged).
Proof.
  intros Hc Hr. unfold fees_of. rewrite <- list_fmap_compose. apply sum_list_Z_le, Forall_forall. intros mb Hin. unfold compose.
  destruct (rt_rewards _ _ _ _ Hr mb Hin) as [spk ->]. cbn. etrans; [|exact (cl_claimed _ _ Hc mb Hin)]. rewrite (rt_txs _ _ _ _ Hr).
  pose proof (select_credit (mb_hash mb) (shielded_txs ctx) (shielded_tx_sources ctx) keep (cx_sources _ (cl_ctx _ _ Hc)) (ctx_fees _ (cl_ctx _ _ Hc))). lia.
Qed.
End spec.
