(* ===== verification/ChainWalk.v ===== *)
(** The walk of the virtual chain (consensus/src/pipeline/virtual_processor/processor.rs),
    its shielded side.

    [calculate_utxo_state_relatively] moves the node from one chain block to another: it
    reverts the nullifiers of the blocks it leaves, and on the way up re-applies the
    blocks that were validated before and verifies and commits the others.
    [resolve_shielded_anchor] decides which anchors a spend may use.  A new block is
    verified from the mergeset it accepts: the retained spends, the expected coinbase,
    the minted notes, the transition and the pool delta.  The checks that do not read the
    shielded state (UTXO and acceptance commitments, pruning point, transaction validity)
    are parameters, as are the reachability service, the headers and the contents of
    blocks. *)
From stdpp Require Import base gmap list sorting.
From S2P Require Import Prelude Turnstile Nullifier Burn AnchorLog Tree Bundle ShieldedState StateRoot Tx Encoding TxHash Limbs MuHash.
From S2P Require Import TxValidator ShieldedStores ShieldedManager ShieldedSnapshots Coinbase CoinbaseNotes Mergeset.

(** ** The services the walk relies on *)

(** [ReachabilityService] over the selected-parent tree. *)
Class Reachability := {
  default_backward_chain_iterator : bytes → list bytes;
  forward_chain_iterator : bytes → bytes → list bytes;
  is_chain_ancestor_of : bytes → bytes → bool;
}.

(** Headers and block data: the mergeset of a block in consensus order, with the transactions that are valid in the UTXO view. *)
Record ChainData := mk_chain_data {
  genesis : bytes;
  selected_parent : bytes → option bytes;
  ghostdag : bytes → GhostdagData;
  daa_score : bytes → Z;
  timestamp : bytes → Z;
  get_blue_score : bytes → option Z;
  merged : bytes → list MergedBlock;
  mergeset_non_daa : bytes → gset bytes;
  coinbase_tx : bytes → Transaction;
  header_checks : bytes → bool;
  context_checks : bytes → bool;
}.
Definition blue_score (cd : ChainData) (b : bytes) : Z := gd_blue_score (ghostdag cd b).

(** The parameters of the processor, with the functions transactions are hashed and coinbase notes are derived with. *)
Record ForkParams {O : OrchardTree} := mk_fork_params {
  security_fork_activation : Z;
  shielded_anchor_multi_activation : Z;
  shielded_anchor_depth : Z;
  max_shielded_anchor_age : Z;
  shielded_coinbase : bool;
  shielded_coinbase_seed_activation : Z;
  coinbase_manager : CoinbaseManager;
  tx_hasher : HashDomain → bytes → bytes;
  orchard_notes : OrchardNotes O;
  note_hash_64 : bytes → bytes → bytes;
  note_hash_32 : bytes → bytes → bytes;
}.
Arguments mk_fork_params {O}.

(** The shielded stores, the blocks with a UTXO diff, those disqualified, and the stable flag of the imported state. *)
Record Node := mk_node { n_db : Db; n_valid : gset bytes; n_disqualified : gset bytes; n_stable : bool }.

Inductive RuleError := BadCoinbaseTransaction | InvalidShieldedState | OtherRuleError.
#[export] Instance RuleError_eq_dec : EqDecision RuleError.
Proof. solve_decision. Defined.

Section walk.
Context (sha256 : bytes → bytes) (blake2b : bytes → bytes → bytes) {O : OrchardTree} (anchor_to_bytes : Anchor → bytes).
Context (MuHashElementHash : bytes → bytes) (chacha20 : bytes → nat → bytes) (MuHashFinalizeHash : bytes → bytes).
Context (natural_mod_inverse : Z → Z → option Z) (debug_assertions : bool).
Context {R : Reachability} (cd : ChainData) (fp : ForkParams).

Let compute := compute sha256 MuHashElementHash chacha20.
Let persist := persist anchor_to_bytes MuHashFinalizeHash natural_mod_inverse debug_assertions.
Let state_root_at {E} := state_root_at sha256 blake2b anchor_to_bytes MuHashFinalizeHash natural_mod_inverse debug_assertions (E := E).
Let state_root_v1_at := state_root_v1_at sha256 blake2b anchor_to_bytes MuHashFinalizeHash natural_mod_inverse debug_assertions.

Definition is_post_security_fork (b : bytes) : bool := is_active (security_fork_activation fp) (daa_score cd b).
Definition empty_shielded_anchor : bytes := anchor_to_bytes (tree_anchor tree_new).

(** ** Anchor finality *)

(** [judge_anchor_source]; only its verdict is used. *)
Definition judge_anchor_source (db : Db) (source sp : bytes) (block_blue_score : Z) : bool :=
  match (match get_blue_score cd source with
         | Some s => Some (s, false)
         | None => match SourceScores.get db source with Some s => Some (s, true) | None => None end
         end) with
  | None => false
  | Some (source_blue_score, attested) =>
      if attested || bool_decide (source = sp) || is_chain_ancestor_of source sp then
        let age := saturating_sub block_blue_score source_blue_score in
        (shielded_anchor_depth fp <=? age) && (age <=? max_shielded_anchor_age fp)
      else false
  end.

Definition resolve_shielded_anchor (db : Db) (anchor : bytes) (anchor_block : option bytes) (sp : bytes) (block_blue_score block_daa_score : Z) : bool :=
  if bool_decide (anchor = empty_shielded_anchor) then true
  else if is_active (security_fork_activation fp) block_daa_score then
    match anchor_block with
    | None => false
    | Some named =>
        match AnchorWindow.entry db named with
        | Some entry => if bool_decide (AnchorLog.root entry = anchor) then judge_anchor_source db named sp block_blue_score else false
        | None => false
        end
    end
  else if bool_decide (is_Some anchor_block) then false
  else if is_active (shielded_anchor_multi_activation fp) block_daa_score then
    existsb (λ source, judge_anchor_source db source sp block_blue_score) (AnchorProducers.get_producers db anchor)
  else
    match AnchorBlocks.get db anchor with
    | None => false
    | Some source => judge_anchor_source db source sp block_blue_score
    end.

(** ** Verification and commit of a block *)

Definition shielded_state_root_at (db : Db) (b : bytes) : StoreResult bytes :=
  if is_post_security_fork b then state_root_v1_at db b (bool_decide (b = genesis cd)) else state_root_at db b.

(** [calculate_utxo_state], its shielded side: the spends that are retained and the rewards. *)
Definition calculate_utxo_state (db : Db) (sp b : bytes) : exec MergesetContext :=
  ctx ← collect_mergeset (tx_hasher fp) (coinbase_manager fp) (security_fork_activation fp) (merged cd b);
  let keep := kept <$> partition_applied db (shielded_txs ctx)
    (λ stx, resolve_shielded_anchor db (tx_anchor stx) (tx_anchor_block stx) sp (blue_score cd b) (daa_score cd b)) in
  retain ctx keep.

(** The mint of a block's own coinbase. *)
Definition coinbase_mint (b : bytes) : res NotesError (option CoinbaseMint) :=
  if shielded_coinbase fp then
    let seed_block := if is_active (shielded_coinbase_seed_activation fp) (daa_score cd b) then Some b else None in
    mint ← build_coinbase_mint (N := orchard_notes fp) (note_hash_64 fp) (note_hash_32 fp) (tx_id (tx_hasher fp)) (coinbase_tx cd b) seed_block;
    Ok (Some mint)
  else Ok None.

(** The archive of the applied transactions. *)
Definition scan_block_of (b : bytes) (mint : option CoinbaseMint) (scan : list ShieldedScanTx) (o : BlockShieldedOutcome) : exec ShieldedScanBlockData :=
  accepted ← res_map (λ i, unwrap (scan !! Z.to_nat i)) (out_accepted o);
  let tx := coinbase_tx cd b in
  let coinbase_outputs := if shielded_coinbase fp then (λ o, (spk_script (out_spk o), value o)) <$> outputs tx else [] in
  let coinbase_commitments := match mint with Some mint => (λ n, cmx_to_bytes (OrchardNotes := orchard_notes fp) (note_commitment n)) <$> notes mint | None => [] end in
  Ok (mk_scan (blue_score cd b) (daa_score cd b) (timestamp cd b) (tx_id (tx_hasher fp) tx) coinbase_outputs coinbase_commitments accepted).

Definition verify_expected_utxo_state (db : Db) (sp b : bytes) (ctx : MergesetContext) : res RuleError (ComputedBlockShielded * Z * MinerAccrual) :=
  if negb (header_checks cd b) then Err OtherRuleError
  else
    root ← match shielded_state_root_at db sp with Ok r => Ok r | _ => Panic end;
    let dev_accrued_parent := DevAccruedStore.get db sp in
    let miner_accrual_parent := MinerAccrualStore.get db sp in
    '(dev_accrued, miner_accrual) ← map_err (λ _, BadCoinbaseTransaction)
      (verify_coinbase_transaction (tx_hasher fp) (coinbase_manager fp) (coinbase_tx cd b) (daa_score cd b) (ghostdag cd b) (mergeset_rewards ctx)
         (mergeset_non_daa cd b) root (daa_score cd sp) dev_accrued_parent miner_accrual_parent);
    if negb (context_checks cd b) then Err OtherRuleError
    else
    mint ← map_err (λ _, InvalidShieldedState) (coinbase_mint b);
    computed ← match compute db sp mint (shielded_txs ctx) with
               | Ok c => Ok c
               | Err (StateError _) | Err MalformedCoinbaseNote => Err InvalidShieldedState
               | Err (StoreErr _) | Panic => Panic
               end;
    scan ← match scan_block_of b mint (shielded_scan ctx) (outcome computed) with Ok scan => Ok scan | _ => Panic end;
    pool_ok ← (if shielded_coinbase fp then
                 match pool_delta_ok (ghostdag cd b) (mergeset_rewards ctx) (mergeset_non_daa cd b) (SupplyStore.get db sp) (supply_totals computed)
                         dev_accrued_parent dev_accrued miner_accrual_parent miner_accrual with Ok r => Ok r | _ => Panic end
               else Ok true);
    if (pool_ok : bool) then
      Ok (mk_computed (frontier_state computed) (supply_totals computed) (nullifier_muhash computed) (outcome computed) (burns computed) (Some scan),
          dev_accrued, miner_accrual)
    else Err InvalidShieldedState.

(** The shielded rows of [commit_utxo_state]. *)
Definition commit_batch (db : Db) (sp b : bytes) (computed : ComputedBlockShielded) (dev_accrued : Z) (miner_accrual : MinerAccrual) : exec WriteBatch :=
  batch ← match persist db [] b computed with Ok batch => Ok batch | _ => Panic end;
  batch ← (if is_active (security_fork_activation fp) (daa_score cd b) then
             parent_window ← match window_at db sp with
                             | Some log => Ok log
                             | None => if bool_decide (sp = genesis cd) || negb (is_post_security_fork sp) then Ok Log.default_log else Panic
                             end;
             let entry := mkWindowEntry b sp (computed_anchor anchor_to_bytes computed) (blue_score cd b) in
             window ← match Log.append blake2b parent_window entry with Ok w => Ok w | _ => Panic end;
             Ok (persist_window batch b window entry parent_window)
           else Ok batch);
  let batch := if 0 <? dev_accrued then DevAccruedStore.set_batch batch b dev_accrued else batch in
  Ok (set_miner_accrual batch b miner_accrual).

Definition commit_utxo_state (n : Node) (sp b : bytes) (computed : ComputedBlockShielded) (dev_accrued : Z) (miner_accrual : MinerAccrual) : exec Node :=
  batch ← commit_batch (n_db n) sp b computed dev_accrued miner_accrual;
  Ok (mk_node (write (n_db n) batch) ({[b]} ∪ n_valid n) (n_disqualified n) (n_stable n)).

(** ** The walk *)

(** The blocks to leave and the split point. *)
Fixpoint down_walk (to : bytes) (chain : list bytes) (leaving : list bytes) : option (list bytes * bytes) :=
  match chain with
  | [] => None
  | current :: chain => if is_chain_ancestor_of current to then Some (leaving, current) else down_walk to chain (leaving ++ [current])
  end.

Definition with_db (n : Node) (db : Db) : Node := mk_node db (n_valid n) (n_disqualified n) (n_stable n).
Definition disqualify (n : Node) (b : bytes) : Node := mk_node (n_db n) (n_valid n) ({[b]} ∪ n_disqualified n) (n_stable n).

(** One block of the up-walk. *)
Definition up_step (s : Node * bytes) (w : bytes * bytes) : exec (Node * bytes) :=
  let '(n, diff_point) := s in
  let '(sp, current) := w in
  if negb (bool_decide (sp = diff_point)) then Ok (disqualify n current, diff_point)
  else if bool_decide (current ∈ n_valid n) then
    Ok (with_db n (write (n_db n) (apply_nullifiers_from_store (n_db n) [] current)), current)
  else if bool_decide (current ∈ n_disqualified n) then Ok (n, diff_point)
  else
    ctx ← calculate_utxo_state (n_db n) sp current;
    match verify_expected_utxo_state (n_db n) sp current ctx with
    | Ok (computed, dev_accrued, miner_accrual) =>
        n ← commit_utxo_state n sp current computed dev_accrued miner_accrual;
        Ok (n, current)
    | Err e =>
        let n := if bool_decide (e = OtherRuleError) then n else mk_node (n_db n) (n_valid n) (n_disqualified n) false in
        Ok (disqualify n current, diff_point)
    | Panic => Panic
    end.

Definition windows (l : list bytes) : list (bytes * bytes) := zip l (tail l).

Definition calculate_utxo_state_relatively (n : Node) (from to : bytes) : exec (Node * bytes) :=
  if bool_decide (to ∈ n_disqualified n) then Ok (n, from)
  else
    '(leaving, split_point) ← unwrap (down_walk to (default_backward_chain_iterator from) []);
    let revert_batch := foldl (λ batch current, revert_nullifiers_from_store (n_db n) batch current) [] leaving in
    let n := with_db n (write (n_db n) revert_batch) in
    res_foldl up_step (n, split_point) (windows (forward_chain_iterator split_point to)).
End walk.
