(* ===== verification/ChainSpec.v ===== *)
(** The shielded state a selected chain determines.

    The state after a block is given by its selected chain alone ([chain_state]): the
    spends its mergeset contributes, the expected coinbase, the transition and the pool
    delta.  Valid chains have well-formed states, and the pool, the carried dev fee and the
    carried miner reward together are what the mergesets of the chain have issued. *)
From stdpp Require Import base gmap list sorting.
From S2P Require Import Prelude Turnstile Nullifier Burn AnchorLog Tree Bundle ShieldedState StateRoot Tx Encoding TxHash Limbs MuHash.
From S2P Require Import TxValidator ShieldedStores ShieldedManager ShieldedSnapshots Coinbase CoinbaseNotes Mergeset ChainWalk.

(** ** The selected-parent tree *)

Section tree.
Context (cd : ChainData).

Inductive chain : bytes → list bytes → Prop :=
  | chain_genesis : chain (genesis cd) [genesis cd]
  | chain_cons b p l : selected_parent cd b = Some p → chain p l → chain b (b :: l).

(** What the reachability service answers about known blocks. *)
Class ReachabilityLaws (R : Reachability) : Prop := {
  rl_genesis : selected_parent cd (genesis cd) = None;
  rl_backward b l : chain b l → default_backward_chain_iterator b = l;
  rl_ancestor a b l : chain b l → is_chain_ancestor_of a b = bool_decide (a ∈ l);
  rl_forward a b above below : chain b (above ++ a :: below) → forward_chain_iterator a b = a :: reverse above;
  rl_blue b l : chain b l → get_blue_score cd b = Some (blue_score cd b);
}.

Context {R : Reachability} {RL : ReachabilityLaws R}.

Lemma chain_unique b l l' : chain b l → chain b l' → l = l'.
Proof.
  intros H. revert l'. induction H as [|b p l Hp Hl IH]; intros l' H'; inversion H'; subst; try done.
  - rewrite rl_genesis in H. done.
  - rewrite rl_genesis in Hp. done.
  - rewrite Hp in H. injection H as <-. f_equal. by apply IH.
Qed.
Lemma chain_head b l : chain b l → ∃ l', l = b :: l'.
Proof. destruct 1; eauto. Qed.
Lemma chain_suffix b above a below : chain b (above ++ a :: below) → chain a (a :: below).
Proof.
  revert b. induction above as [|x above IH]; intros b H; cbn in H.
  - destruct (chain_head _ _ H) as [l' [= -> _]]. done.
  - inversion H; subst; [by destruct above|]. by eapply IH.
Qed.
Lemma chain_NoDup b l : chain b l → NoDup l.
Proof.
  induction 1 as [|b p l Hp Hl IH]; [apply NoDup_singleton|]. constructor; [|done]. intros Hin. apply list_elem_of_split in Hin as (l1 & l2 & ->).
  pose proof (chain_suffix _ _ _ _ Hl) as Hb. pose proof (chain_unique _ _ _ Hb (chain_cons _ _ _ Hp Hl)) as [= E].
  apply (f_equal length) in E. rewrite length_app in E. cbn in E. lia.
Qed.
Lemma chain_has_genesis b l : chain b l → genesis cd ∈ l.
Proof. induction 1; set_solver. Qed.
Lemma chain_genesis_only l : chain (genesis cd) l → l = [genesis cd].
Proof. intros H. by apply (chain_unique _ _ _ H chain_genesis). Qed.

(** The down-walk stops at the highest common block. *)
Lemma down_walk_ok to lt lf leaving :
  chain to lt → genesis cd ∈ lf →
  ∃ above split below, lf = above ++ split :: below ∧ split ∈ lt ∧ Forall (λ x, x ∉ lt) above ∧
    down_walk to lf leaving = Some (leaving ++ above, split).
Proof.
  intros Hto Hg. assert (∃ x, x ∈ lf ∧ x ∈ lt) as Hex by (exists (genesis cd); split; [done|by eapply chain_has_genesis]).
  clear Hg. revert leaving. induction lf as [|x lf IH]; intros leaving; [destruct Hex as (? & ?%elem_of_nil & _); done|]. cbn [down_walk].
  rewrite (rl_ancestor _ _ _ Hto). case_bool_decide as Hx; [exists [], x, lf; rewrite app_nil_r; by repeat constructor|].
  destruct (IH) with (leaving := leaving ++ [x]) as (above & split & below & -> & Hs & Ha & E).
  { destruct Hex as (y & Hy & Hy'). apply elem_of_cons in Hy as [->|Hy]; [done|eauto]. }
  exists (x :: above), split, below. split; [done|]. split; [done|]. split; [by constructor|]. rewrite E, <- app_assoc. done.
Qed.
End tree.

(** ** The state of a chain *)

Record ChainState {O : OrchardTree} := mk_chain_state {
  cs_state : ShieldedState;
  cs_nfs : list bytes;
  cs_roots : list (bytes * bytes);
  cs_log : option AnchorLog;
  cs_dev : Z;
  cs_slot : MinerAccrual;
}.
Arguments mk_chain_state {O} _ _ _ _ _ _.

Section spec.
Context (sha256 : bytes → bytes) (blake2b : bytes → bytes → bytes) {O : OrchardTree} (anchor_to_bytes : Anchor → bytes).
Context (MuHashElementHash : bytes → bytes) (chacha20 : bytes → nat → bytes) (MuHashFinalizeHash : bytes → bytes).
Context (cd : ChainData) (fp : ForkParams).

Definition cs_root (cs : ChainState) : bytes := anchor_to_bytes (tree_anchor (st_tree (cs_state cs))).
Definition post_fork (b : bytes) : bool := is_post_security_fork cd fp b.
Definition genesis_state : ChainState := mk_chain_state state_new [] [] None 0 accrual_default.

(** The age of an anchor is within the window. *)
Definition age_ok (b source : bytes) : bool :=
  let age := saturating_sub (blue_score cd b) (blue_score cd source) in (shielded_anchor_depth fp <=? age) && (age <=? max_shielded_anchor_age fp).
(** [b] is judged by the single-valued index: it is before the multi-producer fork and the security fork. *)
Definition early (b : bytes) : bool := negb (post_fork b) && negb (is_active (shielded_anchor_multi_activation fp) (daa_score cd b)).
(** The last block of the chain with a root. *)
Definition latest_root (roots : list (bytes * bytes)) (a : bytes) : option bytes := fst <$> List.find (λ '(_, r), bool_decide (r = a)) roots.
(** A spend of [b] may use its anchor: it is the root of the empty tree, or of a block of the chain whose age is in the
    window; after the security fork it is the named block, which is past the fork as well, and before both forks only the
    last block with the root counts. *)
Definition anchor_final (roots : list (bytes * bytes)) (b : bytes) (tx : ShieldedTx) : bool :=
  bool_decide (tx_anchor tx = empty_shielded_anchor anchor_to_bytes) ||
  (if post_fork b then
     match tx_anchor_block tx with
     | Some named => existsb (λ '(h, r), bool_decide (h = named ∧ r = tx_anchor tx) && post_fork h && age_ok b h) roots
     | None => false
     end
   else bool_decide (tx_anchor_block tx = None) &&
     if is_active (shielded_anchor_multi_activation fp) (daa_score cd b) then existsb (λ '(h, r), bool_decide (r = tx_anchor tx) && age_ok b h) roots
     else match latest_root roots (tx_anchor tx) with Some h => age_ok b h | None => false end).

(** The root a child of [b] commits to. *)
Definition chain_root (b : bytes) (cs : ChainState) : bytes :=
  let s := st_supply (cs_state cs) in
  let root0 := shielded_state_root blake2b (mkRootInputs (cs_root cs) (acc_hash MuHashElementHash chacha20 MuHashFinalizeHash (cs_nfs cs))
                 (cumulative_coinbase s) (cumulative_fees s) EMPTY_LEAF) in
  if post_fork b then shielded_state_root_v1 blake2b root0 (cs_dev cs) (Log.commitment blake2b (default Log.default_log (cs_log cs))) (miner_accrual_ref (cs_slot cs))
  else root0.

(** The mergeset of [b], with the spends that the chain of its parent lets it retain. *)
Definition chain_ctx (cs : ChainState) (b : bytes) : exec MergesetContext :=
  ctx ← collect_mergeset (tx_hasher fp) (coinbase_manager fp) (security_fork_activation fp) (merged cd b);
  retain ctx (spend_mask (cs_nfs cs) (anchor_final (cs_roots cs) b) (shielded_txs ctx)).

Definition chain_coinbase (p : bytes) (cs : ChainState) (b : bytes) (ctx : MergesetContext) : res () (Z * MinerAccrual) :=
  verify_coinbase_transaction (tx_hasher fp) (coinbase_manager fp) (coinbase_tx cd b) (daa_score cd b) (ghostdag cd b) (mergeset_rewards ctx)
    (mergeset_non_daa cd b) (chain_root p cs) (daa_score cd p) (cs_dev cs) (cs_slot cs).

(** The pool, what is carried and the subsidies balance. *)
Definition chain_pool_ok (cs : ChainState) (b : bytes) (ctx : MergesetContext) (st : ShieldedState) (dev : Z) (slot : MinerAccrual) : bool :=
  if shielded_coinbase fp then
    match pool_delta_ok (ghostdag cd b) (mergeset_rewards ctx) (mergeset_non_daa cd b) (totals_of (st_supply (cs_state cs))) (totals_of (st_supply st))
            (cs_dev cs) dev (cs_slot cs) slot with Ok r => r | _ => false end
  else true.

(** The state after [b], whose selected parent [p] has state [cs]; none when [b] is invalid. *)
Definition chain_step (p : bytes) (cs : ChainState) (b : bytes) : option ChainState :=
  match chain_ctx cs b with
  | Ok ctx =>
      if negb (header_checks cd b && context_checks cd b) then None
      else match chain_coinbase p cs b ctx, coinbase_mint cd fp b with
      | Ok (dev, slot), Ok mint =>
          match apply_chain_block sha256 (cs_state cs) mint (shielded_txs ctx) with
          | Ok (st, o) =>
              if chain_pool_ok cs b ctx st dev slot then
                let root := anchor_to_bytes (tree_anchor (st_tree st)) in
                let log := match Log.append blake2b (default Log.default_log (cs_log cs)) (mkWindowEntry b p root (blue_score cd b)) with
                           | Ok l => Some l | _ => None end in
                Some (mk_chain_state st (cs_nfs cs ++ out_new_nullifiers o) ((b, root) :: cs_roots cs) (if post_fork b then log else None) dev slot)
              else None
          | _ => None
          end
      | _, _ => None
      end
  | _ => None
  end.

(** The archive record of [b]. *)
Definition scan_of (b : bytes) (mint : option CoinbaseMint) (accepted : list ShieldedScanTx) : ShieldedScanBlockData :=
  mk_scan (blue_score cd b) (daa_score cd b) (timestamp cd b) (tx_id (tx_hasher fp) (coinbase_tx cd b))
    (if shielded_coinbase fp then (λ o, (spk_script (out_spk o), value o)) <$> outputs (coinbase_tx cd b) else [])
    ((λ n, cmx_to_bytes (OrchardNotes := orchard_notes fp) (note_commitment n)) <$> cb_notes mint) accepted.
Definition chain_scan (cs : ChainState) (b : bytes) : option ShieldedScanBlockData :=
  match chain_ctx cs b, coinbase_mint cd fp b with Ok ctx, Ok mint => Some (scan_of b mint (shielded_scan ctx)) | _, _ => None end.

(** The state after a chain, given from its tip down to the genesis. *)
Fixpoint chain_state (l : list bytes) : option ChainState :=
  match l with
  | [] => None
  | [_] => Some genesis_state
  | b :: (p :: _) as l => match chain_state l with Some cs => chain_step p cs b | None => None end
  end.
(** The fees of blue blocks outside the DAA window, which are collected and not paid out. *)
Definition block_lost (cs : ChainState) (b : bytes) : Z :=
  match chain_ctx cs b with Ok ctx => lost_fees (mergeset_rewards ctx) (mergeset_non_daa cd b) (mergeset_blues (ghostdag cd b)) | _ => 0 end.
Fixpoint chain_lost (l : list bytes) : Z :=
  match l with
  | [] | [_] => 0
  | b :: l => chain_lost l + match chain_state l with Some cs => block_lost cs b | None => 0 end
  end.
Definition state_of (b : bytes) (cs : ChainState) : Prop := ∃ l, chain cd b l ∧ chain_state l = Some cs.
Definition chain_valid (b : bytes) : Prop := ∃ cs, state_of b cs.
End spec.

(** ** Issuance *)

Section issuance.
Context {O : OrchardTree} (cd : ChainData) (fp : ForkParams).

(** The subsidies a block rewards, and the fees its mergeset claims. *)
Definition block_subsidy (b : bytes) : Z :=
  sum_list_Z ((λ mb, if bool_decide (mb_hash mb ∈ mergeset_non_daa cd b) then 0 else subsidy_of (coinbase_manager fp) mb) <$> merged cd b).
Definition block_claims (b : bytes) : Z := sum_list_Z (claimed <$> merged cd b).
(** The subsidies of the blocks of a chain above its last, the genesis. *)
Fixpoint chain_emission (l : list bytes) : Z :=
  match l with
  | [] | [_] => 0
  | b :: l => block_subsidy b + chain_emission l
  end.
End issuance.

(** The seed of a coinbase note. *)
Definition coinbase_seed {O : OrchardTree} (cd : ChainData) (fp : ForkParams) (b : bytes) (i : nat) : bytes :=
  note_seed (if is_active (shielded_coinbase_seed_activation fp) (daa_score cd b) then Some b else None) (tx_id (tx_hasher fp) (coinbase_tx cd b)) i.

(** What the walk relies on of the blocks of the tree: their mergesets are well formed and their coinbases decode, every coinbase output has
    a 32-bit counter that gives a seed, DAA scores do not decrease, chains are shorter than [2^64] and the subsidies of a chain with the fees
    of a mergeset are below [2^64]. *)
Class BlockLaws {O : OrchardTree} (cd : ChainData) (fp : ForkParams) : Prop := {
  bl_manager : wf_manager (coinbase_manager fp) ∧ 0 <= coinbase_payload_script_public_key_max_len (coinbase_manager fp) <= 255;
  bl_shielded : shielded_coinbase fp = true;
  bl_notes : OrchardNotesLaws (orchard_notes fp);
  bl_mergeset b p : selected_parent cd b = Some p → wf_mergeset (coinbase_manager fp) (security_fork_activation fp) (merged cd b);
  bl_ghostdag b p : selected_parent cd b = Some p → mb_hash <$> merged cd b ≡ₚ mergeset_blues (ghostdag cd b) ++ mergeset_reds (ghostdag cd b);
  bl_coinbase b p : selected_parent cd b = Some p → wf_bytes (payload (coinbase_tx cd b)) ∧
    ∃ d, deserialize_coinbase_payload (coinbase_manager fp) (payload (coinbase_tx cd b)) = Ok d;
  bl_outputs b : Forall (λ o, is_u64 (value o)) (outputs (coinbase_tx cd b)) ∧ Zlength (outputs (coinbase_tx cd b)) <= 2 ^ 64;
  bl_seeds b p i : selected_parent cd b = Some p → (i < length (outputs (coinbase_tx cd b)))%nat →
    ∃ c, Z.of_nat c < 2 ^ 32 ∧ valid_counter (N := orchard_notes fp) (note_hash_64 fp) (note_hash_32 fp) (coinbase_seed cd fp b i) c;
  bl_daa b p : selected_parent cd b = Some p → 0 <= daa_score cd p <= daa_score cd b ∧ daa_score cd b < 2 ^ 64;
  bl_emission b l : chain cd b l → chain_emission cd fp l + block_claims cd b < 2 ^ 64;
  bl_height b l : chain cd b l → Z.of_nat (length l) < 2 ^ 64;
}.

Section states.
Context (sha256 : bytes → bytes) (blake2b : bytes → bytes → bytes) {O : OrchardTree} {OL : OrchardTreeLaws O} (anchor_to_bytes : Anchor → bytes).
Context (MuHashElementHash : bytes → bytes) (chacha20 : bytes → nat → bytes) (MuHashFinalizeHash : bytes → bytes).
Context (cd : ChainData) (fp : ForkParams) {R : Reachability} {RL : ReachabilityLaws cd R} {BL : BlockLaws cd fp}.

Abbreviation chain_step := (ChainSpec.chain_step sha256 blake2b anchor_to_bytes MuHashElementHash chacha20 MuHashFinalizeHash cd fp).
Abbreviation chain_state := (ChainSpec.chain_state sha256 blake2b anchor_to_bytes MuHashElementHash chacha20 MuHashFinalizeHash cd fp).
Abbreviation state_of := (ChainSpec.state_of sha256 blake2b anchor_to_bytes MuHashElementHash chacha20 MuHashFinalizeHash cd fp).
Abbreviation chain_ctx := (ChainSpec.chain_ctx anchor_to_bytes cd fp).
Abbreviation chain_coinbase := (ChainSpec.chain_coinbase blake2b anchor_to_bytes MuHashElementHash chacha20 MuHashFinalizeHash cd fp).
Abbreviation cs_root := (ChainSpec.cs_root anchor_to_bytes).
Abbreviation manager := (coinbase_manager fp).

Lemma state_of_unique b cs cs' : state_of b cs → state_of b cs' → cs = cs'.
Proof. intros (l & Hl & E) (l' & Hl' & E'). rewrite (chain_unique cd _ _ _ Hl Hl') in E. congruence. Qed.
Lemma state_of_genesis : state_of (genesis cd) genesis_state.
Proof. exists [genesis cd]. split; [constructor|done]. Qed.
Lemma chain_state_cons b p l : chain cd p l →
  chain_state (b :: l) = match chain_state l with Some cs => chain_step p cs b | None => None end.
Proof. intros H. destruct (chain_head _ _ _ H) as [l' ->]. done. Qed.
Lemma state_of_cases b l cs : chain cd b l → chain_state l = Some cs →
  (b = genesis cd ∧ cs = genesis_state) ∨
  ∃ p l' csp, selected_parent cd b = Some p ∧ l = b :: l' ∧ chain cd p l' ∧ chain_state l' = Some csp ∧ chain_step p csp b = Some cs.
Proof.
  intros H E. destruct H as [|b p l Hp Hl]; [left; by injection E as <-|right]. rewrite (chain_state_cons _ _ _ Hl) in E.
  destruct (chain_state l) as [csp|] eqn:Es; [|done]. eauto 10.
Qed.
Lemma state_of_step b p csp : selected_parent cd b = Some p → state_of p csp → ∀ cs, state_of b cs ↔ chain_step p csp b = Some cs.
Proof.
  intros Hp (l & Hl & E) cs. pose proof (chain_state_cons b p l Hl) as Ec. rewrite E in Ec. split.
  - intros (l' & Hl' & E'). rewrite (chain_unique cd _ _ _ Hl' (chain_cons _ _ _ _ Hp Hl)) in E'. congruence.
  - intros H. exists (b :: l). split; [by econstructor|]. by rewrite Ec.
Qed.
(** Validity is inherited by the selected parent. *)
Lemma state_of_parent b p cs : selected_parent cd b = Some p → state_of b cs → ∃ csp, state_of p csp ∧ chain_step p csp b = Some cs.
Proof.
  intros Hp (l & Hl & E). destruct (state_of_cases _ _ _ Hl E) as [[-> _]|(q & l' & csp & Hq & _ & Hl' & E' & Hs)].
  - rewrite (rl_genesis cd) in Hp. done.
  - rewrite Hp in Hq. injection Hq as <-. exists csp. split; [by exists l'|done].
Qed.
Lemma state_of_chain b l cs : state_of b cs → chain cd b l → chain_state l = Some cs.
Proof. intros (l' & Hl' & E) Hl. by rewrite (chain_unique cd _ _ _ Hl Hl'). Qed.

Lemma chain_step_cases p cs b cs' : chain_step p cs b = Some cs' →
  ∃ ctx mint o, chain_ctx cs b = Ok ctx ∧ chain_coinbase p cs b ctx = Ok (cs_dev cs', cs_slot cs') ∧
    coinbase_mint cd fp b = Ok mint ∧ apply_chain_block sha256 (cs_state cs) mint (shielded_txs ctx) = Ok (cs_state cs', o) ∧
    chain_pool_ok cd fp cs b ctx (cs_state cs') (cs_dev cs') (cs_slot cs') = true ∧
    cs_nfs cs' = cs_nfs cs ++ out_new_nullifiers o ∧ cs_roots cs' = (b, cs_root cs') :: cs_roots cs ∧
    cs_log cs' = if post_fork cd fp b then match Log.append blake2b (default Log.default_log (cs_log cs)) (mkWindowEntry b p (cs_root cs') (blue_score cd b)) with
                     | Ok l => Some l | _ => None end else None.
Proof.
  unfold ChainSpec.chain_step. destruct (ChainSpec.chain_ctx _ _ _ _ _) as [ctx| |]; try done. destruct (header_checks cd b && context_checks cd b); [|done]. cbn [negb].
  destruct (ChainSpec.chain_coinbase _ _ _ _ _ _ _ _ _ _ _) as [[dev slot]| |] eqn:Hc; try done.
  destruct (coinbase_mint cd fp b) as [mint| |]; try done. destruct (apply_chain_block _ _ _ _) as [[st o]| |] eqn:Ha; try done.
  destruct (chain_pool_ok _ _ _ _ _ _ _ _) eqn:Hac; [|done]. intros [= <-]. exists ctx, mint, o. by cbn.
Qed.

(** ** The mergeset of a block *)

(** What holds of the retained spends and of the rewards. *)
Record ctx_facts (cs : ChainState) (b : bytes) (ctx : MergesetContext) : Prop := {
  cf_txs : Forall spend_wf (shielded_txs ctx) ∧ Zlength (shielded_txs ctx) <= 2 ^ 64;
  cf_scan : Forall2 archived (shielded_txs ctx) (shielded_scan ctx);
  cf_kept : nf_set (st_nullifiers (cs_state cs)) = list_to_set (cs_nfs cs) → block_kept (st_nullifiers (cs_state cs)) (shielded_txs ctx) = shielded_txs ctx;
  cf_rewards : wf_rewards (mergeset_rewards ctx) (mergeset_blues (ghostdag cd b) ++ mergeset_reds (ghostdag cd b));
  cf_subsidies : subsidies_of (mergeset_rewards ctx) (mergeset_non_daa cd b) (mergeset_blues (ghostdag cd b)) +
    subsidies_of (mergeset_rewards ctx) (mergeset_non_daa cd b) (mergeset_reds (ghostdag cd b)) = block_subsidy cd fp b;
  cf_fees : fees_of (mergeset_rewards ctx) (mergeset_blues (ghostdag cd b)) + fees_of (mergeset_rewards ctx) (mergeset_reds (ghostdag cd b)) =
    sum_list_Z (plain_fees <$> merged cd b) + fees_total (shielded_txs ctx);
  cf_claims : sum_list_Z (plain_fees <$> merged cd b) + fees_total (shielded_txs ctx) <= block_claims cd b;
}.

Lemma fees_of_app rewards l1 l2 : fees_of rewards (l1 ++ l2) = fees_of rewards l1 + fees_of rewards l2.
Proof. unfold fees_of. by rewrite fmap_app, sum_list_Z_app. Qed.
Lemma subsidies_of_app rewards non_daa l1 l2 : subsidies_of rewards non_daa (l1 ++ l2) = subsidies_of rewards non_daa l1 + subsidies_of rewards non_daa l2.
Proof. unfold subsidies_of. by rewrite fmap_app, sum_list_Z_app. Qed.
Lemma fees_of_perm rewards l1 l2 : l1 ≡ₚ l2 → fees_of rewards l1 = fees_of rewards l2.
Proof. intros H. by apply sum_list_Z_perm, fmap_Permutation. Qed.
Lemma subsidies_of_perm rewards non_daa l1 l2 : l1 ≡ₚ l2 → subsidies_of rewards non_daa l1 = subsidies_of rewards non_daa l2.
Proof. intros H. by apply sum_list_Z_perm, fmap_Permutation. Qed.

Lemma select_length {A} (l : list A) fl : (length (select l fl) <= length l)%nat.
Proof. revert fl. induction l as [|x l IH]; intros [|[] fl]; cbn; try lia; specialize (IH fl); lia. Qed.

Lemma chain_ctx_ok cs b p : selected_parent cd b = Some p → ∃ ctx, chain_ctx cs b = Ok ctx ∧ ctx_facts cs b ctx.
Proof using BL.
  intros Hp. pose proof (bl_mergeset (fp := fp) b p Hp) as Hw. destruct (bl_manager (cd := cd) (fp := fp)) as [_ Hmax]. pose proof (bl_ghostdag (fp := fp) b p Hp) as Hperm.
  unfold ChainSpec.chain_ctx. destruct (collect_mergeset_ok (tx_hasher fp) _ _ _ Hw) as (ctx0 & -> & Hc). cbn [mbind res_bind].
  set (mask := spend_mask _ _ _). destruct (retain_ok _ _ _ _ mask Hw Hc (spend_mask_length _ _ _)) as (ctx & -> & Hr). exists ctx. split; [done|].
  pose proof (retained_wf _ _ _ _ _ _ Hmax Hw Hc Hr) as Hwf. pose proof (retained_fees _ _ _ _ _ _ Hw Hc Hr) as Hf. pose proof (retained_claims _ _ _ _ _ Hc Hr) as Hcl.
  pose proof (retained_subsidies _ _ _ _ _ (mergeset_non_daa cd b) Hr) as Hs. pose proof (cl_ctx _ _ _ Hc) as Hctx.
  split.
  - rewrite (rt_txs _ _ _ _ _ Hr). split; [apply select_Forall, Hctx|]. etrans; [|exact (wms_count _ _ _ Hw)]. unfold Zlength. apply inj_le. etrans; [apply select_length|apply Hc].
  - apply Hr.
  - intros Hset. rewrite (rt_txs _ _ _ _ _ Hr). by apply spend_mask_kept.
  - unfold wf_rewards. by rewrite <- Hperm.
  - rewrite <- subsidies_of_app, <- (subsidies_of_perm _ _ _ _ Hperm), Hs. done.
  - rewrite <- fees_of_app, <- (fees_of_perm _ _ _ Hperm). exact Hf.
  - rewrite <- Hf. exact Hcl.
Qed.

(** ** Valid chains *)

Abbreviation chain_lost := (ChainSpec.chain_lost sha256 blake2b anchor_to_bytes MuHashElementHash chacha20 MuHashFinalizeHash cd fp).
Abbreviation block_lost := (ChainSpec.block_lost anchor_to_bytes cd fp).

(** What a block carries to its children. *)
Record carry_ok (b : bytes) (dev : Z) (slot : MinerAccrual) : Prop := {
  ca_dev : 0 <= dev;
  ca_slot : canonical_slot slot;
  ca_no_recipient : dev_fee_recipient manager = None → dev = 0;
  ca_dev_inactive : is_active (dev_fee_accrual_activation manager) (daa_score cd b) = false → dev = 0;
  ca_slot_inactive : is_active (miner_accrual_activation manager) (daa_score cd b) = false → acc_amount slot = 0;
}.

(** The states of valid chains. *)
Record chain_ok (b : bytes) (l : list bytes) (cs : ChainState) : Prop := {
  co_reference : reference (cs_state cs) (cs_nfs cs);
  co_roots h r : (h, r) ∈ cs_roots cs ↔ h ∈ l ∧ h ≠ genesis cd ∧ ∃ csh, state_of h csh ∧ r = cs_root csh;
  co_log : match cs_log cs with
           | Some log => b ≠ genesis cd ∧ post_fork cd fp b = true ∧ Log.is_well_formed log = true ∧ 0 <= count log < Z.of_nat (length l)
           | None => b = genesis cd ∨ post_fork cd fp b = false
           end;
  co_carry : carry_ok b (cs_dev cs) (cs_slot cs);
  co_lost : 0 <= chain_lost l;
  co_pool : 0 <= cumulative_fees (st_supply (cs_state cs)) <= cumulative_coinbase (st_supply (cs_state cs));
  co_supply : cumulative_coinbase (st_supply (cs_state cs)) - cumulative_fees (st_supply (cs_state cs)) + cs_dev cs + acc_amount (cs_slot cs) + chain_lost l
              = chain_emission cd fp l;
}.

(** The coinbase a block must carry: it is always built, and pays out and carries on exactly what is owed and was carried. *)
Definition expected_of (p : bytes) (csp : ChainState) (b : bytes) (ctx : MergesetContext) (d : CoinbaseData) : res CoinbaseError CoinbaseTransactionTemplate :=
  expected_coinbase_transaction manager (daa_score cd b) (cb_miner_data d) (ghostdag cd b) (mergeset_rewards ctx) (mergeset_non_daa cd b)
    (chain_root blake2b anchor_to_bytes MuHashElementHash chacha20 MuHashFinalizeHash cd fp p csp) (daa_score cd p) (cs_dev csp) (cs_slot csp).

Lemma chain_emission_cons b p l : chain cd p l → chain_emission cd fp (b :: l) = block_subsidy cd fp b + chain_emission cd fp l.
Proof. intros H. by destruct (chain_head _ _ _ H) as [l' ->]. Qed.
Lemma chain_lost_cons b p l csp : chain cd p l → chain_state l = Some csp → chain_lost (b :: l) = chain_lost l + block_lost csp b.
Proof. intros H E. destruct (chain_head _ _ _ H) as [l' ->]. cbn [ChainSpec.chain_lost]. by rewrite E. Qed.

Lemma is_active_later a d d' : d <= d' → is_active a d' = false → is_active a d = false.
Proof. unfold is_active. rewrite !Z.leb_gt. lia. Qed.

Lemma chain_coinbase_ok p l csp b ctx : selected_parent cd b = Some p → chain cd p l → chain_ok p l csp → ctx_facts csp b ctx →
  ∃ d tpl, deserialize_coinbase_payload manager (payload (coinbase_tx cd b)) = Ok d ∧ expected_of p csp b ctx d = Ok tpl ∧
    chain_coinbase p csp b ctx = (if bool_decide (tx_hash (tx_hasher fp) (coinbase_tx cd b) = tx_hash (tx_hasher fp) (tpl_tx tpl))
                                  then Ok (dev_accrued tpl, miner_accrual tpl) else Err ()) ∧
    carry_ok b (dev_accrued tpl) (miner_accrual tpl) ∧ 0 <= output_sum (outputs (tpl_tx tpl)) ∧
    output_sum (outputs (tpl_tx tpl)) + dev_accrued tpl + acc_amount (miner_accrual tpl) + lost_fees (mergeset_rewards ctx) (mergeset_non_daa cd b) (mergeset_blues (ghostdag cd b)) =
      block_subsidy cd fp b + sum_list_Z (plain_fees <$> merged cd b) + fees_total (shielded_txs ctx) + cs_dev csp + acc_amount (cs_slot csp) ∧
    output_sum (outputs (tpl_tx tpl)) + dev_accrued tpl + acc_amount (miner_accrual tpl) < 2 ^ 64 ∧ cs_dev csp + acc_amount (cs_slot csp) < 2 ^ 64.
Proof using BL.
  intros Hp Hl Hok Hf. destruct (bl_manager (cd := cd) (fp := fp)) as [Hm Hmax]. destruct (bl_coinbase (fp := fp) b p Hp) as [Hb [d Hd]].
  pose proof (encode_decode manager Hmax _ Hb) as He. rewrite Hd in He. destruct He as [Hdw _]. destruct (co_carry _ _ _ Hok) as [C1 C2 C3 C4 C5].
  pose proof (bl_emission (fp := fp) _ _ (chain_cons _ _ _ _ Hp Hl)) as Hem. rewrite (chain_emission_cons _ _ _ Hl), <- (co_supply _ _ _ Hok) in Hem.
  pose proof (co_pool _ _ _ Hok) as Hpool. pose proof (co_lost _ _ _ Hok) as Hlost. destruct (bl_daa (fp := fp) b p Hp) as [Hdaa Hdaa'].
  pose proof (cf_rewards _ _ _ Hf) as Hw. pose proof Hw as [Hwb Hwr]%Forall_app. pose proof (cf_subsidies _ _ _ Hf) as Hsub. pose proof (cf_fees _ _ _ Hf) as Hfee. pose proof (cf_claims _ _ _ Hf) as Hcl.
  destruct (sums_split (mergeset_rewards ctx) (mergeset_non_daa cd b) _ Hwb) as (B1 & B2 & B3 & B4 & B5 & _). destruct (sums_split (mergeset_rewards ctx) (mergeset_non_daa cd b) _ Hwr) as (R1 & R2 & _ & _ & _ & R5).
  destruct (expected_coinbase_ok manager (daa_score cd b) (cb_miner_data d) (ghostdag cd b) (mergeset_rewards ctx) (mergeset_non_daa cd b)
    (chain_root blake2b anchor_to_bytes MuHashElementHash chacha20 MuHashFinalizeHash cd fp p csp) (daa_score cd p) (cs_dev csp) (cs_slot csp))
    as (tpl & E & Hsum & Hda & Hsl & Hpos & _ & Hsi & Hdi); [done|done|done|done|done|lia|exact (wd_len _ _ Hdw)|lia|]. cbv zeta in Hsum.
  rewrite B5, R5 in Hsum. pose proof (is_active_later (miner_accrual_activation manager) _ _ (proj2 Hdaa)) as Hi1. pose proof (is_active_later (dev_fee_accrual_activation manager) _ _ (proj2 Hdaa)) as Hi2.
  assert (0 <= output_sum (outputs (tpl_tx tpl))) as Hos by (apply sum_list_Z_nonneg, Forall_fmap; eapply Forall_impl; [exact Hpos|]; intros o Ho; cbn in *; lia).
  assert (carry_ok b (dev_accrued tpl) (miner_accrual tpl)) as Hca.
  { split; [done|done|by auto|by auto|]. intros Hi. by rewrite (Hsi Hi). }
  exists d, tpl. split; [done|]. split; [done|]. split; [unfold ChainSpec.chain_coinbase, verify_coinbase_transaction; rewrite Hd; cbn [mbind res_bind]; by rewrite E|].
  split; [done|]. split; [done|]. destruct (is_active (miner_accrual_activation manager) (daa_score cd b)), (is_active (dev_fee_accrual_activation manager) (daa_score cd b));
    rewrite ?C4, ?C5 in * by auto; destruct Hsl, C2; lia.
Qed.

(** The block the transition applies. *)
Lemma coinbase_mint_wf b mint : coinbase_mint cd fp b = Ok mint → wf_coinbase mint.
Proof using BL.
  intros Hm. destruct (bl_outputs (fp := fp) b) as [Hv Hl]. unfold coinbase_mint in Hm. destruct (shielded_coinbase fp); [|injection Hm as <-; by split].
  apply res_bind_ok in Hm as (m & Hm & [= <-]). apply build_mint_values in Hm. unfold wf_coinbase, cb_notes. split.
  - apply (proj1 (Forall_fmap note_value (λ v, is_u64 v) (notes m))). rewrite Hm. by apply Forall_fmap.
  - unfold Zlength in *. rewrite <- (length_fmap note_value (notes m)), Hm, length_fmap. done.
Qed.
Lemma chain_block_wf cs b ctx mint : ctx_facts cs b ctx → coinbase_mint cd fp b = Ok mint →
  wf_block (mint, shielded_txs ctx) ∧ Forall (λ tx, tx_burn tx = None) (shielded_txs ctx).
Proof using BL.
  intros Hf Hm. destruct (cf_txs _ _ _ Hf) as [Ht Hl]. split; [split; [by apply coinbase_mint_wf in Hm|split; [|done]]|]; (eapply Forall_impl; [exact Ht|]; by intros tx []).
Qed.

(** What the transition does to the supply. *)
Lemma chain_supply cs b ctx mint st o : reference (cs_state cs) (cs_nfs cs) → ctx_facts cs b ctx → coinbase_mint cd fp b = Ok mint →
  apply_chain_block sha256 (cs_state cs) mint (shielded_txs ctx) = Ok (st, o) →
  cumulative_coinbase (st_supply st) = cumulative_coinbase (st_supply (cs_state cs)) + minted mint ∧ 0 <= minted mint < 2 ^ 64 ∧
  cumulative_fees (st_supply st) = cumulative_fees (st_supply (cs_state cs)) + fees_total (shielded_txs ctx) ∧ 0 <= fees_total (shielded_txs ctx) < 2 ^ 64 ∧
  0 <= cumulative_fees (st_supply st) <= cumulative_coinbase (st_supply st).
Proof using OL BL.
  intros Href Hf Hm Ha. destruct (chain_block_wf cs b ctx mint Hf Hm) as [Hwf Hnb].
  destruct (apply_chain_block_effect sha256 _ (mint, shielded_txs ctx) st o (ref_tree _ _ Href) (ref_supply _ _ Href) Hwf Ha) as (Hv & He & _ & _ & Hs').
  pose proof (eff_supply _ _ _ _ _ _ _ _ _ _ _ He) as Es. destruct Hv as (_ & Hmint & Hfees & _ & _ & _ & Hpool & _). cbn [fst snd] in *.
  destruct (ref_no_burns _ _ Href) as (Hb1 & Hb2 & _). pose proof (cf_kept _ _ _ Hf (ref_set _ _ Href)) as Hk. unfold supply_after in *. rewrite Hk in *.
  pose proof (sum_fee_split (shielded_txs ctx)) as Hsplit. destruct (no_receipts _ Hnb) as [_ Hz]. rewrite Hz in *. unfold fees_total. rewrite Hsplit.
  assert (0 <= minted mint) as Hm0.
  { apply sum_list_Z_nonneg, Forall_fmap. destruct (coinbase_mint_wf b mint Hm) as [Hw _]. eapply Forall_impl; [exact Hw|]. by intros n []. }
  assert (0 <= sum_list_Z (tx_fee <$> shielded_txs ctx)) as Hf0.
  { apply sum_list_Z_nonneg, Forall_fmap. eapply Forall_impl; [exact (proj1 (cf_txs _ _ _ Hf))|]. intros tx [[[Hx _] _] _]. exact Hx. }
  destruct (ref_supply _ _ Href) as (_ & [HF _] & _). rewrite Es in *. unfold Ledger.exited, Ledger.issued in Hpool. cbn in *. lia.
Qed.

(** The pool check returns, and holds exactly when the supply and what is carried grow by the subsidies. *)
Lemma chain_pool_value p l csp b ctx mint st o dev slot : selected_parent cd b = Some p → chain cd p l → chain_ok p l csp → ctx_facts csp b ctx →
  chain_coinbase p csp b ctx = Ok (dev, slot) → coinbase_mint cd fp b = Ok mint →
  apply_chain_block sha256 (cs_state csp) mint (shielded_txs ctx) = Ok (st, o) →
  carry_ok b dev slot ∧ 0 <= block_subsidy cd fp b ∧
  pool_delta_ok (ghostdag cd b) (mergeset_rewards ctx) (mergeset_non_daa cd b) (totals_of (st_supply (cs_state csp))) (totals_of (st_supply st))
    (cs_dev csp) dev (cs_slot csp) slot =
  Ok (bool_decide (minted mint - fees_total (shielded_txs ctx) + (dev - cs_dev csp) + (acc_amount slot - acc_amount (cs_slot csp)) =
    block_subsidy cd fp b - lost_fees (mergeset_rewards ctx) (mergeset_non_daa cd b) (mergeset_blues (ghostdag cd b)))).
Proof using OL BL.
  intros Hp Hl Hok Hf Hc Hm Ha. destruct (chain_coinbase_ok p l csp b ctx Hp Hl Hok Hf) as (d & tpl & _ & _ & E & Hca & Hos & _ & Hb1 & Hb2).
  rewrite Hc in E. case_bool_decide; [|done]. injection E as -> ->. destruct (chain_supply csp b ctx mint st o (co_reference _ _ _ Hok) Hf Hm Ha) as (S1 & S2 & S3 & S4 & _).
  pose proof (cf_rewards _ _ _ Hf) as Hw. pose proof Hw as [Hwb Hwr]%Forall_app. pose proof (cf_subsidies _ _ _ Hf) as Hsub. pose proof (cf_fees _ _ _ Hf) as Hfee. pose proof (cf_claims _ _ _ Hf) as Hcl.
  destruct (sums_split (mergeset_rewards ctx) (mergeset_non_daa cd b) _ Hwb) as (B1 & B2 & B3 & B4 & _). destruct (sums_split (mergeset_rewards ctx) (mergeset_non_daa cd b) _ Hwr) as (R1 & R2 & _).
  pose proof (bl_emission (fp := fp) _ _ (chain_cons _ _ _ _ Hp Hl)) as Hem. rewrite (chain_emission_cons _ _ _ Hl), <- (co_supply _ _ _ Hok) in Hem.
  pose proof (co_pool _ _ _ Hok). pose proof (co_lost _ _ _ Hok). destruct (co_carry _ _ _ Hok) as [C1 [C2 _] _ _ _]. destruct Hca as [D1 [D2 D3] D4 D5 D6].
  split; [by repeat split|]. split; [lia|]. rewrite pool_delta_value; unfold totals_of; cbn [tot_coinbase tot_fees]; [|done|lia..].
  f_equal. apply bool_decide_ext. rewrite Hsub. lia.
Qed.

(** ** The archive *)

Lemma select_full {A B} (l : list A) (k : list B) : ∀ fl, length l = length k → length (select l fl) = length l → select k fl = k.
Proof.
  revert k. induction l as [|x l IH]; intros [|y k] [|[] fl] Hl Hs; try done; injection Hl as Hl; cbn in *.
  - f_equal. apply IH; [done|lia].
  - pose proof (select_length l fl). lia.
Qed.
Lemma length_enumerate {A} (l : list A) : ∀ i, length (enumerate i l).*1 = length l.
Proof. induction l as [|x l IH]; intros i; [done|]. cbn. f_equal. apply IH. Qed.
Lemma res_map_enumerate {E A B} (l : list A) : ∀ (k pre : list B) , length l = length k →
  res_map (E := E) (λ i, unwrap ((pre ++ k) !! Z.to_nat i)) (enumerate (Z.of_nat (length pre)) l).*1 = Ok k.
Proof.
  induction l as [|x l IH]; intros [|y k] pre Hl; try done. injection Hl as Hl. cbn [enumerate fmap list_fmap fst res_map]. rewrite Nat2Z.id, list_lookup_middle by done.
  cbn [unwrap mbind res_bind]. specialize (IH k (pre ++ [y]) Hl). rewrite <- app_assoc in IH. cbn [app] in IH. rewrite length_app in IH. cbn [length] in IH.
  replace (Z.of_nat (length pre) + 1) with (Z.of_nat (length pre + 1)) by lia. rewrite IH. done.
Qed.

(** Every retained transaction is accepted by the transition, so its record is archived. *)
Lemma scan_block_ok cs b ctx mint st o : reference (cs_state cs) (cs_nfs cs) → ctx_facts cs b ctx → coinbase_mint cd fp b = Ok mint →
  apply_chain_block sha256 (cs_state cs) mint (shielded_txs ctx) = Ok (st, o) →
  scan_block_of cd fp b mint (shielded_scan ctx) o = Ok (scan_of cd fp b mint (shielded_scan ctx)).
Proof using OL BL.
  intros Href Hf Hm Ha. destruct (chain_block_wf cs b ctx mint Hf Hm) as [Hwf Hnb].
  destruct (apply_chain_block_effect sha256 _ (mint, shielded_txs ctx) st o (ref_tree _ _ Href) (ref_supply _ _ Href) Hwf Ha) as (_ & He & _).
  pose proof (cf_kept _ _ _ Hf (ref_set _ _ Href)) as Hk. unfold block_kept in Hk.
  assert (out_accepted o = (enumerate 0 (shielded_txs ctx)).*1) as Hacc.
  { rewrite (eff_accepted _ _ _ _ _ _ _ _ _ _ _ He). cbn [snd]. apply (select_full (shielded_txs ctx)); [|by rewrite Hk].
    symmetry. apply length_enumerate. }
  unfold scan_block_of. rewrite Hacc, (res_map_enumerate _ (shielded_scan ctx) []); [|exact (Forall2_length _ _ _ (cf_scan _ _ _ Hf))].
  cbn [mbind res_bind]. unfold scan_of. do 2 f_equal. by destruct mint.
Qed.

(** The archived nullifiers are those the block spends, and the archived commitments rebuild its tree. *)
Definition archived_nullifiers (scan : ShieldedScanBlockData) : list bytes :=
  r ← scan_accepted scan; take 32 <$> chunks_exact COMPACT_ACTION_LEN (action_bytes r).
Lemma archive_rebuilds cs b ctx mint st o : reference (cs_state cs) (cs_nfs cs) → ctx_facts cs b ctx → coinbase_mint cd fp b = Ok mint →
  apply_chain_block sha256 (cs_state cs) mint (shielded_txs ctx) = Ok (st, o) →
  let scan := scan_of cd fp b mint (shielded_scan ctx) in
  archived_nullifiers scan = out_new_nullifiers o ∧
  ∃ cms, Forall2 (λ c cm, cmx_from_bytes c = Some cm) (archived_cmxs (scan_coinbase_commitments scan) (action_bytes <$> scan_accepted scan)) cms ∧
    append_commitments (st_tree (cs_state cs)) cms = (st_tree st, Ok ()).
Proof using OL BL.
  intros Href Hf Hm Ha scan. destruct (chain_block_wf cs b ctx mint Hf Hm) as [Hwf Hnb].
  destruct (apply_chain_block_effect sha256 _ (mint, shielded_txs ctx) st o (ref_tree _ _ Href) (ref_supply _ _ Href) Hwf Ha) as (_ & He & _).
  pose proof (cf_kept _ _ _ Hf (ref_set _ _ Href)) as Hk. pose proof (cf_scan _ _ _ Hf) as Hs.
  rewrite (eff_nullifiers _ _ _ _ _ _ _ _ _ _ _ He). cbn [snd]. rewrite Hk. split.
  - unfold archived_nullifiers, scan, scan_of. cbn [scan_accepted]. clear -Hs. induction Hs as [|tx r txs rs [Hr _] _ IH]; [done|]. cbn. rewrite IH. f_equal. exact Hr.
  - exists (commitments (out_subtree o)). split; [|exact (apply_chain_block_tree sha256 _ _ _ _ _ Ha)].
    rewrite (eff_subtree _ _ _ _ _ _ _ _ _ _ _ He). unfold block_commitments, archived_cmxs. cbn [fst snd]. rewrite Hk. apply Forall2_app.
    + unfold scan, scan_of. cbn [scan_coinbase_commitments]. apply Forall2_fmap. apply Forall_Forall2_diag, Forall_true. intros n. apply (cmx_roundtrip (OrchardNotesLaws := bl_notes (cd := cd) (fp := fp))).
    + unfold scan, scan_of. cbn [scan_accepted]. clear -Hs. induction Hs as [|tx r txs rs [_ [Hr _]] _ IH]; [constructor|]. cbn. by apply Forall2_app.
Qed.

Lemma reference_new : reference state_new [].
Proof. split; [apply wf_tree_new|done..|constructor]. Qed.

(** The log of a valid parent takes one more entry. *)
Lemma append_parent p l csp e :
  chain_ok p l csp → 0 < Z.of_nat (length l) < 2 ^ 64 - 1 → ∃ log, Log.append blake2b (default Log.default_log (cs_log csp)) e = Ok log ∧
  Log.is_well_formed log = true ∧ 0 <= count log < Z.of_nat (S (length l)).
Proof.
  intros H Hl. set (pl := default Log.default_log (cs_log csp)).
  assert (Log.is_well_formed pl = true ∧ (0 <= count pl < Z.of_nat (length l) ∨ count pl = 0)) as [Hw Hc].
  { pose proof (co_log _ _ _ H) as Hlog. unfold pl. destruct (cs_log csp); cbn; [|by eauto]. destruct Hlog as (_ & _ & ? & ?). eauto. }
  destruct (Log.append_ok blake2b pl e) as (st & nd & E & _ & Hw'); [unfold is_uint; lia|done|unfold u64_max; lia|].
  eexists. split; [exact E|]. split; [exact Hw'|]. cbn. lia.
Qed.

Lemma genesis_ok : chain_ok (genesis cd) [genesis cd] genesis_state.
Proof.
  split; [apply reference_new| |by left|by repeat split|done|done|done]. intros h r. cbn. rewrite list_elem_of_singleton. split; [by intros ?%elem_of_nil|]. intros (-> & ? & _). done.
Qed.
Lemma chain_step_supply p l csp b ctx mint o cs : selected_parent cd b = Some p → chain cd p l → chain_state l = Some csp → chain_ok p l csp →
  chain_ctx csp b = Ok ctx → ctx_facts csp b ctx → chain_coinbase p csp b ctx = Ok (cs_dev cs, cs_slot cs) → coinbase_mint cd fp b = Ok mint →
  apply_chain_block sha256 (cs_state csp) mint (shielded_txs ctx) = Ok (cs_state cs, o) →
  chain_pool_ok cd fp csp b ctx (cs_state cs) (cs_dev cs) (cs_slot cs) = true →
  carry_ok b (cs_dev cs) (cs_slot cs) ∧ 0 <= chain_lost (b :: l) ∧
  0 <= cumulative_fees (st_supply (cs_state cs)) <= cumulative_coinbase (st_supply (cs_state cs)) ∧
  cumulative_coinbase (st_supply (cs_state cs)) - cumulative_fees (st_supply (cs_state cs)) + cs_dev cs + acc_amount (cs_slot cs) + chain_lost (b :: l) =
    chain_emission cd fp (b :: l).
Proof using OL BL.
  intros Hp Hl Es Hok Ectx Hf Hc Hm Ha Hpool. destruct (chain_pool_value p l csp b ctx mint (cs_state cs) o _ _ Hp Hl Hok Hf Hc Hm Ha) as (Hca & _ & Ep).
  destruct (chain_supply csp b ctx mint _ o (co_reference _ _ _ Hok) Hf Hm Ha) as (S1 & S2 & S3 & S4 & S5).
  unfold chain_pool_ok in Hpool. rewrite (bl_shielded (cd := cd) (fp := fp)), Ep in Hpool. apply bool_decide_eq_true in Hpool.
  rewrite (chain_emission_cons b p l Hl), (chain_lost_cons b p l csp Hl Es). unfold ChainSpec.block_lost. rewrite Ectx.
  pose proof (cf_rewards _ _ _ Hf) as [Hwb _]%Forall_app. destruct (sums_split (mergeset_rewards ctx) (mergeset_non_daa cd b) _ Hwb) as (_ & _ & B3 & _).
  pose proof (co_supply _ _ _ Hok). pose proof (co_lost _ _ _ Hok). split; [done|]. lia.
Qed.

Lemma state_of_ok b l cs : chain cd b l → chain_state l = Some cs → chain_ok b l cs.
Proof using OL RL BL.
  intros Hl. revert cs. induction Hl as [|b p l Hp Hl IH]; intros cs E; [injection E as <-; apply genesis_ok|].
  pose proof E as E0. rewrite (chain_state_cons _ _ _ Hl) in E. destruct (chain_state l) as [csp|] eqn:Es; [|done]. specialize (IH _ eq_refl).
  destruct (chain_step_cases _ _ _ _ E) as (ctx & mint & o & Ectx & Hc & Hm & Ha & Hpool & Hn & Hr & Hlog).
  assert (ctx_facts csp b ctx) as Hf by (destruct (chain_ctx_ok csp b p Hp) as (ctx' & E' & Hf); rewrite Ectx in E'; by injection E' as <-).
  destruct (chain_block_wf csp b ctx mint Hf Hm) as [Hwf Hnb]. destruct (chain_step_supply p l csp b ctx mint o cs Hp Hl Es IH Ectx Hf Hc Hm Ha Hpool) as (Hca & Hlo & Hpo & Hsu).
  assert (b ≠ genesis cd) as Hbg by (intros ->; rewrite (rl_genesis cd) in Hp; done).
  split; [| | |done|done|done|done].
  - rewrite Hn. exact (reference_step sha256 _ _ _ _ _ _ (co_reference _ _ _ IH) Hwf Hnb Ha).
  - intros h r. rewrite Hr, !elem_of_cons, (co_roots _ _ _ IH). split.
    + intros [[= -> ->]|(H1 & H2 & H3)]; [|by auto]. split; [by left|]. split; [exact Hbg|]. exists cs. split; [|done]. exists (b :: l). split; [by econstructor|exact E0].
    + intros ([->|H1] & H2 & csh & H3 & ->); [left|right; by eauto]. f_equal. f_equal. apply (state_of_unique b); [exact H3|]. exists (b :: l). split; [by econstructor|exact E0].
  - rewrite Hlog. destruct (post_fork cd fp b) eqn:Hpf; [|by right]. pose proof (bl_height (fp := fp) _ _ (chain_cons _ _ _ _ Hp Hl)) as Hh. cbn [length] in Hh.
    destruct (append_parent p l csp (mkWindowEntry b p (cs_root cs) (blue_score cd b)) IH) as (log & -> & Hw & Hcount); [|done].
    destruct (chain_head _ _ _ Hl) as [? ->]. cbn [length] in *. lia.
Qed.
End states.

Arguments state_of_unique {_ _ _ _ _ _ _ _ _ _ _}.
Arguments state_of_genesis {_ _ _ _ _ _ _ _ _}.
Arguments state_of_step {_ _ _ _ _ _ _ _ _ _ _}.
Arguments state_of_parent {_ _ _ _ _ _ _ _ _ _ _}.
Arguments state_of_chain {_ _ _ _ _ _ _ _ _ _ _}.
Arguments state_of_ok {_ _ _ _ _ _ _ _ _ _ _ _ _}.
Arguments append_parent {_ _ _ _ _ _ _ _ _ _}.
Arguments chain_step_cases {_ _ _ _ _ _ _ _ _}.
Arguments co_reference {_ _ _ _ _ _ _ _ _ _}.
Arguments co_roots {_ _ _ _ _ _ _ _ _ _}.
Arguments co_log {_ _ _ _ _ _ _ _ _ _}.
Arguments co_carry {_ _ _ _ _ _ _ _ _ _}.
Arguments co_lost {_ _ _ _ _ _ _ _ _ _}.
Arguments co_pool {_ _ _ _ _ _ _ _ _ _}.
Arguments co_supply {_ _ _ _ _ _ _ _ _ _}.
Arguments cf_txs {_ _ _}.
Arguments cf_scan {_ _ _}.
Arguments cf_kept {_ _ _}.
Arguments scan_block_ok {_ _ _ _ _ _}.
Arguments archive_rebuilds {_ _ _ _ _ _}.
