(* ===== verification/ChainExample.v ===== *)
(** A small block tree: two blocks on the genesis, one of which merges a spend. *)
From stdpp Require Import base gmap list sorting.
From S2P Require Import Prelude Turnstile Nullifier Burn AnchorLog Tree Bundle ShieldedState StateRoot Tx Encoding TxHash Limbs MuHash.
From S2P Require Import TxValidator ShieldedStores ShieldedManager ShieldedSnapshots Coinbase CoinbaseNotes Mergeset ChainWalk ChainSpec.

#[export] Existing Instance example_tree.
#[export] Existing Instance example_tree_laws.

(** ** Parameters *)

Definition example_keyed (_ b : bytes) : bytes := take 32 (b ++ zeros 32).
Definition example_anchor_bytes (a : @Anchor example_tree) : bytes := to_le_bytes 32 a.
Definition example_element (d : bytes) : bytes := d.
Definition example_final (_ : bytes) : bytes := [0].
Definition chain_manager : CoinbaseManager :=
  mk_manager 150 204 0 50 (mk_forked 1 1 FORK_NEVER) FORK_NEVER 50 None 0 10 FORK_NEVER 10 FORK_NEVER
    (scaled 1 <$> SUBSIDY_BY_MONTH_TABLE) (scaled 1 <$> SUBSIDY_BY_MONTH_TABLE) FORK_NEVER.
Lemma chain_manager_wf : wf_manager chain_manager.
Proof. split; cbn; try done; try lia. Qed.
(** The anchor forks activate after the genesis. *)
Definition example_fp : ForkParams (O := example_tree) :=
  mk_fork_params 1 1 0 10 true 0 chain_manager (λ _ b, b) example_notes (λ _ b, b) (λ _ _, [1]).

(** ** Blocks *)

Definition example_payout : MinerData := mk_miner_data (mk_spk 0 (zeros 43)) [].
Definition genesis_payload : bytes :=
  match serialize_coinbase_payload chain_manager (mk_coinbase_data 0 60 (zeros 32) example_payout) with Ok p => p | _ => [] end.
Definition example_spend : Transaction := mk_tx TX_VERSION_SHIELDED [] [] 0 SUBNETWORK_ID_NATIVE 0 (to_bytes burnless_bundle) 0.
Definition example_merged (b : bytes) : list MergedBlock :=
  [mk_merged [0] 0 genesis_payload (if bool_decide (b = [1]) then [mk_validated example_spend 100] else [])].
Definition example_parent (b : bytes) : option bytes := if bool_decide (b = [1] ∨ b = [2]) then Some [0] else None.
Definition example_ghostdag (b : bytes) : GhostdagData := mk_ghostdag (from_be_bytes b) [[0]] [].
(** The coinbase that rewards the genesis with the given fees. *)
Definition example_coinbase_of (b root : bytes) (fees : Z) : Transaction :=
  match expected_coinbase_transaction chain_manager 1 example_payout (example_ghostdag b) {[ [0] := mk_reward 60 fees (mk_spk 0 (zeros 43)) ]} ∅ root 0 0 accrual_default with
  | Ok t => tpl_tx t
  | _ => mk_tx 0 [] [] 0 SUBNETWORK_ID_COINBASE 0 [] 0
  end.
Definition example_data_with (coinbase : bytes → Transaction) : ChainData := {|
  genesis := [0];
  selected_parent := example_parent;
  ghostdag := example_ghostdag;
  daa_score := λ b, if bool_decide (b = [0]) then 0 else 1;
  timestamp := λ _, 0;
  get_blue_score := λ b, Some (from_be_bytes b);
  merged := example_merged;
  mergeset_non_daa := λ _, ∅;
  coinbase_tx := coinbase;
  header_checks := λ _, true;
  context_checks := λ _, true;
|}.
Definition no_outputs : Transaction := mk_tx 0 [] [] 0 SUBNETWORK_ID_COINBASE 0 [] 0.
Definition genesis_root : bytes :=
  chain_root example_keyed example_anchor_bytes example_element example_stream example_final (example_data_with (λ _, no_outputs)) example_fp [0] genesis_state.
Definition example_cd : ChainData :=
  example_data_with (λ b, if bool_decide (b = [1]) then example_coinbase_of [1] genesis_root 100
                          else if bool_decide (b = [2]) then example_coinbase_of [2] genesis_root 0 else no_outputs).

(** ** The reachability service *)

Definition example_backward (b : bytes) : list bytes := match example_parent b with Some p => [b; p] | None => [b] end.
#[export] Instance example_reachability : Reachability := {|
  default_backward_chain_iterator := example_backward;
  forward_chain_iterator := λ a b, if bool_decide (a = b) then [a] else [a; b];
  is_chain_ancestor_of := λ a b, bool_decide (a ∈ example_backward b);
|}.
Lemma example_parents b p : selected_parent example_cd b = Some p → p = [0] ∧ (b = [1] ∨ b = [2]).
Proof. cbn. unfold example_parent. case_bool_decide as Hb; [|done]. intros [= <-]. by split. Qed.
Lemma example_chains b l : chain example_cd b l → l = example_backward b ∧ (b = [0] ∨ b = [1] ∨ b = [2]).
Proof.
  intros H. inversion H as [|? p l' Hp Hl]; subst; [by auto|]. apply example_parents in Hp as [-> Hb].
  inversion Hl as [E|? p' l'' Hp' Hl']; subst; [by destruct Hb as [->| ->]; auto|]. apply example_parents in Hp' as [_ [?|?]]; done.
Qed.
#[export] Instance example_reachability_laws : ReachabilityLaws example_cd example_reachability.
Proof.
  split; cbn.
  - done.
  - by intros b l [-> _]%example_chains.
  - by intros a b l [-> _]%example_chains.
  - intros a b above below [E Hb]%example_chains. destruct Hb as [->|[->| ->]]; cbn in E; destruct above as [|x [|y above]]; try discriminate E; injection E; intros; subst; done || by destruct above.
  - done.
Qed.

(** ** The laws of the blocks *)

Lemma example_payload_wf : wf_bytes (to_bytes burnless_bundle) ∧ Zlength (to_bytes burnless_bundle) < 2 ^ 63 ∧ decode (to_bytes burnless_bundle) false = Ok burnless_bundle.
Proof. split; [decide_by_eval|]. split; vm_compute; reflexivity. Qed.
Lemma example_spend_wf : wf_validated false (mk_validated example_spend 100).
Proof.
  destruct example_payload_wf as (H1 & H2 & H3). unfold example_spend. revert H1 H2 H3. generalize (to_bytes burnless_bundle). intros p H1 H2 H3.
  split; cbn [calculated_fee vtx payload]; [done|done|done|]. intros b _ E. unfold from_bytes_at in E. rewrite H3 in E. by injection E as <-.
Qed.
Lemma example_mergeset_wf b : wf_mergeset chain_manager 1 (example_merged b).
Proof.
  unfold example_merged. split; [apply NoDup_singleton| |case_bool_decide; vm_compute; congruence]. constructor; [|constructor]. split; cbn [mb_coinbase_payload mb_validated mb_daa_score].
  - decide_by_eval.
  - eexists. vm_compute. reflexivity.
  - case_bool_decide; [|constructor]. constructor; [apply example_spend_wf|constructor].
  - unfold claimed. cbn. case_bool_decide; vm_compute; reflexivity.
Qed.

Lemma example_coinbase_ok b fees : b = [1] ∧ fees = 100 ∨ b = [2] ∧ fees = 0 →
  let tx := example_coinbase_of b genesis_root fees in
  wf_bytes (payload tx) ∧ (∃ d, deserialize_coinbase_payload chain_manager (payload tx) = Ok d) ∧
  value <$> outputs tx = [60 + fees] ∧ Forall (λ o, is_u64 (value o)) (outputs tx).
Proof.
  intros [[-> ->]|[-> ->]] tx; (split; [decide_by_eval|]; split; [eexists; vm_compute; reflexivity|]; split; [vm_compute; reflexivity|decide_by_eval]).
Qed.
Lemma example_seeds seed : ∃ c, Z.of_nat c < 2 ^ 32 ∧ valid_counter (N := example_notes) (λ _ b, b) (λ _ _, [1]) seed c.
Proof. exists 0%nat. split; [done|]. eexists. split; [reflexivity|]. by eexists. Qed.
#[export] Instance example_block_laws : BlockLaws example_cd example_fp.
Proof.
  split.
  - split; [apply chain_manager_wf|cbn; lia].
  - done.
  - apply example_notes_laws.
  - intros b p _. apply example_mergeset_wf.
  - done.
  - intros b p [_ Hb]%example_parents. cbn [coinbase_tx example_cd example_data_with].
    destruct Hb as [->| ->]; [destruct (example_coinbase_ok [1] 100 ltac:(by left)) as (H1 & H2 & _)|destruct (example_coinbase_ok [2] 0 ltac:(by right)) as (H1 & H2 & _)]; exact (conj H1 H2).
  - intros b. cbn [coinbase_tx example_cd example_data_with].
    assert (∀ tx, (∃ v, value <$> outputs tx = [v]) → Zlength (outputs tx) <= 2 ^ 64) as Hl.
    { intros tx [v E]. unfold Zlength. rewrite <- (length_fmap value), E. cbn. lia. }
    case_bool_decide; [|case_bool_decide; [|by split; [constructor|vm_compute; congruence]]].
    + destruct (example_coinbase_ok [1] 100 ltac:(by left)) as (_ & _ & H1 & H2). split; [exact H2|apply Hl; by eexists].
    + destruct (example_coinbase_ok [2] 0 ltac:(by right)) as (_ & _ & H1 & H2). split; [exact H2|apply Hl; by eexists].
  - intros b p i _ _. apply example_seeds.
  - intros b p [-> [-> | ->]]%example_parents; vm_compute; (split; [split|]); congruence.
  - intros b l [-> Hb]%example_chains. destruct Hb as [->|[->| ->]]; vm_compute; reflexivity.
  - intros b l [-> Hb]%example_chains. destruct Hb as [->|[->| ->]]; done.
Qed.
#[export] Instance example_muhash_laws : MuHashLaws example_stream example_mod_inverse.
Proof. split; [apply example_stream_bytes|apply example_mod_inverse_some|apply example_mod_inverse_none]. Qed.

(** ** The states of its chains *)

Abbreviation example_state := (chain_state example_hash example_keyed example_anchor_bytes example_element example_stream example_final example_cd example_fp).
Abbreviation example_state_of := (state_of example_hash example_keyed example_anchor_bytes example_element example_stream example_final example_cd example_fp).

Lemma example_no_collision b cs : example_state_of b cs →
  acc_hash example_element example_stream example_final (cs_nfs cs) = EMPTY_MUHASH → U3072.cong 1 (product example_element example_stream (cs_nfs cs)).
Proof. unfold acc_hash. discriminate 2. Qed.
Lemma example_chain_one : chain example_cd [1] [[1]; [0]].
Proof. apply chain_cons with [0]; [done|apply (chain_genesis example_cd)]. Qed.
Lemma example_chain_two : chain example_cd [2] [[2]; [0]].
Proof. apply chain_cons with [0]; [done|apply (chain_genesis example_cd)]. Qed.
Lemma example_state_one : (cs_nfs <$> example_state [[1]; [0]]) = Some [zeros 32].
Proof. vm_compute. reflexivity. Qed.
Lemma example_state_two : is_Some (example_state [[2]; [0]]).
Proof. apply (bool_decide_unpack _). vm_compute. exact I. Qed.
Lemma example_valid_one : ∃ cs, example_state [[1]; [0]] = Some cs ∧ cs_nfs cs = [zeros 32] ∧ example_state_of [1] cs.
Proof.
  pose proof example_state_one as E. destruct (example_state [[1]; [0]]) as [cs|] eqn:Ec; [|done]. injection E as E. exists cs. split; [done|]. split; [done|].
  exists [[1]; [0]]. split; [apply example_chain_one|done].
Qed.
Lemma example_valid_two : ∃ cs, example_state [[2]; [0]] = Some cs ∧ example_state_of [2] cs.
Proof. destruct example_state_two as [cs E]. exists cs. split; [done|]. exists [[2]; [0]]. split; [apply example_chain_two|done]. Qed.
