(* ===== verification/ReorgSafety.v ===== *)
(** The walk of the virtual chain keeps the shielded state of the chain it stands on.

    The state after a block is given by its selected chain alone ([chain_state]).  The
    theorems show that whatever sequence of reorganizations a node has seen, its stores
    hold that state for every block it validated and its global nullifier set is that of
    the block it stands on, that a walk ends on the highest valid block of the target's
    chain, and that an interrupted walk to the same target recovers. *)
From stdpp Require Import base gmap list sorting.
From S2P Require Import Prelude Turnstile Nullifier Burn AnchorLog Tree Bundle ShieldedState StateRoot Tx Encoding TxHash Limbs MuHash.
From S2P Require Import TxValidator ShieldedStores ShieldedManager ShieldedSnapshots Coinbase CoinbaseNotes Mergeset ChainWalk ChainSpec ChainExample.

Section states.
Context (sha256 : bytes → bytes) (blake2b : bytes → bytes → bytes) {O : OrchardTree} {OL : OrchardTreeLaws O} (anchor_to_bytes : Anchor → bytes).
Context (MuHashElementHash : bytes → bytes) (chacha20 : bytes → nat → bytes) (MuHashFinalizeHash : bytes → bytes).
Context (cd : ChainData) (fp : ForkParams) {R : Reachability} {RL : ReachabilityLaws cd R} {BL : BlockLaws cd fp}.

Abbreviation chain_step := (ChainSpec.chain_step sha256 blake2b anchor_to_bytes MuHashElementHash chacha20 MuHashFinalizeHash cd fp).
Abbreviation chain_state := (ChainSpec.chain_state sha256 blake2b anchor_to_bytes MuHashElementHash chacha20 MuHashFinalizeHash cd fp).
Abbreviation state_of := (ChainSpec.state_of sha256 blake2b anchor_to_bytes MuHashElementHash chacha20 MuHashFinalizeHash cd fp).
Abbreviation chain_ctx := (ChainSpec.chain_ctx anchor_to_bytes cd fp).
Abbreviation chain_coinbase := (ChainSpec.chain_coinbase blake2b anchor_to_bytes MuHashElementHash chacha20 MuHashFinalizeHash cd fp).
Abbreviation cs_root := (ChainSpec.cs_root anchor_to_bytes).
Abbreviation chain_scan := (ChainSpec.chain_scan anchor_to_bytes cd fp).

(** ** What the stores hold *)

(** The rows of a valid block describe the state of its chain. *)
Record block_rows (db : Db) (b : bytes) (cs : ChainState) : Prop := {
  br_snapshot : snapshot MuHashElementHash chacha20 db b (cs_state cs) (cs_nfs cs);
  br_dev : DevAccruedStore.get db b = cs_dev cs;
  br_slot : MinerAccrualStore.get db b = cs_slot cs;
  br_window : window_at db b = cs_log cs;
  br_entry : root <$> AnchorWindow.entry db b = (λ _, cs_root cs) <$> cs_log cs;
  br_diff : match selected_parent cd b with
            | Some p => ∃ csp, state_of p csp ∧ cs_nfs cs = cs_nfs csp ++ NullifierDiffs.get db b
            | None => NullifierDiffs.get db b = []
            end;
  br_scan : match selected_parent cd b with
            | Some p => ∃ csp, state_of p csp ∧ ScanStore.get db b = chain_scan csp b
            | None => ScanStore.get db b = None
            end;
}.

(** The rows of every block, the anchor index and the statuses are right. *)
Record stores_ok (n : Node) : Prop := {
  so_genesis : genesis cd ∈ n_valid n;
  so_rows b : b ∈ n_valid n → ∃ cs, state_of b cs ∧ block_rows (n_db n) b cs;
  so_parent b p : b ∈ n_valid n → selected_parent cd b = Some p → p ∈ n_valid n;
  so_absent b : b ∉ n_valid n → rows_absent (n_db n) b;
  so_producers a h : h ∈ AnchorProducers.get_producers (n_db n) a ↔
    h ∈ n_valid n ∧ h ≠ genesis cd ∧ ∃ cs, state_of h cs ∧ 0 < fs_size (to_state (st_tree (cs_state cs))) ∧ cs_root cs = a;
  so_latest p l cs a : chain cd p l → chain_state l = Some cs → p ∈ n_valid n → (∀ x, x ∈ n_valid n → x ∈ l) → a ≠ empty_shielded_anchor anchor_to_bytes →
    AnchorBlocks.get (n_db n) a = latest_root (cs_roots cs) a;
  so_scores s : SourceScores.get (n_db n) s = None;
  so_disqualified b : b ∈ n_disqualified n → ∀ cs, ¬ state_of b cs;
}.
(** The global nullifier set is that of the chain of [d]. *)
Definition set_ok (n : Node) (d : bytes) : Prop :=
  d ∈ n_valid n ∧ ∀ cs, state_of d cs → nullifier_set (n_db n) = list_to_set (cs_nfs cs).
Definition node_ok (n : Node) (d : bytes) : Prop := stores_ok n ∧ set_ok n d.

(** Walking [l] validates no block from before the anchor forks beside a branch the node has validated: while such a block
    is still to be validated, all the node has validated is on [l]. *)
Definition one_past (n : Node) (l : list bytes) : Prop :=
  ∀ b, b ∈ l → early cd fp b = true → b ∉ n_valid n → ∀ x, x ∈ n_valid n → x ∈ l.
Lemma one_past_step n n' l b : b ∈ l → n_valid n ⊆ n_valid n' → n_valid n' ⊆ {[b]} ∪ n_valid n → one_past n l → one_past n' l.
Proof.
  intros Hb H1 H2 Hn y Hy He Hv x Hx. apply H2 in Hx. apply elem_of_union in Hx as [->%elem_of_singleton|Hx]; [done|]. apply (Hn y Hy He); [|done]. set_solver.
Qed.
Lemma one_past_same n n' l : n_valid n' = n_valid n → one_past n l → one_past n' l.
Proof. unfold one_past. by intros ->. Qed.

Lemma valid_chain n b l x : stores_ok n → b ∈ n_valid n → chain cd b l → x ∈ l → x ∈ n_valid n.
Proof.
  intros Hn Hb Hl. induction Hl as [|b p l Hp Hl IH]; intros Hx; [by apply list_elem_of_singleton in Hx as ->|].
  apply elem_of_cons in Hx as [->|Hx]; [done|]. apply IH; [|done]. by apply (so_parent _ Hn b).
Qed.

(** ** Anchors *)

Lemma judge_spec db h p l b :
  chain cd p l → (∀ s, SourceScores.get db s = None) →
  judge_anchor_source cd fp db h p (blue_score cd b) = bool_decide (h ∈ l) && age_ok cd fp b h.
Proof.
  intros Hl Hs. unfold judge_anchor_source, age_ok. rewrite Hs. destruct (bool_decide_reflect (h ∈ l)) as [Hin|Hout]; cbn [andb].
  - apply list_elem_of_split in Hin as (l1 & l2 & ->). rewrite (rl_blue cd h _ (chain_suffix _ _ _ _ _ Hl)).
    rewrite (rl_ancestor cd h p _ Hl), (bool_decide_eq_true_2 (h ∈ _)) by set_solver. by rewrite orb_true_r.
  - destruct (get_blue_score cd h); [|done]. rewrite (rl_ancestor cd h p _ Hl), (bool_decide_eq_false_2 (h ∈ _)) by done.
    rewrite bool_decide_eq_false_2; [done|]. intros ->. destruct (chain_head _ _ _ Hl) as [? ->]. set_solver.
Qed.

(** An entry is present exactly for the blocks past the fork, with their root. *)
Lemma entry_spec n h csh e : stores_ok n → h ∈ n_valid n → state_of h csh →
  (∃ e', AnchorWindow.entry (n_db n) h = Some e' ∧ root e' = e) ↔ h ≠ genesis cd ∧ post_fork cd fp h = true ∧ cs_root csh = e.
Proof.
  intros Hn Hv Hs. destruct (so_rows _ Hn h Hv) as (cs & Hs' & Hr). rewrite (state_of_unique _ _ _ Hs' Hs) in *. pose proof (br_entry _ _ _ Hr) as He.
  destruct Hs as (l & Hl & E). pose proof (co_log _ _ _ (state_of_ok _ _ _ Hl E)) as Hlog. destruct (cs_log csh) as [lg|]; cbn in He.
  - apply fmap_Some in He as (e' & -> & ->). split; [intros (? & [= <-] & <-); by destruct Hlog as (? & ? & _)|]. intros (_ & _ & <-). by exists e'.
  - apply fmap_None in He as ->. split; [by intros (? & ? & _)|]. intros (? & ? & _). destruct Hlog; congruence.
Qed.
Lemma producers_spec n h csh a : stores_ok n → h ∈ n_valid n → h ≠ genesis cd → state_of h csh → a ≠ empty_shielded_anchor anchor_to_bytes →
  h ∈ AnchorProducers.get_producers (n_db n) a ↔ cs_root csh = a.
Proof.
  intros Hn Hv Hg Hs Ha. rewrite (so_producers _ Hn). split.
  - intros (_ & _ & cs & Hs' & _ & <-). f_equal. exact (state_of_unique h _ _ Hs Hs').
  - intros <-. split; [done|]. split; [done|]. exists csh. split; [done|]. split; [|done]. destruct Hs as (l & Hl & E).
    pose proof (ref_tree _ _ (co_reference _ _ _ (state_of_ok _ _ _ Hl E))) as Ht.
    destruct (Z.ltb_spec 0 (fs_size (to_state (st_tree (cs_state csh))))) as [|Hz]; [done|]. apply (empty_tree _ Ht) in Hz.
    destruct Ha. unfold ChainSpec.cs_root. by rewrite Hz.
Qed.

(** The verdict of the finality rule is a function of the chain. *)
Lemma resolve_spec n p l csp b tx :
  stores_ok n → p ∈ n_valid n → chain cd p l → chain_state l = Some csp → (early cd fp b = true → ∀ x, x ∈ n_valid n → x ∈ l) →
  resolve_shielded_anchor anchor_to_bytes cd fp (n_db n) (tx_anchor tx) (tx_anchor_block tx) p (blue_score cd b) (daa_score cd b) =
  anchor_final anchor_to_bytes cd fp (cs_roots csp) b tx.
Proof.
  intros Hn Hp Hl Hs Hpast. unfold early in Hpast. unfold resolve_shielded_anchor, anchor_final. case_bool_decide as Hempty; [done|]. cbn [orb].
  change (is_active (security_fork_activation fp) (daa_score cd b)) with (post_fork cd fp b).
  pose proof (co_roots _ _ _ (state_of_ok _ _ _ Hl Hs)) as Hroots. pose proof (λ h, judge_spec (n_db n) h p l b Hl (so_scores _ Hn)) as Hj.
  pose proof (λ x, valid_chain n p l x Hn Hp Hl) as Hval. destruct (post_fork cd fp b) eqn:Hpf.
  - destruct (tx_anchor_block tx) as [named|]; [|done]. apply eq_true_iff_eq. rewrite existsb_exists. split.
    + destruct (AnchorWindow.entry (n_db n) named) as [e|] eqn:Ee; [|done]. case_bool_decide as Hr; [|done]. rewrite Hj.
      intros [Hin%bool_decide_eq_true Hage]%andb_true_iff. destruct (so_rows _ Hn named (Hval _ Hin)) as (csh & Hsh & _).
      destruct (proj1 (entry_spec n named csh (root e) Hn (Hval _ Hin) Hsh)) as (Hg & Hpost & Hrt); [by exists e|].
      exists (named, tx_anchor tx). rewrite <- list_elem_of_In, Hroots, bool_decide_eq_true_2, Hpost, Hage by done.
      split; [|done]. split; [done|]. split; [done|]. exists csh. by rewrite Hrt.
    + intros ([h r] & Hin & Hb). apply andb_true_iff in Hb as [Hb Hage]. apply andb_true_iff in Hb as [Hb Hpost]. apply bool_decide_eq_true in Hb as [-> ->]. apply list_elem_of_In, Hroots in Hin as (Hin & Hg & csh & Hsh & Hrt).
      destruct (proj2 (entry_spec n named csh (tx_anchor tx) Hn (Hval _ Hin) Hsh)) as (e & -> & He); [done|].
      rewrite bool_decide_eq_true_2 by done. by rewrite Hj, bool_decide_eq_true_2, Hage.
  - destruct (tx_anchor_block tx); [done|]. rewrite bool_decide_eq_false_2, bool_decide_eq_true_2 by (done || by intros [? ?]). cbn [andb].
    destruct (is_active (shielded_anchor_multi_activation fp) (daa_score cd b)) eqn:Hm; cycle 1.
    { rewrite (so_latest _ Hn p l csp _ Hl Hs Hp (Hpast eq_refl) Hempty). destruct (latest_root (cs_roots csp) (tx_anchor tx)) as [h|] eqn:Eh; [|done].
      apply fmap_Some in Eh as ([h' r] & Eh & ->). apply find_some in Eh as [Hin%list_elem_of_In%Hroots _]. destruct Hin as (Hin & _). by rewrite Hj, bool_decide_eq_true_2. }
    apply eq_true_iff_eq. rewrite !existsb_exists. split.
    + intros (h & Hin%list_elem_of_In & Hjd). rewrite Hj in Hjd. apply andb_true_iff in Hjd as [Hh%bool_decide_eq_true Hage].
      pose proof (so_producers _ Hn (tx_anchor tx) h) as Hpr. apply Hpr in Hin as (_ & Hg & csh & Hsh & _ & Hrt).
      exists (h, tx_anchor tx). rewrite <- list_elem_of_In, Hroots, bool_decide_eq_true_2, Hage by done. by eauto 10.
    + intros ([h r] & Hin & [->%bool_decide_eq_true Hage]%andb_true_iff). apply list_elem_of_In, Hroots in Hin as (Hin & Hg & csh & Hsh & Hrt).
      exists h. rewrite <- list_elem_of_In, (producers_spec n h csh) by auto. split; [done|]. by rewrite Hj, bool_decide_eq_true_2, Hage.
Qed.

(** ** Verification *)

Context (natural_mod_inverse : Z → Z → option Z) (debug_assertions : bool) {ML : MuHashLaws chacha20 natural_mod_inverse}.
Abbreviation verify := (verify_expected_utxo_state sha256 blake2b anchor_to_bytes MuHashElementHash chacha20 MuHashFinalizeHash natural_mod_inverse debug_assertions cd fp).
Abbreviation commit := (commit_utxo_state blake2b anchor_to_bytes MuHashFinalizeHash natural_mod_inverse debug_assertions cd fp).
Abbreviation chain_root := (ChainSpec.chain_root blake2b anchor_to_bytes MuHashElementHash chacha20 MuHashFinalizeHash cd fp).

Lemma state_root_spec db p l csp : chain cd p l → chain_state l = Some csp → block_rows db p csp →
  shielded_state_root_at sha256 blake2b anchor_to_bytes MuHashFinalizeHash natural_mod_inverse debug_assertions cd fp db p = Ok (chain_root p csp).
Proof.
  intros Hl Hs Hr. pose proof (br_snapshot _ _ _ Hr) as Hsnap.
  assert (∀ E, state_root_at sha256 blake2b anchor_to_bytes MuHashFinalizeHash natural_mod_inverse debug_assertions (E := E) db p =
    Ok (shielded_state_root blake2b (mkRootInputs (cs_root csp) (acc_hash MuHashElementHash chacha20 MuHashFinalizeHash (cs_nfs csp))
      (cumulative_coinbase (st_supply (cs_state csp))) (cumulative_fees (st_supply (cs_state csp))) EMPTY_LEAF))) as H0.
  { intros E. unfold state_root_at, load_tree, root_of. rewrite (snap_tree _ _ _ _ _ _ Hsnap). cbn [mbind res_bind].
    rewrite (acc_root_ok MuHashElementHash chacha20 MuHashFinalizeHash natural_mod_inverse debug_assertions _ _ (snap_muhash _ _ _ _ _ _ Hsnap)).
    cbn [mbind res_bind]. rewrite (snap_supply _ _ _ _ _ _ Hsnap), (snap_burns _ _ _ _ _ _ Hsnap). done. }
  unfold shielded_state_root_at, ChainSpec.chain_root. change (is_post_security_fork cd fp p) with (post_fork cd fp p).
  destruct (post_fork cd fp p) eqn:Hpf; [|apply H0]. unfold state_root_v1_at. rewrite H0. cbn [mbind res_bind].
  rewrite (br_window _ _ _ Hr), (br_dev _ _ _ Hr), (br_slot _ _ _ Hr). pose proof (co_log _ _ _ (state_of_ok _ _ _ Hl Hs)) as Hlog.
  destruct (cs_log csp); [done|]. destruct Hlog as [->|]; [|congruence]. by rewrite bool_decide_eq_true_2.
Qed.

(** The mergeset context is the one the chain determines. *)
Abbreviation mergeset_ctx := (calculate_utxo_state anchor_to_bytes cd fp).
Lemma context_spec n p l csp b : stores_ok n → set_ok n p → chain cd p l → chain_state l = Some csp → (early cd fp b = true → ∀ x, x ∈ n_valid n → x ∈ l) →
  mergeset_ctx (n_db n) p b = chain_ctx csp b.
Proof.
  intros Hn [Hp Hset] Hl Hs Hpast. unfold calculate_utxo_state, ChainSpec.chain_ctx. destruct (collect_mergeset _ _ _ _) as [ctx| |]; [|done..]. cbn [mbind res_bind].
  rewrite (partition_applied_mask _ _ _ (cs_nfs csp)) by by apply Hset; exists l. f_equal. apply spend_mask_ext. intros tx. by apply (resolve_spec n p l).
Qed.

Lemma coinbase_total b p : selected_parent cd b = Some p → ∃ r, coinbase_mint cd fp b = r ∧ r ≠ Panic.
Proof.
  intros Hp. eexists. split; [done|]. unfold coinbase_mint. rewrite (bl_shielded (cd := cd) (fp := fp)). pose proof (bl_notes (cd := cd) (fp := fp)) as NL.
  pose proof (mint_returns (NL := NL) (note_hash_64 fp) (note_hash_32 fp) (tx_id (tx_hasher fp)) (coinbase_tx cd b) _ (λ i Hi, bl_seeds (fp := fp) b p i Hp Hi)) as H.
  cbv zeta. by destruct (build_coinbase_mint _ _ _ _ _).
Qed.

(** A block is verified exactly when its chain has a state, with that state. *)
Lemma verify_spec n p l csp b ctx : selected_parent cd b = Some p → stores_ok n → set_ok n p → chain cd p l → chain_state l = Some csp →
  chain_ctx csp b = Ok ctx →
  match chain_step p csp b with
  | Some cs' => ∃ c o, verify (n_db n) p b ctx = Ok (c, cs_dev cs', cs_slot cs') ∧ computed_ok MuHashElementHash chacha20 c (cs_state cs') (cs_nfs cs') o ∧
      cs_nfs cs' = cs_nfs csp ++ out_new_nullifiers o ∧ computed_anchor anchor_to_bytes c = cs_root cs' ∧ scan_block c = chain_scan csp b
  | None => ∃ e, verify (n_db n) p b ctx = Err e
  end.
Proof.
  intros Hp Hn Hset Hl Hs Ectx. destruct (so_rows _ Hn p (proj1 Hset)) as (cs & Hst & Hr). rewrite (state_of_unique _ _ _ Hst (ex_intro _ l (conj Hl Hs))) in Hr. clear cs Hst.
  pose proof (state_of_ok _ _ _ Hl Hs) as Hok. pose proof (co_reference _ _ _ Hok) as Href. pose proof (br_snapshot _ _ _ Hr) as Hsnap.
  assert (ctx_facts cd fp csp b ctx) as Hf by (destruct (chain_ctx_ok anchor_to_bytes cd fp csp b p Hp) as (ctx' & E & Hf); rewrite Ectx in E; by injection E as <-).
  unfold verify_expected_utxo_state, ChainSpec.chain_step. rewrite Ectx.
  destruct (header_checks cd b); cbn [negb andb]; [|by eexists]. rewrite (state_root_spec _ _ _ _ Hl Hs Hr). cbn [mbind res_bind].
  rewrite (br_dev _ _ _ Hr), (br_slot _ _ _ Hr), (snap_supply _ _ _ _ _ _ Hsnap). fold (chain_coinbase p csp b ctx).
  destruct (chain_coinbase_ok sha256 blake2b anchor_to_bytes MuHashElementHash chacha20 MuHashFinalizeHash cd fp p l csp b ctx Hp Hl Hok Hf) as (d & tpl & _ & _ & Ec & _).
  destruct (chain_coinbase p csp b ctx) as [[dev slot]|e|] eqn:Hc; [|destruct (context_checks cd b); by eexists|case_bool_decide; done]. cbn [mbind res_bind map_err].
  destruct (context_checks cd b); cbn [negb]; [|by eexists].
  destruct (coinbase_total b p Hp) as (r & Hm & Hnp). rewrite Hm. destruct r as [mint|e|]; [|by eexists|done]. cbn [mbind res_bind map_err].
  destruct (chain_block_wf cd fp csp b ctx mint Hf Hm) as [Hwf Hnb].
  pose proof (compute_ok sha256 MuHashElementHash chacha20 natural_mod_inverse (n_db n) p _ _ mint _ Href Hsnap (proj2 Hset csp (ex_intro _ l (conj Hl Hs))) Hwf Hnb) as Hcomp.
  destruct (apply_chain_block sha256 (cs_state csp) mint (shielded_txs ctx)) as [[st o]|e|] eqn:Ha; [|rewrite Hcomp; by eexists|done].
  destruct Hcomp as (c & -> & Hcomp & _). cbn [mbind res_bind]. rewrite (comp_supply _ _ _ _ _ _ Hcomp), (comp_outcome _ _ _ _ _ _ Hcomp).
  rewrite (scan_block_ok csp b ctx mint st o Href Hf Hm Ha). cbn [mbind res_bind].
  destruct (chain_pool_value sha256 blake2b anchor_to_bytes MuHashElementHash chacha20 MuHashFinalizeHash cd fp p l csp b ctx mint st o dev slot Hp Hl Hok Hf Hc Hm Ha) as (_ & _ & Ep).
  unfold chain_pool_ok. rewrite (bl_shielded (cd := cd) (fp := fp)), Ep. cbn [mbind res_bind]. case_bool_decide; [|by eexists].
  eexists _, o. split; [done|]. split; [by destruct Hcomp; split|]. split; [done|]. split; [|unfold ChainSpec.chain_scan; by rewrite Ectx, Hm].
  destruct (apply_chain_block_effect sha256 _ (mint, _) st o (ref_tree _ _ Href) (ref_supply _ _ Href) Hwf Ha) as (_ & He & _).
  unfold computed_anchor, ChainSpec.cs_root. cbn. by rewrite (eff_anchor _ _ _ _ _ _ _ _ _ _ _ He).
Qed.

(** ** Commit *)

Lemma block_rows_same db db' b cs : same_rows db db' b → block_rows db b cs → block_rows db' b cs.
Proof.
  intros H [H1 H2 H3 H4 H5 H6 H7].
  pose proof (H ShieldedDevAccrued ltac:(in_tables)) as E1. pose proof (H ShieldedMinerAccrual ltac:(in_tables)) as E2.
  pose proof (H ShieldedAnchorWindow ltac:(in_tables)) as E3. pose proof (H ShieldedWindowEntry ltac:(in_tables)) as E4.
  pose proof (H ShieldedNullifierDiffs ltac:(in_tables)) as E5. pose proof (H ShieldedScanBlock ltac:(in_tables)) as E6.
  split; [by eapply snapshot_same|rewrite <- H2|rewrite <- H3|rewrite <- H4|rewrite <- H5| |]; [symmetry..| |].
  - exact (f_equal (default 0) E1).
  - exact (f_equal (default accrual_default) E2).
  - exact E3.
  - exact (f_equal (λ o : option (WindowEntry * AnchorLog), root <$> (fst <$> o)) E4).
  - assert (NullifierDiffs.get db' b = NullifierDiffs.get db b) as -> by (symmetry; exact (f_equal (default []) E5)). exact H6.
  - assert (ScanStore.get db' b = ScanStore.get db b) as -> by (symmetry; exact E6). exact H7.
Qed.

(** What [commit_utxo_state] stages after [persist]. *)
Definition window_ops (pl : AnchorLog) (p b : bytes) (cs : ChainState) : WriteBatch :=
  match cs_log cs with
  | Some log => [Put ShieldedWindowEntry b (mkWindowEntry b p (cs_root cs) (blue_score cd b), pl); Put ShieldedAnchorWindow b log]
  | None => []
  end ++
  (if 0 <? cs_dev cs then [Put ShieldedDevAccrued b (cs_dev cs)] else []) ++
  (if accrual_is_empty (cs_slot cs) then [] else [Put ShieldedMinerAccrual b (cs_slot cs)]).

Lemma window_ops_untouched db pl p b cs t k : t ∉ [ShieldedWindowEntry; ShieldedAnchorWindow; ShieldedDevAccrued; ShieldedMinerAccrual] ∨ k ≠ b →
  write db (window_ops pl p b cs) t !! k = db t !! k.
Proof.
  intros Ht. unfold window_ops. apply write_other.
  destruct Ht as [Ht|Ht]; [repeat (apply not_elem_of_cons in Ht as [? Ht])|]; untouched.
Qed.

Lemma commit_batch_shape n p l csp b cs' c o :
  stores_ok n → p ∈ n_valid n → selected_parent cd b = Some p → chain cd p l → chain_state l = Some csp → chain_step p csp b = Some cs' →
  computed_ok MuHashElementHash chacha20 c (cs_state cs') (cs_nfs cs') o → computed_anchor anchor_to_bytes c = cs_root cs' →
  commit_batch blake2b anchor_to_bytes MuHashFinalizeHash natural_mod_inverse debug_assertions cd fp (n_db n) p b c (cs_dev cs') (cs_slot cs') =
  Ok (persisted_ops anchor_to_bytes MuHashElementHash chacha20 MuHashFinalizeHash (n_db n) b c (cs_nfs cs') ++
      window_ops (default Log.default_log (cs_log csp)) p b cs').
Proof.
  intros Hn Hp Hsp Hl Hs Hstep Hc Ha. unfold commit_batch.
  rewrite (persist_shape anchor_to_bytes MuHashElementHash chacha20 MuHashFinalizeHash natural_mod_inverse debug_assertions _ [] _ _ _ _ _ Hc).
  cbn [mbind res_bind app]. set (P := persisted_ops _ _ _ _ _ _ _ _). destruct (so_rows _ Hn p Hp) as (cs & Hs' & Hr).
  pose proof (state_of_chain _ _ _ Hs' Hl) as E. rewrite Hs in E. injection E as <-.
  pose proof (state_of_ok _ _ _ Hl Hs) as Hco. pose proof (co_log _ _ _ Hco) as Hlog.
  destruct (chain_step_cases _ _ _ _ Hstep) as (ctx & mint & o' & _ & _ & _ & _ & _ & _ & _ & Hl').
  change (is_active (security_fork_activation fp) (daa_score cd b)) with (post_fork cd fp b). rewrite (br_window _ _ _ Hr), Ha.
  change (is_post_security_fork cd fp p) with (post_fork cd fp p). unfold window_ops, set_miner_accrual, MinerAccrualStore.set_batch, DevAccruedStore.set_batch.
  destruct (post_fork cd fp b).
  - assert (match cs_log csp with Some log => Ok log | None => if bool_decide (p = genesis cd) || negb (post_fork cd fp p) then Ok Log.default_log else Panic end
      = Ok (E := Empty_set) (default Log.default_log (cs_log csp))) as ->.
    { destruct (cs_log csp); [done|]. destruct Hlog as [Hg|Hg]; [by rewrite bool_decide_eq_true_2|]. rewrite Hg. by rewrite orb_true_r. }
    cbn [mbind res_bind]. destruct (append_parent p l csp (mkWindowEntry b p (cs_root cs') (blue_score cd b)) Hco) as (log & Elog & _).
    { pose proof (bl_height (fp := fp) _ _ (chain_cons _ _ _ _ Hsp Hl)). destruct (chain_head _ _ _ Hl) as [? ->]. cbn [length] in *. lia. }
    rewrite Elog in *. cbn [mbind res_bind]. rewrite Hl'. unfold persist_window, AnchorWindow.set_window_batch, AnchorWindow.set_entry_batch.
    destruct (0 <? cs_dev cs'), (accrual_is_empty (cs_slot cs')); rewrite <- ?app_assoc; done.
  - rewrite Hl'. cbn [mbind res_bind]. destruct (0 <? cs_dev cs'), (accrual_is_empty (cs_slot cs')); rewrite <- ?app_assoc, ?app_nil_r; done.
Qed.

Hypothesis no_empty_collision : ∀ b cs, state_of b cs →
  acc_hash MuHashElementHash chacha20 MuHashFinalizeHash (cs_nfs cs) = EMPTY_MUHASH → U3072.cong 1 (product MuHashElementHash chacha20 (cs_nfs cs)).
Abbreviation persisted := (persisted_ops anchor_to_bytes MuHashElementHash chacha20 MuHashFinalizeHash).

Lemma window_rows db p b cs pl :
  (∀ t, t ∈ [ShieldedWindowEntry; ShieldedAnchorWindow; ShieldedDevAccrued; ShieldedMinerAccrual] → db t !! b = None) → 0 <= cs_dev cs → (accrual_is_empty (cs_slot cs) = true → cs_slot cs = accrual_default) →
  let db' := write db (window_ops pl p b cs) in
  DevAccruedStore.get db' b = cs_dev cs ∧ MinerAccrualStore.get db' b = cs_slot cs ∧ window_at db' b = cs_log cs ∧
  root <$> AnchorWindow.entry db' b = (λ _, cs_root cs) <$> cs_log cs.
Proof.
  intros Habs Hd Hs db'.
  assert (db' ShieldedDevAccrued !! b = (if 0 <? cs_dev cs then Some (cs_dev cs : row ShieldedDevAccrued) else None) ∧
    db' ShieldedMinerAccrual !! b = (if accrual_is_empty (cs_slot cs) then None else Some (cs_slot cs : row ShieldedMinerAccrual)) ∧
    db' ShieldedAnchorWindow !! b = (cs_log cs : option (row ShieldedAnchorWindow)) ∧
    db' ShieldedWindowEntry !! b = (λ _, (mkWindowEntry b p (cs_root cs) (blue_score cd b), pl) : row ShieldedWindowEntry) <$> cs_log cs) as (E1 & E2 & E3 & E4).
  { unfold db', window_ops. repeat split.
    - destruct (0 <? cs_dev cs); [cbn [app]; apply write_put_mid; untouched|apply write_absent; [untouched|apply Habs; in_tables]].
    - destruct (accrual_is_empty _); [apply write_absent; [untouched|apply Habs; in_tables]|rewrite app_assoc; apply write_put_mid; untouched].
    - destruct (cs_log cs) as [lg|]; [apply (write_put_mid db [_]); untouched|apply write_absent; [untouched|apply Habs; in_tables]].
    - destruct (cs_log cs) as [lg|]; [apply (write_put_mid db []); untouched|apply write_absent; [untouched|apply Habs; in_tables]]. }
  unfold DevAccruedStore.get, MinerAccrualStore.get, window_at, AnchorWindow.window, AnchorWindow.entry, AnchorWindow.entry_with_log.
  split; [|split; [|split; [exact E3|]]].
  - etrans; [exact (f_equal (default 0) E1)|]. destruct (Z.ltb_spec 0 (cs_dev cs)); cbn; [done|lia].
  - etrans; [exact (f_equal (default accrual_default) E2)|]. destruct (accrual_is_empty (cs_slot cs)); cbn; [by rewrite Hs|done].
  - etrans; [exact (f_equal (λ o : option (WindowEntry * AnchorLog), root <$> (fst <$> o)) E4)|]. by destruct (cs_log cs).
Qed.

Lemma committed_rows n p l csp b cs' c o pl :
  stores_ok n → b ∉ n_valid n → selected_parent cd b = Some p → chain cd p l → chain_state l = Some csp → chain_step p csp b = Some cs' →
  computed_ok MuHashElementHash chacha20 c (cs_state cs') (cs_nfs cs') o → cs_nfs cs' = cs_nfs csp ++ out_new_nullifiers o → scan_block c = chain_scan csp b →
  block_rows (write (n_db n) (persisted (n_db n) b c (cs_nfs cs') ++ window_ops pl p b cs')) b cs'.
Proof.
  intros Hn Hb Hsp Hl Hs Hstep Hc Hnf Hscan. rewrite write_app. set (db1 := write (n_db n) (persisted (n_db n) b c (cs_nfs cs'))).
  assert (state_of b cs') as Hst by (apply (state_of_step b p csp Hsp); [by exists l|done]). pose proof Hst as (lb & Hlb & Eb).
  pose proof (state_of_ok _ _ _ Hlb Eb) as Hco. pose proof (so_absent _ Hn b Hb) as Habs.
  assert (∀ t, t ∉ [ShieldedWindowEntry; ShieldedAnchorWindow; ShieldedDevAccrued; ShieldedMinerAccrual] → db1 t !! b = write db1 (window_ops pl p b cs') t !! b) as Hsame.
  { intros t Ht. symmetry. apply window_ops_untouched. by left. }
  destruct (window_rows db1 p b cs' pl) as (H2 & H3 & H4 & H5); [|apply (ca_dev _ _ _ _ _ (co_carry _ _ _ Hco))|intros He%Z.eqb_eq; by apply (ca_slot _ _ _ _ _ (co_carry _ _ _ Hco))|].
  { intros t Ht. unfold db1. repeat (apply elem_of_cons in Ht as [->|Ht]; [rewrite persisted_untouched by in_tables; apply Habs; in_tables|]). by apply elem_of_nil in Ht. }
  split; [|done..| |].
  - apply (snapshot_agree _ _ db1).
    + intros t Ht. apply Hsame. repeat (apply elem_of_cons in Ht as [->|Ht]; [in_tables|]). by apply elem_of_nil in Ht.
    + apply (persisted_snapshot _ _ _ _ _ _ _ _ _ _ Hc Habs); [apply Hco|apply Hco|exact (no_empty_collision b cs' Hst)].
  - rewrite Hsp. exists csp. split; [by exists l|]. rewrite Hnf. f_equal. symmetry.
    etrans; [|exact (persisted_diff anchor_to_bytes _ _ MuHashFinalizeHash _ _ _ _ _ _ Hc Habs)]. fold db1.
    exact (f_equal (default []) (eq_sym (Hsame ShieldedNullifierDiffs ltac:(in_tables)))).
  - rewrite Hsp. exists csp. split; [by exists l|]. rewrite <- Hscan, <- (persisted_scan anchor_to_bytes MuHashElementHash chacha20 MuHashFinalizeHash (n_db n) b c (cs_nfs cs') Habs).
    fold db1. symmetry. exact (Hsame ShieldedScanBlock ltac:(in_tables)).
Qed.

Lemma committed_producers n p b cs' c o pl a h :
  stores_ok n → b ∉ n_valid n → b ≠ genesis cd → state_of b cs' →
  computed_ok MuHashElementHash chacha20 c (cs_state cs') (cs_nfs cs') o → computed_anchor anchor_to_bytes c = cs_root cs' →
  h ∈ AnchorProducers.get_producers (write (n_db n) (persisted (n_db n) b c (cs_nfs cs') ++ window_ops pl p b cs')) a ↔
  h ∈ {[b]} ∪ n_valid n ∧ h ≠ genesis cd ∧ ∃ cs, state_of h cs ∧ 0 < fs_size (to_state (st_tree (cs_state cs))) ∧ cs_root cs = a.
Proof.
  intros Hn Hb Hbg Hst Hc Ha. rewrite write_app.
  assert (∀ db, AnchorProducers.get_producers (write db (window_ops pl p b cs')) a = AnchorProducers.get_producers db a) as ->.
  { intros db. exact (f_equal (default []) (window_ops_untouched _ pl p b cs' ShieldedAnchorProducers a ltac:(left; in_tables))). }
  rewrite persisted_producers, elem_of_app, (so_producers _ Hn), (comp_tree _ _ _ _ _ _ Hc), Ha.
  assert (b ∉ AnchorProducers.get_producers (n_db n) a) as Hnb by (rewrite (so_producers _ Hn); naive_solver).
  case_bool_decide as Hd.
  - rewrite list_elem_of_singleton. destruct Hd as (-> & Hsz & _). split; [intros [(? & ? & ?)| ->]; [set_solver|]|].
    { split; [set_solver|]. split; [done|]. by exists cs'. }
    intros (Hh & ? & cs & Hcs & ? & ?). apply elem_of_union in Hh as [Hh%elem_of_singleton|Hh]; [by right|]. left. eauto 10.
  - rewrite elem_of_nil. split; [intros [(? & ? & ?)|[]]; set_solver|]. intros (Hh & ? & cs & Hcs & Hsz & Hrt). left.
    apply elem_of_union in Hh as [->%elem_of_singleton|Hh]; [|eauto 10]. destruct Hd. rewrite (state_of_unique _ _ _ Hst Hcs). done.
Qed.

Lemma committed_latest n p l csp b cs' c o pl q lq csq a :
  stores_ok n → p ∈ n_valid n → b ∉ n_valid n → selected_parent cd b = Some p → chain cd p l → chain_state l = Some csp → chain_step p csp b = Some cs' →
  computed_ok MuHashElementHash chacha20 c (cs_state cs') (cs_nfs cs') o → computed_anchor anchor_to_bytes c = cs_root cs' →
  chain cd q lq → chain_state lq = Some csq → q ∈ {[b]} ∪ n_valid n → (∀ x, x ∈ {[b]} ∪ n_valid n → x ∈ lq) → a ≠ empty_shielded_anchor anchor_to_bytes →
  AnchorBlocks.get (write (n_db n) (persisted (n_db n) b c (cs_nfs cs') ++ window_ops pl p b cs')) a = latest_root (cs_roots csq) a.
Proof.
  intros Hn Hp Hb Hsp Hl Hs Hstep Hc Ha Hq Eq Hqv Hall Hne. pose proof (chain_cons _ _ _ _ Hsp Hl) as Hbl.
  apply elem_of_union in Hqv as [->%elem_of_singleton|Hqv]; [|destruct Hb; apply (valid_chain n q lq b Hn Hqv Hq), Hall; set_solver].
  pose proof (proj1 (state_of_step b p csp Hsp (ex_intro _ l (conj Hl Hs)) csq) (ex_intro _ lq (conj Hq Eq))) as E. rewrite Hstep in E. injection E as <-.
  pose proof (state_of_ok _ _ _ Hq Eq) as Hok. rewrite (chain_unique cd _ _ _ Hq Hbl) in *.
  destruct (chain_step_cases _ _ _ _ Hstep) as (ctx & mint & o' & _ & _ & _ & _ & _ & _ & -> & _).
  rewrite write_app. etrans; [exact (window_ops_untouched _ pl p b cs' ShieldedAnchors a ltac:(left; in_tables))|].
  etrans; [exact (persisted_latest anchor_to_bytes MuHashElementHash chacha20 MuHashFinalizeHash (n_db n) b c (cs_nfs cs') a)|]. rewrite Ha, (comp_tree _ _ _ _ _ _ Hc).
  assert (AnchorBlocks.get (n_db n) a = latest_root (cs_roots csp) a) as ->.
  { apply (so_latest _ Hn p l); [done..| |done]. intros x Hx. specialize (Hall x). apply elem_of_cons in Hall as [->|]; [done|done|set_solver]. }
  unfold latest_root. cbn [List.find]. destruct (bool_decide_reflect (cs_root cs' = a)) as [Hr|Hr]; [|by rewrite bool_decide_eq_false_2 by naive_solver].
  rewrite bool_decide_eq_true_2; [done|]. split; [done|]. apply Z.lt_nge. intros Hz.
  apply (empty_tree _ (ref_tree _ _ (co_reference _ _ _ Hok))) in Hz. destruct Hne. rewrite <- Hr. unfold ChainSpec.cs_root. by rewrite Hz.
Qed.

Lemma commit_spec n p l csp b cs' c o :
  stores_ok n → set_ok n p → b ∉ n_valid n → selected_parent cd b = Some p → chain cd p l → chain_state l = Some csp → chain_step p csp b = Some cs' →
  computed_ok MuHashElementHash chacha20 c (cs_state cs') (cs_nfs cs') o → cs_nfs cs' = cs_nfs csp ++ out_new_nullifiers o →
  computed_anchor anchor_to_bytes c = cs_root cs' → scan_block c = chain_scan csp b →
  ∃ n', commit n p b c (cs_dev cs') (cs_slot cs') = Ok n' ∧ node_ok n' b ∧ n_valid n' = {[b]} ∪ n_valid n ∧ n_disqualified n' = n_disqualified n.
Proof.
  intros Hn Hset Hb Hsp Hl Hs Hstep Hc Hnf Ha Hscan. pose proof (commit_batch_shape n p l csp b cs' c o Hn (proj1 Hset) Hsp Hl Hs Hstep Hc Ha) as Hshape.
  pose proof (committed_rows n p l csp b cs' c o (default Log.default_log (cs_log csp)) Hn Hb Hsp Hl Hs Hstep Hc Hnf Hscan) as Hrows.
  unfold commit_utxo_state. rewrite Hshape. cbn [mbind res_bind]. eexists. split; [done|]. split; [|done]. clear Hshape.
  set (pl := default Log.default_log (cs_log csp)) in *. set (batch := persisted (n_db n) b c (cs_nfs cs') ++ window_ops pl p b cs') in *.
  assert (state_of b cs') as Hst by (apply (state_of_step b p csp Hsp); [by exists l|done]).
  assert (∀ x, x ≠ b → same_rows (n_db n) (write (n_db n) batch) x) as Hother.
  { intros x Hx t Ht. unfold batch. rewrite write_app, window_ops_untouched by auto. by apply persisted_other. }
  assert (b ≠ genesis cd) as Hbg by (intros ->; rewrite (rl_genesis cd) in Hsp; done).
  split; [|split; [set_solver|]]; cbn [n_db n_valid n_disqualified].
  - split; cbn [n_db n_valid n_disqualified].
    + pose proof (so_genesis _ Hn). set_solver.
    + intros x Hx. destruct (decide (x = b)) as [->|Hxb]; [by exists cs'|]. destruct (so_rows _ Hn x) as (cs & Hcs & Hr); [set_solver|].
      exists cs. split; [done|]. eapply block_rows_same; [by apply Hother|done].
    + intros x q Hx Hq. destruct (decide (x = b)) as [->|Hxb]; [|pose proof (so_parent _ Hn x q); set_solver].
      rewrite Hsp in Hq. injection Hq as <-. destruct Hset. set_solver.
    + intros x Hx t Ht. rewrite <- (Hother x) by set_solver. apply (so_absent _ Hn); set_solver.
    + intros a h. by apply (committed_producers n p b cs' c o).
    + intros q lq csq a. eapply (committed_latest n p l csp b cs' c o); try done. apply Hset.
    + intros s. etrans; [|exact (so_scores _ Hn s)]. unfold SourceScores.get, batch. rewrite write_app.
      etrans; [exact (window_ops_untouched _ pl p b cs' ShieldedAnchorSourceScore s ltac:(left; in_tables))|].
      exact (persisted_untouched _ _ _ _ _ _ _ _ ShieldedAnchorSourceScore s ltac:(in_tables)).
    + exact (so_disqualified _ Hn).
  - intros cs Hcs. rewrite <- (state_of_unique _ _ _ Hst Hcs), Hnf. unfold batch. rewrite write_app.
    transitivity (nullifier_set (write (n_db n) (persisted (n_db n) b c (cs_nfs cs')))).
    { apply set_other. unfold window_ops. repeat (apply Forall_app; split); repeat case_match; by repeat constructor. }
    etrans; [exact (persisted_set anchor_to_bytes _ _ MuHashFinalizeHash _ _ _ _ _ _ Hc)|]. rewrite (proj2 Hset csp) by by exists l. by rewrite list_to_set_app_L.
Qed.

(** ** The walk *)

Abbreviation up_step := (ChainWalk.up_step sha256 blake2b anchor_to_bytes MuHashElementHash chacha20 MuHashFinalizeHash natural_mod_inverse debug_assertions cd fp).
Abbreviation walk := (calculate_utxo_state_relatively sha256 blake2b anchor_to_bytes MuHashElementHash chacha20 MuHashFinalizeHash natural_mod_inverse debug_assertions cd fp).
Definition invalid (b : bytes) : Prop := ∀ cs, ¬ state_of b cs.

(** Moves of the global set leave the rest alone. *)
Lemma stores_set_only n batch : Forall (λ op, op_table op = ShieldedNullifiers) batch → stores_ok n → stores_ok (with_db n (write (n_db n) batch)).
Proof.
  intros Hb Hn.
  assert (∀ t k, t ≠ ShieldedNullifiers → write (n_db n) batch t !! k = n_db n t !! k) as Hs.
  { intros t k Ht. apply write_other. eapply Forall_impl; [exact Hb|]. intros op Hop [Heq _]. congruence. }
  assert (∀ b, same_rows (n_db n) (write (n_db n) batch) b) as Hrows.
  { intros b t Ht. symmetry. apply Hs. intros ->. revert Ht. in_tables. }
  split; cbn [n_db n_valid n_disqualified with_db]; [apply Hn| |apply Hn| | | | |apply Hn].
  - intros b Hb'. destruct (so_rows _ Hn b Hb') as (cs & Hcs & Hr). exists cs. split; [done|]. by eapply block_rows_same.
  - intros b Hb' t Ht. rewrite <- Hrows by done. by apply (so_absent _ Hn).
  - intros a h. rewrite <- (so_producers _ Hn). apply reflexive_eq, (f_equal (λ l, h ∈ l)).
    exact (f_equal (default []) (Hs ShieldedAnchorProducers a ltac:(done))).
  - intros p l cs a Hp Hl Hv Ha Hne. rewrite <- (so_latest _ Hn p l cs a Hp Hl Hv Ha Hne). exact (Hs ShieldedAnchors a ltac:(done)).
  - intros s. etrans; [exact (Hs ShieldedAnchorSourceScore s ltac:(done))|apply Hn].
Qed.
Lemma stores_status n stable : stores_ok n → stores_ok (mk_node (n_db n) (n_valid n) (n_disqualified n) stable).
Proof. intros []. by split. Qed.
Lemma stores_disqualify n b : stores_ok n → invalid b → stores_ok (disqualify n b).
Proof. intros [] H. split; try done. cbn. intros x Hx. apply elem_of_union in Hx as [->%elem_of_singleton|Hx]; eauto. Qed.
Lemma invalid_child b p : selected_parent cd b = Some p → invalid p → invalid b.
Proof. intros Hp Hi cs Hcs. destruct (state_of_parent _ _ _ Hp Hcs) as (csp & ? & _). by apply (Hi csp). Qed.

Lemma diff_spec n b p csp cs : stores_ok n → b ∈ n_valid n → selected_parent cd b = Some p → state_of p csp → state_of b cs →
  cs_nfs cs = cs_nfs csp ++ NullifierDiffs.get (n_db n) b.
Proof.
  intros Hn Hb Hp Hcsp Hcs. destruct (so_rows _ Hn b Hb) as (cs0 & Hcs0 & Hr). rewrite (state_of_unique _ _ _ Hcs Hcs0). pose proof (br_diff _ _ _ Hr) as Hd.
  rewrite Hp in Hd. destruct Hd as (csp0 & Hcsp0 & ->). by rewrite (state_of_unique _ _ _ Hcsp Hcsp0).
Qed.
Lemma apply_shape n b : apply_nullifiers_from_store (n_db n) [] b = inserts (NullifierDiffs.get (n_db n) b).
Proof. unfold apply_nullifiers_from_store. by rewrite foldl_inserts. Qed.
Lemma revert_shape db leaving : ∀ batch, foldl (λ batch current, revert_nullifiers_from_store db batch current) batch leaving = batch ++ deletes (leaving ≫= NullifierDiffs.get db).
Proof.
  induction leaving as [|b leaving IH]; intros batch; cbn; [by rewrite app_nil_r|]. rewrite IH. unfold revert_nullifiers_from_store. rewrite foldl_deletes.
  unfold deletes. rewrite fmap_app, app_assoc. done.
Qed.
Lemma inserts_table l : Forall (λ op, op_table op = ShieldedNullifiers) (inserts l).
Proof. by apply Forall_fmap, Forall_true. Qed.
Lemma deletes_table l : Forall (λ op, op_table op = ShieldedNullifiers) (deletes l).
Proof. by apply Forall_fmap, Forall_true. Qed.

(** What the node has validated is below a block from before the forks that it has not. *)
Lemma past_below n d b to lt l :
  stores_ok n → selected_parent cd b = Some d → chain cd d l → chain cd to lt → b ∈ lt → one_past n lt → b ∉ n_valid n → early cd fp b = true →
  ∀ x, x ∈ n_valid n → x ∈ l.
Proof.
  intros Hn Hsp Hl Ht Hbt Hpast Hb He x Hx. pose proof (Hpast b Hbt He Hb x Hx) as Hxt. apply list_elem_of_split in Hbt as (above & rest & ->).
  pose proof (chain_unique cd _ _ _ (chain_suffix _ _ _ _ _ Ht) (chain_cons _ _ _ _ Hsp Hl)) as [= ->].
  apply elem_of_app in Hxt as [Hxt|Hxt]; [|apply elem_of_cons in Hxt as [->|]; done]. apply list_elem_of_split in Hxt as (a1 & a2 & ->). destruct Hb.
  rewrite <- app_assoc in Ht. cbn in Ht. apply (valid_chain n x (x :: a2 ++ b :: l) b Hn Hx); [by apply (chain_suffix _ _ _ _ _ Ht)|set_solver].
Qed.
(** One block up: validated before, known to be invalid, or verified now. *)
Lemma up_step_spec n d p b to lt :
  node_ok n d → selected_parent cd b = Some p → p = d ∨ invalid p → chain cd to lt → b ∈ lt → one_past n lt →
  ∃ n' d', up_step (n, d) (p, b) = Ok (n', d') ∧ node_ok n' d' ∧ n_valid n ⊆ n_valid n' ∧ n_valid n' ⊆ {[b]} ∪ n_valid n ∧
    (n_disqualified n' ⊆ {[b]} ∪ n_disqualified n ∧ (d' = b ∧ n_disqualified n' = n_disqualified n ∨ d' = d ∧ invalid b)).
Proof.
  intros [Hn Hset] Hsp Hp Ht Hbt Hpast. destruct (so_rows _ Hn d (proj1 Hset)) as (csd & (l & Hl & Hs) & _). unfold ChainWalk.up_step.
  destruct (bool_decide_reflect (p = d)) as [->|Hpd]; cbn [negb]; cycle 1.
  { destruct Hp as [|Hp]; [done|]. pose proof (invalid_child _ _ Hsp Hp) as Hi. eexists _, _. split; [done|]. split; [split; [by apply stores_disqualify|exact Hset]|].
    split; [done|]. split; [set_solver|]. split; [done|by right]. }
  clear Hp. destruct (bool_decide_reflect (b ∈ n_valid n)) as [Hb|Hb].
  { eexists _, _. split; [done|]. rewrite apply_shape. split; [|split; [done|]; split; [set_solver|]; split; [set_solver|by left]]. split; [by apply stores_set_only; [apply inserts_table|]|]. split; [done|].
    intros cs Hcs. cbn [n_db with_db]. rewrite set_inserts, (proj2 Hset csd) by by exists l.
    rewrite (diff_spec n b d csd cs Hn Hb Hsp) by (done || by exists l). by rewrite list_to_set_app_L. }
  destruct (bool_decide_reflect (b ∈ n_disqualified n)) as [Hdq|Hdq].
  { eexists _, _. split; [done|]. split; [done|]. split; [done|]. split; [set_solver|]. split; [set_solver|]. right. split; [done|]. exact (so_disqualified _ Hn b Hdq). }
  rewrite (context_spec n d l csd b Hn Hset Hl Hs) by (intros He; by apply (past_below n d b to lt l)).
  destruct (chain_ctx_ok anchor_to_bytes cd fp csd b d Hsp) as (ctx & Ectx & _). rewrite Ectx. cbn [mbind res_bind].
  pose proof (verify_spec n d l csd b ctx Hsp Hn Hset Hl Hs Ectx) as Hv. destruct (chain_step d csd b) as [cs'|] eqn:Hstep.
  - destruct Hv as (c & o & -> & Hc & Hnf & Ha & Hscan). destruct (commit_spec n d l csd b cs' c o Hn Hset Hb Hsp Hl Hs Hstep Hc Hnf Ha Hscan) as (n' & -> & Hok & Hval & Hdis).
    eexists _, _. split; [done|]. split; [done|]. rewrite Hval, Hdis. split; [set_solver|]. split; [done|]. split; [set_solver|by left].
  - destruct Hv as (e & ->). assert (invalid b) as Hi.
    { intros cs Hcs. apply (state_of_step b d csd Hsp (ex_intro _ l (conj Hl Hs))) in Hcs. congruence. }
    eexists _, _. split; [done|]. split; [|by destruct (bool_decide _); (split; [done|]; split; [cbn; set_solver|]; split; [done|by right])]. destruct (bool_decide _).
    + split; [|exact Hset]. by apply stores_disqualify.
    + split; [|exact Hset]. apply stores_disqualify; [|done]. by apply (stores_status n).
Qed.

(** Blocks in the order of the up-walk. *)
Fixpoint linked (x : bytes) (rest : list bytes) : Prop :=
  match rest with [] => True | y :: rest => selected_parent cd y = Some x ∧ linked y rest end.
Lemma linked_app x r1 y r2 : linked x (r1 ++ y :: r2) ↔ linked x (r1 ++ [y]) ∧ linked y r2.
Proof. revert x. induction r1 as [|z r1 IH]; intros x; cbn; [tauto|]. rewrite IH. tauto. Qed.
Lemma linked_take x rest k : linked x rest → linked x (take k rest).
Proof. revert x k. induction rest as [|y rest IH]; intros x [|k]; cbn; try done. intros [? ?]. eauto. Qed.
Lemma chain_linked b above a below : chain cd b (above ++ a :: below) → linked a (reverse above).
Proof.
  revert b. induction above as [|x above IH]; intros b H; [done|]. rewrite reverse_cons. cbn in H. inversion H as [E|? p ? Hp Hl]; subst; [by destruct above|].
  specialize (IH p Hl). destruct above as [|y above]; cbn [app] in *.
  - destruct (chain_head _ _ _ Hl) as [? [= -> _]]. done.
  - rewrite reverse_cons in *. destruct (chain_head _ _ _ Hl) as [? [= -> _]]. rewrite <- app_assoc. apply (linked_app a (reverse above) p [x]). by split.
Qed.
Lemma windows_cons x y rest : windows (x :: y :: rest) = (x, y) :: windows (y :: rest).
Proof. done. Qed.
Lemma windows_app x r1 y r2 : windows (x :: r1 ++ y :: r2) = windows (x :: r1 ++ [y]) ++ windows (y :: r2).
Proof. revert x. induction r1 as [|z r1 IH]; intros x; [done|]. cbn [app]. rewrite !windows_cons, IH. done. Qed.
Lemma windows_take x rest k : take k (windows (x :: rest)) = windows (x :: take k rest).
Proof. revert x k. induction rest as [|y rest IH]; intros x [|k]; [done..|]. rewrite windows_cons. cbn [take]. by rewrite windows_cons, IH. Qed.

(** The nullifiers between a block and an ancestor. *)
Lemma chain_diffs n b above a below cs csa :
  stores_ok n → b ∈ n_valid n → chain cd b (above ++ a :: below) → state_of b cs → state_of a csa →
  ∃ ds, cs_nfs cs = cs_nfs csa ++ ds ∧ (list_to_set ds : gset bytes) = list_to_set (above ≫= NullifierDiffs.get (n_db n)).
Proof.
  intros Hn. revert b cs. induction above as [|x above IH]; intros b cs Hb H Hcs Hcsa; cbn in H.
  { destruct (chain_head _ _ _ H) as [? [= -> _]]. exists []. by rewrite (state_of_unique _ _ _ Hcs Hcsa), app_nil_r. }
  inversion H as [E|? p ? Hp Hl]; subst; [by destruct above|]. destruct (state_of_parent _ _ _ Hp Hcs) as (csp & Hcsp & _).
  destruct (IH p csp (so_parent _ Hn _ _ Hb Hp) Hl Hcsp Hcsa) as (ds & E & Es). exists (ds ++ NullifierDiffs.get (n_db n) x).
  rewrite (diff_spec n x p csp cs Hn Hb Hp Hcsp Hcs), E, app_assoc. split; [done|]. cbn. rewrite !list_to_set_app_L, Es. set_solver.
Qed.
Lemma state_nodup b cs : state_of b cs → NoDup (cs_nfs cs).
Proof. intros (l & Hl & E). exact (ref_nodup _ _ (co_reference _ _ _ (state_of_ok _ _ _ Hl E))). Qed.

(** The up-walk ends on the highest valid block, and disqualifies only invalid blocks it passed. *)
Lemma up_walk rest n d x to lt : node_ok n d → linked x rest → x = d ∨ invalid x → chain cd to lt → (∀ y, y ∈ rest → y ∈ lt) → one_past n lt →
  ∃ n' d', res_foldl up_step (n, d) (windows (x :: rest)) = Ok (n', d') ∧ node_ok n' d' ∧ n_valid n ⊆ n_valid n' ∧ one_past n' lt ∧
    (∀ y, y ∈ n_disqualified n' → y ∈ n_disqualified n ∨ y ∈ rest) ∧
    (d' = d ∧ Forall invalid rest ∨ ∃ r1 r2, rest = r1 ++ d' :: r2 ∧ Forall invalid r2).
Proof.
  intros Hn Hl Hx Ht. revert n d x Hn Hl Hx. induction rest as [|y rest IH]; intros n d x Hn Hl Hx Hr Hpast.
  { exists n, d. split; [done|]. split; [done|]. split; [done|]. split; [done|]. split; [by left|]. left. by split. }
  destruct Hl as [Hp Hl]. destruct (up_step_spec n d x y to lt Hn Hp Hx Ht (Hr y ltac:(by left)) Hpast) as (n1 & d1 & E1 & Hn1 & Hv1 & Hv1' & Hq1 & Hd1).
  rewrite windows_cons. cbn [res_foldl]. rewrite E1. cbn [mbind res_bind].
  destruct (IH n1 d1 y Hn1 Hl) as (n2 & d2 & E2 & Hn2 & Hv2 & Hp2 & Hq2 & Hd2).
  { destruct Hd1 as [[-> _]|[_ ?]]; [by left|by right]. }
  { intros z Hz. apply Hr. by right. }
  { apply (one_past_step n n1 lt y); [apply Hr; by left|done..]. }
  exists n2, d2. split; [exact E2|]. split; [done|]. split; [by etrans|]. split; [done|]. split.
  { intros z [Hz|Hz]%Hq2; [|right; by right]. apply Hq1, elem_of_union in Hz as [->%elem_of_singleton|Hz]; [right; by left|by left]. }
  destruct Hd2 as [[-> Hf]|(r1 & r2 & -> & Hf)].
  - destruct Hd1 as [[-> _]|[-> Hi]]; [right; by exists [], rest|]. left. split; [done|]. by constructor.
  - right. by exists (y :: r1), r2.
Qed.

(** Reverting the blocks above an ancestor leaves at most what the set had beyond the block it stood on. *)
Lemma revert_spec n d x above below cs csx :
  stores_ok n → d ∈ n_valid n → chain cd d (above ++ x :: below) → state_of d cs → state_of x csx →
  let n' := with_db n (write (n_db n) (foldl (λ batch current, revert_nullifiers_from_store (n_db n) batch current) [] above)) in
  stores_ok n' ∧ (list_to_set (cs_nfs csx) ⊆ nullifier_set (n_db n) → list_to_set (cs_nfs csx) ⊆ nullifier_set (n_db n')) ∧
  nullifier_set (n_db n') ⊆ nullifier_set (n_db n) ∧
  (nullifier_set (n_db n) = list_to_set (cs_nfs cs) → nullifier_set (n_db n') = list_to_set (cs_nfs csx)).
Proof.
  intros Hn Hd Hl Hcs Hcsx n'. destruct (chain_diffs n d above x below cs csx Hn Hd Hl Hcs Hcsx) as (ds & E & Es).
  pose proof (state_nodup _ _ Hcs) as Hnd. rewrite E in Hnd. apply NoDup_app in Hnd as (_ & Hdis & _).
  assert (∀ nf, nf ∈ (list_to_set (cs_nfs csx) : gset bytes) → nf ∉ (list_to_set ds : gset bytes)) as Hdis'.
  { intros nf. rewrite !elem_of_list_to_set. apply Hdis. }
  unfold n'. rewrite revert_shape. cbn [app n_db with_db]. rewrite set_deletes, <- Es.
  split; [apply stores_set_only; [apply deletes_table|done]|]. split; [set_solver|]. split; [set_solver|]. intros ->. rewrite E, list_to_set_app_L. set_solver.
Qed.

Lemma highest up split_point below d :
  d = split_point ∧ Forall invalid (reverse up) ∨ (∃ r1 r2, reverse up = r1 ++ d :: r2 ∧ Forall invalid r2) →
  ∃ above below', up ++ split_point :: below = above ++ d :: below' ∧ Forall invalid above.
Proof.
  intros [[-> Hi]|(r1 & r2 & Er1 & Hi)].
  - exists up, below. split; [done|]. by apply Forall_reverse in Hi; rewrite reverse_involutive in Hi.
  - exists (reverse r2), (reverse r1 ++ split_point :: below). split; [|by apply Forall_reverse].
    apply (f_equal reverse) in Er1. rewrite reverse_involutive, reverse_app, reverse_cons, <- app_assoc in Er1. rewrite Er1, <- !app_assoc. done.
Qed.

(** A walk never panics and ends on the highest valid block of the target's chain. *)
Lemma walk_spec n from lf to lt :
  node_ok n from → chain cd from lf → chain cd to lt → one_past n lt →
  ∃ n' d, walk n from to = Ok (n', d) ∧ node_ok n' d ∧ n_valid n ⊆ n_valid n' ∧
    (to ∈ n_disqualified n ∧ n' = n ∧ d = from ∨
     to ∉ n_disqualified n ∧ ∃ above below, lt = above ++ d :: below ∧ Forall invalid above).
Proof.
  intros [Hn Hset] Hf Ht Hpast. unfold calculate_utxo_state_relatively. case_bool_decide as Hdq; [exists n, from; split; [done|]; split; [done|]; split; [done|]; by left|].
  destruct (down_walk_ok cd to lt lf [] Ht (chain_has_genesis _ _ _ Hf)) as (above & split_point & below & -> & Hs & _ & E).
  rewrite (rl_backward cd _ _ Hf), E. cbn [unwrap mbind res_bind]. apply list_elem_of_split in Hs as (up & below' & ->).
  rewrite (rl_forward cd _ _ _ _ Ht). destruct Hset as [Hv Hset]. destruct (so_rows _ Hn from Hv) as (cs & Hcs & _).
  assert (split_point ∈ n_valid n) as Hsv by (apply (valid_chain n from _ _ Hn Hv Hf); set_solver).
  destruct (so_rows _ Hn _ Hsv) as (csx & Hcsx & _).
  destruct (revert_spec n from split_point above below cs csx Hn Hv Hf Hcs Hcsx) as (Hn' & _ & _ & Heq). specialize (Heq (Hset cs Hcs)).
  cbn [app]. set (n0 := with_db n _) in *. destruct (up_walk (reverse up) n0 split_point split_point to (up ++ split_point :: below')) as (n' & d & Er & Hok & Hval & _ & _ & Hd).
  { split; [done|]. split; [done|]. intros cs' Hcs'. by rewrite <- (state_of_unique _ _ _ Hcsx Hcs'). }
  { by eapply chain_linked. }
  { by left. }
  { done. }
  { intros y Hy. rewrite elem_of_reverse in Hy. apply elem_of_app. by left. }
  { by apply (one_past_same n). }
  exists n', d. split; [exact Er|]. split; [done|]. split; [exact Hval|]. right. split; [done|]. by apply highest.
Qed.

(** A valid target is reached, and only a valid one. *)
Lemma walk_target n from lf to lt :
  node_ok n from → chain cd from lf → chain cd to lt → one_past n lt →
  ∃ n' d, walk n from to = Ok (n', d) ∧ node_ok n' d ∧ (from ≠ to → d = to ↔ ∃ cs, state_of to cs).
Proof.
  intros Hn Hf Ht Hpast. destruct (walk_spec n from lf to lt Hn Hf Ht Hpast) as (n' & d & E & Hok & _ & H). exists n', d. split; [done|]. split; [done|].
  intros Hne. split.
  - intros ->. destruct Hok as [Hs [Hv _]]. destruct (so_rows _ Hs to Hv) as (cs & Hcs & _). by exists cs.
  - intros (cs & Hcs). destruct H as [(Hdq & _)|(_ & above & below & -> & Hi)].
    + destruct (so_disqualified _ (proj1 Hn) to Hdq cs Hcs).
    + destruct (chain_head _ _ _ Ht) as [l' El]. destruct above as [|y above]; [by injection El as -> _|]. injection El as -> _.
      apply Forall_cons_1 in Hi as [Hi _]. by destruct (Hi cs).
Qed.

(** ** Interrupted walks *)

(** The node when a walk stops after its revert and [k] blocks up; every block is one atomic write. *)
Definition interrupted (n : Node) (from to : bytes) (k : nat) : exec Node :=
  '(leaving, split_point) ← unwrap (down_walk to (default_backward_chain_iterator from) []);
  let n := with_db n (write (n_db n) (foldl (λ batch current, revert_nullifiers_from_store (n_db n) batch current) [] leaving)) in
  fst <$> res_foldl up_step (n, split_point) (take k (windows (forward_chain_iterator split_point to))).

Lemma linked_last path n y x csy csx :
  stores_ok n → linked y (path ++ [x]) → Forall (λ z, z ∈ n_valid n) (path ++ [x]) → state_of y csy → state_of x csx →
  list_to_set (cs_nfs csy) ⊆ (list_to_set (cs_nfs csx) : gset bytes).
Proof.
  intros Hn. revert y csy. induction path as [|z path IH]; intros y csy Hl Hv Hy Hx; destruct Hl as [Hp Hl]; apply Forall_cons_1 in Hv as [Hz Hv].
  - rewrite (diff_spec n x y csy csx Hn Hz Hp Hy Hx), list_to_set_app_L. set_solver.
  - destruct (so_rows _ Hn z Hz) as (csz & Hcz & _). specialize (IH z csz Hl Hv Hcz Hx).
    rewrite (diff_spec n z y csy csz Hn Hz Hp Hy Hcz), list_to_set_app_L in IH. set_solver.
Qed.

Lemma linked_valid path n y x : stores_ok n → linked y (path ++ [x]) → x ∈ n_valid n → Forall (λ z, z ∈ n_valid n) (path ++ [x]).
Proof.
  intros Hn. revert y. induction path as [|z path IH]; intros y Hl Hx; [by apply Forall_singleton|]. destruct Hl as [_ Hl]. specialize (IH z Hl Hx). constructor; [|done].
  destruct path as [|w path]; destruct Hl as [Hp _]; [by apply (so_parent _ Hn x)|]. apply Forall_cons_1 in IH as [Hw _]. by apply (so_parent _ Hn w).
Qed.

(** Re-applying validated blocks closes the gap a stopped walk left. *)
Lemma up_between path n d x csd csx : stores_ok n → linked d (path ++ [x]) → Forall (λ y, y ∈ n_valid n) (path ++ [x]) → state_of d csd → state_of x csx →
  list_to_set (cs_nfs csd) ⊆ nullifier_set (n_db n) → nullifier_set (n_db n) ⊆ list_to_set (cs_nfs csx) →
  ∃ n', res_foldl up_step (n, d) (windows (d :: path ++ [x])) = Ok (n', x) ∧ node_ok n' x ∧ n_valid n' = n_valid n.
Proof.
  revert n d csd. induction path as [|y path IH]; intros n d csd Hn Hl Hv Hd Hx Hlo Hhi; cbn [app] in *; destruct Hl as [Hp Hl];
    apply Forall_cons_1 in Hv as [Hy Hv]; rewrite windows_cons; cbn [res_foldl ChainWalk.up_step]; rewrite bool_decide_eq_true_2, bool_decide_eq_true_2 by done;
    cbn [negb mbind res_bind]; rewrite apply_shape; set (n1 := with_db n _);
    assert (stores_ok n1) as Hn1 by (apply stores_set_only; [apply inserts_table|done]);
    assert (nullifier_set (n_db n1) = nullifier_set (n_db n) ∪ list_to_set (NullifierDiffs.get (n_db n) _)) as Eset by apply set_inserts.
  - exists n1. split; [done|]. split; [|done]. split; [done|]. split; [done|]. intros cs Hcs. rewrite <- (state_of_unique _ _ _ Hx Hcs), Eset.
    rewrite (diff_spec n x d csd csx Hn Hy Hp Hd Hx), list_to_set_app_L in *. set_solver.
  - destruct (so_rows _ Hn y Hy) as (csy & Hcy & _). pose proof (linked_last path n y x csy csx Hn Hl Hv Hcy Hx) as Hle.
    pose proof (diff_spec n y d csd csy Hn Hy Hp Hd Hcy) as Ed. rewrite Ed, list_to_set_app_L in Hle.
    destruct (IH n1 y csy Hn1 Hl Hv Hcy Hx) as (n' & E & Hok & Hdq); [rewrite Ed, list_to_set_app_L, Eset; set_solver|rewrite Eset; set_solver|].
    by exists n'.
Qed.

(** The blocks a walk goes up. *)
Definition up_blocks (from to : bytes) : list bytes :=
  match down_walk to (default_backward_chain_iterator from) [] with Some (_, split_point) => tail (forward_chain_iterator split_point to) | None => [] end.

(** The stopped walk stands on the highest valid block of those it passed. *)
Lemma interrupted_spec n from lf to lt k nc :
  node_ok n from → chain cd from lf → chain cd to lt → one_past n lt → interrupted n from to k = Ok nc →
  ∃ leaving split_point below up below' x,
    lf = leaving ++ split_point :: below ∧ lt = up ++ split_point :: below' ∧ down_walk to lf [] = Some (leaving, split_point) ∧ split_point ∈ n_valid nc ∧
    node_ok nc x ∧ n_valid n ⊆ n_valid nc ∧ one_past nc lt ∧ (∀ y, y ∈ n_disqualified nc → y ∈ n_disqualified n ∨ y ∈ take k (reverse up)) ∧
    (x = split_point ∧ Forall invalid (take k (reverse up)) ∨ ∃ r1 r2, take k (reverse up) = r1 ++ x :: r2 ∧ Forall invalid r2).
Proof.
  intros [Hn Hset] Hf Ht Hpast. unfold interrupted.
  destruct (down_walk_ok cd to lt lf [] Ht (chain_has_genesis _ _ _ Hf)) as (leaving & split_point & below & -> & Hs & _ & E).
  rewrite (rl_backward cd _ _ Hf), E. cbn [unwrap mbind res_bind app]. apply list_elem_of_split in Hs as (up & below' & ->).
  rewrite (rl_forward cd _ _ _ _ Ht). destruct Hset as [Hv Hset]. destruct (so_rows _ Hn from Hv) as (cs & Hcs & _).
  assert (split_point ∈ n_valid n) as Hsv by (apply (valid_chain n from _ _ Hn Hv Hf); set_solver).
  destruct (so_rows _ Hn _ Hsv) as (csx & Hcsx & _).
  destruct (revert_spec n from split_point leaving below cs csx Hn Hv Hf Hcs Hcsx) as (Hn0 & _ & _ & Heq). specialize (Heq (Hset cs Hcs)).
  set (n0 := with_db n _) in *. pose proof (chain_linked _ _ _ _ Ht) as Hlink. rewrite windows_take.
  destruct (up_walk (take k (reverse up)) n0 split_point split_point to (up ++ split_point :: below')) as (n1 & x & E1 & Hn1 & Hval & Hp1 & Hq1 & Hxs);
    [|by apply linked_take|by left|done| |by apply (one_past_same n)|].
  { split; [done|]. split; [done|]. intros cs' Hcs'. by rewrite <- (state_of_unique _ _ _ Hcsx Hcs'). }
  { intros y Hy. apply elem_of_app. left. apply elem_of_reverse. apply elem_of_take in Hy as (i & Hy & _). by eapply list_elem_of_lookup_2. }
  rewrite E1. cbn [fmap res_fmap fst]. intros [= <-]. exists leaving, split_point, below, up, below', x.
  split; [done|]. split; [done|]. split; [done|]. split; [by apply Hval|]. done.
Qed.

(** Walking again from the same block to the same target recovers from an interruption. *)
Lemma rewalk_spec n from lf to lt k nc :
  node_ok n from → chain cd from lf → chain cd to lt → one_past n lt → interrupted n from to k = Ok nc → to ∉ n_disqualified nc →
  ∃ n' d, walk nc from to = Ok (n', d) ∧ node_ok n' d ∧ ∃ above below, lt = above ++ d :: below ∧ Forall invalid above.
Proof.
  intros Hok Hf Ht Hpast Hi Hdq.
  destruct (interrupted_spec n from lf to lt k nc Hok Hf Ht Hpast Hi) as (leaving & split_point & below & up & below' & x & -> & -> & E & Hsv & [Hn1 [Hx Hset1]] & Hval & Hp1 & _ & Hxs).
  unfold calculate_utxo_state_relatively. rewrite bool_decide_eq_false_2 by done. rewrite (rl_backward cd _ _ Hf), E. cbn [unwrap mbind res_bind].
  rewrite (rl_forward cd _ _ _ _ Ht). pose proof (chain_linked _ _ _ _ Ht) as Hlink.
  assert (∀ y, y ∈ reverse up → y ∈ up ++ split_point :: below') as Hup by (intros y Hy; rewrite elem_of_reverse in Hy; apply elem_of_app; by left).
  assert (from ∈ n_valid nc) as Hv by (apply Hval, Hok). destruct (so_rows _ Hn1 from Hv) as (cs & Hcs & _). destruct (so_rows _ Hn1 _ Hsv) as (csx & Hcsx & _).
  destruct (so_rows _ Hn1 x Hx) as (cs1 & Hcs1 & _). specialize (Hset1 cs1 Hcs1).
  destruct (revert_spec nc from split_point leaving below cs csx Hn1 Hv Hf Hcs Hcsx) as (Hn2 & Hlo & Hhi & _).
  set (n2 := with_db nc _) in *. assert (one_past n2 (up ++ split_point :: below')) as Hp2 by by apply (one_past_same nc).
  destruct Hxs as [[-> _]|(r1 & r2 & Er & _)].
  - destruct (up_walk (reverse up) n2 split_point split_point to (up ++ split_point :: below')) as (n' & d & E' & Hok' & _ & _ & _ & Hd); [|done|by left|done..|].
    + split; [done|]. split; [done|]. intros cs' Hcs'. rewrite <- (state_of_unique _ _ _ Hcsx Hcs'), <- (state_of_unique _ _ _ Hcsx Hcs1) in *.
      apply set_eq. rewrite Hset1 in *. set_solver.
    + exists n', d. split; [exact E'|]. split; [done|]. by apply highest.
  - assert (reverse up = r1 ++ x :: (r2 ++ drop k (reverse up))) as Eup by (rewrite <- (take_drop k (reverse up)) at 1; by rewrite Er, <- app_assoc).
    set (r3 := r2 ++ drop k (reverse up)) in *. rewrite Eup in Hlink |- *. apply linked_app in Hlink as [Hl1 Hl3].
    pose proof (linked_valid r1 nc split_point x Hn1 Hl1 Hx) as Hr1. rewrite windows_app, res_foldl_app.
    destruct (up_between r1 n2 split_point x csx cs1 Hn2 Hl1 Hr1 Hcsx Hcs1) as (n3 & -> & Hn3 & Hv3).
    { apply Hlo. rewrite Hset1. exact (linked_last r1 nc split_point x csx cs1 Hn1 Hl1 Hr1 Hcsx Hcs1). }
    { by rewrite <- Hset1. }
    cbn [mbind res_bind]. destruct (up_walk r3 n3 x x to (up ++ split_point :: below') Hn3 Hl3) as (n' & d & E' & Hok' & _ & _ & _ & Hd); [by left|done| |by apply (one_past_same n2)|].
    { intros y Hy. apply Hup. rewrite Eup. apply elem_of_app. right. by right. }
    exists n', d. split; [exact E'|]. split; [done|]. apply highest. right. rewrite Eup. destruct Hd as [[-> Hi']|(q1 & q2 & Eq & Hi')]; [by exists r1, r3|].
    exists (r1 ++ x :: q1), q2. split; [|done]. by rewrite Eq, <- app_assoc.
Qed.
(** The target is disqualified by the stopped walk only when the walk had passed all its blocks; it then stands on the highest valid one. *)
Lemma interrupted_target n from lf to lt k nc :
  node_ok n from → chain cd from lf → chain cd to lt → one_past n lt → to ∉ n_disqualified n → interrupted n from to k = Ok nc → to ∈ n_disqualified nc →
  (length (up_blocks from to) <= k)%nat ∧ ∃ d, node_ok nc d ∧ ∃ above below, lt = above ++ d :: below ∧ Forall invalid above.
Proof.
  intros Hok Hf Ht Hpast Hdq Hi Hdq'.
  destruct (interrupted_spec n from lf to lt k nc Hok Hf Ht Hpast Hi) as (leaving & split_point & below & up & below' & x & -> & -> & E & _ & Hx & _ & _ & Hq & Hxs).
  unfold up_blocks. rewrite (rl_backward cd _ _ Hf), E, (rl_forward cd _ _ _ _ Ht). cbn [tail]. destruct (Hq to Hdq') as [|Hin]; [done|].
  assert (length (reverse up) <= k)%nat as Hk.
  { destruct (chain_head _ _ _ Ht) as [l' El]. destruct up as [|y up]; [change (reverse []) with (@nil bytes) in Hin; rewrite take_nil in Hin; by apply elem_of_nil in Hin|]. injection El as -> _.
    apply Nat.le_ngt. intros Hlt. rewrite reverse_cons in Hin, Hlt. rewrite length_app in Hlt. cbn [length] in Hlt. rewrite take_app_le in Hin by lia.
    apply elem_of_take in Hin as (i & Hin & _). apply list_elem_of_lookup_2 in Hin. rewrite elem_of_reverse in Hin. pose proof (chain_NoDup cd _ _ Ht) as Hnd.
    cbn [app] in Hnd. apply NoDup_cons in Hnd as [Hnd _]. apply Hnd, elem_of_app. by left. }
  split; [done|]. exists x. split; [done|]. rewrite take_ge in Hxs by done. by apply highest.
Qed.

(** ** Histories *)

Definition fresh (stable : bool) : Node := mk_node (λ _, ∅) {[genesis cd]} ∅ stable.

(** The nodes that walks from the genesis lead to, some of them interrupted and started again to the same target; the state is
    neither imported at a pruning point nor pruned, and no two branches are validated before the anchor forks. *)
Inductive history : Node → bytes → Prop :=
  | history_fresh stable : history (fresh stable) (genesis cd)
  | history_walk n d to lt n' d' : history n d → chain cd to lt → one_past n lt → walk n d to = Ok (n', d') → history n' d'
  | history_crash n d to lt k nc n' d' : history n d → chain cd to lt → one_past n lt → interrupted n d to k = Ok nc → to ∉ n_disqualified nc →
      walk nc d to = Ok (n', d') → history n' d'.

Lemma fresh_ok stable : node_ok (fresh stable) (genesis cd).
Proof.
  split; [|split; [cbn; set_solver|]].
  - split; cbn [n_db n_valid n_disqualified fresh].
    + set_solver.
    + intros b ->%elem_of_singleton. exists genesis_state. split; [apply state_of_genesis|]. split; try done.
      * split; try done; [symmetry; exact to_state_new|apply acc_ok_new].
      * by rewrite (rl_genesis cd).
      * by rewrite (rl_genesis cd).
    + intros b p ->%elem_of_singleton. by rewrite (rl_genesis cd).
    + intros b _ t _. by rewrite lookup_empty.
    + intros a h. split; [by intros ?%elem_of_nil|]. intros (->%elem_of_singleton & ? & _). done.
    + intros p l cs a Hl Hs ->%elem_of_singleton _ _. rewrite (chain_genesis_only cd _ Hl) in Hs. by injection Hs as <-.
    + done.
    + set_solver.
  - intros cs Hcs. by rewrite (state_of_unique _ _ _ Hcs state_of_genesis).
Qed.
Lemma node_chain n d : node_ok n d → ∃ l cs, chain cd d l ∧ chain_state l = Some cs ∧ block_rows (n_db n) d cs.
Proof. intros [Hn [Hd _]]. destruct (so_rows _ Hn d Hd) as (cs & (l & Hl & E) & Hr). by exists l, cs. Qed.
Lemma history_ok n d : history n d → node_ok n d.
Proof.
  induction 1 as [stable|n d to lt n' d' _ IH Ht Hp E|n d to lt k nc n' d' _ IH Ht Hp Ei Hdq E]; [apply fresh_ok|..]; destruct (node_chain n d IH) as (l & cs & Hl & _).
  - destruct (walk_spec n d l to lt IH Hl Ht Hp) as (n1 & d1 & E1 & Hok & _). congruence.
  - destruct (rewalk_spec n d l to lt k nc IH Hl Ht Hp Ei Hdq) as (n1 & d1 & E1 & Hok & _). congruence.
Qed.




(** C37. A walk interrupted after its revert and resumed towards another candidate is not repaired: resuming towards the
    block the node stood on does nothing, and the reverted nullifiers stay missing from the global set. *)
Theorem interrupted_walk_other_target n from lf to lt nc :
  history n from → chain cd from lf → chain cd to lt → from ∉ lt → from ∉ n_disqualified n →
  NullifierDiffs.get (n_db n) from ≠ [] → interrupted n from to 0 = Ok nc →
  walk nc from from = Ok (nc, from) ∧ ∀ cs, chain_state lf = Some cs → nullifier_set (n_db nc) ≠ list_to_set (cs_nfs cs).
Proof.
  intros Hok%history_ok Hf Ht Hnt Hdq Hne. destruct Hok as [Hn [Hv Hset]]. unfold interrupted, calculate_utxo_state_relatively.
  destruct (down_walk_ok cd to lt lf [] Ht (chain_has_genesis _ _ _ Hf)) as (leaving & split_point & below & -> & Hs & _ & E).
  rewrite (rl_backward cd _ _ Hf), E. cbn [unwrap mbind res_bind app take res_foldl fmap res_fmap fst]. intros [= <-].
  destruct (chain_head _ _ _ Hf) as [l' El]. assert (∃ leaving0, leaving = from :: leaving0) as [leaving0 ->].
  { destruct leaving as [|y leaving]; [injection El as -> _; done|]. injection El as -> _. by eexists. }
  assert (split_point ∈ n_valid n) as Hsv by (apply (valid_chain n from _ _ Hn Hv Hf); set_solver).
  destruct (so_rows _ Hn _ Hsv) as (csx & Hcsx & _). destruct (so_rows _ Hn _ Hv) as (cs & Hcs & _).
  destruct (revert_spec n from split_point _ below cs csx Hn Hv Hf Hcs Hcsx) as (_ & _ & _ & Heq). specialize (Heq (Hset cs Hcs)).
  destruct (chain_diffs n from _ split_point below cs csx Hn Hv Hf Hcs Hcsx) as (ds & Ed & Es). split.
  - cbn [n_disqualified with_db]. rewrite bool_decide_eq_false_2 by done. cbn [app down_walk]. rewrite (rl_ancestor cd _ _ _ Hf), bool_decide_eq_true_2 by set_solver.
    cbn [unwrap mbind res_bind]. rewrite (rl_forward cd from from [] _ Hf). done.
  - intros cs' Hcs'. assert (cs' = cs) as -> by (pose proof (state_of_chain _ _ _ Hcs Hf); congruence). rewrite Heq, Ed, list_to_set_app_L.
    pose proof (state_nodup _ _ Hcs) as Hnd. rewrite Ed in Hnd. apply NoDup_app in Hnd as (_ & Hdis & _).
    destruct (NullifierDiffs.get (n_db n) from) as [|nf nfs] eqn:Enf; [done|]. intros Habs.
    assert (nf ∈ ds) as Hin by (apply (elem_of_list_to_set (C := gset bytes)); rewrite Es; cbn; rewrite Enf; set_solver).
    apply (Hdis nf); [|done]. apply (elem_of_list_to_set (C := gset bytes)). rewrite Habs. set_solver.
Qed.
End states.

(** ** Examples *)

Abbreviation example_history := (history example_hash example_keyed example_anchor_bytes example_element example_stream example_final example_cd example_fp example_mod_inverse true).
Abbreviation example_walk := (calculate_utxo_state_relatively example_hash example_keyed example_anchor_bytes example_element example_stream example_final example_mod_inverse true example_cd example_fp).
Abbreviation example_interrupted := (interrupted example_hash example_keyed example_anchor_bytes example_element example_stream example_final example_cd example_fp example_mod_inverse true).

(** Only the genesis is before the forks. *)
Lemma example_one_past n l : [0] ∈ n_valid n → one_past example_cd example_fp n l.
Proof.
  intros Hg b _ He Hb. destruct Hb. assert (b = [0]) as ->; [|done]. revert He. unfold early, post_fork, is_post_security_fork, is_active. cbn. case_bool_decide; done.
Qed.
Lemma example_fresh_past l : one_past example_cd example_fp (fresh example_cd true) l.
Proof. apply example_one_past. cbn [n_valid fresh genesis example_cd example_data_with]. by apply elem_of_singleton. Qed.
Lemma example_history_past n d l : example_history n d → one_past example_cd example_fp n l.
Proof.
  intros Hn. apply example_one_past. destruct (history_ok example_hash example_keyed example_anchor_bytes example_element example_stream example_final example_cd example_fp example_mod_inverse true
    example_no_collision n d Hn) as [Hs _]. exact (so_genesis _ _ _ _ _ _ _ _ _ Hs).
Qed.

Lemma example_at_one : ∃ n, example_history n [1].
Proof.
  destruct (walk_target example_hash example_keyed example_anchor_bytes example_element example_stream example_final example_cd example_fp example_mod_inverse true
    example_no_collision (fresh example_cd true) [0] [[0]] [1] [[1]; [0]]) as (n & d & E & Hok & Hd).
  { apply (fresh_ok example_hash example_keyed example_anchor_bytes example_element example_stream example_final example_cd example_fp example_mod_inverse example_no_collision). }
  { apply (chain_genesis example_cd). }
  { apply example_chain_one. }
  { apply example_fresh_past. }
  assert (d = [1]) as ->.
  { apply Hd; [done|]. destruct example_valid_one as (cs & _ & _ & Hcs). by exists cs. }
  exists n. eapply history_walk; [apply (history_fresh _ _ _ _ _ _ example_cd example_fp _ _ true)|apply example_chain_one|apply example_fresh_past|exact E].
Qed.



Lemma example_not_disqualified n b : example_history n [1] → b = [1] ∨ b = [2] → b ∉ n_disqualified n.
Proof.
  intros Hn Hb Hdq. destruct (history_ok example_hash example_keyed example_anchor_bytes example_element example_stream example_final example_cd example_fp example_mod_inverse true
    example_no_collision n [1] Hn) as [Hs _].
  assert (∃ cs, example_state_of b cs) as [cs Hcs].
  { destruct Hb as [->| ->]; [destruct example_valid_one as (cs & _ & _ & Hcs)|destruct example_valid_two as (cs & _ & Hcs)]; by exists cs. }
  exact (so_disqualified _ _ _ _ _ _ _ _ _ Hs b Hdq cs Hcs).
Qed.
Lemma example_interrupted_ok n : example_interrupted n [1] [2] 0 =
  Ok (with_db n (write (n_db n) (revert_nullifiers_from_store (n_db n) [] [1]))).
Proof.
  unfold interrupted. assert (down_walk [2] (default_backward_chain_iterator [1]) [] = Some ([ [1] ], [0])) as -> by (vm_compute; reflexivity). reflexivity.
Qed.
Lemma example_diff n : example_history n [1] → NullifierDiffs.get (n_db n) [1] = [zeros 32].
Proof.
  intros Hn. destruct (history_ok example_hash example_keyed example_anchor_bytes example_element example_stream example_final example_cd example_fp example_mod_inverse true
    example_no_collision n [1] Hn) as [Hs [Hv _]].
  destruct example_valid_one as (cs & _ & E & Hcs).
  pose proof (diff_spec example_hash example_keyed example_anchor_bytes example_element example_stream example_final example_cd example_fp n [1] [0] genesis_state cs
    Hs Hv eq_refl state_of_genesis Hcs) as Hd.
  rewrite E in Hd. by symmetry.
Qed.


Lemma interrupted_walk_other_target_witness : ∃ n nc, example_history n [1] ∧ example_interrupted n [1] [2] 0 = Ok nc ∧ example_walk nc [1] [1] = Ok (nc, [1]) ∧
  nullifier_set (n_db nc) ≠ {[ zeros 32 ]}.
Proof.
  destruct example_at_one as [n Hn]. exists n. eexists. split; [exact Hn|]. split; [apply example_interrupted_ok|].
  assert (NullifierDiffs.get (n_db n) [1] ≠ []) as Hne by by rewrite example_diff.
  destruct (interrupted_walk_other_target example_hash example_keyed example_anchor_bytes example_element example_stream example_final example_cd example_fp example_mod_inverse true
    example_no_collision n [1] [[1]; [0]] [2] [[2]; [0]] _ Hn example_chain_one example_chain_two ltac:(set_solver)
    (example_not_disqualified n [1] Hn (or_introl eq_refl)) Hne (example_interrupted_ok n)) as [Hw Hset].
  split; [exact Hw|]. destruct example_valid_one as (cs & Ecs & E & _). specialize (Hset cs Ecs). rewrite E in Hset. set_solver.
Defined.

