(* ===== verification/SelectedChain.v ===== *)
(** The index of the selected chain (consensus/src/model/stores/selected_chain.rs).

    Two tables, index to hash and hash to index, and the highest index.  A reorganization
    replaces the top of the index; a node that starts from a pruning point numbers it 0; the
    history of blocks below it can be inserted afterwards, which moves the node's own entries up.
    A staged write is visible to the reads of its batch that follow it, through the caches of the stores.  A staged
    deletion is modelled as taking effect at once; in the code it leaves the cache and reaches the database only
    with the batch, which makes no difference: no operation reads a key it has deleted. *)
From stdpp Require Import base gmap list.
From S2P Require Import Prelude.

Record SelectedChain := mk_sc { hash_by_index : gmap Z bytes; index_by_hash : gmap bytes Z; highest_index : option Z }.
Definition no_chain : SelectedChain := mk_sc ∅ ∅ None.

Definition get_by_hash (sc : SelectedChain) (hash : bytes) : option Z := index_by_hash sc !! hash.
Definition get_by_index (sc : SelectedChain) (index : Z) : option bytes := hash_by_index sc !! index.
Definition get_tip (sc : SelectedChain) : option (Z * bytes) :=
  idx ← highest_index sc; hash ← hash_by_index sc !! idx; Some (idx, hash).

Definition write_entry (sc : SelectedChain) (index : Z) (hash : bytes) : SelectedChain :=
  mk_sc (<[index := hash]> (hash_by_index sc)) (<[hash := index]> (index_by_hash sc)) (highest_index sc).
Definition rebase_entry (sc : SelectedChain) (old_index : Z) (hash : bytes) (new_index : Z) : SelectedChain :=
  write_entry (mk_sc (delete old_index (hash_by_index sc)) (index_by_hash sc) (highest_index sc)) new_index hash.
Definition delete_entry (sc : SelectedChain) (index : Z) (hash : bytes) : SelectedChain :=
  mk_sc (delete index (hash_by_index sc)) (delete hash (index_by_hash sc)) (highest_index sc).
Definition set_highest_index (sc : SelectedChain) (index : Z) : SelectedChain :=
  mk_sc (hash_by_index sc) (index_by_hash sc) (Some index).

Definition remove_entry (sc : SelectedChain) (to_remove : bytes) : exec SelectedChain :=
  index ← unwrap (index_by_hash sc !! to_remove);
  Ok (delete_entry sc index to_remove).
(** The loop over [added], from position [i]. *)
Fixpoint add_entries (sc : SelectedChain) (split_index i : Z) (added : list bytes) : exec SelectedChain :=
  match added with
  | [] => Ok sc
  | to_add :: added =>
      index ← add_u 64 i split_index;
      index ← add_u 64 index 1;
      add_entries (write_entry sc index to_add) split_index (i + 1) added
  end.
Definition apply_changes (sc : SelectedChain) (added removed : list bytes) : exec SelectedChain :=
  current_highest_index ← unwrap (highest_index sc);
  split_index ← sub_u current_highest_index (Zlength removed);
  new_highest_index ← add_u 64 (Zlength added) split_index;
  sc ← res_foldl remove_entry sc removed;
  sc ← add_entries sc split_index 0 added;
  Ok (set_highest_index sc new_highest_index).

(** The loop below index [n]. *)
Fixpoint prune_loop (sc : SelectedChain) (n : nat) : SelectedChain :=
  match n with
  | 0%nat => sc
  | S n => match hash_by_index sc !! Z.of_nat n with Some hash => prune_loop (delete_entry sc (Z.of_nat n) hash) n | None => sc end
  end.
(** [None] when the block is not indexed. *)
Definition prune_below_point (sc : SelectedChain) (block : bytes) : option SelectedChain :=
  index ← index_by_hash sc !! block; Some (prune_loop sc (Z.to_nat index)).

Definition init_with_pruning_point (sc : SelectedChain) (block : bytes) : SelectedChain := mk_sc {[0 := block]} {[block := 0]} (Some 0).

(** ** What the index holds

    [index_of sc own l]: the two tables mirror each other, and from index [own] up they hold the
    chain [l], oldest block first.  Below [own] are blocks whose history came from a peer. *)
Record index_of (sc : SelectedChain) (own : Z) (l : list bytes) : Prop := {
  ix_mirror i h : hash_by_index sc !! i = Some h ↔ index_by_hash sc !! h = Some i;
  ix_low i h : hash_by_index sc !! i = Some h → 0 <= i;
  ix_own i : own <= i → hash_by_index sc !! i = l !! Z.to_nat (i - own);
  ix_highest : highest_index sc = Some (own + Zlength l - 1);
  ix_range : 0 <= own ∧ l ≠ [] ∧ own + Zlength l <= 2 ^ 64;
}.
(** The node indexed every entry itself. *)
Definition own_index (sc : SelectedChain) (l : list bytes) : Prop := index_of sc 0 l.

Definition mirrored (sc : SelectedChain) : Prop := ∀ i h, hash_by_index sc !! i = Some h ↔ index_by_hash sc !! h = Some i.

Lemma write_entry_mirrored sc i h : mirrored sc → hash_by_index sc !! i = None → index_by_hash sc !! h = None → mirrored (write_entry sc i h).
Proof.
  intros Hm Hi Hh j k. unfold write_entry. cbn. rewrite !lookup_insert_Some, (Hm j k).
  split; (intros [[-> ->]|[Hne H]]; [by left|right]); (split; [|done]); intros ->; [by rewrite Hh in H|apply Hm in H; by rewrite Hi in H].
Qed.
Lemma delete_entry_mirrored sc i h : mirrored sc → hash_by_index sc !! i = Some h → mirrored (delete_entry sc i h).
Proof.
  intros Hm Hi j k. unfold delete_entry. cbn. rewrite !lookup_delete_Some, (Hm j k). apply Hm in Hi as Hh.
  split; (intros [Hne H]; split; [|done]); intros ->; [rewrite Hh in H; by injection H|apply Hm in H; rewrite Hi in H; by injection H].
Qed.
Lemma rebase_as sc i h j : rebase_entry sc i h j = write_entry (mk_sc (delete i (hash_by_index sc)) (delete h (index_by_hash sc)) (highest_index sc)) j h.
Proof. unfold rebase_entry, write_entry. cbn. by rewrite insert_delete_eq. Qed.
Lemma rebase_entry_mirrored sc i h j : mirrored sc → hash_by_index sc !! i = Some h → (j = i ∨ hash_by_index sc !! j = None) → mirrored (rebase_entry sc i h j).
Proof.
  intros Hm Hi Hj. rewrite rebase_as. apply (write_entry_mirrored (delete_entry sc i h)); [by apply delete_entry_mirrored| |]; cbn.
  - destruct (decide (j = i)) as [->|Hne]; [apply lookup_delete_eq|rewrite lookup_delete_ne by done; by destruct Hj].
  - apply lookup_delete_eq.
Qed.

(** ** Reorganizations *)

Lemma remove_entries sc : ∀ removed, mirrored sc → NoDup removed → Forall (λ h, is_Some (index_by_hash sc !! h)) removed →
  ∃ sc', res_foldl remove_entry sc removed = Ok sc' ∧ mirrored sc' ∧ highest_index sc' = highest_index sc ∧
    (∀ h, index_by_hash sc' !! h = if bool_decide (h ∈ removed) then None else index_by_hash sc !! h).
Proof.
  intros removed. revert sc. induction removed as [|r removed IH]; intros sc Hm Hnd Hin.
  { exists sc. split; [done|]. split; [done|]. split; [done|]. intros h. by rewrite bool_decide_eq_false_2 by set_solver. }
  apply NoDup_cons in Hnd as [Hr Hnd]. apply Forall_cons in Hin as [[i Hi] Hin]. cbn [res_foldl].
  assert (remove_entry sc r = Ok (delete_entry sc i r)) as -> by (unfold remove_entry; by rewrite Hi). cbn [mbind res_bind].
  destruct (IH (delete_entry sc i r)) as (sc' & E & Hm' & Hh & Hx); [apply delete_entry_mirrored; [done|by apply Hm]|done| |].
  { apply Forall_forall. intros h Hh. cbn. rewrite lookup_delete_ne by (intros ->; done). by apply (proj1 (Forall_forall _ _) Hin). }
  exists sc'. split; [done|]. split; [done|]. split; [done|]. intros h. rewrite Hx. cbn.
  destruct (decide (h = r)) as [->|Hne]; [rewrite (bool_decide_eq_true_2 (r ∈ r :: removed)) by set_solver; case_bool_decide; [done|apply lookup_delete_eq]|].
  rewrite lookup_delete_ne by done. do 2 case_bool_decide; set_solver.
Qed.
Lemma add_entries_ok : ∀ added sc split i, mirrored sc → NoDup added → Forall (λ h, index_by_hash sc !! h = None) added → 0 <= i → 0 <= split →
  (∀ j, split + i < j → hash_by_index sc !! j = None) → split + i + Zlength added < 2 ^ 64 →
  ∃ sc', add_entries sc split i added = Ok sc' ∧ mirrored sc' ∧ highest_index sc' = highest_index sc ∧
    ∀ j, hash_by_index sc' !! j = if split + i <? j then added !! Z.to_nat (j - (split + i + 1)) else hash_by_index sc !! j.
Proof.
  induction added as [|h added IH]; intros sc split i Hm Hnd Hin Hi Hs Htop Hb.
  { exists sc. split; [done|]. split; [done|]. split; [done|]. intros j. destruct (Z.ltb_spec (split + i) j); [by rewrite Htop|done]. }
  apply NoDup_cons in Hnd as [Hr Hnd]. apply Forall_cons in Hin as [Hh Hin]. rewrite Zlength_cons in Hb. pose proof (Zlength_ge0 added). cbn [add_entries].
  rewrite (proj2 (add_u_ok 64 i split _)) by (split; [reflexivity|lia]). cbn [mbind res_bind].
  rewrite (proj2 (add_u_ok 64 (i + split) 1 _)) by (split; [reflexivity|lia]). cbn [mbind res_bind].
  destruct (IH (write_entry sc (i + split + 1) h) split (i + 1)) as (sc' & -> & Hm' & Hhi & Hx); [|done| |lia|lia| |lia|].
  - apply write_entry_mirrored; [done|apply Htop; lia|done].
  - apply Forall_forall. intros k Hk. cbn. rewrite lookup_insert_ne by (intros ->; done). by apply (proj1 (Forall_forall _ _) Hin).
  - intros j Hj. cbn. rewrite lookup_insert_ne by lia. apply Htop. lia.
  - exists sc'. split; [done|]. split; [done|]. split; [done|]. intros j. rewrite Hx. cbn.
    destruct (Z.ltb_spec (split + (i + 1)) j), (Z.ltb_spec (split + i) j); try lia.
    + replace (Z.to_nat (j - (split + i + 1))) with (S (Z.to_nat (j - (split + (i + 1) + 1)))) by lia. done.
    + assert (j = i + split + 1) as -> by lia. rewrite lookup_insert_eq. replace (Z.to_nat _) with 0%nat by lia. done.
    + by rewrite lookup_insert_ne by lia.
Qed.

Lemma index_nodup sc own l : index_of sc own l → NoDup l.
Proof.
  intros H. apply NoDup_alt. intros i j h Hi Hj. destruct (ix_range _ _ _ H) as [H0 _].
  pose proof (ix_own _ _ _ H (own + Z.of_nat i) ltac:(lia)) as Ei. pose proof (ix_own _ _ _ H (own + Z.of_nat j) ltac:(lia)) as Ej.
  replace (own + Z.of_nat i - own) with (Z.of_nat i) in Ei by lia. replace (own + Z.of_nat j - own) with (Z.of_nat j) in Ej by lia.
  rewrite Nat2Z.id, Hi in Ei. rewrite Nat2Z.id, Hj in Ej. apply (ix_mirror _ _ _ H) in Ei, Ej. rewrite Ei in Ej. injection Ej as Ej. lia.
Qed.
Lemma index_lookup sc own l k h : index_of sc own l → l !! k = Some h → index_by_hash sc !! h = Some (own + Z.of_nat k).
Proof.
  intros H Hk. apply (ix_mirror _ _ _ H). rewrite (ix_own _ _ _ H) by lia. by replace (Z.to_nat (own + Z.of_nat k - own)) with k by lia.
Qed.
Lemma index_inv sc own l i h : index_of sc own l → index_by_hash sc !! h = Some i → own <= i → l !! Z.to_nat (i - own) = Some h.
Proof. intros H Hh Hi. rewrite <- (ix_own _ _ _ H) by done. by apply (ix_mirror _ _ _ H). Qed.

(** A reorganization that keeps the lowest block replaces the blocks above the split point. *)
Lemma apply_changes_ok sc own kept removed added : index_of sc own (kept ++ reverse removed) → kept ≠ [] → NoDup added →
  (∀ h i, h ∈ added → index_by_hash sc !! h = Some i → h ∈ removed) → own + Zlength (kept ++ added) <= 2 ^ 64 →
  ∃ sc', apply_changes sc added removed = Ok sc' ∧ index_of sc' own (kept ++ added) ∧ ∀ i, i < own → hash_by_index sc' !! i = hash_by_index sc !! i.
Proof.
  intros H Hk Hnd Hnew Hb. destruct (ix_range _ _ _ H) as (H0 & _ & Hr). pose proof (index_nodup _ _ _ H) as Hn. apply NoDup_app in Hn as (_ & _ & Hn). rewrite reverse_Permutation in Hn.
  assert (∀ h, h ∈ removed → ∃ k, (length kept <= k)%nat ∧ (kept ++ reverse removed) !! k = Some h ∧ index_by_hash sc !! h = Some (own + Z.of_nat k)) as Hrem.
  { intros h Hh. rewrite <- elem_of_reverse in Hh. apply list_elem_of_lookup in Hh as [k Hk']. exists (length kept + k)%nat. split; [lia|].
    assert ((kept ++ reverse removed) !! (length kept + k)%nat = Some h) as E by (by rewrite lookup_app_r, Nat.add_comm, Nat.add_sub by lia).
    split; [done|]. by apply (index_lookup _ _ _ _ _ H). }
  unfold apply_changes. rewrite (ix_highest _ _ _ H). cbn [unwrap mbind res_bind]. rewrite Zlength_app in *. unfold Zlength in Hr, Hb |- *. rewrite length_reverse in *.
  assert (0 < Z.of_nat (length kept)) by (destruct kept; [done|cbn; lia]).
  rewrite (proj2 (sub_u_ok _ _ _)) by (split; [reflexivity|lia]). cbn [mbind res_bind]. rewrite (proj2 (add_u_ok _ _ _ _)) by (split; [reflexivity|lia]). cbn [mbind res_bind].
  set (split := own + _ - 1 - _). replace split with (own + Z.of_nat (length kept) - 1) in * by (unfold split; lia). clear split.
  destruct (remove_entries sc removed) as (sc1 & -> & Hm1 & Hh1 & Hx1); [exact (ix_mirror _ _ _ H)|done| |]. { apply Forall_forall. intros h (k & _ & _ & E)%Hrem. by rewrite E. }
  assert (∀ i, hash_by_index sc1 !! i = if bool_decide (own + Z.of_nat (length kept) <= i) then None else hash_by_index sc !! i) as Hi1.
  { intros i. apply option_eq. intros h. rewrite (Hm1 i h), Hx1. case_bool_decide as Hh; [|case_bool_decide as Hge].
    - split; [done|]. case_bool_decide; [done|]. intros E. destruct (Hrem h Hh) as (k & Hk' & _ & E'). apply (ix_mirror _ _ _ H) in E. rewrite E' in E. injection E as E. lia.
    - split; [|done]. intros E. destruct Hh. pose proof (index_inv _ _ _ _ _ H E ltac:(lia)) as E'. rewrite lookup_app_r in E' by lia. apply elem_of_reverse. by eapply list_elem_of_lookup_2.
    - symmetry. apply (ix_mirror _ _ _ H). }
  cbn [mbind res_bind].
  destruct (add_entries_ok added sc1 (own + Z.of_nat (length kept) - 1) 0) as (sc2 & -> & Hm2 & Hh2 & Hx2); [done|done| |lia|lia| |unfold Zlength; lia|].
  { apply Forall_forall. intros h Hh. rewrite Hx1. case_bool_decide as Hr'; [done|]. destruct (index_by_hash sc !! h) as [i|] eqn:E; [|done]. by destruct Hr'; eapply Hnew. }
  { intros j Hj. rewrite Hi1, bool_decide_eq_true_2 by lia. done. }
  cbn [mbind res_bind]. eexists. split; [reflexivity|]. rewrite Z.add_0_r in Hx2.
  assert (∀ i, hash_by_index sc2 !! i = if own + Z.of_nat (length kept) <=? i then added !! Z.to_nat (i - (own + Z.of_nat (length kept))) else hash_by_index sc !! i) as Hi2.
  { intros i. rewrite Hx2, Hi1. destruct (Z.ltb_spec (own + Z.of_nat (length kept) - 1) i), (Z.leb_spec (own + Z.of_nat (length kept)) i); try lia; [f_equal; lia|].
    by rewrite bool_decide_eq_false_2 by lia. }
  split; [split|]; cbn [hash_by_index index_by_hash highest_index set_highest_index].
  - exact Hm2.
  - intros i h. rewrite Hi2. destruct (Z.leb_spec (own + Z.of_nat (length kept)) i); [lia|apply (ix_low _ _ _ H)].
  - intros i Hi. rewrite Hi2. destruct (Z.leb_spec (own + Z.of_nat (length kept)) i) as [Hge|Hlt].
    + rewrite lookup_app_r by lia. f_equal. lia.
    + rewrite lookup_app_l by lia. rewrite (ix_own _ _ _ H) by done. by rewrite lookup_app_l by lia.
  - f_equal. unfold Zlength. rewrite length_app. lia.
  - split; [done|]. split; [by destruct kept|]. unfold Zlength. rewrite length_app. lia.
  - intros i Hi. rewrite Hi2. destruct (Z.leb_spec (own + Z.of_nat (length kept)) i); [lia|done].
Qed.

(** ** Starting from a pruning point, and pruning *)

Lemma init_ok sc block : index_of (init_with_pruning_point sc block) 0 [block].
Proof.
  split; cbn.
  - intros i h. rewrite !lookup_singleton_Some. naive_solver.
  - intros i h. rewrite lookup_singleton_Some. lia.
  - intros i Hi. destruct (decide (i = 0)) as [->|Hne]; [by rewrite lookup_singleton_eq|]. rewrite lookup_singleton_ne by done.
    symmetry. apply lookup_ge_None. cbn. lia.
  - done.
  - done.
Qed.
Lemma prune_loop_ok n : ∀ sc, mirrored sc → let sc' := prune_loop sc n in
  mirrored sc' ∧ highest_index sc' = highest_index sc ∧ (∀ i, Z.of_nat n <= i → hash_by_index sc' !! i = hash_by_index sc !! i) ∧
  (∀ i h, hash_by_index sc' !! i = Some h → hash_by_index sc !! i = Some h) ∧
  ∃ k, (k <= n)%nat ∧ (∀ i, Z.of_nat k <= i < Z.of_nat n → hash_by_index sc' !! i = None) ∧ (k = 0%nat ∨ hash_by_index sc !! (Z.of_nat k - 1) = None).
Proof.
  induction n as [|n IH]; intros sc Hm; [split; [done|]; split; [done|]; split; [done|]; split; [done|]; exists 0%nat; split; [lia|]; split; [lia|by left]|].
  cbn [prune_loop]. destruct (hash_by_index sc !! Z.of_nat n) as [h|] eqn:E; cbv zeta.
  - destruct (IH (delete_entry sc (Z.of_nat n) h)) as (H1 & H2 & H3 & H4 & k & Hk & H5 & H6); [by apply delete_entry_mirrored|].
    split; [done|]. split; [done|]. split; [intros i Hi; rewrite H3 by lia; cbn; by rewrite lookup_delete_ne by lia|]. split.
    + intros i h' Hi%H4. cbn in Hi. by apply lookup_delete_Some in Hi as [_ ?].
    + exists k. split; [lia|]. split.
      * intros i Hi. destruct (decide (i = Z.of_nat n)) as [->|Hne]; [rewrite H3 by lia; cbn; apply lookup_delete_eq|apply H5; lia].
      * destruct H6 as [H6|H6]; [by left|right]. cbn in H6. by rewrite lookup_delete_ne in H6 by lia.
  - split; [done|]. split; [done|]. split; [done|]. split; [done|]. exists (S n). split; [lia|]. split; [lia|]. right. by replace (Z.of_nat (S n) - 1) with (Z.of_nat n) by lia.
Qed.
(** Pruning below a block of the chain leaves the chain from that block up. *)
Lemma prune_ok sc own l k block : index_of sc own l → l !! k = Some block →
  ∃ sc', prune_below_point sc block = Some sc' ∧ index_of sc' (own + Z.of_nat k) (drop k l) ∧
    ((∀ i h, hash_by_index sc !! i = Some h → own <= i) → ∀ i h, hash_by_index sc' !! i = Some h → own + Z.of_nat k <= i).
Proof.
  intros H Hk. unfold prune_below_point. rewrite (index_lookup _ _ _ _ _ H Hk). cbn. eexists. split; [reflexivity|]. destruct (ix_range _ _ _ H) as (H0 & Hne & Hr).
  destruct (prune_loop_ok (Z.to_nat (own + Z.of_nat k)) sc (ix_mirror _ _ _ H)) as (H1 & H2 & H3 & H4 & k0 & Hk0 & H5 & H6). apply lookup_lt_Some in Hk as Hl.
  split; [split; [exact H1|..]|].
  - intros i h Hi%H4. by apply (ix_low _ _ _ H) in Hi.
  - intros i Hi. rewrite H3, (ix_own _ _ _ H), lookup_drop by lia. f_equal. lia.
  - rewrite H2, (ix_highest _ _ _ H). f_equal. unfold Zlength. rewrite length_drop. lia.
  - split; [lia|]. split; [intros E; apply (f_equal length) in E; rewrite length_drop in E; cbn in E; lia|]. unfold Zlength in *. rewrite length_drop. lia.
  - intros Hlow i h Hi. destruct (decide (own + Z.of_nat k <= i)) as [|Hlt]; [done|]. pose proof (Hlow i h (H4 _ _ Hi)).
    destruct (decide (Z.of_nat k0 <= i)) as [Hge|Hlt']; [rewrite (H5 i) in Hi by lia; done|]. destruct H6 as [->|H6]; [lia|].
    rewrite (ix_own _ _ _ H) in H6 by lia. apply lookup_ge_None in H6. lia.
Qed.

(** ** Moving the index

    The loop that makes room below the entries, from the highest down, and the one that closes it again. *)
Definition rebase_up (shift : Z) (sc : SelectedChain) (i : Z) : exec SelectedChain :=
  match get_by_index sc i with
  | Some h => j ← add_u 64 i shift; Ok (rebase_entry sc i h j)
  | None => Ok sc
  end.
Definition rebase_down (base : Z) (sc : SelectedChain) (i : Z) : exec SelectedChain :=
  match get_by_index sc i with
  | Some h => j ← sub_u i base; Ok (rebase_entry sc i h j)
  | None => Ok sc
  end.

Lemma rebase_up_loop shift sc m : ∀ k, 0 < shift → mirrored sc → (∀ i, k + Z.of_nat m <= i → hash_by_index sc !! i = None) → k + Z.of_nat m + shift <= 2 ^ 64 →
  ∃ sc', res_foldl (rebase_up shift) sc (reverse (seqZ k (Z.of_nat m))) = Ok sc' ∧ mirrored sc' ∧ highest_index sc' = highest_index sc ∧
    ∀ i, hash_by_index sc' !! i = if k + shift <=? i then hash_by_index sc !! (i - shift) else if i <? k then hash_by_index sc !! i else None.
Proof.
  induction m as [|m IH]; intros k Hs Hm Htop Hb.
  { exists sc. rewrite seqZ_nil by lia. split; [done|]. split; [done|]. split; [done|]. intros i. destruct (Z.leb_spec (k + shift) i), (Z.ltb_spec i k); try lia; [|done|by rewrite Htop by lia].
    rewrite !Htop by lia. done. }
  destruct (IH (k + 1)) as (sc1 & E & Hm1 & Hh1 & Hx1); [done|done|intros i Hi; apply Htop; lia|lia|].
  replace (Z.of_nat (S m)) with (Z.succ (Z.of_nat m)) by lia. rewrite seqZ_cons by lia. rewrite Z.pred_succ, reverse_cons, (res_foldl_snoc _ _ _ _ _ E). clear E IH.
  assert (hash_by_index sc1 !! k = hash_by_index sc !! k) as Ek. { rewrite Hx1. destruct (Z.leb_spec (k + 1 + shift) k), (Z.ltb_spec k (k + 1)); lia || done. }
  assert (hash_by_index sc1 !! (k + shift) = None) as Ej. { rewrite Hx1. destruct (Z.leb_spec (k + 1 + shift) (k + shift)), (Z.ltb_spec (k + shift) (k + 1)); lia || done. }
  unfold rebase_up, get_by_index. rewrite Ek. destruct (hash_by_index sc !! k) as [h|] eqn:Eh.
  - rewrite (proj2 (add_u_ok 64 k shift _)) by (split; [reflexivity|lia]). cbn [mbind res_bind]. eexists. split; [reflexivity|]. split; [by apply rebase_entry_mirrored; auto|]. split; [done|].
    intros i. cbn. destruct (decide (i = k + shift)) as [->|Hne1].
    { rewrite lookup_insert_eq, Z.leb_refl. replace (k + shift - shift) with k by lia. by rewrite Eh. }
    rewrite lookup_insert_ne by done. destruct (decide (i = k)) as [->|Hne2].
    { rewrite lookup_delete_eq. destruct (Z.leb_spec (k + shift) k), (Z.ltb_spec k k); lia || done. }
    rewrite lookup_delete_ne, Hx1 by done. destruct (Z.leb_spec (k + 1 + shift) i), (Z.leb_spec (k + shift) i), (Z.ltb_spec i (k + 1)), (Z.ltb_spec i k); lia || done.
  - exists sc1. split; [done|]. split; [done|]. split; [done|]. intros i. rewrite Hx1.
    destruct (Z.leb_spec (k + 1 + shift) i), (Z.leb_spec (k + shift) i), (Z.ltb_spec i (k + 1)), (Z.ltb_spec i k); try lia; try done;
      [replace (i - shift) with k by lia; done|replace i with k by lia; done].
Qed.
Lemma rebase_down_loop base sc m : 0 < base → mirrored sc → (∀ i, i < base → hash_by_index sc !! i = None) →
  ∃ sc', res_foldl (rebase_down base) sc (seqZ base (Z.of_nat m)) = Ok sc' ∧ mirrored sc' ∧ highest_index sc' = highest_index sc ∧
    ∀ i, hash_by_index sc' !! i = if i <? Z.of_nat m then hash_by_index sc !! (i + base) else if base + Z.of_nat m <=? i then hash_by_index sc !! i else None.
Proof.
  intros Hs Hm Hlow. induction m as [|m IH].
  { exists sc. split; [done|]. split; [done|]. split; [done|]. intros i. destruct (Z.ltb_spec i (Z.of_nat 0)), (Z.leb_spec (base + Z.of_nat 0) i); try lia; try done; rewrite !Hlow by lia; done. }
  destruct IH as (sc1 & E & Hm1 & Hh1 & Hx1). replace (Z.of_nat (S m)) with (Z.of_nat m + 1) by lia. rewrite seqZ_app by lia. change (seqZ (base + Z.of_nat m) 1) with [Z.of_nat 0 + (base + Z.of_nat m)]. rewrite Z.add_0_l, (res_foldl_snoc _ _ _ _ _ E). clear E.
  assert (hash_by_index sc1 !! (base + Z.of_nat m) = hash_by_index sc !! (base + Z.of_nat m)) as Ek.
  { rewrite Hx1. destruct (Z.ltb_spec (base + Z.of_nat m) (Z.of_nat m)), (Z.leb_spec (base + Z.of_nat m) (base + Z.of_nat m)); lia || done. }
  assert (hash_by_index sc1 !! (Z.of_nat m) = None) as Ej. { rewrite Hx1. destruct (Z.ltb_spec (Z.of_nat m) (Z.of_nat m)), (Z.leb_spec (base + Z.of_nat m) (Z.of_nat m)); lia || done. }
  unfold rebase_down, get_by_index. rewrite Ek. destruct (hash_by_index sc !! (base + Z.of_nat m)) as [h|] eqn:Eh.
  - rewrite (proj2 (sub_u_ok _ _ _)) by (split; [reflexivity|lia]). replace (base + Z.of_nat m - base) with (Z.of_nat m) by lia. cbn [mbind res_bind].
    eexists. split; [reflexivity|]. split; [by apply rebase_entry_mirrored; auto|]. split; [done|].
    intros i. cbn. destruct (decide (i = Z.of_nat m)) as [->|Hne1].
    { rewrite lookup_insert_eq. destruct (Z.ltb_spec (Z.of_nat m) (Z.of_nat m + 1)); [|lia]. by rewrite (Z.add_comm (Z.of_nat m)). }
    rewrite lookup_insert_ne by done. destruct (decide (i = base + Z.of_nat m)) as [->|Hne2].
    { rewrite lookup_delete_eq. destruct (Z.ltb_spec (base + Z.of_nat m) (Z.of_nat m + 1)), (Z.leb_spec (base + (Z.of_nat m + 1)) (base + Z.of_nat m)); lia || done. }
    rewrite lookup_delete_ne, Hx1 by done.
    destruct (Z.ltb_spec i (Z.of_nat m)), (Z.ltb_spec i (Z.of_nat m + 1)), (Z.leb_spec (base + Z.of_nat m) i), (Z.leb_spec (base + (Z.of_nat m + 1)) i); lia || done.
  - exists sc1. split; [done|]. split; [done|]. split; [done|]. intros i. rewrite Hx1.
    destruct (Z.ltb_spec i (Z.of_nat m)), (Z.ltb_spec i (Z.of_nat m + 1)), (Z.leb_spec (base + Z.of_nat m) i), (Z.leb_spec (base + (Z.of_nat m + 1)) i); try lia; try done;
      first [replace (i + base) with (base + Z.of_nat m) by lia; done | replace i with (base + Z.of_nat m) by lia; done].
Qed.

(** ** The index of a chain *)

Inductive ChainOp := Restart (block : bytes) | Reorg (added removed : list bytes) | PruneBelow (block : bytes).
Definition run_op (sc : SelectedChain) (op : ChainOp) : exec SelectedChain :=
  match op with
  | Restart block => Ok (init_with_pruning_point sc block)
  | Reorg added removed => apply_changes sc added removed
  | PruneBelow block => unwrap (prune_below_point sc block)
  end.
(** What the operations mean for the chain [l] whose lowest block has index [own]. *)
Inductive chain_op : Z * list bytes → ChainOp → Z * list bytes → Prop :=
  | op_restart own l block : chain_op (own, l) (Restart block) (0, [block])
  | op_reorg own kept removed added : kept ≠ [] → NoDup (kept ++ added) → own + Zlength (kept ++ added) <= 2 ^ 64 →
      chain_op (own, kept ++ reverse removed) (Reorg added removed) (own, kept ++ added)
  | op_prune own below block above : chain_op (own, below ++ block :: above) (PruneBelow block) (own + Zlength below, block :: above).
Inductive chain_ops : Z * list bytes → list ChainOp → Z * list bytes → Prop :=
  | ops_nil s : chain_ops s [] s
  | ops_cons s op s' ops s'' : chain_op s op s' → chain_ops s' ops s'' → chain_ops s (op :: ops) s''.

(** The index holds the chain and nothing else. *)
Definition indexes (sc : SelectedChain) (s : Z * list bytes) : Prop := index_of sc s.1 s.2 ∧ ∀ i h, hash_by_index sc !! i = Some h → s.1 <= i.

Lemma indexes_init sc block : indexes (init_with_pruning_point sc block) (0, [block]).
Proof. split; [apply init_ok|]. intros i h Hi. by apply (ix_low _ _ _ (init_ok sc block)) in Hi. Qed.
Lemma run_op_ok sc s op s' : indexes sc s → chain_op s op s' → ∃ sc', run_op sc op = Ok sc' ∧ indexes sc' s'.
Proof.
  intros [H Hlow] Hop. destruct Hop as [own l block|own kept removed added Hk Hnd Hb|own below block above]; cbn [run_op fst snd] in *.
  - eexists. split; [reflexivity|apply indexes_init].
  - apply NoDup_app in Hnd as (_ & Hdis & Hnd). destruct (apply_changes_ok sc own kept removed added) as (sc' & E & H' & Hsame); try done.
    { intros h i Hh Hi. pose proof (index_inv _ _ _ _ _ H Hi (Hlow _ _ (proj2 (ix_mirror _ _ _ H _ _) Hi))) as Hl%list_elem_of_lookup_2.
      apply elem_of_app in Hl as [Hl|Hl]; [by destruct (Hdis h Hl)|by apply elem_of_reverse]. }
    exists sc'. split; [done|]. split; [done|]. intros i h Hi. destruct (decide (own <= i)) as [|Hlt]; [done|]. rewrite Hsame in Hi by lia. by apply (Hlow i h).
  - destruct (prune_ok sc own (below ++ block :: above) (length below) block H) as (sc' & -> & H' & Hl'); [by apply list_lookup_middle|].
    rewrite drop_app_length in H'. exists sc'. split; [done|]. split; [done|]. exact (Hl' Hlow).
Qed.
Lemma run_ops_ok ops : ∀ sc s s', indexes sc s → chain_ops s ops s' → ∃ sc', res_foldl run_op sc ops = Ok sc' ∧ indexes sc' s'.
Proof.
  induction ops as [|op ops IH]; intros sc s s' H Hops; inversion Hops; subst; [by exists sc|]. destruct (run_op_ok _ _ _ _ H ltac:(eassumption)) as (sc1 & E & H1).
  cbn [res_foldl]. rewrite E. cbn [mbind res_bind]. by eapply IH.
Qed.

(** C18. Through restarts, reorganizations and pruning the index is exactly the selected chain: a block is found at its height and at no
    other index, an index holds the block of that height, nothing outside the chain is indexed, and the tip is the last block. *)
Theorem chain_index_exact block ops own l : chain_ops (0, [block]) ops (own, l) →
  ∃ sc, res_foldl run_op (init_with_pruning_point no_chain block) ops = Ok sc ∧
    (∀ h i, get_by_hash sc h = Some i ↔ own <= i ∧ l !! Z.to_nat (i - own) = Some h) ∧
    (∀ i h, get_by_index sc i = Some h ↔ own <= i ∧ l !! Z.to_nat (i - own) = Some h) ∧
    (λ h, (own + Zlength l - 1, h)) <$> last l = get_tip sc.
Proof.
  intros Hops. destruct (run_ops_ok _ _ _ _ (indexes_init no_chain block) Hops) as (sc & E & H & Hlow). cbn [fst snd] in *. exists sc. split; [done|].
  assert (∀ i h, get_by_index sc i = Some h ↔ own <= i ∧ l !! Z.to_nat (i - own) = Some h) as Hi.
  { intros i h. unfold get_by_index. split; [intros Hi; split; [by eapply Hlow|by rewrite <- (ix_own _ _ _ H) by (by eapply Hlow)]|]. intros [Hge Hl]. by rewrite (ix_own _ _ _ H). }
  split; [intros h i; unfold get_by_hash; rewrite <- (ix_mirror _ _ _ H); apply Hi|]. split; [done|].
  unfold get_tip. rewrite (ix_highest _ _ _ H). destruct (ix_range _ _ _ H) as (H0 & Hne & _). cbn [mbind option_bind].
  rewrite last_lookup, (ix_own _ _ _ H) by (unfold Zlength; destruct l; [done|cbn; lia]).
  replace (Z.to_nat _) with (pred (length l)) by (unfold Zlength; destruct l; [done|cbn; lia]). by destruct (l !! pred (length l)).
Qed.

Lemma chain_index_exact_witness :
  ∃ sc, res_foldl run_op (init_with_pruning_point no_chain [7]) [Reorg [[8]; [9]] []; Reorg [[10]] [[9]]; PruneBelow [8]] = Ok sc ∧
    get_by_index sc 1 = Some [8] ∧ get_by_hash sc [9] = None ∧ get_tip sc = Some (2, [10]).
Proof.
  destruct (chain_index_exact [7] [Reorg [[8]; [9]] []; Reorg [[10]] [[9]]; PruneBelow [8]] 1 [[8]; [10]]) as (sc & E & Hh & Hi & Ht).
  - eapply ops_cons; [apply (op_reorg 0 [[7]] [] [[8]; [9]]); [done|decide_by_eval|vm_compute; congruence]|].
    eapply ops_cons; [apply (op_reorg 0 [[7]; [8]] [[9]] [[10]]); [done|decide_by_eval|vm_compute; congruence]|].
    eapply ops_cons; [apply (op_prune 0 [[7]] [8] [[10]])|apply ops_nil].
  - exists sc. split; [exact E|]. split; [by apply Hi|]. split; [|by rewrite <- Ht].
    destruct (get_by_hash sc [9]) as [i|] eqn:Ei; [|done]. apply Hh in Ei as [H0 Hl]. apply list_elem_of_lookup_2 in Hl. set_solver.
Defined.
