(* ===== verification/History.v ===== *)
(** Shielded history below the pruning point (consensus/src/consensus/mod.rs).

    A node that starts from a pruning point has no records of the blocks below it, which
    wallets scan.  It asks a peer for them: [get_shielded_history_indexed_below] serves
    them, [backfill_shielded_history] places them below the node's own chain index,
    [verify_shielded_history] replays them against the state committed at a block the node
    holds, and [purge_backfilled_shielded_history] discards them when they do not verify.
    Reasons of errors and verdicts, which are only logged, are left out; reads of the
    database do not fail. *)
From stdpp Require Import base gmap list sorting.
From S2P Require Import Prelude Tree ShieldedState MuHash TxValidator ShieldedStores ShieldedManager CoinbaseNotes SelectedChain.

(** The fields of a compact header that are read here. *)
Record CompactHeaderData := mk_header { ch_blue_score : Z; ch_daa_score : Z; ch_timestamp : Z }.
Record ShieldedChainBlockData := mk_chain_block {
  cbd_hash : bytes;
  cbd_blue_score : Z;
  cbd_daa_score : Z;
  cbd_coinbase_txid : bytes;
  cbd_coinbase_outputs : list (bytes * Z);
  cbd_coinbase_commitments : list bytes;
  cbd_accepted_actions : list bytes;
  cbd_accepted_txids : list bytes;
  cbd_timestamp : Z;
}.
#[export] Instance FrontierState_eq_dec : EqDecision FrontierState.
Proof. solve_decision. Defined.
Inductive ShieldedHistoryVerdict := Verified (blocks leaves : Z) | Mismatch | Unverifiable.

(** The chain index, the database, and the history rows of [PruningMetaStores]. *)
Record HistoryNode := mk_history {
  h_index : SelectedChain;
  h_db : Db;
  h_backfilled : bool;
  h_own_base : option bytes;
  h_verified_base : option bytes;
}.
Definition shielded_history_own_base (n : HistoryNode) : option bytes :=
  if h_backfilled n then match h_own_base n with Some b => Some b | None => h_verified_base n end else None.
Definition clear_shielded_history_backfill (n : HistoryNode) : HistoryNode := mk_history (h_index n) (h_db n) false None None.

Definition persist_backfilled_scan (batch : WriteBatch) (block : bytes) (data : ShieldedScanBlockData) : WriteBatch := ScanStore.set_batch batch block data.
Definition delete_backfilled_scan (batch : WriteBatch) (block : bytes) : WriteBatch := ScanStore.delete_batch batch block.
Definition persist_replayed_frontier (batch : WriteBatch) (block : bytes) (frontier : FrontierState) : WriteBatch := TreeStore.set_batch batch block frontier.

(** Records in index order. *)
Definition index_le (x y : Z * ShieldedChainBlockData) : Prop := x.1 <= y.1.
#[export] Instance index_le_dec x y : Decision (index_le x y).
Proof. unfold index_le. apply _. Defined.

Section history.
Context {O : OrchardTree} {N : OrchardNotes O} (blake2b_64 blake2b_32 : bytes → bytes → bytes).
Context (MuHashElementHash : bytes → bytes) (chacha20 : bytes → nat → bytes) (MuHashFinalizeHash : bytes → bytes).
Context (natural_mod_inverse : Z → Z → option Z) (debug_assertions : bool).
Context (headers : bytes → option CompactHeaderData) (genesis : bytes) (shielded_coinbase : bool) (shielded_coinbase_seed_activation : Z).

Let muhash_of {E} := muhash_of MuHashElementHash chacha20 (E := E).
Let muhash_root {E} := muhash_root MuHashFinalizeHash natural_mod_inverse debug_assertions (E := E).

(** ** Serving *)

Definition shielded_chain_block_data (db : Db) (block : bytes) : option ShieldedChainBlockData :=
  match ScanStore.get db block with
  | None =>
      h ← headers block;
      Some (mk_chain_block block (ch_blue_score h) (ch_daa_score h) (zeros 32) [] [] [] [] (ch_timestamp h))
  | Some scan =>
      Some (mk_chain_block block (scan_blue_score scan) (scan_daa_score scan) (scan_coinbase_txid scan) (scan_coinbase_outputs scan)
              (scan_coinbase_commitments scan) (action_bytes <$> scan_accepted scan) (scan_txid <$> scan_accepted scan) (scan_timestamp scan))
  end.

(** The walk below [index], with the answers so far; the index it stops at. *)
Fixpoint serve_loop (n : HistoryNode) (max_blocks : Z) (out : list (Z * ShieldedChainBlockData)) (index : nat) : list (Z * ShieldedChainBlockData) * nat :=
  match index with
  | 0%nat => (out, 0%nat)
  | S i =>
      if Zlength out <=? max_blocks then
        match get_by_index (h_index n) (Z.of_nat i) with
        | None => (out, i)
        | Some hash =>
            serve_loop n max_blocks (match shielded_chain_block_data (h_db n) hash with Some data => out ++ [(Z.of_nat i, data)] | None => out end) i
        end
      else (out, index)
  end.
Definition get_shielded_history_indexed_below (n : HistoryNode) (anchor : bytes) (max_blocks : Z) : list (Z * ShieldedChainBlockData) * bool * Z :=
  match get_by_hash (h_index n) anchor with
  | None => ([], false, 0)
  | Some anchor_index =>
      let out := match shielded_chain_block_data (h_db n) anchor with Some data => [(anchor_index, data)] | None => [] end in
      let '(out, index) := serve_loop n max_blocks out (Z.to_nat anchor_index) in
      (out, (index =? 0)%nat, anchor_index)
  end.

Definition get_shielded_history_base (n : HistoryNode) : bytes := default genesis (get_by_index (h_index n) 0).
Definition get_shielded_history_status (n : HistoryNode) : Z * bool :=
  match get_by_index (h_index n) 0 with
  | None => (0, false)
  | Some base =>
      let verified_or_own := negb (h_backfilled n) || bool_decide (is_Some (h_verified_base n)) in
      let complete := bool_decide (base = genesis) && verified_or_own in
      let daa := match ScanStore.get (h_db n) base with
                 | Some d => scan_daa_score d
                 | None => match headers base with Some h => ch_daa_score h | None => 0 end
                 end in
      (daa, complete)
  end.

(** The hashes from index [i] up, until a hole. *)
Fixpoint range_loop (n : HistoryNode) (i : Z) (count : nat) : list bytes :=
  match count with
  | 0%nat => []
  | S count => match get_by_index (h_index n) i with Some hash => hash :: range_loop n (i + 1) count | None => [] end
  end.
Definition get_shielded_chain_range (n : HistoryNode) (low : bytes) (limit : Z) : res () (option (list bytes)) :=
  match get_by_hash (h_index n) low with
  | None => Ok None
  | Some low_index =>
      let unverified_below :=
        if bool_decide (h_verified_base n = None) then own ← shielded_history_own_base n; get_by_hash (h_index n) own else None in
      if match unverified_below with Some own_index => low_index <? own_index | None => false end then Err ()
      else
        '(tip_index, _) ← unwrap (get_tip (h_index n));
        let high_index := Z.min tip_index (saturating_add 64 low_index limit) in
        start ← add_u 64 low_index 1;
        Ok (Some (range_loop n start (Z.to_nat (high_index - low_index))))
  end.

(** ** The block a wallet starts from *)

Definition shielded_frontier_retained (db : Db) (block : bytes) : option FrontierState :=
  match TreeStore.get_present db block with
  | Some fs => Some fs
  | None => if bool_decide (block = genesis) || negb shielded_coinbase then Some TreeStore.frontier_default else None
  end.
Definition daa_of (n : HistoryNode) (index : Z) : option (bytes * Z) :=
  hash ← get_by_index (h_index n) index;
  daa ← match headers hash with
        | Some h => Some (ch_daa_score h)
        | None => cbd_daa_score <$> shielded_chain_block_data (h_db n) hash
        end;
  Some (hash, daa).
(** The binary search for the first index whose DAA score reaches [daa]; [None] when it probes a hole. *)
Fixpoint first_reaching (fuel : nat) (n : HistoryNode) (daa lo hi : Z) : option Z :=
  match fuel with
  | 0%nat => Some lo
  | S fuel =>
      if lo <? hi then
        let mid := lo + (hi - lo) / 2 in
        match daa_of n mid with
        | Some (_, d) => if daa <=? d then first_reaching fuel n daa lo mid else first_reaching fuel n daa (mid + 1) hi
        | None => None
        end
      else Some lo
  end.
Definition FRONTIER_SEARCH : nat := 2100.
Fixpoint frontier_search (fuel : nat) (n : HistoryNode) (index : Z) : option bytes :=
  match fuel with
  | 0%nat => None
  | S fuel =>
      match get_by_index (h_index n) index with
      | None => None
      | Some hash =>
          if bool_decide (is_Some (shielded_frontier_retained (h_db n) hash)) then Some hash
          else if index =? 0 then None else frontier_search fuel n (index - 1)
      end
  end.
Definition get_shielded_frontier_block_below_daa (n : HistoryNode) (daa : Z) : exec (option bytes) :=
  match get_tip (h_index n) with
  | None => Ok None
  | Some (tip, _) =>
      hi ← add_u 64 tip 1;
      match first_reaching (Z.to_nat hi) n daa 0 hi with
      | None => Ok None
      | Some lo =>
          if lo =? 0 then Ok None
          else
            let index := lo - 1 in
            match (own ← shielded_history_own_base n; get_by_hash (h_index n) own) with
            | Some own_index => if index <? own_index then Ok None else Ok (frontier_search FRONTIER_SEARCH n index)
            | None => Ok (frontier_search FRONTIER_SEARCH n index)
            end
      end
  end.

(** ** Backfill *)

(** The scores of neighbours in index order. *)
Definition rising (p : (Z * ShieldedChainBlockData) * (Z * ShieldedChainBlockData)) : bool :=
  let '((i, a), (j, b)) := p in
  negb (i =? j) && negb ((cbd_blue_score b <=? cbd_blue_score a) || (cbd_daa_score b <? cbd_daa_score a)).
Definition placed_ok (anchor : bytes) (ours_from : Z) (anchor_scores : Z * Z) (e : Z * ShieldedChainBlockData) : bool :=
  let '(index, r) := e in
  let at_anchor := index =? ours_from in
  negb (cbd_blue_score r <? index) && Bool.eqb at_anchor (bool_decide (cbd_hash r = anchor)) &&
  (if at_anchor then bool_decide ((cbd_blue_score r, cbd_daa_score r) = anchor_scores)
   else negb ((anchor_scores.1 <=? cbd_blue_score r) || (anchor_scores.2 <? cbd_daa_score r))) &&
  match headers (cbd_hash r) with
  | Some h => bool_decide ((ch_blue_score h, ch_daa_score h) = (cbd_blue_score r, cbd_daa_score r))
  | None => true
  end.
(** The refusals of one record, with the hashes seen before it. *)
Definition check_record (n : HistoryNode) (ours_from shift : Z) (seen : gset bytes) (e : Z * ShieldedChainBlockData) : res () (gset bytes) :=
  let '(index, r) := e in
  if ours_from <? index then Ok seen
  else if bool_decide (cbd_hash r ∈ seen) then Err ()
  else
    _ ← match get_by_hash (h_index n) (cbd_hash r) with
        | Some existing => i ← add_u 64 existing shift; if i =? index then Ok () else Err ()
        | None => Ok ()
        end;
    if negb (bool_decide (cbd_coinbase_commitments r = [])) && negb (Zlength (cbd_coinbase_commitments r) =? Zlength (cbd_coinbase_outputs r)) then Err ()
    else if existsb (λ a, negb ((length a mod COMPACT_ACTION_LEN =? 0)%nat)) (cbd_accepted_actions r) then Err ()
    else Ok ({[cbd_hash r]} ∪ seen).

(** One record of the write loop. *)
Definition store_record (db : Db) (ours_from : Z) (s : SelectedChain * WriteBatch * Z * Z) (e : Z * ShieldedChainBlockData) : SelectedChain * WriteBatch * Z * Z :=
  let '(sc, batch, idx_written, rec_written) := s in
  let '(index, r) := e in
  if ours_from <? index then s
  else
    let '(sc, idx_written) := if index <? ours_from then (write_entry sc index (cbd_hash r), idx_written + 1) else (sc, idx_written) in
    if bool_decide (ScanStore.get db (cbd_hash r) = None) then
      let accepted := zip_with (λ a t, mk_scan_tx t a) (cbd_accepted_actions r) (cbd_accepted_txids r) in
      let data := mk_scan (cbd_blue_score r) (cbd_daa_score r) (cbd_timestamp r) (cbd_coinbase_txid r) (cbd_coinbase_outputs r) (cbd_coinbase_commitments r) accepted in
      (sc, persist_backfilled_scan batch (cbd_hash r) data, idx_written, rec_written + 1)
    else (sc, batch, idx_written, rec_written).

Definition backfill_shielded_history (n : HistoryNode) (anchor : bytes) (anchor_index : Z) (records : list (Z * ShieldedChainBlockData))
  : res () (HistoryNode * (Z * Z)) :=
  if bool_decide (records = []) then Ok (n, (0, 0))
  else
    let sc := h_index n in
    let db := h_db n in
    '(local_tip, _) ← unwrap (get_tip sc);
    local_anchor_index ← ok_or (get_by_hash sc anchor) ();
    let shift := saturating_sub anchor_index local_anchor_index in
    _ ← (if 0 <? shift then
           h ← ok_or (headers anchor) ();
           if ch_blue_score h <? anchor_index then Err () else Ok ()
         else Ok ());
    let ours_from := anchor_index in
    anchor_scores ← match headers anchor with
                    | Some h => Ok (ch_blue_score h, ch_daa_score h)
                    | None => match ScanStore.get db anchor with
                              | Some d => Ok (scan_blue_score d, scan_daa_score d)
                              | None => Err ()
                              end
                    end;
    let placed := merge_sort index_le (filter (λ e, e.1 <= ours_from) records) in
    if negb (forallb rising (zip placed (tail placed))) then Err ()
    else if negb (forallb (placed_ok anchor ours_from anchor_scores) placed) then Err ()
    else
      _ ← res_foldl (check_record n ours_from shift) ∅ records;
      let record_own_base := if h_backfilled n then None else get_by_index sc 0 in
      sc ← map_err (λ e : Empty_set, match e with end)
             (if 0 <? shift then
                sc ← res_foldl (rebase_up shift) sc (reverse (seqZ 0 (local_tip + 1)));
                highest ← add_u 64 local_tip shift;
                Ok (set_highest_index sc highest)
              else Ok sc);
      let '(sc, batch, idx_written, rec_written) := foldl (store_record db ours_from) (sc, [], 0, 0) records in
      let n' := if 0 <? idx_written
                then mk_history sc (write db batch) true (match record_own_base with Some own => Some own | None => h_own_base n end) (h_verified_base n)
                else mk_history sc (write db batch) (h_backfilled n) (h_own_base n) (h_verified_base n) in
      Ok (n', (idx_written, rec_written)).

(** ** Purge *)

Definition purge_entry (db : Db) (s : SelectedChain * WriteBatch * Z) (index : Z) : SelectedChain * WriteBatch * Z :=
  let '(sc, batch, discarded) := s in
  match get_by_index sc index with
  | Some hash =>
      let '(batch, discarded) := if bool_decide (ScanStore.get db hash = None) then (batch, discarded) else (delete_backfilled_scan batch hash, discarded + 1) in
      (delete_entry sc index hash, batch, discarded)
  | None => s
  end.
Definition purge_backfilled_shielded_history (n : HistoryNode) (base : bytes) : res () (HistoryNode * Z) :=
  let own_base := shielded_history_own_base n in
  let base := default base own_base in
  match get_by_hash (h_index n) base with
  | None => Ok (n, 0)
  | Some base_index =>
      if base_index =? 0 then
        if (bool_decide (is_Some own_base) || h_backfilled n) && bool_decide (h_verified_base n = None)
        then Ok (clear_shielded_history_backfill n, 0) else Ok (n, 0)
      else
        '(tip, _) ← ok_or (get_tip (h_index n)) ();
        let '(sc, batch, discarded) := foldl (purge_entry (h_db n)) (h_index n, [], 0) (seqZ 0 base_index) in
        sc ← map_err (λ e : Empty_set, match e with end) (res_foldl (rebase_down base_index) sc (seqZ base_index (tip - base_index + 1)));
        highest ← sub_u tip base_index;
        Ok (clear_shielded_history_backfill (mk_history (set_highest_index sc highest) (write (h_db n) batch) (h_backfilled n) (h_own_base n) (h_verified_base n)), discarded)
  end.

(** ** Verification *)

(** The scores of the records rise from index to index; the verdict when they do not, or when an index is missing. *)
Fixpoint scores_loop (n : HistoryNode) (index : Z) (count : nat) (last : option (Z * Z)) : option ShieldedHistoryVerdict :=
  match count with
  | 0%nat => None
  | S count =>
      match get_by_index (h_index n) index with
      | None => Some Unverifiable
      | Some hash =>
          match ScanStore.get (h_db n) hash with
          | None => scores_loop n (index + 1) count last
          | Some d =>
              if match last with Some (lb, ld) => (scan_blue_score d <=? lb) || (scan_daa_score d <? ld) | None => false end then Some Mismatch
              else scores_loop n (index + 1) count (Some (scan_blue_score d, scan_daa_score d))
          end
      end
  end.
Fixpoint pruning_points_loop (n : HistoryNode) (base_index : Z) (last_pp_index : option Z) (pps : list (bytes * CompactHeaderData)) : option ShieldedHistoryVerdict :=
  match pps with
  | [] => None
  | (pp_hash, h) :: pps =>
      match get_by_hash (h_index n) pp_hash with
      | None => Some Mismatch
      | Some index =>
          if match last_pp_index with Some l => index <=? l | None => false end then Some Mismatch
          else if base_index <? index then pruning_points_loop n base_index (Some index) pps
          else
            match ScanStore.get (h_db n) pp_hash with
            | Some d =>
                if bool_decide ((scan_blue_score d, scan_daa_score d) = (ch_blue_score h, ch_daa_score h)) then pruning_points_loop n base_index (Some index) pps
                else Some Mismatch
            | None => pruning_points_loop n base_index (Some index) pps
            end
      end
  end.

Definition SHIELDED_REPLAY_CHECKPOINT_INTERVAL : Z := 1000.
(** The leaves of one block: the commitments derived from its coinbase outputs, then its actions. *)
Definition replay_item (n : HistoryNode) (index : Z) : res () (option bytes * list bytes * list bytes) :=
  hash ← ok_or (get_by_index (h_index n) index) ();
  match ScanStore.get (h_db n) hash with
  | None => Ok (None, [], [])
  | Some d =>
      let label := if index mod SHIELDED_REPLAY_CHECKPOINT_INTERVAL =? 0 then Some hash else None in
      let seed_block := if is_active shielded_coinbase_seed_activation (scan_daa_score d) then Some hash else None in
      ns ← map_err (λ _, ()) (coinbase_notes_from_outputs blake2b_64 blake2b_32 (scan_coinbase_txid d) (scan_coinbase_outputs d) seed_block);
      let coinbase := (λ c, cmx_to_bytes (note_commitment c)) <$> ns in
      if negb (bool_decide (scan_coinbase_commitments d = [])) && negb (bool_decide (scan_coinbase_commitments d = coinbase)) then Err ()
      else Ok (label, coinbase, action_bytes <$> scan_accepted d)
  end.
(** The nullifiers of an item. *)
Definition item_nullifiers (item : res () (option bytes * list bytes * list bytes)) : list bytes :=
  match item with
  | Ok (_, _, accepted) => actions ← accepted; take 32 <$> chunks_exact COMPACT_ACTION_LEN actions
  | _ => []
  end.

Definition verify_shielded_history (n : HistoryNode) (pps : list (bytes * CompactHeaderData)) (base : bytes) : res () (HistoryNode * ShieldedHistoryVerdict) :=
  let expected := TreeStore.get (h_db n) base in
  if fs_size expected =? 0 then Ok (n, Unverifiable)
  else match get_by_hash (h_index n) base with
  | None => Ok (n, Unverifiable)
  | Some base_index =>
      if base_index =? 0 then Ok (n, Unverifiable)
      else match scores_loop n 0 (Z.to_nat (base_index + 1)) None with
      | Some v => Ok (n, v)
      | None =>
          match pruning_points_loop n base_index None pps with
          | Some v => Ok (n, v)
          | None =>
              let stream := replay_item n <$> seqZ 0 (base_index + 1) in
              let '(checkpoints, replayed) := replay_frontier_streaming_capturing stream in
              nullifier_acc ← muhash_of muhash_new (stream ≫= item_nullifiers);
              expected_nullifiers ← muhash_root (MuHashStore.get (h_db n) base);
              match replayed with
              | Ok (frontier, leaves) =>
                  if bool_decide (frontier = expected) then
                    h ← muhash_root nullifier_acc;
                    if bool_decide (h = expected_nullifiers) then
                      let batch := foldl (λ batch '(hash, f), persist_replayed_frontier batch hash f) [] checkpoints in
                      Ok (mk_history (h_index n) (write (h_db n) batch) (h_backfilled n) (h_own_base n) (Some base), Verified (base_index + 1) leaves)
                    else Ok (n, Mismatch)
                  else Ok (n, Mismatch)
              | Err (ReplayData _) => Ok (n, Mismatch)
              | Err ReplaySource => Ok (n, Unverifiable)
              | Panic => Panic
              end
          end
      end
  end.
End history.
