(* ===== verification/WalletStart.v ===== *)
(** The block a wallet with a birthday starts from: the binary search over the chain index and the walk back to a retained frontier. *)
From stdpp Require Import base gmap list.
From S2P Require Import Prelude Tree Tx Encoding ShieldedStores ShieldedManager SelectedChain History.

Section wallet_start.
Context (genesis : bytes) (shielded_coinbase : bool) (headers : bytes → option CompactHeaderData).
Abbreviation retained db b := (is_Some (shielded_frontier_retained genesis shielded_coinbase db b)).
Abbreviation locate := (get_shielded_frontier_block_below_daa headers genesis shielded_coinbase).

(** Every index up to [tip] holds a block whose DAA score is known, [d]. *)
Definition dated (n : HistoryNode) (tip : Z) (d : Z → Z) : Prop := ∀ i, 0 <= i <= tip → ∃ h, get_by_index (h_index n) i = Some h ∧ daa_of headers n i = Some (h, d i).
(** The block at index [i] has no frontier. *)
Definition bare (n : HistoryNode) (i : Z) : Prop := ∀ h, get_by_index (h_index n) i = Some h → ¬ retained (h_db n) h.

Lemma first_reaching_ok n tip d daa : dated n tip d → (∀ i j, i <= j → d i <= d j) → ∀ fuel lo hi, 0 <= lo <= hi → hi <= tip + 1 → hi - lo <= Z.of_nat fuel →
  (∀ i, 0 <= i < lo → d i < daa) → (∀ i, hi <= i <= tip → daa <= d i) →
  ∃ k, first_reaching headers fuel n daa lo hi = Some k ∧ lo <= k <= hi ∧ ∀ i, 0 <= i <= tip → d i < daa ↔ i < k.
Proof.
  intros Hd Hm. induction fuel as [|fuel IH]; intros lo hi Hlo Hhi Hf Hbelow Habove; cbn [first_reaching].
  - exists lo. split; [done|]. split; [lia|]. intros i Hi. destruct (Z.lt_ge_cases i lo); [specialize (Hbelow i); lia|specialize (Habove i); lia].
  - destruct (Z.ltb_spec lo hi).
    + set (mid := lo + (hi - lo) / 2). assert (lo <= mid < hi) as Hmid by (unfold mid; split; [pose proof (Z.div_pos (hi - lo) 2)|pose proof (Z.div_lt (hi - lo) 2)]; lia).
      destruct (Hd mid) as (h & _ & ->); [lia|]. destruct (Z.leb_spec daa (d mid)) as [Hle|Hlt].
      * destruct (IH lo mid) as (k & E & Hk & H'); [lia..|done| |exists k; split; [done|]; split; [lia|done]]. intros i Hi. pose proof (Hm mid i). lia.
      * destruct (IH (mid + 1) hi) as (k & E & Hk & H'); [lia..| |done|exists k; split; [done|]; split; [lia|done]]. intros i Hi. pose proof (Hm i mid). lia.
    + exists lo. split; [done|]. split; [lia|]. intros i Hi. destruct (Z.lt_ge_cases i lo); [specialize (Hbelow i); lia|specialize (Habove i); lia].
Qed.
Lemma frontier_search_ok n : ∀ fuel index, 0 <= index → (∀ i, 0 <= i <= index → is_Some (get_by_index (h_index n) i)) →
  match frontier_search genesis shielded_coinbase fuel n index with
  | Some b => ∃ i, 0 <= i <= index ∧ index - Z.of_nat fuel < i ∧ get_by_index (h_index n) i = Some b ∧ retained (h_db n) b ∧ ∀ j, i < j <= index → bare n j
  | None => ∀ j, 0 <= j <= index → index - Z.of_nat fuel < j → bare n j
  end.
Proof.
  induction fuel as [|fuel IH]; intros index H0 Hix; cbn [frontier_search]; [intros j Hj Hf; lia|].
  destruct (Hix index) as [h Hh]; [lia|]. rewrite Hh. case_bool_decide as Hr; [exists index; split_and!; [lia..|done|done|intros j Hj; lia]|].
  assert (bare n index) as Hb by (intros h' Hh'; rewrite Hh in Hh'; by injection Hh' as <-).
  destruct (Z.eqb_spec index 0) as [->|Hne].
  - intros j Hj _. by replace j with 0 by lia.
  - specialize (IH (index - 1) ltac:(lia) ltac:(intros i Hi; apply Hix; lia)). destruct (frontier_search _ _ fuel n (index - 1)) as [b|].
    + destruct IH as (i & Hi & Hf & Hg & Hrb & Hbare). exists i. split_and!; [lia..|done|done|]. intros j Hj. destruct (decide (j = index)) as [->|]; [done|apply Hbare; lia].
    + intros j Hj Hf. destruct (decide (j = index)) as [->|]; [done|apply IH; lia].
Qed.

(** C29. The block a wallet with birthday [daa] starts from is found by a search that always returns: it is the highest block that keeps a frontier among
    the 2100 below the first block that reaches the birthday, so no note received since the birthday is behind it; and where the node's index holds
    peers' history it is never a block below the node's own lowest, whose frontier is kept. *)
Theorem wallet_start_exact n tip htip d daa : get_tip (h_index n) = Some (tip, htip) → 0 <= tip < 2 ^ 64 - 1 → dated n tip d → (∀ i j, i <= j → d i <= d j) →
  ∃ k r, (∀ i, 0 <= i <= tip → d i < daa ↔ i < k) ∧ 0 <= k <= tip + 1 ∧ locate n daa = Ok r ∧
  match r with
  | Some b => ∃ i, 0 <= i < k ∧ k - 2100 <= i ∧ get_by_index (h_index n) i = Some b ∧ retained (h_db n) b ∧ (∀ j, i < j < k → bare n j) ∧
      ∀ own oi, shielded_history_own_base n = Some own → get_by_hash (h_index n) own = Some oi → get_by_index (h_index n) oi = Some own → retained (h_db n) own → oi <= i
  | None => k = 0 ∨ (∃ own oi, shielded_history_own_base n = Some own ∧ get_by_hash (h_index n) own = Some oi ∧ k <= oi) ∨ ∀ j, 0 <= j < k → k - 2100 <= j → bare n j
  end.
Proof.
  intros Ht Htip Hd Hm. destruct (first_reaching_ok n tip d daa Hd Hm (Z.to_nat (tip + 1)) 0 (tip + 1)) as (k & E & Hk & Hdaa); [lia..|].
  exists k. unfold get_shielded_frontier_block_below_daa. rewrite Ht, (proj2 (add_u_ok 64 tip 1 (tip + 1))) by (split; [done|lia]). cbn [mbind res_bind]. rewrite E.
  destruct (Z.eqb_spec k 0) as [->|Hk0]; [exists None; split_and!; [done|lia..|done|by left]|].
  pose proof (frontier_search_ok n FRONTIER_SEARCH (k - 1) ltac:(lia)) as Hs. change (Z.of_nat FRONTIER_SEARCH) with 2100 in Hs.
  specialize (Hs ltac:(intros i Hi; destruct (Hd i) as (h & Hh & _); [lia|by exists h])).
  destruct (shielded_history_own_base n ≫= get_by_hash (h_index n)) as [oi|] eqn:Eo.
  - apply bind_Some in Eo as (own & Eown & Eoi). destruct (Z.ltb_spec (k - 1) oi); [exists None; split_and!; [done|lia..|done|right; left; exists own, oi; split_and!; [done..|lia]]|].
    exists (frontier_search genesis shielded_coinbase FRONTIER_SEARCH n (k - 1)). split_and!; [done|lia..|done|]. destruct (frontier_search _ _ _ n (k - 1)) as [b|].
    + destruct Hs as (i & Hi & Hf & Hg & Hr & Hb). exists i. split_and!; [lia..|done|done|intros j Hj; apply Hb; lia|]. intros own' oi' E1 E2 E3 Hro. rewrite Eown in E1. injection E1 as <-. rewrite Eoi in E2. injection E2 as <-.
      destruct (Z.le_gt_cases oi i); [done|]. by destruct (Hb oi ltac:(lia) own E3).
    + right. right. intros j Hj Hf. apply Hs; lia.
  - exists (frontier_search genesis shielded_coinbase FRONTIER_SEARCH n (k - 1)). split_and!; [done|lia..|done|]. destruct (frontier_search _ _ _ n (k - 1)) as [b|].
    + destruct Hs as (i & Hi & Hf & Hg & Hr & Hb). exists i. split_and!; [lia..|done|done|intros j Hj; apply Hb; lia|]. intros own' oi' E1 E2. rewrite E1 in Eo. cbn in Eo. congruence.
    + right. right. intros j Hj Hf. apply Hs; lia.
Qed.
End wallet_start.

(** Two blocks, a genesis at score 7 and its child at 8: a wallet born at 9 starts from the genesis, as the child has no frontier. *)
Definition two_blocks : HistoryNode := mk_history (mk_sc {[0 := [7]; 1 := [8]]} {[ [7] := 0; [8] := 1 ]} (Some 1)) (λ _, ∅) false None None.
Definition scored (b : bytes) : option CompactHeaderData := Some (mk_header 0 (from_be_bytes b) 0).
Lemma wallet_start_exact_witness : ∃ b, get_shielded_frontier_block_below_daa scored [7] true two_blocks 9 = Ok (Some b) ∧ get_by_index (h_index two_blocks) 0 = Some b.
Proof.
  destruct (wallet_start_exact [7] true scored two_blocks 1 [8] (λ i, 7 + i) 9 eq_refl ltac:(lia)) as (k & r & Hk & Hr & E & H).
  - intros i Hi. assert (i = 0 ∨ i = 1) as [-> | ->] by lia; [exists [7]|exists [8]]; split; reflexivity.
  - intros i j Hij. lia.
  - assert (k = 2) as -> by (pose proof (Hk 1); pose proof (Hk 0); lia). assert (¬ bare [7] true two_blocks 0) as Hb.
    { intros Hb. apply (Hb [7] eq_refl). exists TreeStore.frontier_default. reflexivity. }
    destruct r as [b|]; [|destruct H as [H|[(own & oi & H & _)|H]]; [done|done|by destruct (Hb (H 0 ltac:(lia) ltac:(lia)))]].
    destruct H as (i & Hi & _ & Hg & Hret & Hbare & _). exists b. split; [exact E|]. destruct (decide (i = 0)) as [->|]; [exact Hg|].
    assert (i = 1) as -> by lia. injection Hg as <-. by destruct Hret.
Defined.
