(* ===== verification/HistoryBackfill.v ===== *)
(** Placing a peer's history below the chain index, and discarding it again. *)
From stdpp Require Import base gmap list sorting.
From S2P Require Import Prelude Tree ShieldedState MuHash TxValidator ShieldedStores ShieldedManager ShieldedSnapshots CoinbaseNotes SelectedChain History.

Abbreviation record := (Z * ShieldedChainBlockData)%type.

(** The row a record is stored as. *)
Definition scan_row (r : ShieldedChainBlockData) : ShieldedScanBlockData :=
  mk_scan (cbd_blue_score r) (cbd_daa_score r) (cbd_timestamp r) (cbd_coinbase_txid r) (cbd_coinbase_outputs r) (cbd_coinbase_commitments r)
    (zip_with (λ a t, mk_scan_tx t a) (cbd_accepted_actions r) (cbd_accepted_txids r)).
Definition scan_puts (db : Db) (e : record) : WriteBatch :=
  if bool_decide (ScanStore.get db (cbd_hash e.2) = None) then [Put ShieldedScanBlock (cbd_hash e.2) (scan_row e.2)] else [].
Abbreviation hashes rs := ((λ e : record, cbd_hash e.2) <$> rs).

(** ** The write loop *)

Lemma store_filter db from rs : ∀ s, foldl (store_record db from) s rs = foldl (store_record db from) s (filter (λ e, e.1 <= from) rs).
Proof.
  induction rs as [|[i r] rs IH]; intros [[[sc b] x] y]; [done|]. cbn [foldl]. rewrite filter_cons. cbn [fst]. case_decide as Hi; [apply IH|].
  unfold store_record at 2. destruct (Z.ltb_spec from i); [apply IH|lia].
Qed.
Lemma store_loop db from rs : ∀ sc batch x y, mirrored sc → Forall (λ e, e.1 <= from) rs → NoDup rs.*1 → NoDup (hashes rs) →
  Forall (λ e, e.1 < from → hash_by_index sc !! e.1 = None ∧ index_by_hash sc !! cbd_hash e.2 = None) rs →
  ∃ sc', foldl (store_record db from) (sc, batch, x, y) rs =
      (sc', batch ++ (rs ≫= scan_puts db), x + Zlength (filter (λ e, e.1 < from) rs), y + Zlength (filter (λ e, ScanStore.get db (cbd_hash e.2) = None) rs)) ∧
    mirrored sc' ∧ highest_index sc' = highest_index sc ∧
    ∀ j h, hash_by_index sc' !! j = Some h ↔ hash_by_index sc !! j = Some h ∨ j < from ∧ ∃ r, (j, r) ∈ rs ∧ cbd_hash r = h.
Proof.
  induction rs as [|[i r] rs IH]; intros sc batch x y Hm Hle Hni Hnh Hfree.
  { exists sc. cbn. rewrite app_nil_r, !Z.add_0_r. split; [done|]. split; [done|]. split; [done|]. intros j h. split; [by left|]. intros [H|(_ & r & ?%elem_of_nil & _)]; done. }
  apply Forall_cons in Hle as [Hi Hle]. cbn [fst] in Hi. cbn [fmap list_fmap fst snd] in Hni, Hnh. apply NoDup_cons in Hni as [Hi' Hni]. apply NoDup_cons in Hnh as [Hh' Hnh].
  apply Forall_cons in Hfree as [Hf Hfree]. cbn [fst snd] in *. cbn [foldl mbind list_bind]. unfold store_record at 2. destruct (Z.ltb_spec from i); [lia|]. rewrite !filter_cons. cbn [fst snd].
  set (sc1 := if i <? from then write_entry sc i (cbd_hash r) else sc). set (x1 := x + if i <? from then 1 else 0).
  assert (mirrored sc1 ∧ highest_index sc1 = highest_index sc ∧
    ∀ j h, hash_by_index sc1 !! j = Some h ↔ hash_by_index sc !! j = Some h ∨ j < from ∧ j = i ∧ cbd_hash r = h) as (Hm1 & Hh1 & Hx1).
  { unfold sc1. destruct (Z.ltb_spec i from) as [Hlt|Hge]; [|split; [done|]; split; [done|]; intros j h; split; [by left|]; intros [?|(? & -> & _)]; [done|lia]].
    destruct (Hf Hlt) as [Hf1 Hf2]. split; [by apply write_entry_mirrored|]. split; [done|]. intros j h. cbn. rewrite lookup_insert_Some.
    split; [intros [[<- <-]|[Hne H']]; [by right|by left]|]. intros [H'|(_ & -> & <-)]; [|by left]. right. split; [|done]. intros ->. by rewrite Hf1 in H'. }
  destruct (IH sc1 (batch ++ scan_puts db (i, r)) x1 (y + if bool_decide (ScanStore.get db (cbd_hash r) = None) then 1 else 0)) as (sc' & E & Hm' & Hh2 & Hx2); [done|done|done|done| |].
  { apply Forall_forall. intros [j r'] Hin Hj. cbn [fst snd] in *. pose proof (proj1 (Forall_forall _ _) Hfree _ Hin Hj) as [F1 F2]. cbn [fst snd] in *. unfold sc1.
    destruct (Z.ltb_spec i from); [|done]. cbn. split.
    - rewrite lookup_insert_ne; [done|]. intros ->. apply Hi', list_elem_of_fmap. by exists (j, r').
    - rewrite lookup_insert_ne; [done|]. intros Eh. apply Hh', list_elem_of_fmap. exists (j, r'). by split. }
  exists sc'. split; [|split; [done|]; split; [congruence|]].
  - replace (match (if i <? from then _ else _) with (_, _) => _ end) with (sc1, batch ++ scan_puts db (i, r), x1, y + if bool_decide (ScanStore.get db (cbd_hash r) = None) then 1 else 0).
    + rewrite E, <- app_assoc. assert (x1 + Zlength (filter (λ e, e.1 < from) rs) =
        x + Zlength (if decide (i < from) then (i, r) :: filter (λ e, e.1 < from) rs else filter (λ e, e.1 < from) rs)) as ->.
      { unfold x1. destruct (Z.ltb_spec i from), (decide (i < from)); try lia. rewrite Zlength_cons. lia. }
      f_equal. case_bool_decide as Hd; case_decide; try done; [rewrite Zlength_cons|]; lia.
    + unfold sc1, x1, scan_puts. cbn [fst snd]. destruct (i <? from); case_bool_decide; rewrite ?app_nil_r, ?Z.add_0_r; done.
  - intros j h. rewrite Hx2, Hx1. setoid_rewrite elem_of_cons. naive_solver.
Qed.

(** ** What an accepted chunk satisfies *)

Lemma check_loop n from shift rs : ∀ seen seen', res_foldl (check_record n from shift) seen rs = Ok seen' →
  let ps := filter (λ e, e.1 <= from) rs in
  NoDup (hashes ps) ∧ (∀ e, e ∈ ps → cbd_hash e.2 ∉ seen) ∧ ∀ e x, e ∈ ps → get_by_hash (h_index n) (cbd_hash e.2) = Some x → x + shift = e.1.
Proof.
  induction rs as [|[i r] rs IH]; intros seen seen' H ps; unfold ps.
  { split; [constructor|]. split; [by intros e ?%elem_of_nil|by intros e x ?%elem_of_nil]. }
  cbn [res_foldl] in H. apply res_bind_ok in H as (seen1 & H1 & H2). rewrite filter_cons. cbn [fst]. unfold check_record in H1.
  destruct (Z.ltb_spec from i) as [Hlt|Hge].
  { injection H1 as <-. rewrite decide_False by lia. exact (IH _ _ H2). }
  rewrite decide_True by lia. case_bool_decide as Hs; [done|]. apply res_bind_ok in H1 as ([] & Hx & H1).
  assert (seen1 = {[cbd_hash r]} ∪ seen) as ->.
  { destruct (_ && _) in H1; [done|]. destruct (existsb _ _) in H1; [done|]. by injection H1. }
  destruct (IH _ _ H2) as (Hnd & Hns & Hex). split; [|split].
  - cbn [fmap list_fmap fst snd]. apply NoDup_cons. split; [|done]. intros (e & Eh & He)%list_elem_of_fmap. apply (Hns e He). set_solver.
  - intros e [->|He]%elem_of_cons; [done|]. intros Hin. apply (Hns e He). set_solver.
  - intros e x [->|He]%elem_of_cons Hg; [|by eapply Hex]. cbn [fst snd] in *. rewrite Hg in Hx. apply res_bind_ok in Hx as (k & [-> _]%add_u_ok & Hk).
    destruct (Z.eqb_spec (x + shift) i); done.
Qed.

Lemma rising_sorted (l : list record) : Sorted index_le l → forallb rising (zip l (tail l)) = true → Sorted (λ x y, x.1 < y.1) l.
Proof.
  induction 1 as [|x l Hs IH Hx]; intros Hr; [constructor|]. destruct l as [|y l]; [repeat constructor|]. cbn in Hr. apply andb_prop in Hr as [Hxy Hr].
  constructor; [by apply IH|]. inversion Hx as [|? ? Hle]; subst. constructor. destruct x as [i a], y as [j b]. cbn in *.
  apply andb_prop in Hxy as [Hne _]. apply negb_true_iff, Z.eqb_neq in Hne. unfold index_le in Hle. cbn in Hle. lia.
Qed.
Lemma rising_nodup (rs : list record) : forallb rising (zip (merge_sort index_le rs) (tail (merge_sort index_le rs))) = true → NoDup rs.*1.
Proof.
  intros H. apply rising_sorted in H; [|apply Sorted_merge_sort; intros x y; unfold index_le; lia].
  apply Sorted_StronglySorted in H; [|intros x y z; cbn; lia]. rewrite <- (merge_sort_Permutation index_le rs). induction H as [|x l H IH Hx]; [constructor|].
  cbn. constructor; [|done]. intros (y & Ey & Hy)%list_elem_of_fmap. pose proof (proj1 (Forall_forall _ _) Hx y Hy) as Hlt. cbn in Hlt. lia.
Qed.

Section backfill.
Context (headers : bytes → option CompactHeaderData).
Abbreviation backfill := (backfill_shielded_history headers).

(** The records of a chunk that are placed, and the number of indexes the node's entries move by. *)
Definition placed (anchor_index : Z) (rs : list record) : list record := filter (λ e, e.1 <= anchor_index) rs.
Definition shift_of (n : HistoryNode) (anchor : bytes) (anchor_index : Z) : Z := saturating_sub anchor_index (default 0 (get_by_hash (h_index n) anchor)).

Record chunk_ok (n : HistoryNode) (anchor : bytes) (anchor_index : Z) (rs : list record) : Prop := {
  ch_indexes : NoDup (placed anchor_index rs).*1;
  ch_hashes : NoDup (hashes (placed anchor_index rs));
  ch_existing e x : e ∈ placed anchor_index rs → get_by_hash (h_index n) (cbd_hash e.2) = Some x → x + shift_of n anchor anchor_index = e.1;
  ch_anchor e : e ∈ placed anchor_index rs → e.1 = anchor_index ↔ cbd_hash e.2 = anchor;
  ch_claim : 0 < shift_of n anchor anchor_index → ∃ h, headers anchor = Some h ∧ anchor_index <= ch_blue_score h;
}.
(** The index after the move, before the records are written. *)
Definition moved (n : HistoryNode) (shift : Z) : exec SelectedChain :=
  if 0 <? shift then
    local_tip ← unwrap (highest_index (h_index n));
    sc ← res_foldl (rebase_up shift) (h_index n) (reverse (seqZ 0 (local_tip + 1)));
    highest ← add_u 64 local_tip shift;
    Ok (set_highest_index sc highest)
  else Ok (h_index n).

Lemma backfill_inv n anchor anchor_index rs n' w : rs ≠ [] → backfill n anchor anchor_index rs = Ok (n', w) →
  ∃ a sc, get_by_hash (h_index n) anchor = Some a ∧ chunk_ok n anchor anchor_index rs ∧ moved n (shift_of n anchor anchor_index) = Ok sc ∧
    let s := foldl (store_record (h_db n) anchor_index) (sc, [], 0, 0) (placed anchor_index rs) in
    h_index n' = s.1.1.1 ∧ h_db n' = write (h_db n) s.1.1.2 ∧ w = (s.1.2, s.2) ∧ h_verified_base n' = h_verified_base n ∧
    h_backfilled n' = (0 <? s.1.2) || h_backfilled n ∧
    h_own_base n' = if 0 <? s.1.2 then match (if h_backfilled n then None else get_by_index (h_index n) 0) with Some own => Some own | None => h_own_base n end else h_own_base n.
Proof.
  intros Hne. unfold backfill_shielded_history. rewrite bool_decide_eq_false_2 by done. intros ([tip th] & Htip & H)%res_bind_ok.
  apply res_bind_ok in H as (a & Ha & H). destruct (get_by_hash (h_index n) anchor) as [a'|] eqn:Eg; [injection Ha as ->|done].
  apply res_bind_ok in H as ([] & Hclaim & H). apply res_bind_ok in H as (scores & _ & H). set (shift := saturating_sub anchor_index a) in *.
  assert (shift_of n anchor anchor_index = shift) as Es by (unfold shift_of; by rewrite Eg).
  destruct (forallb rising _) eqn:Hr; [|done]. destruct (forallb (placed_ok _ _ _ _) _) eqn:Hp; [|done]. cbn [negb] in H.
  apply res_bind_ok in H as (seen & Hc & H). apply res_bind_ok in H as (sc & Hsc & H). apply check_loop in Hc as (Hnd & _ & Hex).
  fold (placed anchor_index rs) in *. rewrite store_filter in H. fold (placed anchor_index rs) in H.
  exists a, sc. split; [done|]. split; [|split].
  - split; [by apply rising_nodup|done|by rewrite Es| |rewrite Es].
    + intros e He. rewrite forallb_forall in Hp. specialize (Hp e). rewrite <- list_elem_of_In, merge_sort_Permutation in Hp. specialize (Hp He). destruct e as [i r]. cbn in *.
      repeat (apply andb_prop in Hp as [Hp ?]). apply Bool.eqb_prop in H2. destruct (Z.eqb_spec i anchor_index) as [E|E]; symmetry in H2; [apply bool_decide_eq_true in H2|apply bool_decide_eq_false in H2]; done.
    + intros Hpos. destruct (Z.ltb_spec 0 shift); [|lia]. destruct (headers anchor) as [h|]; [|done]. exists h. split; [done|]. cbn in Hclaim. destruct (Z.ltb_spec (ch_blue_score h) anchor_index); [done|lia].
  - rewrite Es. unfold moved. unfold get_tip in Htip. destruct (highest_index (h_index n)) as [t|]; [|done]. cbn in Htip. destruct (hash_by_index (h_index n) !! t) as [th'|]; [|done]. injection Htip as -> ->.
    apply map_err_ok in Hsc. exact Hsc.
  - cbv zeta. destruct (foldl _ _ _) as [[[sc' batch] x] y]. cbn [fst snd]. injection H as <- <-. destruct (0 <? x); cbn; by repeat split.
Qed.

(** ** The index after a chunk *)

(** The anchor is the lowest block of the index, as the block a node asks below is. *)
Definition lowest (n : HistoryNode) (anchor : bytes) : Prop :=
  ∃ a, get_by_hash (h_index n) anchor = Some a ∧ ∀ i h, hash_by_index (h_index n) !! i = Some h → a <= i.

Lemma index_above sc own l i : index_of sc own l → own + Zlength l <= i → hash_by_index sc !! i = None.
Proof. intros H Hi. pose proof (Zlength_ge0 l). rewrite (ix_own _ _ _ H) by lia. apply lookup_ge_None. unfold Zlength in *. lia. Qed.
Lemma index_ext sc sc' own l : index_of sc own l → mirrored sc' → highest_index sc' = highest_index sc → (∀ i, own <= i → hash_by_index sc' !! i = hash_by_index sc !! i) →
  (∀ i h, hash_by_index sc' !! i = Some h → 0 <= i) → index_of sc' own l.
Proof.
  intros H Hm Hh Hx Hl. split; [exact Hm|exact Hl| |rewrite Hh; exact (ix_highest _ _ _ H)|exact (ix_range _ _ _ H)]. intros i Hi. rewrite Hx by done. by apply (ix_own _ _ _ H).
Qed.
Lemma moved_ok n own l shift : index_of (h_index n) own l → 0 <= shift → own + Zlength l + shift <= 2 ^ 64 →
  ∃ sc, moved n shift = Ok sc ∧ index_of sc (own + shift) l ∧ ∀ i, hash_by_index sc !! i = if shift <=? i then hash_by_index (h_index n) !! (i - shift) else None.
Proof.
  intros H Hs Hb. unfold moved. destruct (Z.ltb_spec 0 shift) as [Hpos|Hz].
  - destruct (ix_range _ _ _ H) as (H0 & Hne & Hr). assert (0 < Zlength l) by (unfold Zlength; destruct l; [done|cbn; lia]). rewrite (ix_highest _ _ _ H). cbn [unwrap mbind res_bind].
    destruct (rebase_up_loop shift (h_index n) (Z.to_nat (own + Zlength l)) 0) as (sc & E & Hm & Hh & Hx); [done|exact (ix_mirror _ _ _ H)| |lia|].
    { intros i Hi. apply (index_above _ _ _ _ H). lia. }
    replace (own + Zlength l - 1 + 1) with (Z.of_nat (Z.to_nat (own + Zlength l))) by lia. rewrite E. cbn [mbind res_bind].
    rewrite (proj2 (add_u_ok _ _ _ _)) by (split; [reflexivity|lia]). cbn [mbind res_bind]. eexists. split; [reflexivity|].
    assert (∀ i, hash_by_index sc !! i = if shift <=? i then hash_by_index (h_index n) !! (i - shift) else None) as Hx'.
    { intros i. rewrite Hx, Z.add_0_l. destruct (Z.leb_spec shift i); [done|]. destruct (Z.ltb_spec i 0) as [Hneg|]; [|done].
      destruct (hash_by_index (h_index n) !! i) as [h|] eqn:Eh; [apply (ix_low _ _ _ H) in Eh; lia|done]. }
    split; [|exact Hx']. split; cbn [hash_by_index index_by_hash highest_index set_highest_index].
    + exact Hm.
    + intros i h. rewrite Hx'. destruct (Z.leb_spec shift i); [lia|done].
    + intros i Hi. rewrite Hx'. destruct (Z.leb_spec shift i); [|lia]. rewrite (ix_own _ _ _ H) by lia. f_equal. lia.
    + f_equal. lia.
    + split; [lia|]. split; [done|lia].
  - assert (shift = 0) as -> by lia. exists (h_index n). rewrite Z.add_0_r. split; [done|]. split; [done|]. intros i. rewrite Z.sub_0_r. destruct (Z.leb_spec 0 i); [done|].
    destruct (hash_by_index (h_index n) !! i) as [h|] eqn:Eh; [apply (ix_low _ _ _ H) in Eh; lia|done].
Qed.

Lemma moved_room n own l shift sc : index_of (h_index n) own l → 0 <= shift → moved n shift = Ok sc → own + Zlength l + shift <= 2 ^ 64.
Proof.
  intros H Hs. unfold moved. destruct (Z.ltb_spec 0 shift); [|destruct (ix_range _ _ _ H) as (_ & _ & ?); lia]. rewrite (ix_highest _ _ _ H).
  intros (t & [= <-] & Hm)%res_bind_ok. apply res_bind_ok in Hm as (sc1 & _ & Hm). apply res_bind_ok in Hm as (t' & [_ Ht]%add_u_ok & _). lia.
Qed.

Record chunk_effect (n n' : HistoryNode) (anchor : bytes) (anchor_index : Z) (rs : list record) (idx rec : Z) : Prop := {
  ce_index j h : hash_by_index (h_index n') !! j = Some h ↔
    hash_by_index (h_index n) !! (j - shift_of n anchor anchor_index) = Some h ∨ j < anchor_index ∧ ∃ r, (j, r) ∈ placed anchor_index rs ∧ cbd_hash r = h;
  ce_db : h_db n' = write (h_db n) (placed anchor_index rs ≫= scan_puts (h_db n));
  ce_written : idx = Zlength (filter (λ e, e.1 < anchor_index) (placed anchor_index rs));
  ce_records : rec = Zlength (filter (λ e, ScanStore.get (h_db n) (cbd_hash e.2) = None) (placed anchor_index rs));
  ce_verified : h_verified_base n' = h_verified_base n;
  ce_backfilled : h_backfilled n' = (0 <? idx) || h_backfilled n;
  ce_own_base : h_own_base n' = if 0 <? idx then match (if h_backfilled n then None else get_by_index (h_index n) 0) with Some own => Some own | None => h_own_base n end else h_own_base n;
}.

(** An accepted chunk leaves the node's own chain as it is, moved up by the shift. *)
Lemma backfill_effect n own l anchor anchor_index rs n' idx rec : index_of (h_index n) own l → lowest n anchor → rs ≠ [] → Forall (λ e, 0 <= e.1) rs →
  backfill n anchor anchor_index rs = Ok (n', (idx, rec)) →
  index_of (h_index n') (own + shift_of n anchor anchor_index) l ∧ chunk_ok n anchor anchor_index rs ∧ chunk_effect n n' anchor anchor_index rs idx rec.
Proof.
  intros H (a & Ha & Hlow) Hne Hpos Hbf. destruct (backfill_inv _ _ _ _ _ _ Hne Hbf) as (a' & sc & Ha' & Hok & Hmv & Hs). rewrite Ha in Ha'. injection Ha' as <-.
  set (shift := shift_of n anchor anchor_index) in *. assert (0 <= shift ∧ anchor_index <= a + shift) as [Hs0 Hsa] by (unfold shift, shift_of, saturating_sub; rewrite Ha; cbn; lia).
  destruct (moved_ok n own l shift H Hs0 (moved_room _ _ _ _ _ H Hs0 Hmv)) as (sc' & E & H' & Hx). rewrite Hmv in E. injection E as <-.
  assert (a <= own) as Hao. { destruct (ix_range _ _ _ H) as (_ & Hl & _). destruct l as [|h0 l]; [done|]. apply (Hlow own h0). rewrite (ix_own _ _ _ H), Z.sub_diag by lia. done. }
  destruct (store_loop (h_db n) anchor_index (placed anchor_index rs) sc [] 0 0) as (sc' & E & Hm & Hh & Hx').
  { exact (ix_mirror _ _ _ H'). } { apply Forall_forall. intros e He. by apply list_elem_of_filter in He as [? _]. } { apply Hok. } { apply Hok. }
  { apply Forall_forall. intros e He Hlt. assert (hash_by_index sc !! e.1 = None) as Hfree.
    { rewrite Hx. destruct (Z.leb_spec shift e.1); [|done]. destruct (hash_by_index (h_index n) !! (e.1 - shift)) as [h|] eqn:Eh; [apply Hlow in Eh; lia|done]. }
    split; [done|]. destruct (index_by_hash sc !! cbd_hash e.2) as [i|] eqn:Ei; [|done]. apply (ix_mirror _ _ _ H') in Ei as Ej. rewrite Hx in Ej.
    destruct (Z.leb_spec shift i); [|done]. apply (ix_mirror _ _ _ H) in Ej. apply (ch_existing _ _ _ _ Hok e _ He) in Ej. fold shift in Ej. replace e.1 with i in Hfree by lia.
    apply (ix_mirror _ _ _ H') in Ei. congruence. }
  rewrite E in Hs. cbn [fst snd] in Hs. destruct Hs as (S1 & S2 & [= -> ->] & S4 & S5 & S6). rewrite Z.add_0_l in *.
  assert (∀ e, e ∈ placed anchor_index rs → 0 <= e.1) as Hge by (intros e [_ He]%list_elem_of_filter; by apply (proj1 (Forall_forall _ _) Hpos)).
  split; [|split; [done|split]]; try done.
  - rewrite S1. apply (index_ext sc); [done|done|done| |].
    + intros i Hi. apply option_eq. intros h. rewrite Hx'. split; [|by left]. intros [|(Hlt & _)]; [done|lia].
    + intros i h. rewrite Hx'. intros [Hi|(_ & r & Hr & _)]; [by apply (ix_low _ _ _ H') in Hi|by apply (Hge (i, r))].
  - intros j h. rewrite S1, Hx', Hx. fold shift. destruct (Z.leb_spec shift j); [done|]. split; [intros [|]; [done|by right]|]. intros [Hj|]; [|by right]. apply (ix_low _ _ _ H) in Hj. lia.
Qed.
End backfill.

(** ** The records after a chunk *)

Lemma scan_puts_untouched db h (ps : list record) : (h ∉ hashes ps ∨ ScanStore.get db h ≠ None) → Forall (λ op, ¬ op_touches ShieldedScanBlock h op) (ps ≫= scan_puts db).
Proof.
  intros Hh. induction ps as [|e ps IH]; [constructor|]. cbn [mbind list_bind]. apply Forall_app. split; [|apply IH; set_solver].
  unfold scan_puts. case_bool_decide as Hd; [|constructor]. constructor; [|constructor]. intros [_ E]. cbn in E. subst h. destruct Hh as [Hh|Hh]; [set_solver|done].
Qed.
Lemma scan_row_same db h (ps : list record) : h ∉ hashes ps ∨ ScanStore.get db h ≠ None → ScanStore.get (write db (ps ≫= scan_puts db)) h = ScanStore.get db h.
Proof. intros H. exact (write_other db _ ShieldedScanBlock h (scan_puts_untouched db h ps H)). Qed.
Lemma scan_row_new db i r (ps : list record) : NoDup (hashes ps) → (i, r) ∈ ps → ScanStore.get db (cbd_hash r) = None →
  ScanStore.get (write db (ps ≫= scan_puts db)) (cbd_hash r) = Some (scan_row r).
Proof.
  intros Hnd (ps1 & ps2 & ->)%list_elem_of_split Hnone. rewrite fmap_app, fmap_cons in Hnd. apply NoDup_app in Hnd as (_ & _ & [Hn _]%NoDup_cons). cbn [snd] in Hn.
  rewrite bind_app, bind_cons. unfold scan_puts at 2. cbn [snd]. rewrite bool_decide_eq_true_2 by done.
  exact (write_put_mid db _ ShieldedScanBlock _ _ _ (scan_puts_untouched db _ ps2 (or_introl Hn))).
Qed.
Lemma other_rows db t k (ps : list record) : t ≠ ShieldedScanBlock → write db (ps ≫= scan_puts db) t !! k = db t !! k.
Proof.
  intros Ht. apply write_other. induction ps as [|e ps IH]; [constructor|]. cbn [mbind list_bind]. apply Forall_app. split; [|done].
  unfold scan_puts. case_bool_decide; [|constructor]. constructor; [|constructor]. intros [E _]. by cbn in E.
Qed.

(** ** Purge *)

Lemma index_drop sc own l k : index_of sc own l → (k < length l)%nat → index_of sc (own + Z.of_nat k) (drop k l).
Proof.
  intros H Hk. destruct (ix_range _ _ _ H) as (H0 & Hne & Hr). split; [exact (ix_mirror _ _ _ H)|exact (ix_low _ _ _ H)|..].
  - intros i Hi. rewrite (ix_own _ _ _ H), lookup_drop by lia. f_equal. lia.
  - rewrite (ix_highest _ _ _ H). f_equal. unfold Zlength. rewrite length_drop. lia.
  - split; [lia|]. split; [intros E; apply (f_equal length) in E; rewrite length_drop in E; cbn in E; lia|]. unfold Zlength in *. rewrite length_drop. lia.
Qed.
(** The blocks indexed below [m] and the deletes of their records. *)
Definition below (sc : SelectedChain) (m : nat) : list bytes := omap (λ i, hash_by_index sc !! i) (seqZ 0 (Z.of_nat m)).
Lemma elem_of_below sc m h : h ∈ below sc m ↔ ∃ i, 0 <= i < Z.of_nat m ∧ hash_by_index sc !! i = Some h.
Proof. unfold below. rewrite list_elem_of_omap. setoid_rewrite elem_of_seqZ. naive_solver lia. Qed.
Definition scan_deletes (db : Db) (h : bytes) : WriteBatch := if bool_decide (ScanStore.get db h = None) then [] else [Delete ShieldedScanBlock h].

Lemma purge_loop db sc m : mirrored sc → ∃ sc' d, foldl (purge_entry db) (sc, [], 0) (seqZ 0 (Z.of_nat m)) = (sc', below sc m ≫= scan_deletes db, d) ∧ mirrored sc' ∧
  highest_index sc' = highest_index sc ∧ ∀ i, hash_by_index sc' !! i = if (0 <=? i) && (i <? Z.of_nat m) then None else hash_by_index sc !! i.
Proof.
  intros Hm. induction m as [|m (sc1 & d & E & Hm1 & Hh1 & Hx1)].
  { exists sc, 0. split; [done|]. split; [done|]. split; [done|]. intros i. destruct (Z.leb_spec 0 i), (Z.ltb_spec i (Z.of_nat 0)); lia || done. }
  unfold below. replace (Z.of_nat (S m)) with (Z.of_nat m + 1) by lia. rewrite seqZ_app by lia. rewrite omap_app, bind_app, foldl_app. fold (below sc m). rewrite E.
  change (seqZ (0 + Z.of_nat m) 1) with [Z.of_nat 0 + (0 + Z.of_nat m)]. rewrite !Z.add_0_l. cbn [foldl omap list_omap].
  assert (hash_by_index sc1 !! Z.of_nat m = hash_by_index sc !! Z.of_nat m) as Em by (rewrite Hx1; destruct (Z.leb_spec 0 (Z.of_nat m)), (Z.ltb_spec (Z.of_nat m) (Z.of_nat m)); lia || done).
  unfold purge_entry, get_by_index. rewrite Em. destruct (hash_by_index sc !! Z.of_nat m) as [h|] eqn:Eh.
  - exists (delete_entry sc1 (Z.of_nat m) h), (if bool_decide (ScanStore.get db h = None) then d else d + 1). cbn [mbind list_bind]. rewrite app_nil_r.
    split; [unfold scan_deletes, delete_backfilled_scan, ScanStore.delete_batch; case_bool_decide; by rewrite ?app_nil_r|]. split; [by apply delete_entry_mirrored|]. split; [done|]. intros i. cbn.
    destruct (decide (i = Z.of_nat m)) as [->|Hne]; [rewrite lookup_delete_eq|rewrite lookup_delete_ne, Hx1 by done]; destruct (Z.leb_spec 0 i) || destruct (Z.leb_spec 0 (Z.of_nat m)); cbn; try done; try lia.
    + destruct (Z.ltb_spec (Z.of_nat m) (Z.of_nat m + 1)); lia || done.
    + destruct (Z.ltb_spec i (Z.of_nat m)), (Z.ltb_spec i (Z.of_nat m + 1)); lia || done.
  - exists sc1, d. cbn [mbind list_bind]. rewrite app_nil_r. split; [done|]. split; [done|]. split; [done|]. intros i. rewrite Hx1.
    destruct (Z.leb_spec 0 i); cbn; [|done]. destruct (Z.ltb_spec i (Z.of_nat m)), (Z.ltb_spec i (Z.of_nat m + 1)); try lia; try done. by replace i with (Z.of_nat m) by lia.
Qed.
Lemma delete_row db h h' : ScanStore.get (write db [Delete ShieldedScanBlock h]) h' = if decide (h' = h) then None else ScanStore.get db h'.
Proof.
  unfold ScanStore.get. cbn [write foldl apply_op]. rewrite set_table_same. destruct (decide (h' = h)) as [->|Hne]; [exact (lookup_delete_eq (db ShieldedScanBlock) h)|].
  exact (lookup_delete_ne (db ShieldedScanBlock) h h' (not_eq_sym Hne)).
Qed.
Lemma deletes_rows db hs h : ∀ db0, ScanStore.get (write db0 (hs ≫= scan_deletes db)) h =
  if bool_decide (h ∈ hs ∧ ScanStore.get db h ≠ None) then None else ScanStore.get db0 h.
Proof.
  induction hs as [|x hs IH]; intros db0; [rewrite bool_decide_eq_false_2; [done|]; by intros [?%elem_of_nil _]|].
  rewrite bind_cons, write_app, IH. unfold scan_deletes. case_bool_decide as H1; [rewrite bool_decide_eq_true_2; [done|set_solver]|].
  destruct (bool_decide (ScanStore.get db x = None)) eqn:Hx; [apply bool_decide_eq_true in Hx|apply bool_decide_eq_false in Hx; rewrite delete_row; case_decide as Hh].
  - rewrite bool_decide_eq_false_2; [done|]. intros [[->|?]%elem_of_cons ?]; [done|]. by destruct H1.
  - subst x. rewrite bool_decide_eq_true_2; [done|]. split; [left|done].
  - rewrite bool_decide_eq_false_2; [done|]. intros [[->|?]%elem_of_cons ?]; [done|]. by destruct H1.
Qed.
Lemma deletes_other_rows db hs t k : t ≠ ShieldedScanBlock → ∀ db0, write db0 (hs ≫= scan_deletes db) t !! k = db0 t !! k.
Proof.
  intros Ht db0. apply write_other. induction hs as [|h hs IH]; [constructor|]. rewrite bind_cons. apply Forall_app. split; [|done].
  unfold scan_deletes. case_bool_decide; [constructor|]. constructor; [|constructor]. intros [E _]. by cbn in E.
Qed.

(** What a purge down to index [m] does. *)
Record purged (n n' : HistoryNode) (m : nat) : Prop := {
  pu_flags : h_backfilled n' = false ∧ h_own_base n' = None ∧ h_verified_base n' = None;
  pu_records h : ScanStore.get (h_db n') h = if bool_decide (h ∈ below (h_index n) m) then None else ScanStore.get (h_db n) h;
  pu_rows t k : t ≠ ShieldedScanBlock → h_db n' t !! k = h_db n t !! k;
}.
(** A purge to a block of the chain makes it the lowest block: the blocks below leave the index, and their records go with them. *)
Lemma purge_ok n own l base k : index_of (h_index n) own l → l !! k = Some (default base (shielded_history_own_base n)) → 0 < own + Z.of_nat k →
  ∃ n' d, purge_backfilled_shielded_history n base = Ok (n', d) ∧ index_of (h_index n') 0 (drop k l) ∧
    (∀ i h, hash_by_index (h_index n') !! i = Some h → 0 <= i) ∧ purged n n' (Z.to_nat (own + Z.of_nat k)).
Proof.
  intros H Hk Hpos. pose proof (index_lookup _ _ _ _ _ H Hk) as Hb. apply lookup_lt_Some in Hk as Hl. pose proof (index_drop _ _ _ _ H Hl) as Hd.
  set (base_index := own + Z.of_nat k) in *. unfold purge_backfilled_shielded_history, get_by_hash. rewrite Hb. destruct (Z.eqb_spec base_index 0); [lia|].
  assert (∃ h, get_tip (h_index n) = Some (base_index + Zlength (drop k l) - 1, h)) as [th ->].
  { unfold get_tip. rewrite (ix_highest _ _ _ Hd). cbn. destruct (ix_range _ _ _ Hd) as (_ & Hne & _). rewrite (ix_own _ _ _ Hd) by (unfold Zlength; destruct (drop k l); [done|cbn; lia]).
    destruct (lookup_lt_is_Some_2 (drop k l) (Z.to_nat (base_index + Zlength (drop k l) - 1 - base_index))) as [h ->]; [unfold Zlength; destruct (drop k l); [done|cbn; lia]|by exists h]. }
  cbn [ok_or mbind res_bind].
  destruct (purge_loop (h_db n) (h_index n) (Z.to_nat base_index) (ix_mirror _ _ _ H)) as (sc & d & E0 & Hm & Hh & Hx). rewrite Z2Nat.id in E0 by lia. rewrite E0.
  assert (∀ i, hash_by_index sc !! i = if i <? base_index then None else hash_by_index (h_index n) !! i) as Hx'.
  { intros i. rewrite Hx. destruct (Z.leb_spec 0 i), (Z.ltb_spec i (Z.of_nat (Z.to_nat base_index))), (Z.ltb_spec i base_index); try lia; try done.
    cbn. destruct (hash_by_index (h_index n) !! i) eqn:E; [apply (ix_low _ _ _ H) in E; lia|done]. }
  destruct (rebase_down_loop base_index sc (length (drop k l))) as (sc' & E & Hm' & Hh' & Hy); [done|done|intros i Hi; rewrite Hx'; destruct (Z.ltb_spec i base_index); lia || done|].
  replace (base_index + Zlength (drop k l) - 1 - base_index + 1) with (Z.of_nat (length (drop k l))) by (unfold Zlength; lia). rewrite E. cbn [map_err mbind res_bind].
  destruct (ix_range _ _ _ Hd) as (_ & Hne & Hr). assert (0 < Zlength (drop k l)) by (unfold Zlength; destruct (drop k l); [done|cbn; lia]).
  rewrite (proj2 (sub_u_ok _ _ _)) by (split; [reflexivity|lia]). cbn [mbind res_bind]. eexists _, d. split; [reflexivity|].
  assert (∀ i, hash_by_index sc' !! i = if 0 <=? i then drop k l !! Z.to_nat i else None) as Hz.
  { intros i. rewrite Hy, !Hx'. destruct (Z.ltb_spec i (Z.of_nat (length (drop k l)))) as [Hi|Hi], (Z.leb_spec 0 i); try lia.
    - destruct (Z.ltb_spec (i + base_index) base_index); [lia|]. rewrite (ix_own _ _ _ Hd) by lia. f_equal. lia.
    - destruct (Z.ltb_spec (i + base_index) base_index); [done|lia].
    - rewrite (proj2 (lookup_ge_None (drop k l) _)) by lia. destruct (Z.leb_spec (base_index + Z.of_nat (length (drop k l))) i); [|done].
      destruct (Z.ltb_spec i base_index); [done|]. apply (index_above _ _ _ _ Hd). unfold Zlength. lia. }
  assert (∀ i h, hash_by_index sc' !! i = Some h → 0 <= i) as Hlow by (intros i h; rewrite Hz; by destruct (Z.leb_spec 0 i)).
  split; [|split; [exact Hlow|]].
  - split; [exact Hm'|exact Hlow| |cbn; f_equal; lia|split; [lia|]; split; [done|lia]]. intros i Hi. cbn. rewrite Hz, Z.sub_0_r. by destruct (Z.leb_spec 0 i); [|lia].
  - split; cbn; [done| |].
    + intros h. rewrite deletes_rows. do 2 case_bool_decide; try done; [naive_solver|]. destruct (ScanStore.get (h_db n) h) eqn:Eh; [naive_solver|done].
    + intros t k' Ht. by apply deletes_other_rows.
Qed.

(** ** A history that is discarded *)

(** The node never took history from a peer: its index is its own chain, from index 0. *)
Definition own_node (n : HistoryNode) (l : list bytes) : Prop := index_of (h_index n) 0 l ∧ h_backfilled n = false.

Lemma index_unique sc sc' l : index_of sc 0 l → index_of sc' 0 l → sc = sc'.
Proof.
  intros H H'. assert (hash_by_index sc = hash_by_index sc') as Eh.
  { apply map_eq. intros i. destruct (decide (0 <= i)) as [Hi|Hi]; [by rewrite (ix_own _ _ _ H), (ix_own _ _ _ H')|].
    destruct (hash_by_index sc !! i) eqn:E; [by apply (ix_low _ _ _ H) in E|]. destruct (hash_by_index sc' !! i) eqn:E'; [by apply (ix_low _ _ _ H') in E'|done]. }
  assert (index_by_hash sc = index_by_hash sc') as Ei.
  { apply map_eq. intros h. apply option_eq. intros i. by rewrite <- (ix_mirror _ _ _ H), <- (ix_mirror _ _ _ H'), Eh. }
  pose proof (ix_highest _ _ _ H) as Et. rewrite <- (ix_highest _ _ _ H') in Et. destruct sc, sc'. cbn in *. by subst.
Qed.

Section chunks.
Context (headers : bytes → option CompactHeaderData).

(** The chunks a node accepts below its lowest block, which is the block it asks below.  A chunk adds an index entry or leaves the node's
    entries at their indexes; one that only moves them is left out. *)
Inductive received (n : HistoryNode) : HistoryNode → Prop :=
  | received_none : received n n
  | received_chunk n1 anchor anchor_index rs n2 idx rec : received n n1 → lowest n1 anchor → Forall (λ e : record, 0 <= e.1) rs →
      backfill_shielded_history headers n1 anchor anchor_index rs = Ok (n2, (idx, rec)) → 0 < idx ∨ shift_of n1 anchor anchor_index = 0 → received n n2.

(** The node [n] grew from [n0], whose chain is [l]: its own chain starts at index [own], and what it stores besides is the peer's. *)
Record grown (n0 : HistoryNode) (l : list bytes) (n : HistoryNode) (own : Z) : Prop := {
  gr_index : index_of (h_index n) own l;
  gr_flag : h_backfilled n = (0 <? own);
  gr_base : 0 < own → h_own_base n = head l;
  gr_chain h : h ∈ l → head l ≠ Some h → ScanStore.get (h_db n) h = ScanStore.get (h_db n0) h;
  gr_new h d : ScanStore.get (h_db n) h = Some d → ScanStore.get (h_db n0) h = Some d ∨ head l = Some h ∨ h ∈ below (h_index n) (Z.to_nat own);
  gr_head h d : head l = Some h → ScanStore.get (h_db n0) h = Some d → ScanStore.get (h_db n) h = Some d;
  gr_rows t k : t ≠ ShieldedScanBlock → h_db n t !! k = h_db n0 t !! k;
}.

(** A chunk below the lowest block reaches the node's own chain at its lowest block only, and only with that block's record. *)
Lemma placed_own n own l anchor anchor_index rs k h e : index_of (h_index n) own l → lowest n anchor → chunk_ok headers n anchor anchor_index rs →
  l !! k = Some h → e ∈ placed anchor_index rs → cbd_hash e.2 = h → k = 0%nat ∧ anchor = h ∧ e.1 = anchor_index.
Proof.
  intros H (a & Ha & Hlow) Hok Hk He Hh. pose proof (index_lookup _ _ _ _ _ H Hk) as Hi.
  pose proof (ch_existing _ _ _ _ _ Hok e (own + Z.of_nat k) He ltac:(by rewrite Hh)) as Hx. pose proof He as [Hle _]%list_elem_of_filter.
  assert (a <= own) as Hao. { destruct l as [|h0 l]; [done|]. apply (Hlow own h0). rewrite (ix_own _ _ _ H), Z.sub_diag by lia. done. }
  assert (anchor_index <= a + shift_of n anchor anchor_index) as Hsa by (unfold shift_of, saturating_sub; rewrite Ha; cbn; lia).
  assert (e.1 = anchor_index) as Ei by lia. split; [lia|]. split; [|done]. rewrite <- Hh. symmetry. by apply (ch_anchor _ _ _ _ _ Hok).
Qed.
Lemma grown_step n0 l n own anchor anchor_index rs n' idx rec : grown n0 l n own → rs ≠ [] →
  lowest n anchor → Forall (λ e : record, 0 <= e.1) rs → backfill_shielded_history headers n anchor anchor_index rs = Ok (n', (idx, rec)) →
  0 < idx ∨ shift_of n anchor anchor_index = 0 → grown n0 l n' (own + shift_of n anchor anchor_index).
Proof.
  intros [H Hflag Hbase Hchain Hnew Hhead Hrows] Hne Hlow Hpos Hbf Hidx. destruct (ix_range _ _ _ H) as (H0 & _).
  destruct (backfill_effect headers _ _ _ _ _ _ _ _ _ H Hlow Hne Hpos Hbf) as (H' & Hok & He). set (shift := shift_of n anchor anchor_index) in *.
  assert (0 <= shift) by (unfold shift, shift_of, saturating_sub; lia).
  assert (0 < idx → 0 < anchor_index) as Hi0.
  { intros Hi. pose proof (ce_written _ _ _ _ _ _ _ He) as Hw. destruct (filter (λ e : record, e.1 < anchor_index) (placed anchor_index rs)) as [|e es] eqn:Ef; [unfold Zlength in Hw; cbn in Hw; lia|].
    assert (e ∈ filter (λ e : record, e.1 < anchor_index) (placed anchor_index rs)) as [? Hp]%list_elem_of_filter by (rewrite Ef; left).
    apply list_elem_of_filter in Hp as [_ Hp]. pose proof (proj1 (Forall_forall _ _) Hpos e Hp). cbn in *. lia. }
  assert (anchor_index <= own + shift) as Hao.
  { destruct Hlow as (a & Ha & Hlow). destruct (ix_range _ _ _ H) as (_ & Hl & _). destruct l as [|h0 l]; [done|].
    pose proof (Hlow own h0 ltac:(rewrite (ix_own _ _ _ H), Z.sub_diag by lia; done)). unfold shift, shift_of, saturating_sub. rewrite Ha. cbn. lia. }
  assert (0 <= idx) as Hidx0 by (rewrite (ce_written _ _ _ _ _ _ _ He); apply Zlength_ge0).
  pose proof (ch_hashes _ _ _ _ _ Hok) as Hnd. split; [done|..].
  - rewrite (ce_backfilled _ _ _ _ _ _ _ He), Hflag. destruct (Z.ltb_spec 0 idx), (Z.ltb_spec 0 own), (Z.ltb_spec 0 (own + shift)); try done; lia.
  - intros Hown. rewrite (ce_own_base _ _ _ _ _ _ _ He), Hflag. destruct (Z.ltb_spec 0 idx); [|apply Hbase; lia]. destruct (Z.ltb_spec 0 own); [by apply Hbase|].
    assert (own = 0) as -> by lia. unfold get_by_index. rewrite (ix_own _ _ _ H) by lia. destruct (ix_range _ _ _ H) as (_ & Hl & _). by destruct l.
  - intros h Hh Hnh. rewrite (ce_db _ _ _ _ _ _ _ He), scan_row_same; [by apply Hchain|]. left. intros (e & -> & Hp)%list_elem_of_fmap. apply list_elem_of_lookup in Hh as [k Hk].
    destruct (placed_own _ _ _ _ _ _ _ _ _ H Hlow Hok Hk Hp eq_refl) as (-> & _). by rewrite head_lookup in Hnh.
  - intros h d Hd. assert (∀ h, h ∈ below (h_index n) (Z.to_nat own) → h ∈ below (h_index n') (Z.to_nat (own + shift))) as Hbelow.
    { intros x. rewrite !elem_of_below. intros (i & Hi & Ei). exists (i + shift). split; [lia|]. apply (ce_index _ _ _ _ _ _ _ He). left. fold shift. by replace (i + shift - shift) with i by lia. }
    destruct (ScanStore.get (h_db n) h) as [d'|] eqn:Eo.
    + rewrite (ce_db _ _ _ _ _ _ _ He), scan_row_same in Hd by (right; congruence). destruct (Hnew h d') as [?|[?|?]]; [done|left; congruence|by right; left|right; right; by apply Hbelow].
    + right. destruct (decide (h ∈ hashes (placed anchor_index rs))) as [Hin|Hni]; [|rewrite (ce_db _ _ _ _ _ _ _ He), scan_row_same in Hd by (by left); congruence].
      apply list_elem_of_fmap in Hin as ([i r] & -> & Hp). cbn [snd] in *. pose proof Hp as [Hile Hp']%list_elem_of_filter. cbn in Hile.
      pose proof (proj1 (Forall_forall _ _) Hpos _ Hp') as Hi0'. cbn in Hi0'. destruct (decide (i < anchor_index)) as [Hlt|Hge].
      * right. apply elem_of_below. exists i. split; [lia|]. apply (ce_index _ _ _ _ _ _ _ He). right. split; [done|]. by exists r.
      * assert (cbd_hash r = anchor) as Ea by (apply (ch_anchor _ _ _ _ _ Hok (i, r) Hp); cbn; lia). destruct Hlow as (a & Ha & Hlow). rewrite Ea.
        pose proof (proj2 (ix_mirror _ _ _ H a anchor) Ha) as Hia. destruct (decide (a < own)) as [Hlt'|Hge'].
        { right. apply Hbelow, elem_of_below. exists a. split; [|done]. split; [by apply (ix_low _ _ _ H) in Hia|lia]. }
        left. assert (a = own) as -> by (destruct (ix_range _ _ _ H) as (_ & Hl & _); destruct l as [|h0 l]; [done|]; pose proof (Hlow own h0 ltac:(rewrite (ix_own _ _ _ H), Z.sub_diag by lia; done)); lia).
        rewrite (ix_own _ _ _ H), Z.sub_diag in Hia by lia. by rewrite head_lookup.
  - intros h d Hh Hd. rewrite (ce_db _ _ _ _ _ _ _ He), scan_row_same; [by eapply Hhead|]. right. by rewrite (Hhead h d Hh Hd).
  - intros t k Ht. rewrite (ce_db _ _ _ _ _ _ _ He), other_rows by done. by apply Hrows.
Qed.
Lemma grown_none n0 l : own_node n0 l → grown n0 l n0 0.
Proof. intros [H Hf]. split; try done; [by auto..]. Qed.
Lemma received_ok n0 l n : own_node n0 l → received n0 n → ∃ own, grown n0 l n own.
Proof.
  intros Ho Hr. induction Hr as [|n1 anchor anchor_index rs n2 idx rec Hr [own G] Hlow Hpos Hbf Hidx]; [exists 0; by apply grown_none|].
  destruct (decide (rs = [])) as [->|Hne]; [injection Hbf as <- _ _; by exists own|]. eexists. by eapply grown_step.
Qed.
Lemma grown_purge n0 l n own base : grown n0 l n own → h_backfilled n = true → ∃ n' d, purge_backfilled_shielded_history n base = Ok (n', d) ∧ index_of (h_index n') 0 l ∧ purged n n' (Z.to_nat own).
Proof.
  intros [G2 G3 G4 _ _ _ _] Hb. rewrite G3 in Hb. apply Z.ltb_lt in Hb as G1. destruct (ix_range _ _ _ G2) as (_ & Hl & _). destruct l as [|b l]; [done|].
  destruct (purge_ok n own (b :: l) base 0) as (n' & d & E & H' & _ & Hp); [done| |lia|].
  { unfold shielded_history_own_base. rewrite G3, Hb, (G4 G1). done. }
  exists n', d. rewrite Z.add_0_r in Hp. done.
Qed.
Lemma own_not_below sc own l h : index_of sc own l → h ∈ l → h ∉ below sc (Z.to_nat own).
Proof.
  intros H [k Hk]%list_elem_of_lookup (i & Hi & E)%elem_of_below. apply (ix_mirror _ _ _ H) in E. rewrite (index_lookup _ _ _ _ _ H Hk) in E. injection E as E. lia.
Qed.


Lemma own_lowest n b l : own_node n (b :: l) → lowest n b.
Proof. intros [H _]. exists 0. split; [exact (index_lookup _ _ _ 0 b H eq_refl)|exact (ix_low _ _ _ H)]. Qed.

(** C39. The record a peer supplies for the node's own lowest block survives the purge, and no record of a later chunk replaces it. *)
Theorem anchor_record_survives n0 anchor l anchor_index rs n1 idx rec r base :
  own_node n0 (anchor :: l) → Forall (λ e : record, 0 <= e.1) rs → backfill_shielded_history headers n0 anchor anchor_index rs = Ok (n1, (idx, rec)) → 0 < idx →
  (anchor_index, r) ∈ rs → ScanStore.get (h_db n0) anchor = None →
  ∃ n2 d, purge_backfilled_shielded_history n1 base = Ok (n2, d) ∧ ScanStore.get (h_db n2) anchor = Some (scan_row r) ∧
    ∀ anchor_index' rs' n3 w, Forall (λ e : record, 0 <= e.1) rs' → backfill_shielded_history headers n2 anchor anchor_index' rs' = Ok (n3, w) →
      ScanStore.get (h_db n3) anchor = Some (scan_row r).
Proof.
  intros Ho Hpos Hbf Hidx Hr Hnone. pose proof (own_lowest _ _ _ Ho) as Hlow. destruct Ho as [H0 Hf0]. assert (rs ≠ []) as Hne by (intros ->; by apply elem_of_nil in Hr).
  destruct (backfill_effect headers _ _ _ _ _ _ _ _ _ H0 Hlow Hne Hpos Hbf) as (H1 & Hok & He).
  assert ((anchor_index, r) ∈ placed anchor_index rs) as Hp by (apply list_elem_of_filter; cbn; split; [lia|done]).
  assert (cbd_hash r = anchor) as Ea by (by apply (ch_anchor _ _ _ _ _ Hok _ Hp)). assert (ScanStore.get (h_db n1) anchor = Some (scan_row r)) as Hs1.
  { rewrite (ce_db _ _ _ _ _ _ _ He), <- Ea. apply (scan_row_new _ anchor_index); [apply Hok|done|by rewrite Ea]. }
  assert (h_backfilled n1 = true) as Hb1 by (rewrite (ce_backfilled _ _ _ _ _ _ _ He); destruct (Z.ltb_spec 0 idx); [done|lia]).
  pose proof (grown_step n0 (anchor :: l) n0 0 anchor anchor_index rs n1 idx rec (grown_none _ _ (conj H0 Hf0)) Hne Hlow Hpos Hbf (or_introl Hidx)) as G.
  destruct (grown_purge _ _ _ _ base G Hb1) as (n2 & d & E & H2 & [(F1 & _) P2 _]). exists n2, d. split; [done|].
  assert (ScanStore.get (h_db n2) anchor = Some (scan_row r)) as Hs2.
  { rewrite P2, bool_decide_eq_false_2; [done|]. apply (own_not_below _ _ _ _ (gr_index _ _ _ _ G)). left. }
  split; [done|]. intros anchor_index' rs' n3 [idx' rec'] Hpos' Hbf'. destruct (decide (rs' = [])) as [->|Hne']; [injection Hbf' as <- _ _; done|].
  destruct (backfill_effect headers _ _ _ _ _ _ _ _ _ H2 (own_lowest n2 anchor l (conj H2 F1)) Hne' Hpos' Hbf') as (_ & _ & He').
  rewrite (ce_db _ _ _ _ _ _ _ He'), scan_row_same; [done|]. right. by rewrite Hs2.
Qed.
End chunks.

(** ** Acceptance of a chunk *)

Lemma filter_all {A} (P : A → Prop) `{∀ x, Decision (P x)} l : Forall P l → filter P l = l.
Proof. induction 1 as [|x l Hx _ IH]; [done|]. by rewrite filter_cons_True, IH. Qed.
Lemma rising_accepted (rs : list record) : Sorted index_le rs → NoDup rs.*1 → (∀ x y, x ∈ rs → y ∈ rs → x.1 < y.1 → rising (x, y) = true) → forallb rising (zip rs (tail rs)) = true.
Proof.
  intros Hs. induction Hs as [|x l Hs IH Hx]; intros Hnd Hr; [done|]. apply NoDup_cons in Hnd as [Hn Hnd]. destruct l as [|y l]; [done|]. cbn [zip zip_with tail forallb].
  apply andb_true_intro. split.
  - apply Hr; [left|right; left|]. inversion Hx as [|? ? Hle]; subst. unfold index_le in Hle. destruct (decide (x.1 = y.1)) as [E|]; [|lia]. destruct Hn. rewrite E. left.
  - apply IH; [done|]. intros a b Ha Hb. apply Hr; by right.
Qed.
Lemma records_accepted n from shift (rs : list record) : ∀ seen, NoDup (hashes rs) → (∀ e, e ∈ rs → cbd_hash e.2 ∉ seen ∧ 0 <= shift ∧ e.1 < 2 ^ 64 ∧
    (∀ x, get_by_hash (h_index n) (cbd_hash e.2) = Some x → x + shift = e.1) ∧
    Zlength (cbd_coinbase_commitments e.2) = Zlength (cbd_coinbase_outputs e.2) ∧ Forall (λ a, length a mod COMPACT_ACTION_LEN = 0)%nat (cbd_accepted_actions e.2)) →
  ∃ seen', res_foldl (check_record n from shift) seen rs = Ok seen'.
Proof.
  induction rs as [|[i r] rs IH]; intros seen Hnd Hok; [by exists seen|]. cbn [fmap list_fmap snd] in Hnd. apply NoDup_cons in Hnd as [Hn Hnd].
  destruct (Hok (i, r) ltac:(left)) as (Hs & H0 & Hi & Hx & Hl & Ha). cbn [fst snd] in *. cbn [res_foldl].
  assert (∃ seen1, check_record n from shift seen (i, r) = Ok seen1 ∧ (seen1 = seen ∨ seen1 = {[cbd_hash r]} ∪ seen)) as (seen1 & -> & Hs1).
  { unfold check_record. destruct (from <? i); [by eauto|]. rewrite bool_decide_eq_false_2 by done. rewrite Hl, Z.eqb_refl, andb_false_r.
    assert (existsb (λ a, negb (length a mod COMPACT_ACTION_LEN =? 0)%nat) (cbd_accepted_actions r) = false) as ->.
    { apply not_true_iff_false. intros (a & Hin & Hn')%existsb_exists. apply list_elem_of_In in Hin. pose proof (proj1 (Forall_forall _ _) Ha a Hin) as E. cbn in E. by rewrite E in Hn'. }
    destruct (get_by_hash (h_index n) (cbd_hash r)) as [x|] eqn:Ex; cbn [mbind res_bind]; [|by eauto]. specialize (Hx x eq_refl).
    rewrite (proj2 (add_u_ok 64 x shift i)) by (split; lia). cbn [mbind res_bind]. rewrite Z.eqb_refl. cbn [mbind res_bind]. by eauto. }
  cbn [mbind res_bind]. apply IH; [done|]. intros e He. destruct (Hok e ltac:(by right)) as (Hes & Hrest). split; [|done].
  destruct Hs1 as [->| ->]; [done|]. rewrite not_elem_of_union, not_elem_of_singleton. split; [|done]. intros E. apply Hn. rewrite <- E. apply list_elem_of_fmap. by exists e.
Qed.

Section accept.
Context (headers : bytes → option CompactHeaderData).

(** The scores the records of a chunk are compared with. *)
Definition known_scores (n : HistoryNode) (anchor : bytes) (scores : Z * Z) : Prop :=
  match headers anchor with
  | Some h => scores = (ch_blue_score h, ch_daa_score h)
  | None => ∃ d, ScanStore.get (h_db n) anchor = Some d ∧ scores = (scan_blue_score d, scan_daa_score d)
  end.
(** A chunk that holds the anchor's own record is accepted when its indexes and hashes are distinct, its scores follow the indexes and the headers,
    and the blocks the node has indexed are where the chunk puts them. *)
Record good_chunk (n : HistoryNode) (anchor : bytes) (anchor_index : Z) (scores : Z * Z) (rs : list record) : Prop := {
  gc_indexes : NoDup rs.*1;
  gc_hashes : NoDup (hashes rs);
  gc_range e : e ∈ rs → 0 <= e.1 <= anchor_index ∧ e.1 <= cbd_blue_score e.2;
  gc_scores x y : x ∈ rs → y ∈ rs → x.1 < y.1 → cbd_blue_score x.2 < cbd_blue_score y.2 ∧ cbd_daa_score x.2 <= cbd_daa_score y.2;
  gc_anchor e : e ∈ rs → e.1 = anchor_index ↔ cbd_hash e.2 = anchor;
  gc_has_anchor : ∃ r, (anchor_index, r) ∈ rs;
  gc_anchor_scores r : (anchor_index, r) ∈ rs → (cbd_blue_score r, cbd_daa_score r) = scores;
  gc_headers e h' : e ∈ rs → headers (cbd_hash e.2) = Some h' → (ch_blue_score h', ch_daa_score h') = (cbd_blue_score e.2, cbd_daa_score e.2);
  gc_existing e x : e ∈ rs → get_by_hash (h_index n) (cbd_hash e.2) = Some x → x + shift_of n anchor anchor_index = e.1;
  gc_shape e : e ∈ rs → Zlength (cbd_coinbase_commitments e.2) = Zlength (cbd_coinbase_outputs e.2) ∧ Forall (λ a, length a mod COMPACT_ACTION_LEN = 0)%nat (cbd_accepted_actions e.2);
}.
Lemma good_placed anchor anchor_index scores n rs e : good_chunk n anchor anchor_index scores rs → e ∈ rs → placed_ok headers anchor anchor_index scores e = true.
Proof.
  intros G He. pose proof (gc_range _ _ _ _ _ G e He) as [Hi Hb]. pose proof (gc_anchor _ _ _ _ _ G e He) as Ha. destruct (gc_has_anchor _ _ _ _ _ G) as (ra & Hra).
  pose proof (gc_anchor_scores _ _ _ _ _ G ra Hra) as Er. pose proof (gc_headers _ _ _ _ _ G e) as Hhd. destruct e as [i r]. cbn [fst snd] in *. unfold placed_ok.
  destruct (Z.ltb_spec (cbd_blue_score r) i); [lia|]. cbn [negb andb].
  assert (match headers (cbd_hash r) with Some h' => bool_decide ((ch_blue_score h', ch_daa_score h') = (cbd_blue_score r, cbd_daa_score r)) | None => true end = true) as ->.
  { destruct (headers (cbd_hash r)) as [h'|] eqn:E; [|done]. apply bool_decide_eq_true_2. by apply Hhd. }
  rewrite andb_true_r. destruct (Z.eqb_spec i anchor_index) as [->|Hne].
  - rewrite (bool_decide_eq_true_2 (cbd_hash r = anchor)) by (by apply Ha). cbn [Bool.eqb andb]. apply bool_decide_eq_true_2. exact (gc_anchor_scores _ _ _ _ _ G r He).
  - rewrite bool_decide_eq_false_2 by (intros E; by apply Ha in E). cbn [Bool.eqb andb]. subst scores. cbn [fst snd].
    destruct (gc_scores _ _ _ _ _ G (i, r) (anchor_index, ra) He Hra) as [Hs1 Hs2]; [cbn; lia|]. cbn [fst snd] in *. apply negb_true_iff, orb_false_iff. rewrite Z.leb_gt, Z.ltb_ge. lia.
Qed.
Lemma index_tip sc own l : index_of sc own l → ∃ th, get_tip sc = Some (own + Zlength l - 1, th).
Proof.
  intros H. destruct (ix_range _ _ _ H) as (_ & Hne & _). assert (0 < Zlength l) by (unfold Zlength; destruct l; [done|cbn; lia]).
  unfold get_tip. rewrite (ix_highest _ _ _ H). cbn [mbind option_bind]. rewrite (ix_own _ _ _ H) by lia.
  destruct (lookup_lt_is_Some_2 l (Z.to_nat (own + Zlength l - 1 - own))) as [th ->]; [unfold Zlength in *; lia|by exists th].
Qed.
Lemma chunk_accepted n own l anchor a anchor_index scores rs : index_of (h_index n) own l → get_by_hash (h_index n) anchor = Some a → let shift := shift_of n anchor anchor_index in
  (0 < shift → ∃ h, headers anchor = Some h ∧ anchor_index <= ch_blue_score h) → known_scores n anchor scores → own + Zlength l + shift <= 2 ^ 64 → anchor_index < 2 ^ 64 →
  good_chunk n anchor anchor_index scores rs → ∃ n' w, backfill_shielded_history headers n anchor anchor_index rs = Ok (n', w).
Proof.
  intros H Ha shift Hclaim Hsc Hroom Hai G. destruct (gc_has_anchor _ _ _ _ _ G) as (ra & Hra). assert (shift = saturating_sub anchor_index a) as Es by (unfold shift, shift_of; by rewrite Ha).
  assert (0 <= shift) by (rewrite Es; unfold saturating_sub; lia).
  unfold backfill_shielded_history. rewrite bool_decide_eq_false_2 by (intros ->; by apply elem_of_nil in Hra).
  destruct (moved_ok n own l shift H ltac:(lia) Hroom) as (sc & Em & H' & Hx). unfold moved in Em. rewrite (ix_highest _ _ _ H) in Em.
  destruct (index_tip _ _ _ H) as [th ->]. cbn [unwrap mbind res_bind]. rewrite Ha. cbn [ok_or mbind res_bind]. rewrite <- Es.
  match goal with |- ∃ n' w, mbind (M := res ()) ?f ?g = _ => assert (g = Ok ()) as -> end.
  { destruct (Z.ltb_spec 0 shift) as [Hp|]; [|done]. destruct (Hclaim Hp) as (h & -> & Hh). cbn [ok_or mbind res_bind]. destruct (Z.ltb_spec (ch_blue_score h) anchor_index); [lia|done]. }
  cbn [mbind res_bind].
  match goal with |- ∃ n' w, mbind (M := res ()) ?f ?g = _ => assert (g = Ok scores) as -> end.
  { unfold known_scores in Hsc. destruct (headers anchor); [by rewrite Hsc|]. by destruct Hsc as (d & -> & ->). }
  cbn [mbind res_bind]. assert (filter (λ e : record, e.1 <= anchor_index) rs = rs) as ->.
  { apply filter_all, Forall_forall. intros e He. destruct (gc_range _ _ _ _ _ G e He) as [Hi _]. lia. }
  assert (forallb rising (zip (merge_sort index_le rs) (tail (merge_sort index_le rs))) = true) as ->.
  { apply rising_accepted; [apply Sorted_merge_sort; intros x y; unfold index_le; lia|rewrite merge_sort_Permutation; apply G|].
    intros x y. rewrite merge_sort_Permutation. intros Hx' Hy Hlt. destruct (gc_scores _ _ _ _ _ G x y Hx' Hy Hlt). destruct x as [i ax], y as [j b]. cbn [fst snd] in *. unfold rising.
    apply andb_true_intro. split; [apply negb_true_iff, Z.eqb_neq; lia|]. apply negb_true_iff, orb_false_iff. rewrite Z.leb_gt, Z.ltb_ge. lia. }
  assert (forallb (placed_ok headers anchor anchor_index scores) (merge_sort index_le rs) = true) as ->.
  { apply forallb_forall. intros e He%list_elem_of_In. rewrite merge_sort_Permutation in He. by apply (good_placed _ _ _ n rs). }
  cbn [negb]. destruct (records_accepted n anchor_index shift rs ∅) as [seen ->]; [apply G| |].
  { intros e He. destruct (gc_range _ _ _ _ _ G e He) as [Hi _]. destruct (gc_shape _ _ _ _ _ G e He) as [S1 S2]. split; [set_solver|]. split; [lia|]. split; [lia|]. split; [|done].
    intros x Hg. exact (gc_existing _ _ _ _ _ G e x He Hg). }
  cbn [mbind res_bind]. cbn [unwrap mbind res_bind] in Em. rewrite Em. cbn [map_err mbind res_bind].
  destruct (foldl _ _ _) as [[[sc' batch] x] y]. by eauto.
Qed.
End accept.

(** ** A chunk that places nothing *)

Section anchor_only.
Context (headers : bytes → option CompactHeaderData).

(** The chunk that holds the anchor's own record alone is accepted for every index up to the anchor's blue score. *)
Lemma anchor_chunk_accepted n anchor l h r anchor_index : own_node n (anchor :: l) → headers anchor = Some h → 0 < anchor_index <= ch_blue_score h →
  anchor_index + Zlength (anchor :: l) <= 2 ^ 64 → cbd_hash r = anchor → (cbd_blue_score r, cbd_daa_score r) = (ch_blue_score h, ch_daa_score h) →
  Zlength (cbd_coinbase_commitments r) = Zlength (cbd_coinbase_outputs r) → Forall (λ a, length a mod COMPACT_ACTION_LEN = 0)%nat (cbd_accepted_actions r) →
  ∃ n' rec, backfill_shielded_history headers n anchor anchor_index [(anchor_index, r)] = Ok (n', (0, rec)) ∧
    index_of (h_index n') anchor_index (anchor :: l) ∧ h_backfilled n' = false ∧ ∀ i, i < anchor_index → get_by_index (h_index n') i = None.
Proof.
  intros Ho Hh Hai Hroom Ehash Escores Elen Hact. pose proof (own_lowest _ _ _ Ho) as Hlow. destruct Ho as [H Hf]. pose proof (index_lookup _ _ _ 0 anchor H eq_refl) as Ha. change (0 + Z.of_nat 0) with 0 in Ha.
  assert (shift_of n anchor anchor_index = anchor_index) as Es. { unfold shift_of, get_by_hash. rewrite Ha. unfold saturating_sub. cbn. lia. }
  assert (good_chunk headers n anchor anchor_index (ch_blue_score h, ch_daa_score h) [(anchor_index, r)]) as G.
  { split; try (intros e ->%list_elem_of_singleton; cbn [fst snd]).
    - apply NoDup_singleton.
    - apply NoDup_singleton.
    - injection Escores as Eb _. lia.
    - intros x y ->%list_elem_of_singleton ->%list_elem_of_singleton. lia.
    - done.
    - exists r. left.
    - intros r' [= ->]%list_elem_of_singleton. done.
    - intros e h' ->%list_elem_of_singleton. cbn [snd]. rewrite Ehash, Hh. by intros [= <-].
    - intros e x ->%list_elem_of_singleton. cbn [fst snd]. unfold get_by_hash. rewrite Ehash, Ha, Es. by intros [= <-].
    - done. }
  destruct (chunk_accepted headers n 0 (anchor :: l) anchor 0 anchor_index (ch_blue_score h, ch_daa_score h) [(anchor_index, r)]) as (n' & [idx rec] & E);
    [done|done|intros _; exists h; split; [done|lia]|unfold known_scores; by rewrite Hh|rewrite Es; lia|pose proof (Zlength_ge0 l); rewrite Zlength_cons in Hroom; lia|done|].
  destruct (backfill_effect headers n 0 (anchor :: l) anchor anchor_index [(anchor_index, r)] n' idx rec H Hlow) as (H' & _ & He); [done|constructor; [cbn; lia|constructor]|done|].
  assert (placed anchor_index [(anchor_index, r)] = [(anchor_index, r)]) as Ep by (unfold placed; by rewrite filter_cons_True by (cbn; lia)).
  rewrite Es, Z.add_0_l in H'. pose proof (ce_written _ _ _ _ _ _ _ He) as Hw. rewrite Ep, filter_cons_False in Hw by (cbn; lia). change (idx = 0) in Hw. subst idx.
  exists n', rec. split; [done|]. split; [done|]. split; [rewrite (ce_backfilled _ _ _ _ _ _ _ He), Hf; done|].
  intros i Hi. unfold get_by_index. destruct (hash_by_index (h_index n') !! i) as [x|] eqn:Ex; [|done]. apply (ce_index _ _ _ _ _ _ _ He) in Ex as [Ex|(_ & r' & Hr' & _)].
  - rewrite Es in Ex. apply (ix_low _ _ _ H) in Ex. lia.
  - rewrite Ep in Hr'. apply list_elem_of_singleton in Hr'. injection Hr' as -> _. lia.
Qed.

(** C38. A chunk that holds only the anchor's own record moves the whole index up, up to the anchor's blue score, without marking it as partly a
    peer's: index 0 becomes a hole, and a purge to a later block of the chain, such as the pruning point that failed to verify, discards the
    node's own index entries and scan records below that block. *)
Theorem anchor_only_chunk_unmarked genesis n anchor l h r anchor_index : own_node n (anchor :: l) → headers anchor = Some h → 0 < anchor_index <= ch_blue_score h →
  anchor_index + Zlength (anchor :: l) <= 2 ^ 64 → cbd_hash r = anchor → (cbd_blue_score r, cbd_daa_score r) = (ch_blue_score h, ch_daa_score h) →
  Zlength (cbd_coinbase_commitments r) = Zlength (cbd_coinbase_outputs r) → Forall (λ a, length a mod COMPACT_ACTION_LEN = 0)%nat (cbd_accepted_actions r) →
  ∃ n1 rec, backfill_shielded_history headers n anchor anchor_index [(anchor_index, r)] = Ok (n1, (0, rec)) ∧
    h_backfilled n1 = false ∧ get_shielded_history_base genesis n1 = genesis ∧
    ∀ k base, (anchor :: l) !! k = Some base → ∃ n2 d, purge_backfilled_shielded_history n1 base = Ok (n2, d) ∧
      index_of (h_index n2) 0 (drop k (anchor :: l)) ∧
      ∀ i b, (i < k)%nat → (anchor :: l) !! i = Some b → get_by_hash (h_index n2) b = None ∧ ScanStore.get (h_db n2) b = None.
Proof.
  intros Ho Hh Hai Hroom Ehash Escores Elen Hact. destruct (anchor_chunk_accepted n anchor l h r anchor_index Ho Hh Hai Hroom Ehash Escores Elen Hact) as (n1 & rec & E & H1 & Hf & Hhole).
  exists n1, rec. split; [done|]. split; [done|]. split; [unfold get_shielded_history_base; by rewrite Hhole by lia|]. intros k base Hk.
  destruct (purge_ok n1 anchor_index (anchor :: l) base k) as (n2 & d & Ep & H2 & Hlow & [_ P2 _]); [done|unfold shielded_history_own_base; by rewrite Hf|lia|].
  exists n2, d. split; [done|]. split; [done|]. intros i b Hi Hb. pose proof (index_lookup _ _ _ _ _ H1 Hb) as Hib. pose proof (index_nodup _ _ _ H1) as Hnd. split.
  - unfold get_by_hash. destruct (index_by_hash (h_index n2) !! b) as [j|] eqn:Ej; [|done]. apply (ix_mirror _ _ _ H2) in Ej as Ej'. pose proof (Hlow _ _ Ej').
    rewrite (ix_own _ _ _ H2), lookup_drop in Ej' by lia. pose proof (proj1 (NoDup_alt _) Hnd _ _ _ Hb Ej'). lia.
  - rewrite P2, bool_decide_eq_true_2; [done|]. apply elem_of_below. exists (anchor_index + Z.of_nat i). split; [lia|]. by apply (ix_mirror _ _ _ H1).
Qed.
End anchor_only.

(** ** Examples *)

Definition example_headers (b : bytes) : option CompactHeaderData := if bool_decide (b = [7]) then Some (mk_header 5 4 0) else None.
Definition example_node : HistoryNode :=
  mk_history (mk_sc {[0 := [7]; 1 := [8]]} {[ [7] := 0; [8] := 1 ]} (Some 1)) (λ _, ∅) false None None.
Lemma example_own_node : own_node example_node [[7]; [8]].
Proof.
  destruct (apply_changes_ok (init_with_pruning_point no_chain [7]) 0 [[7]] [] [[8]]) as (sc & E & H & _); [apply init_ok|done|decide_by_eval| |vm_compute; congruence|].
  { intros h i ->%list_elem_of_singleton. cbn. rewrite lookup_singleton_ne by done. done. }
  split; [|done]. assert (sc = h_index example_node) as <-; [|exact H]. vm_compute in E. injection E as <-. vm_compute. reflexivity.
Qed.
Definition example_record (h : bytes) (blue : Z) : ShieldedChainBlockData := mk_chain_block h blue 4 [] [] [] [] [] 0.
Definition example_chunk : list record := [(2, example_record [6] 4); (3, example_record [7] 5)].
Lemma example_backfill : ∃ n1 rec, backfill_shielded_history example_headers example_node [7] 3 example_chunk = Ok (n1, (1, rec)) ∧ h_backfilled n1 = true.
Proof.
  assert (match backfill_shielded_history example_headers example_node [7] 3 example_chunk with Ok (n1, (idx, _)) => (idx, h_backfilled n1) | _ => (0, false) end = (1, true)) as H by (vm_compute; reflexivity).
  destruct (backfill_shielded_history _ _ _ _ _) as [[n1 [idx rec]]| |]; [|done..]. injection H as -> H. by exists n1, rec.
Qed.
Lemma example_chunk_indexes : Forall (λ e : record, 0 <= e.1) example_chunk.
Proof. repeat constructor; cbn; lia. Qed.


Lemma anchor_record_survives_witness : ∃ n1 n2 rec d, backfill_shielded_history example_headers example_node [7] 3 example_chunk = Ok (n1, (1, rec)) ∧
  purge_backfilled_shielded_history n1 [7] = Ok (n2, d) ∧ ScanStore.get (h_db n2) [7] = Some (scan_row (example_record [7] 5)).
Proof.
  destruct example_backfill as (n1 & rec & E & _).
  destruct (anchor_record_survives example_headers example_node [7] [[8]] 3 example_chunk n1 1 rec (example_record [7] 5) [7] example_own_node example_chunk_indexes E ltac:(lia) ltac:(right; left) eq_refl)
    as (n2 & d & Ep & Es & _).
  exists n1, n2, rec, d. split; [exact E|]. split; [exact Ep|exact Es].
Defined.

Lemma anchor_only_chunk_unmarked_witness : ∃ n1 rec n2 d, backfill_shielded_history example_headers example_node [7] 3 [(3, example_record [7] 5)] = Ok (n1, (0, rec)) ∧
  h_backfilled n1 = false ∧ purge_backfilled_shielded_history n1 [8] = Ok (n2, d) ∧ get_by_hash (h_index n2) [7] = None.
Proof.
  destruct (anchor_only_chunk_unmarked example_headers [1] example_node [7] [[8]] (mk_header 5 4 0) (example_record [7] 5) 3 example_own_node eq_refl ltac:(cbn; lia) ltac:(vm_compute; congruence)
    eq_refl eq_refl eq_refl (Forall_nil_2 _)) as (n1 & rec & E & Hf & _ & Hp).
  destruct (Hp 1%nat [8] eq_refl) as (n2 & d & Ep & _ & Hg). exists n1, rec, n2, d. split; [exact E|]. split; [exact Hf|]. split; [exact Ep|]. exact (proj1 (Hg 0%nat [7] ltac:(lia) eq_refl)).
Defined.
