(* ===== verification/HistoryVerify.v ===== *)
(** What a verified history is: the replay of the archived records, and the verdicts. *)
From stdpp Require Import base gmap list sorting.
From S2P Require Import Prelude Tree ShieldedState MuHash TxValidator ShieldedStores ShieldedManager ShieldedSnapshots CoinbaseNotes SelectedChain History.

(** ** The replay *)

Section replay.
Context {O : OrchardTree} {OL : OrchardTreeLaws O}.

Definition decodes (bs : list bytes) (cms : list Cmx) : Prop := Forall2 (λ b c, cmx_from_bytes b = Some c) bs cms.

Lemma append_cons t c l t' : append_commitments t (c :: l) = (t', Ok ()) ↔ ∃ t1, tree_append t c = Ok t1 ∧ append_commitments t1 l = (t', Ok ()).
Proof. cbn. destruct (tree_append t c) as [t1| |]; naive_solver. Qed.
Lemma append_app t l1 l2 t1 t2 : append_commitments t l1 = (t1, Ok ()) → append_commitments t1 l2 = (t2, Ok ()) → append_commitments t (l1 ++ l2) = (t2, Ok ()).
Proof. revert t. induction l1 as [|c l1 IH]; intros t; [by intros [= <-]|]. intros (t0 & Ht & H1)%append_cons H2. apply append_cons. eauto. Qed.

(** Appending archived commitments is appending what they decode to, and counts them. *)
Lemma replay_append_iff bs : ∀ t k t' k', 0 <= k < 2 ^ 64 →
  res_foldl replay_append (t, k) bs = Ok (t', k') ↔ ∃ cms, decodes bs cms ∧ append_commitments t cms = (t', Ok ()) ∧ k' = k + Zlength bs ∧ k' < 2 ^ 64.
Proof.
  induction bs as [|b bs IH]; intros t k t' k' Hk; cbn [res_foldl].
  { split; [intros [= -> ->]; exists []; split; [constructor|]; split; [done|]; unfold Zlength; cbn; lia|].
    intros (cms & Hd & Ha & -> & _). apply Forall2_nil_inv_l in Hd as ->. cbn in Ha. injection Ha as ->. unfold Zlength. cbn. by rewrite Z.add_0_r. }
  rewrite Zlength_cons. pose proof (Zlength_ge0 bs) as Hlen. split.
  - intros ([t1 k1] & H1 & H2)%res_bind_ok. unfold replay_append in H1. destruct (cmx_from_bytes b) as [c|] eqn:Ec; [|done]. apply res_bind_ok in H1 as (t2 & Ht & H1). apply map_err_ok in Ht.
    apply res_bind_ok in H1 as (k2 & [-> Hk2]%add_u_ok & [= -> <-]). apply IH in H2 as (cms & Hd & Ha & -> & Hb); [|lia]. exists (c :: cms). split; [by constructor|].
    split; [by apply append_cons; eauto|]. lia.
  - intros (cms & Hd & Ha & -> & Hb). apply Forall2_cons_inv_l in Hd as (c & cms' & Ec & Hd & ->). apply append_cons in Ha as (t1 & Ht & Ha). 
    assert (replay_append (t, k) b = Ok (t1, k + 1)) as ->.
    { unfold replay_append. rewrite Ec, Ht. cbn [map_err mbind res_bind]. by rewrite (proj2 (add_u_ok 64 k 1 (k + 1))) by (split; [reflexivity|lia]). }
    cbn [mbind res_bind]. apply IH; [lia|]. exists cms'. split; [done|]. split; [done|]. lia.
Qed.

Abbreviation item := (option bytes * list bytes * list bytes)%type.
Definition item_cmxs (it : item) : list bytes := archived_cmxs it.1.2 it.2.

(** The replay of items that were read: the leaves of all of them, in order. *)
Lemma replay_items_iff (its : list item) : ∀ t k out f k', 0 <= k < 2 ^ 64 →
  (replay_loop (t, k) out (Ok <$> its)).2 = Ok (f, k') ↔
  ∃ cms t', decodes (its ≫= item_cmxs) cms ∧ append_commitments t cms = (t', Ok ()) ∧ f = to_state t' ∧ k' = k + Zlength (its ≫= item_cmxs) ∧ k' < 2 ^ 64.
Proof.
  induction its as [|[[label cb] acc] its IH]; intros t k out f k' Hk; cbn [fmap list_fmap replay_loop].
  { split; [intros [= <- <-]; exists [], t; split; [constructor|]; split; [done|]; split; [done|]; unfold Zlength; cbn; lia|].
    intros (cms & t' & Hd & Ha & -> & -> & _). apply Forall2_nil_inv_l in Hd as ->. injection Ha as ->. unfold Zlength. cbn. by rewrite Z.add_0_r. }
  rewrite bind_cons, Zlength_app. unfold item_cmxs at 1 3. cbn [fst snd]. set (bs := archived_cmxs cb acc). pose proof (Zlength_ge0 bs). pose proof (Zlength_ge0 (its ≫= item_cmxs)). split.
  - destruct (res_foldl replay_append (t, k) bs) as [[t1 k1]| |] eqn:E; [|done..]. apply replay_append_iff in E as (cms1 & Hd1 & Ha1 & -> & Hb1); [|lia].
    cbn [fst]. intros (cms2 & t' & Hd2 & Ha2 & -> & -> & Hb2)%IH; [|lia]. exists (cms1 ++ cms2), t'. split; [by apply Forall2_app|]. split; [by eapply append_app|]. split; [done|]. lia.
  - intros (cms & t' & Hd & Ha & -> & -> & Hb). apply Forall2_app_inv_l in Hd as (cms1 & cms2 & Hd1 & Hd2 & ->).
    assert (∃ t1, append_commitments t cms1 = (t1, Ok ()) ∧ append_commitments t1 cms2 = (t', Ok ())) as (t1 & Ha1 & Ha2).
    { clear -Ha. revert t Ha. induction cms1 as [|c cms1 IH]; intros t Ha; [by exists t|]. apply append_cons in Ha as (t0 & Ht & Ha). apply IH in Ha as (t1 & H1 & H2). exists t1.
      split; [apply append_cons; eauto|done]. }
    assert (res_foldl replay_append (t, k) bs = Ok (t1, k + Zlength bs)) as -> by (apply replay_append_iff; [lia|]; exists cms1; split; [done|]; split; [done|]; lia).
    cbn [fst]. apply IH; [lia|]. exists cms2, t'. split; [done|]. split; [done|]. split; [done|]. lia.
Qed.
(** A replay that succeeds read every item. *)
Lemma replay_reads items : ∀ s out r, (replay_loop s out items).2 = Ok r → ∃ its : list item, items = Ok <$> its.
Proof.
  induction items as [|[[[label cb] acc]| |] items IH]; intros s out r; cbn [replay_loop]; [by exists []| |done..].
  destruct (res_foldl replay_append s _) as [s'| |]; [|done..]. intros (its & ->)%IH. by exists ((label, cb, acc) :: its).
Qed.
(** The checkpoints are the frontiers after their blocks. *)
Lemma replay_checkpoints (its : list item) : ∀ t k out r h f, 0 <= k < 2 ^ 64 → (replay_loop (t, k) out (Ok <$> its)).2 = Ok r →
  (h, f) ∈ (replay_loop (t, k) out (Ok <$> its)).1 →
  (h, f) ∈ out ∨ ∃ pre it post cms t', its = pre ++ it :: post ∧ it.1.1 = Some h ∧ decodes ((pre ++ [it]) ≫= item_cmxs) cms ∧ append_commitments t cms = (t', Ok ()) ∧ f = to_state t'.
Proof.
  induction its as [|[[label cb] acc] its IH]; intros t k out r h f Hk; cbn [fmap list_fmap replay_loop]; [by left|].
  destruct (res_foldl replay_append (t, k) (archived_cmxs cb acc)) as [[t1 k1]| |] eqn:E; [|done..].
  apply replay_append_iff in E as (cms1 & Hd1 & Ha1 & -> & Hb1); [|lia]. pose proof (Zlength_ge0 (archived_cmxs cb acc)). intros Hr Hin.
  destruct (IH t1 (k + Zlength (archived_cmxs cb acc)) _ _ h f ltac:(lia) Hr Hin) as [Hout|(pre & it & post & cms & t' & -> & Hl & Hd & Ha & ->)].
  - assert ((h, f) ∈ out ∨ label = Some h ∧ f = to_state t1) as [|[-> ->]].
    { destruct label as [x|]; [|by left]. apply elem_of_app in Hout as [?|E%list_elem_of_singleton]; [by left|right]. by injection E as -> ->. }
    { by left. }
    right. exists [], (Some h, cb, acc), its, cms1, t1. split; [done|]. split; [done|]. cbn [app mbind list_bind]. rewrite app_nil_r. done.
  - right. exists ((label, cb, acc) :: pre), it, post, (cms1 ++ cms), t'. split; [done|]. split; [done|]. cbn [app]. rewrite bind_cons. split; [by apply Forall2_app|]. split; [by eapply append_app|done].
Qed.
End replay.

(** ** The verdict *)

Definition score_lt (x y : Z * Z) : Prop := x.1 < y.1 ∧ x.2 <= y.2.
Definition scores (d : ShieldedScanBlockData) : Z * Z := (scan_blue_score d, scan_daa_score d).
(** The records of the indexes from [i]. *)
Definition records (n : HistoryNode) (i : Z) (count : nat) : list ShieldedScanBlockData :=
  omap (λ j, h ← get_by_index (h_index n) j; ScanStore.get (h_db n) h) (seqZ i (Z.of_nat count)).

Lemma scores_loop_iff n count : ∀ i last, scores_loop n i count last = None ↔
  (∀ j, i <= j < i + Z.of_nat count → is_Some (get_by_index (h_index n) j)) ∧
  Sorted score_lt (option_list last ++ (scores <$> records n i count)).
Proof.
  unfold records. induction count as [|count IH]; intros i last; cbn [scores_loop].
  { split; [|done]. intros _. split; [intros j Hj; lia|]. destruct last; cbn; repeat constructor. }
  rewrite Nat2Z.inj_succ, seqZ_cons, Z.pred_succ by lia. cbn [omap list_omap]. destruct (get_by_index (h_index n) i) as [h|] eqn:Eh; cbn [mbind option_bind].
  2:{ split; [done|]. intros [H _]. destruct (H i ltac:(lia)) as [h E]. congruence. }
  assert (∀ P : Prop, ((∀ j, i + 1 <= j < i + 1 + Z.of_nat count → is_Some (get_by_index (h_index n) j)) ∧ P) ↔
    ((∀ j, i <= j < i + Z.succ (Z.of_nat count) → is_Some (get_by_index (h_index n) j)) ∧ P)) as Hidx.
  { intros P. split; intros [H HP]; (split; [|done]); intros j Hj; [destruct (decide (j = i)) as [->|]; [by eexists|]|]; apply H; lia. }
  destruct (ScanStore.get (h_db n) h) as [d|]; [|by rewrite IH, Hidx].
  destruct last as [[lb ld]|]; cbn [option_list app fmap list_fmap]; [|by rewrite IH, Hidx].
  destruct ((scan_blue_score d <=? lb) || (scan_daa_score d <? ld)) eqn:Ef.
  - split; [done|]. intros [_ Hs]. apply Sorted_inv in Hs as [_ Hs]. inversion Hs as [|? ? [H1 H2]]; subst. cbn in H1, H2. apply orb_true_iff in Ef as [Ef%Z.leb_le|Ef%Z.ltb_lt]; lia.
  - apply orb_false_iff in Ef as [E1%Z.leb_gt E2%Z.ltb_ge]. rewrite IH, Hidx. cbn [option_list app]. split; intros [H1 Hs]; (split; [done|]); [|by apply Sorted_inv in Hs as [Hs _]].
    constructor; [done|]. constructor. split; cbn; lia.
Qed.

(** The pruning points are on the chain in order, with the scores of their headers. *)
Definition pp_ok (n : HistoryNode) (base_index : Z) (pp : bytes * CompactHeaderData) (i : Z) : Prop :=
  get_by_hash (h_index n) pp.1 = Some i ∧
  (i <= base_index → ∀ d, ScanStore.get (h_db n) pp.1 = Some d → scores d = (ch_blue_score pp.2, ch_daa_score pp.2)).
Lemma pruning_points_iff n base_index pps : ∀ last, pruning_points_loop n base_index last pps = None ↔
  ∃ ks, Forall2 (pp_ok n base_index) pps ks ∧ Sorted Z.lt (option_list last ++ ks).
Proof.
  induction pps as [|[h hd] pps IH]; intros last; cbn [pruning_points_loop].
  { split; [|done]. intros _. exists []. split; [constructor|]. destruct last; cbn; repeat constructor. }
  assert (∀ i, (∃ ks, Forall2 (pp_ok n base_index) ((h, hd) :: pps) ks ∧ Sorted Z.lt (option_list last ++ ks)) → get_by_hash (h_index n) h = Some i →
    (match last with Some l => l < i | None => True end) ∧ pp_ok n base_index (h, hd) i ∧ ∃ ks, Forall2 (pp_ok n base_index) pps ks ∧ Sorted Z.lt (i :: ks)) as Hinv.
  { intros i (ks & H2 & Hs) Hi. apply Forall2_cons_inv_l in H2 as (i' & ks' & Hp & H2 & ->). pose proof Hp as [Hp1 _]. cbn [fst] in Hp1. rewrite Hi in Hp1. injection Hp1 as <-.
    destruct last as [l|]; cbn [option_list app] in Hs; [|by eauto]. apply Sorted_inv in Hs as [Hs Hl]. inversion Hl; subst. eauto. }
  destruct (get_by_hash (h_index n) h) as [i|] eqn:Ei; [|split; [done|]; intros (ks & H2 & _); apply Forall2_cons_inv_l in H2 as (i & ks' & [E _] & _ & _); cbn [fst] in E; congruence].
  assert ((match last with Some l => l < i | None => True end) → pp_ok n base_index (h, hd) i → (∃ ks, Forall2 (pp_ok n base_index) pps ks ∧ Sorted Z.lt (i :: ks)) →
    ∃ ks, Forall2 (pp_ok n base_index) ((h, hd) :: pps) ks ∧ Sorted Z.lt (option_list last ++ ks)) as Hintro.
  { intros Hl Hp (ks & H2 & Hs). exists (i :: ks). split; [by constructor|]. destruct last; cbn [option_list app]; [|done]. constructor; [done|]. by constructor. }
  destruct (match last with Some l => i <=? l | None => false end) eqn:El.
  { split; [done|]. intros (Hl & _)%(Hinv i); [|done]. destruct last; [|done]. apply Z.leb_le in El. lia. }
  assert (match last with Some l => l < i | None => True end) as Hl by (destruct last; [apply Z.leb_gt in El; lia|done]). cbn [option_list app] in IH.
  destruct (Z.ltb_spec base_index i).
  { rewrite IH. cbn [option_list app]. split; [|by intros (_ & _ & H')%(Hinv i)]. intros H'. apply Hintro; [done| |done]. split; [done|lia]. }
  destruct (ScanStore.get (h_db n) h) as [d|] eqn:Ed; [case_bool_decide as Hsc|].
  - rewrite IH. cbn [option_list app]. split; [|by intros (_ & _ & H')%(Hinv i)]. intros H'. apply Hintro; [done| |done]. split; [done|]. cbn [fst snd]. intros _ d' E. rewrite Ed in E. by injection E as <-.
  - split; [done|]. intros (_ & [_ Hp] & _)%(Hinv i); [|done]. destruct Hsc. exact (Hp ltac:(lia) d Ed).
  - rewrite IH. cbn [option_list app]. split; [|by intros (_ & _ & H')%(Hinv i)]. intros H'. apply Hintro; [done| |done]. split; [done|]. cbn [fst snd]. intros _ d' E. congruence.
Qed.

Section verdict.
Context {O : OrchardTree} {OL : OrchardTreeLaws O} {N : OrchardNotes O} (blake2b_64 blake2b_32 : bytes → bytes → bytes).
Context (MuHashElementHash : bytes → bytes) (chacha20 : bytes → nat → bytes) (MuHashFinalizeHash : bytes → bytes).
Context (natural_mod_inverse : Z → Z → option Z) (debug_assertions : bool) {ML : MuHashLaws chacha20 natural_mod_inverse}.
Context (seed_activation : Z).

Abbreviation verify := (verify_shielded_history blake2b_64 blake2b_32 MuHashElementHash chacha20 MuHashFinalizeHash natural_mod_inverse debug_assertions seed_activation).
Abbreviation replay_item := (History.replay_item blake2b_64 blake2b_32 seed_activation).
Abbreviation acc_hash := (ShieldedSnapshots.acc_hash MuHashElementHash chacha20 MuHashFinalizeHash).
Abbreviation muhash_root := (ShieldedManager.muhash_root MuHashFinalizeHash natural_mod_inverse debug_assertions (E := ())).
Abbreviation item := (option bytes * list bytes * list bytes)%type.

(** The leaves of the block at index [i]: the coinbase outputs of its record derive the commitments it stores. *)
Definition bound_item (n : HistoryNode) (i : Z) (h : bytes) (it : item) : Prop :=
  match ScanStore.get (h_db n) h with
  | None => it = (None, [], [])
  | Some d =>
      let seed_block := if is_active seed_activation (scan_daa_score d) then Some h else None in
      ∃ ns, coinbase_notes_from_outputs blake2b_64 blake2b_32 (scan_coinbase_txid d) (scan_coinbase_outputs d) seed_block = Ok ns ∧
        (scan_coinbase_commitments d = [] ∨ scan_coinbase_commitments d = (λ c, cmx_to_bytes (note_commitment c)) <$> ns) ∧
        it = (if i mod SHIELDED_REPLAY_CHECKPOINT_INTERVAL =? 0 then Some h else None, (λ c, cmx_to_bytes (note_commitment c)) <$> ns, action_bytes <$> scan_accepted d)
  end.
Definition item_nfs (it : item) : list bytes := actions ← it.2; take 32 <$> chunks_exact COMPACT_ACTION_LEN actions.

Lemma replay_item_iff n i it : replay_item n i = Ok it ↔ ∃ h, get_by_index (h_index n) i = Some h ∧ bound_item n i h it.
Proof.
  unfold History.replay_item, bound_item. destruct (get_by_index (h_index n) i) as [h|]; cbn [ok_or mbind res_bind]; [|naive_solver].
  destruct (ScanStore.get (h_db n) h) as [d|] eqn:Ed; [|split; [intros [= <-]; exists h; by rewrite Ed|intros (h' & [= <-] & H'); rewrite Ed in H'; by subst]].
  cbv zeta. split.
  - intros (ns & Hn & H')%res_bind_ok. apply map_err_ok in Hn. exists h. split; [done|]. rewrite Ed. exists ns. split; [done|]. do 2 case_bool_decide; cbn in H'; try done; injection H' as <-; auto.
  - intros (h' & [= <-] & H'). rewrite Ed in H'. destruct H' as (ns & -> & Hc & ->). cbn [map_err mbind res_bind]. destruct Hc as [->| ->].
    + by rewrite (bool_decide_eq_true_2 ([] = [])) by done.
    + do 2 case_bool_decide; done.
Qed.
Lemma replay_items n l (its : list item) : replay_item n <$> l = Ok <$> its ↔ Forall2 (λ i it, ∃ h, get_by_index (h_index n) i = Some h ∧ bound_item n i h it) l its.
Proof.
  revert its. induction l as [|i l IH]; intros [|it its]; cbn [fmap list_fmap]; [split; [constructor|done]|split; [done|by intros ?%Forall2_nil_inv_l]|split; [done|by intros ?%Forall2_nil_inv_r]|].
  rewrite Forall2_cons, <- replay_item_iff, <- IH. split; [intros [= H1 H2]|intros [-> H2]; f_equal]; done.
Qed.
Lemma stream_nullifiers (its : list item) : (Ok <$> its : list (res () item)) ≫= item_nullifiers = its ≫= item_nfs.
Proof. induction its as [|[[label cb] acc] its IH]; [done|]. cbn [fmap list_fmap]. rewrite !bind_cons. f_equal. exact IH. Qed.

(** What the verdict [Verified] vouches for: the index is complete up to the base, the scores rise along it and agree with the headers of the
    pruning points, the coinbase outputs of every record derive its commitments, and the archived leaves and nullifiers reproduce the frontier
    and the accumulator that the node holds at the base. *)
Record verified_history (n : HistoryNode) (pps : list (bytes * CompactHeaderData)) (base : bytes) (base_index : Z) (its : list item) (cms : list Cmx) (t : GlobalTree) : Prop := {
  vh_base : get_by_hash (h_index n) base = Some base_index;
  vh_below : base_index ≠ 0;
  vh_items : Forall2 (λ i it, ∃ h, get_by_index (h_index n) i = Some h ∧ bound_item n i h it) (seqZ 0 (base_index + 1)) its;
  vh_scores : Sorted score_lt (scores <$> records n 0 (Z.to_nat (base_index + 1)));
  vh_pps : ∃ ks, Forall2 (pp_ok n base_index) pps ks ∧ Sorted Z.lt ks;
  vh_leaves : decodes (its ≫= item_cmxs) cms ∧ Zlength cms < 2 ^ 64;
  vh_tree : append_commitments tree_new cms = (t, Ok ());
  vh_frontier : TreeStore.get (h_db n) base = to_state t ∧ fs_size (to_state t) ≠ 0;
  vh_nullifiers : muhash_root (MuHashStore.get (h_db n) base) = Ok (acc_hash (its ≫= item_nfs));
}.

Lemma scores_loop_verdict n count : ∀ i last b l, scores_loop n i count last ≠ Some (Verified b l).
Proof. induction count as [|count IH]; intros i last b l; cbn; [done|]. repeat case_match; try done; apply IH. Qed.
Lemma pruning_points_verdict n bi pps : ∀ last b l, pruning_points_loop n bi last pps ≠ Some (Verified b l).
Proof. induction pps as [|[h hd] pps IH]; intros last b l; cbn; [done|]. repeat case_match; try done; apply IH. Qed.
(** The frontiers a batch of checkpoints writes. *)
Lemma checkpoint_rows db (cps : list (bytes * FrontierState)) h f :
  TreeStore.get_present (write db (foldl (λ batch '(hash, f), persist_replayed_frontier batch hash f) [] cps)) h = Some f →
  TreeStore.get_present db h = Some f ∨ (h, f) ∈ cps.
Proof.
  induction cps as [|[h' f'] cps IH] using rev_ind; [by left|]. rewrite foldl_app. cbn [foldl]. unfold persist_replayed_frontier at 1, TreeStore.set_batch. rewrite write_snoc.
  unfold TreeStore.get_present at 1. cbn [apply_op]. rewrite set_table_same. intros H. destruct (decide (h' = h)) as [->|Hne].
  - right. apply elem_of_app. right. rewrite (lookup_insert_eq (_ : gmap bytes (row ShieldedTreeFrontier))) in H. injection H as ->. left.
  - assert (TreeStore.get_present (write db (foldl (λ batch '(hash, f), persist_replayed_frontier batch hash f) [] cps)) h = Some f) as H'.
    { etrans; [symmetry; exact (lookup_insert_ne (_ : gmap bytes (row ShieldedTreeFrontier)) h' h f' Hne)|exact H]. }
    destruct (IH H') as [|]; [by left|right; apply elem_of_app; by left].
Qed.

Lemma checkpoint_scans db (cps : list (bytes * FrontierState)) h :
  ScanStore.get (write db (foldl (λ batch '(hash, f), persist_replayed_frontier batch hash f) [] cps)) h = ScanStore.get db h.
Proof.
  refine (write_other _ _ ShieldedScanBlock h _). induction cps as [|[h' f'] cps IH] using rev_ind; [constructor|]. rewrite foldl_app. cbn [foldl]. unfold persist_replayed_frontier at 1, TreeStore.set_batch.
  apply Forall_app. split; [exact IH|]. constructor; [|constructor]. intros [E _]. by cbn in E.
Qed.
(** A verified history changes neither the index nor the records. *)
Lemma verified_effect n pps base n' blocks leaves : verify n pps base = Ok (n', Verified blocks leaves) →
  h_index n' = h_index n ∧ h_verified_base n' = Some base ∧ ∀ h, ScanStore.get (h_db n') h = ScanStore.get (h_db n) h.
Proof.
  clear OL. unfold verify_shielded_history. intros H. destruct (Z.eqb_spec (fs_size (TreeStore.get (h_db n) base)) 0); [done|]. destruct (get_by_hash (h_index n) base) as [bi|]; [|done].
  destruct (Z.eqb_spec bi 0); [done|]. destruct (scores_loop n 0 (Z.to_nat (bi + 1)) None) as [v|] eqn:Es; [injection H as _ ->; by apply scores_loop_verdict in Es|].
  destruct (pruning_points_loop n bi None pps) as [v|] eqn:Ep; [injection H as _ ->; by apply pruning_points_verdict in Ep|].
  destruct (replay_frontier_streaming_capturing _) as [cps replayed]. apply res_bind_ok in H as (m & _ & H). apply res_bind_ok in H as (eh & _ & H).
  destruct replayed as [[f k]|[]|]; try done. case_bool_decide; [|done]. apply res_bind_ok in H as (mh & _ & H). case_bool_decide; [|done]. injection H as <- _ _.
  split; [done|]. split; [done|]. intros h. apply checkpoint_scans.
Qed.

(** C16. A verdict of [Verified] is backed by the whole archive: the index is complete up to the base, scores rise along it and agree with the pruning points,
    every coinbase output derives its stored commitment, and replaying all leaves and nullifiers from the genesis gives exactly the frontier and the
    nullifier accumulator that the node holds at the base; every frontier it then stores is that of a prefix of the verified leaves. *)
Theorem verified_history_sound n pps base n' blocks leaves : verify n pps base = Ok (n', Verified blocks leaves) →
  ∃ its cms t, verified_history n pps base (blocks - 1) its cms t ∧ leaves = Zlength cms ∧
    h_index n' = h_index n ∧ h_verified_base n' = Some base ∧
    ∀ h f, TreeStore.get_present (h_db n') h = Some f → TreeStore.get_present (h_db n) h = Some f ∨
      ∃ pre it post cms' t', its = pre ++ it :: post ∧ it.1.1 = Some h ∧ decodes ((pre ++ [it]) ≫= item_cmxs) cms' ∧ append_commitments tree_new cms' = (t', Ok ()) ∧ f = to_state t'.
Proof.
  unfold verify_shielded_history. intros H. destruct (Z.eqb_spec (fs_size (TreeStore.get (h_db n) base)) 0); [done|]. destruct (get_by_hash (h_index n) base) as [bi|] eqn:Ebi; [|done].
  destruct (Z.eqb_spec bi 0); [done|]. destruct (scores_loop n 0 (Z.to_nat (bi + 1)) None) as [v|] eqn:Es; [injection H as _ ->; by apply scores_loop_verdict in Es|].
  destruct (pruning_points_loop n bi None pps) as [v|] eqn:Ep; [injection H as _ ->; by apply pruning_points_verdict in Ep|].
  destruct (replay_frontier_streaming_capturing _) as [cps replayed] eqn:Er. apply res_bind_ok in H as (m & Hm & H). apply res_bind_ok in H as (eh & Heh & H).
  destruct replayed as [[f k]|[]|]; try done. case_bool_decide as Hf; [|done]. apply res_bind_ok in H as (mh & Hmh & H). case_bool_decide as Hmm; [|done]. injection H as <- <- <-. subst f eh.
  unfold replay_frontier_streaming_capturing in Er. pose proof (f_equal snd Er) as Er2. cbn [snd] in Er2. destruct (replay_reads _ _ _ _ Er2) as (its & Eits). rewrite Eits in *.
  apply replay_items_iff in Er2 as (cms & t & Hd & Ha & Ef & -> & Hk); [|lia]. rewrite stream_nullifiers in Hm.
  destruct (acc_of_ok MuHashElementHash chacha20 natural_mod_inverse (E := ()) _ _ (its ≫= item_nfs) (acc_ok_new MuHashElementHash chacha20)) as (m' & Em' & Hm').
  rewrite Em' in Hm. injection Hm as <-. cbn [app] in Hm'. rewrite (acc_root_ok MuHashElementHash chacha20 MuHashFinalizeHash natural_mod_inverse debug_assertions _ _ Hm') in Hmh. injection Hmh as <-.
  apply scores_loop_iff in Es as [_ Es]. apply pruning_points_iff in Ep. apply replay_items in Eits. exists its, cms, t. rewrite Z.add_0_l in *. pose proof (Forall2_length _ _ _ Hd) as Hl.
  replace (bi + 1 - 1) with bi by lia. split; [split; try done|split; [unfold Zlength; by rewrite Hl|]].
  - split; [done|]. unfold Zlength in *. by rewrite <- Hl.
  - split; [done|]. by rewrite <- Ef.
  - split; [done|]. split; [done|]. cbn [h_db]. intros h f Hf. apply checkpoint_rows in Hf as [Hf|Hf]; [by left|right].
    destruct (replay_checkpoints its tree_new 0 [] (TreeStore.get (h_db n) base, Zlength (its ≫= item_cmxs)) h f) as [?%elem_of_nil|?]; [lia|by rewrite Er|by rewrite Er|done|done].
Qed.
Lemma verified_complete n pps base base_index its cms t : 0 <= base_index → verified_history n pps base base_index its cms t →
  ∃ n', verify n pps base = Ok (n', Verified (base_index + 1) (Zlength cms)).
Proof.
  intros Hb [H1 H2 H3 H4 H5 [H6 H6'] H7 [H8 H8'] H9]. unfold verify_shielded_history. rewrite H1. rewrite H8. destruct (Z.eqb_spec (fs_size (to_state t)) 0); [done|]. destruct (Z.eqb_spec base_index 0); [done|].
  apply replay_items in H3 as Eits.
  rewrite (proj2 (scores_loop_iff n _ 0 None)); swap 1 2.
  { split; [|done]. intros j Hj. apply Forall2_length in H3 as Hl. destruct (Forall2_lookup_l _ _ _ (Z.to_nat j) j H3) as (it & _ & h & Hh & _); [|by eexists].
    apply lookup_seqZ. split; [lia|]. rewrite Z2Nat.id in Hj; lia. }
  rewrite (proj2 (pruning_points_iff n _ pps None)) by exact H5. rewrite Eits. pose proof (Forall2_length _ _ _ H6) as Hl.
  destruct (replay_frontier_streaming_capturing (Ok <$> its)) as [cps replayed] eqn:Er. assert (replayed = Ok (to_state t, Zlength cms)) as ->.
  { unfold replay_frontier_streaming_capturing in Er. pose proof (f_equal snd Er) as Er2. cbn [snd] in Er2. rewrite <- Er2. apply replay_items_iff; [lia|]. exists cms, t. unfold Zlength. rewrite Hl. unfold Zlength in H6'. split; [done|]. split; [done|]. split; [done|]. lia. }
  rewrite stream_nullifiers.
  destruct (acc_of_ok MuHashElementHash chacha20 natural_mod_inverse (E := ()) _ _ (its ≫= item_nfs) (acc_ok_new MuHashElementHash chacha20)) as (m' & Em' & Hm').
  rewrite Em'. cbn [mbind res_bind]. rewrite H9. cbn [mbind res_bind]. rewrite bool_decide_eq_true_2 by done.
  rewrite (acc_root_ok MuHashElementHash chacha20 MuHashFinalizeHash natural_mod_inverse debug_assertions _ _ Hm'). cbn [app mbind res_bind]. rewrite bool_decide_eq_true_2 by done. by eexists.
Qed.
End verdict.
