(* ===== verification/HistorySafety.v ===== *)
(** The archive of a node that validated its chain: what its records are, and that it verifies. *)
From stdpp Require Import base gmap list sorting.
From S2P Require Import Prelude Turnstile Nullifier Burn AnchorLog Tree Bundle ShieldedState StateRoot Tx Encoding TxHash Limbs MuHash.
From S2P Require Import TxValidator ShieldedStores ShieldedManager ShieldedSnapshots Coinbase CoinbaseNotes Mergeset ChainWalk ChainSpec ChainExample ReorgSafety.
From S2P Require Import SelectedChain History HistoryBackfill HistoryVerify.

Section archive.
Context (sha256 : bytes → bytes) (blake2b : bytes → bytes → bytes) {O : OrchardTree} {OL : OrchardTreeLaws O} (anchor_to_bytes : Anchor → bytes).
Context (MuHashElementHash : bytes → bytes) (chacha20 : bytes → nat → bytes) (MuHashFinalizeHash : bytes → bytes).
Context (cd : ChainData) (fp : ForkParams) {R : Reachability} {RL : ReachabilityLaws cd R} {BL : BlockLaws cd fp}.

Abbreviation chain_step := (ChainSpec.chain_step sha256 blake2b anchor_to_bytes MuHashElementHash chacha20 MuHashFinalizeHash cd fp).
Abbreviation chain_state := (ChainSpec.chain_state sha256 blake2b anchor_to_bytes MuHashElementHash chacha20 MuHashFinalizeHash cd fp).
Abbreviation state_of := (ChainSpec.state_of sha256 blake2b anchor_to_bytes MuHashElementHash chacha20 MuHashFinalizeHash cd fp).
Abbreviation chain_scan := (ChainSpec.chain_scan anchor_to_bytes cd fp).
Abbreviation bound_item := (HistoryVerify.bound_item (N := orchard_notes fp) (note_hash_64 fp) (note_hash_32 fp) (shielded_coinbase_seed_activation fp)).

(** ** The archive of a chain *)

(** The record of a block of the chain; the genesis, which has no shielded effect, has none or an empty one. *)
Definition archive_row (b : bytes) (o : option ShieldedScanBlockData) : Prop :=
  match selected_parent cd b with
  | Some p => ∃ csp, state_of p csp ∧ o = chain_scan csp b
  | None => o = None ∨ ∃ id ts, o = Some (mk_scan (blue_score cd b) (daa_score cd b) ts id [] [] [])
  end.
Definition archived_chain (n : HistoryNode) (l : list bytes) : Prop := ∀ b, b ∈ l → archive_row b (ScanStore.get (h_db n) b).
(** The index holds the chain [l], given from its tip, from index 0. *)
Definition indexed_chain (n : HistoryNode) (l : list bytes) : Prop := ∀ i, (i < length l)%nat → get_by_index (h_index n) (Z.of_nat i) = reverse l !! i.

Lemma indexed_parent n b l : indexed_chain n (b :: l) → indexed_chain n l ∧ get_by_index (h_index n) (Zlength l) = Some b.
Proof.
  intros H. split.
  - intros i Hi. rewrite H by (cbn; lia). rewrite reverse_cons, lookup_app_l by (by rewrite length_reverse). done.
  - unfold Zlength. rewrite H by (cbn; lia). rewrite reverse_cons, lookup_app_r by (by rewrite length_reverse). rewrite length_reverse, Nat.sub_diag. done.
Qed.
(** The record of a valid block. *)
Lemma valid_record n b p l csp cs : selected_parent cd b = Some p → chain cd p l → chain_state l = Some csp → chain_step p csp b = Some cs → archive_row b (ScanStore.get (h_db n) b) →
  ∃ ctx mint o, ctx_facts cd fp csp b ctx ∧ coinbase_mint cd fp b = Ok (Some mint) ∧ apply_chain_block sha256 (cs_state csp) (Some mint) (shielded_txs ctx) = Ok (cs_state cs, o) ∧
    cs_nfs cs = cs_nfs csp ++ out_new_nullifiers o ∧ ScanStore.get (h_db n) b = Some (scan_of cd fp b (Some mint) (shielded_scan ctx)).
Proof using BL RL.
  intros Hp Hl Hs Hst Hr. unfold archive_row in Hr. rewrite Hp in Hr. destruct Hr as (csp' & (l' & Hl' & Hs') & Hr). rewrite (chain_unique cd _ _ _ Hl' Hl), Hs in Hs'. injection Hs' as <-.
  destruct (chain_step_cases _ _ _ _ Hst) as (ctx & mint & o & Hc & _ & Hm & Ha & _ & Hn & _).
  destruct (chain_ctx_ok anchor_to_bytes cd fp csp b p Hp) as (ctx' & Hc' & Hf). rewrite Hc in Hc'. injection Hc' as <-.
  assert (∃ m, mint = Some m) as [m ->]. { unfold coinbase_mint in Hm. rewrite (bl_shielded (cd := cd)) in Hm. apply res_bind_ok in Hm as (m & _ & [= <-]). by exists m. }
  exists ctx, m, o. split; [done|]. split; [done|]. split; [done|]. split; [done|]. rewrite Hr. unfold ChainSpec.chain_scan. by rewrite Hc, Hm.
Qed.
Lemma record_bound n i b mint scan : coinbase_mint cd fp b = Ok (Some mint) → ScanStore.get (h_db n) b = Some (scan_of cd fp b (Some mint) scan) →
  bound_item n i b (if i mod SHIELDED_REPLAY_CHECKPOINT_INTERVAL =? 0 then Some b else None,
    (λ c, cmx_to_bytes (OrchardNotes := orchard_notes fp) (note_commitment c)) <$> notes mint, action_bytes <$> scan).
Proof using BL.
  intros Hm Hr. unfold HistoryVerify.bound_item. rewrite Hr. unfold coinbase_mint in Hm. rewrite (bl_shielded (cd := cd)) in Hm. apply res_bind_ok in Hm as (m & Hm & [= <-]).
  unfold build_coinbase_mint in Hm. apply res_bind_ok in Hm as (ns & Hn & [= <-]). exists ns. cbn [scan_daa_score scan_coinbase_txid scan_coinbase_outputs scan_of scan_coinbase_commitments scan_accepted cb_notes notes].
  rewrite (bl_shielded (cd := cd)). split; [exact Hn|]. by auto.
Qed.
Lemma nullifiers_of_actions (rs : list ShieldedScanTx) : (action_bytes <$> rs) ≫= (λ actions, take 32 <$> chunks_exact COMPACT_ACTION_LEN actions) =
  rs ≫= (λ r, take 32 <$> chunks_exact COMPACT_ACTION_LEN (action_bytes r)).
Proof. induction rs as [|r rs IH]; [done|]. rewrite fmap_cons, !bind_cons, IH. done. Qed.

(** Replaying the archive of a valid chain gives its tree and its nullifiers. *)
Lemma replayed_chain n b l cs : chain cd b l → chain_state l = Some cs → archived_chain n l → indexed_chain n l →
  ∃ its cms, Forall2 (λ i it, ∃ h, get_by_index (h_index n) i = Some h ∧ bound_item n i h it) (seqZ 0 (Zlength l)) its ∧ decodes (its ≫= item_cmxs) cms ∧
    append_commitments tree_new cms = (st_tree (cs_state cs), Ok ()) ∧ its ≫= item_nfs = cs_nfs cs.
Proof using BL RL OL.
  intros H. revert cs. induction H as [|b p l Hp Hl IH]; intros cs Hs Har Hix.
  - injection Hs as <-. specialize (Har (genesis cd) ltac:(left)). unfold archive_row in Har. rewrite (rl_genesis cd) in Har. pose proof (Hix 0%nat ltac:(cbn; lia)) as Hg. cbn in Hg.
    exists [(match ScanStore.get (h_db n) (genesis cd) with Some _ => Some (genesis cd) | None => None end, [], [])], []. split; [|by repeat constructor].
    constructor; [|constructor]. exists (genesis cd). split; [done|]. unfold HistoryVerify.bound_item. destruct Har as [->|(id & ts & ->)]; [done|]. exists []. split; [done|]. by auto.
  - rewrite (chain_state_cons sha256 blake2b anchor_to_bytes MuHashElementHash chacha20 MuHashFinalizeHash cd fp b p l Hl) in Hs. destruct (chain_state l) as [csp|] eqn:Es; [|done].
    destruct (indexed_parent _ _ _ Hix) as [Hix' Hib]. destruct (IH csp eq_refl) as (its & cms & H1 & H2 & H3 & H4); [intros x Hx; apply Har; by right|done|].
    destruct (valid_record n b p l csp cs Hp Hl Es Hs (Har b ltac:(left))) as (ctx & mint & o & Hf & Hm & Ha & Hn & Hr).
    pose proof (co_reference _ _ _ (state_of_ok _ _ _ Hl Es)) as Href.
    destruct (archive_rebuilds csp b ctx (Some mint) (cs_state cs) o Href Hf Hm Ha) as (Hnf & cms' & Hd & Hap).
    eexists (its ++ [_]), (cms ++ cms'). rewrite !bind_app. split; [|split; [|split]].
    + rewrite Zlength_cons, (Z.add_comm 1), seqZ_app by (pose proof (Zlength_ge0 l); lia). apply Forall2_app; [exact H1|]. change (seqZ (0 + Zlength l) 1) with [Z.of_nat 0 + (0 + Zlength l)].
      rewrite !Z.add_0_l. constructor; [|constructor]. exists b. split; [done|]. by apply (record_bound n (Zlength l) b mint (shielded_scan ctx)).
    + apply Forall2_app; [exact H2|]. cbn [mbind list_bind]. rewrite app_nil_r. exact Hd.
    + by eapply append_app.
    + rewrite H4, Hn. f_equal. cbn [mbind list_bind]. rewrite app_nil_r. unfold item_nfs. cbn [snd]. rewrite nullifiers_of_actions. exact Hnf.
Qed.

(** ** Scores *)

(** Every block has its selected parent among its blues. *)
Definition blue_rises : Prop := ∀ b p, selected_parent cd b = Some p → blue_score cd p < blue_score cd b.

Lemma sorted_snoc {A} (Rel : A → A → Prop) l x : Sorted Rel l → (∀ y, last l = Some y → Rel y x) → Sorted Rel (l ++ [x]).
Proof.
  clear. intros Hs Hx. induction Hs as [|y l Hs IH Hy]; [by repeat constructor|]. cbn [app]. constructor.
  - apply IH. intros z Hz. apply Hx. rewrite last_cons, Hz. done.
  - destruct l as [|z l]; [constructor; by apply Hx|]. inversion Hy; subst. by constructor.
Qed.
Lemma records_parent n b l : indexed_chain n (b :: l) → records n 0 (length (b :: l)) = records n 0 (length l) ++ option_list (ScanStore.get (h_db n) b).
Proof.
  intros [_ Hb]%indexed_parent. unfold records. cbn [length]. replace (Z.of_nat (S (length l))) with (Z.of_nat (length l) + 1) by lia. rewrite seqZ_app by lia. rewrite omap_app. f_equal.
  change (seqZ (0 + Z.of_nat (length l)) 1) with [Z.of_nat 0 + (0 + Z.of_nat (length l))]. rewrite !Z.add_0_l. cbn [omap list_omap]. fold (Zlength l). rewrite Hb. cbn [mbind option_bind].
  by destruct (ScanStore.get (h_db n) b).
Qed.
Lemma sorted_records n b l cs : blue_rises → chain cd b l → chain_state l = Some cs → archived_chain n l → indexed_chain n l →
  Sorted score_lt (scores <$> records n 0 (length l)) ∧ ∀ s, last (scores <$> records n 0 (length l)) = Some s → s = (blue_score cd b, daa_score cd b).
Proof using BL RL.
  intros Hblue H. revert cs. induction H as [|b p l Hp Hl IH]; intros cs Hs Har Hix.
  - rewrite records_parent by done. specialize (Har (genesis cd) ltac:(left)). unfold archive_row in Har. rewrite (rl_genesis cd) in Har.
    destruct Har as [->|(id & ts & ->)]; cbn; (split; [repeat constructor|]); [done|]. by intros s [= <-].
  - rewrite (chain_state_cons sha256 blake2b anchor_to_bytes MuHashElementHash chacha20 MuHashFinalizeHash cd fp b p l Hl) in Hs. destruct (chain_state l) as [csp|] eqn:Es; [|done].
    destruct (IH csp eq_refl) as [H1 H2]; [intros x Hx; apply Har; by right|by apply indexed_parent in Hix as [? _]|].
    destruct (valid_record n b p l csp cs Hp Hl Es Hs (Har b ltac:(left))) as (ctx & mint & o & _ & _ & _ & _ & Hr).
    rewrite records_parent, Hr, fmap_app by done.
    change (scores <$> option_list (Some (scan_of cd fp b (Some mint) (shielded_scan ctx)))) with [(blue_score cd b, daa_score cd b)]. split.
    + apply sorted_snoc; [done|]. intros s ->%H2. specialize (Hblue b p Hp). destruct (bl_daa (fp := fp) b p Hp). split; cbn; lia.
    + intros s. rewrite last_snoc. by intros [= <-].
Qed.

(** The header of a block. *)
Definition header_ok (b : bytes) (h : CompactHeaderData) : Prop := ch_blue_score h = blue_score cd b ∧ ch_daa_score h = daa_score cd b.
(** The scores of a record of the chain. *)
Lemma row_scores b d : archive_row b (Some d) → scores d = (blue_score cd b, daa_score cd b).
Proof.
  unfold archive_row. destruct (selected_parent cd b) as [p|]; [|intros [?|(id & ts & [= ->])]; done]. intros (csp & _ & E). unfold ChainSpec.chain_scan in E.
  destruct (ChainSpec.chain_ctx _ _ _ _ _) as [ctx| |]; [|done..]. destruct (coinbase_mint cd fp b) as [mint| |]; [|done..]. by injection E as ->.
Qed.

(** ** Verification *)

Context (natural_mod_inverse : Z → Z → option Z) (debug_assertions : bool) {ML : MuHashLaws chacha20 natural_mod_inverse}.
Abbreviation verify := (verify_shielded_history (N := orchard_notes fp) (note_hash_64 fp) (note_hash_32 fp) MuHashElementHash chacha20 MuHashFinalizeHash
  natural_mod_inverse debug_assertions (shielded_coinbase_seed_activation fp)).

(** Past pruning points lie on the chain, in order, and their headers are the chain's. *)
Definition pruning_points_on (l : list bytes) (pps : list (bytes * CompactHeaderData)) : Prop :=
  ∃ ks, Forall2 (λ pp k, 0 <= k ∧ reverse l !! Z.to_nat k = Some pp.1 ∧ header_ok pp.1 pp.2) pps ks ∧ Sorted Z.lt ks.
(** The frontier and the accumulator of a block with the state [cs]. *)
Definition base_rows (db : Db) (b : bytes) (cs : ChainState) : Prop :=
  TreeStore.get db b = to_state (st_tree (cs_state cs)) ∧ acc_ok MuHashElementHash chacha20 (MuHashStore.get db b) (cs_nfs cs).

Lemma pruning_points_ok n l pps base_index : archived_chain n l → indexed_chain n l → mirrored (h_index n) → pruning_points_on l pps → ∃ ks, Forall2 (pp_ok n base_index) pps ks ∧ Sorted Z.lt ks.
Proof.
  intros Har Hix Hm (ks & H2 & Hs). exists ks. split; [|done]. eapply Forall2_impl; [exact H2|]. intros [h hd] k (H0 & Hk & Hb & Hd). cbn [fst snd] in *.
  pose proof (lookup_lt_Some _ _ _ Hk) as Hl. rewrite length_reverse in Hl. split; cbn [fst snd].
  - unfold get_by_hash. apply Hm. pose proof (Hix (Z.to_nat k) Hl) as E. unfold get_by_index in E. rewrite Z2Nat.id in E by done. by rewrite E.
  - intros _ d Ed. rewrite Hb, Hd. apply row_scores. rewrite <- Ed. apply Har. apply elem_of_reverse. by eapply list_elem_of_lookup_2.
Qed.
(** The archive of a valid chain verifies at its tip. *)
Lemma archive_verifies n pps b l cs : blue_rises → chain cd b l → chain_state l = Some cs → b ≠ genesis cd → archived_chain n l → indexed_chain n l →
  mirrored (h_index n) → base_rows (h_db n) b cs → fs_size (TreeStore.get (h_db n) b) ≠ 0 → (∃ ks, Forall2 (pp_ok n (Zlength l - 1)) pps ks ∧ Sorted Z.lt ks) →
  ∃ n' leaves, verify n pps b = Ok (n', Verified (Zlength l) leaves).
Proof using BL RL OL ML.
  intros Hblue Hl Hs Hne Har Hix Hm [Ht Ha] Hsz Hpps. destruct (replayed_chain n b l cs Hl Hs Har Hix) as (its & cms & H1 & H2 & H3 & H4).
  destruct (sorted_records n b l cs Hblue Hl Hs Har Hix) as [Hsc _]. destruct (chain_head _ _ _ Hl) as [l' El]. pose proof (Zlength_ge0 l') as Hl'.
  assert (1 < Zlength l). { destruct Hl as [|b' p l0 Hp Hl0]; [done|]. rewrite Zlength_cons. destruct (chain_head _ _ _ Hl0) as [l1 ->]. rewrite Zlength_cons. pose proof (Zlength_ge0 l1). lia. }
  destruct (verified_complete (N := orchard_notes fp) (note_hash_64 fp) (note_hash_32 fp) MuHashElementHash chacha20 MuHashFinalizeHash natural_mod_inverse debug_assertions
    (shielded_coinbase_seed_activation fp) n pps b (Zlength l - 1) its cms (st_tree (cs_state cs))) as [n' E]; [lia| |exists n', (Zlength cms); by replace (Zlength l - 1 + 1) with (Zlength l) in E by lia].
  replace (Zlength l - 1 + 1) with (Zlength l) by lia. split; replace (Zlength l - 1 + 1) with (Zlength l) by lia; try done.
  - unfold get_by_hash. apply Hm. subst l. rewrite Zlength_cons. destruct (indexed_parent _ _ _ Hix) as [_ <-]. unfold get_by_index. f_equal. lia.
  - lia.
  - unfold Zlength at 1. by rewrite Nat2Z.id.
  - split; [done|]. pose proof (append_commitments_spec cms tree_new wf_tree_new) as Hsp. cbv zeta in Hsp. rewrite H3 in Hsp. destruct Hsp as (_ & _ & Hr).
    destruct (Z.leb_spec (tree_size tree_new + Zlength cms) (2 ^ TREE_DEPTH)); [|done]. unfold TREE_DEPTH in *. cbn in *. lia.
  - split; [done|]. by rewrite <- Ht.
  - rewrite H4. by apply acc_root_ok.
Qed.
End archive.

(** ** Nodes *)

Section nodes.
Context (sha256 : bytes → bytes) (blake2b : bytes → bytes → bytes) {O : OrchardTree} {OL : OrchardTreeLaws O} (anchor_to_bytes : Anchor → bytes).
Context (MuHashElementHash : bytes → bytes) (chacha20 : bytes → nat → bytes) (MuHashFinalizeHash : bytes → bytes).
Context (cd : ChainData) (fp : ForkParams) {R : Reachability} {RL : ReachabilityLaws cd R} {BL : BlockLaws cd fp}.
Context (natural_mod_inverse : Z → Z → option Z) (debug_assertions : bool) {ML : MuHashLaws chacha20 natural_mod_inverse}.
Abbreviation state_of := (ChainSpec.state_of sha256 blake2b anchor_to_bytes MuHashElementHash chacha20 MuHashFinalizeHash cd fp).
Abbreviation chain_state := (ChainSpec.chain_state sha256 blake2b anchor_to_bytes MuHashElementHash chacha20 MuHashFinalizeHash cd fp).
Abbreviation history := (ReorgSafety.history sha256 blake2b anchor_to_bytes MuHashElementHash chacha20 MuHashFinalizeHash cd fp natural_mod_inverse debug_assertions).
Abbreviation archived_chain := (HistorySafety.archived_chain sha256 blake2b anchor_to_bytes MuHashElementHash chacha20 MuHashFinalizeHash cd fp).
Abbreviation verify := (verify_shielded_history (N := orchard_notes fp) (note_hash_64 fp) (note_hash_32 fp) MuHashElementHash chacha20 MuHashFinalizeHash
  natural_mod_inverse debug_assertions (shielded_coinbase_seed_activation fp)).
Context (no_empty_collision : ∀ b cs, state_of b cs →
  acc_hash MuHashElementHash chacha20 MuHashFinalizeHash (cs_nfs cs) = EMPTY_MUHASH → U3072.cong 1 (product MuHashElementHash chacha20 (cs_nfs cs))).

(** What a node that stands on [d] holds of the blocks of its chain. *)
Lemma node_rows n d l b : history n d → chain cd d l → b ∈ l → ∃ cs, state_of b cs ∧
  block_rows sha256 blake2b anchor_to_bytes MuHashElementHash chacha20 MuHashFinalizeHash cd fp (n_db n) b cs.
Proof using OL RL BL ML no_empty_collision.
  intros Hn Hl Hb. apply (history_ok sha256 blake2b anchor_to_bytes MuHashElementHash chacha20 MuHashFinalizeHash cd fp natural_mod_inverse debug_assertions no_empty_collision) in Hn as [Hst [Hd _]].
  exact (so_rows _ _ _ _ _ _ _ _ _ Hst b (valid_chain _ _ _ _ _ _ _ _ n d l b Hst Hd Hl Hb)).
Qed.
Lemma node_archive n d l hn : history n d → chain cd d l → h_db hn = n_db n → archived_chain hn l.
Proof using OL RL BL ML no_empty_collision.
  intros Hn Hl E b Hb. destruct (node_rows n d l b Hn Hl Hb) as (cs & _ & Hr). unfold archive_row. rewrite E. pose proof (br_scan _ _ _ _ _ _ _ _ _ _ _ Hr) as Hs.
  destruct (selected_parent cd b); [exact Hs|by left].
Qed.
Lemma indexed_prefix n own_l l : index_of (h_index n) 0 (reverse own_l) → (∃ above, own_l = above ++ l) → indexed_chain n l.
Proof.
  intros H [above ->] i Hi. unfold get_by_index. rewrite (ix_own _ _ _ H) by lia. rewrite reverse_app, lookup_app_l by (rewrite length_reverse; lia). f_equal. lia.
Qed.

End nodes.
