(* ===== verification/HistoryFlow.v ===== *)
(** The transfer of shielded history between two nodes.

    [RequestShieldedHistoryFlow] (protocol/flows/src/v10/request_shielded_history.rs)
    answers a request with the records below a block, at most 4,000 of them.
    [IbdFlow::backfill_shielded_history] (protocol/flows/src/ibd/flow.rs) asks again below
    the lowest block it was sent until the genesis is reached, places every chunk, and
    verifies the whole against the pruning point before any of it is served.  The peer is
    a function of the round and the request; timeouts and the deadline are its failures
    and the argument [late].  The byte encoding of records, bincode, is a parameter.
    Waiting, throttling and log lines are left out; hashes travel at their own type. *)
From stdpp Require Import base gmap list sorting.
From S2P Require Import Prelude Tree ShieldedState MuHash TxValidator ShieldedStores ShieldedManager CoinbaseNotes SelectedChain History.

Record ShieldedHistoryEntry := mk_entry { e_block_hash : bytes; e_data : bytes; e_chain_index : Z }.
Record ShieldedHistoryChunkMessage := mk_chunk { msg_entries : list ShieldedHistoryEntry; msg_done : bool; msg_anchor_index : Z }.

Definition HISTORY_CHUNK_BLOCKS : Z := 4000.
Definition MAX_BLOCKS_PER_CHUNK : Z := 4000.
Definition MAX_HISTORY_CHUNK_RECORDS : Z := 8000.
Definition MAX_HISTORY_RECORD_BYTES : Z := 32 * 1024 * 1024.
Definition MAX_HISTORY_CHUNK_BYTES : Z := 256 * 1024 * 1024.
Definition MIN_HISTORY_CHUNK_RECORDS : Z := 1000.

(** ** The server *)

Section server.
Context (headers : bytes → option CompactHeaderData) (bincode_serialize : ShieldedChainBlockData → option bytes).

Definition entry_of (e : Z * ShieldedChainBlockData) : option ShieldedHistoryEntry :=
  data ← bincode_serialize e.2; Some (mk_entry (cbd_hash e.2) data e.1).
Definition handle_request (n : HistoryNode) (anchor : bytes) (max_blocks : Z) : option ShieldedHistoryChunkMessage :=
  let '(records, done, anchor_index) := get_shielded_history_indexed_below headers n anchor max_blocks in
  entries ← mapM entry_of records;
  Some (mk_chunk entries done anchor_index).
(** [start_impl]: one request. *)
Definition serve_request (n : HistoryNode) (anchor : bytes) (max_blocks : Z) : option ShieldedHistoryChunkMessage :=
  handle_request n anchor (Z.max 1 (Z.min max_blocks HISTORY_CHUNK_BLOCKS)).
End server.

(** ** The requester *)

Record FetchState := mk_fetch { f_node : HistoryNode; f_anchor : bytes; f_total_rec : Z; f_rounds : Z }.
Definition with_node (s : FetchState) (n : HistoryNode) : FetchState := mk_fetch n (f_anchor s) (f_total_rec s) (f_rounds s).
(** How the loop ends: it leaves, at the genesis or short of it, or the function returns an error. *)
Inductive FetchEnd := Fetched (reached_genesis : bool) | FetchFailed.

Section requester.
Context {O : OrchardTree} {N : OrchardNotes O} (blake2b_64 blake2b_32 : bytes → bytes → bytes).
Context (MuHashElementHash : bytes → bytes) (chacha20 : bytes → nat → bytes) (MuHashFinalizeHash : bytes → bytes).
Context (natural_mod_inverse : Z → Z → option Z) (debug_assertions : bool).
Context (headers : bytes → option CompactHeaderData) (genesis : bytes) (shielded_coinbase_seed_activation : Z).
Context (bincode_deserialize : bytes → option ShieldedChainBlockData).
(** The answer of the peer in a round, and whether the deadline has passed. *)
Context (peer : Z → bytes → Z → option ShieldedHistoryChunkMessage) (late : Z → bool).

Let verify := verify_shielded_history blake2b_64 blake2b_32 MuHashElementHash chacha20 MuHashFinalizeHash natural_mod_inverse debug_assertions shielded_coinbase_seed_activation.

(** The ceilings a chunk must respect before any record is decoded. *)
Definition chunk_refused (msg : ShieldedHistoryChunkMessage) : bool :=
  let es := msg_entries msg in
  (MAX_HISTORY_CHUNK_RECORDS <? Zlength es) ||
  existsb (λ e, MAX_HISTORY_RECORD_BYTES <? Zlength (e_data e)) es ||
  (MAX_HISTORY_CHUNK_BYTES <? sum_list_Z ((λ e, Zlength (e_data e)) <$> es)) ||
  (negb (msg_done msg) && (Zlength es <? MIN_HISTORY_CHUNK_RECORDS)).
Definition record_of (e : ShieldedHistoryEntry) : option (Z * ShieldedChainBlockData) :=
  data ← bincode_deserialize (e_data e); Some (e_chain_index e, data).

(** One turn of the loop. *)
Definition fetch_round (s : FetchState) : FetchState + exec (FetchState * FetchEnd) :=
  match peer (f_rounds s) (f_anchor s) MAX_BLOCKS_PER_CHUNK with
  | None => inr (Ok (s, FetchFailed))
  | Some msg =>
      if bool_decide (msg_entries msg = []) then inr (Ok (s, Fetched false))
      else if chunk_refused msg || late (f_rounds s) then inr (Ok (s, FetchFailed))
      else
        match mapM record_of (msg_entries msg) with
        | None => inr (Ok (s, FetchFailed))
        | Some records =>
            let records := merge_sort index_le records in
            let lowest := match records with (_, r) :: _ => cbd_hash r | [] => f_anchor s end in
            match backfill_shielded_history headers (f_node s) (f_anchor s) (msg_anchor_index msg) records with
            | Err _ => inr (Ok (s, FetchFailed))
            | Panic => inr Panic
            | Ok (n, (idx, rec)) =>
                match add_u (E := Empty_set) 64 (f_total_rec s) rec, add_u (E := Empty_set) 32 (f_rounds s) 1 with
                | Ok total_rec, Ok rounds =>
                    let s := mk_fetch n (f_anchor s) total_rec rounds in
                    if msg_done msg then inr (Ok (s, Fetched true))
                    else if (idx =? 0) && (rec =? 0) then inr (Ok (s, FetchFailed))
                    else if bool_decide (lowest = f_anchor s) then inr (Ok (s, Fetched false))
                    else inl (mk_fetch n lowest total_rec rounds)
                | _, _ => inr Panic
                end
            end
        end
  end.

(** A purge whose error is only logged. *)
Definition purge_logged (n : HistoryNode) (base : bytes) : exec HistoryNode :=
  match purge_backfilled_shielded_history n base with Ok (n, _) => Ok n | Err _ => Ok n | Panic => Panic end.
(** The verification of what was fetched; [false] when the function returns an error. *)
Definition finish_fetch (pps : list (bytes * CompactHeaderData)) (verify_base : bytes) (s : FetchState) (e : FetchEnd) : exec (HistoryNode * bool) :=
  match e with
  | FetchFailed => Ok (f_node s, false)
  | Fetched _ =>
      if 0 <? f_total_rec s then
        match verify (f_node s) pps verify_base with
        | Ok (n, Verified _ _) => Ok (n, true)
        | Ok (n, Mismatch) | Ok (n, Unverifiable) => n ← purge_logged n verify_base; Ok (n, false)
        | Err _ => n ← purge_logged (f_node s) verify_base; Ok (n, false)
        | Panic => Panic
        end
      else Ok (f_node s, true)
  end.
(** [IbdFlow::backfill_shielded_history]; [None] when [fuel] turns of the loop do not end it. *)
Definition request_shielded_history (fuel : nat) (pps : list (bytes * CompactHeaderData)) (pruning_point : bytes) (n : HistoryNode) : option (exec (HistoryNode * bool)) :=
  let anchor := get_shielded_history_base genesis n in
  match loop_nat fetch_round fuel (mk_fetch n anchor 0 0) with
  | inl _ => None
  | inr r => Some ('(s, e) ← r; finish_fetch pps pruning_point s e)
  end.
(** The callers: what a failed attempt left below the block the history started at is discarded. *)
Definition ask_peer (fuel : nat) (pps : list (bytes * CompactHeaderData)) (pruning_point : bytes) (n : HistoryNode) : option (exec (HistoryNode * bool)) :=
  let base_before := get_shielded_history_base genesis n in
  r ← request_shielded_history fuel pps pruning_point n;
  Some ('(n, ok) ← r; if (ok : bool) then Ok (n, true) else n ← purge_logged n base_before; Ok (n, false)).
End requester.
