(* ===== verification/HistorySync.v ===== *)
(** History from one node to another: what a node that archived its chain serves, chunk by
    chunk, to a node that starts from a pruning point of that chain is accepted there,
    verifies, and leaves that node's history complete. *)
From stdpp Require Import base gmap list sorting.
From S2P Require Import Prelude Turnstile Nullifier Burn AnchorLog Tree Bundle ShieldedState StateRoot Tx Encoding TxHash Limbs MuHash.
From S2P Require Import TxValidator ShieldedStores ShieldedManager ShieldedSnapshots Coinbase CoinbaseNotes Mergeset ChainWalk ChainSpec ChainExample ReorgSafety.
From S2P Require Import SelectedChain History HistoryBackfill HistoryVerify HistorySafety HistoryFlow.

(** ** What a node serves *)

Section serve.
Context (headers : bytes → option CompactHeaderData) (n : HistoryNode).
Abbreviation data := (shielded_chain_block_data headers (h_db n)).

(** The records of the blocks of [l], from the highest down, the lowest at index [base]. *)
Fixpoint served (base : Z) (l : list bytes) : list record :=
  match l with
  | [] => []
  | x :: l => match data x with Some r => (base + Zlength l, r) :: served base l | None => served base l end
  end.
Lemma serve_loop_ok mid low : ∀ max out, indexed_chain n (mid ++ low) → (∀ x, x ∈ mid → is_Some (data x)) → Zlength out + Zlength mid <= max + 1 →
  low = [] ∨ Zlength out + Zlength mid = max + 1 → serve_loop headers n max out (length (mid ++ low)) = (out ++ served (Zlength low) mid, length low).
Proof.
  induction mid as [|x mid IH]; intros max out Hix Hd Hle Hmax; cbn [served].
  { rewrite app_nil_r. cbn [app]. destruct low as [|y low]; [done|]. cbn [length serve_loop]. destruct (Z.leb_spec (Zlength out) max); [|done]. destruct Hmax as [|Hmax]; [done|]. unfold Zlength at 2 in Hmax. cbn in Hmax. lia. }
  rewrite <- app_comm_cons in Hix |- *. destruct (indexed_parent _ _ _ Hix) as [Hix' Hx]. rewrite Zlength_cons in *. pose proof (Zlength_ge0 mid). cbn [length serve_loop].
  destruct (Z.leb_spec (Zlength out) max); [|lia]. fold (Zlength (mid ++ low)). rewrite Hx. destruct (Hd x ltac:(left)) as [r Hr]. rewrite Hr.
  assert (Zlength (out ++ [(Zlength (mid ++ low), r)]) = Zlength out + 1) as El by (rewrite Zlength_app; done).
  rewrite IH; [|done|intros y Hy; apply Hd; by right|rewrite El; lia|rewrite El; destruct Hmax; [by left|right; lia]]. rewrite <- app_assoc, Zlength_app, (Z.add_comm (Zlength mid)). done.
Qed.
(** A request below an indexed block returns its record and those of the next [max] blocks, and is done when these are all. *)
Lemma serves_chunk x mid low max : indexed_chain n (x :: mid ++ low) → mirrored (h_index n) → (∀ y, y ∈ x :: mid → is_Some (data y)) → Zlength mid <= max → low = [] ∨ Zlength mid = max →
  get_shielded_history_indexed_below headers n x max = (served (Zlength low) (x :: mid), bool_decide (low = []), Zlength (mid ++ low)).
Proof.
  intros Hix Hm Hd Hle Hmax. destruct (indexed_parent _ _ _ Hix) as [Hix' Hx]. destruct (Hd x ltac:(left)) as [r Hr]. unfold get_shielded_history_indexed_below, get_by_hash. rewrite (proj1 (Hm _ _) Hx), Hr.
  unfold Zlength at 2. rewrite Nat2Z.id. assert (Zlength [(Zlength (mid ++ low), r)] = 1) as E1 by done.
  rewrite serve_loop_ok; [|done|intros y Hy; apply Hd; by right|rewrite E1; lia|rewrite E1; destruct Hmax; [by left|right; lia]].
  cbn [served]. rewrite Hr, Zlength_app, (Z.add_comm (Zlength mid)). cbn [app]. f_equal. f_equal. destruct low; done.
Qed.
Lemma elem_of_served base l e : e ∈ served base l ↔ ∃ c x d, l = c ++ x :: d ∧ e.1 = base + Zlength d ∧ data x = Some e.2.
Proof.
  split.
  - induction l as [|x l IH]; [by intros ?%elem_of_nil|]. cbn [served]. intros He.
    assert (e ∈ served base l ∨ ∃ r, data x = Some r ∧ e = (base + Zlength l, r)) as [Hl|(r & Hr & ->)].
    { destruct (data x) as [r|] eqn:Er; [|by left]. apply elem_of_cons in He as [->|He]; [right; by exists r|by left]. }
    + destruct (IH Hl) as (c & y & d & -> & Hi & Hd). by exists (x :: c), y, d.
    + by exists [], x, l.
  - intros (c & x & d & -> & Hi & Hd). induction c as [|y c IH]; cbn [app served]; [rewrite Hd; destruct e as [i r]; cbn in *; subst i; left|]. destruct (data y); [by right|done].
Qed.
Lemma served_hashes base l : (∀ x, x ∈ l → ∃ r, data x = Some r ∧ cbd_hash r = x) → hashes (served base l) = l.
Proof.
  induction l as [|x l IH]; intros H; [done|]. destruct (H x ltac:(left)) as (r & Hr & Eh). cbn [served]. rewrite Hr. cbn [fmap list_fmap snd]. rewrite Eh. f_equal. apply IH.
  intros y Hy. apply H. by right.
Qed.
Lemma served_indexes base l : NoDup (served base l).*1.
Proof.
  induction l as [|x l IH]; [constructor|]. cbn [served]. destruct (data x) as [r|]; [|done]. cbn. constructor; [|done].
  intros (e & Ee & (c & y & d & -> & Hi & _)%elem_of_served)%list_elem_of_fmap. rewrite Hi, Zlength_app, Zlength_cons in Ee. pose proof (Zlength_ge0 c). lia.
Qed.
End serve.

(** ** From one node to another *)

Section sync.
Context (sha256 : bytes → bytes) (blake2b : bytes → bytes → bytes) {O : OrchardTree} {OL : OrchardTreeLaws O} (anchor_to_bytes : Anchor → bytes).
Context (MuHashElementHash : bytes → bytes) (chacha20 : bytes → nat → bytes) (MuHashFinalizeHash : bytes → bytes).
Context (cd : ChainData) (fp : ForkParams) {R : Reachability} {RL : ReachabilityLaws cd R} {BL : BlockLaws cd fp}.
Abbreviation chain_state := (ChainSpec.chain_state sha256 blake2b anchor_to_bytes MuHashElementHash chacha20 MuHashFinalizeHash cd fp).
Abbreviation archive_row := (HistorySafety.archive_row sha256 blake2b anchor_to_bytes MuHashElementHash chacha20 MuHashFinalizeHash cd fp).
Abbreviation archived_chain := (HistorySafety.archived_chain sha256 blake2b anchor_to_bytes MuHashElementHash chacha20 MuHashFinalizeHash cd fp).

Lemma chain_above y c x l : blue_rises cd → chain cd y (c ++ x :: l) → c ≠ [] → blue_score cd x < blue_score cd y ∧ daa_score cd x <= daa_score cd y.
Proof using BL.
  intros Hb. revert y. induction c as [|z c IH]; intros y H Hne; [done|]. cbn in H. inversion H as [E1 E2|b p l' Hp Hl]; subst; [by destruct c|].
  pose proof (Hb _ _ Hp). destruct (bl_daa (fp := fp) _ _ Hp) as [Hd _]. destruct c as [|z' c].
  - destruct (chain_head _ _ _ Hl) as [l' [= -> _]]. lia.
  - destruct (IH p Hl ltac:(done)). lia.
Qed.
Lemma chain_height x l : blue_rises cd → 0 <= blue_score cd (genesis cd) → chain cd x l → Zlength l - 1 <= blue_score cd x.
Proof.
  intros Hb H0. induction 1 as [|b p l Hp Hl IH]; [done|]. rewrite Zlength_cons. pose proof (Hb _ _ Hp). lia.
Qed.
Lemma zip_records (l : list ShieldedScanTx) : zip_with (λ a t, mk_scan_tx t a) (action_bytes <$> l) (scan_txid <$> l) = l.
Proof. induction l as [|[t a] l IH]; [done|]. cbn. f_equal. exact IH. Qed.

(** The record a node serves for a block of its chain. *)
Record good_record (x : bytes) (r : ShieldedChainBlockData) : Prop := {
  go_hash : cbd_hash r = x;
  go_scores : (cbd_blue_score r, cbd_daa_score r) = (blue_score cd x, daa_score cd x);
  go_row : archive_row x (Some (scan_row r));
  go_shape : Zlength (cbd_coinbase_commitments r) = Zlength (cbd_coinbase_outputs r) ∧ Forall (λ a, length a mod COMPACT_ACTION_LEN = 0)%nat (cbd_accepted_actions r);
}.
Lemma served_record headers n x l cs : chain cd x l → chain_state l = Some cs → archive_row x (ScanStore.get (h_db n) x) →
  (∃ h, headers (genesis cd) = Some h ∧ header_ok cd (genesis cd) h) → ∃ r, shielded_chain_block_data headers (h_db n) x = Some r ∧ good_record x r.
Proof using BL RL.
  intros Hl Hs Hr (hg & Hhg & Hg). destruct (state_of_cases sha256 blake2b anchor_to_bytes MuHashElementHash chacha20 MuHashFinalizeHash cd fp x l cs Hl Hs) as [[-> _]|(p & l' & csp & Hp & -> & Hl' & Hs' & Hst)].
  - assert (∀ id ts, archive_row (genesis cd) (Some (mk_scan (blue_score cd (genesis cd)) (daa_score cd (genesis cd)) ts id [] [] []))) as Hrow.
    { intros id ts. unfold HistorySafety.archive_row. rewrite (rl_genesis cd). right. by exists id, ts. }
    unfold HistorySafety.archive_row in Hr. rewrite (rl_genesis cd) in Hr. unfold shielded_chain_block_data. destruct Hr as [->|(id & ts & ->)].
    + rewrite Hhg. cbn [mbind option_bind]. destruct Hg as [Hg1 Hg2]. eexists. split; [reflexivity|]. split; cbn; [done|by rewrite Hg1, Hg2|rewrite Hg1, Hg2; apply Hrow|by split].
    + eexists. split; [reflexivity|]. split; cbn; [done|done|apply Hrow|by split].
  - destruct (valid_record sha256 blake2b anchor_to_bytes MuHashElementHash chacha20 MuHashFinalizeHash cd fp n x p l' csp cs Hp Hl' Hs' Hst Hr) as (ctx & mint & o & Hf & Hm & _ & _ & E).
    unfold shielded_chain_block_data. rewrite E in Hr |- *. eexists. split; [reflexivity|]. split; cbn [cbd_hash cbd_blue_score cbd_daa_score cbd_coinbase_commitments cbd_coinbase_outputs cbd_accepted_actions]; [done|done| |].
    + unfold scan_row. cbn. rewrite zip_records. exact Hr.
    + cbn [scan_of scan_coinbase_commitments scan_coinbase_outputs scan_accepted cb_notes]. rewrite (bl_shielded (cd := cd)). split.
      * unfold coinbase_mint in Hm. rewrite (bl_shielded (cd := cd)) in Hm. apply res_bind_ok in Hm as (m & Hm%build_mint_values & [= <-]).
        unfold Zlength. rewrite !length_fmap. apply (f_equal length) in Hm. rewrite !length_fmap in Hm. by rewrite Hm.
      * pose proof (cf_scan _ _ _ Hf) as Hsc. clear -Hsc. apply Forall_fmap. induction Hsc as [|tx r txs rs (_ & _ & Hr) _ IH]; constructor; done.
Qed.

(** The chain of [b] is valid and archived by [n], which indexes it from the genesis and holds the genesis header. *)
Record serves (headers : bytes → option CompactHeaderData) (n : HistoryNode) (b : bytes) (l : list bytes) (cs : ChainState) : Prop := {
  sv_chain : chain cd b l;
  sv_state : chain_state l = Some cs;
  sv_archive : archived_chain n l;
  sv_index : indexed_chain n l;
  sv_mirrored : mirrored (h_index n);
  sv_genesis : ∃ h, headers (genesis cd) = Some h ∧ header_ok cd (genesis cd) h;
}.
Lemma chain_prefix_state above x below : ∀ b cs, chain cd b (above ++ x :: below) → chain_state (above ++ x :: below) = Some cs → ∃ csx, chain_state (x :: below) = Some csx.
Proof using RL BL.
  induction above as [|y above IH]; intros b cs H Hs; [by exists cs|]. cbn [app] in *. inversion H as [E1 E2|b' p l' Hp Hl]; subst; [by destruct above|].
  rewrite (chain_state_cons sha256 blake2b anchor_to_bytes MuHashElementHash chacha20 MuHashFinalizeHash cd fp _ _ _ Hl) in Hs. destruct (chain_state (above ++ x :: below)) as [csp|] eqn:E; [|done]. by eapply IH.
Qed.
Lemma serves_records headers n b l cs above x below : serves headers n b l cs → l = above ++ x :: below →
  chain cd x (x :: below) ∧ ∃ r, shielded_chain_block_data headers (h_db n) x = Some r ∧ good_record x r.
Proof using RL BL.
  intros S ->. pose proof (chain_suffix cd _ _ _ _ (sv_chain _ _ _ _ _ S)) as Hx. split; [done|]. destruct (chain_prefix_state above x below b cs (sv_chain _ _ _ _ _ S) (sv_state _ _ _ _ _ S)) as [csx Hcs].
  apply (served_record headers n x (x :: below) csx Hx Hcs); [|exact (sv_genesis _ _ _ _ _ S)]. apply (sv_archive _ _ _ _ _ S). set_solver.
Qed.
Lemma served_elem_good headers n b l cs base upper part low e : serves headers n b l cs → l = upper ++ part ++ low → e ∈ served headers n base part →
  ∃ c x d, part = c ++ x :: d ∧ e.1 = base + Zlength d ∧ chain cd x (x :: d ++ low) ∧ good_record x e.2.
Proof using RL BL.
  intros S E (c & x & d & -> & Hi & Hd)%elem_of_served. assert (l = (upper ++ c) ++ x :: d ++ low) as E' by (rewrite E, <- !app_assoc; done).
  destruct (serves_records _ _ _ _ _ _ _ _ S E') as (Hx & r & Hr & Hg). rewrite Hd in Hr. injection Hr as <-. by exists c, x, d.
Qed.

(** What the receiving node holds: its own chain starts at [pp], whose header and state it has; it knows none of the blocks below, and the headers and
    records it does hold are those of the chain. *)
Record starts_at (headers : bytes → option CompactHeaderData) (n : HistoryNode) (pp : bytes) (above below : list bytes) (cs : ChainState) (h : CompactHeaderData) : Prop := {
  sa_own : own_node n (pp :: above);
  sa_room : Zlength below + Zlength (pp :: above) <= 2 ^ 64;
  sa_header : headers pp = Some h;
  sa_headers x hx : x ∈ pp :: below → headers x = Some hx → header_ok cd x hx;
  sa_new x : x ∈ below → get_by_hash (h_index n) x = None;
  sa_records x : x ∈ pp :: below → ScanStore.get (h_db n) x = None ∨ archive_row x (ScanStore.get (h_db n) x);
  sa_base : base_rows MuHashElementHash chacha20 (h_db n) pp cs;
}.

Section transfer.
Context (hs hr : bytes → option CompactHeaderData) (ns nr : HistoryNode) (pp : bytes) (above below : list bytes) (cs : ChainState) (h : CompactHeaderData).
Context (Hblue : blue_rises cd) (Hgenesis : 0 <= blue_score cd (genesis cd)) (SV : serves hs ns pp (pp :: below) cs) (A : starts_at hr nr pp above below cs h).

(** The node has the blocks down to [x], with [rest] still below; its own chain is at index [own], which is the number of blocks below [pp] once
    the first chunk was placed. *)
Record fetched (n : HistoryNode) (upper : list bytes) (x : bytes) (rest : list bytes) (own : Z) : Prop := {
  ft_split : pp :: below = upper ++ x :: rest;
  ft_index : index_of (h_index n) own (pp :: above);
  ft_own : own = 0 ∧ upper = [] ∨ own = Zlength below;
  ft_low j b : j <= own → hash_by_index (h_index n) !! j = Some b ↔
    Zlength rest <= j + Zlength below - own ∧ reverse (pp :: below) !! Z.to_nat (j + Zlength below - own) = Some b;
  ft_rows y : own = Zlength below → y ∈ upper ++ [x] → archive_row y (ScanStore.get (h_db n) y);
  ft_old y : y ∈ pp :: below → ScanStore.get (h_db n) y = None ∨ archive_row y (ScanStore.get (h_db n) y);
  ft_base : base_rows MuHashElementHash chacha20 (h_db n) pp cs;
}.

Lemma fetched_start : below ≠ [] → fetched nr [] pp below 0.
Proof using SV A.
  intros Hne. pose proof (sa_own _ _ _ _ _ _ _ A) as [H _]. assert (0 < Zlength below) by (unfold Zlength; destruct below; [done|cbn; lia]).
  split; [done|done|by left| |lia|exact (sa_records _ _ _ _ _ _ _ A)|exact (sa_base _ _ _ _ _ _ _ A)]. intros j b Hj. rewrite Z.sub_0_r.
  assert (reverse (pp :: below) !! length below = Some pp) as Ep by (rewrite reverse_cons, lookup_app_r, length_reverse, Nat.sub_diag by (rewrite length_reverse; done); done). split.
  - intros E. pose proof (ix_low _ _ _ H _ _ E). assert (j = 0) as -> by lia. split; [lia|]. rewrite (ix_own _ _ _ H) in E by lia. injection E as <-.
    rewrite Z.add_0_l. unfold Zlength. by rewrite Nat2Z.id.
  - intros [Hl E]. assert (j = 0) as -> by lia. rewrite (ix_own _ _ _ H) by lia. rewrite Z.add_0_l in E. unfold Zlength in E. rewrite Nat2Z.id, Ep in E. by injection E as <-.
Qed.

(** The own chain and the blocks below do not meet. *)
Lemma own_disjoint y : y ∈ above → y ∉ below.
Proof using SV A.
  intros [k Hk]%list_elem_of_lookup Hb. pose proof (sa_own _ _ _ _ _ _ _ A) as [H _]. pose proof (index_lookup _ _ _ (Datatypes.S k) y H Hk) as E.
  pose proof (sa_new _ _ _ _ _ _ _ A y Hb) as E'. unfold get_by_hash in E'. congruence.
Qed.
Lemma height_suffix c y d : pp :: below = c ++ y :: d → reverse (pp :: below) !! Z.to_nat (Zlength d) = Some y.
Proof. intros ->. rewrite reverse_app, reverse_cons, lookup_app_l by (rewrite length_app, length_reverse; unfold Zlength; cbn; lia). unfold Zlength. rewrite Nat2Z.id, lookup_app_r, length_reverse, Nat.sub_diag by (rewrite length_reverse; lia). done. Qed.
Lemma height_inv k y : reverse (pp :: below) !! Z.to_nat k = Some y → 0 <= k → ∃ c d, pp :: below = c ++ y :: d ∧ Zlength d = k.
Proof.
  intros (l1 & l2 & E & El)%list_elem_of_split_length Hk. apply (f_equal reverse) in E. rewrite reverse_involutive, reverse_app, reverse_cons, <- app_assoc in E.
  exists (reverse l2), (reverse l1). split; [done|]. unfold Zlength. rewrite length_reverse. lia.
Qed.
Lemma chain_split_unique c y d c' d' : pp :: below = c ++ y :: d → pp :: below = c' ++ y :: d' → d = d'.
Proof using SV RL.
  intros E E'. pose proof (sv_chain _ _ _ _ _ SV) as Hl. rewrite E in Hl. pose proof (chain_suffix _ _ _ _ _ Hl) as H1. rewrite <- E, E' in Hl. pose proof (chain_suffix _ _ _ _ _ Hl) as H2.
  pose proof (chain_unique cd _ _ _ H1 H2) as [= ->]. done.
Qed.
Lemma fetched_lowest n upper x rest own : fetched n upper x rest own →
  get_by_hash (h_index n) x = Some (Zlength rest + own - Zlength below) ∧ lowest n x ∧ shift_of n x (Zlength rest) = Zlength below - own ∧ 0 <= own <= Zlength below.
Proof.
  intros F. pose proof (f_equal Zlength (ft_split _ _ _ _ _ F)) as El. rewrite Zlength_app, !Zlength_cons in El. pose proof (Zlength_ge0 upper). pose proof (Zlength_ge0 below).
  assert (0 <= own <= Zlength below) as Ho by (destruct (ft_own _ _ _ _ _ F) as [[-> _]| ->]; lia).
  assert (get_by_hash (h_index n) x = Some (Zlength rest + own - Zlength below)) as Hx.
  { apply (ix_mirror _ _ _ (ft_index _ _ _ _ _ F)), (ft_low _ _ _ _ _ F); [lia|]. replace (Zlength rest + own - Zlength below + Zlength below - own) with (Zlength rest) by lia.
    split; [lia|]. exact (height_suffix _ _ _ (ft_split _ _ _ _ _ F)). }
  split; [done|]. split; [|split; [unfold shift_of, saturating_sub; rewrite Hx; cbn; lia|done]]. exists (Zlength rest + own - Zlength below). split; [done|].
  intros i b Hi. destruct (Z.le_gt_cases i own) as [Hle|]; [|lia]. apply (ft_low _ _ _ _ _ F) in Hi as [? _]; [lia|done].
Qed.
(** A block above the genesis has its record. *)
Lemma row_present n c y d : pp :: below = c ++ y :: d → d ≠ [] → archive_row y (ScanStore.get (h_db n) y) →
  ∃ sd, ScanStore.get (h_db n) y = Some sd ∧ scores sd = (blue_score cd y, daa_score cd y).
Proof using SV RL BL.
  intros E Hd Hr. pose proof (sv_chain _ _ _ _ _ SV) as Hl. pose proof (sv_state _ _ _ _ _ SV) as Hs. rewrite E in Hl, Hs. destruct (chain_prefix_state c y d pp cs Hl Hs) as [csy Hcs].
  pose proof (chain_suffix _ _ _ _ _ Hl) as Hy. destruct (state_of_cases sha256 blake2b anchor_to_bytes MuHashElementHash chacha20 MuHashFinalizeHash cd fp y _ csy Hy Hcs) as [[-> _]|(p & l' & csp & Hp & [= <-] & Hl' & Hs' & Hst)].
  - apply (chain_genesis_only cd) in Hy as [= ->]. done.
  - destruct (valid_record sha256 blake2b anchor_to_bytes MuHashElementHash chacha20 MuHashFinalizeHash cd fp n y p d csp csy Hp Hl' Hs' Hst Hr) as (ctx & mint & o & _ & _ & _ & _ & Es).
    eexists. split; [exact Es|]. apply (row_scores sha256 blake2b anchor_to_bytes MuHashElementHash chacha20 MuHashFinalizeHash cd fp). by rewrite <- Es.
Qed.
Lemma part_elem x mid low upper rs e : pp :: below = upper ++ x :: mid ++ low → rs ≡ₚ served hs ns (Zlength low) (x :: mid) → e ∈ rs →
  ∃ c y d, x :: mid = c ++ y :: d ∧ e.1 = Zlength low + Zlength d ∧ pp :: below = (upper ++ c) ++ y :: d ++ low ∧ chain cd y (y :: d ++ low) ∧ good_record y e.2.
Proof using SV RL BL.
  intros E Hrs He. rewrite Hrs in He. destruct (served_elem_good _ _ _ _ _ _ upper (x :: mid) low _ SV ltac:(by rewrite E) He) as (c & y & d & Ec & Hi & Hy & Hg).
  exists c, y, d. split; [done|]. split; [done|]. split; [|done]. rewrite E, app_comm_cons, Ec, <- !app_assoc. done.
Qed.
Lemma part_anchor x mid low c y d upper : pp :: below = upper ++ x :: mid ++ low → x :: mid = c ++ y :: d → Zlength low + Zlength d = Zlength (mid ++ low) ↔ y = x.
Proof using SV RL.
  intros E Ec. rewrite Zlength_app. pose proof (f_equal Zlength Ec) as El. rewrite Zlength_app, !Zlength_cons in El. pose proof (Zlength_ge0 c). split.
  - intros Hd. destruct c as [|z c]; [by injection Ec|]. rewrite Zlength_cons in *. pose proof (Zlength_ge0 c). lia.
  - intros ->. pose proof (chain_split_unique _ _ _ (upper ++ c) (d ++ low) E ltac:(by rewrite E, app_comm_cons, Ec, <- !app_assoc)) as Ed. apply (f_equal Zlength) in Ed. rewrite !Zlength_app in Ed. lia.
Qed.
Lemma served_existing n upper x mid low own c y d j : fetched n upper x (mid ++ low) own → pp :: below = (upper ++ c) ++ y :: d ++ low → x :: mid = c ++ y :: d →
  get_by_hash (h_index n) y = Some j → j + shift_of n x (Zlength (mid ++ low)) = Zlength low + Zlength d.
Proof using SV A RL.
  intros F E Ec Hj. destruct (fetched_lowest _ _ _ _ _ F) as (_ & _ & -> & Ho). apply (ix_mirror _ _ _ (ft_index _ _ _ _ _ F)) in Hj. destruct (Z.le_gt_cases j own) as [Hle|Hgt].
  - apply (ft_low _ _ _ _ _ F) in Hj as [Hl Hj]; [|done]. apply height_inv in Hj as (c' & d' & E' & Ed); [|pose proof (Zlength_ge0 (mid ++ low)); lia].
    rewrite <- (chain_split_unique _ _ _ _ _ E E'), Zlength_app in Ed. lia.
  - rewrite (ix_own _ _ _ (ft_index _ _ _ _ _ F)) in Hj by lia. assert (∃ k, Z.to_nat (j - own) = Datatypes.S k) as [k Ek] by (exists (Z.to_nat (j - own) - 1)%nat; lia). rewrite Ek in Hj. cbn in Hj.
    apply list_elem_of_lookup_2 in Hj. assert (y ∈ pp :: below) as Hy by (rewrite E; apply elem_of_app; right; left). apply elem_of_cons in Hy as [->|Hy]; [|by destruct (own_disjoint y)].
    pose proof (index_nodup _ _ _ (ft_index _ _ _ _ _ F)) as [Hn _]%NoDup_cons. done.
Qed.
Lemma fetched_good n upper x mid low own rs : fetched n upper x (mid ++ low) own → rs ≡ₚ served hs ns (Zlength low) (x :: mid) →
  good_chunk hr n x (Zlength (mid ++ low)) (blue_score cd x, daa_score cd x) rs.
Proof using SV A RL BL Hblue Hgenesis.
  intros F Hrs. pose proof (ft_split _ _ _ _ _ F) as E. pose proof (chain_NoDup cd _ _ (sv_chain _ _ _ _ _ SV)) as Hnd.
  assert (∀ e, e ∈ rs → ∃ c y d, x :: mid = c ++ y :: d ∧ e.1 = Zlength low + Zlength d ∧ pp :: below = (upper ++ c) ++ y :: d ++ low ∧ chain cd y (y :: d ++ low) ∧ good_record y e.2) as Hel
    by (intros e; by apply part_elem). split.
  - rewrite Hrs. apply served_indexes.
  - rewrite Hrs, served_hashes; [rewrite E, app_comm_cons in Hnd; apply NoDup_app in Hnd as (_ & _ & Hnd); by apply NoDup_app in Hnd as (Hnd & _)|].
    intros y (c & d & Ec)%list_elem_of_split. destruct (serves_records _ _ _ _ _ (upper ++ c) y (d ++ low) SV) as (_ & r & Hr & Hg); [by rewrite E, app_comm_cons, Ec, <- !app_assoc|]. exists r. split; [done|apply Hg].
  - intros e (c & y & d & Ec & -> & Ey & Hy & Hg)%Hel. pose proof (chain_height _ _ Hblue Hgenesis Hy) as Hht. rewrite Zlength_cons, Zlength_app in Hht. pose proof (go_scores _ _ Hg) as [= -> _].
    pose proof (f_equal Zlength Ec) as El. rewrite Zlength_app, !Zlength_cons in El. rewrite Zlength_app. pose proof (Zlength_ge0 c). pose proof (Zlength_ge0 d). pose proof (Zlength_ge0 low). lia.
  - intros ex ey (c1 & y1 & d1 & E1 & Hi1 & _ & Hy1 & Hg1)%Hel (c2 & y2 & d2 & E2 & Hi2 & _ & Hy2 & Hg2)%Hel Hlt. pose proof (go_scores _ _ Hg1) as [= -> ->]. pose proof (go_scores _ _ Hg2) as [= -> ->].
    rewrite E1 in E2. apply app_eq_inv in E2 as [(k & -> & Ek)|(k & -> & Ek)].
    + apply (chain_above y2 k y1 (d1 ++ low)); [done|by rewrite app_comm_cons, Ek, <- app_assoc in Hy2|]. intros ->. cbn in Ek. injection Ek as _ ->. lia.
    + pose proof (f_equal Zlength Ek) as El. rewrite Zlength_app, !Zlength_cons in El. pose proof (Zlength_ge0 k). lia.
  - intros e (c & y & d & Ec & -> & _ & _ & Hg)%Hel. rewrite (go_hash _ _ Hg). by apply (part_anchor x mid low c y d upper).
  - destruct (serves_records _ _ _ _ _ upper x (mid ++ low) SV E) as (_ & r & Hr & _). exists r. rewrite Hrs. apply elem_of_served. exists [], x, mid. split; [done|]. split; [cbn; rewrite Zlength_app; lia|done].
  - intros r (c & y & d & Ec & Hi & _ & _ & Hg)%Hel. cbn [fst snd] in *. symmetry in Hi. apply (part_anchor x mid low c y d upper E Ec) in Hi as ->. exact (go_scores _ _ Hg).
  - intros e hd (c & y & d & _ & _ & Ey & _ & Hg)%Hel Hh. rewrite (go_scores _ _ Hg), (go_hash _ _ Hg) in *. assert (y ∈ pp :: below) as Hy by (rewrite Ey; apply elem_of_app; right; left).
    by destruct (sa_headers _ _ _ _ _ _ _ A _ _ Hy Hh) as [-> ->].
  - intros e j (c & y & d & Ec & -> & Ey & _ & Hg)%Hel Hj. rewrite (go_hash _ _ Hg) in Hj. by apply (served_existing n upper x mid low own c y d j).
  - intros e (c & y & d & _ & _ & _ & _ & Hg)%Hel. exact (go_shape _ _ Hg).
Qed.
Lemma fetched_accepted n upper x rest own rs : fetched n upper x rest own → rest ≠ [] → good_chunk hr n x (Zlength rest) (blue_score cd x, daa_score cd x) rs →
  ∃ n' w, backfill_shielded_history hr n x (Zlength rest) rs = Ok (n', w).
Proof using SV A RL BL Hblue Hgenesis.
  intros F Hne G. pose proof (ft_split _ _ _ _ _ F) as E. destruct (fetched_lowest _ _ _ _ _ F) as (Hx & _ & Es & Ho).
  pose proof (sa_room _ _ _ _ _ _ _ A) as Hroom. pose proof (Zlength_ge0 above). pose proof (f_equal Zlength E) as El. rewrite Zlength_app, !Zlength_cons in El. pose proof (Zlength_ge0 upper).
  assert (x ∈ pp :: below) as Hxin by (rewrite E; apply elem_of_app; right; left).
  apply (chunk_accepted hr n own (pp :: above) x _ (Zlength rest) (blue_score cd x, daa_score cd x) rs (ft_index _ _ _ _ _ F) Hx); [| | | |done].
  - rewrite Es. intros Hpos. destruct (ft_own _ _ _ _ _ F) as [[-> ->]| ->]; [|lia]. injection E as <- <-. exists h. split; [apply A|].
    destruct (sa_headers _ _ _ _ _ _ _ A pp h ltac:(left) (sa_header _ _ _ _ _ _ _ A)) as [-> _]. pose proof (chain_height _ _ Hblue Hgenesis (sv_chain _ _ _ _ _ SV)) as Hht. rewrite Zlength_cons in Hht. lia.
  - unfold known_scores. destruct (hr x) as [hx|] eqn:Ehx; [by destruct (sa_headers _ _ _ _ _ _ _ A x hx Hxin Ehx) as [-> ->]|].
    destruct (ft_own _ _ _ _ _ F) as [[-> ->]|Eo]; [injection E as <- <-; rewrite (sa_header _ _ _ _ _ _ _ A) in Ehx; done|].
    destruct (row_present n upper x rest E Hne) as (sd & Esd & Hsd); [apply (ft_rows _ _ _ _ _ F); [done|apply elem_of_app; right; left]|]. exists sd. by split.
  - rewrite Es. lia.
  - rewrite Zlength_cons in Hroom. lia.
Qed.
(** The blocks of a chunk are indexed where the chain has them. *)
Lemma step_low n upper x mid low own rs n' idx rec j b : fetched n upper x (mid ++ low) own → rs ≡ₚ served hs ns (Zlength low) (x :: mid) → placed (Zlength (mid ++ low)) rs = rs →
  chunk_effect n n' x (Zlength (mid ++ low)) rs idx rec → j <= Zlength below →
  hash_by_index (h_index n') !! j = Some b ↔ Zlength low <= j ∧ reverse (pp :: below) !! Z.to_nat j = Some b.
Proof using SV A RL BL.
  intros F Hrs Ep C Hj. destruct (fetched_lowest _ _ _ _ _ F) as (_ & _ & Es & Ho). rewrite (ce_index _ _ _ _ _ _ _ C), Ep, Es, (ft_low _ _ _ _ _ F) by lia.
  replace (j - (Zlength below - own) + Zlength below - own) with j by lia. pose proof (ft_split _ _ _ _ _ F) as E. pose proof (Zlength_ge0 mid). pose proof (Zlength_ge0 low). rewrite Zlength_app. split.
  - intros [[? ?]|(Hlt & r & Hr & <-)]; [split; [lia|done]|]. destruct (part_elem x mid low upper rs _ E Hrs Hr) as (c & y & d & _ & Hi & Ey & _ & Hg). cbn [fst snd] in *.
    rewrite (go_hash _ _ Hg), Hi. pose proof (Zlength_ge0 d). split; [lia|]. rewrite Z.add_comm, <- Zlength_app. exact (height_suffix _ _ _ Ey).
  - intros [Hl Hb]. destruct (Z.le_gt_cases (Zlength mid + Zlength low) j) as [|Hgt]; [by left|right]. split; [done|].
    assert (reverse (mid ++ low) !! Z.to_nat j = Some b) as Hm.
    { rewrite E, reverse_app, reverse_cons in Hb. rewrite !lookup_app_l in Hb; [done|rewrite length_reverse, length_app; unfold Zlength in *; lia|rewrite length_app, length_reverse, length_app; unfold Zlength in *; cbn; lia]. }
    rewrite reverse_app, lookup_app_r, length_reverse in Hm by (rewrite length_reverse; unfold Zlength in *; lia).
    apply list_elem_of_split_length in Hm as (l1 & l2 & Em & El). apply (f_equal reverse) in Em. rewrite reverse_involutive, reverse_app, reverse_cons, <- app_assoc in Em.
    assert (x :: mid = (x :: reverse l2) ++ b :: reverse l1) as Ex by (cbn; by rewrite Em).
    destruct (serves_records _ _ _ _ _ (upper ++ x :: reverse l2) b (reverse l1 ++ low) SV) as (_ & r & Hr & Hg); [by rewrite E, app_comm_cons, Ex, <- !app_assoc|].
    exists r. split; [|apply Hg]. rewrite Hrs. apply elem_of_served. exists (x :: reverse l2), b, (reverse l1). split; [done|]. split; [|done]. cbn. unfold Zlength in *. rewrite length_reverse. lia.
Qed.
Lemma step_rows n upper x mid low own rs n' idx rec y : fetched n upper x (mid ++ low) own → rs ≡ₚ served hs ns (Zlength low) (x :: mid) → placed (Zlength (mid ++ low)) rs = rs →
  chunk_effect n n' x (Zlength (mid ++ low)) rs idx rec → NoDup (hashes rs) → y ∈ pp :: below →
  (ScanStore.get (h_db n') y = None ∨ archive_row y (ScanStore.get (h_db n') y)) ∧ (y ∈ upper ++ x :: mid → archive_row y (ScanStore.get (h_db n') y)).
Proof using SV A RL BL.
  intros F Hrs Ep C Hnd Hy. pose proof (ft_split _ _ _ _ _ F) as E. pose proof (ce_db _ _ _ _ _ _ _ C) as Edb. rewrite Ep in Edb.
  assert (y ∈ x :: mid → archive_row y (ScanStore.get (h_db n') y)) as Hpart.
  { intros (c & d & Ec)%list_elem_of_split. rewrite Edb. destruct (ScanStore.get (h_db n) y) as [sd|] eqn:Ed; [destruct (ft_old _ _ _ _ _ F y Hy) as [|Hold]; [congruence|]; rewrite scan_row_same; [done|right; by rewrite Ed]|].
    destruct (serves_records _ _ _ _ _ (upper ++ c) y (d ++ low) SV) as (_ & r & Hr & Hg); [by rewrite E, app_comm_cons, Ec, <- !app_assoc|]. rewrite <- (go_hash _ _ Hg) in Ed |- *.
    rewrite (scan_row_new _ (Zlength low + Zlength d) r); [rewrite (go_hash _ _ Hg); exact (go_row _ _ Hg)|done| |done]. rewrite Hrs. apply elem_of_served. by exists c, y, d. }
  destruct (decide (y ∈ x :: mid)) as [Hin|Hni]; [by auto|].
  assert (ScanStore.get (h_db n') y = ScanStore.get (h_db n) y) as Eold.
  { rewrite Edb. apply scan_row_same. left. rewrite Hrs. intros (e & Ee & He)%list_elem_of_fmap. rewrite <- Hrs in He. destruct (part_elem x mid low upper rs e E Hrs He) as (c & z & d & Ec & _ & _ & _ & Hg).
    rewrite (go_hash _ _ Hg) in Ee. subst z. apply Hni. rewrite Ec. apply elem_of_app. right. left. }
  rewrite Eold. split; [by apply (ft_old _ _ _ _ _ F)|]. intros [Hu|]%elem_of_app; [|done]. apply (ft_rows _ _ _ _ _ F); [|apply elem_of_app; by left].
  destruct (ft_own _ _ _ _ _ F) as [[_ ->]|]; [by apply elem_of_nil in Hu|done].
Qed.
(** A chunk takes the node down to its lowest block. *)
Lemma fetched_step n upper x mid y low own rs : fetched n upper x ((mid ++ [y]) ++ low) own → rs ≡ₚ served hs ns (Zlength low) (x :: mid ++ [y]) →
  ∃ n' idx rec, backfill_shielded_history hr n x (Zlength ((mid ++ [y]) ++ low)) rs = Ok (n', (idx, rec)) ∧ 0 < idx ∧ 0 <= rec <= Zlength rs ∧
    fetched n' (upper ++ x :: mid) y low (Zlength below) ∧ (rec = 0 → ∀ z, ScanStore.get (h_db n') z = ScanStore.get (h_db n) z).
Proof using SV A RL BL Hblue Hgenesis.
  intros F Hrs. pose proof (fetched_good n upper x (mid ++ [y]) low own rs F Hrs) as G. destruct (fetched_accepted _ _ _ _ _ _ F ltac:(by destruct mid) G) as (n' & [idx rec] & Hbf). exists n', idx, rec. split; [done|].
  destruct (fetched_lowest _ _ _ _ _ F) as (_ & Hlow & Es & Ho). destruct (gc_has_anchor _ _ _ _ _ _ G) as (ra & Hra).
  assert (rs ≠ []) as Hne by (intros ->; by apply elem_of_nil in Hra). assert (Forall (λ e : record, 0 <= e.1) rs) as Hpos by (apply Forall_forall; intros e He; by apply (gc_range _ _ _ _ _ _ G)).
  destruct (backfill_effect hr n own (pp :: above) x _ rs n' idx rec (ft_index _ _ _ _ _ F) Hlow Hne Hpos Hbf) as (Hix & _ & C).
  assert (placed (Zlength ((mid ++ [y]) ++ low)) rs = rs) as Ep by (apply filter_all, Forall_forall; intros e He; by destruct (gc_range _ _ _ _ _ _ G e He) as [[_ ?] _]).
  pose proof (ce_db _ _ _ _ _ _ _ C) as Edb. rewrite Ep in Edb. pose proof (λ z, step_rows n upper x (mid ++ [y]) low own rs n' idx rec z F Hrs Ep C (gc_hashes _ _ _ _ _ _ G)) as Hrows.
  pose proof (ft_split _ _ _ _ _ F) as E. rewrite Es in Hix. replace (own + (Zlength below - own)) with (Zlength below) in Hix by lia. split; [|split; [|split]].
  - rewrite (ce_written _ _ _ _ _ _ _ C), Ep. assert (∃ e, e ∈ filter (λ e : record, e.1 < Zlength ((mid ++ [y]) ++ low)) rs) as [e He].
    { destruct (serves_records _ _ _ _ _ (upper ++ x :: mid) y low SV) as (_ & r & Hr & _); [by rewrite E, <- !app_assoc|]. exists (Zlength low + 0, r). apply list_elem_of_filter. split.
      - cbn. rewrite !Zlength_app. pose proof (Zlength_ge0 mid). change (Zlength [y]) with 1. lia.
      - rewrite Hrs. apply elem_of_served. by exists (x :: mid), y, []. }
    destruct (filter _ rs) as [|e' es]; [by apply elem_of_nil in He|]. rewrite Zlength_cons. pose proof (Zlength_ge0 es). lia.
  - rewrite (ce_records _ _ _ _ _ _ _ C), Ep. split; [apply Zlength_ge0|]. unfold Zlength. apply inj_le, length_filter.
  - split; [by rewrite E, <- !app_assoc|done|by right| | | |].
    + intros j b Hj. replace (j + Zlength below - Zlength below) with j by lia. by apply (step_low n upper x (mid ++ [y]) low own rs n' idx rec).
    + intros z _ Hz. rewrite <- app_assoc, <- app_comm_cons in Hz. apply Hrows; [|done]. rewrite E, app_comm_cons. apply elem_of_app. apply elem_of_app in Hz as [Hz|Hz]; [by left|right; apply elem_of_app; by left].
    + intros z Hz. by apply Hrows.
    + destruct (ft_base _ _ _ _ _ F) as [B1 B2]. split.
      * rewrite <- B1. unfold TreeStore.get, TreeStore.get_present. rewrite Edb. f_equal. exact (other_rows (h_db n) ShieldedTreeFrontier pp rs ltac:(done)).
      * unfold MuHashStore.get in B2 |- *. rewrite Edb. pose proof (other_rows (h_db n) ShieldedNullifierMuHash pp rs ltac:(done)) as Em. cbn in Em |- *. by rewrite Em.
  - intros Hz z. rewrite Edb. apply scan_row_same. destruct (decide (z ∈ hashes rs)) as [Hin|]; [right|by left]. apply list_elem_of_fmap in Hin as (e & -> & He). intros Hnone.
    rewrite (ce_records _ _ _ _ _ _ _ C), Ep in Hz. assert (e ∈ filter (λ e : record, ScanStore.get (h_db n) (cbd_hash e.2) = None) rs) as Hf by by apply list_elem_of_filter.
    destruct (filter _ rs) as [|e' es]; [by apply elem_of_nil in Hf|]. rewrite Zlength_cons in Hz. pose proof (Zlength_ge0 es). lia.
Qed.

(** ** The rounds *)

Context (bincode_serialize : ShieldedChainBlockData → option bytes) (bincode_deserialize : bytes → option ShieldedChainBlockData) (late : Z → bool).
Definition wire_size (r : ShieldedChainBlockData) : Z := match bincode_serialize r with Some d => Zlength d | None => 0 end.
Definition block_size (y : bytes) : Z := match shielded_chain_block_data hs (h_db ns) y with Some r => wire_size r | None => 0 end.
(** The records survive their encoding and respect the receiver's ceilings, and the deadline is not passed. *)
Record transferable : Prop := {
  tr_wire y r : y ∈ pp :: below → shielded_chain_block_data hs (h_db ns) y = Some r →
    ∃ d, bincode_serialize r = Some d ∧ bincode_deserialize d = Some r ∧ Zlength d <= MAX_HISTORY_RECORD_BYTES;
  tr_chunk upper part low : pp :: below = upper ++ part ++ low → Zlength part <= HISTORY_CHUNK_BLOCKS + 1 → sum_list_Z (block_size <$> part) <= MAX_HISTORY_CHUNK_BYTES;
  tr_time k : late k = false;
  tr_rounds : Zlength below < 2 ^ 32;
}.
Context (T : transferable).

Lemma wire_chunk (rs : list record) : (∀ e, e ∈ rs → ∃ d, bincode_serialize e.2 = Some d ∧ bincode_deserialize d = Some e.2 ∧ Zlength d <= MAX_HISTORY_RECORD_BYTES) →
  ∃ es, mapM (entry_of bincode_serialize) rs = Some es ∧ mapM (record_of bincode_deserialize) es = Some rs ∧ (λ e, Zlength (e_data e)) <$> es = (λ e : record, wire_size e.2) <$> rs ∧
    existsb (λ e, MAX_HISTORY_RECORD_BYTES <? Zlength (e_data e)) es = false.
Proof using.
  induction rs as [|[i r] rs IH]; intros H; [by exists []|]. destruct (H (i, r) ltac:(left)) as (d & E1 & E2 & E3). cbn [snd] in *. destruct IH as (es & I1 & I2 & I3 & I4); [intros e He; apply H; by right|].
  exists (mk_entry (cbd_hash r) d i :: es). split; [|split; [|split]].
  - apply mapM_Some in I1. apply mapM_Some. constructor; [|done]. unfold entry_of. cbn [fst snd]. by rewrite E1.
  - apply mapM_Some in I2. apply mapM_Some. constructor; [|done]. unfold record_of. cbn [e_data e_chain_index]. by rewrite E2.
  - rewrite !fmap_cons, I3. cbn [e_data snd]. unfold wire_size. by rewrite E1.
  - cbn [existsb e_data]. rewrite I4, orb_false_r. apply Z.ltb_ge. done.
Qed.
Lemma served_sizes base part : (∀ y, y ∈ part → is_Some (shielded_chain_block_data hs (h_db ns) y)) → (λ e : record, wire_size e.2) <$> served hs ns base part = block_size <$> part.
Proof using.
  induction part as [|x part IH]; intros H; [done|]. destruct (H x ltac:(left)) as [r Hr]. cbn [served]. rewrite Hr, !fmap_cons, IH by (intros y Hy; apply H; by right). f_equal. unfold block_size. by rewrite Hr.
Qed.
(** The first record in index order is that of the lowest block. *)
Lemma lowest_record upper x mid y low : pp :: below = upper ++ x :: (mid ++ [y]) ++ low →
  ∃ r rs, merge_sort index_le (served hs ns (Zlength low) (x :: mid ++ [y])) = (Zlength low, r) :: rs ∧ cbd_hash r = y.
Proof using SV RL BL.
  intros E. set (rs := served hs ns (Zlength low) (x :: mid ++ [y])). pose proof (merge_sort_Permutation index_le rs) as Hp.
  assert (Sorted index_le (merge_sort index_le rs)) as Hs by (apply Sorted_merge_sort; intros a b; unfold index_le; lia).
  apply Sorted_StronglySorted in Hs; [|intros a b c; unfold index_le; lia].
  destruct (serves_records _ _ _ _ _ (upper ++ x :: mid) y low SV) as (_ & r & Hr & Hg); [by rewrite E, <- !app_assoc|].
  assert ((Zlength low, r) ∈ rs) as Hin. { apply elem_of_served. exists (x :: mid), y, []. split; [done|]. split; [cbn; unfold Zlength; cbn; lia|done]. }
  destruct (merge_sort index_le rs) as [|[i r'] l] eqn:Em; [rewrite <- Hp in Hin; by apply elem_of_nil in Hin|].
  assert ((i, r') ∈ rs) as Hi by (rewrite <- Hp; left). destruct (part_elem x (mid ++ [y]) low upper rs _ E (Permutation_refl _) Hi) as (c & z & d & Ec & Ei & _ & _ & Hgz). cbn [fst snd] in *.
  assert (i <= Zlength low) as Hle. { rewrite <- Hp in Hin. apply elem_of_cons in Hin as [[= -> _]|Hin]; [lia|]. inversion Hs as [|? ? _ Hf]; subst. exact (proj1 (Forall_forall _ _) Hf _ Hin). }
  destruct d as [|w d]; [|rewrite Zlength_cons in Ei; pose proof (Zlength_ge0 d); lia]. assert (i = Zlength low) as -> by (rewrite Ei; unfold Zlength; cbn; lia).
  exists r', l. split; [done|]. rewrite (go_hash _ _ Hgz). rewrite app_comm_cons in Ec. by apply app_inj_tail in Ec as [_ ->].
Qed.

(** The state of the requester, with [rest] still to be fetched. *)
Record fetch_ok (s : FetchState) (rest : list bytes) : Prop := {
  fo_state : ∃ upper own, fetched (f_node s) upper (f_anchor s) rest own;
  fo_rounds : 0 <= f_rounds s ∧ f_rounds s + Zlength rest <= Zlength below;
  fo_total : 0 <= f_total_rec s <= f_rounds s * (HISTORY_CHUNK_BLOCKS + 1);
  fo_none : f_total_rec s = 0 → ∀ z, ScanStore.get (h_db (f_node s)) z = ScanStore.get (h_db nr) z;
}.
Abbreviation round := (fetch_round hr bincode_deserialize (λ _, serve_request hs bincode_serialize ns) late).

Lemma serve_request_ok upper x mid y low : pp :: below = upper ++ x :: (mid ++ [y]) ++ low → Zlength (mid ++ [y]) <= HISTORY_CHUNK_BLOCKS → low = [] ∨ Zlength (mid ++ [y]) = HISTORY_CHUNK_BLOCKS →
  let rs := served hs ns (Zlength low) (x :: mid ++ [y]) in
  ∃ es, serve_request hs bincode_serialize ns x MAX_BLOCKS_PER_CHUNK = Some (mk_chunk es (bool_decide (low = [])) (Zlength ((mid ++ [y]) ++ low))) ∧
    mapM (record_of bincode_deserialize) es = Some rs ∧ es ≠ [] ∧ chunk_refused (mk_chunk es (bool_decide (low = [])) (Zlength ((mid ++ [y]) ++ low))) = false ∧ Zlength rs <= HISTORY_CHUNK_BLOCKS + 1.
Proof using SV T RL BL.
  intros E Hle Hmax rs. assert (∀ z, z ∈ x :: mid ++ [y] → ∃ r, shielded_chain_block_data hs (h_db ns) z = Some r) as Hd.
  { intros z (c & d & Ec)%list_elem_of_split. destruct (serves_records _ _ _ _ _ (upper ++ c) z (d ++ low) SV) as (_ & r & Hr & _); [by rewrite E, app_comm_cons, Ec, <- !app_assoc|]. by exists r. }
  assert (indexed_chain ns (x :: (mid ++ [y]) ++ low)) as Hix.
  { pose proof (sv_index _ _ _ _ _ SV) as Hix. intros i Hi. rewrite Hix by (rewrite E, length_app; lia). rewrite E, reverse_app, lookup_app_l by (by rewrite length_reverse). done. }
  destruct (wire_chunk rs) as (es & Es & Ed & Esz & Eb).
  { intros e (c & z & d & Ec & _ & Hz)%elem_of_served. apply (tr_wire T z); [|done]. rewrite E, app_comm_cons, Ec. apply elem_of_app. right. apply elem_of_app. left. apply elem_of_app. right. left. }
  assert (Zlength es = Zlength (mid ++ [y]) + 1) as El.
  { apply (f_equal length) in Esz. rewrite !length_fmap in Esz. unfold Zlength at 1. rewrite Esz. rewrite <- (length_fmap (λ e : record, wire_size e.2)). unfold rs. rewrite served_sizes by done. rewrite length_fmap. unfold Zlength. cbn [length]. lia. }
  exists es. split; [|split; [done|split; [|split]]].
  - unfold serve_request, handle_request. replace (Z.max 1 (Z.min MAX_BLOCKS_PER_CHUNK HISTORY_CHUNK_BLOCKS)) with HISTORY_CHUNK_BLOCKS by done.
    rewrite (serves_chunk hs ns x (mid ++ [y]) low HISTORY_CHUNK_BLOCKS); [|done|exact (sv_mirrored _ _ _ _ _ SV)|exact Hd|done|done]. fold rs. by rewrite Es.
  - intros ->. rewrite Zlength_app in El. pose proof (Zlength_ge0 mid). change (Zlength [y]) with 1 in El. unfold Zlength at 1 in El. cbn in El. lia.
  - unfold chunk_refused. cbn [msg_entries msg_done]. rewrite Esz, Eb, El. unfold rs. rewrite served_sizes by done.
    pose proof (tr_chunk T upper (x :: mid ++ [y]) low ltac:(by rewrite E) ltac:(rewrite Zlength_cons; lia)) as Hc. unfold HISTORY_CHUNK_BLOCKS, MAX_HISTORY_CHUNK_RECORDS, MIN_HISTORY_CHUNK_RECORDS in *.
    destruct (Z.ltb_spec 8000 (Zlength (mid ++ [y]) + 1)); [lia|]. destruct (Z.ltb_spec MAX_HISTORY_CHUNK_BYTES (sum_list_Z (block_size <$> x :: mid ++ [y]))); [lia|]. cbn [orb].
    destruct Hmax as [->|Hmax]; [by rewrite bool_decide_eq_true_2|]. destruct (Z.ltb_spec (Zlength (mid ++ [y]) + 1) 1000); [lia|]. apply andb_false_r.
  - apply (f_equal length) in Esz. rewrite !length_fmap in Esz. unfold Zlength at 1. rewrite <- Esz. fold (Zlength es). lia.
Qed.
(** A round places a chunk and goes on below its lowest block, or ends at the genesis. *)
Lemma round_ok s rest : fetch_ok s rest → rest ≠ [] →
  ∃ n' y total rounds low, (length low < length rest)%nat ∧ fetch_ok (mk_fetch n' y total rounds) low ∧
    round s = if bool_decide (low = []) then inr (Ok (mk_fetch n' (f_anchor s) total rounds, Fetched true)) else inl (mk_fetch n' y total rounds).
Proof using SV A T RL BL Hblue Hgenesis.
  intros [(upper & own & F) Hrd Htot Hnone] Hne. set (x := f_anchor s) in *. pose (low := drop (Z.to_nat HISTORY_CHUNK_BLOCKS) rest).
  destruct (exists_last (l := take (Z.to_nat HISTORY_CHUNK_BLOCKS) rest)) as (mid & y & Emid); [destruct rest; [done|]; by intros [=]|].
  assert (rest = (mid ++ [y]) ++ low) as Er by (rewrite <- Emid; symmetry; apply take_drop).
  assert (Zlength (mid ++ [y]) <= HISTORY_CHUNK_BLOCKS ∧ (low = [] ∨ Zlength (mid ++ [y]) = HISTORY_CHUNK_BLOCKS)) as [Hle Hmax].
  { unfold Zlength. rewrite <- Emid, length_take. unfold HISTORY_CHUNK_BLOCKS in *. split; [lia|]. destruct (decide (length rest <= Z.to_nat 4000)%nat); [left; unfold low; by apply drop_ge|right; lia]. }
  clear Emid. clearbody low. subst rest. pose proof (ft_split _ _ _ _ _ F) as E.
  destruct (serve_request_ok upper x mid y low E Hle Hmax) as (es & Ereq & Edec & Hes & Href & Hlen). set (rs := served hs ns (Zlength low) (x :: mid ++ [y])) in *.
  destruct (lowest_record upper x mid y low E) as (ry & rs' & Esort & Ery). fold rs in Esort.
  destruct (fetched_step (f_node s) upper x mid y low own (merge_sort index_le rs) F (merge_sort_Permutation _ _)) as (n' & idx & rec & Hbf & Hidx & Hrec & F' & Hrows).
  assert (Zlength (merge_sort index_le rs) = Zlength rs) as El by (unfold Zlength; by rewrite (Permutation_length (merge_sort_Permutation index_le rs))).
  pose proof (tr_rounds T) as Hr32. rewrite !Zlength_app in Hrd. change (Zlength [y]) with 1 in Hrd. pose proof (Zlength_ge0 mid). pose proof (Zlength_ge0 low).
  exists n', y, (f_total_rec s + rec), (f_rounds s + 1), low. split; [rewrite !length_app; cbn; lia|]. split.
  - split; cbn [f_node f_anchor f_total_rec f_rounds]; [by eexists _, _|lia|unfold HISTORY_CHUNK_BLOCKS in *; lia|].
    intros Hz z. rewrite Hrows by lia. apply Hnone. lia.
  - unfold fetch_round. fold x. rewrite Ereq, bool_decide_eq_false_2 by done. rewrite Href, (tr_time T). cbn [orb msg_entries msg_anchor_index msg_done]. rewrite Edec, Esort, <- Esort, Hbf.
    rewrite (proj2 (add_u_ok 64 (f_total_rec s) rec _)), (proj2 (add_u_ok 32 (f_rounds s) 1 _)) by (split; [reflexivity|unfold HISTORY_CHUNK_BLOCKS in *; lia]).
    case_bool_decide as Hlow; [done|]. destruct (Z.eqb_spec idx 0); [lia|]. cbn [andb f_anchor]. rewrite Ery, bool_decide_eq_false_2; [done|]. intros ->.
    pose proof (chain_split_unique upper x _ (upper ++ x :: mid) low E ltac:(by rewrite E, <- !app_assoc)) as Eu. apply (f_equal length) in Eu. rewrite !length_app in Eu. cbn in Eu. lia.
Qed.
Lemma rounds_ok fuel : ∀ s rest, fetch_ok s rest → rest ≠ [] → (length rest <= fuel)%nat →
  ∃ n' x y total rounds, loop_nat round fuel s = inr (Ok (mk_fetch n' x total rounds, Fetched true)) ∧ fetch_ok (mk_fetch n' y total rounds) [].
Proof using SV A T RL BL Hblue Hgenesis.
  induction fuel as [|fuel IH]; intros s rest Hs Hne Hf; [destruct rest; [done|cbn in Hf; lia]|]. destruct (round_ok s rest Hs Hne) as (n' & y & total & rounds & low & Hl & Hs' & E). cbn [loop_nat]. rewrite E.
  case_bool_decide as Hlow; [subst low; by exists n', (f_anchor s), y, total, rounds|]. destruct (IH _ low Hs' Hlow ltac:(lia)) as (n2 & x & y' & total' & rounds' & El & H2). by exists n2, x, y', total', rounds'.
Qed.
End transfer.

(** ** The whole transfer *)

Lemma chain_last b l : chain cd b l → last l = Some (genesis cd).
Proof. induction 1 as [|b p l Hp Hl IH]; [done|]. destruct (chain_head _ _ _ Hl) as [l' ->]. exact IH. Qed.

Context (natural_mod_inverse : Z → Z → option Z) (debug_assertions : bool) {ML : MuHashLaws chacha20 natural_mod_inverse}.
Abbreviation request hr deserialize peer late := (request_shielded_history (N := orchard_notes fp) (note_hash_64 fp) (note_hash_32 fp) MuHashElementHash chacha20 MuHashFinalizeHash
  natural_mod_inverse debug_assertions hr (genesis cd) (shielded_coinbase_seed_activation fp) deserialize peer late).

(** C14. History sync, over all its chunks: a node that starts at a pruning point [pp] asks a node that archived the chain of [pp] for the history below, at
    most 4,000 blocks a request, each request below the lowest block it was sent.  It reaches the genesis within one round per missing block, every
    chunk is accepted, and the replay verifies: the function succeeds, the node then has the record of every block from the genesis to [pp], indexed
    from the genesis, and reports its history as complete.  The records must survive their encoding and respect the receiver's size ceilings, the
    deadline must not pass, the tree at [pp] must hold notes, and some record must be missing. *)
Theorem served_history_verifies hs hr ns nr pp above below cs h pps serialize deserialize late fuel y :
  blue_rises cd → 0 <= blue_score cd (genesis cd) → pp ≠ genesis cd → serves hs ns pp (pp :: below) cs → starts_at hr nr pp above below cs h →
  transferable hs ns pp below serialize deserialize late → fs_size (to_state (st_tree (cs_state cs))) ≠ 0 → pruning_points_on cd (pp :: below) pps →
  y ∈ pp :: below → y ≠ genesis cd → ScanStore.get (h_db nr) y = None → (length below <= fuel)%nat →
  ∃ nr' daa, request hr deserialize (λ _, serve_request hs serialize ns) late fuel pps pp nr = Some (Ok (nr', true)) ∧
    archived_chain nr' (pp :: below) ∧ indexed_chain nr' (pp :: below) ∧ h_verified_base nr' = Some pp ∧ get_shielded_history_status hr (genesis cd) nr' = (daa, true).
Proof using RL BL OL ML.
  intros Hb H0 Hne SV A T Hsz Hpps Hy Hyg Hnone Hf. pose proof (sv_chain _ _ _ _ _ SV) as Hl. pose proof (sa_own _ _ _ _ _ _ _ A) as [Hix0 _].
  assert (below ≠ []) as Hbelow by (intros ->; inversion Hl as [|b p l Hp Hl']; [done|inversion Hl']).
  destruct (rounds_ok hs hr ns nr pp above below cs h Hb H0 SV A serialize deserialize late T fuel (mk_fetch nr pp 0 0) below) as (n' & x & z & total & rounds & El & [(upper & own & F) _ Htot Hrows]); [|done|done|].
  { split; cbn; [exists [], 0; by apply fetched_start with (hs := hs) (ns := ns) (h := h) (hr := hr)|lia|lia|done]. }
  cbn [f_node f_anchor f_total_rec f_rounds] in *. assert (own = Zlength below) as ->.
  { destruct (ft_own _ _ _ _ _ _ _ _ _ F) as [[_ ->]|]; [|done]. pose proof (ft_split _ _ _ _ _ _ _ _ _ F) as E. by injection E as _ ->. }
  assert (archived_chain n' (pp :: below)) as Har.
  { intros b Hb'. apply (ft_rows _ _ _ _ _ _ _ _ _ F); [done|]. by rewrite (ft_split _ _ _ _ _ _ _ _ _ F) in Hb'. }
  assert (indexed_chain n' (pp :: below)) as Hix.
  { intros i Hi. unfold get_by_index. apply option_eq. intros b. rewrite (ft_low _ _ _ _ _ _ _ _ _ F) by (unfold Zlength; cbn in Hi; lia).
    replace (Z.of_nat i + Zlength below - Zlength below) with (Z.of_nat i) by lia. rewrite Nat2Z.id. unfold Zlength. cbn. split; [by intros [_ ?]|split; [lia|done]]. }
  pose proof (ix_mirror _ _ _ (ft_index _ _ _ _ _ _ _ _ _ F)) as Hm. pose proof (ft_base _ _ _ _ _ _ _ _ _ F) as Hbase.
  assert (0 < total) as Htotal.
  { destruct (Z.eq_dec total 0) as [->|]; [|lia]. specialize (Hrows eq_refl y). apply list_elem_of_split in Hy as (c & d & E). destruct (decide (d = [])) as [->|Hd].
    - rewrite E in Hl. pose proof (chain_suffix _ _ _ _ _ Hl) as Hc. inversion Hc as [|b p l Hp Hl']; subst; [done|inversion Hl'].
    - destruct (row_present hs ns pp below cs SV n' c y d E Hd) as (sd & Esd & _); [apply Har; rewrite E; apply elem_of_app; right; left|]. congruence. }
  destruct (archive_verifies sha256 blake2b anchor_to_bytes MuHashElementHash chacha20 MuHashFinalizeHash cd fp natural_mod_inverse debug_assertions n' pps pp (pp :: below) cs
    Hb Hl (sv_state _ _ _ _ _ SV) Hne Har Hix Hm Hbase ltac:(by rewrite (proj1 Hbase))) as (nr'' & leaves & V); [by eapply pruning_points_ok|].
  destruct (verified_effect (N := orchard_notes fp) (note_hash_64 fp) (note_hash_32 fp) MuHashElementHash chacha20 MuHashFinalizeHash natural_mod_inverse debug_assertions
    (shielded_coinbase_seed_activation fp) n' pps pp nr'' _ _ V) as (Ei & Ev & Er).
  exists nr''. eexists. split_and!.
  - unfold request_shielded_history. assert (get_shielded_history_base (genesis cd) nr = pp) as ->.
    { unfold get_shielded_history_base, get_by_index. by rewrite (ix_own _ _ _ Hix0) by lia. }
    rewrite El. cbn [mbind res_bind].
    unfold finish_fetch. cbn [f_total_rec f_node]. destruct (Z.ltb_spec 0 total); [|lia]. by rewrite V.
  - intros b Hb'. rewrite Er. by apply Har.
  - intros i Hi. rewrite Ei. by apply Hix.
  - done.
  - unfold get_shielded_history_status. rewrite Ei. assert (get_by_index (h_index n') 0 = Some (genesis cd)) as ->.
    { pose proof (Hix 0%nat ltac:(cbn; lia)) as E. etrans; [exact E|]. apply chain_last in Hl. rewrite <- head_lookup, head_reverse. exact Hl. }
    rewrite Ev. rewrite bool_decide_eq_true_2, (bool_decide_eq_true_2 (is_Some _)), orb_true_r by (done || by eexists). reflexivity.
Qed.
End sync.
