(* ===== verification/HistoryExample.v ===== *)
(** A node that validated the example chain, a node that starts from its tip, and the history the one serves to the other. *)
From stdpp Require Import base gmap list.
From S2P Require Import Prelude Turnstile Nullifier Burn AnchorLog Tree Bundle ShieldedState StateRoot Tx Encoding TxHash Limbs MuHash.
From S2P Require Import TxValidator ExampleCrypto ShieldedStores ShieldedManager ShieldedSnapshots Coinbase CoinbaseNotes Mergeset ChainWalk ChainSpec ChainExample ReorgSafety.
From S2P Require Import SelectedChain History HistoryBackfill HistoryVerify HistorySafety HistoryFlow HistorySync.

Abbreviation example_verify := (verify_shielded_history (N := orchard_notes example_fp) (note_hash_64 example_fp) (note_hash_32 example_fp) example_element example_stream example_final
  example_mod_inverse true (shielded_coinbase_seed_activation example_fp)).
Abbreviation example_rows := (block_rows example_hash example_keyed example_anchor_bytes example_element example_stream example_final example_cd example_fp).

(** ** The nodes *)

Definition example_index : SelectedChain := mk_sc {[0 := [0]; 1 := [1]]} {[ [0] := 0; [1] := 1 ]} (Some 1).
Lemma example_index_ok : index_of example_index 0 (reverse [[1]; [0]]).
Proof.
  destruct (apply_changes_ok (init_with_pruning_point no_chain [0]) 0 [[0]] [] [[1]]) as (sc & E & H & _); [apply init_ok|done|decide_by_eval| |vm_compute; congruence|].
  { intros h i ->%list_elem_of_singleton. cbn. rewrite lookup_singleton_ne by done. done. }
  assert (sc = example_index) as <-; [|exact H]. vm_compute in E. injection E as <-. vm_compute. reflexivity.
Qed.
(** The node that validated the chain, with the stores [db]. *)
Definition archive_node (db : Db) : HistoryNode := mk_history example_index db false None None.
(** A node that starts from the block [1]: the state of that block, and no record. *)
Definition pruned_node (db : Db) : HistoryNode :=
  mk_history (init_with_pruning_point no_chain [1]) (write db [Delete ShieldedScanBlock [0]; Delete ShieldedScanBlock [1]]) false None None.
Definition example_header (b : bytes) : option CompactHeaderData := Some (mk_header (from_be_bytes b) (daa_score example_cd b) 0).

Lemma example_blue_rises : blue_rises example_cd.
Proof. intros b p [-> [-> | ->]]%example_parents; vm_compute; reflexivity. Qed.
Lemma example_leaves cs : example_state [[1]; [0]] = Some cs → fs_size (to_state (st_tree (cs_state cs))) ≠ 0.
Proof.
  intros E. assert (match example_state [[1]; [0]] with Some cs => negb (fs_size (to_state (st_tree (cs_state cs))) =? 0) | None => false end = true) as H by (vm_compute; reflexivity).
  rewrite E in H. by apply negb_true_iff, Z.eqb_neq in H.
Qed.
Lemma example_archive : ∃ n cs, example_history n [1] ∧ example_state [[1]; [0]] = Some cs ∧ base_rows example_element example_stream (n_db n) [1] cs ∧
  archived_chain example_hash example_keyed example_anchor_bytes example_element example_stream example_final example_cd example_fp (archive_node (n_db n)) [[1]; [0]].
Proof.
  destruct example_at_one as [n Hn]. destruct (node_rows example_hash example_keyed example_anchor_bytes example_element example_stream example_final example_cd example_fp example_mod_inverse true
    example_no_collision n [1] [[1]; [0]] [1] Hn example_chain_one ltac:(left)) as (cs & Hs & Hr).
  exists n, cs. split; [done|]. split; [exact (state_of_chain _ _ _ Hs example_chain_one)|]. pose proof (br_snapshot _ _ _ _ _ _ _ _ _ _ _ Hr) as Hsnap. split.
  - split; [exact (snap_frontier _ _ _ _ _ _ Hsnap)|exact (snap_muhash _ _ _ _ _ _ Hsnap)].
  - exact (node_archive example_hash example_keyed example_anchor_bytes example_element example_stream example_final example_cd example_fp example_mod_inverse true example_no_collision n [1]
      [[1]; [0]] (archive_node (n_db n)) Hn example_chain_one eq_refl).
Qed.
Lemma archive_node_indexed db : indexed_chain (archive_node db) [[1]; [0]].
Proof. apply (indexed_prefix (archive_node db) _ _ example_index_ok). by exists []. Qed.
Lemma example_pruning_points : pruning_points_on example_cd [[1]; [0]] [([0], mk_header 0 0 0); ([1], mk_header 1 1 0)].
Proof.
  exists [0; 1]. split; [|repeat constructor; lia]. constructor; [|constructor; [|constructor]]; (split; [lia|]; split; [reflexivity|]; split; vm_compute; reflexivity).
Qed.
Lemma example_serves n cs : example_state [[1]; [0]] = Some cs →
  archived_chain example_hash example_keyed example_anchor_bytes example_element example_stream example_final example_cd example_fp (archive_node (n_db n)) [[1]; [0]] →
  serves example_hash example_keyed example_anchor_bytes example_element example_stream example_final example_cd example_fp example_header (archive_node (n_db n)) [1] [[1]; [0]] cs.
Proof.
  intros Hs Har. split; [exact example_chain_one|exact Hs|exact Har|apply archive_node_indexed|exact (ix_mirror _ _ _ example_index_ok)|]. exists (mk_header 0 0 0). split; [reflexivity|]. split; vm_compute; reflexivity.
Qed.
Lemma pruned_rows db t k : t ≠ ShieldedScanBlock → h_db (pruned_node db) t !! k = db t !! k.
Proof. intros Ht. apply write_other. repeat constructor; intros [E _]; by cbn in E. Qed.
Lemma pruned_no_record db b : b ∈ [[1]; [0]] → ScanStore.get (h_db (pruned_node db)) b = None.
Proof.
  intros Hb. unfold ScanStore.get, pruned_node, h_db, write. cbn [foldl apply_op]. rewrite !set_table_same.
  apply elem_of_cons in Hb as [-> | ->%list_elem_of_singleton].
  - exact (lookup_delete_eq (_ : gmap bytes (row ShieldedScanBlock)) [1]).
  - etrans; [exact (lookup_delete_ne (_ : gmap bytes (row ShieldedScanBlock)) [1] [0] ltac:(done))|]. exact (lookup_delete_eq (_ : gmap bytes (row ShieldedScanBlock)) [0]).
Qed.
Lemma example_starts n cs : base_rows example_element example_stream (n_db n) [1] cs →
  starts_at example_hash example_keyed example_anchor_bytes example_element example_stream example_final example_cd example_fp example_header (pruned_node (n_db n)) [1] [] [[0]] cs (mk_header 1 1 0).
Proof.
  intros [H1 H2]. split.
  - split; [apply init_ok|done].
  - vm_compute. congruence.
  - reflexivity.
  - intros x hx Hx [= <-]. apply elem_of_cons in Hx as [-> | ->%list_elem_of_singleton]; split; vm_compute; reflexivity.
  - intros x ->%list_elem_of_singleton. vm_compute. reflexivity.
  - intros x Hx. left. by apply pruned_no_record.
  - split.
    + rewrite <- H1. unfold TreeStore.get, TreeStore.get_present. reflexivity.
    + unfold MuHashStore.get in H2 |- *. pose proof (pruned_rows (n_db n) ShieldedNullifierMuHash [1] ltac:(done)) as E. cbn in E |- *. by rewrite E.
Qed.

(** ** Witnesses *)


(** The archive of the example chain verifies. *)
Lemma example_verified : ∃ n hn leaves, example_verify (archive_node (n_db n)) [] [1] = Ok (hn, Verified 2 leaves).
Proof.
  destruct example_archive as (n & cs & Hn & Hs & Hb & Har). exists n. apply (archive_verifies example_hash example_keyed example_anchor_bytes example_element example_stream example_final example_cd example_fp
    example_mod_inverse true (archive_node (n_db n)) [] [1] [[1]; [0]] cs); [exact example_blue_rises|exact example_chain_one|exact Hs|discriminate|exact Har|apply archive_node_indexed|
    exact (ix_mirror _ _ _ example_index_ok)|exact Hb| |exists []; by repeat constructor].
  cbn [archive_node h_db]. rewrite (proj1 Hb). exact (example_leaves cs Hs).
Qed.
Lemma verified_history_sound_witness : ∃ n hn leaves, example_verify n [] [1] = Ok (hn, Verified 2 leaves) ∧ h_verified_base hn = Some [1].
Proof.
  destruct example_verified as (n & hn & leaves & E). exists (archive_node (n_db n)), hn, leaves. split; [exact E|].
  destruct (verified_history_sound _ _ _ _ _ _ _ _ _ _ _ _ _ _ E) as (its & cms & t & _ & _ & _ & Hb & _). exact Hb.
Defined.

(** A record as one number. *)
Definition record_tuple (r : ShieldedChainBlockData) :=
  (cbd_hash r, cbd_blue_score r, cbd_daa_score r, cbd_coinbase_txid r, cbd_coinbase_outputs r, cbd_coinbase_commitments r, cbd_accepted_actions r, cbd_accepted_txids r, cbd_timestamp r).
Definition record_untuple (t : bytes * Z * Z * bytes * list (bytes * Z) * list bytes * list bytes * list bytes * Z) : ShieldedChainBlockData :=
  let '(a, b, c, d, e, f, g, h, i) := t in mk_chain_block a b c d e f g h i.
Definition example_serialize (r : ShieldedChainBlockData) : option bytes := Some [Z.pos (countable.encode (record_tuple r))].
Definition example_deserialize (b : bytes) : option ShieldedChainBlockData := match b with [Z.pos p] => record_untuple <$> countable.decode p | _ => None end.
Lemma example_transferable n : transferable example_header (archive_node (n_db n)) [1] [[0]] example_serialize example_deserialize (λ _, false).
Proof.
  split.
  - intros y r _ _. eexists. split; [reflexivity|]. split; [|vm_compute; congruence]. unfold example_deserialize. rewrite countable.decode_encode. by destruct r.
  - intros upper part low E Hl. assert (∀ y, block_size example_header (archive_node (n_db n)) example_serialize y <= 1) as H1.
    { intros y. unfold block_size. destruct (shielded_chain_block_data _ _ _); [|lia]. unfold wire_size, example_serialize, Zlength. cbn [length]. lia. }
    assert (sum_list_Z (block_size example_header (archive_node (n_db n)) example_serialize <$> part) <= Zlength part) as H2.
    { clear E Hl. induction part as [|y part IH]; [done|]. rewrite fmap_cons, Zlength_cons. cbn [sum_list_Z foldr]. specialize (H1 y). unfold sum_list_Z in *. cbn. lia. }
    unfold HISTORY_CHUNK_BLOCKS, MAX_HISTORY_CHUNK_BYTES in *. lia.
  - done.
  - vm_compute. reflexivity.
Qed.

Lemma served_history_verifies_witness : ∃ n nr' daa,
  request_shielded_history (N := orchard_notes example_fp) (note_hash_64 example_fp) (note_hash_32 example_fp) example_element example_stream example_final example_mod_inverse true
    example_header (genesis example_cd) (shielded_coinbase_seed_activation example_fp) example_deserialize (λ _, serve_request example_header example_serialize (archive_node (n_db n)))
    (λ _, false) 1 [([0], mk_header 0 0 0); ([1], mk_header 1 1 0)] [1] (pruned_node (n_db n)) = Some (Ok (nr', true)) ∧
  get_shielded_history_status example_header (genesis example_cd) nr' = (daa, true).
Proof.
  destruct example_archive as (n & cs & Hn & Hs & Hb & Har). exists n.
  destruct (served_history_verifies example_hash example_keyed example_anchor_bytes example_element example_stream example_final example_cd example_fp example_mod_inverse true
    example_header example_header (archive_node (n_db n)) (pruned_node (n_db n)) [1] [] [[0]] cs (mk_header 1 1 0) [([0], mk_header 0 0 0); ([1], mk_header 1 1 0)]
    example_serialize example_deserialize (λ _, false) 1 [1]
    example_blue_rises ltac:(vm_compute; congruence) ltac:(discriminate) (example_serves n cs Hs Har) (example_starts n cs Hb) (example_transferable n) (example_leaves cs Hs)
    example_pruning_points ltac:(left) ltac:(discriminate) (pruned_no_record (n_db n) [1] ltac:(left)) ltac:(cbn; lia)) as (nr' & daa & E1 & _ & _ & _ & E2).
  exists nr', daa. split; [exact E1|exact E2].
Defined.
